(* ===== verification/_CoqProject ===== *)
-Q . S2P
Prelude.v
GoStrings.v
GoTime.v
GoDuration.v
GoNet.v
Config.v
Logging.v
Pods.v
GatewayConfig.v
RateLimiter.v
ConnectionTracker.v
GatewayServer.v
GatewayHandlers.v
GatewayLoops.v
GatewayInterleaving.v
DataInfo.v
World.v
ConnectionPool.v
MemgraphClient.v
MemgraphNode.v
Metrics.v
Queues.v
LeaderElection.v
ProberState.v
ControllerState.v
Sim.v
Controller.v
Failover.v
Cluster.v
Health.v
Reconcile.v
Events.v
Prober.v
Lifecycle.v
Status.v
Startup.v
HttpApi.v
HttpServer.v
Contract.v
Threads.v
System.v
Liveness.v
Handover.v
Lifetime.v
Process.v
Instances.v
Goroutines.v
Concurrency.v
