(* ===== verification/Prelude.v ===== *)
(** * Memgraph controller: verification library (root file)

    The program is the controller of a two-pod highly available Memgraph
    deployment on Kubernetes.  Every instance watches the data pods
    ("<statefulset>-0", "<statefulset>-1" and further replicas), proxies client
    connections to the main through a read/write gateway and to a replica
    through a read-only gateway, and serves an HTTP API.  The elected leader
    also reconciles the replication roles and fails over to the strict-sync
    standby.  Which of the two data pods is the target main is an index kept in
    a ConfigMap.

    ** Files, in the order of their dependencies

    - Prelude.v: Go errors, results, the panic monad [M] with its notations,
      the frame reasoning [keeps R m] (every run of [m] is in [R]), the
      totality reasoning [safe P m Q] (from [P], [m] returns, without a panic,
      in [Q]), their hint databases and tactics, list tallies.
    - GoStrings.v, GoTime.v, GoDuration.v, GoNet.v: what the code uses of Go's
      strings, strconv, fmt, time and net packages, float64 included.
    - Config.v ([common/config.go]), Logging.v ([common/logging.go]),
      GatewayConfig.v ([gateway/config.go]), Pods.v (pod readiness,
      [controller/kubernetes.go]).
    - The gateway: RateLimiter.v ([rate_limiter.go]), ConnectionTracker.v
      ([connection_tracker.go]), GatewayServer.v ([server.go]: state, upstream
      switch, admission), GatewayHandlers.v ([Start], [handleConnection],
      [proxyConnections] and the step relation [hstep] of all goroutines),
      GatewayLoops.v (the accept loop and the clean-up loops),
      GatewayInterleaving.v (the races of a switch with the handlers, one
      critical section per step).
    - Memgraph: DataInfo.v (replication health and the [data_info] parsers),
      World.v (everything outside the repository), ConnectionPool.v,
      MemgraphClient.v, MemgraphNode.v (files of the same names).
    - Metrics.v ([metrics/metrics.go]), Queues.v (the two event queues with
      their deduplication), LeaderElection.v, ProberState.v (counters).
    - ControllerState.v: the struct [MemgraphController] as the record [Ctl],
      and [effects P], what a piece of code may do to it.  Controller.v
      ([controller_core.go]), Failover.v ([queue_failover.go]), Cluster.v
      ([memgraph_cluster.go]), Health.v ([isHealthy], the preStop hook,
      [reconcileGateway]), Reconcile.v ([controller_reconcile.go],
      [queue_reconcile.go]), Events.v ([controller_events.go]), Prober.v
      ([prober.go]), Lifecycle.v (leadership callbacks, shutdown, reset of all
      connections), Status.v ([GetClusterStatus], [status_api.go],
      [httpapi/types.go]), Startup.v ([main.go], [NewMemgraphController],
      [Initialize]), HttpApi.v ([httpapi/server.go]: the handlers), HttpServer.v
      (the same file: the server, its routes and its timeouts).
    - Contract.v: the abstract specification of the controller and its
      refinement by the failover and the reconciliation; System.v: the
      controller as a transition system, one operation per step; Liveness.v:
      failovers that go through; Handover.v: leadership moving between
      instances.
    - Lifetime.v: the specification of an instance's whole life, from the start
      without an index through discovery; Process.v: the process itself, the
      select loops of [Run], of the prober and of the queue workers, the signal
      handler and [main] ([proc_step]), from [main]'s start to its end.
      Instances.v: any number of such processes over one world.
    - Threads.v: code cut into actions, threads, a mutex, pools of threads,
      their termination, and a program logic for them (a class [Discipline]
      says what the threads agree on); Goroutines.v: the controller's
      goroutines as such threads; Concurrency.v: the contract, progress and
      termination under every interleaving.
    - Sim.v is a small world for the witnesses and models no code.

    ** How state and operations correspond to the code

    An operation of the controller is a function [M (Ctl W) A]: it takes the
    state and returns a value or a panic with the new state, so every early
    return, ignored error and nil dereference of the code is in the definition.
    A Go error is a value of [error] or [option error].  Nodes are mutable Go
    objects reached through the cluster map; they are referred to by their key.
    What the repository does not contain (the Bolt driver, the Kubernetes API
    and informer cache, YAML, the environment, the clock, the order of a map
    iteration, the case a [select] takes) is the class [World], whose
    operations are arbitrary functions on an abstract state [W]; what
    Kubernetes answers during the start is the record [Boot].  [WorldOrder],
    that a map iteration visits each key once, is the only law most theorems
    assume; those of Liveness.v also assume [Cooperative], a reachable, obedient
    standby and a writable ConfigMap, and each witness runs them in Sim.v.

    The state carries a trace of observable events ([io]: queries with their
    address, ConfigMap writes, gateway switches, disconnections, node
    refreshes).  The trace is a ghost: nothing reads it.  Safety is stated on
    it.

    Components interact as in the code: informer callbacks, the HTTP API and
    the prober enqueue events (Events.v, Prober.v into Queues.v); the queue
    workers take them out and run the failover check (Failover.v) or the
    reconciliation (Reconcile.v), which call the node methods (MemgraphNode.v
    over MemgraphClient.v over ConnectionPool.v) and switch the gateways
    (GatewayServer.v).  System.v has one operation per such entry point, and
    between any two of them the world changes at will.

    ** What the theorems show

    - The contract (Contract.v, System.v, Concurrency.v): for every interleaving
      of the goroutines' actions the history of events is a run of the
      specification; a database is promoted, and the index stored, only behind
      a closed read/write gateway; the indexes stored alternate; no goroutine
      panics, none waits for the mutex for ever, and every run ends.
      [thread_is_operation] ties the actions to the operations.
    - The process and its instances (Lifetime.v, Process.v, Instances.v): from
      the moment [main] waits, through discovery, failovers and the shutdown, the
      history of every instance is a run of the specification; which two steps
      can crash the process, and how it ends; an instance that does not lead
      writes nothing; and how two instances can hold open gateways to two mains.
    - Failover (Failover.v, Liveness.v, Prober.v, Handover.v): which address is
      promoted, after which checks, with which outcome; that it goes through
      when the standby cooperates; which events never lead to one; and what a
      new leader inherits.
    - Reconciliation and discovery (Reconcile.v, Cluster.v): termination, what
      is demoted, registered and dropped, when databases are written, refresh.
    - Gateways (RateLimiter.v to GatewayInterleaving.v, Health.v,
      Controller.v): accounting of connections from [Accept] to their end, no
      handler on a stale upstream, the token bucket's bound, where both gateways point.
    - The surroundings: the HTTP API, its routing and its timeouts, the status,
      the start and the shutdown, the configurations, logging, leadership,
      queues, parsers.
    - Examples, and theorems of the error kind, record crashes and surprises:
      in Startup.v the start-ups that crash, in Process.v and Lifecycle.v the
      double close of the stop channel, the pod that arrives during a discovery
      and the prober that outlives its stop, in HttpServer.v the hook that is
      never answered, in GatewayLoops.v the loop that spins, in Handover.v the outage from a stale index, in
      Prober.v the failover that never happens, in Concurrency.v the gateway
      that opens behind the preStop hook's back and the discovery that overwrites
      a failover.

    ** Integers, bounds and fuel

    Counters and indexes are [Z] with [int32], [int64] or [uint64] wrapping
    written where the code can reach it; durations are nanoseconds; the token
    bucket and [Duration.Seconds] use IEEE binary64 from SpecFloat.  Fuel occurs
    only in the scanners of Go's library ([skip_spaces], [sscanf_skip_space],
    [trim_right_rev], [duration_components], [ipv6_groups]): it is the length of
    the input, every round of which consumes at least one character, or the
    eight groups of an IPv6 address.  The preStop loop takes the number of ticks
    its context allows; the HTTP handler is modelled for every number.

    ** Atomicity

    The definitions of Failover.v to HttpApi.v describe an operation that nothing
    interrupts, and the theorems of these files are about such runs; so are
    System.v, Liveness.v, Handover.v, Lifetime.v, Process.v and Instances.v.  Goroutines.v cuts the operations that
    take [operationMu], the health check and the preStop hook after every call
    they make, and Concurrency.v interleaves them with everything else.  One
    action is one call on a node (with its queries), a gateway, a queue, the
    pod cache or the ConfigMap, or one helper: [isHealthy], [Refresh],
    [updateReadGatewayUpstream], [protectReadGatewayBeforeRoleChange],
    [getHealthyRole], [lastChancePing], the two checks of the prober, the
    recording of metrics.  An informer callback and a request other than
    preStop are one action.  The gateways have an interleaving of their
    own, in GatewayHandlers.v and GatewayInterleaving.v.  Go's memory model is
    taken to be sequentially consistent.

    The theorems of Lifetime.v and Process.v start with an instance that has no
    index.  They assume that the ConfigMap, when it has an index, has 0 or 1
    ([IndexLaws]): the program writes nothing else and does not check what it
    reads.  Those of System.v and Concurrency.v start once the index is loaded
    ([two_pods], [sound]): discovery does not take the mutex, and interrupted
    by a failover it breaks the contract (at the end of Concurrency.v).

    ** Not modelled

    What is logged, and the handlers of log/slog; sockets, TLS and the bytes
    copied; the gateways' Prometheus calls and wait groups; client-go's election
    protocol (its callbacks come in any order and number), informers and REST
    configuration; the listener, the mux and the graceful shutdown of the HTTP
    server (the mux and the write timeout are used by their documentation), JSON
    encoding and promhttp; the Helm chart, scripts and tests.

    ** Plan

    Done: all components above.  Next: informer callbacks and the read-only
    gateway cut into actions; the instances of Instances.v with the actions of
    Concurrency.v; liveness under concurrency. *)

From stdpp Require Export base tactics list gmap strings pretty sorting.
From Stdlib Require Export ZArith Lia Ascii.

#[export] Set Default Goal Selector "!".

(** ** Go errors

    An [error] is what the program can observe of a Go error value: a message
    ([fmt.Errorf] without [%w]), a message wrapping another error ([%w]), the
    Neo4j driver's structured error, a context error, or an error of some other
    third-party package, which the program only passes on. *)
Inductive error :=
  | Errorf (msg : string)
  | Wrapf (msg : string) (inner : error)
  | Neo4jError (code msg : string)
  | CtxErr (msg : string)
  | OtherErr (msg : string).

(** [result A] is a Go pair [(A, error)] whose first component is not used when
    the error is non-nil. *)
Inductive result (A : Type) :=
  | Ok (a : A)
  | Err (e : error).
Arguments Ok {A} a.
Arguments Err {A} e.

(** [err.Error()]: [fmt.Errorf("msg: %w", inner)] joins both texts. *)
Fixpoint error_string (e : error) : string :=
  match e with
  | Errorf msg => msg
  | Wrapf msg inner => msg +:+ ": " +:+ error_string inner
  | Neo4jError code msg => "Neo4jError: " +:+ code +:+ " (" +:+ msg +:+ ")"
  | CtxErr msg => msg
  | OtherErr msg => msg
  end.

(** [errors.As(err, &neo4jErr)]: walk the chain of wrapped errors. *)
Fixpoint errors_as_neo4j (e : error) : option (string * string) :=
  match e with
  | Wrapf _ inner => errors_as_neo4j inner
  | Neo4jError code msg => Some (code, msg)
  | _ => None
  end.

Definition is_ok {A} (r : result A) : bool :=
  match r with Ok _ => true | Err _ => false end.

Definition is_nil {A} (e : option A) : bool :=
  match e with None => true | Some _ => false end.

(** ** The state monad with panics

    [M S A] is a Go function that reads and writes the shared state [S] and
    either returns or panics; a panic keeps the state written so far. *)
Inductive outcome (A : Type) :=
  | Ret (a : A)
  | Panic (why : string).
Arguments Ret {A} a.
Arguments Panic {A} why.

Definition M (S A : Type) : Type := S → outcome A * S.

Global Instance M_ret {S} : MRet (M S) := λ A a s, (Ret a, s).
Global Instance M_bind {S} : MBind (M S) := λ A B f m s,
  match m s with
  | (Ret a, s') => f a s'
  | (Panic w, s') => (Panic w, s')
  end.

Definition get {S} : M S S := λ s, (Ret s, s).
Definition gets {S A} (f : S → A) : M S A := λ s, (Ret (f s), s).
Definition modify {S} (f : S → S) : M S unit := λ s, (Ret (), f s).
Definition panic {S A} (why : string) : M S A := λ s, (Panic why, s).

Definition nil_deref : string :=
  "invalid memory address or nil pointer dereference".

(** [zoom g u m] runs [m] on the part of the state selected by [g] and written
    back by [u]. *)
Definition zoom {S T A} (g : S → T) (u : T → S → S) (m : M T A) : M S A := λ s,
  match m (g s) with (o, t) => (o, u t s) end.

(** [mapM_ f xs]: the body [f] of a [for range] loop, run on each element. *)
Fixpoint forM_ {S A} (xs : list A) (f : A → M S unit) : M S unit :=
  match xs with
  | [] => mret ()
  | x :: xs => f x ≫= λ _, forM_ xs f
  end.

(** A [for range] loop that folds a local variable. *)
Fixpoint foldM {S A B} (f : B → A → M S B) (xs : list A) (b : B) : M S B :=
  match xs with
  | [] => mret b
  | x :: xs => f b x ≫= foldM f xs
  end.

Declare Scope go_scope.
Delimit Scope go_scope with go.
#[export] Set Warnings "-notation-overridden".

(** [v, err := m; if err != nil { h }; k] *)
Notation "'let?' x ':=' m 'orelse' e '=>' h 'in' k" :=
  (mbind (λ r, match r with Ok x => k | Err e => h end) m)
  (at level 10, x name, e name, m at level 99, h at level 99, k at level 200)
  : go_scope.
(** [if err := m; err != nil { h }; k] *)
Notation "'check?' m 'orelse' e '=>' h 'in' k" :=
  (mbind (λ r, match r with None => k | Some e => h end) m)
  (at level 10, e name, m at level 99, h at level 99, k at level 200)
  : go_scope.
Open Scope go_scope.

(** ** Program logic: weakest preconditions and frames *)

Definition wp {S A} (m : M S A) (Q : outcome A → S → Prop) (s : S) : Prop :=
  Q (m s).1 (m s).2.

(** [returns m Q s]: [m] does not panic and its result satisfies [Q]. *)
Definition returns {S A} (m : M S A) (Q : A → S → Prop) (s : S) : Prop :=
  wp m (λ o s', match o with Ret a => Q a s' | Panic _ => False end) s.

(** [keeps R m]: whatever [m] does, it moves the state along [R]. *)
Definition keeps {S A} (R : relation S) (m : M S A) : Prop :=
  ∀ s, R s (m s).2.

Create HintDb keeps.
Create HintDb go.

Section wp.
Context {S : Type}.
Implicit Types s : S.

Lemma wp_ret {A} (a : A) (Q : outcome A → S → Prop) s :
  Q (Ret a) s → wp (mret a) Q s.
Proof. done. Qed.

Lemma wp_bind {A B} (m : M S A) (f : A → M S B) (Q : outcome B → S → Prop) s :
  wp m (λ o s', match o with Ret a => wp (f a) Q s' | Panic w => Q (Panic w) s' end) s →
  wp (m ≫= f) Q s.
Proof.
  unfold wp, mbind, M_bind. destruct (m s) as [[a|w] s']; done.
Qed.

Lemma wp_mono {A} (m : M S A) (Q Q' : outcome A → S → Prop) s :
  wp m Q s → (∀ o s', Q o s' → Q' o s') → wp m Q' s.
Proof. unfold wp; auto. Qed.

Lemma wp_and {A} (m : M S A) (Q Q' : outcome A → S → Prop) s :
  wp m Q s → wp m Q' s → wp m (λ o s', Q o s' ∧ Q' o s') s.
Proof. unfold wp; auto. Qed.

(** The step used to take a call of a sub-operation out of a proof: its
    specification, applied before the continuation is looked at. *)
Lemma wp_call {A B} (m : M S A) (f : A → M S B) P (Q : outcome B → S → Prop) s :
  wp m P s →
  (∀ a s', P (Ret a) s' → wp (f a) Q s') →
  (∀ w s', P (Panic w) s' → Q (Panic w) s') →
  wp (m ≫= f) Q s.
Proof.
  intros Hm Hf Hp. apply wp_bind. eapply wp_mono; [exact Hm|].
  intros [a|w] s' HP; auto.
Qed.

Lemma wp_keeps {A} (R : relation S) (m : M S A) s :
  keeps R m → wp m (λ _ s', R s s') s.
Proof. unfold wp. auto. Qed.

Lemma wp_run {A} (m : M S A) (Q : outcome A → S → Prop) s o s' :
  wp m Q s → m s = (o, s') → Q o s'.
Proof. unfold wp. intros HQ Hm. by rewrite Hm in HQ. Qed.

Lemma returns_wp {A} (m : M S A) (Q : A → S → Prop) s :
  returns m Q s ↔ ∃ a s', m s = (Ret a, s') ∧ Q a s'.
Proof.
  unfold returns, wp. destruct (m s) as [[a|w] s']; simpl; naive_solver.
Qed.

Lemma returns_ret {A} (a : A) (Q : A → S → Prop) s :
  Q a s → returns (mret a) Q s.
Proof. done. Qed.

Lemma returns_bind {A B} (m : M S A) (f : A → M S B) (Q : B → S → Prop) s :
  returns m (λ a s', returns (f a) Q s') s → returns (m ≫= f) Q s.
Proof.
  unfold returns, wp, mbind, M_bind. destruct (m s) as [[a|w] s']; done.
Qed.

Lemma returns_mono {A} (m : M S A) (Q Q' : A → S → Prop) s :
  returns m Q s → (∀ a s', Q a s' → Q' a s') → returns m Q' s.
Proof. unfold returns, wp. destruct (m s) as [[a|w] s']; simpl; auto. Qed.

Lemma returns_and {A} (m : M S A) (Q : A → S → Prop) (P : S → Prop) s :
  returns m Q s → wp m (λ _ s', P s') s → returns m (λ a s', Q a s' ∧ P s') s.
Proof. unfold returns, wp. destruct (m s) as [[a|w] s']; simpl; auto. Qed.

(** Equations of the bind used to run a definition step by step. *)
Lemma bind_ret_run {A B} (m : M S A) (f : A → M S B) s a s' :
  m s = (Ret a, s') → (m ≫= f) s = f a s'.
Proof. unfold mbind, M_bind. by intros ->. Qed.

(** Inversion of a run that returned. *)
Lemma bind_ret_inv {A B} (m : M S A) (f : A → M S B) s b s' :
  (m ≫= f) s = (Ret b, s') → ∃ a s1, m s = (Ret a, s1) ∧ f a s1 = (Ret b, s').
Proof. unfold mbind, M_bind. destruct (m s) as [[a|w] s1]; naive_solver. Qed.

Lemma keeps_run {A} (R : relation S) (m : M S A) s o s' :
  keeps R m → m s = (o, s') → R s s'.
Proof. intros Hm Hr. specialize (Hm s). by rewrite Hr in Hm. Qed.

Lemma bind_panic_run {A B} (m : M S A) (f : A → M S B) s w s' :
  m s = (Panic w, s') → (m ≫= f) s = (Panic w, s').
Proof. unfold mbind, M_bind. by intros ->. Qed.
End wp.

Section keeps.
Context {S : Type} (R : relation S) `{!PreOrder R}.

Lemma keeps_ret {A} (a : A) : keeps R (mret a : M S A).
Proof. intros s. reflexivity. Qed.

Lemma keeps_bind {A B} (m : M S A) (f : A → M S B) :
  keeps R m → (∀ a, keeps R (f a)) → keeps R (m ≫= f).
Proof.
  intros Hm Hf s. unfold mbind, M_bind. specialize (Hm s).
  destruct (m s) as [[a|w] s']; simpl in *; [|done].
  etrans; [exact Hm|apply Hf].
Qed.

(** The same, from one state. *)
Lemma keeps_bind_at {A B} (m : M S A) (f : A → M S B) s :
  R s (m s).2 → (∀ a s1, m s = (Ret a, s1) → R s1 (f a s1).2) → R s ((m ≫= f) s).2.
Proof.
  intros Hm Hf. unfold mbind, M_bind. destruct (m s) as [[a|w] s1]; simpl in *; [|done].
  etrans; [exact Hm|by apply Hf].
Qed.

Lemma keeps_gets {A} (f : S → A) : keeps R (gets f).
Proof. intros s. reflexivity. Qed.

Lemma keeps_get : keeps R (get : M S S).
Proof. intros s. reflexivity. Qed.

Lemma keeps_panic {A} w : keeps R (panic w : M S A).
Proof. intros s. reflexivity. Qed.

Lemma keeps_modify (f : S → S) : (∀ s, R s (f s)) → keeps R (modify f).
Proof. intros Hf s. apply Hf. Qed.

Lemma keeps_zoom {T A} (g : S → T) (u : T → S → S) (m : M T A) :
  (∀ s t, R s (u t s)) → keeps R (zoom g u m).
Proof. intros Hu s. unfold zoom. destruct (m (g s)). apply Hu. Qed.

Lemma keeps_zoom_part {T A} (RT : relation T) (g : S → T) (u : T → S → S) (m : M T A) :
  keeps RT m → (∀ s t, RT (g s) t → R s (u t s)) → keeps R (zoom g u m).
Proof.
  intros Hm Hu s. unfold zoom. specialize (Hm (g s)).
  destruct (m (g s)). by apply Hu.
Qed.

Lemma keeps_forM {A} (xs : list A) (f : A → M S unit) :
  (∀ x, keeps R (f x)) → keeps R (forM_ xs f).
Proof.
  intros Hf. induction xs as [|x xs IH]; simpl.
  - apply keeps_ret.
  - apply keeps_bind; auto.
Qed.

Lemma keeps_foldM {A B} (f : B → A → M S B) (xs : list A) b :
  (∀ b x, keeps R (f b x)) → keeps R (foldM f xs b).
Proof.
  intros Hf. revert b. induction xs as [|x xs IH]; intros b; simpl.
  - apply keeps_ret.
  - apply keeps_bind; auto.
Qed.
End keeps.

(** A coarser relation is kept whenever a finer one is. *)
Lemma keeps_weaken {S A} (R R' : relation S) (m : M S A) :
  keeps R m → (∀ s s', R s s' → R' s s') → keeps R' m.
Proof. intros Hm HR s. apply HR, Hm. Qed.

#[export] Hint Resolve keeps_ret keeps_gets keeps_get keeps_panic : keeps.

(** [solve_keeps] walks a monadic definition: binds, loops, branches, and the
    leaves known to the [keeps] hint database. *)
Ltac keeps_step :=
  intros;
  lazymatch goal with
  | |- keeps _ (mbind _ _) => apply keeps_bind; [try typeclasses eauto| |intros ?]
  | |- keeps _ (forM_ _ _) => apply keeps_forM; [try typeclasses eauto|intros ?]
  | |- keeps _ (foldM _ _ _) => apply keeps_foldM; [try typeclasses eauto|intros ? ?]
  | |- keeps _ (match ?x with _ => _ end) => destruct x
  | |- keeps _ _ => solve [eauto with keeps typeclass_instances]
  | |- PreOrder _ => typeclasses eauto
  end.
Ltac solve_keeps := repeat keeps_step.

(** [wp_start] opens a [wp] goal on a definition whose head is a bind. *)
Ltac wp_step_with L :=
  eapply wp_call; [apply L|simpl; intros ? ?|simpl; intros ? ?].

(** [inv_bind H as a s1 Hm]: the first call of the run [H] returned [a] in
    state [s1]. *)
Tactic Notation "inv_bind" hyp(HH) "as" simple_intropattern(a) simple_intropattern(s1)
    simple_intropattern(Hm) :=
  apply bind_ret_inv in HH as (a & s1 & Hm & HH).

(** A loop that returns keeps an invariant of its accumulator and of the
    elements it has visited. *)
Lemma foldM_ret_ind {S A B} (Φ : list A → B → Prop) (f : B → A → M S B) :
  (∀ seen x b s b' s', Φ seen b → f b x s = (Ret b', s') → Φ (seen ++ [x]) b') →
  ∀ xs seen b s b' s', Φ seen b → foldM f xs b s = (Ret b', s') → Φ (seen ++ xs) b'.
Proof.
  intros Hf xs. induction xs as [|x xs IH]; intros seen b s b' s' Hb Hr; simpl in Hr.
  - injection Hr as <- _. by rewrite app_nil_r.
  - inv_bind Hr as b1 s1 H1. rewrite cons_middle, app_assoc.
    eapply IH; [eapply Hf; [exact Hb|exact H1]|exact Hr].
Qed.

(** ** Freedom from panics

    [safe I m Φ]: from every state satisfying the invariant [I], [m] returns, its
    result satisfies [Φ], and [I] holds again. *)
Definition safe {S A} (I : S → Prop) (m : M S A) (Φ : A → Prop) : Prop :=
  ∀ s, I s → ∃ a s', m s = (Ret a, s') ∧ I s' ∧ Φ a.

Definition anything {A} (a : A) : Prop := True.
Definition anywhere {S} (s : S) : Prop := True.

Create HintDb safe.

Section safe.
Context {S : Type} (I : S → Prop).

Lemma safe_ret {A} (a : A) (Φ : A → Prop) : Φ a → safe I (mret a : M S A) Φ.
Proof. intros HΦ s HI. by exists a, s. Qed.

Lemma safe_bind {A B} (m : M S A) (f : A → M S B) Φ Ψ :
  safe I m Φ → (∀ a, Φ a → safe I (f a) Ψ) → safe I (m ≫= f) Ψ.
Proof.
  intros Hm Hf s HI. destruct (Hm s HI) as (a & s1 & Hr & HI1 & HΦ).
  destruct (Hf a HΦ s1 HI1) as (b & s2 & Hr2 & HI2 & HΨ).
  exists b, s2. by rewrite (bind_ret_run m f s a s1 Hr).
Qed.

Lemma safe_mono {A} (m : M S A) (Φ Ψ : A → Prop) :
  safe I m Φ → (∀ a, Φ a → Ψ a) → safe I m Ψ.
Proof.
  intros Hm HΦ s HI. destruct (Hm s HI) as (a & s1 & Hr & HI1 & Ha).
  exists a, s1. auto.
Qed.

Lemma safe_gets {A} (f : S → A) : safe I (gets f) anything.
Proof. intros s HI. by exists (f s), s. Qed.

Lemma safe_modify (f : S → S) : (∀ s, I s → I (f s)) → safe I (modify f) anything.
Proof. intros Hf s HI. exists (), (f s). split; [done|]. split; [auto|done]. Qed.

Lemma safe_zoom {T A} (J : T → Prop) (g : S → T) (u : T → S → S) (m : M T A) Φ :
  safe J m Φ → (∀ s, I s → J (g s)) → (∀ s t, I s → J t → I (u t s)) →
  safe I (zoom g u m) Φ.
Proof.
  intros Hm Hg Hu s HI. destruct (Hm (g s) (Hg s HI)) as (a & t & Hr & HJ & HΦ).
  exists a, (u t s). unfold zoom. rewrite Hr. auto.
Qed.

Lemma safe_forM {A} (xs : list A) (f : A → M S unit) :
  (∀ x, x ∈ xs → safe I (f x) anything) → safe I (forM_ xs f) anything.
Proof.
  induction xs as [|x xs IH]; intros Hf; simpl; [by apply safe_ret|].
  eapply safe_bind; [apply Hf; set_solver|]. intros _ _. apply IH. set_solver.
Qed.

Lemma safe_foldM {A B} (f : B → A → M S B) (xs : list A) b (Φ : B → Prop) :
  Φ b → (∀ b x, Φ b → x ∈ xs → safe I (f b x) Φ) → safe I (foldM f xs b) Φ.
Proof.
  revert b. induction xs as [|x xs IH]; intros b Hb Hf; simpl; [by apply safe_ret|].
  eapply safe_bind; [apply Hf; set_solver|]. intros b' Hb'. apply IH; [done|set_solver].
Qed.
End safe.

#[export] Hint Resolve safe_gets : safe.

(** [solve_safe] walks a monadic definition like [solve_keeps]; the [safe]
    database gives what each call guarantees of its result. *)
Ltac safe_step :=
  intros;
  lazymatch goal with
  | |- safe _ (mbind _ _) _ =>
      first [eapply safe_bind; [solve [eauto with safe]|intros ? ?]
            |eapply (safe_bind _ _ _ anything); [|intros ? ?]]
  | |- safe _ (mret _) _ => apply safe_ret; try done
  | |- safe _ (match ?x with _ => _ end) _ => destruct x
  | |- safe _ _ _ => solve [eauto with safe]
  end.
Ltac solve_safe := repeat safe_step.

(** ** Relations used as frames: a projection does not change *)
Definition same {S T} (f : S → T) : relation S := λ s s', f s' = f s.

Global Instance same_preorder {S T} (f : S → T) : PreOrder (same f).
Proof. split; [done|]. unfold same. intros x y z ? ?. congruence. Qed.

Definition both {S} (R1 R2 : relation S) : relation S := λ s s', R1 s s' ∧ R2 s s'.

Global Instance both_preorder {S} (R1 R2 : relation S) `{!PreOrder R1, !PreOrder R2} :
  PreOrder (both R1 R2).
Proof.
  split.
  - intros x. split; reflexivity.
  - intros x y z [??] [??]. split; etrans; eauto.
Qed.

Lemma keeps_both {S A} (R1 R2 : relation S) (m : M S A) :
  keeps R1 m → keeps R2 m → keeps (both R1 R2) m.
Proof. intros H1 H2 s. split; auto. Qed.

(** ** Machine integers: Go's wrap-around conversions *)
Definition wrap (w : Z) (x : Z) : Z :=
  (x + 2 ^ (w - 1)) `mod` 2 ^ w - 2 ^ (w - 1).
Definition int32 (x : Z) : Z := wrap 32 x.
Definition int64 (x : Z) : Z := wrap 64 x.

Definition in_int32 (x : Z) : Prop := (- 2 ^ 31 ≤ x < 2 ^ 31)%Z.
Definition in_int64 (x : Z) : Prop := (- 2 ^ 63 ≤ x < 2 ^ 63)%Z.

Global Instance in_int32_dec x : Decision (in_int32 x).
Proof. unfold in_int32. apply _. Defined.
Global Instance in_int64_dec x : Decision (in_int64 x).
Proof. unfold in_int64. apply _. Defined.

Lemma int32_id x : in_int32 x → int32 x = x.
Proof.
  unfold in_int32, int32, wrap. intros H.
  rewrite Z.mod_small; lia.
Qed.

Lemma int64_id x : in_int64 x → int64 x = x.
Proof.
  unfold in_int64, int64, wrap. intros H.
  rewrite Z.mod_small; lia.
Qed.

Lemma int32_range x : in_int32 (int32 x).
Proof.
  unfold in_int32, int32, wrap.
  pose proof (Z.mod_pos_bound (x + 2 ^ (32 - 1)) (2 ^ 32) ltac:(lia)). lia.
Qed.

Lemma int64_range x : in_int64 (int64 x).
Proof.
  unfold in_int64, int64, wrap.
  pose proof (Z.mod_pos_bound (x + 2 ^ (64 - 1)) (2 ^ 64) ltac:(lia)). lia.
Qed.

(** A wrapped operand does not show in a wrapped sum. *)
Lemma int64_add_l x y : int64 (int64 x + y) = int64 (x + y).
Proof.
  unfold int64, wrap. f_equal.
  replace ((x + 2 ^ (64 - 1)) `mod` 2 ^ 64 - 2 ^ (64 - 1) + y + 2 ^ (64 - 1))%Z
    with ((x + 2 ^ (64 - 1)) `mod` 2 ^ 64 + y)%Z by lia.
  rewrite Z.add_mod_idemp_l by lia. f_equal. lia.
Qed.

Lemma int64_add_r x y : int64 (x + int64 y) = int64 (x + y).
Proof. by rewrite Z.add_comm, int64_add_l, Z.add_comm. Qed.

(** ** Generic list lemmas *)
Lemma existsb_Exists {A} (f : A → bool) l :
  existsb f l = true ↔ Exists (λ x, f x = true) l.
Proof.
  rewrite existsb_exists, Exists_exists.
  by setoid_rewrite list_elem_of_In.
Qed.

Lemma forallb_Forall {A} (f : A → bool) l :
  forallb f l = true ↔ Forall (λ x, f x = true) l.
Proof.
  rewrite forallb_forall, Forall_forall.
  by setoid_rewrite list_elem_of_In.
Qed.

(** Splitting a list at an element its first part does not contain. *)
Lemma app_split_first {A} (l1 l2 k1 k2 : list A) x :
  x ∉ l1 → l1 ++ l2 = k1 ++ x :: k2 → ∃ k, k1 = l1 ++ k ∧ l2 = k ++ x :: k2.
Proof.
  revert k1. induction l1 as [|y l1 IH]; intros k1 Hx Heq; [by exists k1|].
  destruct k1 as [|z k1]; simplify_eq/=; [set_solver|].
  destruct (IH k1) as (k & -> & ->); [set_solver|done|]. by exists k.
Qed.

Lemma app_split_last {A} (l1 l2 k1 k2 : list A) x :
  x ∉ l2 → l1 ++ l2 = k1 ++ x :: k2 → ∃ k, l1 = k1 ++ x :: k ∧ k2 = k ++ l2.
Proof.
  revert k1. induction l1 as [|y l1 IH]; intros k1 Hx Heq; simpl in Heq.
  - exfalso. apply Hx. subst. set_solver.
  - destruct k1 as [|z k1]; simplify_eq/=; [by exists l1|].
    destruct (IH k1) as (k & -> & ->); [done|done|]. by exists k.
Qed.

(** ** Counting the entries of a map *)

Section tally.
Context {K A : Type} `{Countable K}.
Implicit Types m : gmap K A.

(** How many values of [m] satisfy [p]. *)
Definition tally (p : A → bool) m : nat := map_fold (λ _ x n, if p x then S n else n) 0 m.

Lemma tally_empty p : tally p (∅ : gmap K A) = 0.
Proof. apply map_fold_empty. Qed.

Lemma tally_insert p m i x :
  m !! i = None → tally p (<[i := x]> m) = (if p x then 1 else 0) + tally p m.
Proof.
  intros Hi. unfold tally. rewrite map_fold_insert_L; [by destruct (p x)| |done].
  intros j1 j2 z1 z2 y _ _ _. by destruct (p z1), (p z2).
Qed.

Lemma tally_update p m i x y :
  m !! i = Some x →
  tally p (<[i := y]> m) + (if p x then 1 else 0) = tally p m + (if p y then 1 else 0).
Proof.
  intros Hi. rewrite <- (insert_delete_id m i x Hi) at 2. rewrite <- insert_delete_eq.
  rewrite !tally_insert by apply lookup_delete_eq. destruct (p x), (p y); lia.
Qed.

(** A change of one value that [p] does not see. *)
Lemma tally_same p m i x y :
  m !! i = Some x → p x = p y → tally p (<[i := y]> m) = tally p m.
Proof. intros Hi Hp. pose proof (tally_update p m i x y Hi) as Ht. rewrite Hp in Ht. lia. Qed.

Lemma tally_pos p m i x : m !! i = Some x → p x = true → 0 < tally p m.
Proof.
  intros Hi Hp. rewrite <- (insert_delete_id m i x Hi).
  rewrite tally_insert by apply lookup_delete_eq. rewrite Hp. lia.
Qed.

Lemma tally_zero p m : (∀ i x, m !! i = Some x → p x = false) → tally p m = 0.
Proof.
  induction m as [|i x m Hi IH] using map_ind; [intros _; apply tally_empty|].
  intros Hm. rewrite tally_insert by done. rewrite (Hm i x) by apply lookup_insert_eq.
  apply IH. intros j y Hj. apply (Hm j). rewrite lookup_insert_ne; [done|congruence].
Qed.
End tally.
