(* ===== verification/GoStrings.v ===== *)
(** * The parts of Go's [strings], [strconv] and [fmt] the controller uses

    A Go string is a byte string, here [String.string].  [fmt_d] is
    [fmt.Sprintf("%d", _)]; [sscanf_d] is [fmt.Sscanf(_, "%d", &int32)];
    [atoi], [parse_bool], [replace_all], [last_dash], [trim_space], [contains]
    are [strconv.Atoi], [strconv.ParseBool], [strings.ReplaceAll] on one
    character, the suffix after [strings.LastIndex(_, "-")],
    [strings.TrimSpace] and [strings.Contains]. *)

From S2P Require Import Prelude.

(** ** Decimal numbers *)

Definition fmt_d (z : Z) : string := pretty z.

Definition digit_value (c : Ascii.ascii) : option N :=
  let n := Ascii.N_of_ascii c in
  if bool_decide (48 ≤ n ≤ 57)%N then Some (n - 48)%N else None.

(** The longest digit prefix of [s], accumulated on top of [acc], and what is
    left of [s]. *)
Fixpoint scan_digits (s : string) (acc : N) : N * string :=
  match s with
  | String c s' =>
      match digit_value c with
      | Some d => scan_digits s' (10 * acc + d)%N
      | None => (acc, s)
      end
  | EmptyString => (acc, EmptyString)
  end.

Definition starts_with_digit (s : string) : bool :=
  match s with
  | String c _ => negb (is_nil (digit_value c))
  | EmptyString => false
  end.

(** An optional sign. *)
Definition take_sign (s : string) : bool * string :=
  match s with
  | String "+"%char s' => (false, s')
  | String "-"%char s' => (true, s')
  | _ => (false, s)
  end.

Definition signed (neg : bool) (n : N) : Z :=
  if neg then (- Z.of_N n)%Z else Z.of_N n.

(** [strconv.ParseInt(s, 10, 64)] (which [strconv.Atoi] is on a 64-bit
    platform): a sign, then digits only, in range. *)
Definition atoi (s : string) : result Z :=
  match s with
  | EmptyString => Err (OtherErr "strconv.Atoi: invalid syntax")
  | _ =>
    let (neg, body) := take_sign s in
    if starts_with_digit body then
      match scan_digits body 0 with
      | (n, EmptyString) =>
          if bool_decide (in_int64 (signed neg n)) then Ok (signed neg n)
          else Err (OtherErr "strconv.Atoi: value out of range")
      | _ => Err (OtherErr "strconv.Atoi: invalid syntax")
      end
    else Err (OtherErr "strconv.Atoi: invalid syntax")
  end.

(** Length in bytes of the white-space rune at the head of [s], 0 if there is
    none ([unicode.IsSpace], which [fmt] uses too; UTF-8 encoded). *)
Definition byte_list (s : string) : list N :=
  Ascii.N_of_ascii <$> String.list_ascii_of_string s.

Definition space_prefix (bs : list N) : nat :=
  match bs with
  | 194%N :: b :: _ => if bool_decide (b = 133 ∨ b = 160)%N then 2 else 0
  | 225%N :: 154%N :: 128%N :: _ => 3
  | 226%N :: 128%N :: b :: _ =>
      if bool_decide ((128 ≤ b ≤ 138) ∨ b = 168 ∨ b = 169 ∨ b = 175)%N then 3 else 0
  | 226%N :: 129%N :: 159%N :: _ => 3
  | 227%N :: 128%N :: 128%N :: _ => 3
  | b :: _ => if bool_decide ((9 ≤ b ≤ 13) ∨ b = 32)%N then 1 else 0
  | [] => 0
  end.

Definition string_drop (n : nat) (s : string) : string :=
  String.string_of_list_ascii (drop n (String.list_ascii_of_string s)).

Fixpoint skip_spaces (fuel : nat) (s : string) : string :=
  match fuel with
  | O => s
  | S fuel =>
      match space_prefix (byte_list s) with
      | O => s
      | n => skip_spaces fuel (string_drop n s)
      end
  end.

(** [ss.SkipSpace] inside [Sscanf], where a newline is not a space: [None] is
    the error "unexpected newline". *)
Fixpoint sscanf_skip_space (fuel : nat) (s : string) : option string :=
  match fuel with
  | O => Some s
  | S fuel =>
      if bool_decide (byte_list s !! 0 = Some 10%N) then None
      else match space_prefix (byte_list s) with
           | O => Some s
           | n => sscanf_skip_space fuel (string_drop n s)
           end
  end.

(** [fmt.Sscanf(s, "%d", &x)] with [x int32]; text after the number is
    ignored. Every space consumes at least a byte, so the length is enough
    fuel. *)
Definition sscanf_d (s : string) : result Z :=
  match sscanf_skip_space (String.length s) s with
  | None => Err (OtherErr "unexpected newline")
  | Some s1 =>
    let (neg, body) := take_sign s1 in
    if starts_with_digit body then
      let n := signed neg (scan_digits body 0).1 in
      if bool_decide (in_int64 n) then
        if bool_decide (in_int32 n) then Ok n
        else Err (OtherErr "integer overflow on token")
      else Err (OtherErr "strconv.ParseInt: value out of range")
    else
      match body with
      | EmptyString => Err (OtherErr "unexpected EOF")
      | _ => Err (OtherErr "expected integer")
      end
  end.

(** ** Searching and replacing *)

(** [strings.ReplaceAll(s, old, new)] for one-byte [old] and [new]. *)
Fixpoint replace_all (old new : Ascii.ascii) (s : string) : string :=
  match s with
  | EmptyString => EmptyString
  | String c s' =>
      String (if bool_decide (c = old) then new else c) (replace_all old new s')
  end.

Fixpoint has_char (a : Ascii.ascii) (s : string) : bool :=
  match s with
  | EmptyString => false
  | String c s' => bool_decide (c = a) || has_char a s'
  end.

(** [strings.LastIndex(s, "-")], as the suffix after the last dash. *)
Fixpoint after_last_dash (s : string) : option string :=
  match s with
  | EmptyString => None
  | String c s' =>
      match after_last_dash s' with
      | Some r => Some r
      | None => if bool_decide (c = "-"%char) then Some s' else None
      end
  end.

(** [strings.HasPrefix] *)
Definition has_prefix (s pre : string) : bool := String.prefix pre s.

(** [strings.Contains] *)
Fixpoint contains (s sub : string) : bool :=
  String.prefix sub s ||
  match s with
  | EmptyString => false
  | String _ s' => contains s' sub
  end.

(** [strings.TrimSpace]: white space removed at both ends.  The trailing part
    is found on the reversed bytes. *)
Definition rev_space_suffix (bs : list N) : nat :=
  match bs with
  | b :: 194%N :: _ =>
      if bool_decide (b = 133 ∨ b = 160)%N then 2
      else if bool_decide ((9 ≤ b ≤ 13) ∨ b = 32)%N then 1 else 0
  | 128%N :: 154%N :: 225%N :: _ => 3
  | 128%N :: 128%N :: 227%N :: _ => 3
  | 159%N :: 129%N :: 226%N :: _ => 3
  | b :: 128%N :: 226%N :: _ =>
      if bool_decide ((128 ≤ b ≤ 138) ∨ b = 168 ∨ b = 169 ∨ b = 175)%N then 3
      else if bool_decide ((9 ≤ b ≤ 13) ∨ b = 32)%N then 1 else 0
  | b :: _ => if bool_decide ((9 ≤ b ≤ 13) ∨ b = 32)%N then 1 else 0
  | [] => 0
  end.

Fixpoint trim_right_rev (fuel : nat) (bs : list N) : list N :=
  match fuel with
  | O => bs
  | S fuel =>
      match rev_space_suffix bs with
      | O => bs
      | n => trim_right_rev fuel (drop n bs)
      end
  end.

Definition string_of_bytes (bs : list N) : string :=
  String.string_of_list_ascii (Ascii.ascii_of_N <$> bs).

Definition trim_space (s : string) : string :=
  let s1 := skip_spaces (String.length s) s in
  let bs := byte_list s1 in
  string_of_bytes (reverse (trim_right_rev (length bs) (reverse bs))).

(** [strings.ToLower] on the ASCII letters. *)
Definition lower_char (c : Ascii.ascii) : Ascii.ascii :=
  let n := Ascii.N_of_ascii c in
  if bool_decide (65 ≤ n ≤ 90)%N then Ascii.ascii_of_N (n + 32) else c.

Fixpoint to_lower (s : string) : string :=
  match s with
  | EmptyString => EmptyString
  | String c s' => String (lower_char c) (to_lower s')
  end.

(** [strconv.ParseBool] *)
Definition parse_bool (s : string) : option bool :=
  if bool_decide (s ∈ ["1"; "t"; "T"; "TRUE"; "true"; "True"]) then Some true
  else if bool_decide (s ∈ ["0"; "f"; "F"; "FALSE"; "false"; "False"]) then Some false
  else None.

Example sscanf_examples :
  sscanf_d "1" = Ok 1%Z ∧ sscanf_d "  -1x" = Ok (-1)%Z ∧
  sscanf_d "2147483648" = Err (OtherErr "integer overflow on token") ∧
  sscanf_d "pod" = Err (OtherErr "expected integer").
Proof. by vm_compute. Qed.

(** With the length as fuel the loops end where no space is left. *)
Lemma trim_right_rev_done n bs :
  length bs ≤ n → rev_space_suffix (trim_right_rev n bs) = 0.
Proof.
  revert bs. induction n as [|n IH]; intros [|b bs] Hn; simpl in Hn; try done; [lia|].
  cbn [trim_right_rev]. destruct (rev_space_suffix (b :: bs)) as [|k] eqn:Hk; [done|].
  apply IH. rewrite length_drop. simpl. lia.
Qed.

Lemma string_drop_length k s : String.length (string_drop k s) = String.length s - k.
Proof.
  unfold string_drop. revert s. induction k as [|k IH]; intros [|c s]; simpl; try done.
  f_equal. rewrite String.string_of_list_ascii_of_string. lia.
Qed.

Lemma skip_spaces_done n s :
  String.length s ≤ n → space_prefix (byte_list (skip_spaces n s)) = 0.
Proof.
  revert s. induction n as [|n IH]; intros [|c s] Hn; simpl in Hn; try done; [lia|].
  cbn [skip_spaces]. destruct (space_prefix (byte_list (String c s))) as [|k] eqn:Hk; [done|].
  apply IH. rewrite string_drop_length. simpl. lia.
Qed.

Lemma sscanf_skip_space_done n s s' :
  String.length s ≤ n → sscanf_skip_space n s = Some s' → space_prefix (byte_list s') = 0.
Proof.
  revert s. induction n as [|n IH]; intros [|c s] Hn; simpl in Hn; [|lia| |].
  - by intros [= <-].
  - by intros [= <-].
  - cbn [sscanf_skip_space]. case_bool_decide; [done|].
    destruct (space_prefix (byte_list (String c s))) as [|k] eqn:Hk; [by intros [= <-]|].
    apply IH. rewrite string_drop_length. simpl. lia.
Qed.

Example trim_space_examples :
  trim_space "  {} " = "{}" ∧ trim_space "   " = "" ∧ trim_space "a b" = "a b".
Proof. by vm_compute. Qed.

(** ** Lemmas *)

Lemma digit_value_char (d : N) :
  (d < 10)%N → digit_value (pretty_N_char d) = Some d.
Proof.
  intros Hd.
  assert (d ∈ [0; 1; 2; 3; 4; 5; 6; 7; 8; 9]%N) as Hin.
  { destruct d as [|p]; [set_solver|].
    repeat (destruct p as [p|p|]; try lia; try set_solver). }
  repeat (apply elem_of_cons in Hin as [->|Hin]; [reflexivity|]).
  by apply elem_of_nil in Hin.
Qed.

Lemma scan_pretty_go (x : N) : ∀ s acc,
  (0 < x)%N → acc = 0%N →
  scan_digits (pretty_N_go x s) acc = scan_digits s x.
Proof.
  induction (N.lt_wf_0 x) as [x _ IH]; intros s acc Hx ->.
  rewrite pretty_N_go_step by done.
  assert (digit_value (pretty_N_char (x `mod` 10)) = Some (x `mod` 10)%N) as Hd.
  { apply digit_value_char, N.mod_lt; lia. }
  pose proof (N.div_mod x 10 ltac:(lia)) as Hdm.
  destruct (decide (x `div` 10 = 0)%N) as [H0|H0].
  - rewrite H0 in Hdm |- *. rewrite pretty_N_go_0. simpl. rewrite Hd.
    f_equal. by rewrite <- Hdm.
  - rewrite IH; [|by apply N.div_lt|by apply N.neq_0_lt_0|done].
    simpl. rewrite Hd. f_equal. by rewrite <- Hdm.
Qed.

Lemma starts_with_digit_pretty_go (x : N) : ∀ s,
  (0 < x)%N → starts_with_digit (pretty_N_go x s) = true.
Proof.
  induction (N.lt_wf_0 x) as [x _ IH]; intros s Hx.
  rewrite pretty_N_go_step by done.
  destruct (decide (x `div` 10 = 0)%N) as [H0|H0].
  - rewrite H0, pretty_N_go_0. unfold starts_with_digit.
    rewrite digit_value_char; [done|]. apply N.mod_lt; lia.
  - apply IH; [by apply N.div_lt|by apply N.neq_0_lt_0].
Qed.

Lemma scan_pretty_N (x : N) : scan_digits (pretty x) 0 = (x, "").
Proof.
  unfold pretty, pretty_N. destruct (decide (x = 0%N)) as [->|Hx]; [done|].
  rewrite scan_pretty_go; [done|lia|done].
Qed.

Lemma starts_with_digit_pretty_N (x : N) : starts_with_digit (pretty x) = true.
Proof.
  unfold pretty, pretty_N. destruct (decide (x = 0%N)) as [->|Hx]; [done|].
  apply starts_with_digit_pretty_go. lia.
Qed.

(** A string that starts with a digit has neither sign nor white space there. *)
Lemma take_sign_digit s : starts_with_digit s = true → take_sign s = (false, s).
Proof.
  destruct s as [|c s]; [done|]. unfold starts_with_digit, digit_value.
  case_bool_decide as Hc; [intros _|done]. unfold take_sign.
  destruct c as [[] [] [] [] [] [] [] []]; try done; cbv in Hc; exfalso; naive_solver.
Qed.

Lemma skip_space_no_space fuel s :
  space_prefix (byte_list s) = 0 → byte_list s !! 0 ≠ Some 10%N →
  sscanf_skip_space fuel s = Some s.
Proof.
  intros Hs Hn. destruct fuel; cbn [sscanf_skip_space]; [done|].
  by rewrite bool_decide_eq_false_2, Hs.
Qed.

Lemma space_prefix_small b bs :
  (33 ≤ b < 128)%N → space_prefix (b :: bs) = 0.
Proof.
  intros Hb.
  assert (bool_decide ((9 ≤ b ≤ 13) ∨ b = 32)%N = false) as Hd
    by (apply bool_decide_eq_false; lia).
  unfold space_prefix.
  repeat case_match; try done; subst; try lia; try congruence.
Qed.

Lemma digit_or_sign_skip fuel c s :
  (33 ≤ Ascii.N_of_ascii c < 128)%N → sscanf_skip_space fuel (String c s) = Some (String c s).
Proof.
  intros Hc. apply skip_space_no_space.
  - apply space_prefix_small, Hc.
  - change (byte_list (String c s) !! 0) with (Some (Ascii.N_of_ascii c)).
    intros [= Heq]. lia.
Qed.

Lemma starts_with_digit_skip fuel s :
  starts_with_digit s = true → sscanf_skip_space fuel s = Some s.
Proof.
  destruct s as [|c s]; [done|]. unfold starts_with_digit, digit_value.
  case_bool_decide as Hc; [intros _|done].
  apply digit_or_sign_skip. lia.
Qed.

(** What [%d] prints, [%d] and [Atoi] read back. *)
Lemma fmt_d_body (z : Z) :
  ∃ (neg : bool) (n : N), fmt_d z = (if neg then "-" +:+ pretty n else pretty n : string) ∧
           signed neg n = z ∧ (neg = true → z < 0)%Z.
Proof.
  destruct z as [|p|p].
  - exists false, 0%N. done.
  - exists false, (Npos p). done.
  - exists true, (Npos p). done.
Qed.

Lemma take_sign_fmt (neg : bool) (n : N) :
  take_sign (if neg then "-" +:+ pretty n else pretty n : string) = (neg, pretty n).
Proof.
  destruct neg; [done|]. apply take_sign_digit, starts_with_digit_pretty_N.
Qed.

Lemma sscanf_fmt_d (z : Z) : in_int32 z → sscanf_d (fmt_d z) = Ok z.
Proof.
  intros Hz. destruct (fmt_d_body z) as (neg & n & -> & Hn & _).
  unfold sscanf_d.
  replace (sscanf_skip_space _ _) with
    (Some (if neg then "-" +:+ pretty n else pretty n : string)).
  2:{ destruct neg; symmetry.
      - by apply digit_or_sign_skip.
      - apply starts_with_digit_skip, starts_with_digit_pretty_N. }
  rewrite take_sign_fmt, starts_with_digit_pretty_N, scan_pretty_N.
  simpl. rewrite Hn.
  rewrite bool_decide_eq_true_2 by (unfold in_int32, in_int64 in *; lia).
  by rewrite bool_decide_eq_true_2.
Qed.

Lemma atoi_fmt_d (z : Z) : in_int64 z → atoi (fmt_d z) = Ok z.
Proof.
  intros Hz. destruct (fmt_d_body z) as (neg & n & -> & Hn & _).
  assert ((if neg then "-" +:+ pretty n else pretty n : string) ≠ "") as Hne.
  { destruct neg; [done|]. intros Heq.
    pose proof (starts_with_digit_pretty_N n) as Hs. by rewrite Heq in Hs. }
  unfold atoi. destruct (if neg then _ else _) as [|c s] eqn:E; [done|].
  rewrite <- E, take_sign_fmt, starts_with_digit_pretty_N, scan_pretty_N.
  rewrite Hn. by rewrite bool_decide_eq_true_2.
Qed.

Lemma fmt_d_inj z1 z2 : fmt_d z1 = fmt_d z2 → z1 = z2.
Proof. apply pretty_Z_inj. Qed.

(** ** Dashes and underscores *)

Lemma has_char_app a s1 s2 : has_char a (s1 +:+ s2) = has_char a s1 || has_char a s2.
Proof. induction s1; simpl; [done|]. by rewrite IHs1, orb_assoc. Qed.

Lemma replace_all_absent a b s : has_char a s = false → replace_all a b s = s.
Proof.
  induction s as [|c s IH]; simpl; [done|].
  rewrite orb_false_iff, bool_decide_eq_false. intros [Hc Hs].
  rewrite bool_decide_eq_false_2 by done. by rewrite IH.
Qed.

Lemma replace_all_involutive a b s :
  has_char b s = false → replace_all b a (replace_all a b s) = s.
Proof.
  induction s as [|c s IH]; simpl; [done|].
  rewrite orb_false_iff, bool_decide_eq_false. intros [Hc Hs].
  rewrite IH by done. f_equal.
  repeat case_bool_decide; congruence.
Qed.

Lemma replace_all_no_old a b s : a ≠ b → has_char a (replace_all a b s) = false.
Proof.
  intros Hab. induction s as [|c s IH]; simpl; [done|].
  rewrite IH, orb_false_r. apply bool_decide_eq_false.
  case_bool_decide; congruence.
Qed.

Lemma after_last_dash_none s : has_char "-" s = false → after_last_dash s = None.
Proof.
  induction s as [|c s IH]; simpl; [done|].
  rewrite orb_false_iff, bool_decide_eq_false. intros [Hc Hs].
  rewrite IH by done. by rewrite bool_decide_eq_false_2.
Qed.

Lemma after_last_dash_app s t :
  has_char "-" t = false → after_last_dash (s +:+ "-" +:+ t) = Some t.
Proof.
  intros Ht. induction s as [|c s IH]; simpl in *.
  - by rewrite after_last_dash_none.
  - by rewrite IH.
Qed.

Lemma has_char_pretty_go a (x : N) : ∀ s,
  (∀ d, (d < 10)%N → pretty_N_char d ≠ a) →
  has_char a s = false → has_char a (pretty_N_go x s) = false.
Proof.
  induction (N.lt_wf_0 x) as [x _ IH]; intros s Ha Hs.
  destruct (decide (x = 0)%N) as [->|Hx]; [by rewrite pretty_N_go_0|].
  rewrite pretty_N_go_step by lia.
  apply IH; [apply N.div_lt; lia|done|]. simpl.
  rewrite Hs, orb_false_r. apply bool_decide_eq_false, Ha, N.mod_lt. lia.
Qed.

Lemma has_dash_fmt_nonneg z : (0 ≤ z)%Z → has_char "-" (fmt_d z) = false.
Proof.
  intros Hz. destruct z as [|p|p]; [done| |lia].
  change (fmt_d (Zpos p)) with (pretty_N (Npos p)). unfold pretty_N.
  destruct (decide _); [done|]. apply has_char_pretty_go; [|done].
  intros d Hd Heq. pose proof (digit_value_char d Hd) as Hv. by rewrite Heq in Hv.
Qed.

Lemma string_cons_app c s t : String c s +:+ t = String c (s +:+ t).
Proof. done. Qed.

Lemma string_length_app s t :
  String.length (s +:+ t) = String.length s + String.length t.
Proof. induction s as [|c s IH]; [done|]. rewrite string_cons_app. simpl. by rewrite IH. Qed.

Lemma string_app_assoc s t u : s +:+ (t +:+ u) = (s +:+ t) +:+ u.
Proof. induction s as [|c s IH]; [done|]. by rewrite !string_cons_app, IH. Qed.

Lemma string_app_inj_l (s t u : string) : s +:+ t = s +:+ u → t = u.
Proof.
  induction s as [|c s IH]; [done|].
  rewrite !string_cons_app. intros [= ?]. auto.
Qed.

Lemma string_app_inj_r (s t u : string) : t +:+ s = u +:+ s → t = u.
Proof.
  revert u. induction t as [|c t IH]; intros [|d u] Heq; [done| | |].
  1,2: apply (f_equal String.length) in Heq; exfalso;
    rewrite !string_length_app in Heq; simpl in Heq; lia.
  rewrite !string_cons_app in Heq. injection Heq as -> Heq. f_equal. by apply IH.
Qed.

Lemma string_app_ne_nil s t : t ≠ "" → s +:+ t ≠ "".
Proof. by destruct s. Qed.
