(* ===== verification/GoTime.v ===== *)
(** * Go's [time.Time] and [time.Duration]

    Instants and durations are nanoseconds in [Z]; [time_sub] is [Time.Sub],
    which saturates at the [int64] bounds.  [Duration.Seconds] is a [float64],
    computed here with the IEEE 754 binary64 operations of the Standard
    Library's [SpecFloat], so that [int(d.Seconds())] is what the code gets. *)

From Stdlib Require Import SpecFloat.
From S2P Require Import Prelude.

Definition Nanosecond : Z := 1.
Definition Millisecond : Z := 1000000.
Definition Second : Z := 1000000000.
Definition Minute : Z := 60 * Second.
Definition Hour : Z := 60 * Minute.

Definition max_duration : Z := 2 ^ 63 - 1.
Definition min_duration : Z := - 2 ^ 63.

Definition time_sub (t u : Z) : Z :=
  Z.max min_duration (Z.min max_duration (t - u)).

(** [float64] *)
Definition f64_of_int (z : Z) : spec_float := binary_normalize 53 1024 z 0 false.
Definition f64_add : spec_float → spec_float → spec_float := SFadd 53 1024.
Definition f64_div : spec_float → spec_float → spec_float := SFdiv 53 1024.

(** [int(f)]: truncation towards zero; out of range it is the value the amd64
    conversion instruction gives. *)
Definition int_of_f64 (f : spec_float) : Z :=
  match f with
  | S754_zero _ => 0
  | S754_finite s m e =>
      let a := if bool_decide (0 ≤ e)%Z then (Zpos m * 2 ^ e)%Z else (Zpos m / 2 ^ (- e))%Z in
      let v := if s then (- a)%Z else a in
      if bool_decide (in_int64 v) then v else min_duration
  | _ => min_duration
  end.

(** [Duration.Seconds]: whole seconds plus the fraction. *)
Definition Seconds (d : Z) : spec_float :=
  let sec := Z.quot d Second in
  let nsec := Z.rem d Second in
  f64_add (f64_of_int sec) (f64_div (f64_of_int nsec) (f64_of_int Second)).

(** [int(d.Seconds())] *)
Definition seconds_int (d : Z) : Z := int_of_f64 (Seconds d).

#[global] Arguments seconds_int : simpl never.
#[global] Arguments time_sub : simpl never.

Lemma time_sub_small t u : in_int64 (t - u) → time_sub t u = (t - u)%Z.
Proof. unfold in_int64, time_sub, min_duration, max_duration. lia. Qed.

Example seconds_int_examples :
  seconds_int 999999999 = 0%Z ∧ seconds_int 1000000000 = 1%Z ∧
  seconds_int 1500000000 = 1%Z ∧ seconds_int 86399999999999 = 86399%Z ∧
  seconds_int (-1500000000) = (-1)%Z.
Proof. by vm_compute. Qed.

(** Rounding only shows after half a year: there, [int(d.Seconds())] can be one
    second more than the whole seconds in [d]. *)
Example seconds_int_rounds_up :
  seconds_int (2 ^ 24 * Second + 999999999) = (2 ^ 24 + 1)%Z.
Proof. by vm_compute. Qed.
