(* ===== verification/GoDuration.v ===== *)
(** * Text forms of Go's [time.Duration]: [time.ParseDuration] and [Duration.String]

    Ported from the [time] package of Go 1.2x; unsigned 64-bit arithmetic is
    written out where it can wrap.  Fractions go through [float64], computed
    with [SpecFloat] as in GoTime.v. *)

From Stdlib Require Import SpecFloat.
From S2P Require Import Prelude.
From S2P Require Import GoStrings.
From S2P Require Import GoTime.

Definition two63 : N := 2 ^ 63.
Definition uint64 (n : N) : N := n mod 2 ^ 64.

Definition f64_mul : spec_float → spec_float → spec_float := SFmul 53 1024.

Definition invalid_duration (orig : string) : error := Errorf ("time: invalid duration " +:+ orig).

(** [leadingInt]: [None] is its overflow error. *)
Fixpoint leadingInt (s : string) (x : N) : option N * string :=
  match s with
  | String c s' =>
      match digit_value c with
      | Some d =>
          if bool_decide (two63 / 10 < x)%N then (None, s)
          else
            let x := uint64 (x * 10 + d) in
            if bool_decide (two63 < x)%N then (None, s) else leadingInt s' x
      | None => (Some x, s)
      end
  | EmptyString => (Some x, s)
  end.

(** [leadingFraction]: the digits after the point, and how often [scale] was
    multiplied by ten; digits that do not fit are skipped. *)
Fixpoint leadingFraction (s : string) (x : N) (scale : spec_float) (overflow : bool)
    : N * spec_float * string :=
  match s with
  | String c s' =>
      match digit_value c with
      | Some d =>
          if overflow : bool then leadingFraction s' x scale true
          else if bool_decide ((two63 - 1) / 10 < x)%N then leadingFraction s' x scale true
          else
            let y := uint64 (x * 10 + d) in
            if bool_decide (two63 < y)%N then leadingFraction s' x scale true
            else leadingFraction s' y (f64_mul scale (f64_of_int 10)) false
      | None => (x, scale, s)
      end
  | EmptyString => (x, scale, s)
  end.

(** The unit: everything up to the next digit or point. *)
Fixpoint take_unit (s : string) : string * string :=
  match s with
  | String c s' =>
      if bool_decide (c = "."%char) || negb (is_nil (digit_value c)) then (EmptyString, s)
      else let '(u, rest) := take_unit s' in (String c u, rest)
  | EmptyString => (EmptyString, EmptyString)
  end.

Definition micro (b : list N) : string := string_of_bytes (b ++ [115%N]). (* µs, μs *)

Definition unitMap (u : string) : option N :=
  if bool_decide (u = "ns") then Some 1%N
  else if bool_decide (u ∈ ["us"; micro [194; 181]%N; micro [206; 188]%N]) then Some 1000%N
  else if bool_decide (u = "ms") then Some 1000000%N
  else if bool_decide (u = "s") then Some 1000000000%N
  else if bool_decide (u = "m") then Some 60000000000%N
  else if bool_decide (u = "h") then Some 3600000000000%N
  else None.

(** The optional fraction: its digits, its scale, what follows, and whether
    there were any digits. *)
Definition fraction_part (s1 : string) : N * spec_float * string * bool :=
  match s1 with
  | String c s1' =>
      if bool_decide (c = "."%char) then
        let '(f, scale, s2) := leadingFraction s1' 0 (f64_of_int 1) false in
        (f, scale, s2, negb (bool_decide (String.length s2 = String.length s1')))
      else (0%N, f64_of_int 1, s1, false)
  | EmptyString => (0%N, f64_of_int 1, s1, false)
  end.

(** One component, a number and its unit: its value and the rest; [None] is
    any of the errors. *)
Definition duration_component (s : string) : option (N * string) :=
  match s with
  | String c _ =>
      if negb (bool_decide (c = "."%char) || negb (is_nil (digit_value c))) then None
      else
        match leadingInt s 0 with
        | (None, _) => None
        | (Some v, s1) =>
            let pre := negb (bool_decide (String.length s1 = String.length s)) in
            let '(f, scale, s2, post) := fraction_part s1 in
            if negb pre && negb post then None
            else
              let '(u, rest) := take_unit s2 in
              if bool_decide (u = "") then None
              else
                match unitMap u with
                | None => None
                | Some unit =>
                    if bool_decide (two63 / unit < v)%N then None
                    else
                      let v := uint64 (v * unit) in
                      if bool_decide (0 < f)%N then
                        let frac := f64_mul (f64_of_int (Z.of_N f))
                                      (f64_div (f64_of_int (Z.of_N unit)) scale) in
                        let v := uint64 (v + Z.to_N (int_of_f64 frac)) in
                        if bool_decide (two63 < v)%N then None else Some (v, rest)
                      else Some (v, rest)
                end
        end
  | EmptyString => None
  end.

(** The sum of the components; each consumes at least one byte. *)
Fixpoint duration_components (fuel : nat) (s : string) (d : N) : option N :=
  match fuel with
  | O => Some d
  | S fuel =>
      if bool_decide (s = "") then Some d
      else
        match duration_component s with
        | None => None
        | Some (v, s) =>
            let d := uint64 (d + v) in
            if bool_decide (two63 < d)%N then None else duration_components fuel s d
        end
  end.

(** The length is enough fuel: a component ends after its unit, which is not
    empty. *)
Lemma leadingInt_length s x : String.length (leadingInt s x).2 ≤ String.length s.
Proof.
  revert x. induction s as [|c s IH]; intros x; simpl; [done|].
  destruct (digit_value c); simpl; [|done]. do 2 (case_bool_decide; simpl; [done|]).
  etrans; [apply IH|lia].
Qed.

Lemma leadingFraction_length s x scale o :
  String.length (leadingFraction s x scale o).2 ≤ String.length s.
Proof.
  revert x scale o. induction s as [|c s IH]; intros x scale o; simpl; [done|].
  destruct (digit_value c); simpl; [|done].
  destruct o; [|case_bool_decide; [|case_bool_decide]]; (etrans; [apply IH|lia]).
Qed.

Lemma fraction_part_length s1 : String.length (fraction_part s1).1.2 ≤ String.length s1.
Proof.
  destruct s1 as [|c s1]; simpl; [done|]. case_bool_decide; [|done].
  pose proof (leadingFraction_length s1 0 (f64_of_int 1) false) as HF.
  destruct (leadingFraction _ _ _ _) as [[f scale] s2]. simpl in *. lia.
Qed.

Lemma take_unit_length s :
  String.length (take_unit s).1 + String.length (take_unit s).2 = String.length s.
Proof.
  induction s as [|c s IH]; simpl; [done|].
  destruct (_ || _); simpl; [done|]. destruct (take_unit s) as [u rest]. simpl in *. lia.
Qed.

Lemma unit_shortens s u rest : take_unit s = (u, rest) → u ≠ "" → String.length rest < String.length s.
Proof.
  intros Ht Hu. pose proof (take_unit_length s) as Hl. rewrite Ht in Hl. simpl in Hl.
  destruct u; [done|]. simpl in Hl. lia.
Qed.

Lemma duration_component_shortens s v rest :
  duration_component s = Some (v, rest) → String.length rest < String.length s.
Proof.
  destruct s as [|c s0]; [done|]. unfold duration_component.
  set (s := String c s0).
  destruct (negb _); [done|]. clearbody s. pose proof (leadingInt_length s 0) as Hint.
  destruct (leadingInt s 0) as [[w|] s1]; [|done]. simpl in Hint.
  pose proof (fraction_part_length s1) as Hfrac.
  destruct (fraction_part s1) as [[[f scale] s2] post].
  simpl in Hfrac. destruct (_ && _); [done|].
  destruct (take_unit s2) as [u r] eqn:Hu. case_bool_decide as Hne; [done|].
  apply unit_shortens in Hu; [|done]. intros Hr. assert (r = rest) as <- by (repeat case_match; congruence).
  lia.
Qed.

Lemma duration_components_fuel n s d :
  String.length s ≤ n → duration_components n s d = duration_components (String.length s) s d.
Proof.
  assert (∀ n m s d, String.length s ≤ n → String.length s ≤ m →
    duration_components n s d = duration_components m s d) as Heq; [|intros; by apply Heq].
  clear. induction n as [|n IH]; intros m s d Hn Hm.
  - destruct s; simpl in Hn; [|lia]. by destruct m.
  - destruct m as [|m]; simpl; case_bool_decide as Hs; try done.
    { destruct s; [done|]. simpl in Hm. lia. }
    destruct (duration_component s) as [[v rest]|] eqn:Hc; [|done].
    apply duration_component_shortens in Hc. case_bool_decide; [done|]. apply IH; lia.
Qed.

Definition ParseDuration (orig : string) : result Z :=
  let '(neg, s) := take_sign orig in
  if bool_decide (s = "0") then Ok 0%Z
  else if bool_decide (s = "") then Err (invalid_duration orig)
  else
    match duration_components (String.length s) s 0 with
    | None => Err (invalid_duration orig)
    | Some d =>
        if neg : bool then Ok (- Z.of_N d)%Z
        else if bool_decide (two63 - 1 < d)%N then Err (invalid_duration orig)
        else Ok (Z.of_N d)
    end.

(** ** [Duration.String] *)

Definition digit_char (d : N) : string := String (Ascii.ascii_of_N (48 + d)) EmptyString.

(** [fmtFrac]: the last [prec] digits of [v] as a fraction without trailing
    zeros, and the rest of [v]. *)
Fixpoint fmtFrac (prec : nat) (v : N) (print : bool) (acc : string) : string * N :=
  match prec with
  | O => ((if print then "." +:+ acc else acc), v)
  | S prec =>
      let digit := (v mod 10)%N in
      let print := print || bool_decide (digit ≠ 0)%N in
      fmtFrac prec (v / 10) print (if print then digit_char digit +:+ acc else acc)
  end.

Definition fmt_u (n : N) : string := fmt_d (Z.of_N n).

Definition duration_string (d : Z) : string :=
  let u := Z.to_N (Z.abs d) in
  let body :=
    if bool_decide (u = 0)%N then "0s"
    else if bool_decide (u < 1000)%N then fmt_u u +:+ "ns"
    else if bool_decide (u < 1000000)%N then
      let '(frac, n) := fmtFrac 3 u false "" in fmt_u n +:+ frac +:+ micro [194; 181]%N
    else if bool_decide (u < 1000000000)%N then
      let '(frac, n) := fmtFrac 6 u false "" in fmt_u n +:+ frac +:+ "ms"
    else
      let '(frac, n) := fmtFrac 9 u false "" in
      let secs := fmt_u (n mod 60) +:+ frac +:+ "s" in
      let n := (n / 60)%N in
      if bool_decide (n = 0)%N then secs
      else
        let mins := fmt_u (n mod 60) +:+ "m" +:+ secs in
        let n := (n / 60)%N in
        if bool_decide (n = 0)%N then mins else fmt_u n +:+ "h" +:+ mins in
  if bool_decide (d < 0)%Z then "-" +:+ body else body.

Example ParseDuration_examples :
  ParseDuration "30s" = Ok (30 * Second)%Z ∧ ParseDuration "1h15m30.5s" = Ok 4530500000000%Z ∧
  ParseDuration "-1.5h" = Ok (- 5400000000000)%Z ∧ ParseDuration ".5ms" = Ok 500000%Z ∧
  ParseDuration "+0" = Ok 0%Z ∧ is_ok (ParseDuration "30") = false ∧ is_ok (ParseDuration "") = false ∧
  is_ok (ParseDuration ".s") = false ∧ is_ok (ParseDuration "3 s") = false ∧
  is_ok (ParseDuration "2562048h") = false.
Proof. by vm_compute. Qed.

Example duration_string_examples :
  duration_string (90 * Second) = "1m30s" ∧ duration_string (1500 * Millisecond) = "1.5s" ∧
  duration_string 1001 = "1.001" +:+ micro [194; 181]%N ∧ duration_string (- Hour) = "-1h0m0s" ∧
  duration_string 0 = "0s" ∧ duration_string 2500000 = "2.5ms".
Proof. by vm_compute. Qed.
