(* ===== verification/GoNet.v ===== *)
(** * The part of Go's [net] package the gateway uses: [net.SplitHostPort], and
    whether [net.ParseIP] accepts an address *)

From S2P Require Import Prelude.
From S2P Require Import GoStrings.

Definition index_byte (c : ascii) (l : list ascii) : option nat :=
  fst <$> list_find (c =.) l.

Definition last_index_byte (c : ascii) (l : list ascii) : option nat :=
  (λ i, length l - 1 - i) <$> index_byte c (reverse l).

Definition addr_err {A} (hostport why : string) : result A :=
  Err (OtherErr ("address " +:+ hostport +:+ ": " +:+ why)).

(** The port starts after the last colon; a host in brackets may contain
    colons. *)
Definition SplitHostPort (hostport : string) : result (string * string) :=
  let l := String.list_ascii_of_string hostport in
  let str := String.string_of_list_ascii in
  match last_index_byte ":" l with
  | None => addr_err hostport "missing port in address"
  | Some i =>
    let finish (host : list ascii) (j k : nat) : result (string * string) :=
      if is_nil (index_byte "[" (drop j l)) then
        if is_nil (index_byte "]" (drop k l)) then Ok (str host, str (drop (S i) l))
        else addr_err hostport "unexpected ']' in address"
      else addr_err hostport "unexpected '[' in address" in
    if bool_decide (l !! 0 = Some "["%char) then
      match index_byte "]" l with
      | None => addr_err hostport "missing ']' in address"
      | Some e =>
          if bool_decide (S e = length l) then addr_err hostport "missing port in address"
          else if bool_decide (S e = i) then finish (drop 1 (take e l)) 1 (S e)
          else if bool_decide (l !! S e = Some ":"%char)
               then addr_err hostport "too many colons in address"
               else addr_err hostport "missing port in address"
      end
    else
      let host := take i l in
      if is_nil (index_byte ":" host) then finish host 0 0
      else addr_err hostport "too many colons in address"
  end.

Example SplitHostPort_examples :
  SplitHostPort "0.0.0.0:7687" = Ok ("0.0.0.0", "7687") ∧
  SplitHostPort "[::1]:80" = Ok ("::1", "80") ∧
  SplitHostPort ":7687" = Ok ("", "7687") ∧
  is_ok (SplitHostPort "10.0.0.1") = false ∧
  is_ok (SplitHostPort "::1:80") = false ∧
  is_ok (SplitHostPort "[::1]") = false.
Proof. by vm_compute. Qed.

(** ** [net.ParseIP]

    [parseIPv4] and [parseIPv6] of [net/netip] as tests; a zone makes
    [net.ParseIP] refuse the address. *)

(** Dotted decimal: [pos] fields are complete, [digLen] digits of the current
    one make [val]. *)
Fixpoint ipv4_fields (l : list ascii) (pos digLen : nat) (val : N) : bool :=
  match l with
  | [] => bool_decide (pos = 3) && bool_decide (0 < digLen)
  | c :: l =>
      match digit_value c with
      | Some d =>
          if bool_decide (digLen = 1) && bool_decide (val = 0)%N then false
          else
            let val := (val * 10 + d)%N in
            if bool_decide (255 < val)%N then false else ipv4_fields l pos (S digLen) val
      | None =>
          if bool_decide (c = "."%char) then
            if bool_decide (digLen = 0) || bool_decide (pos = 3) then false
            else ipv4_fields l (S pos) 0 0
          else false
      end
  end.

Definition parseIPv4 (l : list ascii) : bool := ipv4_fields l 0 0 0.

Definition hex_value (c : ascii) : option N :=
  let n := Ascii.N_of_ascii c in
  if bool_decide (48 ≤ n ≤ 57)%N then Some (n - 48)%N
  else if bool_decide (97 ≤ n ≤ 102)%N then Some (n - 87)%N
  else if bool_decide (65 ≤ n ≤ 70)%N then Some (n - 55)%N
  else None.

(** The hexadecimal digits at the head. *)
Fixpoint hex_digits (l : list ascii) : nat :=
  match l with
  | c :: l => if is_nil (hex_value c) then 0 else S (hex_digits l)
  | [] => 0
  end.

(** The loop over the groups: [i] bytes are filled, [ellipsis] says whether
    "::" was met.  A group of more than four digits is refused; every round
    fills two bytes, so eight rounds are enough. *)
Fixpoint ipv6_groups (fuel : nat) (l : list ascii) (i : nat) (ellipsis : bool) : bool :=
  let finish (l : list ascii) (i : nat) (ellipsis : bool) :=
    is_nil (head l) && (if bool_decide (i < 16) then ellipsis else negb ellipsis) in
  match fuel with
  | O => finish l i ellipsis
  | S fuel =>
      if bool_decide (16 ≤ i) then finish l i ellipsis
      else
        let off := hex_digits l in
        if bool_decide (off = 0) || bool_decide (4 < off) then false
        else if bool_decide (l !! off = Some "."%char) then
          if negb ellipsis && negb (bool_decide (i = 12)) then false
          else if bool_decide (16 < i + 4) then false
          else if parseIPv4 l then finish [] (i + 4) ellipsis else false
        else
          let i := i + 2 in
          match drop off l with
          | [] => finish [] i ellipsis
          | c :: rest =>
              if negb (bool_decide (c = ":"%char)) then false
              else
                match rest with
                | [] => false
                | ":"%char :: rest =>
                    if ellipsis then false
                    else if is_nil (head rest) then finish [] i true
                    else ipv6_groups fuel rest i true
                | _ => ipv6_groups fuel rest i ellipsis
                end
          end
  end.

Definition parseIPv6 (l : list ascii) : bool :=
  match l with
  | ":"%char :: ":"%char :: rest =>
      if is_nil (head rest) then true else ipv6_groups 8 rest 0 true
  | _ => ipv6_groups 8 l 0 false
  end.

Definition ParseIP (s : string) : bool :=
  let l := String.list_ascii_of_string s in
  match list_find (λ c, c ∈ ["."; ":"; "%"]%char) l with
  | Some (_, "."%char) => parseIPv4 l
  | Some (_, ":"%char) => if is_nil (index_byte "%" l) then parseIPv6 l else false
  | _ => false
  end.

Example ParseIP_examples :
  ParseIP "10.0.0.1" = true ∧ ParseIP "256.0.0.1" = false ∧ ParseIP "01.2.3.4" = false ∧
  ParseIP "1.2.3" = false ∧ ParseIP "1.2.3.4.5" = false ∧ ParseIP "1..2.3" = false ∧
  ParseIP "::1" = true ∧ ParseIP "fe80::1%eth0" = false ∧ ParseIP "2001:db8::a:b" = true ∧
  ParseIP "1:2:3:4:5:6:7:8" = true ∧ ParseIP "1:2:3:4:5:6:7" = false ∧
  ParseIP "1:2:3:4:5:6:7::8" = false ∧ ParseIP "::ffff:10.0.0.1" = true ∧ ParseIP "12345::" = false ∧
  ParseIP ":1" = false ∧ ParseIP "1:" = false ∧ ParseIP "localhost" = false ∧ ParseIP "::" = true.
Proof. by vm_compute. Qed.
