(* ===== verification/Config.v ===== *)
(** * Application configuration: [internal/common/config.go]

    [Config] is the Go struct; [Load] reads it from the environment and the
    methods name the pods of the StatefulSet. *)

From S2P Require Import Prelude.
From S2P Require Import GoStrings.
From S2P Require Import GoTime.
From S2P Require Import GoDuration.

Record Config := mkConfig {
  AppName : string;
  Namespace : string;
  StatefulSetName : string;
  MemgraphUser : string;
  MemgraphPassword : string;
  ReconcileInterval : Z;
  HTTPPort : string;
  BoltPort : string;
  ReplicationPort : string;
  GatewayBindAddress : string;
  LogLevel : string;
  LogAddSource : bool;
  LogFormat : string;
}.

Definition IsMemgraphPod (c : Config) (podName : string) : bool :=
  has_prefix podName (StatefulSetName c +:+ "-").

Definition GetPodName (c : Config) (index : Z) : string :=
  StatefulSetName c +:+ "-" +:+ fmt_d index.

Definition GetEligiblePodNames (c : Config) : string * string :=
  (GetPodName c 0, GetPodName c 1).

Definition ExtractPodIndex (c : Config) (podName : string) : Z :=
  match after_last_dash podName with
  | None => -1
  | Some indexStr =>
      match atoi indexStr with
      | Ok index => index
      | Err _ => -1
      end
  end.

(** [getEnvOrDefault]; an unset variable reads as the empty string. *)
Definition getEnvOrDefault (getenv : string → string) (key defaultValue : string) : string :=
  let value := getenv key in
  if bool_decide (value ≠ "") then value else defaultValue.

Definition getBoolEnvOrDefault (getenv : string → string) (key : string)
    (defaultValue : bool) : bool :=
  let value := getenv key in
  if bool_decide (value ≠ "") then
    let v := to_lower value in
    if bool_decide (v ∈ ["true"; "1"; "yes"; "on"]) then true
    else if bool_decide (v ∈ ["false"; "0"; "no"; "off"]) then false
    else defaultValue
  else defaultValue.

(** [Load]; it never fails. *)
Definition Load (getenv : string → string) : Config :=
  let env := getEnvOrDefault getenv in
  let reconcileInterval :=
    match ParseDuration (env "RECONCILE_INTERVAL" "30s") with
    | Ok d => d
    | Err _ => (30 * Second)%Z
    end in
  mkConfig (getenv "APP_NAME") (getenv "NAMESPACE") (getenv "STATEFULSET_NAME")
    (env "MEMGRAPH_USER" "memgraph") (env "MEMGRAPH_PASSWORD" "")
    reconcileInterval (env "HTTP_PORT" "8080") (env "BOLT_PORT" "7687")
    (env "REPLICATION_PORT" "10000") (env "GATEWAY_BIND_ADDRESS" "0.0.0.0:7687")
    (env "LOG_LEVEL" "info") (getBoolEnvOrDefault getenv "LOG_ADD_SOURCE" true)
    (env "LOG_FORMAT" "text").

(** ** Lemmas *)

Lemma GetPodName_inj c i j : GetPodName c i = GetPodName c j → i = j.
Proof.
  unfold GetPodName. intros H%string_app_inj_l%string_app_inj_l.
  by apply fmt_d_inj.
Qed.

Lemma GetPodName_ne c i j : i ≠ j → GetPodName c i ≠ GetPodName c j.
Proof. intros Hij H%GetPodName_inj. done. Qed.

Lemma string_prefix_app s t : String.prefix s (s +:+ t) = true.
Proof.
  induction s as [|a s IH]; [by destruct t|].
  rewrite string_cons_app. simpl. destruct (Ascii.ascii_dec a a); done.
Qed.

(** ** Properties *)

(** Pod names and pod indices: for every non-negative [int32] index, the name
    [GetPodName] builds is recognised by [IsMemgraphPod] and
    [ExtractPodIndex] reads the same index back from it. *)
Theorem pod_index_roundtrip (c : Config) (i : Z) :
  (0 ≤ i)%Z → in_int32 i →
  IsMemgraphPod c (GetPodName c i) = true ∧
  ExtractPodIndex c (GetPodName c i) = i.
Proof.
  intros Hi Hr. split.
  - unfold IsMemgraphPod, has_prefix, GetPodName.
    rewrite string_app_assoc. apply string_prefix_app.
  - unfold ExtractPodIndex, GetPodName.
    rewrite after_last_dash_app by (by apply has_dash_fmt_nonneg).
    rewrite atoi_fmt_d; [done|]. unfold in_int32, in_int64 in *. lia.
Qed.

Definition example_config : Config :=
  mkConfig "memgraph" "default" "memgraph-ha" "memgraph" "secret"
    30000000000 "8080" "7687" "10000" "0.0.0.0:7687" "info" true "text".

Lemma pod_index_roundtrip_witness :
  IsMemgraphPod example_config (GetPodName example_config 1) = true ∧
  ExtractPodIndex example_config (GetPodName example_config 1) = 1%Z.
Proof. apply (pod_index_roundtrip example_config 1); [lia|unfold in_int32; lia]. Defined.

Example extract_pod_index_none :
  ExtractPodIndex example_config "memgraph" = (-1)%Z ∧
  ExtractPodIndex example_config "memgraph-ha-x" = (-1)%Z.
Proof. by vm_compute. Qed.
