(* ===== verification/Logging.v ===== *)
(** * Logging: [internal/common/logging.go]

    The choice of the logger from the configuration and the global logger that
    is created once.  What the handlers of [log/slog] do with a record is the
    library's; of theirs only the documented threshold is used: a record is
    written if its level is not below the handler's. *)

From S2P Require Import Prelude.
From S2P Require Import GoStrings.
From S2P Require Import Config.

(** [slog.Level] *)
Definition LevelDebug : Z := -4.
Definition LevelInfo : Z := 0.
Definition LevelWarn : Z := 4.
Definition LevelError : Z := 8.

Record LoggingConfig := mkLoggingConfig {
  lc_Level : string;
  lc_AddSource : bool;
  lc_Format : string;
}.

Inductive base_handler := JSONHandler | TextHandler.

Record Logger := mkLogger {
  lg_handler : base_handler;
  lg_level : Z;
  lg_addSource : bool;
}.

Definition parseLevel (level : string) : Z :=
  if bool_decide (level = "debug") then LevelDebug
  else if bool_decide (level = "info") then LevelInfo
  else if bool_decide (level ∈ ["warn"; "warning"]) then LevelWarn
  else if bool_decide (level = "error") then LevelError
  else LevelInfo.

Definition NewLogger (config : LoggingConfig) : Logger :=
  mkLogger (if bool_decide (lc_Format config = "json") then JSONHandler else TextHandler)
    (parseLevel (lc_Level config)) (lc_AddSource config).

(** The package's variables: [once] has run, [globalLogger]. *)
Record logging := mkLogging { log_once : bool; log_global : option Logger }.

Definition no_logging : logging := mkLogging false None.

Section logging.
Context (getenv : string → string).

Definition InitLogger (g : logging) : logging :=
  if log_once g then g
  else
    let config := Load getenv in
    mkLogging true (Some (NewLogger
      (mkLoggingConfig (LogLevel config) (LogAddSource config) (LogFormat config)))).

Definition GetLogger : M logging Logger := λ g,
  let g := match log_global g with None => InitLogger g | Some _ => g end in
  match log_global g with
  | None => (Panic nil_deref, g)
  | Some logger => (Ret logger, g)
  end.

End logging.

(** [n] more calls. *)
Fixpoint get_loggers (envs : list (string → string)) (g : logging) : list (outcome Logger) :=
  match envs with
  | [] => []
  | env :: envs => let '(o, g) := GetLogger env g in o :: get_loggers envs g
  end.

(** [GetLogger] never dereferences nil, and every call returns the logger of
    the environment at the first one, however the environment changes
    afterwards. *)
Theorem GetLogger_stable (env : string → string) (envs : list (string → string)) :
  let config := Load env in
  let logger := NewLogger (mkLoggingConfig (LogLevel config) (LogAddSource config) (LogFormat config)) in
  get_loggers (env :: envs) no_logging = replicate (S (length envs)) (Ret logger).
Proof.
  cbn zeta. change (get_loggers (env :: envs) no_logging) with
    (Ret (NewLogger (mkLoggingConfig (LogLevel (Load env)) (LogAddSource (Load env))
       (LogFormat (Load env)))) :: get_loggers envs (InitLogger env no_logging)).
  simpl. f_equal. induction envs as [|e envs IH]; [done|]. simpl. by f_equal.
Qed.

(** The settings are matched literally; anything else is [info] and text. *)
Theorem parseLevel_exact (level : string) (l : Z) :
  parseLevel level = l ↔
  ((level = "debug" ∧ l = LevelDebug) ∨
   (level = "warn" ∨ level = "warning") ∧ l = LevelWarn ∨
   (level = "error" ∧ l = LevelError) ∨
   (level ≠ "debug" ∧ level ≠ "warn" ∧ level ≠ "warning" ∧ level ≠ "error" ∧ l = LevelInfo)).
Proof.
  assert (level ∈ ["warn"; "warning"] ↔ level = "warn" ∨ level = "warning") as Hw by set_solver.
  unfold parseLevel. repeat case_bool_decide; rewrite ?Hw in *; subst; naive_solver.
Qed.

Example logger_examples :
  parseLevel "DEBUG" = LevelInfo ∧
  NewLogger (mkLoggingConfig "warning" true "json") = mkLogger JSONHandler LevelWarn true.
Proof. by vm_compute. Qed.
