(* ===== verification/Pods.v ===== *)
(** * Kubernetes pods as the controller reads them:
    [internal/controller/kubernetes.go] and the pure tests of
    [internal/controller/controller_events.go]

    [Pod] has the fields of [v1.Pod] the controller reads.  Nil pointers are
    [None]; times are nanoseconds. *)

From S2P Require Import Prelude.
From S2P Require Import GoStrings.

Record PodCondition := mkCond { cond_type : string; cond_status : string }.

Record OwnerReference := mkOwnerRef {
  or_APIVersion : string; or_Kind : string; or_Name : string; or_UID : string;
  or_Controller : option bool }.

Record Pod := mkPod {
  pod_Name : string;
  pod_DeletionTimestamp : option Z;
  pod_CreationTimestamp : Z;
  pod_OwnerReferences : list OwnerReference;
  pod_NodeName : string;           (* Spec.NodeName *)
  pod_PodIP : string;              (* Status.PodIP *)
  pod_Phase : string;              (* Status.Phase *)
  pod_StartTime : option Z;        (* Status.StartTime *)
  pod_Conditions : list PodCondition;
}.

(** The first condition of type [Ready] decides. *)
Fixpoint ready_condition (cs : list PodCondition) : bool :=
  match cs with
  | [] => false
  | c :: cs =>
      if bool_decide (cond_type c = "Ready") then bool_decide (cond_status c = "True")
      else ready_condition cs
  end.

Definition isPodReady (pod : Pod) : bool :=
  match pod_DeletionTimestamp pod with
  | Some _ => false
  | None => ready_condition (pod_Conditions pod)
  end.

Definition isPodTerminating (pod : option Pod) : bool :=
  match pod with
  | Some pod => negb (is_nil (pod_DeletionTimestamp pod))
  | None => false
  end.

Definition isPodBecomeUnhealthy (oldPod newPod : option Pod) : bool :=
  match oldPod, newPod with
  | Some oldPod, Some newPod =>
      let oldReady := isPodReady oldPod in
      let newReady := isPodReady newPod in
      let isBecomeUnhealthy := oldReady && negb newReady in
      if is_nil (pod_DeletionTimestamp oldPod) && negb (is_nil (pod_DeletionTimestamp newPod))
      then true else isBecomeUnhealthy
  | _, _ => false
  end.

Definition shouldReconcile (oldPod newPod : Pod) : bool :=
  if negb (Bool.eqb (isPodReady oldPod) (isPodReady newPod)) then true
  else if bool_decide (pod_PodIP oldPod ≠ pod_PodIP newPod) then true
  else if bool_decide (pod_Phase oldPod ≠ pod_Phase newPod) then true
  else
    let oldDeletion := negb (is_nil (pod_DeletionTimestamp oldPod)) in
    let newDeletion := negb (is_nil (pod_DeletionTimestamp newPod)) in
    if negb (Bool.eqb oldDeletion newDeletion) then true
    else bool_decide (pod_NodeName oldPod ≠ pod_NodeName newPod).

(** ** Lemmas *)

Lemma isPodReady_not_terminating pod :
  isPodReady pod = true → isPodTerminating (Some pod) = false.
Proof. unfold isPodReady, isPodTerminating. by destruct (pod_DeletionTimestamp pod). Qed.

(** What an update event looks at: everything else of a pod may change without
    the controller reconciling. *)
Definition pod_view (pod : Pod) : bool * string * string * bool * string :=
  (isPodReady pod, pod_PodIP pod, pod_Phase pod, isPodTerminating (Some pod),
   pod_NodeName pod).

(** ** Properties *)

(** A pod update triggers reconciliation exactly when the readiness, the IP,
    the phase, the presence of a deletion timestamp or the node assignment
    changed. *)
Theorem shouldReconcile_iff (oldPod newPod : Pod) :
  shouldReconcile oldPod newPod = true ↔ pod_view oldPod ≠ pod_view newPod.
Proof.
  unfold shouldReconcile, pod_view, isPodTerminating.
  destruct (isPodReady oldPod), (isPodReady newPod); simpl; try naive_solver;
    destruct (pod_DeletionTimestamp oldPod), (pod_DeletionTimestamp newPod); simpl;
    repeat case_bool_decide; naive_solver congruence.
Qed.

(** The unhealthy transition implies a reconciliation, so a failover check for
    the main pod never goes without a reconcile event. *)
Theorem unhealthy_implies_reconcile (oldPod newPod : Pod) :
  isPodBecomeUnhealthy (Some oldPod) (Some newPod) = true →
  shouldReconcile oldPod newPod = true.
Proof.
  rewrite shouldReconcile_iff. unfold isPodBecomeUnhealthy, pod_view, isPodTerminating.
  intros H Heq. injection Heq as Hready _ _ Hdel _. rewrite Hready in H.
  destruct (pod_DeletionTimestamp oldPod), (pod_DeletionTimestamp newPod); simpl in *;
    try done; by destruct (isPodReady newPod).
Qed.

Definition ready_pod (name ip : string) : Pod :=
  mkPod name None 0 [] "node-a" ip "Running" (Some 0%Z) [mkCond "Ready" "True"].
Definition unready_pod (name ip : string) : Pod :=
  mkPod name None 0 [] "node-a" ip "Running" (Some 0%Z) [mkCond "Ready" "False"].
Definition terminating_pod (name ip : string) : Pod :=
  mkPod name (Some 5%Z) 0 [] "node-a" ip "Running" (Some 0%Z) [mkCond "Ready" "True"].

Lemma unhealthy_implies_reconcile_witness :
  shouldReconcile (ready_pod "m-0" "10.0.0.1") (terminating_pod "m-0" "10.0.0.1") = true.
Proof. apply unhealthy_implies_reconcile. reflexivity. Defined.

Example isPodBecomeUnhealthy_deletion_only :
  isPodBecomeUnhealthy (Some (unready_pod "m" "")) (Some (terminating_pod "m" "")) = true ∧
  isPodBecomeUnhealthy (Some (unready_pod "m" "")) (Some (unready_pod "m" "")) = false ∧
  isPodBecomeUnhealthy None (Some (ready_pod "m" "")) = false.
Proof. done. Qed.
