(* ===== verification/GatewayConfig.v ===== *)
(** * Gateway configuration: [internal/gateway/config.go]

    The struct, its loading from the environment and its validation. *)

From S2P Require Import Prelude.
From S2P Require Import GoStrings.
From S2P Require Import GoTime.
From S2P Require Import GoDuration.
From S2P Require Import GoNet.

Record GwConfig := mkGwConfig {
  gw_BindAddress : string;
  gw_MaxConnections : Z;
  gw_Timeout : Z;
  gw_BufferSize : Z;
  gw_HealthCheckInterval : Z;
  gw_ConnectionTimeout : Z;
  gw_IdleTimeout : Z;
  gw_MaxBytesPerConnection : Z;
  gw_CleanupInterval : Z;
  gw_TLSEnabled : bool;
  gw_TLSCertPath : string;
  gw_TLSKeyPath : string;
  gw_RateLimitEnabled : bool;
  gw_RateLimitRPS : Z;
  gw_RateLimitBurst : Z;
  gw_RateLimitWindow : Z;
  gw_LogLevel : string;
  gw_TraceEnabled : bool;
}.

(** [c.BindAddress = a] *)
Definition set_BindAddress (a : string) (c : GwConfig) : GwConfig :=
  mkGwConfig a (gw_MaxConnections c) (gw_Timeout c) (gw_BufferSize c) (gw_HealthCheckInterval c)
    (gw_ConnectionTimeout c) (gw_IdleTimeout c) (gw_MaxBytesPerConnection c) (gw_CleanupInterval c)
    (gw_TLSEnabled c) (gw_TLSCertPath c) (gw_TLSKeyPath c) (gw_RateLimitEnabled c)
    (gw_RateLimitRPS c) (gw_RateLimitBurst c) (gw_RateLimitWindow c) (gw_LogLevel c)
    (gw_TraceEnabled c).

(** ** The environment: an unset variable reads as the empty string *)

Section env.
Context (getenv : string → string).

Definition gw_getEnvOrDefault (key defaultValue : string) : string :=
  let value := getenv key in
  if bool_decide (value ≠ "") then value else defaultValue.

Definition getEnvOrDefaultInt (key : string) (defaultValue : Z) : Z :=
  let value := getenv key in
  if bool_decide (value ≠ "") then
    match atoi value with Ok parsed => parsed | Err _ => defaultValue end
  else defaultValue.

Definition getEnvOrDefaultBool (key : string) (defaultValue : bool) : bool :=
  let value := getenv key in
  if bool_decide (value ≠ "") then
    match parse_bool value with Some parsed => parsed | None => defaultValue end
  else defaultValue.

Definition getEnvOrDefaultInt64 (key : string) (defaultValue : Z) : Z :=
  let value := getenv key in
  if bool_decide (value ≠ "") then
    match atoi value with Ok parsed => parsed | Err _ => defaultValue end
  else defaultValue.

(** [time.ParseDuration(getEnvOrDefault(key, text))], or [fallback] on an error. *)
Definition env_duration (key text : string) (fallback : Z) : Z :=
  match ParseDuration (gw_getEnvOrDefault key text) with Ok d => d | Err _ => fallback end.

Definition LoadGatewayConfig : GwConfig :=
  let maxConnections := getEnvOrDefaultInt "GATEWAY_MAX_CONNECTIONS" 1000 in
  let timeout := env_duration "GATEWAY_TIMEOUT" "30s" (30 * Second) in
  let healthCheckInterval := env_duration "GATEWAY_HEALTH_CHECK_INTERVAL" "30s" (30 * Second) in
  let connectionTimeout := env_duration "GATEWAY_CONNECTION_TIMEOUT" "10s" (10 * Second) in
  let idleTimeout := env_duration "GATEWAY_IDLE_TIMEOUT" "5m" (5 * Minute) in
  let cleanupInterval := env_duration "GATEWAY_CLEANUP_INTERVAL" "1m" (1 * Minute) in
  let bufferSize := getEnvOrDefaultInt "GATEWAY_BUFFER_SIZE" 32768 in
  let maxBytesPerConnection :=
    getEnvOrDefaultInt64 "GATEWAY_MAX_BYTES_PER_CONNECTION" 1048576000 in
  let tlsEnabled := getEnvOrDefaultBool "GATEWAY_TLS_ENABLED" false in
  let rateLimitEnabled := getEnvOrDefaultBool "GATEWAY_RATE_LIMIT_ENABLED" false in
  let rateLimitRPS := getEnvOrDefaultInt "GATEWAY_RATE_LIMIT_RPS" 100 in
  let rateLimitBurst := getEnvOrDefaultInt "GATEWAY_RATE_LIMIT_BURST" 200 in
  let rateLimitWindow := env_duration "GATEWAY_RATE_LIMIT_WINDOW" "1m" (1 * Minute) in
  let traceEnabled := getEnvOrDefaultBool "GATEWAY_TRACE_ENABLED" false in
  mkGwConfig (gw_getEnvOrDefault "GATEWAY_BIND_ADDRESS" "0.0.0.0:7687") maxConnections timeout
    bufferSize healthCheckInterval connectionTimeout idleTimeout maxBytesPerConnection
    cleanupInterval tlsEnabled (gw_getEnvOrDefault "GATEWAY_TLS_CERT_PATH" "/etc/certs/tls.crt")
    (gw_getEnvOrDefault "GATEWAY_TLS_KEY_PATH" "/etc/certs/tls.key") rateLimitEnabled
    rateLimitRPS rateLimitBurst rateLimitWindow (gw_getEnvOrDefault "GATEWAY_LOG_LEVEL" "info")
    traceEnabled.
End env.

(** ** Validation *)

(** The checks of [Validate] run one after the other; the first that fails is
    the result. *)
Definition first_error (checks : list (option error)) : option error := head (omap id checks).

(** [if cond { return fmt.Errorf(...) }] *)
Definition fail_if (cond : Prop) `{!Decision cond} (message : string) : option error :=
  if bool_decide cond then Some (Errorf message) else None.

Definition validate_bind_address (address : string) : option error :=
  match SplitHostPort address with
  | Err err => Some (Errorf ("invalid bind address " +:+ address +:+ ": " +:+ error_string err))
  | Ok (host, port) =>
      match atoi port with
      | Err err =>
          Some (Errorf ("invalid port in bind address " +:+ address +:+ ": " +:+ error_string err))
      | Ok portNum =>
          if bool_decide (portNum < 1)%Z || bool_decide (65535 < portNum)%Z then
            Some (Errorf ("port " +:+ fmt_d portNum +:+ " out of valid range (1-65535)"))
          else if bool_decide (host ≠ "0.0.0.0") && bool_decide (host ≠ "") && negb (ParseIP host)
          then Some (Errorf ("invalid IP address " +:+ host +:+ " in bind address"))
          else None
      end
  end.

Definition Validate (c : GwConfig) : option error :=
  let d := duration_string in
  first_error [
    validate_bind_address (gw_BindAddress c);
    fail_if (gw_MaxConnections c < 1)%Z
      ("max connections must be at least 1, got " +:+ fmt_d (gw_MaxConnections c));
    fail_if (100000 < gw_MaxConnections c)%Z
      ("max connections too high " +:+ fmt_d (gw_MaxConnections c) +:+ ", maximum allowed is 100000");
    fail_if (gw_Timeout c < Second)%Z
      ("timeout too short " +:+ d (gw_Timeout c) +:+ ", minimum is 1 second");
    fail_if (5 * Minute < gw_Timeout c)%Z
      ("timeout too long " +:+ d (gw_Timeout c) +:+ ", maximum is 5 minutes");
    fail_if (gw_BufferSize c < 1024)%Z
      ("buffer size too small " +:+ fmt_d (gw_BufferSize c) +:+ ", minimum is 1024 bytes");
    fail_if (1048576 < gw_BufferSize c)%Z
      ("buffer size too large " +:+ fmt_d (gw_BufferSize c) +:+ ", maximum is 1048576 bytes");
    fail_if (gw_HealthCheckInterval c < 5 * Second)%Z
      ("health check interval too short " +:+ d (gw_HealthCheckInterval c) +:+ ", minimum is 5 seconds");
    fail_if (10 * Minute < gw_HealthCheckInterval c)%Z
      ("health check interval too long " +:+ d (gw_HealthCheckInterval c) +:+ ", maximum is 10 minutes");
    fail_if (gw_ConnectionTimeout c < Second)%Z
      ("connection timeout too short " +:+ d (gw_ConnectionTimeout c) +:+ ", minimum is 1 second");
    fail_if (gw_Timeout c < gw_ConnectionTimeout c)%Z
      ("connection timeout " +:+ d (gw_ConnectionTimeout c) +:+
       " cannot be longer than backend timeout " +:+ d (gw_Timeout c));
    fail_if (gw_IdleTimeout c < Minute)%Z
      ("idle timeout too short " +:+ d (gw_IdleTimeout c) +:+ ", minimum is 1 minute");
    fail_if (24 * Hour < gw_IdleTimeout c)%Z
      ("idle timeout too long " +:+ d (gw_IdleTimeout c) +:+ ", maximum is 24 hours");
    fail_if (gw_CleanupInterval c < 10 * Second)%Z
      ("cleanup interval too short " +:+ d (gw_CleanupInterval c) +:+ ", minimum is 10 seconds");
    fail_if (Hour < gw_CleanupInterval c)%Z
      ("cleanup interval too long " +:+ d (gw_CleanupInterval c) +:+ ", maximum is 1 hour");
    fail_if (gw_MaxBytesPerConnection c < 1048576)%Z
      ("max bytes per connection too small " +:+ fmt_d (gw_MaxBytesPerConnection c) +:+
       ", minimum is 1048576 bytes");
    fail_if (107374182400 < gw_MaxBytesPerConnection c)%Z
      ("max bytes per connection too large " +:+ fmt_d (gw_MaxBytesPerConnection c) +:+
       ", maximum is 107374182400 bytes");
    fail_if (gw_TLSEnabled c = true ∧ (gw_TLSCertPath c = "" ∨ gw_TLSKeyPath c = ""))
      ("TLS enabled but cert path (" +:+ gw_TLSCertPath c +:+ ") or key path (" +:+
       gw_TLSKeyPath c +:+ ") is empty");
    fail_if (gw_RateLimitEnabled c = true ∧ (gw_RateLimitRPS c ≤ 0)%Z)
      ("rate limit RPS must be positive, got " +:+ fmt_d (gw_RateLimitRPS c));
    fail_if (gw_RateLimitEnabled c = true ∧ (gw_RateLimitBurst c ≤ 0)%Z)
      ("rate limit burst must be positive, got " +:+ fmt_d (gw_RateLimitBurst c));
    fail_if (gw_RateLimitEnabled c = true ∧ (gw_RateLimitWindow c ≤ 0)%Z)
      ("rate limit window must be positive, got " +:+ d (gw_RateLimitWindow c));
    fail_if (gw_LogLevel c ∉ ["debug"; "info"; "warn"; "error"])
      ("invalid log level " +:+ gw_LogLevel c +:+ ", must be one of: debug, info, warn, error")
  ].

(** The defaults of [LoadGatewayConfig] with no environment variable set. *)
Definition default_gw_config : GwConfig :=
  mkGwConfig "0.0.0.0:7687" 1000 (30 * Second) 32768 (30 * Second) (10 * Second)
    (5 * Minute) 1048576000 (1 * Minute) false "/etc/certs/tls.crt" "/etc/certs/tls.key"
    false 100 200 (1 * Minute) "info" false.

(** ** Lemmas *)

Lemma first_error_cons e checks :
  first_error (e :: checks) = None ↔ e = None ∧ first_error checks = None.
Proof. unfold first_error. destruct e; simpl; naive_solver. Qed.

Lemma fail_if_none (cond : Prop) `{!Decision cond} m : fail_if cond m = None ↔ ¬ cond.
Proof. unfold fail_if. case_bool_decide; naive_solver. Qed.

(** ** Properties *)

(** An address [Validate] accepts: a host that is empty or an IP address, and a
    port a server can bind to. *)
Definition bindable (address : string) : Prop :=
  ∃ host port n, SplitHostPort address = Ok (host, port) ∧ atoi port = Ok n ∧ (1 ≤ n ≤ 65535)%Z ∧
    (host = "" ∨ host = "0.0.0.0" ∨ ParseIP host = true).

Lemma validate_bind_address_none a : validate_bind_address a = None ↔ bindable a.
Proof.
  unfold validate_bind_address, bindable. split.
  - destruct (SplitHostPort a) as [[host port]|e]; [|done].
    destruct (atoi port) as [n|e] eqn:Hp; [|done].
    repeat case_bool_decide; simpl; try done; intros Hip; exists host, port, n;
      repeat (split; [done || lia|]); try tauto.
    right. right. by destruct (ParseIP host).
  - intros (host & port & n & -> & -> & Hn & Hh).
    rewrite !bool_decide_eq_false_2 by lia. simpl.
    destruct Hh as [-> |[-> |Hip]]; [done|done|]. rewrite Hip. by rewrite andb_false_r.
Qed.

(** What a valid configuration is. *)
Record valid_config (c : GwConfig) : Prop := {
  vc_bind : bindable (gw_BindAddress c);
  vc_connections : (1 ≤ gw_MaxConnections c ≤ 100000)%Z;
  vc_timeout : (Second ≤ gw_Timeout c ≤ 5 * Minute)%Z;
  vc_buffer : (1024 ≤ gw_BufferSize c ≤ 1048576)%Z;
  vc_health : (5 * Second ≤ gw_HealthCheckInterval c ≤ 10 * Minute)%Z;
  vc_connection_timeout : (Second ≤ gw_ConnectionTimeout c ≤ gw_Timeout c)%Z;
  vc_idle : (Minute ≤ gw_IdleTimeout c ≤ 24 * Hour)%Z;
  vc_cleanup : (10 * Second ≤ gw_CleanupInterval c ≤ Hour)%Z;
  vc_bytes : (1048576 ≤ gw_MaxBytesPerConnection c ≤ 107374182400)%Z;
  vc_tls : gw_TLSEnabled c = true → gw_TLSCertPath c ≠ "" ∧ gw_TLSKeyPath c ≠ "";
  vc_rate : gw_RateLimitEnabled c = true →
    (0 < gw_RateLimitRPS c ∧ 0 < gw_RateLimitBurst c ∧ 0 < gw_RateLimitWindow c)%Z;
  vc_log : gw_LogLevel c ∈ ["debug"; "info"; "warn"; "error"];
}.

Lemma Validate_valid c : Validate c = None ↔ valid_config c.
Proof.
  unfold Validate. split.
  - intros Hc. apply first_error_cons in Hc as [Hbind%validate_bind_address_none Hc].
    repeat (apply first_error_cons in Hc as [?%fail_if_none Hc]).
    split; try lia; try done; [tauto|intros Hr; rewrite Hr in *; lia|by apply dec_stable].
  - intros []. apply first_error_cons. split; [by apply validate_bind_address_none|].
    repeat (apply first_error_cons; split; [apply fail_if_none; first [lia|tauto|naive_solver lia]|]).
    done.
Qed.

(** C35. Validation is exact: it accepts a configuration if and only if every
    setting is within its documented range (the rate limits and the TLS paths
    only when they are enabled).  Loading with an empty environment gives the
    defaults, and they are valid. *)
Theorem Validate_exact (c : GwConfig) :
  (Validate c = None ↔ valid_config c) ∧
  LoadGatewayConfig (λ _, "") = default_gw_config ∧ valid_config default_gw_config.
Proof.
  split; [apply Validate_valid|]. split; [vm_compute; reflexivity|].
  apply Validate_valid. vm_compute. reflexivity.
Qed.
