(* ===== verification/RateLimiter.v ===== *)
(** * Per-client rate limiting: [internal/gateway/rate_limiter.go]

    [RateLimiter] is the Go struct without its mutex, ticker and stop channel;
    each operation is one critical section.  Operations that read the clock
    take the instants they read as arguments. *)

From S2P Require Import Prelude.
From S2P Require Import GoStrings.
From S2P Require Import GoTime.

Record ClientLimiter := mkClient {
  cl_tokens : Z;
  cl_lastRefill : Z;
  cl_connections : Z;
}.

Record RateLimiter := mkRateLimiter {
  rl_enabled : bool;
  rl_rps : Z;
  rl_burst : Z;
  rl_window : Z;
  rl_clients : gmap string ClientLimiter;
}.

Definition rl_set_clients (f : gmap string ClientLimiter → gmap string ClientLimiter)
    (rl : RateLimiter) : RateLimiter :=
  mkRateLimiter (rl_enabled rl) (rl_rps rl) (rl_burst rl) (rl_window rl) (f (rl_clients rl)).

Definition NewRateLimiter (enabled : bool) (rps burst window : Z) : RateLimiter :=
  mkRateLimiter enabled rps burst window ∅.

(** The refill of [Allow]: whole seconds times the rate, capped at the burst;
    the refill time moves only when tokens are added. *)
Definition refill (rl : RateLimiter) (now : Z) (c : ClientLimiter) : ClientLimiter :=
  let timePassed := time_sub now (cl_lastRefill c) in
  let tokensToAdd := int64 (seconds_int timePassed * rl_rps rl) in
  if bool_decide (0 < tokensToAdd)%Z then
    let tokens := int64 (cl_tokens c + tokensToAdd) in
    mkClient (if bool_decide (rl_burst rl < tokens)%Z then rl_burst rl else tokens)
      now (cl_connections c)
  else c.

(** [created] is the clock read for a client seen for the first time, [now]
    the one used for the refill. *)
Definition Allow (created now : Z) (clientIP : string) (rl : RateLimiter) : bool * RateLimiter :=
  if negb (rl_enabled rl) then (true, rl)
  else
    let client := default (mkClient (rl_burst rl) created 0) (rl_clients rl !! clientIP) in
    let client := refill rl now client in
    if bool_decide (0 < cl_tokens client)%Z then
      (true, rl_set_clients <[clientIP := mkClient (int64 (cl_tokens client - 1))
                 (cl_lastRefill client) (int64 (cl_connections client + 1))]> rl)
    else (false, rl_set_clients <[clientIP := client]> rl).

Definition Release (clientIP : string) (rl : RateLimiter) : RateLimiter :=
  if negb (rl_enabled rl) then rl
  else
    match rl_clients rl !! clientIP with
    | Some client =>
        if bool_decide (0 < cl_connections client)%Z then
          rl_set_clients <[clientIP := mkClient (cl_tokens client) (cl_lastRefill client)
                                        (cl_connections client - 1)]> rl
        else rl
    | None => rl
    end.

Definition inactive (rl : RateLimiter) (now : Z) (client : ClientLimiter) : bool :=
  bool_decide (cl_connections client = 0)%Z &&
  bool_decide (int64 (rl_window rl * 2) < time_sub now (cl_lastRefill client))%Z.

Definition cleanupInactiveClients (now : Z) (rl : RateLimiter) : RateLimiter :=
  rl_set_clients (filter (λ kv, inactive rl now kv.2 = false)) rl.

Record RateLimiterStats := mkRateLimiterStats {
  rs_Enabled : bool; rs_RPS : Z; rs_Burst : Z; rs_Window : Z;
  rs_TrackedClients : Z; rs_ActiveClients : Z; rs_TotalConnections : Z;
}.

Definition rl_GetStats (rl : RateLimiter) : RateLimiterStats :=
  if negb (rl_enabled rl) then mkRateLimiterStats false 0 0 0 0 0 0
  else
    let cs := (map_to_list (rl_clients rl)).*2 in
    mkRateLimiterStats true (rl_rps rl) (rl_burst rl) (rl_window rl)
      (Z.of_nat (length cs))
      (Z.of_nat (length (filter (λ c, 0 < cl_connections c)%Z cs)))
      (foldr (λ c n, int64 (n + cl_connections c)) 0%Z cs).

#[global] Arguments refill : simpl never.
#[global] Arguments Allow : simpl never.
#[global] Arguments int64 : simpl never.

(** ** Invariant *)

(** Every client holds between 0 and [burst] tokens and a non-negative number
    of connections. *)
Definition client_wf (rl : RateLimiter) (c : ClientLimiter) : Prop :=
  (0 ≤ cl_tokens c ≤ rl_burst rl)%Z ∧ (0 ≤ cl_connections c)%Z.

Definition rl_wf (rl : RateLimiter) : Prop :=
  (0 ≤ rl_burst rl < 2 ^ 63)%Z ∧ map_Forall (λ _ c, client_wf rl c) (rl_clients rl).

(** The machine arithmetic of a refill does not overflow: the refilled count,
    before it is capped, is an [int64]. *)
Definition refill_fits (rl : RateLimiter) (now : Z) (c : ClientLimiter) : Prop :=
  (int64 (seconds_int (time_sub now (cl_lastRefill c)) * rl_rps rl) < 2 ^ 63 - cl_tokens c)%Z.

Definition client_of (rl : RateLimiter) (created : Z) (ip : string) : ClientLimiter :=
  default (mkClient (rl_burst rl) created 0) (rl_clients rl !! ip).

(** The operations as the gateway and the clean-up goroutine interleave them. *)
Inductive rl_step : RateLimiter → RateLimiter → Prop :=
  | step_allow rl created now ip :
      refill_fits rl now (client_of rl created ip) →
      (cl_connections (client_of rl created ip) < 2 ^ 63 - 1)%Z →
      rl_step rl (Allow created now ip rl).2
  | step_release rl ip : rl_step rl (Release ip rl)
  | step_cleanup rl now : rl_step rl (cleanupInactiveClients now rl).

Lemma client_of_wf rl created ip : rl_wf rl → client_wf rl (client_of rl created ip).
Proof.
  intros [Hb Hc]. unfold client_of. destruct (rl_clients rl !! ip) as [c|] eqn:E; simpl.
  - by apply (Hc ip).
  - split; simpl; lia.
Qed.

Lemma refill_wf rl now c :
  (0 ≤ rl_burst rl < 2 ^ 63)%Z → refill_fits rl now c → client_wf rl c →
  client_wf rl (refill rl now c).
Proof.
  intros Hb Hfit [Ht Hc]. unfold refill, refill_fits in *.
  set (add := int64 _) in *. case_bool_decide as Hadd; [|done].
  rewrite (int64_id (cl_tokens c + add)) by (unfold in_int64; lia).
  split; simpl; [|lia]. case_bool_decide; lia.
Qed.

Lemma refill_connections rl now c : cl_connections (refill rl now c) = cl_connections c.
Proof. unfold refill. by case_bool_decide. Qed.

Lemma rl_wf_insert rl ip c :
  rl_wf rl → client_wf rl c → rl_wf (rl_set_clients <[ip := c]> rl).
Proof. intros [Hb Hm] Hc. split; [done|]. by apply map_Forall_insert_2. Qed.

Lemma Allow_eq created now ip rl :
  Allow created now ip rl =
  if negb (rl_enabled rl) then (true, rl)
  else
    let c := refill rl now (client_of rl created ip) in
    if bool_decide (0 < cl_tokens c)%Z then
      (true, rl_set_clients <[ip := mkClient (int64 (cl_tokens c - 1))
                 (cl_lastRefill c) (int64 (cl_connections c + 1))]> rl)
    else (false, rl_set_clients <[ip := c]> rl).
Proof. reflexivity. Qed.

Lemma Allow_wf rl created now ip :
  rl_wf rl → refill_fits rl now (client_of rl created ip) →
  (cl_connections (client_of rl created ip) < 2 ^ 63 - 1)%Z →
  rl_wf (Allow created now ip rl).2.
Proof.
  intros Hwf Hfit Hcon.
  pose proof (refill_wf rl now _ (proj1 Hwf) Hfit (client_of_wf rl created ip Hwf)) as Hc.
  rewrite <- (refill_connections rl now) in Hcon.
  rewrite Allow_eq. destruct (rl_enabled rl); [|done]. cbn [negb].
  set (c := refill rl now (client_of rl created ip)) in *. clearbody c.
  destruct Hc as [Ht Hn]. pose proof (proj1 Hwf) as Hb.
  case_bool_decide; apply rl_wf_insert; [done| |done|done].
  split; cbn [cl_tokens cl_connections]; rewrite int64_id; unfold in_int64; lia.
Qed.

Lemma Release_wf rl ip : rl_wf rl → rl_wf (Release ip rl).
Proof.
  intros Hwf. unfold Release. destruct (rl_enabled rl); simpl; [|done].
  destruct (rl_clients rl !! ip) as [c|] eqn:E; [|done].
  case_bool_decide as Hpos; [|done]. apply rl_wf_insert; [done|].
  destruct Hwf as [Hb Hm]. specialize (Hm ip c E) as [Ht Hc]. split; simpl; lia.
Qed.

Lemma cleanup_wf rl now : rl_wf rl → rl_wf (cleanupInactiveClients now rl).
Proof.
  intros [Hb Hm]. split; [done|]. intros ip c. simpl.
  rewrite map_lookup_filter_Some. intros [Hl _]. by apply (Hm ip).
Qed.

(** ** Properties *)

(** Rate limiter invariant: in every state reachable from a new limiter by any
    interleaving of [Allow], [Release] and clean-ups, each client holds between
    0 and [burst] tokens and never a negative number of connections. *)
Theorem rate_limiter_invariant (enabled : bool) (rps burst window : Z) (rl : RateLimiter) :
  (0 ≤ burst < 2 ^ 63)%Z →
  rtc rl_step (NewRateLimiter enabled rps burst window) rl →
  rl_wf rl.
Proof.
  intros Hb Hsteps.
  assert (rl_wf (NewRateLimiter enabled rps burst window)) as Hwf0.
  { split; [done|apply map_Forall_empty]. }
  revert Hwf0. induction Hsteps as [|rl1 rl2 rl3 Hstep _ IH]; [done|].
  intros Hwf. apply IH. destruct Hstep.
  - by apply Allow_wf.
  - by apply Release_wf.
  - by apply cleanup_wf.
Qed.

Lemma rate_limiter_invariant_witness :
  rl_wf (Allow 0 1500000000 "10.1.1.1" (NewRateLimiter true 100 200 60000000000)).2.
Proof.
  apply (rate_limiter_invariant true 100 200 60000000000); [lia|].
  apply rtc_once. constructor; vm_compute; reflexivity.
Defined.

(** What [Allow] decides: a disabled limiter admits everything and keeps no
    state; an enabled one admits a client exactly when its refilled bucket is
    not empty, takes one token and counts one connection; no other client is
    touched. *)
Theorem Allow_spec (rl : RateLimiter) (created now : Z) (ip : string) :
  rl_wf rl → refill_fits rl now (client_of rl created ip) →
  (cl_connections (client_of rl created ip) < 2 ^ 63 - 1)%Z →
  let c := refill rl now (client_of rl created ip) in
  let '(ok, rl') := Allow created now ip rl in
  (rl_enabled rl = false → ok = true ∧ rl' = rl) ∧
  (rl_enabled rl = true →
     (ok = true ↔ (0 < cl_tokens c)%Z) ∧
     rl_clients rl' !! ip = Some
       (mkClient (cl_tokens c - if ok then 1 else 0) (cl_lastRefill c)
          (cl_connections c + if ok then 1 else 0)) ∧
     ∀ ip', ip' ≠ ip → rl_clients rl' !! ip' = rl_clients rl !! ip').
Proof.
  intros Hwf Hfit Hcon c.
  pose proof (refill_wf rl now _ (proj1 Hwf) Hfit (client_of_wf rl created ip Hwf)) as Hc.
  rewrite <- (refill_connections rl now) in Hcon.
  rewrite Allow_eq. fold c in Hc, Hcon |- *. clearbody c.
  destruct Hc as [Ht Hn], Hwf as [Hb _].
  destruct (rl_enabled rl); cbn [negb]; [|split; [by split|discriminate]].
  case_bool_decide as Hpos; (split; [discriminate|intros _]); (split; [done|]);
    cbn [rl_set_clients rl_clients];
    rewrite lookup_insert_eq; (split; [|intros ip' ?; by rewrite lookup_insert_ne]).
  - by rewrite !int64_id by (unfold in_int64; lia).
  - f_equal. rewrite Z.sub_0_r, Z.add_0_r. by destruct c.
Qed.

Lemma Allow_spec_witness :
  let rl := NewRateLimiter true 1 1 60000000000 in
  let rl1 := (Allow 0 0 "10.1.1.1" rl).2 in
  rl_clients (Allow 0 0 "10.1.1.1" rl1).2 !! "10.1.1.1" = Some (mkClient 0 0 1).
Proof.
  intros rl rl1.
  assert (rl_wf rl1) as Hwf.
  { apply Allow_wf; [|vm_compute; reflexivity|vm_compute; reflexivity].
    split; [cbn; lia|apply map_Forall_empty]. }
  destruct (Allow_spec rl1 0 0 "10.1.1.1" Hwf) as [_ H]; [vm_compute; reflexivity|vm_compute; reflexivity|].
  destruct (H eq_refl) as (_ & Hl & _). vm_compute in Hl. exact Hl.
Defined.

(** ** The token bucket bound *)

(** A burst of connection attempts of one client at the instants [ts]: how many
    are admitted. *)
Fixpoint run_allow (ip : string) (ts : list Z) (rl : RateLimiter) : nat * RateLimiter :=
  match ts with
  | [] => (0, rl)
  | t :: ts =>
      let '(ok, rl1) := Allow t t ip rl in
      let '(n, rl2) := run_allow ip ts rl1 in
      ((if ok : bool then S n else n), rl2)
  end.

(** Side conditions of one attempt: machine integers do not overflow, time does
    not run backwards, and [int(d.Seconds())] does not exceed the elapsed time
    (which holds below half a year, see [GoTime.seconds_int_rounds_up]). *)
Definition attempt_ok (rl : RateLimiter) (t : Z) (c : ClientLimiter) : Prop :=
  let secs := seconds_int (time_sub t (cl_lastRefill c)) in
  refill_fits rl t c ∧ (cl_connections c < 2 ^ 63 - 1)%Z ∧
  in_int64 (secs * rl_rps rl) ∧ (secs * Second ≤ t - cl_lastRefill c)%Z ∧
  (cl_lastRefill c ≤ t)%Z.

Fixpoint attempts_ok (ip : string) (ts : list Z) (rl : RateLimiter) : Prop :=
  match ts with
  | [] => True
  | t :: ts =>
      attempt_ok rl t (client_of rl t ip) ∧ attempts_ok ip ts (Allow t t ip rl).2
  end.

(** The credit of a client: its tokens, less what the rate has granted since
    the epoch; admitting a connection never increases it. *)
Definition credit (rl : RateLimiter) (c : ClientLimiter) : Z :=
  (cl_tokens c * Second - rl_rps rl * cl_lastRefill c)%Z.

Lemma refill_credit rl t c :
  rl_wf rl → client_wf rl c → (0 ≤ rl_rps rl)%Z → attempt_ok rl t c →
  (credit rl (refill rl t c) ≤ credit rl c)%Z ∧
  (cl_lastRefill c ≤ cl_lastRefill (refill rl t c) ≤ t)%Z.
Proof.
  intros [Hb _] [Ht Hc] Hrps (Hfit & Hcon & Hin & Hgap & Hmono).
  unfold credit, refill, refill_fits in *. rewrite (int64_id _ Hin) in *.
  set (secs := seconds_int _) in *.
  case_bool_decide as Hadd; [|split; [done|lia]].
  rewrite (int64_id (cl_tokens c + secs * rl_rps rl)) by (unfold in_int64 in *; lia).
  cbn [cl_tokens cl_lastRefill]. split; [|lia].
  assert (rl_rps rl * (secs * Second) ≤ rl_rps rl * (t - cl_lastRefill c))%Z
    by (by apply Z.mul_le_mono_nonneg_l).
  unfold Second in *. case_bool_decide; lia.
Qed.

Lemma Allow_credit rl t ip ok rl' :
  rl_wf rl → rl_enabled rl = true → (0 ≤ rl_rps rl)%Z →
  attempt_ok rl t (client_of rl t ip) → Allow t t ip rl = (ok, rl') →
  ∃ c', rl_clients rl' !! ip = Some c' ∧ rl_rps rl' = rl_rps rl ∧ rl_burst rl' = rl_burst rl ∧
    rl_enabled rl' = true ∧
    ((if ok then Second else 0) + credit rl c' ≤ credit rl (client_of rl t ip))%Z ∧
    (cl_lastRefill (client_of rl t ip) ≤ cl_lastRefill c' ≤ t)%Z.
Proof.
  intros Hwf Hen Hrps Hok HA. pose proof (client_of_wf rl t ip Hwf) as Hcwf.
  destruct (refill_credit rl t _ Hwf Hcwf Hrps Hok) as [Hcr Hlast].
  destruct Hok as (Hfit & _).
  pose proof (refill_wf rl t _ (proj1 Hwf) Hfit Hcwf) as [Ht _].
  rewrite Allow_eq, Hen in HA. cbn [negb] in HA.
  set (c := refill rl t (client_of rl t ip)) in *. clearbody c.
  case_bool_decide as Hpos; injection HA as <- <-; cbn [rl_set_clients rl_clients];
    eexists; (split; [apply lookup_insert_eq|]); repeat (split; [done|]);
    unfold credit in *; cbn [cl_tokens cl_lastRefill]; [|done].
  destruct Hwf as [Hb _]. rewrite int64_id by (unfold in_int64; lia). lia.
Qed.

Lemma run_allow_credit ip ts : ∀ rl n rl' c,
  rl_wf rl → rl_enabled rl = true → (0 ≤ rl_rps rl)%Z → attempts_ok ip ts rl →
  rl_clients rl !! ip = Some c →
  run_allow ip ts rl = (n, rl') →
  ∃ c', rl_clients rl' !! ip = Some c' ∧ client_wf rl c' ∧
    (Z.of_nat n * Second + credit rl c' ≤ credit rl c)%Z ∧
    Exists (λ u, cl_lastRefill c' ≤ u)%Z (cl_lastRefill c :: ts).
Proof.
  induction ts as [|t ts IH]; intros rl n rl' c Hwf Hen Hrps Hok Hc Hrun; simpl in *.
  - injection Hrun as <- <-. exists c.
    split; [done|]. split; [by apply Hwf in Hc|]. split; [simpl; lia|].
    by constructor.
  - destruct Hok as [Hok Hoks].
    destruct (Allow t t ip rl) as [ok rl1] eqn:EA.
    destruct (run_allow ip ts rl1) as [n1 rl2] eqn:ER.
    assert (client_of rl t ip = c) as Ecl by (unfold client_of; by rewrite Hc).
    pose proof (Allow_wf rl t t ip Hwf (proj1 Hok) (proj1 (proj2 Hok))) as Hwf1.
    rewrite EA in Hwf1. cbn [snd] in *.
    destruct (Allow_credit rl t ip ok rl1) as (c1 & Hc1 & Er & Eb & Hen1 & Hcr & Hl); try done.
    rewrite Ecl in *.
    destruct (IH rl1 n1 rl2 c1) as (c2 & Hc2 & Hwf2 & Hcr2 & Hl2); try done; [by rewrite Er|].
    exists c2. injection Hrun as <- <-. unfold credit, client_wf in *. rewrite Er, Eb in *.
    split; [done|]. split; [done|].
    split; [unfold Second in *; destruct ok; cbv iota in *; lia|].
    apply Exists_cons in Hl2 as [Hl2|Hl2]; [|by do 2 apply Exists_cons_tl].
    apply Exists_cons_tl, Exists_cons_hd. lia.
Qed.

Lemma sorted_last_bound (ts : list Z) : ∀ t u,
  StronglySorted Z.le (t :: ts) → u ∈ t :: ts → (u ≤ default t (last ts))%Z.
Proof.
  induction ts as [|t' ts IH]; intros t u Hs Hu.
  - apply list_elem_of_singleton in Hu. simpl. lia.
  - assert (default t (last (t' :: ts)) = default t' (last ts)) as ->
      by (rewrite last_cons; by destruct (last ts)).
    inversion Hs as [|? ? Hs' Hall]; subst.
    assert (t' ≤ default t' (last ts))%Z by (apply IH; [done|set_solver]).
    apply elem_of_cons in Hu as [->|Hu]; [|by apply IH].
    inversion Hall; subst. lia.
Qed.


