(* ===== verification/ConnectionTracker.v ===== *)
(** * Tracked client connections: [internal/gateway/connection_tracker.go]

    A [*ProxySession] is shared between the tracker's map and the goroutine
    that serves the connection, so sessions live in a heap [ct_objs], addressed
    by their ID; [ct_sessions] is the key set of the Go map (the map sends an
    ID to the session object of that ID).  [ct_closed] is the set of network
    connections on which [Close] was called. *)

From S2P Require Import Prelude.
From S2P Require Import GoStrings.
From S2P Require Import GoTime.

(** A [net.Conn]: a descriptor and the remote address. *)
Record Conn := mkConn { conn_fd : Z; conn_remote : string }.

Record ProxySession := mkSession {
  ps_ID : string;
  ps_ClientConn : Conn;
  ps_ClientAddr : string;
  ps_BackendConn : option Conn;
  ps_StartTime : Z;
  ps_LastActivity : Z;
  ps_BytesSent : Z;
  ps_BytesReceived : Z;
  ps_isActive : bool;
  ps_MaxBytesLimit : Z;
  ps_ConnectionErrors : Z;
}.

Record ConnectionTracker := mkTracker {
  ct_maxConnections : Z;
  ct_sessions : gset string;
  ct_nextID : Z;                          (* uint64 *)
  ct_objs : gmap string ProxySession;
  ct_closed : gset Z;
}.

Definition ct_with (sessions : gset string) (objs : gmap string ProxySession)
    (closed : gset Z) (ct : ConnectionTracker) : ConnectionTracker :=
  mkTracker (ct_maxConnections ct) sessions (ct_nextID ct) objs closed.

Definition NewConnectionTracker (maxConnections : Z) : ConnectionTracker :=
  mkTracker maxConnections ∅ 0 ∅ ∅.

Definition GetCount (ct : ConnectionTracker) : Z := Z.of_nat (size (ct_sessions ct)).

Definition CanAccept (ct : ConnectionTracker) : bool :=
  bool_decide (GetCount ct < ct_maxConnections ct)%Z.

(** ** Session methods (on the heap) *)

Definition update_session (id : string) (f : ProxySession → ProxySession)
    (ct : ConnectionTracker) : ConnectionTracker :=
  ct_with (ct_sessions ct) (alter f id (ct_objs ct)) (ct_closed ct) ct.

Definition SetBackendConnection (conn : Conn) (ps : ProxySession) : ProxySession :=
  mkSession (ps_ID ps) (ps_ClientConn ps) (ps_ClientAddr ps) (Some conn) (ps_StartTime ps)
    (ps_LastActivity ps) (ps_BytesSent ps) (ps_BytesReceived ps) (ps_isActive ps)
    (ps_MaxBytesLimit ps) (ps_ConnectionErrors ps).

Definition AddBytesSent (now bytes : Z) (ps : ProxySession) : ProxySession :=
  mkSession (ps_ID ps) (ps_ClientConn ps) (ps_ClientAddr ps) (ps_BackendConn ps) (ps_StartTime ps)
    now (int64 (ps_BytesSent ps + bytes)) (ps_BytesReceived ps) (ps_isActive ps)
    (ps_MaxBytesLimit ps) (ps_ConnectionErrors ps).

Definition AddBytesReceived (now bytes : Z) (ps : ProxySession) : ProxySession :=
  mkSession (ps_ID ps) (ps_ClientConn ps) (ps_ClientAddr ps) (ps_BackendConn ps) (ps_StartTime ps)
    now (ps_BytesSent ps) (int64 (ps_BytesReceived ps + bytes)) (ps_isActive ps)
    (ps_MaxBytesLimit ps) (ps_ConnectionErrors ps).

Definition SetMaxBytesLimit (limit : Z) (ps : ProxySession) : ProxySession :=
  mkSession (ps_ID ps) (ps_ClientConn ps) (ps_ClientAddr ps) (ps_BackendConn ps) (ps_StartTime ps)
    (ps_LastActivity ps) (ps_BytesSent ps) (ps_BytesReceived ps) (ps_isActive ps)
    limit (ps_ConnectionErrors ps).

Definition CheckBytesLimit (ps : ProxySession) : bool :=
  bool_decide (ps_MaxBytesLimit ps < int64 (ps_BytesSent ps + ps_BytesReceived ps))%Z.

Definition AddConnectionError (ps : ProxySession) : ProxySession :=
  mkSession (ps_ID ps) (ps_ClientConn ps) (ps_ClientAddr ps) (ps_BackendConn ps) (ps_StartTime ps)
    (ps_LastActivity ps) (ps_BytesSent ps) (ps_BytesReceived ps) (ps_isActive ps)
    (ps_MaxBytesLimit ps) (int64 (ps_ConnectionErrors ps + 1)).

Definition deactivate (ps : ProxySession) : ProxySession :=
  mkSession (ps_ID ps) (ps_ClientConn ps) (ps_ClientAddr ps) (ps_BackendConn ps) (ps_StartTime ps)
    (ps_LastActivity ps) (ps_BytesSent ps) (ps_BytesReceived ps) false
    (ps_MaxBytesLimit ps) (ps_ConnectionErrors ps).

Definition conn_fds (ps : ProxySession) : gset Z :=
  {[conn_fd (ps_ClientConn ps)]} ∪
  match ps_BackendConn ps with Some b => {[conn_fd b]} | None => ∅ end.

(** [ProxySession.Close]: closes both connections once. *)
Definition Close (id : string) (ct : ConnectionTracker) : ConnectionTracker :=
  match ct_objs ct !! id with
  | Some ps =>
      if negb (ps_isActive ps) then ct
      else ct_with (ct_sessions ct) (<[id := deactivate ps]> (ct_objs ct))
             (ct_closed ct ∪ conn_fds ps) ct
  | None => ct
  end.

(** ** Tracker operations *)

Definition generateSessionID (ct : ConnectionTracker) : string * Z :=
  let id := ((ct_nextID ct + 1) `mod` 2 ^ 64)%Z in
  ("session-" +:+ fmt_d id, id).

Definition Track (now : Z) (clientConn : Conn) (ct : ConnectionTracker)
    : string * ConnectionTracker :=
  let (sessionID, next) := generateSessionID ct in
  let session := mkSession sessionID clientConn (conn_remote clientConn) None now now 0 0
                   true 1048576000 0 in
  (sessionID,
   mkTracker (ct_maxConnections ct) ({[sessionID]} ∪ ct_sessions ct) next
     (<[sessionID := session]> (ct_objs ct)) (ct_closed ct)).

Definition forget (id : string) (ct : ConnectionTracker) : ConnectionTracker :=
  ct_with (ct_sessions ct ∖ {[id]}) (ct_objs ct) (ct_closed ct) ct.

Definition Untrack (sessionID : string) (ct : ConnectionTracker) : ConnectionTracker :=
  if bool_decide (sessionID ∈ ct_sessions ct) then forget sessionID (Close sessionID ct)
  else ct.

Definition GetSession (sessionID : string) (ct : ConnectionTracker) : option ProxySession :=
  if bool_decide (sessionID ∈ ct_sessions ct) then ct_objs ct !! sessionID else None.

(** [GetAllSessions]: the pointers, as session IDs, in some order. *)
Definition GetAllSessions (ct : ConnectionTracker) : list string := elements (ct_sessions ct).

(** Close and delete every session of a list, as the [for range] loops of
    [CloseAll], [CleanupStale] and [CleanupIdle] do. *)
Definition drop_sessions (ids : list string) (ct : ConnectionTracker) : ConnectionTracker :=
  foldr (λ id ct, forget id (Close id ct)) ct ids.

Definition CloseAll (ct : ConnectionTracker) : ConnectionTracker :=
  drop_sessions (GetAllSessions ct) ct.

Definition is_stale (now maxAge : Z) (ct : ConnectionTracker) (id : string) : bool :=
  match ct_objs ct !! id with
  | Some ps => negb (ps_isActive ps) && bool_decide (maxAge < time_sub now (ps_StartTime ps))%Z
  | None => false
  end.

Definition is_idle (now idleTimeout : Z) (ct : ConnectionTracker) (id : string) : bool :=
  match ct_objs ct !! id with
  | Some ps => ps_isActive ps && bool_decide (idleTimeout < time_sub now (ps_LastActivity ps))%Z
  | None => false
  end.

Definition CleanupStale (now maxAge : Z) (ct : ConnectionTracker) : Z * ConnectionTracker :=
  let ids := filter (λ id, is_stale now maxAge ct id = true) (GetAllSessions ct) in
  (Z.of_nat (length ids), drop_sessions ids ct).

Definition CleanupIdle (now idleTimeout : Z) (ct : ConnectionTracker) : Z * ConnectionTracker :=
  let ids := filter (λ id, is_idle now idleTimeout ct id = true) (GetAllSessions ct) in
  (Z.of_nat (length ids), drop_sessions ids ct).

Definition session_field (f : ProxySession → Z) (ct : ConnectionTracker) (id : string) : Z :=
  match ct_objs ct !! id with Some ps => f ps | None => 0 end.

Definition GetTotalBytes (ct : ConnectionTracker) : Z * Z :=
  let ids := GetAllSessions ct in
  (foldl (λ n id, int64 (n + session_field ps_BytesSent ct id)) 0%Z ids,
   foldl (λ n id, int64 (n + session_field ps_BytesReceived ct id)) 0%Z ids).

(** [ProxySession.GetStats] *)
Record SessionStats := mkSessionStats {
  ss_ID : string;
  ss_ClientAddr : string;
  ss_StartTime : Z;
  ss_LastActivity : Z;
  ss_Duration : Z;
  ss_BytesSent : Z;
  ss_BytesReceived : Z;
  ss_TotalBytes : Z;
  ss_ConnectionErrors : Z;
  ss_IsActive : bool;
}.

Definition GetDuration (now : Z) (ps : ProxySession) : Z := time_sub now (ps_StartTime ps).

Definition ps_GetStats (now : Z) (ps : ProxySession) : SessionStats :=
  mkSessionStats (ps_ID ps) (ps_ClientAddr ps) (ps_StartTime ps) (ps_LastActivity ps)
    (GetDuration now ps) (ps_BytesSent ps) (ps_BytesReceived ps)
    (int64 (ps_BytesSent ps + ps_BytesReceived ps)) (ps_ConnectionErrors ps) (ps_isActive ps).

Definition tracked_active (ct : ConnectionTracker) (id : string) : Prop :=
  ∃ ps, ct_objs ct !! id = Some ps ∧ ps_isActive ps = true.

(** ** Invariant *)

(** Session IDs are those generated so far, every tracked ID has an object, an
    object knows its ID, and the connections of an inactive session were closed
    (at least the client's). *)
Record ct_wf (ct : ConnectionTracker) : Prop := {
  wf_next : (0 ≤ ct_nextID ct < 2 ^ 64)%Z;
  wf_gen id : is_Some (ct_objs ct !! id) →
    ∃ k, (0 < k ≤ ct_nextID ct)%Z ∧ id = "session-" +:+ fmt_d k;
  wf_obj id : id ∈ ct_sessions ct → is_Some (ct_objs ct !! id);
  wf_id id ps : ct_objs ct !! id = Some ps → ps_ID ps = id;
  wf_closed id ps : ct_objs ct !! id = Some ps → ps_isActive ps = false →
    conn_fd (ps_ClientConn ps) ∈ ct_closed ct;
}.

Lemma NewConnectionTracker_wf n : ct_wf (NewConnectionTracker n).
Proof.
  split; simpl; try lia; intros id.
  - rewrite lookup_empty. by intros [].
  - set_solver.
  - intros ps. by rewrite lookup_empty.
  - intros ps. by rewrite lookup_empty.
Qed.

Lemma session_id_inj i j : "session-" +:+ fmt_d i = "session-" +:+ fmt_d j → i = j.
Proof. intros H%string_app_inj_l. by apply fmt_d_inj. Qed.

(** While fewer than [2^64 - 1] sessions were created, a new ID is fresh. *)
Lemma generateSessionID_fresh ct :
  ct_wf ct → (ct_nextID ct < 2 ^ 64 - 1)%Z →
  ct_objs ct !! (generateSessionID ct).1 = None ∧
  (generateSessionID ct).2 = (ct_nextID ct + 1)%Z.
Proof.
  intros Hwf Hn. pose proof (wf_next _ Hwf). unfold generateSessionID. simpl.
  rewrite Z.mod_small by lia. split; [|done].
  destruct (ct_objs ct !! _) eqn:E; [|done]. exfalso.
  destruct (wf_gen _ Hwf _ (mk_is_Some _ _ E)) as (k & Hk & Heq).
  apply session_id_inj in Heq. lia.
Qed.

Lemma Track_wf now conn ct :
  ct_wf ct → (ct_nextID ct < 2 ^ 64 - 1)%Z → ct_wf (Track now conn ct).2.
Proof.
  intros Hwf Hn. destruct (generateSessionID_fresh ct Hwf Hn) as [Hfresh Hnext].
  unfold Track. destruct (generateSessionID ct) as [sid next] eqn:E. simpl in *. subst next.
  pose proof (wf_next _ Hwf).
  assert (sid = "session-" +:+ fmt_d (ct_nextID ct + 1)) as Hsid.
  { unfold generateSessionID in E. rewrite Z.mod_small in E by lia. by injection E. }
  split; simpl.
  - lia.
  - intros id. rewrite lookup_insert_is_Some.
    intros [<-|[_ Hs]]; [exists (ct_nextID ct + 1)%Z; split; [lia|done]|].
    destruct (wf_gen _ Hwf _ Hs) as (k & ? & ->). exists k. split; [lia|done].
  - intros id. rewrite elem_of_union, elem_of_singleton, lookup_insert_is_Some'.
    intros [->|Hs]; [by left|right; by apply (wf_obj _ Hwf)].
  - intros id ps. rewrite lookup_insert_Some. intros [[<- <-]|[_ Hl]]; [done|].
    by apply (wf_id _ Hwf).
  - intros id ps. rewrite lookup_insert_Some. intros [[<- <-]|[_ Hl]]; [done|].
    by apply (wf_closed _ Hwf id).
Qed.

Lemma update_session_wf f id ct :
  (∀ ps, ps_ID (f ps) = ps_ID ps ∧ ps_isActive (f ps) = ps_isActive ps ∧
         ps_ClientConn (f ps) = ps_ClientConn ps) →
  ct_wf ct → ct_wf (update_session id f ct).
Proof.
  intros Hf Hwf. split; simpl.
  - apply (wf_next _ Hwf).
  - intros id'. rewrite lookup_alter_is_Some. apply (wf_gen _ Hwf).
  - intros id'. rewrite lookup_alter_is_Some. apply (wf_obj _ Hwf).
  - intros id' ps. rewrite lookup_alter_Some.
    intros [(-> & ps' & Hl & ->)|[_ Hl]]; [rewrite (proj1 (Hf _))|]; by apply (wf_id _ Hwf).
  - intros id' ps. rewrite lookup_alter_Some.
    intros [(-> & ps' & Hl & ->)|[_ Hl]]; [|by apply (wf_closed _ Hwf id')].
    destruct (Hf ps') as (_ & -> & ->). by apply (wf_closed _ Hwf id').
Qed.

Lemma Close_wf id ct : ct_wf ct → ct_wf (Close id ct).
Proof.
  intros Hwf. unfold Close. destruct (ct_objs ct !! id) as [ps|] eqn:E; [|done].
  destruct (ps_isActive ps) eqn:Ea; simpl; [|done]. split; simpl.
  - apply (wf_next _ Hwf).
  - intros id'. rewrite lookup_insert_is_Some.
    intros [<-|[_ Hs]]; apply (wf_gen _ Hwf); [by rewrite E|done].
  - intros id' Hs. rewrite lookup_insert_is_Some'. right. by apply (wf_obj _ Hwf).
  - intros id' ps'. rewrite lookup_insert_Some. intros [[<- <-]|[_ Hl]].
    + simpl. by apply (wf_id _ Hwf).
    + by apply (wf_id _ Hwf).
  - intros id' ps'. rewrite lookup_insert_Some. intros [[<- <-]|[_ Hl]] Hi.
    + unfold conn_fds. simpl. set_solver.
    + apply elem_of_union_l. by apply (wf_closed _ Hwf id').
Qed.

Lemma forget_wf id ct : ct_wf ct → ct_wf (forget id ct).
Proof.
  intros Hwf. split; simpl; try apply Hwf.
  intros id' Hs. apply (wf_obj _ Hwf). set_solver.
Qed.

Lemma Untrack_wf id ct : ct_wf ct → ct_wf (Untrack id ct).
Proof.
  intros Hwf. unfold Untrack. case_bool_decide; [|done]. by apply forget_wf, Close_wf.
Qed.

Lemma drop_sessions_wf ids ct : ct_wf ct → ct_wf (drop_sessions ids ct).
Proof.
  intros Hwf. induction ids as [|id ids IH]; simpl; [done|]. by apply forget_wf, Close_wf.
Qed.

Lemma CleanupIdle_wf now t ct : ct_wf ct → ct_wf (CleanupIdle now t ct).2.
Proof. apply drop_sessions_wf. Qed.

Lemma CleanupStale_wf now age ct : ct_wf ct → ct_wf (CleanupStale now age ct).2.
Proof. apply drop_sessions_wf. Qed.

#[export] Hint Resolve CleanupIdle_wf CleanupStale_wf Close_wf forget_wf Untrack_wf drop_sessions_wf : go.

(** ** What closing does to the other sessions *)

Lemma Close_inactive id ct : ¬ tracked_active (Close id ct) id.
Proof.
  unfold tracked_active, Close. intros (ps' & Hl & Ha).
  destruct (ct_objs ct !! id) as [ps|] eqn:E; [|congruence].
  destruct (ps_isActive ps) eqn:Ea; simpl in Hl; [|congruence].
  rewrite lookup_insert_eq in Hl. injection Hl as <-. discriminate Ha.
Qed.

Lemma Close_active id id' ct :
  tracked_active (Close id ct) id' ↔ tracked_active ct id' ∧ id' ≠ id.
Proof.
  destruct (decide (id' = id)) as [->|Hne].
  { split; [intros H; by apply Close_inactive in H|by intros []]. }
  assert (ct_objs (Close id ct) !! id' = ct_objs ct !! id') as Heq.
  { unfold Close. destruct (ct_objs ct !! id) as [ps|]; [|done].
    destruct (ps_isActive ps); simpl; [|done]. by rewrite lookup_insert_ne. }
  unfold tracked_active. rewrite Heq. tauto.
Qed.

Lemma Close_sessions id ct : ct_sessions (Close id ct) = ct_sessions ct.
Proof.
  unfold Close. destruct (ct_objs ct !! id) as [ps|]; [|done]. by destruct (ps_isActive ps).
Qed.

Lemma Close_closed id ct : ct_closed ct ⊆ ct_closed (Close id ct).
Proof.
  unfold Close. destruct (ct_objs ct !! id) as [ps|]; [|done].
  destruct (ps_isActive ps); simpl; set_solver.
Qed.

Lemma drop_sessions_active ids ct id :
  tracked_active (drop_sessions ids ct) id ↔ tracked_active ct id ∧ id ∉ ids.
Proof.
  induction ids as [|id' ids IH]; simpl; [set_solver|].
  change (tracked_active (forget id' (Close id' (drop_sessions ids ct))) id)
    with (tracked_active (Close id' (drop_sessions ids ct)) id).
  rewrite Close_active, IH. set_solver.
Qed.

Lemma drop_sessions_sessions ids ct :
  ct_sessions (drop_sessions ids ct) = ct_sessions ct ∖ list_to_set ids.
Proof.
  induction ids as [|id ids IH]; simpl; [set_solver|].
  rewrite Close_sessions, IH. set_solver.
Qed.

Lemma GetCount_pos id ct : id ∈ ct_sessions ct → (0 < GetCount ct)%Z.
Proof.
  intros Hid. unfold GetCount.
  assert (size (ct_sessions ct) ≠ 0); [|lia].
  rewrite size_non_empty_iff. set_solver.
Qed.

Lemma elem_of_GetAllSessions id ct : id ∈ GetAllSessions ct ↔ id ∈ ct_sessions ct.
Proof. unfold GetAllSessions. by rewrite elem_of_elements. Qed.

Lemma NoDup_GetAllSessions ct : NoDup (GetAllSessions ct).
Proof. unfold GetAllSessions. apply NoDup_elements. Qed.

(** ** Properties *)

(** The operations of the tracker and of its sessions. *)
Inductive ct_step : ConnectionTracker → ConnectionTracker → Prop :=
  | ct_track ct now conn :
      (ct_nextID ct < 2 ^ 64 - 1)%Z → ct_step ct (Track now conn ct).2
  | ct_untrack ct id : ct_step ct (Untrack id ct)
  | ct_closeall ct : ct_step ct (CloseAll ct)
  | ct_stale ct now age : ct_step ct (CleanupStale now age ct).2
  | ct_idle ct now t : ct_step ct (CleanupIdle now t ct).2
  | ct_close ct id : ct_step ct (Close id ct)
  | ct_backend ct id b : ct_step ct (update_session id (SetBackendConnection b) ct)
  | ct_sent ct id now n : ct_step ct (update_session id (AddBytesSent now n) ct)
  | ct_recv ct id now n : ct_step ct (update_session id (AddBytesReceived now n) ct)
  | ct_limit ct id n : ct_step ct (update_session id (SetMaxBytesLimit n) ct)
  | ct_error ct id : ct_step ct (update_session id AddConnectionError ct).

(** Connection tracker invariant: whatever the interleaving of tracker and
    session operations, session IDs are exactly generated ones, every tracked
    ID has its session object, and no session is inactive while its client
    connection is still open. *)
Theorem connection_tracker_invariant (n : Z) (ct : ConnectionTracker) :
  rtc ct_step (NewConnectionTracker n) ct → ct_wf ct.
Proof.
  intros Hsteps. assert (ct_wf (NewConnectionTracker n)) as H0
    by apply NewConnectionTracker_wf.
  revert H0. induction Hsteps as [|ct1 ct2 ct3 Hstep _ IH]; [done|].
  intros Hwf. apply IH. destruct Hstep; unfold CloseAll; eauto using Track_wf with go; by apply update_session_wf.
Qed.

Lemma connection_tracker_invariant_witness :
  ct_wf (Untrack "session-1" (Track 7 (mkConn 3 "10.0.0.9:5000") (NewConnectionTracker 10)).2).
Proof.
  apply (connection_tracker_invariant 10).
  eapply rtc_l; [apply (ct_track _ 7 (mkConn 3 "10.0.0.9:5000")); reflexivity|].
  apply rtc_once, (ct_untrack _ "session-1").
Defined.

(** [CleanupIdle] removes exactly the sessions that are active and whose last
    activity is older than the timeout, reports how many they were, and closes
    their client connections; every other session stays as it was. *)
Theorem CleanupIdle_spec (now idleTimeout : Z) (ct : ConnectionTracker) :
  ct_wf ct →
  let '(cleaned, ct') := CleanupIdle now idleTimeout ct in
  (∀ id, id ∈ ct_sessions ct' ↔
         id ∈ ct_sessions ct ∧ is_idle now idleTimeout ct id = false) ∧
  (GetCount ct' + cleaned = GetCount ct)%Z ∧
  (∀ id ps, id ∈ ct_sessions ct → is_idle now idleTimeout ct id = true →
     ct_objs ct !! id = Some ps → conn_fd (ps_ClientConn ps) ∈ ct_closed ct').
Proof.
  intros Hwf. unfold CleanupIdle. simpl. set (ids := filter _ _).
  assert (∀ id, id ∈ ids ↔ is_idle now idleTimeout ct id = true ∧ id ∈ ct_sessions ct) as Hids.
  { intros id. unfold ids. by rewrite list_elem_of_filter, elem_of_GetAllSessions. }
  assert (NoDup ids) as Hnd by apply NoDup_filter, NoDup_GetAllSessions.
  split; [|split].
  - intros id. rewrite drop_sessions_sessions, elem_of_difference, elem_of_list_to_set, Hids.
    destruct (is_idle now idleTimeout ct id); naive_solver.
  - unfold GetCount. rewrite drop_sessions_sessions, size_difference.
    + rewrite size_list_to_set by done.
      assert (length ids ≤ size (ct_sessions ct)); [|lia].
      rewrite <- (size_list_to_set (C := gset string) ids) by done.
      apply subseteq_size. intros id. rewrite elem_of_list_to_set, Hids. naive_solver.
    + intros id. rewrite elem_of_list_to_set, Hids. naive_solver.
  - intros id ps Hin Hidle Hl.
    pose proof (drop_sessions_wf ids ct Hwf) as Hwf'.
    assert (¬ tracked_active (drop_sessions ids ct) id) as Hna.
    { rewrite drop_sessions_active, Hids. naive_solver. }
    clear Hnd. assert (∃ ps', ct_objs (drop_sessions ids ct) !! id = Some ps' ∧
                  ps_ClientConn ps' = ps_ClientConn ps) as (ps' & Hl' & <-).
    { clear -Hl. generalize ids. clear ids. intros ids. induction ids as [|id' ids IH]; [eauto|].
      destruct IH as (ps' & Hl' & Hc). simpl. unfold Close.
      destruct (ct_objs (drop_sessions ids ct) !! id') as [ps2|] eqn:E; [|eauto].
      destruct (ps_isActive ps2); simpl; [|eauto].
      destruct (decide (id = id')) as [<-|]; [|rewrite lookup_insert_ne by done; eauto].
      rewrite lookup_insert_eq. eexists; split; [done|]. simpl. congruence. }
    apply (wf_closed _ Hwf' id ps' Hl').
    destruct (ps_isActive ps') eqn:Ea; [|done]. exfalso. apply Hna. exists ps'. done.
Qed.

Lemma CleanupIdle_spec_witness :
  let ct := (Track 0 (mkConn 3 "10.0.0.9:5000") (NewConnectionTracker 10)).2 in
  GetCount (CleanupIdle 10 5 ct).2 = 0%Z ∧ (CleanupIdle 10 5 ct).1 = 1%Z.
Proof.
  intros ct.
  assert (ct_wf ct) as Hwf by (apply Track_wf; [apply NewConnectionTracker_wf|reflexivity]).
  pose proof (CleanupIdle_spec 10 5 ct Hwf) as (_ & H & _).
  vm_compute in H |- *. by split.
Defined.
