(* ===== verification/GatewayServer.v ===== *)
(** * The gateway server: [internal/gateway/server.go]

    [Server] is the Go struct.  The accept loop, the upstream switch and the
    disconnection are functions on it, each one critical section or one loop
    iteration; their interleaving with the connection handlers is the step
    relation at the end.  Prometheus calls and the copying of bytes between the
    two sockets are not modelled. *)

From S2P Require Import Prelude.
From S2P Require Import GoStrings.
From S2P Require Import GoTime.
From S2P Require Import GoNet.
From S2P Require Import GatewayConfig.
From S2P Require Import RateLimiter.
From S2P Require Import ConnectionTracker.
From S2P Require Import Pods.

(** [gateway.MemgraphNode] *)
Record GwMemgraphNode := mkGwNode {
  gn_Name : string; gn_BoltAddress : string; gn_Pod : option Pod }.

Definition GwNode_IsReady (node : GwMemgraphNode) : bool :=
  match gn_Pod node with
  | None => false
  | Some pod =>
      if bool_decide (pod_Phase pod ≠ "Running") then false
      else ready_condition (pod_Conditions pod)
  end.

Record Server := mkServer {
  srv_config : GwConfig;
  srv_connections : ConnectionTracker;
  srv_name : string;
  srv_isRunning : bool;
  srv_upstreamAddress : string;
  srv_totalConnections : Z;
  srv_activeConnections : Z;
  srv_rejectedConnections : Z;
  srv_errors : Z;
  srv_failovers : Z;
  srv_lastHealthCheck : Z;
  srv_healthStatus : string;
  srv_rateLimiter : RateLimiter;
  srv_rateLimitRejections : Z;
}.

Definition NewServer (name : string) (config : GwConfig) : Server :=
  mkServer config (NewConnectionTracker (gw_MaxConnections config)) name false ""
    0 0 0 0 0 0 "unknown"
    (NewRateLimiter (gw_RateLimitEnabled config) (gw_RateLimitRPS config)
       (gw_RateLimitBurst config) (gw_RateLimitWindow config)) 0.

Definition set_connections (f : ConnectionTracker → ConnectionTracker) (s : Server) : Server :=
  mkServer (srv_config s) (f (srv_connections s)) (srv_name s) (srv_isRunning s)
    (srv_upstreamAddress s) (srv_totalConnections s) (srv_activeConnections s)
    (srv_rejectedConnections s) (srv_errors s) (srv_failovers s) (srv_lastHealthCheck s)
    (srv_healthStatus s) (srv_rateLimiter s) (srv_rateLimitRejections s).

Definition set_upstream (a : string) (s : Server) : Server :=
  mkServer (srv_config s) (srv_connections s) (srv_name s) (srv_isRunning s)
    a (srv_totalConnections s) (srv_activeConnections s)
    (srv_rejectedConnections s) (srv_errors s) (srv_failovers s) (srv_lastHealthCheck s)
    (srv_healthStatus s) (srv_rateLimiter s) (srv_rateLimitRejections s).

(** Counters of the accept loop: total, rejected and rate-limited connections. *)
Definition count_accept (total rejected limited : Z) (rl : RateLimiter) (s : Server) : Server :=
  mkServer (srv_config s) (srv_connections s) (srv_name s) (srv_isRunning s)
    (srv_upstreamAddress s) (int64 (srv_totalConnections s + total)) (srv_activeConnections s)
    (int64 (srv_rejectedConnections s + rejected)) (srv_errors s) (srv_failovers s)
    (srv_lastHealthCheck s) (srv_healthStatus s) rl
    (int64 (srv_rateLimitRejections s + limited)).

Definition GetUpstreamAddress (s : Server) : string := srv_upstreamAddress s.

(** [DisconnectAll]: every tracked session is closed; the sessions stay tracked
    until their handlers untrack them. *)
Definition close_sessions (ids : list string) (ct : ConnectionTracker) : ConnectionTracker :=
  foldr Close ct ids.

Definition DisconnectAll (s : Server) : Server :=
  if bool_decide (GetCount (srv_connections s) = 0)%Z then s
  else set_connections (λ ct, close_sessions (GetAllSessions ct) ct) s.

Definition SetUpstreamAddress (address : string) (s : Server) : Server :=
  if bool_decide (srv_upstreamAddress s = address) then s
  else set_upstream address (DisconnectAll s).

(** [extractClientIP] *)
Definition extractClientIP (conn : option Conn) : string :=
  match conn with
  | None => "unknown"
  | Some conn =>
      match SplitHostPort (conn_remote conn) with
      | Ok (host, _) => host
      | Err _ => conn_remote conn
      end
  end.

(** One iteration of [acceptConnections] after a successful [Accept]: [true]
    when the connection is handed to [handleConnection], [false] when it is
    closed. *)
Definition acceptConnection (created now : Z) (conn : Conn) (s : Server) : bool * Server :=
  let clientIP := extractClientIP (Some conn) in
  if bool_decide (GetUpstreamAddress s = "") then
    (false, count_accept 0 1 0 (srv_rateLimiter s) s)
  else
    let '(allowed, rl) := Allow created now clientIP (srv_rateLimiter s) in
    if negb allowed then (false, count_accept 0 0 1 rl s)
    else if negb (CanAccept (srv_connections s)) then
      (false, count_accept 0 1 0 (Release clientIP rl) s)
    else (true, count_accept 1 0 0 rl s).

(** One tick of [periodicCleanup]. *)
Definition periodicCleanup_tick (now1 now2 : Z) (s : Server) : Server :=
  let idle := gw_IdleTimeout (srv_config s) in
  set_connections (λ ct,
    let ct1 := (CleanupIdle now1 idle ct).2 in
    (CleanupStale now2 (int64 (idle * 2)) ct1).2) s.

Record GatewayStats := mkGatewayStats {
  gs_IsRunning : bool;
  gs_ActiveConnections : Z;
  gs_TotalConnections : Z;
  gs_RejectedConnections : Z;
  gs_RateLimitRejections : Z;
  gs_Errors : Z;
  gs_Failovers : Z;
  gs_HealthStatus : string;
  gs_LastHealthCheck : Z;
  gs_TotalBytesSent : Z;
  gs_TotalBytesReceived : Z;
  gs_TotalBytes : Z;
  gs_TLSEnabled : bool;
  gs_RateLimiter : RateLimiterStats;
}.

Definition srv_GetStats (s : Server) : GatewayStats :=
  let '(sent, received) := GetTotalBytes (srv_connections s) in
  mkGatewayStats (srv_isRunning s) (GetCount (srv_connections s)) (srv_totalConnections s)
    (srv_rejectedConnections s) (srv_rateLimitRejections s) (srv_errors s) (srv_failovers s)
    (srv_healthStatus s) (srv_lastHealthCheck s) sent received (int64 (sent + received))
    (gw_TLSEnabled (srv_config s)) (rl_GetStats (srv_rateLimiter s)).

(** ** Lemmas *)

Lemma close_sessions_active ids ct id :
  tracked_active (close_sessions ids ct) id ↔ tracked_active ct id ∧ id ∉ ids.
Proof.
  induction ids as [|id' ids IH]; simpl; [set_solver|].
  rewrite Close_active, IH. set_solver.
Qed.

Lemma close_sessions_sessions ids ct : ct_sessions (close_sessions ids ct) = ct_sessions ct.
Proof. induction ids; simpl; [done|]. by rewrite Close_sessions. Qed.

Lemma close_sessions_wf ids ct : ct_wf ct → ct_wf (close_sessions ids ct).
Proof. intros Hwf. induction ids; simpl; [done|]. by apply Close_wf. Qed.

Lemma DisconnectAll_upstream s : srv_upstreamAddress (DisconnectAll s) = srv_upstreamAddress s.
Proof. unfold DisconnectAll. by case_bool_decide. Qed.

Lemma SetUpstreamAddress_upstream a s : srv_upstreamAddress (SetUpstreamAddress a s) = a.
Proof. unfold SetUpstreamAddress. by case_bool_decide. Qed.

Lemma SetUpstreamAddress_id a s : srv_upstreamAddress s = a → SetUpstreamAddress a s = s.
Proof. intros H. unfold SetUpstreamAddress. by rewrite bool_decide_eq_true_2. Qed.

Lemma SetUpstreamAddress_idem a s :
  SetUpstreamAddress a (SetUpstreamAddress a s) = SetUpstreamAddress a s.
Proof. apply SetUpstreamAddress_id, SetUpstreamAddress_upstream. Qed.

Lemma DisconnectAll_active s id :
  id ∈ ct_sessions (srv_connections s) →
  ¬ tracked_active (srv_connections (DisconnectAll s)) id.
Proof.
  intros Hid. unfold DisconnectAll. case_bool_decide as H0.
  - apply GetCount_pos in Hid. lia.
  - simpl. rewrite close_sessions_active, elem_of_GetAllSessions. tauto.
Qed.

Lemma DisconnectAll_wf s : ct_wf (srv_connections s) → ct_wf (srv_connections (DisconnectAll s)).
Proof. intros. unfold DisconnectAll. case_bool_decide; [done|]. by apply close_sessions_wf. Qed.

(** ** Properties *)

(** Switching the upstream to another address disconnects every tracked client:
    afterwards the new address is in place, no tracked session is active, and
    the client connection of each of them is closed.  Setting the address it
    already has changes nothing, so no client is disconnected. *)
Theorem SetUpstreamAddress_disconnects (s : Server) (address : string) :
  ct_wf (srv_connections s) →
  let s' := SetUpstreamAddress address s in
  srv_upstreamAddress s' = address ∧
  (srv_upstreamAddress s = address → s' = s) ∧
  (srv_upstreamAddress s ≠ address →
     ct_sessions (srv_connections s') = ct_sessions (srv_connections s) ∧
     ∀ id ps, id ∈ ct_sessions (srv_connections s') →
       ct_objs (srv_connections s') !! id = Some ps →
       ps_isActive ps = false ∧ conn_fd (ps_ClientConn ps) ∈ ct_closed (srv_connections s')).
Proof.
  intros Hwf s'. split; [apply SetUpstreamAddress_upstream|].
  split; [apply SetUpstreamAddress_id|].
  intros Hne. unfold s', SetUpstreamAddress. rewrite bool_decide_eq_false_2 by done. simpl.
  assert (ct_sessions (srv_connections (DisconnectAll s)) = ct_sessions (srv_connections s)) as Hs.
  { unfold DisconnectAll. case_bool_decide; [done|]. apply close_sessions_sessions. }
  split; [exact Hs|]. rewrite Hs. intros id ps Hid Hl.
  assert (ps_isActive ps = false) as Ha.
  { destruct (ps_isActive ps) eqn:Ea; [|done].
    exfalso. apply (DisconnectAll_active s id Hid). by exists ps. }
  split; [done|]. eapply (wf_closed _ (DisconnectAll_wf s Hwf)); eauto.
Qed.

Definition server_with_client : Server :=
  set_connections (λ ct, (Track 0 (mkConn 3 "10.0.0.9:5000") ct).2)
    (set_upstream "10.0.0.1:7687" (NewServer "main-gw" default_gw_config)).

Lemma SetUpstreamAddress_disconnects_witness :
  ct_closed (srv_connections (SetUpstreamAddress "" server_with_client)) = {[3%Z]}.
Proof.
  assert (ct_wf (srv_connections server_with_client)) as Hwf
    by (apply Track_wf; [apply NewConnectionTracker_wf|reflexivity]).
  destruct (SetUpstreamAddress_disconnects server_with_client "" Hwf) as (_ & _ & H).
  destruct H as [Hs H]; [discriminate|].
  assert ("session-1" ∈ ct_sessions (srv_connections (SetUpstreamAddress "" server_with_client)))
    as Hin by (rewrite Hs; vm_compute; reflexivity).
  destruct (H "session-1" _ Hin ltac:(vm_compute; reflexivity)) as [_ Hc].
  vm_compute. reflexivity.
Defined.

(** While the gateway has no upstream (between the start of a failover and its
    end), no connection is admitted, whatever the rate limiter says, and no
    limiter token is used. *)
Theorem no_upstream_rejects (s : Server) (created now : Z) (conn : Conn) :
  srv_upstreamAddress s = "" →
  let '(admitted, s') := acceptConnection created now conn s in
  admitted = false ∧ srv_rateLimiter s' = srv_rateLimiter s ∧
  srv_connections s' = srv_connections s ∧
  srv_rejectedConnections s' = int64 (srv_rejectedConnections s + 1).
Proof.
  intros Hup. unfold acceptConnection, GetUpstreamAddress.
  rewrite bool_decide_eq_true_2 by done. done.
Qed.

Lemma no_upstream_rejects_witness :
  (acceptConnection 0 0 (mkConn 3 "10.0.0.9:5000") (NewServer "main-gw" default_gw_config)).1
  = false.
Proof.
  pose proof (no_upstream_rejects (NewServer "main-gw" default_gw_config) 0 0
    (mkConn 3 "10.0.0.9:5000") eq_refl) as H.
  destruct (acceptConnection _ _ _ _). apply H.
Defined.
