(* ===== verification/GatewayHandlers.v ===== *)
(** * Connection handlers: [handleConnection] and [proxyConnections] of
      [internal/gateway/server.go]

    A handler is one goroutine per client.  It is split where it releases and
    takes locks or waits for the network; [handleConnection] composes the
    phases as the code does, and the step relation interleaves the phases of
    any number of handlers with the accept loop, upstream switches and the
    clean-up goroutines.  What the network answers (the dial, the bytes copied
    in each direction and how the copies end) is an argument. *)

From S2P Require Import Prelude.
From S2P Require Import GoStrings.
From S2P Require Import GoTime.
From S2P Require Import GoNet.
From S2P Require Import GatewayConfig.
From S2P Require Import RateLimiter.
From S2P Require Import ConnectionTracker.
From S2P Require Import GatewayServer.

Definition set_running (v : bool) (s : Server) : Server :=
  mkServer (srv_config s) (srv_connections s) (srv_name s) v
    (srv_upstreamAddress s) (srv_totalConnections s) (srv_activeConnections s)
    (srv_rejectedConnections s) (srv_errors s) (srv_failovers s) (srv_lastHealthCheck s)
    (srv_healthStatus s) (srv_rateLimiter s) (srv_rateLimitRejections s).

(** [atomic.AddInt64(&s.activeConnections, d)] *)
Definition add_active (d : Z) (s : Server) : Server :=
  mkServer (srv_config s) (srv_connections s) (srv_name s) (srv_isRunning s)
    (srv_upstreamAddress s) (srv_totalConnections s) (int64 (srv_activeConnections s + d))
    (srv_rejectedConnections s) (srv_errors s) (srv_failovers s) (srv_lastHealthCheck s)
    (srv_healthStatus s) (srv_rateLimiter s) (srv_rateLimitRejections s).

(** [atomic.AddInt64(&s.errors, d)] *)
Definition add_errors (d : Z) (s : Server) : Server :=
  mkServer (srv_config s) (srv_connections s) (srv_name s) (srv_isRunning s)
    (srv_upstreamAddress s) (srv_totalConnections s) (srv_activeConnections s)
    (srv_rejectedConnections s) (int64 (srv_errors s + d)) (srv_failovers s)
    (srv_lastHealthCheck s) (srv_healthStatus s) (srv_rateLimiter s) (srv_rateLimitRejections s).

Definition set_health (status : string) (now : Z) (s : Server) : Server :=
  mkServer (srv_config s) (srv_connections s) (srv_name s) (srv_isRunning s)
    (srv_upstreamAddress s) (srv_totalConnections s) (srv_activeConnections s)
    (srv_rejectedConnections s) (srv_errors s) (srv_failovers s) now status
    (srv_rateLimiter s) (srv_rateLimitRejections s).

Definition set_rateLimiter (f : RateLimiter → RateLimiter) (s : Server) : Server :=
  mkServer (srv_config s) (srv_connections s) (srv_name s) (srv_isRunning s)
    (srv_upstreamAddress s) (srv_totalConnections s) (srv_activeConnections s)
    (srv_rejectedConnections s) (srv_errors s) (srv_failovers s) (srv_lastHealthCheck s)
    (srv_healthStatus s) (f (srv_rateLimiter s)) (srv_rateLimitRejections s).

(** [conn.Close()] on a connection *)
Definition close_fd (fd : Z) (s : Server) : Server :=
  set_connections (λ ct, ct_with (ct_sessions ct) (ct_objs ct) ({[fd]} ∪ ct_closed ct) ct) s.

(** ** Starting the server *)

(** [Start]: [load] is what [tls.LoadX509KeyPair] answers, [listen] what the
    listener does ([None]: it is listening).  The accept loop and the clean-up
    goroutine start on success. *)
Definition Start (load listen : option error) (s : Server) : option error * Server :=
  let config := srv_config s in
  match Validate config with
  | Some err => (Some (Wrapf "gateway configuration invalid" err), s)
  | None =>
      if srv_isRunning s then (Some (Errorf "gateway server is already running"), s)
      else
        let s := set_running true s in
        let fail err := (Some err, set_running false s) in
        if gw_TLSEnabled config then
          match load with
          | Some err => fail (Wrapf "failed to load TLS certificates" err)
          | None =>
              match listen with
              | Some err =>
                  fail (Wrapf ("failed to listen with TLS on " +:+ gw_BindAddress config) err)
              | None => (None, s)
              end
          end
        else
          match listen with
          | Some err => fail (Wrapf ("failed to listen on " +:+ gw_BindAddress config) err)
          | None => (None, s)
          end
  end.

(** ** The phases of a handler *)

(** [Track] and [SetMaxBytesLimit] *)
Definition track_client (now : Z) (conn : Conn) (s : Server) : string * Server :=
  let '(sid, ct) := Track now conn (srv_connections s) in
  (sid, set_connections
          (λ _, update_session sid (SetMaxBytesLimit (gw_MaxBytesPerConnection (srv_config s))) ct) s).

(** The upstream does not answer: the errors are counted, the health status
    says so, and the controller's callback, when one is set, gets the address
    and the error. *)
Definition dial_failed (now : Z) (sid address : string) (err : error) (s : Server)
    : (string * error) * Server :=
  let s := add_errors 1 s in
  let s := set_connections (update_session sid AddConnectionError) s in
  ((address, err), set_health ("upstream-connection-failed: " +:+ error_string err) now s).

(** How one direction of the proxy ended: the bytes written and the error of
    [io.CopyBuffer]. *)
Record copied := mkCopied { cp_written : Z; cp_err : option error }.

Definition io_EOF : error := OtherErr "EOF".

Global Instance error_eq_dec : EqDecision error.
Proof. solve_decision. Defined.

(** [err != nil && err != io.EOF] *)
Definition copy_failed (end_ : option copied) : bool :=
  match end_ with
  | Some (mkCopied _ (Some err)) => bool_decide (err ≠ io_EOF)
  | _ => false
  end.

Definition copy_ended (add : Z → Z → ProxySession → ProxySession) (now : Z) (sid : string)
    (end_ : option copied) (s : Server) : Server :=
  match end_ with
  | Some c => set_connections (update_session sid (add now (cp_written c))) s
  | None => s
  end.

(** [proxyConnections] returns when either direction has ended; a direction
    that has not ended yet ([None]) has neither counted its bytes nor reported
    an error, and its bytes are added to the session object when it does. *)
Definition proxyConnections (now : Z) (sid : string) (clientToBackend backendToClient : option copied)
    (s : Server) : Server :=
  let s := copy_ended AddBytesSent now sid clientToBackend s in
  let s := copy_ended AddBytesReceived now sid backendToClient s in
  let s := if copy_failed clientToBackend then add_errors 1 s else s in
  if copy_failed backendToClient then add_errors 1 s else s.

(** The deferred calls, last first: [backendConn.Close], [Untrack], the active
    count, [Release], [clientConn.Close]. *)
Definition close_backend (backend : option Conn) (s : Server) : Server :=
  match backend with Some b => close_fd (conn_fd b) s | None => s end.

Definition untrack_client (sid : string) (s : Server) : Server :=
  set_connections (Untrack sid) s.

Definition release_client (conn : Conn) (s : Server) : Server :=
  set_rateLimiter (Release (extractClientIP (Some conn))) s.

Definition end_handler (conn : Conn) (sid : string) (backend : option Conn) (s : Server) : Server :=
  close_fd (conn_fd conn) (release_client conn (add_active (-1)
    (untrack_client sid (close_backend backend s)))).

(** [handleConnection] from beginning to end, with nothing in between: [dial]
    is [net.DialTimeout] of the upstream address.  The first result is the
    failure reported to the callback. *)
Definition handleConnection (now : Z) (conn : Conn) (dial : string → result Conn)
    (clientToBackend backendToClient : option copied) (s : Server)
    : option (string * error) * Server :=
  let s := add_active 1 s in
  let '(sid, s) := track_client now conn s in
  let upstreamAddress := GetUpstreamAddress s in
  match dial upstreamAddress with
  | Err err =>
      let '(report, s) := dial_failed now sid upstreamAddress err s in
      (Some report, end_handler conn sid None s)
  | Ok backendConn =>
      let s := set_connections (update_session sid (SetBackendConnection backendConn)) s in
      let s := proxyConnections now sid clientToBackend backendToClient s in
      (None, end_handler conn sid (Some backendConn) s)
  end.

(** ** Any number of handlers *)

(** Where a handler is: admitted by the accept loop (its limiter slot is
    taken), counted as active, tracked, done with its upstream (after a failed
    dial there is no backend), untracked, no longer counted, its slot released,
    and returned with its client connection closed. *)
Inductive phase :=
  | PAdmitted (conn : Conn)
  | PCounted (conn : Conn)
  | PTracked (conn : Conn) (sid : string)
  | PProxy (conn : Conn) (sid : string) (backend : Conn)
  | PEnding (conn : Conn) (sid : string)
  | PUntracked (conn : Conn)
  | PUncounted (conn : Conn)
  | PReleased (conn : Conn)
  | PReturned (conn : Conn).

(** The handler is in [activeConnections]. *)
Definition counted (p : phase) : bool :=
  match p with
  | PCounted _ | PTracked _ _ | PProxy _ _ _ | PEnding _ _ | PUntracked _ => true
  | _ => false
  end.

(** The handler holds a connection of client [ip] in the rate limiter. *)
Definition holds_slot (ip : string) (p : phase) : bool :=
  match p with
  | PAdmitted c | PCounted c | PTracked c _ | PProxy c _ _ | PEnding c _ | PUntracked c
  | PUncounted c => bool_decide (extractClientIP (Some c) = ip)
  | PReleased _ | PReturned _ => false
  end.

Definition phase_sid (p : phase) : option string :=
  match p with
  | PTracked _ sid | PProxy _ sid _ | PEnding _ sid => Some sid
  | _ => None
  end.

Record gateway := mkGateway { gw_server : Server; gw_running : gmap Z phase }.

Definition slots_of (rl : RateLimiter) (ip : string) : Z :=
  match rl_clients rl !! ip with Some c => cl_connections c | None => 0 end.

Inductive hstep : gateway → gateway → Prop :=
  (* the accept loop *)
  | h_accept s s' hs h conn created now :
      hs !! h = None →
      (slots_of (srv_rateLimiter s) (extractClientIP (Some conn)) < 2 ^ 63 - 1)%Z →
      acceptConnection created now conn s = (true, s') →
      hstep (mkGateway s hs) (mkGateway s' (<[h := PAdmitted conn]> hs))
  | h_refuse s s' hs conn created now :
      (slots_of (srv_rateLimiter s) (extractClientIP (Some conn)) < 2 ^ 63 - 1)%Z →
      acceptConnection created now conn s = (false, s') →
      hstep (mkGateway s hs) (mkGateway (close_fd (conn_fd conn) s') hs)
  (* a handler *)
  | h_count s hs h conn :
      hs !! h = Some (PAdmitted conn) →
      hstep (mkGateway s hs) (mkGateway (add_active 1 s) (<[h := PCounted conn]> hs))
  | h_track s hs h conn sid s' now :
      hs !! h = Some (PCounted conn) → track_client now conn s = (sid, s') →
      hstep (mkGateway s hs) (mkGateway s' (<[h := PTracked conn sid]> hs))
  | h_dial_failed s hs h conn sid now address err :
      hs !! h = Some (PTracked conn sid) →
      hstep (mkGateway s hs)
        (mkGateway (dial_failed now sid address err s).2 (<[h := PEnding conn sid]> hs))
  | h_dialed s hs h conn sid backend :
      hs !! h = Some (PTracked conn sid) →
      hstep (mkGateway s hs)
        (mkGateway (set_connections (update_session sid (SetBackendConnection backend)) s)
           (<[h := PProxy conn sid backend]> hs))
  | h_proxied s hs h conn sid backend now up down :
      hs !! h = Some (PProxy conn sid backend) →
      hstep (mkGateway s hs)
        (mkGateway (close_backend (Some backend) (proxyConnections now sid up down s))
           (<[h := PEnding conn sid]> hs))
  | h_untrack s hs h conn sid :
      hs !! h = Some (PEnding conn sid) →
      hstep (mkGateway s hs) (mkGateway (untrack_client sid s) (<[h := PUntracked conn]> hs))
  | h_uncount s hs h conn :
      hs !! h = Some (PUntracked conn) →
      hstep (mkGateway s hs) (mkGateway (add_active (-1) s) (<[h := PUncounted conn]> hs))
  | h_release s hs h conn :
      hs !! h = Some (PUncounted conn) →
      hstep (mkGateway s hs) (mkGateway (release_client conn s) (<[h := PReleased conn]> hs))
  | h_return s hs h conn :
      hs !! h = Some (PReleased conn) →
      hstep (mkGateway s hs) (mkGateway (close_fd (conn_fd conn) s) (<[h := PReturned conn]> hs))
  (* a copy that ends after its handler has returned *)
  | h_late s hs add now sid c :
      add = AddBytesSent ∨ add = AddBytesReceived →
      hstep (mkGateway s hs) (mkGateway (copy_ended add now sid (Some c) s) hs)
  (* the controller and the background goroutines *)
  | h_switch s hs address :
      hstep (mkGateway s hs) (mkGateway (SetUpstreamAddress address s) hs)
  | h_disconnect s hs :
      hstep (mkGateway s hs) (mkGateway (DisconnectAll s) hs)
  | h_tick s hs now1 now2 :
      hstep (mkGateway s hs) (mkGateway (periodicCleanup_tick now1 now2 s) hs)
  | h_forget_clients s hs now :
      hstep (mkGateway s hs) (mkGateway (set_rateLimiter (cleanupInactiveClients now) s) hs).

(** ** Invariant: everything a handler takes is accounted for *)

Record accounted (g : gateway) : Prop := {
  ac_active : srv_activeConnections (gw_server g) =
    int64 (Z.of_nat (tally counted (gw_running g)));
  ac_slots ip : rl_enabled (srv_rateLimiter (gw_server g)) = true →
    slots_of (srv_rateLimiter (gw_server g)) ip =
    Z.of_nat (tally (holds_slot ip) (gw_running g));
  ac_sessions sid : sid ∈ ct_sessions (srv_connections (gw_server g)) →
    ∃ h p, gw_running g !! h = Some p ∧ phase_sid p = Some sid;
  ac_closed h conn : gw_running g !! h = Some (PReturned conn) →
    conn_fd conn ∈ ct_closed (srv_connections (gw_server g));
}.

(** What an operation that is no handler phase may do to the server. *)
Record quiet (s s' : Server) : Prop := {
  q_active : srv_activeConnections s' = srv_activeConnections s;
  q_enabled : rl_enabled (srv_rateLimiter s') = rl_enabled (srv_rateLimiter s);
  q_slots ip : rl_enabled (srv_rateLimiter s) = true →
    slots_of (srv_rateLimiter s') ip = slots_of (srv_rateLimiter s) ip;
  q_sessions : ct_sessions (srv_connections s') ⊆ ct_sessions (srv_connections s);
  q_closed : ct_closed (srv_connections s) ⊆ ct_closed (srv_connections s');
}.

(** What a phase of a handler that goes from [p] to [p'] has to do. *)
Definition b2z (b : bool) : Z := if b then 1 else 0.

Record advances (p p' : phase) (s s' : Server) : Prop := {
  av_active : srv_activeConnections s' =
    int64 (srv_activeConnections s + (b2z (counted p') - b2z (counted p)));
  av_enabled : rl_enabled (srv_rateLimiter s') = rl_enabled (srv_rateLimiter s);
  av_slots ip : rl_enabled (srv_rateLimiter s) = true →
    (0 < slots_of (srv_rateLimiter s) ip ∨ holds_slot ip p = false)%Z →
    slots_of (srv_rateLimiter s') ip =
    (slots_of (srv_rateLimiter s) ip + (b2z (holds_slot ip p') - b2z (holds_slot ip p)))%Z;
  av_sessions sid : sid ∈ ct_sessions (srv_connections s') →
    phase_sid p' = Some sid ∨
    (sid ∈ ct_sessions (srv_connections s) ∧ phase_sid p ≠ Some sid);
  av_closed : ct_closed (srv_connections s) ⊆ ct_closed (srv_connections s');
  av_returned conn : p' = PReturned conn → conn_fd conn ∈ ct_closed (srv_connections s');
}.

Lemma quiet_accounted s s' hs :
  quiet s s' → accounted (mkGateway s hs) → accounted (mkGateway s' hs).
Proof.
  intros [] []; simpl in *. split; simpl.
  - congruence.
  - intros ip He. rewrite q_slots0 by congruence. apply ac_slots0. congruence.
  - intros sid Hs. apply ac_sessions0. set_solver.
  - intros h conn Hh. apply q_closed0. eauto.
Qed.

Lemma advances_accounted p p' s s' hs h :
  hs !! h = Some p → advances p p' s s' →
  accounted (mkGateway s hs) → accounted (mkGateway s' (<[h := p']> hs)).
Proof.
  intros Hh [] []; simpl in *. split; simpl.
  - rewrite av_active0, ac_active0, int64_add_l. f_equal.
    pose proof (tally_update counted hs h p p' Hh).
    unfold b2z. destruct (counted p), (counted p'); lia.
  - intros ip He. rewrite av_enabled0 in He. pose proof (ac_slots0 ip He) as Hs.
    rewrite av_slots0, Hs; [|done|].
    + pose proof (tally_update (holds_slot ip) hs h p p' Hh).
      unfold b2z. destruct (holds_slot ip p), (holds_slot ip p'); lia.
    + rewrite Hs. destruct (holds_slot ip p) eqn:Ep; [left|by right].
      pose proof (tally_pos (holds_slot ip) hs h p Hh Ep). lia.
  - intros sid Hs. destruct (av_sessions0 sid Hs) as [Hp|[Hs' Hp]].
    + exists h, p'. by rewrite lookup_insert_eq.
    + destruct (ac_sessions0 sid Hs') as (h0 & p0 & Hh0 & Hp0).
      exists h0, p0. rewrite lookup_insert_ne; [done|]. intros <-. congruence.
  - intros h0 conn. rewrite lookup_insert_Some. intros [[_ Hp]|[_ Hh0]]; [by apply av_returned0|].
    apply av_closed0. eauto.
Qed.

(** *** The operations of the server *)

Lemma quiet_refl s : quiet s s.
Proof. by split. Qed.

Lemma drop_sessions_closed ids ct : ct_closed ct ⊆ ct_closed (drop_sessions ids ct).
Proof.
  induction ids as [|id ids IH]; [done|]. etrans; [exact IH|apply Close_closed].
Qed.

Lemma close_sessions_closed ids ct : ct_closed ct ⊆ ct_closed (close_sessions ids ct).
Proof.
  induction ids as [|id ids IH]; [done|]. etrans; [exact IH|apply Close_closed].
Qed.

(** An operation on the tracker that closes or forgets sessions. *)
Lemma quiet_connections f s :
  (∀ ct, ct_sessions (f ct) ⊆ ct_sessions ct ∧ ct_closed ct ⊆ ct_closed (f ct)) →
  quiet s (set_connections f s).
Proof. intros Hf. destruct (Hf (srv_connections s)). by split. Qed.

Lemma quiet_DisconnectAll s : quiet s (DisconnectAll s).
Proof.
  unfold DisconnectAll. case_bool_decide; [apply quiet_refl|].
  apply quiet_connections. intros ct.
  split; [by rewrite close_sessions_sessions|apply close_sessions_closed].
Qed.

Lemma quiet_SetUpstreamAddress a s : quiet s (SetUpstreamAddress a s).
Proof.
  unfold SetUpstreamAddress. case_bool_decide; [apply quiet_refl|].
  destruct (quiet_DisconnectAll s). by split.
Qed.

Lemma quiet_tick now1 now2 s : quiet s (periodicCleanup_tick now1 now2 s).
Proof.
  apply quiet_connections. intros ct. split.
  - unfold CleanupStale, CleanupIdle. simpl. rewrite !drop_sessions_sessions. set_solver.
  - etrans; [|apply drop_sessions_closed]. apply drop_sessions_closed.
Qed.

Lemma quiet_close_fd fd s : quiet s (close_fd fd s).
Proof. apply quiet_connections. intros ct. simpl. set_solver. Qed.

Lemma quiet_update sid f s : quiet s (set_connections (update_session sid f) s).
Proof. apply quiet_connections. intros ct. simpl. done. Qed.

Lemma quiet_errors d s : quiet s (add_errors d s).
Proof. by split. Qed.

Lemma quiet_trans s1 s2 s3 : quiet s1 s2 → quiet s2 s3 → quiet s1 s3.
Proof.
  intros [] []. split; [congruence|congruence| |set_solver|set_solver].
  intros ip He. rewrite q_slots1 by congruence. auto.
Qed.

Lemma quiet_copy add now sid c s : quiet s (copy_ended add now sid c s).
Proof. destruct c; [apply quiet_update|apply quiet_refl]. Qed.

Create HintDb quiet.
#[local] Hint Resolve quiet_refl quiet_DisconnectAll quiet_SetUpstreamAddress quiet_tick
  quiet_close_fd quiet_update quiet_errors quiet_copy : quiet.

Lemma quiet_proxy now sid up down s : quiet s (proxyConnections now sid up down s).
Proof.
  unfold proxyConnections. destruct (copy_failed up), (copy_failed down);
    repeat (first [apply quiet_copy | eapply quiet_trans; [|apply quiet_errors]
                  | eapply quiet_trans; [|apply quiet_copy]]).
Qed.

Lemma quiet_dial_failed now sid a e s : quiet s (dial_failed now sid a e s).2.
Proof. by split. Qed.

Lemma advances_quiet p p' s s' :
  quiet s s' → counted p = counted p' → (∀ ip, holds_slot ip p = holds_slot ip p') →
  phase_sid p = phase_sid p' → (∀ conn, p' ≠ PReturned conn) →
  in_int64 (srv_activeConnections s) → advances p p' s s'.
Proof.
  intros [] Hc Hh Hs Hr H64. split.
  - rewrite Hc, q_active0, Z.sub_diag, Z.add_0_r. by rewrite int64_id.
  - done.
  - intros ip He _. rewrite q_slots0, Hh by done. lia.
  - intros sid Hin. destruct (decide (phase_sid p' = Some sid)); [by left|right].
    rewrite Hs. split; [set_solver|done].
  - done.
  - intros conn ->. by destruct (Hr conn).
Qed.

(** *** The rate limiter *)

Lemma slots_insert rl ip c ip' :
  slots_of (rl_set_clients <[ip := c]> rl) ip' =
  if bool_decide (ip = ip') then cl_connections c else slots_of rl ip'.
Proof.
  unfold slots_of. simpl. case_bool_decide as H.
  - subst. by rewrite lookup_insert_eq.
  - by rewrite lookup_insert_ne.
Qed.

Lemma Allow_slots created now ip rl ok rl' ip' :
  Allow created now ip rl = (ok, rl') → rl_enabled rl = true →
  (0 ≤ slots_of rl ip < 2 ^ 63 - 1)%Z →
  rl_enabled rl' = true ∧
  slots_of rl' ip' = (slots_of rl ip' + b2z (ok && bool_decide (ip = ip')))%Z.
Proof.
  intros HA He Hn. rewrite Allow_eq, He in HA. cbn [negb] in HA.
  assert (cl_connections (refill rl now (client_of rl created ip)) = slots_of rl ip) as Hc.
  { rewrite refill_connections. unfold client_of, slots_of. by destruct (rl_clients rl !! ip). }
  set (c := refill _ _ _) in *. clearbody c.
  case_bool_decide as Hpos; injection HA as <- <-; (split; [done|]); rewrite slots_insert;
    cbn [cl_connections andb]; case_bool_decide as Hip; cbn [b2z]; rewrite ?Z.add_0_r; try done;
    subst ip'; rewrite Hc; [|done].
  by rewrite int64_id by (unfold in_int64; lia).
Qed.

Lemma Allow_enabled created now ip rl ok rl' :
  Allow created now ip rl = (ok, rl') → rl_enabled rl' = rl_enabled rl.
Proof.
  rewrite Allow_eq. destruct (rl_enabled rl) eqn:He; cbn [negb]; [|by intros [= <- <-]].
  set (c := refill _ _ _). clearbody c. by case_bool_decide; intros [= <- <-].
Qed.

Lemma Release_enabled ip rl : rl_enabled (Release ip rl) = rl_enabled rl.
Proof.
  unfold Release. destruct (rl_enabled rl) eqn:He; simpl; [|done].
  destruct (rl_clients rl !! ip); [|done]. by case_bool_decide.
Qed.

Lemma Release_slots ip rl ip' :
  rl_enabled rl = true →
  slots_of (Release ip rl) ip' =
  (slots_of rl ip' - b2z (bool_decide (ip = ip') && bool_decide (0 < slots_of rl ip')))%Z.
Proof.
  intros He. unfold Release. rewrite He. simpl.
  destruct (rl_clients rl !! ip) as [c|] eqn:Hc.
  - assert (slots_of rl ip = cl_connections c) as Hs by (unfold slots_of; by rewrite Hc).
    case_bool_decide as Hpos.
    + rewrite slots_insert. simpl. case_bool_decide as Hip; simpl; [|lia].
      subst. rewrite Hs, bool_decide_eq_true_2 by done. simpl. lia.
    + case_bool_decide as Hip; simpl; [|lia]. subst. rewrite Hs, bool_decide_eq_false_2 by done.
      simpl. lia.
  - case_bool_decide as Hip; simpl; [|lia]. subst.
    assert (slots_of rl ip' = 0%Z) as -> by (unfold slots_of; by rewrite Hc). simpl. lia.
Qed.

Lemma cleanup_slots now rl ip : slots_of (cleanupInactiveClients now rl) ip = slots_of rl ip.
Proof.
  unfold slots_of, cleanupInactiveClients. simpl.
  destruct (rl_clients rl !! ip) as [c|] eqn:Hc.
  - destruct (inactive rl now c) eqn:Hi.
    + rewrite map_lookup_filter_None_2; [|right; intros c' Hc'; simplify_eq/=; by rewrite Hi].
      unfold inactive in Hi. apply andb_prop in Hi as [Hz%bool_decide_eq_true _]. by rewrite Hz.
    + rewrite map_lookup_filter_Some_2 with (x := c); done.
  - rewrite map_lookup_filter_None_2; [done|by left].
Qed.

(** One iteration of the accept loop takes exactly one slot of the client when
    the connection is admitted, and none when it is refused. *)
Lemma acceptConnection_slots created now conn s ok s' :
  let ip := extractClientIP (Some conn) in
  acceptConnection created now conn s = (ok, s') →
  srv_activeConnections s' = srv_activeConnections s ∧
  srv_connections s' = srv_connections s ∧
  rl_enabled (srv_rateLimiter s') = rl_enabled (srv_rateLimiter s) ∧
  (rl_enabled (srv_rateLimiter s) = true →
   (0 ≤ slots_of (srv_rateLimiter s) ip < 2 ^ 63 - 1)%Z → ∀ ip',
   slots_of (srv_rateLimiter s') ip' =
   (slots_of (srv_rateLimiter s) ip' + b2z (ok && bool_decide (ip = ip')))%Z).
Proof.
  intros ip. unfold acceptConnection. fold ip. case_bool_decide; [intros [= <- <-]; simpl|].
  { split; [done|]. split; [done|]. split; [done|]. intros. lia. }
  destruct (Allow _ _ _ _) as [allowed rl] eqn:HA.
  assert (rl_enabled rl = rl_enabled (srv_rateLimiter s)) as Hen.
  { eapply Allow_enabled, HA. }
  destruct allowed; simpl; [destruct (CanAccept (srv_connections s))|]; simpl; intros [= <- <-];
    simpl; (split; [done|]); (split; [done|]); rewrite ?Release_enabled; (split; [done|]);
    intros He Hn ip'; pose proof (Allow_slots _ _ _ _ _ _ ip' HA He Hn) as [He' Hs]; simpl in Hs;
    [done| |by rewrite Hs].
  rewrite Release_slots, Hs by done. case_bool_decide as Hip; simpl; [|lia].
  subst. rewrite bool_decide_eq_true_2 by lia. simpl. lia.
Qed.

(** *** The phases *)

Lemma advances_count conn s : advances (PAdmitted conn) (PCounted conn) s (add_active 1 s).
Proof.
  split; simpl; try done; [|by right].
  intros ip _ _. lia.
Qed.

Lemma advances_uncount conn s : advances (PUntracked conn) (PUncounted conn) s (add_active (-1) s).
Proof.
  split; simpl; try done; [|by right].
  intros ip _ _. lia.
Qed.

Lemma advances_track conn now s sid s' :
  track_client now conn s = (sid, s') → in_int64 (srv_activeConnections s) →
  advances (PCounted conn) (PTracked conn sid) s s'.
Proof.
  unfold track_client, Track. destruct (generateSessionID _) as [sid0 next].
  intros [= <- <-] H64. split; simpl; try done.
  - by rewrite Z.add_0_r, int64_id.
  - intros ip _ _. lia.
  - intros sid'. rewrite elem_of_union, elem_of_singleton. intros [->|?]; [by left|by right].
Qed.

Lemma advances_untrack conn sid s :
  in_int64 (srv_activeConnections s) →
  advances (PEnding conn sid) (PUntracked conn) s (untrack_client sid s).
Proof.
  intros H64. split; simpl; try done.
  - by rewrite Z.add_0_r, int64_id.
  - intros ip _ _. lia.
  - intros sid' Hs. right. unfold Untrack in Hs.
    case_bool_decide as Hin; simpl in Hs; [rewrite Close_sessions in Hs|]; set_solver.
  - unfold Untrack. case_bool_decide; [apply Close_closed|done].
Qed.

Lemma advances_release conn s :
  in_int64 (srv_activeConnections s) →
  advances (PUncounted conn) (PReleased conn) s (release_client conn s).
Proof.
  intros H64. split; simpl; try done; [| | |by right].
  - by rewrite Z.add_0_r, int64_id.
  - apply Release_enabled.
  - intros ip He Hpos. rewrite Release_slots by done.
    case_bool_decide as Hip; simpl; [|lia].
    subst. destruct Hpos as [Hpos|]; [|done]. rewrite bool_decide_eq_true_2 by done. simpl. lia.
Qed.

Lemma advances_return conn s :
  in_int64 (srv_activeConnections s) →
  advances (PReleased conn) (PReturned conn) s (close_fd (conn_fd conn) s).
Proof.
  intros H64. split; simpl; try done.
  - by rewrite Z.add_0_r, int64_id.
  - intros ip _ _. lia.
  - by right.
  - set_solver.
  - intros conn' [= <-]. set_solver.
Qed.

Lemma accounted_accept s s' hs h conn created now :
  hs !! h = None →
  (slots_of (srv_rateLimiter s) (extractClientIP (Some conn)) < 2 ^ 63 - 1)%Z →
  acceptConnection created now conn s = (true, s') →
  accounted (mkGateway s hs) → accounted (mkGateway s' (<[h := PAdmitted conn]> hs)).
Proof.
  intros Hh Hn HA []; cbn [gw_server gw_running] in *.
  destruct (acceptConnection_slots _ _ _ _ _ _ HA) as (Ha & Hc & He & Hs).
  split; simpl; rewrite ?Ha, ?Hc, ?He.
  - by rewrite tally_insert.
  - intros ip Hen. rewrite tally_insert by done. rewrite Hs; [|done|].
    + rewrite ac_slots0 by done. simpl. case_bool_decide; simpl; lia.
    + pose proof (ac_slots0 (extractClientIP (Some conn)) Hen). lia.
  - intros sid Hin. destruct (ac_sessions0 sid Hin) as (h0 & p0 & Hh0 & Hp0).
    exists h0, p0. rewrite lookup_insert_ne; [done|]. intros <-. congruence.
  - intros h0 c. rewrite lookup_insert_Some. intros [[_ [=]]|[_ Hh0]]. eauto.
Qed.

Lemma quiet_refused s s' hs conn created now :
  accounted (mkGateway s hs) →
  (slots_of (srv_rateLimiter s) (extractClientIP (Some conn)) < 2 ^ 63 - 1)%Z →
  acceptConnection created now conn s = (false, s') → quiet s s'.
Proof.
  intros [] Hn HA. cbn [gw_server gw_running] in *.
  destruct (acceptConnection_slots _ _ _ _ _ _ HA) as (Ha & Hc & He & Hs).
  split; rewrite ?Hc; try done. intros ip Hen. rewrite Hs; [simpl; lia|done|].
  pose proof (ac_slots0 (extractClientIP (Some conn)) Hen). lia.
Qed.

Lemma hstep_accounted g g' : hstep g g' → accounted g → accounted g'.
Proof.
  intros Hstep Hac.
  assert (in_int64 (srv_activeConnections (gw_server g))) as H64
    by (rewrite (ac_active _ Hac); apply int64_range).
  destruct Hstep; simpl in H64;
    try (by eapply quiet_accounted; [eauto with quiet|]);
    try (eapply advances_accounted; [done| |done]; first
      [ apply advances_count | by eapply advances_track | apply advances_uncount
      | by apply advances_untrack | by apply advances_release | by apply advances_return
      | apply advances_quiet; [|done..]; first
          [apply quiet_dial_failed | apply quiet_update
          |eapply quiet_trans; [apply quiet_proxy|apply quiet_close_fd]] ]).
  - by eapply accounted_accept.
  - eapply quiet_accounted; [|done].
    eapply quiet_trans; [by eapply quiet_refused|apply quiet_close_fd].
  - eapply quiet_accounted; [|done]. split; try done. intros ip _. apply cleanup_slots.
Qed.

(** ** Properties *)

Definition gateway_init (name : string) (config : GwConfig) : gateway :=
  mkGateway (NewServer name config) ∅.

Lemma gateway_init_accounted name config : accounted (gateway_init name config).
Proof.
  by split.
Qed.

Lemma reachable_accounted name config g :
  rtc hstep (gateway_init name config) g → accounted g.
Proof.
  intros Hsteps. pose proof (gateway_init_accounted name config) as H0. revert H0.
  induction Hsteps as [|g1 g2 g3 Hst _ IH]; [done|]. intros H0. by apply IH, (hstep_accounted g1).
Qed.


(** One client of a rate-limited gateway, from the accept loop to its return
    after a failed dial. *)
Definition limited_config : GwConfig :=
  mkGwConfig "0.0.0.0:7687" 1 (30 * Second) 32768 (30 * Second) (10 * Second) (5 * Minute)
    1048576000 (1 * Minute) false "" "" true 100 200 (1 * Minute) "info" false.

Definition client1 : Conn := mkConn 3 "10.0.0.9:5000".
Definition client2 : Conn := mkConn 4 "10.0.0.9:5001".

Definition opened : Server :=
  SetUpstreamAddress "10.0.0.1:7687" (NewServer "main-gw" limited_config).

Definition returned : gateway :=
  let s1 := add_active 1 (acceptConnection 0 0 client1 opened).2 in
  let '(sid, s2) := track_client 0 client1 s1 in
  let s3 := (dial_failed 0 sid "10.0.0.1:7687" (OtherErr "refused") s2).2 in
  mkGateway
    (close_fd 3 (release_client client1 (add_active (-1) (untrack_client sid s3))))
    {[ 1%Z := PReturned client1 ]}.

Lemma returned_reachable : rtc hstep (gateway_init "main-gw" limited_config) returned.
Proof.
  eapply rtc_l; [apply (h_switch _ _ "10.0.0.1:7687")|].
  eapply rtc_l; [apply (h_accept _ (acceptConnection 0 0 client1 opened).2 _ 1 client1 0 0);
    [reflexivity|vm_compute; reflexivity|vm_compute; reflexivity]|].
  eapply rtc_l; [apply h_count, lookup_insert_eq|]. rewrite insert_insert_eq.
  eapply rtc_l; [eapply (h_track _ _ 1 client1 _ _ 0); [apply lookup_insert_eq|reflexivity]|].
  rewrite insert_insert_eq.
  eapply rtc_l; [apply (h_dial_failed _ _ 1 client1 "session-1" 0 "10.0.0.1:7687" (OtherErr "refused")),
    lookup_insert_eq|]. rewrite insert_insert_eq.
  eapply rtc_l; [apply (h_untrack _ _ 1 client1 "session-1"), lookup_insert_eq|]. rewrite insert_insert_eq.
  eapply rtc_l; [apply h_uncount, lookup_insert_eq|]. rewrite insert_insert_eq.
  eapply rtc_l; [apply h_release, lookup_insert_eq|]. rewrite insert_insert_eq.
  eapply rtc_l; [apply h_return, lookup_insert_eq|]. rewrite insert_insert_eq.
  apply rtc_refl.
Qed.


Lemma track_client_spec now conn s sid s' :
  ct_wf (srv_connections s) → (ct_nextID (srv_connections s) < 2 ^ 64 - 1)%Z →
  track_client now conn (add_active 1 s) = (sid, s') →
  (sid ∉ ct_sessions (srv_connections s)) ∧
  ct_sessions (srv_connections s') = {[sid]} ∪ ct_sessions (srv_connections s) ∧
  srv_activeConnections s' = int64 (srv_activeConnections s + 1) ∧
  srv_rateLimiter s' = srv_rateLimiter s ∧
  srv_upstreamAddress s' = srv_upstreamAddress s ∧ srv_errors s' = srv_errors s.
Proof.
  intros Hwf Hn. destruct (generateSessionID_fresh _ Hwf Hn) as [Hfresh _].
  unfold track_client, Track.
  change (srv_connections (add_active 1 s)) with (srv_connections s).
  destruct (generateSessionID _) as [sid0 next]. intros [= <- <-]. split; [|done].
  intros Hin. destruct (wf_obj _ Hwf _ Hin). simpl in *. congruence.
Qed.

(** The proxy only touches its session object and the error counter. *)
Lemma proxy_same now sid up down s :
  let s' := proxyConnections now sid up down s in
  ct_sessions (srv_connections s') = ct_sessions (srv_connections s) ∧
  srv_activeConnections s' = srv_activeConnections s ∧ srv_rateLimiter s' = srv_rateLimiter s.
Proof.
  unfold proxyConnections. destruct (copy_failed up), (copy_failed down), up, down; done.
Qed.

Lemma end_handler_spec conn sid backend s :
  let s' := end_handler conn sid backend s in
  ct_sessions (srv_connections s') = ct_sessions (srv_connections s) ∖ {[sid]} ∧
  srv_activeConnections s' = int64 (srv_activeConnections s + -1) ∧
  srv_rateLimiter s' = Release (extractClientIP (Some conn)) (srv_rateLimiter s) ∧
  conn_fd conn ∈ ct_closed (srv_connections s') ∧
  (∀ b, backend = Some b → conn_fd b ∈ ct_closed (srv_connections s')) ∧
  srv_errors s' = srv_errors s ∧ srv_healthStatus s' = srv_healthStatus s.
Proof.
  set (s1 := close_backend backend s).
  assert (ct_sessions (srv_connections s1) = ct_sessions (srv_connections s)) as Hs
    by (destruct backend; reflexivity).
  assert (ct_sessions (Untrack sid (srv_connections s1)) =
    ct_sessions (srv_connections s) ∖ {[sid]}) as HU.
  { rewrite <- Hs. unfold Untrack. case_bool_decide; [|set_solver].
    simpl. by rewrite Close_sessions. }
  assert (ct_closed (srv_connections s1) ⊆ ct_closed (Untrack sid (srv_connections s1))) as HC
    by (unfold Untrack; case_bool_decide; [apply Close_closed|done]).
  unfold end_handler. fold s1. split; [exact HU|].
  split; [by destruct backend|]. split; [by destruct backend|]. split; [simpl; set_solver|].
  split; [|by destruct backend]. intros b ->. simpl. apply elem_of_union_r, HC. simpl. set_solver.
Qed.

(** A handler that runs alone leaves the gateway as it found it, whatever the
    network answers: the tracked sessions and the active count are unchanged,
    one limiter slot of its client is released, its client connection and the
    backend connection it dialed are closed.  A failed dial is counted and
    reported with the upstream address that was dialed; a successful one is not
    reported. *)
Theorem handleConnection_restores (now : Z) (conn : Conn) (dial : string → result Conn)
    (up down : option copied) (s : Server) :
  ct_wf (srv_connections s) → (ct_nextID (srv_connections s) < 2 ^ 64 - 1)%Z →
  in_int64 (srv_activeConnections s) →
  let '(report, s') := handleConnection now conn dial up down s in
  ct_sessions (srv_connections s') = ct_sessions (srv_connections s) ∧
  srv_activeConnections s' = srv_activeConnections s ∧
  srv_rateLimiter s' = Release (extractClientIP (Some conn)) (srv_rateLimiter s) ∧
  conn_fd conn ∈ ct_closed (srv_connections s') ∧
  match dial (srv_upstreamAddress s) with
  | Ok backend => report = None ∧ conn_fd backend ∈ ct_closed (srv_connections s')
  | Err err => report = Some (srv_upstreamAddress s, err) ∧
      srv_errors s' = int64 (srv_errors s + 1) ∧
      srv_healthStatus s' = "upstream-connection-failed: " +:+ error_string err
  end.
Proof.
  intros Hwf Hn H64. unfold handleConnection.
  destruct (track_client now conn (add_active 1 s)) as [sid s1] eqn:Ht.
  destruct (track_client_spec _ _ _ _ _ Hwf Hn Ht) as (Hid & Hs & Ha & Hr & Hu & He).
  unfold GetUpstreamAddress. rewrite Hu. cbn [srv_upstreamAddress add_active].
  assert (({[sid]} ∪ ct_sessions (srv_connections s)) ∖ {[sid]} = ct_sessions (srv_connections s))
    as Hback by set_solver.
  assert (int64 (int64 (srv_activeConnections s + 1) + -1) = srv_activeConnections s) as Hact.
  { rewrite int64_add_l, <- Z.add_assoc, Z.add_0_r. by apply int64_id. }
  destruct (dial (srv_upstreamAddress s)) as [backend|err].
  - set (s2 := proxyConnections _ _ _ _ _).
    destruct (proxy_same now sid up down
      (set_connections (update_session sid (SetBackendConnection backend)) s1)) as (Hs2 & Ha2 & Hr2).
    fold s2 in Hs2, Ha2, Hr2.
    destruct (end_handler_spec conn sid (Some backend) s2) as (Es & Ea & Er & Ec & Eb & _).
    cbn [set_connections update_session ct_with srv_connections ct_sessions
         srv_activeConnections srv_rateLimiter] in Hs2, Ha2, Hr2.
    rewrite Es, Ea, Er, Hs2, Ha2, Hr2, Hs, Ha, Hr. auto 10.
  - unfold dial_failed. set (s2 := set_health _ _ _).
    destruct (end_handler_spec conn sid None s2) as (Es & Ea & Er & Ec & _ & Ee & Eh).
    rewrite Es, Ea, Er, Ee, Eh. cbn [s2 set_health set_connections add_errors update_session ct_with
      srv_connections ct_sessions srv_activeConnections srv_rateLimiter srv_errors srv_healthStatus].
    by rewrite Hs, Ha, Hr, He.
Qed.

Lemma handleConnection_restores_witness :
  (handleConnection 5 client1 (λ _, Err (OtherErr "refused")) None None opened).1 =
  Some ("10.0.0.1:7687", OtherErr "refused").
Proof.
  assert (ct_wf (srv_connections opened)) as Hwf by apply NewConnectionTracker_wf.
  pose proof (handleConnection_restores 5 client1 (λ _, Err (OtherErr "refused")) None None opened
    Hwf ltac:(reflexivity) ltac:(split; vm_compute; congruence)) as H.
  destruct (handleConnection _ _ _ _ _ _). destruct H as (_ & _ & _ & _ & Hr & _). exact Hr.
Defined.

(** The connection limit is checked before the session is tracked: with a limit
    of 1, two connections the accept loop takes before their handlers run are
    both admitted and both tracked. *)
Example limit_checked_before_tracking :
  let '(ok1, s1) := acceptConnection 0 0 client1 opened in
  let '(ok2, s2) := acceptConnection 0 0 client2 s1 in
  let s3 := (track_client 0 client1 s2).2 in
  let s4 := (track_client 0 client2 s3).2 in
  ok1 = true ∧ ok2 = true ∧
  (gw_MaxConnections (srv_config opened) < GetCount (srv_connections s4))%Z.
Proof. vm_compute. auto. Qed.

(** Starting: an invalid configuration or a second start changes nothing, a
    listener that cannot be opened leaves the server not running, and a start
    that succeeds needs a valid configuration and leaves the server running. *)
Theorem Start_spec (load listen : option error) (s : Server) :
  let '(err, s') := Start load listen s in
  match err with
  | None => valid_config (srv_config s) ∧ srv_isRunning s = false ∧ listen = None ∧
      (gw_TLSEnabled (srv_config s) = true → load = None) ∧ s' = set_running true s
  | Some _ =>
      s' = s ∧ (¬ valid_config (srv_config s) ∨ srv_isRunning s = true ∨ is_Some listen ∨ is_Some load)
  end.
Proof.
  pose proof (Validate_valid (srv_config s)) as Hv. unfold Start.
  destruct (Validate (srv_config s)) as [err|]; [split; [done|left; naive_solver]|].
  assert (valid_config (srv_config s)) as Hok by naive_solver.
  destruct (srv_isRunning s) eqn:Hr; [by auto|].
  assert (set_running false (set_running true s) = s) as Hback
    by (destruct s; simpl in *; by subst).
  set (s1 := set_running true s) in *. clearbody s1.
  destruct (gw_TLSEnabled (srv_config s)), load, listen; rewrite ?Hback;
    try (split; [done|right; right; (by left) || (by right)]);
    (split; [done|split; [done|]]); done.
Qed.
