(* ===== verification/GatewayLoops.v ===== *)
(** * The loops of the gateway: [acceptConnections] and [periodicCleanup] of
      [internal/gateway/server.go], [cleanupRoutine] and [Close] of
      [internal/gateway/rate_limiter.go]

    One iteration of the accept loop around [acceptConnection] (GatewayServer.v),
    with the deadline of the listener, its errors and the shutdown channel; the
    loops over their iterations; and the accept loop interleaved with the
    connection handlers of GatewayHandlers.v, with every connection accounted
    for. *)

From S2P Require Import Prelude.
From S2P Require Import GoStrings.
From S2P Require Import GoTime.
From S2P Require Import GoNet.
From S2P Require Import GatewayConfig.
From S2P Require Import RateLimiter.
From S2P Require Import ConnectionTracker.
From S2P Require Import GatewayServer.
From S2P Require Import GatewayHandlers.

(** ** The accept loop *)

(** What [listener.Accept] returns; [created] and [now] are the instants the
    rate limiter reads. *)
Inductive accepted :=
  | AcceptConn (created now : Z) (conn : Conn)
  | AcceptTimeout
  | AcceptError (err : error).

(** One iteration: whether [shutdownCh] is closed at its beginning, what
    [Accept] returns, and whether the channel is closed by then. *)
Record iteration := mkIteration {
  it_stopped : bool;
  it_accept : accepted;
  it_stopping : bool;
}.

Inductive verdict := Handle (conn : Conn) | Next | Terminated.

Definition accept_iteration (it : iteration) (s : Server) : verdict * Server :=
  if it_stopped it then (Terminated, s)
  else
    match it_accept it with
    | AcceptTimeout => (Next, s)
    | AcceptError _ => if it_stopping it then (Terminated, s) else (Next, add_errors 1 s)
    | AcceptConn created now conn =>
        let '(admitted, s) := acceptConnection created now conn s in
        if admitted then (Handle conn, s) else (Next, close_fd (conn_fd conn) s)
    end.

(** The loop over the iterations it goes through: the connections it hands to
    handlers, and whether it has returned. *)
Fixpoint acceptConnections (its : list iteration) (s : Server) : list Conn * bool * Server :=
  match its with
  | [] => ([], false, s)
  | it :: its =>
      match accept_iteration it s with
      | (Terminated, s) => ([], true, s)
      | (Next, s) => acceptConnections its s
      | (Handle conn, s) =>
          let '(conns, returned, s) := acceptConnections its s in (conn :: conns, returned, s)
      end
  end.

(** ** The clean-up loops *)

(** What the select of a clean-up loop receives. *)
Inductive received (A : Type) := Stopped | Tick (a : A).
Arguments Stopped {A}.
Arguments Tick {A} a.

Fixpoint select_loop {A S : Type} (tick : A → S → S) (rs : list (received A)) (s : S) : bool * S :=
  match rs with
  | [] => (false, s)
  | Stopped :: _ => (true, s)
  | Tick a :: rs => select_loop tick rs (tick a s)
  end.

(** [periodicCleanup]; [time.NewTicker] panics on an interval that is not
    positive. *)
Definition periodicCleanup (rs : list (received (Z * Z))) (s : Server) : outcome (bool * Server) :=
  if bool_decide (gw_CleanupInterval (srv_config s) ≤ 0)%Z
  then Panic "non-positive interval for NewTicker"
  else Ret (select_loop (λ t, periodicCleanup_tick t.1 t.2) rs s).

Definition cleanupRoutine (rs : list (received Z)) (rl : RateLimiter) : bool * RateLimiter :=
  select_loop cleanupInactiveClients rs rl.

(** [Close]: closing [stopCh] a second time panics. *)
Definition rl_Close (rl : RateLimiter) (stopCh_closed : bool) : outcome bool :=
  if rl_enabled rl then
    if stopCh_closed then Panic "close of closed channel" else Ret true
  else Ret stopCh_closed.

(** A server that has started has a ticker that does not panic. *)
Lemma started_cleanup load listen s s' rs :
  Start load listen s = (None, s') → ∃ b s'', periodicCleanup rs s' = Ret (b, s'').
Proof.
  intros Hs. pose proof (Start_spec load listen s) as Hv. rewrite Hs in Hv.
  destruct Hv as (Hv & _ & _ & _ & ->). unfold periodicCleanup.
  rewrite bool_decide_eq_false_2 by (destruct Hv; simpl; unfold Second in *; lia).
  destruct (select_loop _ _ _); eauto.
Qed.

(** The accept loop returns only when it finds the shutdown channel closed.
    Nothing in the program closes it: the loop ends with the process. *)
Lemma accept_returns (its : list iteration) s conns s' :
  acceptConnections its s = (conns, true, s') →
  ∃ it, it ∈ its ∧ (it_stopped it = true ∨ it_stopping it = true).
Proof.
  revert s conns s'. induction its as [|it its IH]; intros s conns s' Hr; [done|].
  simpl in Hr. destruct (accept_iteration it s) as [v s1] eqn:Hit.
  assert (v = Terminated → it_stopped it = true ∨ it_stopping it = true) as Hv.
  { unfold accept_iteration in Hit. destruct (it_stopped it); [auto|].
    destruct (it_accept it) as [created now conn| |err]; [|naive_solver|].
    - destruct (acceptConnection created now conn s) as [[] ?]; naive_solver.
    - destruct (it_stopping it); naive_solver. }
  destruct v as [conn| |].
  - destruct (acceptConnections its s1) as [[conns' returned] s2] eqn:Hl.
    injection Hr as <- -> <-. destruct (IH _ _ _ Hl) as (it' & ? & ?).
    exists it'. split; [by apply list_elem_of_further|done].
  - destruct (IH _ _ _ Hr) as (it' & ? & ?). exists it'. split; [by apply list_elem_of_further|done].
  - exists it. split; [apply list_elem_of_here|by apply Hv].
Qed.

(** ** The accept loop among the handlers *)

Definition phase_conn (p : phase) : Conn :=
  match p with
  | PAdmitted c | PCounted c | PTracked c _ | PProxy c _ _ | PEnding c _ | PUntracked c
  | PUncounted c | PReleased c | PReturned c => c
  end.

(** What the accept loop counts. *)
Definition admission (s : Server) : Z * Z * Z :=
  (srv_totalConnections s, srv_rejectedConnections s, srv_rateLimitRejections s).

(** The gateway, and the connections [Accept] returned so far. *)
Record listening := mkListening { ls_gateway : gateway; ls_taken : list Conn }.

Definition taken_by (a : accepted) : list Conn :=
  match a with AcceptConn _ _ conn => [conn] | _ => [] end.

(** A step: an iteration of the accept loop, with the shutdown channel open,
    whose handler, if there is one, is the new goroutine [h]; or a step of
    anything else, which is known by leaving the loop's counters alone. *)
Inductive lstep : listening → listening → Prop :=
  | l_accept s s' hs taken a v h :
      hs !! h = None →
      match a with
      | AcceptConn _ _ conn =>
          (slots_of (srv_rateLimiter s) (extractClientIP (Some conn)) < 2 ^ 63 - 1)%Z
      | _ => True
      end →
      accept_iteration (mkIteration false a false) s = (v, s') →
      lstep (mkListening (mkGateway s hs) taken)
        (mkListening (mkGateway s' match v with
                                   | Handle conn => <[h := PAdmitted conn]> hs
                                   | _ => hs
                                   end) (taken_by a ++ taken))
  | l_other g g' taken :
      hstep g g' → admission (gw_server g') = admission (gw_server g) →
      lstep (mkListening g taken) (mkListening g' taken).

(** Every connection is counted and looked after. *)
Record served (l : listening) : Prop := {
  sv_range : in_int64 (srv_totalConnections (gw_server (ls_gateway l)));
  sv_handlers : srv_totalConnections (gw_server (ls_gateway l)) =
    int64 (Z.of_nat (size (gw_running (ls_gateway l))));
  sv_counted :
    let '(total, rejected, limited) := admission (gw_server (ls_gateway l)) in
    int64 (total + rejected + limited) = int64 (Z.of_nat (length (ls_taken l)));
  sv_taken conn : conn ∈ ls_taken l →
    (∃ h p, gw_running (ls_gateway l) !! h = Some p ∧ phase_conn p = conn) ∨
    conn_fd conn ∈ ct_closed (srv_connections (gw_server (ls_gateway l)));
}.

(** What a step of anything but the accept loop does to them. *)
Definition undisturbed (g g' : gateway) : Prop :=
  ct_closed (srv_connections (gw_server g)) ⊆ ct_closed (srv_connections (gw_server g')) ∧
  (gw_running g' = gw_running g ∨
   ∃ h p p', gw_running g !! h = Some p ∧ gw_running g' = <[h := p']> (gw_running g) ∧
     phase_conn p' = phase_conn p).

Lemma int64_sum3 x y z : int64 (int64 x + int64 y + int64 z) = int64 (x + y + z).
Proof.
  rewrite int64_add_r, <- Z.add_assoc, int64_add_l.
  rewrite Z.add_assoc, (Z.add_comm x), <- Z.add_assoc, int64_add_l. f_equal. lia.
Qed.

Lemma acceptConnection_counts created now conn s ok s' :
  acceptConnection created now conn s = (ok, s') →
  srv_totalConnections s' = int64 (srv_totalConnections s + b2z ok) ∧
  int64 (srv_totalConnections s' + srv_rejectedConnections s' + srv_rateLimitRejections s') =
  int64 (srv_totalConnections s + srv_rejectedConnections s + srv_rateLimitRejections s + 1).
Proof.
  unfold acceptConnection. case_bool_decide; [|destruct (Allow _ _ _ _) as [[] rl]; simpl;
    [destruct (CanAccept _); simpl|]]; intros [= <- <-]; (split; [done|]); simpl;
    rewrite int64_sum3; f_equal; lia.
Qed.

Lemma int64_succ_ne x : in_int64 x → int64 (x + 1) ≠ x.
Proof. unfold in_int64, int64, wrap. intros Hx Heq. Z.div_mod_to_equations. lia. Qed.

Lemma Untrack_closed sid ct : ct_closed ct ⊆ ct_closed (Untrack sid ct).
Proof. unfold Untrack. case_bool_decide; [apply Close_closed|done]. Qed.

Lemma track_client_closed now conn s sid s' :
  track_client now conn s = (sid, s') →
  ct_closed (srv_connections s') = ct_closed (srv_connections s).
Proof. unfold track_client, Track. destruct (generateSessionID _). by intros [= _ <-]. Qed.

Lemma acceptConnection_connections created now conn s ok s' :
  acceptConnection created now conn s = (ok, s') → srv_connections s' = srv_connections s.
Proof. intros Ha. by apply acceptConnection_slots in Ha as (_ & ? & _). Qed.

Lemma hstep_undisturbed g g' :
  hstep g g' → in_int64 (srv_totalConnections (gw_server g)) →
  admission (gw_server g') = admission (gw_server g) → undisturbed g g'.
Proof.
  intros Hstep Hr Ha.
  destruct Hstep as [s s' hs h conn created now _ _ HA|s s' hs conn created now _ HA| | | | | | | | |
    | |s hs address|s hs|s hs now1 now2|]; simpl in Hr, Ha; unfold undisturbed;
    cbn [gw_server gw_running].
  1:{ apply acceptConnection_counts in HA as [HA _]. injection Ha as Ht _ _.
      rewrite Ht in HA. by destruct (int64_succ_ne _ Hr). }
  all: (split; [|first [by left | right; eexists _, _, _; split_and!; [eassumption|done..]]]).
  - apply acceptConnection_connections in HA. simpl. rewrite HA. set_solver.
  - done.
  - by erewrite <- track_client_closed by eassumption.
  - done.
  - done.
  - etrans; [apply (q_closed _ _ (quiet_proxy now sid up down s))|simpl; set_solver].
  - apply Untrack_closed.
  - done.
  - done.
  - simpl. set_solver.
  - done.
  - apply quiet_SetUpstreamAddress.
  - apply quiet_DisconnectAll.
  - apply quiet_tick.
  - done.
Qed.

Lemma served_other l g' :
  served l → hstep (ls_gateway l) g' →
  admission (gw_server g') = admission (gw_server (ls_gateway l)) →
  served (mkListening g' (ls_taken l)).
Proof.
  destruct l as [g taken]. intros [Hr Hh Hc Ht] Hstep Ha. cbn [ls_gateway ls_taken] in *.
  destruct (hstep_undisturbed _ _ Hstep Hr Ha) as [Hclosed Hrun].
  assert (srv_totalConnections (gw_server g') = srv_totalConnections (gw_server g)) as Htot
    by (unfold admission in Ha; congruence).
  split; cbn [ls_gateway ls_taken]; rewrite ?Ha, ?Htot; [done| |done|].
  - rewrite Hh. do 2 f_equal. destruct Hrun as [->|(h & p & p' & Hp & -> & _)]; [done|].
    rewrite map_size_insert_Some; [done|]. by eexists.
  - intros conn Hin. destruct (Ht conn Hin) as [(h & p & Hp & <-)|Hcl]; [|right; set_solver].
    left. destruct Hrun as [->|(h' & q & q' & Hq & -> & Hconn)]; [by eauto|].
    destruct (decide (h' = h)) as [->|Hne].
    + exists h, q'. rewrite lookup_insert_eq. split; [done|]. congruence.
    + exists h, p. by rewrite lookup_insert_ne.
Qed.

Lemma served_accept s s' hs taken a v h :
  hs !! h = None → accept_iteration (mkIteration false a false) s = (v, s') →
  served (mkListening (mkGateway s hs) taken) →
  served (mkListening
    (mkGateway s' match v with Handle conn => <[h := PAdmitted conn]> hs | _ => hs end)
    (taken_by a ++ taken)).
Proof.
  intros Hh Hit [Hr Hn Hc Ht]. cbn [ls_gateway ls_taken gw_server gw_running] in *.
  unfold accept_iteration in Hit. cbn [it_stopped it_accept it_stopping] in Hit.
  destruct a as [created now conn| |err]; [|by injection Hit as <- <-..].
  destruct (acceptConnection created now conn s) as [ok s1] eqn:HA.
  pose proof (acceptConnection_connections _ _ _ _ _ _ HA) as Hct.
  apply acceptConnection_counts in HA as [Htot Hsum].
  assert (int64 (srv_totalConnections s1 + srv_rejectedConnections s1 + srv_rateLimitRejections s1)
    = int64 (Z.of_nat (length (conn :: taken)))) as Hcount.
  { rewrite Hsum, <- int64_add_l. unfold admission in Hc. rewrite Hc, int64_add_l. f_equal.
    simpl. lia. }
  destruct ok; injection Hit as <- <-; (split; cbn [ls_gateway ls_taken gw_server gw_running]).
  - rewrite Htot. apply int64_range.
  - rewrite Htot, Hn, int64_add_l, map_size_insert_None by done. f_equal. simpl. lia.
  - exact Hcount.
  - intros c. cbn [taken_by app]. rewrite elem_of_cons. intros [->|Hin].
    + left. exists h, (PAdmitted conn). by rewrite lookup_insert_eq.
    + rewrite Hct. destruct (Ht c Hin) as [(h' & p & Hp & Hpc)|]; [left|by right].
      exists h', p. rewrite lookup_insert_ne; [done|]. congruence.
  - simpl. rewrite Htot. apply int64_range.
  - simpl. rewrite Htot. simpl. by rewrite Z.add_0_r, int64_id.
  - exact Hcount.
  - intros c. cbn [taken_by app]. rewrite elem_of_cons. intros [->|Hin]; [right; simpl; set_solver|].
    destruct (Ht c Hin) as [?|?]; [by left|right]. simpl. rewrite Hct. set_solver.
Qed.

Lemma lstep_accounted l l' : lstep l l' → accounted (ls_gateway l) → accounted (ls_gateway l').
Proof.
  intros Hstep Hac. destruct Hstep as [s s' hs taken a v h Hh Hslots Hit|g g' taken Hstep _];
    cbn [ls_gateway] in *; [|by eapply hstep_accounted].
  unfold accept_iteration in Hit. cbn [it_stopped it_accept it_stopping] in Hit.
  destruct a as [created now conn| |err].
  - destruct (acceptConnection created now conn s) as [ok s1] eqn:HA.
    destruct ok; injection Hit as <- <-; eapply hstep_accounted; try exact Hac.
    + by eapply h_accept.
    + by eapply h_refuse.
  - by injection Hit as <- <-.
  - injection Hit as <- <-. eapply quiet_accounted; [apply quiet_errors|done].
Qed.

Lemma lstep_served l l' : lstep l l' → served l → served l'.
Proof.
  intros [s s' hs taken a v h Hh _ Hit|g g' taken Hstep Ha] Hl;
    [by eapply served_accept|by eapply (served_other (mkListening g taken))].
Qed.

Lemma reachable_served name config l :
  rtc lstep (mkListening (gateway_init name config) []) l → served l ∧ accounted (ls_gateway l).
Proof.
  assert (served (mkListening (gateway_init name config) [])) as H0.
  { split; cbn; [by split|done|done|set_solver]. }
  pose proof (gateway_init_accounted name config) as Ha0.
  intros Hsteps. remember (mkListening _ _) as l0 eqn:Hl0.
  replace (gateway_init name config) with (ls_gateway l0) in Ha0 by (by subst).
  clear Hl0. induction Hsteps as [l|l1 l2 l3 Hst _ IH]; [done|].
  apply IH; [by eapply lstep_served|by eapply lstep_accounted].
Qed.

(** C18. No connection is lost.  In every interleaving of the accept loop with
    the handlers, upstream switches and clean-ups, every connection [Accept]
    returned is counted exactly once, as accepted, rejected or rate limited, in
    64-bit counters; the accepted ones are as many as the handlers that were
    started; each connection has a handler or is closed, and once all handlers
    have returned all of them are closed. *)
Theorem accept_loop_accounts (name : string) (config : GwConfig) (l : listening) :
  rtc lstep (mkListening (gateway_init name config) []) l →
  let s := gw_server (ls_gateway l) in let hs := gw_running (ls_gateway l) in
  srv_totalConnections s = int64 (Z.of_nat (size hs)) ∧
  int64 (srv_totalConnections s + srv_rejectedConnections s + srv_rateLimitRejections s) =
    int64 (Z.of_nat (length (ls_taken l))) ∧
  (∀ conn, conn ∈ ls_taken l →
     (∃ h p, hs !! h = Some p ∧ phase_conn p = conn) ∨
     conn_fd conn ∈ ct_closed (srv_connections s)) ∧
  ((∀ h p, hs !! h = Some p → ∃ conn, p = PReturned conn) →
     ∀ conn, conn ∈ ls_taken l → conn_fd conn ∈ ct_closed (srv_connections s)).
Proof.
  intros Hsteps s hs. destruct (reachable_served _ _ _ Hsteps) as [[Hr Hn Hc Ht] Hac].
  split; [done|]. split; [done|]. split; [done|]. intros Hdone conn Hin.
  destruct (Ht conn Hin) as [(h & p & Hp & <-)|]; [|done].
  destruct (Hdone h p Hp) as [c ->]. by apply (ac_closed _ Hac h).
Qed.

(** A client of a gateway that has no upstream yet. *)
Definition refused : listening :=
  mkListening
    (mkGateway (close_fd 3 (acceptConnection 0 0 client1 (NewServer "main-gw" limited_config)).2) ∅)
    [client1].

Lemma refused_reachable :
  rtc lstep (mkListening (gateway_init "main-gw" limited_config) []) refused.
Proof.
  apply rtc_once.
  apply (l_accept _ (close_fd 3 (acceptConnection 0 0 client1 (NewServer "main-gw" limited_config)).2)
    ∅ [] (AcceptConn 0 0 client1) Next 1); [done|vm_compute; reflexivity|reflexivity].
Qed.

Lemma accept_loop_accounts_witness :
  srv_rejectedConnections (gw_server (ls_gateway refused)) = 1%Z ∧
  3%Z ∈ ct_closed (srv_connections (gw_server (ls_gateway refused))).
Proof.
  destruct (accept_loop_accounts "main-gw" limited_config _ refused_reachable) as (_ & _ & _ & H).
  split; [vm_compute; reflexivity|]. apply (H (λ h p Hp, ltac:(done)) client1), list_elem_of_here.
Defined.

(** A listener that keeps failing (no file descriptor left, say) keeps the loop
    busy: every error is an iteration, with no pause in between. *)
Example failing_listener (n : nat) (s : Server) :
  (acceptConnections (replicate n (mkIteration false (AcceptError (OtherErr "emfile")) false)) s).1
  = ([], false).
Proof. revert s. induction n as [|n IH]; intros s; [done|apply IH]. Qed.
