(* ===== verification/GatewayInterleaving.v ===== *)
(** * Interleaving of upstream switches and connection handlers

    [internal/gateway/server.go] runs [handleConnection] in one goroutine per
    client while the controller calls [SetUpstreamAddress].  Each step below is
    one critical section (or one call) of one goroutine:
    - a handler tracks its connection, then reads the upstream under the read
      lock, then dials, stores the backend connection, and finally untracks;
    - the switch takes the write lock, runs [DisconnectAll] (count, snapshot,
      close the sessions of the snapshot in any order), writes, unlocks;
    - the clean-up goroutine and the byte counters run at any time. *)

From S2P Require Import Prelude.
From S2P Require Import GoStrings.
From S2P Require Import GoTime.
From S2P Require Import ConnectionTracker.

Inductive handler :=
  | HStart (conn : Conn)
  | HTracked (sid : string)
  | HUpstream (sid addr : string)
  | HDialed (sid addr : string) (backend : Conn)
  | HProxy (sid addr : string)
  | HDone.

Inductive setter :=
  | SIdle
  | SLocked (new : string)
  | SCounted (new : string)
  | SClosing (new : string) (todo : list string)
  | SReady (new : string).

Record gstate := mkG {
  g_upstream : string;
  g_ct : ConnectionTracker;
  g_handlers : gmap Z handler;
  g_setter : setter;
}.

Definition g_init (maxConnections : Z) : gstate :=
  mkG "" (NewConnectionTracker maxConnections) ∅ SIdle.

(** Session and upstream a handler has read. *)
Definition handler_target (h : handler) : option (string * string) :=
  match h with
  | HUpstream sid addr | HDialed sid addr _ | HProxy sid addr => Some (sid, addr)
  | _ => None
  end.

Definition handler_sid (h : handler) : option string :=
  match h with
  | HTracked sid | HUpstream sid _ | HDialed sid _ _ | HProxy sid _ => Some sid
  | _ => None
  end.

Definition keeps_activity (f : ProxySession → ProxySession) : Prop :=
  ∀ ps, ps_ID (f ps) = ps_ID ps ∧ ps_isActive (f ps) = ps_isActive ps ∧
        ps_ClientConn (f ps) = ps_ClientConn ps.

Inductive gstep : gstate → gstate → Prop :=
  | g_spawn up ct hs st h conn :
      hs !! h = None →
      gstep (mkG up ct hs st) (mkG up ct (<[h := HStart conn]> hs) st)
  | g_track up ct hs st h conn now :
      hs !! h = Some (HStart conn) → (ct_nextID ct < 2 ^ 64 - 1)%Z →
      gstep (mkG up ct hs st)
        (mkG up (Track now conn ct).2 (<[h := HTracked (Track now conn ct).1]> hs) st)
  | g_read up ct hs h sid :
      hs !! h = Some (HTracked sid) →
      gstep (mkG up ct hs SIdle) (mkG up ct (<[h := HUpstream sid up]> hs) SIdle)
  | g_dial up ct hs st h sid addr b :
      hs !! h = Some (HUpstream sid addr) →
      gstep (mkG up ct hs st) (mkG up ct (<[h := HDialed sid addr b]> hs) st)
  | g_dial_fail up ct hs st h sid addr :
      hs !! h = Some (HUpstream sid addr) →
      gstep (mkG up ct hs st)
        (mkG up (Untrack sid (update_session sid AddConnectionError ct)) (<[h := HDone]> hs) st)
  | g_backend up ct hs st h sid addr b :
      hs !! h = Some (HDialed sid addr b) →
      gstep (mkG up ct hs st)
        (mkG up (update_session sid (SetBackendConnection b) ct) (<[h := HProxy sid addr]> hs) st)
  | g_finish up ct hs st h sid addr :
      hs !! h = Some (HProxy sid addr) →
      gstep (mkG up ct hs st) (mkG up (Untrack sid ct) (<[h := HDone]> hs) st)
  | g_count up ct hs st sid f :
      keeps_activity f →
      gstep (mkG up ct hs st) (mkG up (update_session sid f ct) hs st)
  | g_idle up ct hs st now timeout :
      gstep (mkG up ct hs st) (mkG up (CleanupIdle now timeout ct).2 hs st)
  | g_stale up ct hs st now age :
      gstep (mkG up ct hs st) (mkG up (CleanupStale now age ct).2 hs st)
  | g_lock up ct hs new :
      up ≠ new →
      gstep (mkG up ct hs SIdle) (mkG up ct hs (SLocked new))
  | g_none up ct hs new :
      GetCount ct = 0%Z →
      gstep (mkG up ct hs (SLocked new)) (mkG up ct hs (SReady new))
  | g_some up ct hs new :
      GetCount ct ≠ 0%Z →
      gstep (mkG up ct hs (SLocked new)) (mkG up ct hs (SCounted new))
  | g_snapshot up ct hs new :
      gstep (mkG up ct hs (SCounted new)) (mkG up ct hs (SClosing new (GetAllSessions ct)))
  | g_close up ct hs new l1 id l2 :
      gstep (mkG up ct hs (SClosing new (l1 ++ id :: l2)))
            (mkG up (Close id ct) hs (SClosing new (l1 ++ l2)))
  | g_closed up ct hs new :
      gstep (mkG up ct hs (SClosing new [])) (mkG up ct hs (SReady new))
  | g_write up ct hs new :
      gstep (mkG up ct hs (SReady new)) (mkG new ct hs SIdle).

(** ** Invariant *)

(** What an active session of a handler that has read the upstream still
    satisfies while a switch is in progress. *)
Definition setter_covers (st : setter) (sid : string) : Prop :=
  match st with
  | SClosing _ todo => sid ∈ todo
  | SReady _ => False
  | _ => True
  end.

Definition handler_ok (up : string) (ct : ConnectionTracker) (st : setter) (h : handler) : Prop :=
  match handler_sid h with
  | None => True
  | Some sid =>
      is_Some (ct_objs ct !! sid) ∧
      (tracked_active ct sid →
         sid ∈ ct_sessions ct ∧
         match handler_target h with
         | Some (_, addr) => addr = up ∧ setter_covers st sid
         | None => True
         end)
  end.

Definition g_inv (g : gstate) : Prop :=
  ct_wf (g_ct g) ∧
  map_Forall (λ _ h, handler_ok (g_upstream g) (g_ct g) (g_setter g) h) (g_handlers g).

(** [ct_shrinks ct ct']: sessions only disappear or become inactive, and a
    session that stays active stays tracked. *)
Definition ct_shrinks (ct ct' : ConnectionTracker) : Prop :=
  (∀ sid, is_Some (ct_objs ct !! sid) → is_Some (ct_objs ct' !! sid)) ∧
  (∀ sid, is_Some (ct_objs ct !! sid) → tracked_active ct' sid → tracked_active ct sid ∧
     (sid ∈ ct_sessions ct → sid ∈ ct_sessions ct')).

Global Instance ct_shrinks_preorder : PreOrder ct_shrinks.
Proof.
  split; [split; auto|]. intros ct1 ct2 ct3 [H1 H1'] [H2 H2']. split; [auto|].
  intros sid Hs Ha. destruct (H2' sid (H1 _ Hs) Ha) as [Ha2 Hm2].
  destruct (H1' sid Hs Ha2). auto.
Qed.

Lemma Close_objs id ct sid : is_Some (ct_objs ct !! sid) → is_Some (ct_objs (Close id ct) !! sid).
Proof.
  intros Hs. unfold Close. destruct (ct_objs ct !! id) as [ps|]; [|done].
  destruct (ps_isActive ps); simpl; [|done]. rewrite lookup_insert_is_Some'. by right.
Qed.

Lemma Close_shrinks id ct : ct_shrinks ct (Close id ct).
Proof.
  split; [apply Close_objs|]. intros sid _ Ha%Close_active. rewrite Close_sessions. tauto.
Qed.

(** Forgetting a session is harmless once it is closed. *)
Lemma forget_Close_shrinks id ct : ct_shrinks ct (forget id (Close id ct)).
Proof.
  split; [apply Close_objs|]. intros sid _ Ha.
  change (tracked_active (Close id ct) sid) in Ha. apply Close_active in Ha as [Ha Hne].
  split; [done|]. simpl. rewrite Close_sessions. set_solver.
Qed.

Lemma Untrack_shrinks id ct : ct_shrinks ct (Untrack id ct).
Proof.
  unfold Untrack. case_bool_decide; [apply forget_Close_shrinks|reflexivity].
Qed.

Lemma drop_sessions_shrinks ids ct : ct_shrinks ct (drop_sessions ids ct).
Proof.
  induction ids as [|id ids IH]; simpl; [reflexivity|].
  etrans; [exact IH|apply forget_Close_shrinks].
Qed.

Lemma update_session_active f id ct sid :
  keeps_activity f → tracked_active (update_session id f ct) sid ↔ tracked_active ct sid.
Proof.
  intros Hf. unfold tracked_active. simpl. split.
  - intros (ps & Hl & Ha). apply lookup_alter_Some in Hl as [(-> & ps' & Hl & ->)|[_ Hl]]; [|eauto].
    exists ps'. destruct (Hf ps') as (_ & Hac & _). by rewrite Hac in Ha.
  - intros (ps & Hl & Ha). destruct (decide (id = sid)) as [->|Hne].
    + exists (f ps). rewrite lookup_alter_eq, Hl. destruct (Hf ps) as (_ & Hac & _).
      by rewrite Hac.
    + exists ps. by rewrite lookup_alter_ne.
Qed.

Lemma update_session_shrinks f id ct : keeps_activity f → ct_shrinks ct (update_session id f ct).
Proof.
  intros Hf. split.
  - intros sid. simpl. by rewrite lookup_alter_is_Some.
  - intros sid _. rewrite update_session_active by done. done.
Qed.

(** A new session belongs to no handler yet. *)
Lemma Track_shrinks now conn ct :
  ct_wf ct → (ct_nextID ct < 2 ^ 64 - 1)%Z → ct_shrinks ct (Track now conn ct).2.
Proof.
  intros Hwf Hn. destruct (generateSessionID_fresh ct Hwf Hn) as [Hfresh _].
  unfold Track. destruct (generateSessionID ct) as [sid next]. simpl in *. split; simpl.
  - intros sid' Hs. rewrite lookup_insert_is_Some'. by right.
  - intros sid' Hs (ps & Hl & Ha). simpl in Hl.
    assert (sid ≠ sid') by (intros ->; rewrite Hfresh in Hs; by destruct Hs).
    rewrite lookup_insert_ne in Hl by done. split; [by exists ps|]. set_solver.
Qed.

#[export] Hint Resolve Close_shrinks Untrack_shrinks drop_sessions_shrinks
  update_session_shrinks : go.

Lemma handler_ok_shrinks up ct ct' st h :
  ct_shrinks ct ct' → handler_ok up ct st h → handler_ok up ct' st h.
Proof.
  intros [Hobj Hact] Hok. unfold handler_ok in *. destruct (handler_sid h) as [sid|]; [|done].
  destruct Hok as [Hs Hok]. split; [auto|]. intros Ha.
  destruct (Hact sid Hs Ha) as [Ha0 Hm]. destruct (Hok Ha0). auto.
Qed.

Lemma handlers_shrink up ct ct' st (hs : gmap Z handler) :
  ct_shrinks ct ct' →
  map_Forall (λ _ h, handler_ok up ct st h) hs → map_Forall (λ _ h, handler_ok up ct' st h) hs.
Proof. intros Hsh Hm. eapply map_Forall_impl; [exact Hm|]. eauto using handler_ok_shrinks. Qed.

Lemma setbackend_keeps b : keeps_activity (SetBackendConnection b).
Proof. done. Qed.
Lemma adderror_keeps : keeps_activity AddConnectionError.
Proof. done. Qed.
#[export] Hint Resolve setbackend_keeps adderror_keeps update_session_wf : go.

Lemma handlers_insert up ct st (hs : gmap Z handler) i h :
  map_Forall (λ _ h, handler_ok up ct st h) hs → handler_ok up ct st h →
  map_Forall (λ _ h, handler_ok up ct st h) (<[i := h]> hs).
Proof. intros. by apply map_Forall_insert_2. Qed.

(** The switch only narrows which handlers may still be active. *)
Lemma handlers_setter up ct st st' (hs : gmap Z handler) :
  (∀ sid, tracked_active ct sid → sid ∈ ct_sessions ct →
     setter_covers st sid → setter_covers st' sid) →
  map_Forall (λ _ h, handler_ok up ct st h) hs → map_Forall (λ _ h, handler_ok up ct st' h) hs.
Proof.
  intros Hst Hm. eapply map_Forall_impl; [exact Hm|]. simpl. intros _ h Hok.
  unfold handler_ok in *. destruct (handler_sid h); [|done].
  destruct Hok as [Hs Hok]. split; [done|]. intros Ha. destruct (Hok Ha) as [Hin Ht].
  split; [done|]. destruct (handler_target h) as [[sid' addr]|]; [|done].
  destruct Ht; auto.
Qed.

Lemma handlers_write up new ct (hs : gmap Z handler) :
  map_Forall (λ _ h, handler_ok up ct (SReady new) h) hs →
  map_Forall (λ _ h, handler_ok new ct SIdle h) hs.
Proof.
  intros Hm. eapply map_Forall_impl; [exact Hm|]. simpl. intros _ h Hok.
  unfold handler_ok in *. destruct (handler_sid h); [|done].
  destruct Hok as [Hs Hok]. split; [done|]. intros Ha. destruct (Hok Ha) as [Hin Ht].
  split; [done|]. destruct (handler_target h) as [[sid' addr]|]; [|done]. by destruct Ht.
Qed.

Lemma track_new_ok up ct st now conn :
  handler_ok up (Track now conn ct).2 st (HTracked (Track now conn ct).1).
Proof.
  unfold handler_ok, Track. destruct (generateSessionID ct) as [sid next]. simpl.
  rewrite lookup_insert_eq. split; [eauto|]. intros _. split; [set_solver|done].
Qed.

Lemma g_step_inv g g' : gstep g g' → g_inv g → g_inv g'.
Proof.
  intros Hstep [Hwf Hm].
  destruct Hstep; cbn [g_upstream g_ct g_handlers g_setter] in *; split;
    cbn [g_upstream g_ct g_handlers g_setter];
    try (by eauto 6 using Track_wf, drop_sessions_wf, update_session_wf with go).
  - by apply handlers_insert.
  - apply handlers_insert; [|apply track_new_ok].
    eapply handlers_shrink; [by apply Track_shrinks|done].
  - apply handlers_insert; [done|]. pose proof (Hm _ _ H) as Hok.
    unfold handler_ok in *. simpl in *. naive_solver.
  - apply handlers_insert; [done|]. exact (Hm _ _ H).
  - apply handlers_insert; [|done]. eapply handlers_shrink; [|done].
    etrans; [apply update_session_shrinks, adderror_keeps|apply Untrack_shrinks].
  - eapply handlers_shrink; [by apply update_session_shrinks|].
    apply handlers_insert; [done|]. exact (Hm _ _ H).
  - apply handlers_insert; [|done]. eapply handlers_shrink; [|done]. eauto with go.
  - eapply handlers_shrink; [|done]. eauto with go.
  - eapply handlers_shrink; [|done]. apply drop_sessions_shrinks.
  - eapply handlers_shrink; [|done]. apply drop_sessions_shrinks.
  - eapply handlers_setter; [|done]. intros sid _ Hin%GetCount_pos. lia.
  - eapply handlers_setter; [|done]. intros sid _ Hin _. by apply elem_of_GetAllSessions.
  - assert (map_Forall (λ _ h, handler_ok up (Close id ct) (SClosing new (l1 ++ id :: l2)) h) hs)
      as Hm' by (eapply handlers_shrink; [apply Close_shrinks|done]).
    eapply handlers_setter; [|exact Hm']. intros sid Ha _ Hin.
    apply Close_active in Ha as [_ Hne]. simpl in *. set_solver.
  - eapply handlers_setter; [|done]. simpl. set_solver.
  - by eapply handlers_write.
Qed.

(** ** Properties *)

(** C14. No stale upstream: in every reachable interleaving of connection handlers,
    clean-ups and upstream switches, a handler whose session is still active
    was routed to the current upstream; so once a switch has finished, every
    client that is still connected talks to the new upstream, and a client
    routed to an older one has its connection closed. *)
Theorem no_stale_upstream (n : Z) (g : gstate) (h : Z) (hd : handler) (sid addr : string) :
  rtc gstep (g_init n) g →
  g_handlers g !! h = Some hd → handler_target hd = Some (sid, addr) →
  (tracked_active (g_ct g) sid → addr = g_upstream g) ∧
  (addr ≠ g_upstream g → ∀ ps, ct_objs (g_ct g) !! sid = Some ps →
     conn_fd (ps_ClientConn ps) ∈ ct_closed (g_ct g)).
Proof.
  intros Hsteps Hh Ht.
  assert (g_inv g) as [Hwf Hm].
  { assert (g_inv (g_init n)) as H0
      by (split; [apply NewConnectionTracker_wf|apply map_Forall_empty]).
    clear Hh. revert H0. induction Hsteps as [|g1 g2 g3 Hst _ IH]; [done|].
    intros Hi. by apply IH, (g_step_inv g1). }
  pose proof (Hm h hd Hh) as Hok. unfold handler_ok in Hok. rewrite Ht in Hok.
  assert (handler_sid hd = Some sid) as Hsid by (destruct hd; simpl in *; congruence).
  rewrite Hsid in Hok. destruct Hok as [_ Hok].
  assert (tracked_active (g_ct g) sid → addr = g_upstream g) as Hact by naive_solver.
  split; [done|]. intros Hne ps Hl. apply (wf_closed _ Hwf sid ps Hl).
  destruct (ps_isActive ps) eqn:Ea; [|done]. destruct Hne. apply Hact. by exists ps.
Qed.

(** A concrete run: a client is routed to the first upstream, then the upstream
    is switched. *)
Definition conn1 : Conn := mkConn 3 "10.0.0.9:5000".
Definition tracker1 : ConnectionTracker := (Track 0 conn1 (NewConnectionTracker 10)).2.
Definition sid1 : string := (Track 0 conn1 (NewConnectionTracker 10)).1.

Definition switched_state : gstate :=
  mkG "10.0.0.2:7687" (Close sid1 tracker1) {[1%Z := HUpstream sid1 "10.0.0.1:7687"]} SIdle.

Lemma switched_state_reachable : rtc gstep (g_init 10) switched_state.
Proof.
  eapply rtc_l; [apply (g_lock "" _ _ "10.0.0.1:7687"); discriminate|].
  eapply rtc_l; [apply g_none; reflexivity|].
  eapply rtc_l; [apply g_write|].
  eapply rtc_l; [by apply (g_spawn _ _ _ _ 1%Z conn1)|].
  eapply rtc_l; [eapply (g_track _ _ _ _ 1%Z conn1 0); [apply lookup_insert_eq|reflexivity]|].
  rewrite insert_insert_eq.
  eapply rtc_l; [eapply (g_read _ _ _ 1%Z); apply lookup_insert_eq|].
  rewrite insert_insert_eq.
  eapply rtc_l; [apply (g_lock _ _ _ "10.0.0.2:7687"); discriminate|].
  eapply rtc_l; [apply g_some; vm_compute; discriminate|].
  eapply rtc_l; [apply g_snapshot|].
  replace (GetAllSessions _) with ([] ++ sid1 :: []) by (vm_compute; reflexivity).
  eapply rtc_l; [apply g_close|].
  eapply rtc_l; [apply g_closed|].
  eapply rtc_l; [apply g_write|].
  apply rtc_refl.
Qed.

Lemma no_stale_upstream_witness :
  conn_fd conn1 ∈ ct_closed (g_ct switched_state).
Proof.
  pose proof (no_stale_upstream 10 switched_state 1 (HUpstream sid1 "10.0.0.1:7687")
    sid1 "10.0.0.1:7687" switched_state_reachable) as H.
  destruct H as [_ H]; [reflexivity|reflexivity|].
  refine (H _ (deactivate (mkSession sid1 conn1 (conn_remote conn1) None 0 0 0 0 true 1048576000 0)) _);
    [discriminate|reflexivity].
Defined.
