(* ===== verification/DataInfo.v ===== *)
(** * Replication health: the data types and the [data_info] parsers of
    [internal/controller/memgraph_client.go]

    [value] is a Go [interface{}] as the Neo4j driver or the YAML decoder
    produces it; a [map[string]interface{}] is an association list with
    distinct keys.  The YAML decoder itself ([gopkg.in/yaml.v3]) is the
    parameter [yaml_unmarshal] of [parseDataInfo]. *)

From Stdlib Require Import SpecFloat.
From S2P Require Import Prelude.
From S2P Require Import GoStrings.
From S2P Require Import GoTime.

#[warnings="-register-all"]
Inductive value :=
  | VNil
  | VBool (b : bool)
  | VInt (z : Z)            (* int *)
  | VInt64 (z : Z)          (* int64 *)
  | VFloat (f : spec_float) (* float64 *)
  | VString (s : string)
  | VMap (kvs : list (string * value))  (* map[string]interface{} *)
  | VOther (type_name : string).

(** [m[key]] with its [exists] flag. *)
Fixpoint map_get (kvs : list (string * value)) (key : string) : option value :=
  match kvs with
  | [] => None
  | (k, v) :: kvs => if bool_decide (k = key) then Some v else map_get kvs key
  end.

(** [fmt.Sprintf("%T", v)] *)
Definition type_name (v : value) : string :=
  match v with
  | VNil => "<nil>"
  | VBool _ => "bool"
  | VInt _ => "int"
  | VInt64 _ => "int64"
  | VFloat _ => "float64"
  | VString _ => "string"
  | VMap _ => "map[string]interface {}"
  | VOther t => t
  end.

Record DataInfoStatus := mkDataInfo {
  di_Behind : Z;
  di_Status : string;
  di_Timestamp : Z;
  di_IsHealthy : bool;
  di_ErrorReason : string;
}.

Record ReplicaInfo := mkReplicaInfo {
  ri_Name : string;
  ri_SocketAddress : string;
  ri_SyncMode : string;
  ri_SystemInfo : string;
  ri_DataInfo : string;
  ri_ParsedDataInfo : option DataInfoStatus;
}.

Record StorageInfo := mkStorageInfo { si_VertexCount : Z; si_EdgeCount : Z }.

(** [assessReplicationHealth] *)
Definition assessReplicationHealth (status : string) (behind : Z) : bool * string :=
  if bool_decide (status = "ready") && bool_decide (0 ≤ behind)%Z then (true, "")
  else if bool_decide (status = "invalid") then (false, "Replication status marked as invalid")
  else if bool_decide (status = "replicating") then
    if bool_decide (behind < 0)%Z then
      (false, "Replication in progress but behind is negative: " +:+ fmt_d behind)
    else (false, "Replication in progress (transitional state)")
  else if bool_decide (behind < 0)%Z then
    (false, "Negative replication lag detected: " +:+ fmt_d behind)
  else if bool_decide (status = "empty") then
    (false, "Empty data_info indicates connection failure")
  else if bool_decide (status = "unknown") || bool_decide (status = "malformed") then
    (false, "Unable to determine replication health")
  else (false, "Unknown replication status: " +:+ status).

Definition assessed (status : string) (behind ts : Z) : DataInfoStatus :=
  let '(healthy, reason) := assessReplicationHealth status behind in
  mkDataInfo behind status ts healthy reason.

Definition malformed (reason : string) : DataInfoStatus :=
  mkDataInfo (-1) "malformed" 0 false reason.

(** ** [parseDataInfo]: the string form, through YAML *)
Section parseDataInfo.
Context (yaml_unmarshal : string → result (list (string * value))).

Definition yaml_behind (m : list (string * value)) : Z :=
  match map_get m "behind" with Some (VInt behind) => behind | _ => -1 end.

Definition yaml_status (m : list (string * value)) : string :=
  match map_get m "status" with Some (VString status) => status | _ => "unknown" end.

Definition yaml_ts (m : list (string * value)) : Z :=
  match map_get m "ts" with Some (VInt ts) => ts | _ => 0 end.

(** The Go function also returns an error, which is always nil. *)
Definition parseDataInfo (dataInfoStr : string) : DataInfoStatus :=
  let dataInfoStr := trim_space dataInfoStr in
  if bool_decide (dataInfoStr = "") then
    mkDataInfo (-1) "unknown" 0 false "Missing data_info field"
  else if bool_decide (dataInfoStr = "{}") then
    mkDataInfo 0 "empty" 0 false "Empty data_info - possible connection failure"
  else
    match yaml_unmarshal dataInfoStr with
    | Err err => malformed ("Unable to parse data_info YAML: " +:+ error_string err)
    | Ok yamlData =>
        match map_get yamlData "memgraph" with
        | None => malformed "Missing 'memgraph' key in data_info"
        | Some (VMap memgraphMap) =>
            assessed (yaml_status memgraphMap) (yaml_behind memgraphMap) (yaml_ts memgraphMap)
        | Some _ => malformed "Invalid memgraph data structure"
        end
    end.
End parseDataInfo.

(** ** [parseDataInfoMap]: the form the driver has already decoded *)

(** [int(v)] for the numeric types the switch accepts. *)
Definition numeric (v : value) : option Z :=
  match v with
  | VInt z => Some z
  | VInt64 z => Some (int64 z)
  | VFloat f => Some (int_of_f64 f)
  | _ => None
  end.

Definition map_ts (m : list (string * value)) : Z :=
  match map_get m "ts" with
  | Some v => default 0%Z (numeric v)
  | None => 0
  end.

Definition parseDataInfoMap (dataInfoMap : list (string * value)) : DataInfoStatus :=
  match map_get dataInfoMap "memgraph" with
  | None => malformed "Missing 'memgraph' key in data_info"
  | Some (VMap memgraphMap) =>
      let behind :=
        match map_get memgraphMap "behind" with
        | Some v => match numeric v with Some z => inl z | None => inr v end
        | None => inl (-1)%Z
        end in
      match behind with
      | inr v => malformed ("Invalid 'behind' value type: " +:+ type_name v)
      | inl behind =>
          let status :=
            match map_get memgraphMap "status" with
            | Some (VString s) => inl s
            | Some v => inr v
            | None => inl "unknown"
            end in
          match status with
          | inr v => malformed ("Invalid 'status' value type: " +:+ type_name v)
          | inl status => assessed status behind (map_ts memgraphMap)
          end
      end
  | Some _ => malformed "Invalid 'memgraph' value type in data_info"
  end.

(** ** Methods of [ReplicaInfo] *)

Definition ri_GetPodName (ri : ReplicaInfo) : string := replace_all "_" "-" (ri_Name ri).

Definition ri_IsHealthy (ri : ReplicaInfo) : bool :=
  match ri_ParsedDataInfo ri with
  | None => false
  | Some di => di_IsHealthy di
  end.

Definition ri_GetHealthReason (ri : ReplicaInfo) : string :=
  match ri_ParsedDataInfo ri with
  | None => "No health information available"
  | Some di => if di_IsHealthy di then "Replica is healthy" else di_ErrorReason di
  end.

Definition ri_RequiresRecovery (ri : ReplicaInfo) : bool :=
  match ri_ParsedDataInfo ri with
  | None => false
  | Some di =>
      if bool_decide (di_Status di = "invalid") then true
      else if bool_decide (di_Status di = "empty") then true
      else if bool_decide (di_Status di ∈ ["malformed"; "parse_error"]) then false
      else if bool_decide (di_Status di = "ready") then false
      else bool_decide (di_Behind di < 0)%Z
  end.

Definition ri_GetRecoveryAction (ri : ReplicaInfo) : string :=
  if ri_IsHealthy ri then "none"
  else
    match ri_ParsedDataInfo ri with
    | None => "investigate"
    | Some di =>
        if bool_decide (di_Status di = "invalid") then "re-register"
        else if bool_decide (di_Status di = "empty") then "restart-pod"
        else if bool_decide (di_Status di ∈ ["malformed"; "parse_error"]) then "investigate"
        else if bool_decide (di_Behind di < -10)%Z then "manual-intervention"
        else "re-register"
    end.

(** ** Lemmas *)

(** A status a parser produces: healthy exactly when it is "ready" and the lag
    is not negative. *)
Definition di_consistent (di : DataInfoStatus) : Prop :=
  di_IsHealthy di = true ↔ di_Status di = "ready" ∧ (0 ≤ di_Behind di)%Z.

Lemma assess_healthy status behind :
  (assessReplicationHealth status behind).1 = true ↔ status = "ready" ∧ (0 ≤ behind)%Z.
Proof.
  unfold assessReplicationHealth.
  repeat case_bool_decide; simpl; naive_solver lia.
Qed.

Lemma assessed_consistent status behind ts : di_consistent (assessed status behind ts).
Proof.
  unfold di_consistent, assessed. pose proof (assess_healthy status behind) as H.
  destruct (assessReplicationHealth status behind). simpl in *. exact H.
Qed.

Lemma malformed_consistent reason : di_consistent (malformed reason).
Proof. unfold di_consistent. simpl. naive_solver. Qed.

Lemma parseDataInfo_consistent yaml s : di_consistent (parseDataInfo yaml s).
Proof.
  unfold parseDataInfo. repeat case_bool_decide; [unfold di_consistent; simpl; naive_solver..|].
  repeat case_match; auto using malformed_consistent, assessed_consistent.
Qed.

Lemma parseDataInfoMap_consistent m : di_consistent (parseDataInfoMap m).
Proof.
  unfold parseDataInfoMap.
  repeat case_match; auto using malformed_consistent, assessed_consistent.
Qed.

(** ** Properties *)

(** Whatever [SHOW REPLICAS] returns, and in whichever of its two forms, a
    replica is reported healthy exactly when its parsed status is "ready" with
    a non-negative lag; and then no recovery is asked for. *)
Theorem parsed_health (yaml : string → result (list (string * value))) (s : string)
    (m : list (string * value)) (di : DataInfoStatus) (ri : ReplicaInfo) :
  di = parseDataInfo yaml s ∨ di = parseDataInfoMap m →
  ri_ParsedDataInfo ri = Some di →
  (ri_IsHealthy ri = true ↔ di_Status di = "ready" ∧ (0 ≤ di_Behind di)%Z) ∧
  (ri_IsHealthy ri = true → ri_RequiresRecovery ri = false ∧ ri_GetRecoveryAction ri = "none").
Proof.
  intros Hdi Hri.
  assert (di_consistent di) as Hc.
  { destruct Hdi as [->| ->]; [apply parseDataInfo_consistent|apply parseDataInfoMap_consistent]. }
  assert (ri_IsHealthy ri = di_IsHealthy di) as Hh by (unfold ri_IsHealthy; by rewrite Hri).
  split; [rewrite Hh; apply Hc|]. intros Htrue. split.
  - rewrite Hh in Htrue. apply Hc in Htrue as [Hs _]. unfold ri_RequiresRecovery.
    rewrite Hri, Hs. done.
  - unfold ri_GetRecoveryAction. by rewrite Htrue.
Qed.

Definition healthy_map : list (string * value) :=
  [("memgraph", VMap [("behind", VInt64 0); ("status", VString "ready"); ("ts", VInt64 2)])].

Definition replica_of (di : DataInfoStatus) : ReplicaInfo :=
  mkReplicaInfo "memgraph_ha_1" "10.0.0.2:10000" "strict_sync" "" "" (Some di).

Lemma parsed_health_witness :
  ri_IsHealthy (replica_of (parseDataInfoMap healthy_map)) = true ∧
  ri_GetRecoveryAction (replica_of (parseDataInfoMap healthy_map)) = "none".
Proof.
  destruct (parsed_health (λ _, Err (OtherErr "")) "" healthy_map
    (parseDataInfoMap healthy_map) (replica_of (parseDataInfoMap healthy_map))) as [H1 H2];
    [by right|reflexivity|].
  assert (ri_IsHealthy (replica_of (parseDataInfoMap healthy_map)) = true) as Ht
    by (apply H1; split; [reflexivity|done]).
  split; [exact Ht|apply (H2 Ht)].
Defined.

(** The fields a [data_info] map carries have the types Memgraph documents. *)
Definition well_typed_memgraph (m : list (string * value)) : Prop :=
  (∀ v, map_get m "behind" = Some v → ∃ z, v = VInt z) ∧
  (∀ v, map_get m "status" = Some v → ∃ s, v = VString s) ∧
  (∀ v, map_get m "ts" = Some v → ∃ z, v = VInt z).

(** The two parsers agree: when the YAML decoder yields a map whose fields are
    well typed, parsing the text gives the same status as parsing the map. *)
Theorem parsers_agree (yaml : string → result (list (string * value))) (s : string)
    (m mm : list (string * value)) :
  trim_space s ≠ "" → trim_space s ≠ "{}" →
  yaml (trim_space s) = Ok m →
  map_get m "memgraph" = Some (VMap mm) → well_typed_memgraph mm →
  parseDataInfo yaml s = parseDataInfoMap m.
Proof.
  intros Hne Hne2 Hy Hm (Hb & Hs & Ht). unfold parseDataInfo, parseDataInfoMap.
  rewrite !bool_decide_eq_false_2 by done. rewrite Hy, Hm.
  unfold yaml_behind, yaml_status, yaml_ts, map_ts.
  destruct (map_get mm "behind") as [v1|]; [destruct (Hb v1 eq_refl) as [b ->]|];
    (destruct (map_get mm "status") as [v2|]; [destruct (Hs v2 eq_refl) as [st ->]|]);
    (destruct (map_get mm "ts") as [v3|]; [destruct (Ht v3 eq_refl) as [t ->]|]); done.
Qed.

Definition yaml_int_map : list (string * value) :=
  [("memgraph", VMap [("behind", VInt (-20)); ("status", VString "invalid"); ("ts", VInt 0)])].

Definition invalid_text : string := " {memgraph: {behind: -20, status: invalid, ts: 0}}".

Lemma parsers_agree_witness :
  parseDataInfo (λ _, Ok yaml_int_map) invalid_text = parseDataInfoMap yaml_int_map.
Proof.
  apply (parsers_agree _ _ _
    [("behind", VInt (-20)); ("status", VString "invalid"); ("ts", VInt 0)]);
    [vm_compute; discriminate|vm_compute; discriminate|reflexivity|reflexivity|].
  split; [|split]; intros v Hv; cbn in Hv; injection Hv as <-; eauto.
Defined.
