(* ===== verification/World.v ===== *)
(** * The world outside [src/]

    [World W] collects what the controller calls but does not define: the Neo4j
    driver, the Kubernetes API and informer cache, YAML and the text forms of
    values, environment variables, the clock, and the two choices Go leaves
    open (which ready case [select] takes, and in which order a [for range]
    visits a map).  Every operation may change the world [W].  Nothing is
    assumed here; a theorem that relies on documented behaviour of one of these
    states it as a hypothesis.

    [Net] is the part of the state every Memgraph operation works on: the
    connection pool, the world, and the trace of the queries sent, of the
    ConfigMap writes and of the gateway switches made so far. *)

From S2P Require Import Prelude.
From S2P Require Import GoStrings.
From S2P Require Import DataInfo.
From S2P Require Import Pods.

(** [neo4j.Record], through its [Get] method. *)
Abbreviation record := (gmap string value).

(** Which case of the [select] in [RunQueryWithTimeout] fires; on a timeout or
    a cancellation, whether the abandoned query still ran. *)
Inductive select_outcome :=
  | SelResult
  | SelTimeout (ran : bool)
  | SelDone (ran : bool) (err : error).

(** The content of the state ConfigMap. *)
Abbreviation cm_data := (gmap string string).

Class World (W : Type) := {
  (* github.com/neo4j/neo4j-go-driver: drivers are handles *)
  w_new_driver : string → string → string → W → result Z * W;
  w_verify : Z → W → option error * W;
  w_close_driver : Z → W → option error * W;
  w_session_run : Z → string → W → result (list record) * W;
  w_select : string → string → Z → W → select_outcome * W;
  (* text and encodings *)
  w_yaml_unmarshal : string → result (list (string * value));
  w_show_value : value → string;
  (* Kubernetes API *)
  w_cm_get : string → string → W → result cm_data * W;
  w_cm_update : string → string → cm_data → option OwnerReference → W → option error * W;
  w_cm_create : string → string → cm_data → option OwnerReference → W → option error * W;
  w_is_not_found : error → bool;
  w_pod_get : string → string → W → result Pod * W;
  w_replicaset_owners : string → string → W → result (list OwnerReference) * W;
  w_lease_holder : string → string → W → result (option string) * W;
  (* informer cache: an object that is not a pod is None *)
  w_store_list : W → list (option Pod);
  w_store_get : string → W → result (option (option Pod));
  (* process and runtime *)
  w_getenv : string → string;
  w_hostname : result string;
  w_now : W → Z * W;
  w_order : list string → W → list string * W;
}.

(** The only law of the Go runtime the theorems need: a [for range] over a map
    visits every key once. *)
Class WorldOrder (W : Type) `{World W} : Prop :=
  w_order_perm keys w : (w_order keys w).1 ≡ₚ keys.

(** An index that some read of a ConfigMap yields. *)
Definition stored_index {W} `{World W} (i : Z) : Prop :=
  ∃ ns name w w' cm str, w_cm_get ns name w = (Ok cm, w') ∧
    cm !! "targetMainIndex" = Some str ∧ sscanf_d str = Ok i.

(** ** Observable effects *)

Inductive io :=
  | IoQuery (addr query : string)        (* a query sent to a Bolt address *)
  | IoConfigMap (data : cm_data)         (* the state ConfigMap was written *)
  | IoGateway (read : bool) (addr : string)  (* upstream set on a gateway *)
  | IoDisconnect (read : bool)           (* all clients of a gateway dropped *)
  | IoRefresh.                           (* node identities re-read from the pods *)

Global Instance io_eq_dec : EqDecision io.
Proof. solve_decision. Defined.

Class HasTrace (S : Type) := trace_of : S → list io.

(** [emits P]: the step only appended events satisfying [P] to the trace. *)
Definition emits {S} `{HasTrace S} (P : io → Prop) : relation S := λ s s',
  ∃ evs, trace_of s' = trace_of s ++ evs ∧ Forall P evs.

Global Instance emits_preorder {S} `{HasTrace S} P : PreOrder (emits (S := S) P).
Proof.
  split.
  - intros s. exists []. split; [by rewrite app_nil_r|constructor].
  - intros s1 s2 s3 (e1 & H1 & F1) (e2 & H2 & F2). exists (e1 ++ e2).
    split; [|by apply Forall_app]. rewrite app_assoc. by rewrite <- H1.
Qed.

Lemma emits_mono {S} `{HasTrace S} (P Q : io → Prop) (s s' : S) :
  (∀ e, P e → Q e) → emits P s s' → emits Q s s'.
Proof. intros HPQ (evs & H1 & HF). exists evs. split; [done|]. eapply Forall_impl; eauto. Qed.

Lemma emits_same {S} `{HasTrace S} P (s s' : S) : trace_of s' = trace_of s → emits P s s'.
Proof. intros Heq. exists []. split; [by rewrite app_nil_r|constructor]. Qed.

(** [sends e ok m]: a run of [m] that returns has sent exactly [e], or it has
    sent nothing and its result does not count as success. *)
Definition sends {S A} `{HasTrace S} (e : io) (ok : A → bool) (m : M S A) : Prop :=
  ∀ s a s', m s = (Ret a, s') →
    trace_of s' = trace_of s ++ [e] ∨ (trace_of s' = trace_of s ∧ ok a = false).

(** Pure work after the query, which does not turn an error into a success. *)
Lemma sends_then {S A B} `{HasTrace S} e (ok : A → bool) (ok' : B → bool) (m : M S A)
    (f : A → M S B) :
  sends e ok m →
  (∀ a s b s', f a s = (Ret b, s') →
     trace_of s' = trace_of s ∧ (ok a = false → ok' b = false)) →
  sends e ok' (m ≫= f).
Proof.
  intros Hm Hf s b s' Hr. inv_bind Hr as a s1 H1.
  destruct (Hf _ _ _ _ Hr) as [HT Hok]. rewrite HT.
  destruct (Hm _ _ _ H1) as [->|[-> ?]]; auto.
Qed.

(** ** The network state *)

Record ConnectionPool := mkPool {
  cp_drivers : gmap string Z;       (* boltAddress -> driver *)
  cp_podIPs : gmap string string;   (* podName -> currentIP *)
}.

Record Net (W : Type) := mkNet {
  net_pool : ConnectionPool;
  net_world : W;
  net_trace : list io;
}.
Arguments mkNet {W}.
Arguments net_pool {W}.
Arguments net_world {W}.
Arguments net_trace {W}.

Global Instance Net_trace {W} : HasTrace (Net W) := net_trace.

Definition set_pool {W} (f : ConnectionPool → ConnectionPool) (n : Net W) : Net W :=
  mkNet (f (net_pool n)) (net_world n) (net_trace n).
Definition set_world {W} (w : W) (n : Net W) : Net W :=
  mkNet (net_pool n) w (net_trace n).
Definition add_event {W} (e : io) (n : Net W) : Net W :=
  mkNet (net_pool n) (net_world n) (net_trace n ++ [e]).

(** Call an operation of the world. *)
Definition call {W A} (f : W → A * W) : M (Net W) A := λ n,
  let '(a, w) := f (net_world n) in (Ret a, set_world w n).

Definition emit {W} (e : io) : M (Net W) () := modify (add_event e).

(** [for k := range m]: the keys of a map in the order the runtime picks. *)
Definition range_keys {W V} `{World W} (m : gmap string V) : M (Net W) (list string) :=
  call (w_order ((map_to_list m).*1)).

(** ** Frames of the primitive steps *)

Section frames.
Context {W : Type}.

(** A relation on the network state that only looks at the pool and the
    trace is kept by every call of the world. *)
Lemma keeps_call {A} (R : relation (Net W)) (f : W → A * W) :
  (∀ n w, R n (set_world w n)) → keeps R (call f).
Proof. intros HR n. unfold call. destruct (f (net_world n)). apply HR. Qed.

Lemma keeps_call_emits {A} P (f : W → A * W) : keeps (emits P) (call f).
Proof. apply keeps_call. intros n w. by apply emits_same. Qed.

Lemma keeps_emit (P : io → Prop) e : P e → keeps (emits P) (emit (W := W) e).
Proof. intros He n. exists [e]. split; [done|]. constructor; [done|constructor]. Qed.

Lemma keeps_set_pool P (f : ConnectionPool → ConnectionPool) :
  keeps (emits P) (modify (set_pool (W := W) f)).
Proof. intros n. by apply emits_same. Qed.

Lemma keeps_range_keys {V} `{World W} P (m : gmap string V) :
  keeps (emits P) (range_keys m).
Proof. apply keeps_call_emits. Qed.
End frames.

#[export] Hint Resolve keeps_call_emits keeps_emit keeps_set_pool keeps_range_keys : keeps.
#[export] Hint Resolve emits_preorder : keeps.

(** The network operations never panic, wherever they start. *)
Abbreviation total m := (safe anywhere m anything).

Lemma safe_call {W A} (f : W → A * W) : total (call f).
Proof. intros n _. unfold call. destruct (f (net_world n)) as [a w]. by exists a, (set_world w n). Qed.

Lemma safe_update {S} (f : S → S) : total (modify f).
Proof. by apply safe_modify. Qed.

Lemma safe_emit {W} e : total (emit (W := W) e).
Proof. apply safe_update. Qed.

#[export] Hint Resolve safe_call safe_update safe_emit : safe.
