(* ===== verification/ConnectionPool.v ===== *)
(** * The Neo4j connection pool: [internal/controller/connection_pool.go]

    One driver per Bolt address.  The mutex makes each map access atomic; the
    operations below run one at a time. *)

From S2P Require Import Prelude.
From S2P Require Import GoStrings.
From S2P Require Import GoTime.
From S2P Require Import DataInfo.
From S2P Require Import Pods.
From S2P Require Import Config.
From S2P Require Import World.

Section ConnectionPool.
Context {W : Type} `{World W}.
Context (config : Config).

Definition NewConnectionPool : ConnectionPool := mkPool ∅ ∅.

Definition set_drivers (f : gmap string Z → gmap string Z) (cp : ConnectionPool) : ConnectionPool :=
  mkPool (f (cp_drivers cp)) (cp_podIPs cp).
Definition set_podIPs (f : gmap string string → gmap string string) (cp : ConnectionPool)
    : ConnectionPool :=
  mkPool (cp_drivers cp) (f (cp_podIPs cp)).

(** [cp.drivers[boltAddress]] *)
Definition lookup_driver (boltAddress : string) : M (Net W) (option Z) :=
  gets (λ n, cp_drivers (net_pool n) !! boltAddress).

Definition removeDriver (boltAddress : string) : M (Net W) (option error) :=
  d ← lookup_driver boltAddress;
  match d with
  | Some driver =>
      check? call (w_close_driver driver) orelse err =>
        mret (Some (Wrapf ("failed to close driver for " +:+ boltAddress) err)) in
      _ ← modify (set_pool (set_drivers (delete boltAddress)));
      mret None
  | None => mret None
  end.

Definition createDriver (boltAddress : string) : M (Net W) (result Z) :=
  d ← lookup_driver boltAddress;
  match d with
  | Some driver => mret (Ok driver)
  | None =>
      let? driver := call (w_new_driver ("bolt://" +:+ boltAddress)
                             (MemgraphUser config) (MemgraphPassword config)) orelse err =>
        mret (Err (Wrapf ("failed to create driver for " +:+ boltAddress) err)) in
      check? call (w_verify driver) orelse err =>
        (_ ← call (w_close_driver driver);
         mret (Err (Wrapf ("failed to verify connectivity to " +:+ boltAddress) err))) in
      _ ← modify (set_pool (set_drivers <[boltAddress := driver]>));
      mret (Ok driver)
  end.

Definition GetDriver (boltAddress : string) : M (Net W) (result Z) :=
  if bool_decide (boltAddress = "") then mret (Err (Errorf "bolt address is empty"))
  else
    d ← lookup_driver boltAddress;
    match d with
    | Some driver =>
        err ← call (w_verify driver);
        match err with
        | None => mret (Ok driver)
        | Some _ =>
            _ ← removeDriver boltAddress;
            createDriver boltAddress
        end
    | None => createDriver boltAddress
    end.

Definition UpdatePodIP (podName newIP : string) : M (Net W) () :=
  existing ← gets (λ n, cp_podIPs (net_pool n) !! podName);
  _ ← match existing with
      | Some existingIP =>
          if bool_decide (existingIP ≠ newIP) then
            let oldBoltAddress := existingIP +:+ ":7687" in
            d ← lookup_driver oldBoltAddress;
            match d with
            | Some driver =>
                _ ← call (w_close_driver driver);
                modify (set_pool (set_drivers (delete oldBoltAddress)))
            | None => mret ()
            end
          else mret ()
      | None => mret ()
      end;
  modify (set_pool (set_podIPs <[podName := newIP]>)).

Definition InvalidatePodConnection (podName : string) : M (Net W) () :=
  existing ← gets (λ n, cp_podIPs (net_pool n) !! podName);
  match existing with
  | Some ip =>
      let boltAddress := ip +:+ ":7687" in
      d ← lookup_driver boltAddress;
      match d with
      | Some driver =>
          _ ← call (w_close_driver driver);
          modify (set_pool (set_drivers (delete boltAddress)))
      | None => mret ()
      end
  | None => mret ()
  end.

Definition cp_InvalidateConnection (boltAddress : string) : M (Net W) (option error) :=
  removeDriver boltAddress.

Definition cp_Close : M (Net W) () :=
  drivers ← gets (λ n, cp_drivers (net_pool n));
  keys ← range_keys drivers;
  _ ← forM_ keys (λ boltAddress,
        match drivers !! boltAddress with
        | Some driver => _ ← call (w_close_driver driver); mret ()
        | None => mret ()
        end);
  modify (set_pool (λ _, mkPool ∅ ∅)).

(** Get a driver, open a session, run the query and collect its records.  The
    query is an event of the trace: it reaches the server. *)
Definition RunQuery (boltAddress query : string) : M (Net W) (result (list record)) :=
  let? driver := GetDriver boltAddress orelse err =>
    mret (Err (Wrapf ("failed to get driver for " +:+ boltAddress) err)) in
  _ ← emit (IoQuery boltAddress query);
  call (w_session_run driver query).

(** The query runs in its own goroutine; [select] takes its result, or the
    timeout, or the cancelled context, and then the goroutine's work may or may
    not have been done. *)
Definition RunQueryWithTimeout (boltAddress query : string) (timeout : Z)
    : M (Net W) (result (list record)) :=
  if bool_decide (boltAddress = "") then mret (Err (Errorf "bolt address is empty"))
  else
    sel ← call (w_select boltAddress query timeout);
    match sel with
    | SelResult => RunQuery boltAddress query
    | SelTimeout ran =>
        _ ← (if ran : bool then _ ← RunQuery boltAddress query; mret () else mret ());
        mret (Err (Errorf ("bolt query timed out after " +:+ fmt_d timeout)))
    | SelDone ran err =>
        _ ← (if ran : bool then _ ← RunQuery boltAddress query; mret () else mret ());
        mret (Err err)
    end.

(** ** Frames *)

Lemma keeps_lookup_driver P a : keeps (emits P) (lookup_driver a).
Proof. apply keeps_gets. typeclasses eauto. Qed.
#[local] Hint Resolve keeps_lookup_driver : keeps.

Lemma keeps_removeDriver P a : keeps (emits P) (removeDriver a).
Proof. unfold removeDriver. solve_keeps. Qed.
#[local] Hint Resolve keeps_removeDriver : keeps.

Lemma keeps_createDriver P a : keeps (emits P) (createDriver a).
Proof. unfold createDriver. solve_keeps. Qed.
#[local] Hint Resolve keeps_createDriver : keeps.

Lemma keeps_GetDriver P a : keeps (emits P) (GetDriver a).
Proof. unfold GetDriver. solve_keeps. Qed.
#[local] Hint Resolve keeps_GetDriver : keeps.

Lemma keeps_UpdatePodIP P p ip : keeps (emits P) (UpdatePodIP p ip).
Proof. unfold UpdatePodIP. solve_keeps. Qed.

Lemma keeps_InvalidatePodConnection P p : keeps (emits P) (InvalidatePodConnection p).
Proof. unfold InvalidatePodConnection. solve_keeps. Qed.

Lemma keeps_cp_Close P : keeps (emits P) cp_Close.
Proof. unfold cp_Close. solve_keeps. Qed.

(** A query run against an address is the only event of its run. *)
Lemma keeps_RunQuery (P : io → Prop) a q : P (IoQuery a q) → keeps (emits P) (RunQuery a q).
Proof. intros HP. unfold RunQuery. solve_keeps. Qed.
#[local] Hint Resolve keeps_RunQuery : keeps.

Lemma keeps_RunQueryWithTimeout (P : io → Prop) a q t :
  P (IoQuery a q) → keeps (emits P) (RunQueryWithTimeout a q t).
Proof. intros HP. unfold RunQueryWithTimeout. solve_keeps. Qed.

(** A query that succeeded was sent, once. *)
Lemma sends_RunQuery a q : sends (IoQuery a q) is_ok (RunQuery a q).
Proof.
  intros n r n' Hr. unfold RunQuery in Hr. inv_bind Hr as d n1 Hd.
  assert (trace_of n1 = trace_of n) as HT.
  { destruct (keeps_run _ _ _ _ _ (keeps_GetDriver (λ _, False) a) Hd) as (evs & HT & HF).
    destruct evs; [by rewrite app_nil_r in HT|by inversion HF]. }
  destruct d as [d|e].
  - inv_bind Hr as u n2 Hu. injection Hu as _ <-. unfold call in Hr.
    destruct (w_session_run _ _ _). injection Hr as <- <-. left. unfold trace_of, Net_trace in *.
    simpl. by rewrite HT.
  - injection Hr as <- <-. by right.
Qed.

Lemma sends_RunQueryWithTimeout a q t : sends (IoQuery a q) is_ok (RunQueryWithTimeout a q t).
Proof.
  intros n r n' Hr. unfold RunQueryWithTimeout in Hr. case_bool_decide.
  { injection Hr as <- <-. by right. }
  inv_bind Hr as sel n1 Hs. unfold call in Hs. destruct (w_select _ _ _ _) as [sel' w].
  injection Hs as -> <-. set (n1 := set_world w n) in *.
  change (trace_of n) with (trace_of n1).
  destruct sel as [|ran|ran err]; [by eapply sends_RunQuery| |];
    (destruct ran; [inv_bind Hr as u n2 Hu; inv_bind Hu as x n3 Hx; injection Hu as <- <-;
       injection Hr as <- <-; apply sends_RunQuery in Hx as [Hx|[Hx _]]; auto
     |inv_bind Hr as u n2 Hu; injection Hu as <- <-; injection Hr as <- <-; auto]).
Qed.

(** ** No operation of the pool panics *)

Lemma safe_lookup_driver a : total (lookup_driver a).
Proof. unfold lookup_driver. solve_safe. Qed.
#[local] Hint Resolve safe_lookup_driver : safe.

Lemma safe_removeDriver a : total (removeDriver a).
Proof. unfold removeDriver. solve_safe. Qed.
#[local] Hint Resolve safe_removeDriver : safe.

Lemma safe_createDriver a : total (createDriver a).
Proof. unfold createDriver. solve_safe. Qed.
#[local] Hint Resolve safe_createDriver : safe.

Lemma safe_GetDriver a : total (GetDriver a).
Proof. unfold GetDriver. solve_safe. Qed.
#[local] Hint Resolve safe_GetDriver : safe.

Lemma safe_UpdatePodIP p ip : total (UpdatePodIP p ip).
Proof. unfold UpdatePodIP. solve_safe. Qed.

Lemma safe_InvalidatePodConnection p : total (InvalidatePodConnection p).
Proof. unfold InvalidatePodConnection. solve_safe. Qed.

Lemma safe_RunQuery a q : total (RunQuery a q).
Proof. unfold RunQuery. solve_safe. Qed.
#[local] Hint Resolve safe_RunQuery : safe.

Lemma safe_RunQueryWithTimeout a q t : total (RunQueryWithTimeout a q t).
Proof. unfold RunQueryWithTimeout. solve_safe. Qed.

End ConnectionPool.

#[export] Hint Resolve keeps_lookup_driver keeps_removeDriver keeps_createDriver keeps_GetDriver
  keeps_UpdatePodIP keeps_InvalidatePodConnection keeps_cp_Close keeps_RunQuery
  keeps_RunQueryWithTimeout : keeps.
#[export] Hint Resolve safe_lookup_driver safe_removeDriver safe_createDriver safe_GetDriver
  safe_UpdatePodIP safe_InvalidatePodConnection safe_RunQuery safe_RunQueryWithTimeout : safe.

(** ** Properties *)

Section GetDriverSpec.
Context {W : Type} `{World W}.
Context (config : Config).

(** What an operation on the entry of [a] leaves in the pool. *)
Definition only_entry (a : string) (n n' : Net W) (r : option Z) : Prop :=
  cp_drivers (net_pool n') !! a = r ∧
  (∀ b, b ≠ a → cp_drivers (net_pool n') !! b = cp_drivers (net_pool n) !! b) ∧
  cp_podIPs (net_pool n') = cp_podIPs (net_pool n).

Lemma call_pool {A} (f : W → A * W) n a n' : call f n = (Ret a, n') → net_pool n' = net_pool n.
Proof. unfold call. destruct (f _). by intros [= _ <-]. Qed.

Lemma createDriver_spec a n r n' :
  createDriver config a n = (Ret r, n') →
  only_entry a n n' (match r with Ok d => Some d | Err _ => None end).
Proof.
  unfold createDriver. intros Hr. inv_bind Hr as d n1 H1. injection H1 as <- <-.
  destruct (cp_drivers _ !! a) as [d|] eqn:Hd; [by injection Hr as <- <-|].
  inv_bind Hr as nd n1 H1. apply call_pool in H1.
  destruct nd as [nd|e]; [|injection Hr as <- <-; unfold only_entry; by rewrite H1].
  inv_bind Hr as v n2 H2. apply call_pool in H2. destruct v as [e|].
  - inv_bind Hr as c n3 H3. apply call_pool in H3. injection Hr as <- <-.
    unfold only_entry. by rewrite H3, H2, H1.
  - inv_bind Hr as u n3 H3. injection H3 as _ <-. injection Hr as <- <-.
    unfold only_entry. simpl. rewrite H2, H1. split; [apply lookup_insert_eq|]. split; [|done].
    intros b Hb. by rewrite lookup_insert_ne.
Qed.

Lemma removeDriver_spec a n r n' :
  removeDriver a n = (Ret r, n') →
  only_entry a n n' (match r with Some _ => cp_drivers (net_pool n) !! a | None => None end).
Proof.
  unfold removeDriver. intros Hr. inv_bind Hr as d n1 H1. injection H1 as <- <-.
  destruct (cp_drivers _ !! a) as [d|] eqn:Hd; [|by injection Hr as <- <-].
  inv_bind Hr as e n1 H1. apply call_pool in H1. destruct e as [e|].
  - injection Hr as <- <-. unfold only_entry. by rewrite H1.
  - inv_bind Hr as u n2 H2. injection H2 as _ <-. injection Hr as <- <-.
    unfold only_entry. simpl. rewrite H1. split; [apply lookup_delete_eq|]. split; [|done].
    intros b Hb. by rewrite lookup_delete_ne.
Qed.

(** A driver handed out is the pooled one: when GetDriver succeeds, the
    driver is the pool's entry for that address, and when it fails the address
    has no entry; entries of other addresses and the known pod addresses are
    never touched. *)
Theorem GetDriver_spec a n r n' :
  GetDriver config a n = (Ret r, n') → a ≠ "" →
  only_entry a n n' (match r with Ok d => Some d | Err _ => None end).
Proof.
  unfold GetDriver. intros Hr Ha. rewrite bool_decide_eq_false_2 in Hr by done.
  inv_bind Hr as d n1 H1. injection H1 as <- <-.
  destruct (cp_drivers _ !! a) as [d|] eqn:Hd; [|by apply createDriver_spec in Hr].
  inv_bind Hr as v n1 H1. apply call_pool in H1. destruct v as [e|].
  - inv_bind Hr as u n2 H2. apply removeDriver_spec in H2 as (_ & Ho & Hip).
    apply createDriver_spec in Hr as (Hr1 & Ho1 & Hip1). split; [done|].
    split; [|by rewrite Hip1, Hip, H1]. intros b Hb. by rewrite Ho1, Ho, H1.
  - injection Hr as <- <-. unfold only_entry. by rewrite H1.
Qed.
End GetDriverSpec.
