(* ===== verification/MemgraphClient.v ===== *)
(** * Queries to Memgraph: [internal/controller/memgraph_client.go], lines 321-587

    Each method runs one query through the connection pool and decodes the
    records.  The client has no state besides its pool, which is the
    [net_pool] of the network state. *)

From S2P Require Import Prelude.
From S2P Require Import GoStrings.
From S2P Require Import GoTime.
From S2P Require Import DataInfo.
From S2P Require Import Pods.
From S2P Require Import Config.
From S2P Require Import World.
From S2P Require Import ConnectionPool.

(** The query texts. *)
Definition q_show_role : string := "SHOW REPLICATION ROLE".
Definition q_show_replicas : string := "SHOW REPLICAS".
Definition q_ping : string := "RETURN 1".
Definition q_promote : string := "SET REPLICATION ROLE TO MAIN".
Definition q_demote : string := "SET REPLICATION ROLE TO REPLICA WITH PORT 10000".
Definition q_storage : string := "SHOW STORAGE INFO".

Definition dquote : string := String "034"%char EmptyString.

Definition q_register (replicaName syncMode replicaAddress : string) : string :=
  "REGISTER REPLICA " +:+ replicaName +:+ " " +:+ syncMode +:+ " TO " +:+
  dquote +:+ replicaAddress +:+ dquote.
Definition q_drop (replicaName : string) : string := "DROP REPLICA " +:+ replicaName.

Section MemgraphClient.
Context {W : Type} `{World W}.
Context (config : Config).

Definition query_timeout : Z := 5 * Second.

Definition QueryReplicationRole (boltAddress : string) : M (Net W) (result string) :=
  let? records := RunQueryWithTimeout config boltAddress q_show_role query_timeout orelse err =>
    mret (Err (Wrapf ("failed to query replication role from " +:+ boltAddress) err)) in
  match records with
  | [] => mret (Err (Errorf "no results returned from SHOW REPLICATION ROLE"))
  | record :: _ =>
      match record !! "replication role" with
      | None => mret (Err (Errorf "replication role not found in result"))
      | Some (VString roleStr) => mret (Ok roleStr)
      | Some role => mret (Err (Errorf ("replication role is not a string: " +:+ type_name role)))
      end
  end.

(** A text field of a record, empty when missing or not a string. *)
Definition string_field (r : record) (key : string) : string :=
  match r !! key with Some (VString s) => s | _ => "" end.

(** The [data_info] field of a record: its text and its parsed form. *)
Definition data_info_field (r : record) : string * DataInfoStatus :=
  match r !! "data_info" with
  | Some (VString dataInfoStr) => (dataInfoStr, parseDataInfo w_yaml_unmarshal dataInfoStr)
  | Some (VMap dataInfoMap) => (w_show_value (VMap dataInfoMap), parseDataInfoMap dataInfoMap)
  | Some dataInfo =>
      (w_show_value dataInfo,
       mkDataInfo (-1) "type_error" 0 false
         ("data_info field has unexpected type: " +:+ type_name dataInfo))
  | None =>
      ("", mkDataInfo (-1) "missing" 0 false
             "data_info field not present in SHOW REPLICAS output")
  end.

Definition replica_of_record (r : record) : ReplicaInfo :=
  let '(text, parsed) := data_info_field r in
  mkReplicaInfo (string_field r "name") (string_field r "socket_address")
    (string_field r "sync_mode") (string_field r "system_info") text (Some parsed).

Definition QueryReplicas (boltAddress : string) : M (Net W) (result (list ReplicaInfo)) :=
  let? records := RunQueryWithTimeout config boltAddress q_show_replicas query_timeout orelse err =>
    mret (Err (Wrapf ("failed to query replicas from " +:+ boltAddress) err)) in
  mret (Ok (replica_of_record <$> records)).

Definition mc_Ping (boltAddress : string) (timeout : Z) : M (Net W) (option error) :=
  let? _r := RunQueryWithTimeout config boltAddress q_ping timeout orelse err =>
    mret (Some (Wrapf ("failed to ping " +:+ boltAddress) err)) in
  mret None.

Definition SetReplicationRoleToMain (boltAddress : string) : M (Net W) (option error) :=
  let? _r := RunQueryWithTimeout config boltAddress q_promote query_timeout orelse err =>
    mret (Some (Wrapf ("failed to set replication role to MAIN for " +:+ boltAddress) err)) in
  mret None.

Definition SetReplicationRoleToReplica (boltAddress : string) : M (Net W) (option error) :=
  let? _r := RunQueryWithTimeout config boltAddress q_demote query_timeout orelse err =>
    mret (Some (Wrapf ("failed to set replication role to REPLICA for " +:+ boltAddress) err)) in
  mret None.

Definition mc_RegisterReplica (mainBoltAddress replicaName replicaAddress syncMode : string)
    : M (Net W) (option error) :=
  if bool_decide (mainBoltAddress = "") then mret (Some (Errorf "main bolt address is empty"))
  else if bool_decide (replicaName = "") then mret (Some (Errorf "replica name is empty"))
  else if bool_decide (replicaAddress = "") then mret (Some (Errorf "replica address is empty"))
  else if bool_decide (syncMode ≠ "STRICT_SYNC") && bool_decide (syncMode ≠ "ASYNC") then
    mret (Some (Errorf ("invalid sync mode: " +:+ syncMode +:+ " (must be STRICT_SYNC or ASYNC)")))
  else
    let? _r := RunQueryWithTimeout config mainBoltAddress
                 (q_register replicaName syncMode replicaAddress) query_timeout orelse err =>
      mret (Some (Wrapf ("failed to register replica " +:+ replicaName) err)) in
    mret None.

Definition mc_DropReplica (mainBoltAddress replicaName : string) : M (Net W) (option error) :=
  let? _r := RunQueryWithTimeout config mainBoltAddress (q_drop replicaName) query_timeout
    orelse err => mret (Some (Wrapf ("failed to drop replica " +:+ replicaName) err)) in
  mret None.

(** One record of [SHOW STORAGE INFO] folded into the counts so far. *)
Definition storage_of_record (si : StorageInfo) (r : record) : StorageInfo :=
  let si := match r !! "storage info" with Some (VString _) => mkStorageInfo 0 0 | _ => si end in
  let si := match r !! "vertex_count" with
            | Some (VInt64 count) => mkStorageInfo count (si_EdgeCount si)
            | _ => si
            end in
  match r !! "edge_count" with
  | Some (VInt64 count) => mkStorageInfo (si_VertexCount si) count
  | _ => si
  end.

Definition mc_QueryStorageInfo (boltAddress : string) : M (Net W) (result StorageInfo) :=
  if bool_decide (boltAddress = "") then mret (Err (Errorf "bolt address is empty"))
  else
    let? records := RunQueryWithTimeout config boltAddress q_storage query_timeout orelse err =>
      mret (Err (Wrapf "failed to execute SHOW STORAGE INFO" err)) in
    mret (Ok (foldl storage_of_record (mkStorageInfo 0 0) records)).

(** ** Frames: the only query a method sends is its own *)

Lemma keeps_QueryReplicationRole (P : io → Prop) a :
  P (IoQuery a q_show_role) → keeps (emits P) (QueryReplicationRole a).
Proof. intros HP. unfold QueryReplicationRole. solve_keeps. Qed.

Lemma keeps_QueryReplicas (P : io → Prop) a :
  P (IoQuery a q_show_replicas) → keeps (emits P) (QueryReplicas a).
Proof. intros HP. unfold QueryReplicas. solve_keeps. Qed.

Lemma keeps_mc_Ping (P : io → Prop) a t : P (IoQuery a q_ping) → keeps (emits P) (mc_Ping a t).
Proof. intros HP. unfold mc_Ping. solve_keeps. Qed.

Lemma keeps_SetReplicationRoleToMain (P : io → Prop) a :
  P (IoQuery a q_promote) → keeps (emits P) (SetReplicationRoleToMain a).
Proof. intros HP. unfold SetReplicationRoleToMain. solve_keeps. Qed.

Lemma keeps_SetReplicationRoleToReplica (P : io → Prop) a :
  P (IoQuery a q_demote) → keeps (emits P) (SetReplicationRoleToReplica a).
Proof. intros HP. unfold SetReplicationRoleToReplica. solve_keeps. Qed.

Lemma keeps_mc_RegisterReplica (P : io → Prop) a n d m :
  P (IoQuery a (q_register n m d)) → keeps (emits P) (mc_RegisterReplica a n d m).
Proof. intros HP. unfold mc_RegisterReplica. solve_keeps. Qed.

Lemma keeps_mc_DropReplica (P : io → Prop) a n :
  P (IoQuery a (q_drop n)) → keeps (emits P) (mc_DropReplica a n).
Proof. intros HP. unfold mc_DropReplica. solve_keeps. Qed.

Lemma keeps_mc_QueryStorageInfo (P : io → Prop) a :
  P (IoQuery a q_storage) → keeps (emits P) (mc_QueryStorageInfo a).
Proof. intros HP. unfold mc_QueryStorageInfo. solve_keeps. Qed.

(** Every replica the client reports carries a parsed health status. *)
Lemma replica_of_record_parsed r : is_Some (ri_ParsedDataInfo (replica_of_record r)).
Proof. unfold replica_of_record. destruct (data_info_field r). eauto. Qed.

Lemma replica_of_record_consistent r di :
  ri_ParsedDataInfo (replica_of_record r) = Some di → di_consistent di.
Proof.
  unfold replica_of_record, data_info_field.
  assert (∀ b s t e, s ≠ "ready" → di_consistent (mkDataInfo b s t false e)) as Hbad.
  { intros b s t e Hs. unfold di_consistent. simpl. naive_solver. }
  destruct (r !! "data_info") as [[]|]; simpl; intros [= <-];
    auto using parseDataInfo_consistent, parseDataInfoMap_consistent; by apply Hbad.
Qed.

(** What each of the queries below sends, and when it can claim success. *)
Ltac solve_sends :=
  eapply sends_then; [apply sends_RunQueryWithTimeout|];
  intros r0 n0 b0 n0' Hr0; repeat case_match; simplify_eq/=; injection Hr0 as <- <-; by split.

Lemma sends_QueryReplicationRole a : sends (IoQuery a q_show_role) is_ok (QueryReplicationRole a).
Proof. unfold QueryReplicationRole. solve_sends. Qed.

Lemma sends_QueryReplicas a : sends (IoQuery a q_show_replicas) is_ok (QueryReplicas a).
Proof. unfold QueryReplicas. solve_sends. Qed.

Lemma sends_SetReplicationRoleToMain a :
  sends (IoQuery a q_promote) is_nil (SetReplicationRoleToMain a).
Proof. unfold SetReplicationRoleToMain. solve_sends. Qed.

Lemma sends_SetReplicationRoleToReplica a :
  sends (IoQuery a q_demote) is_nil (SetReplicationRoleToReplica a).
Proof. unfold SetReplicationRoleToReplica. solve_sends. Qed.

Lemma sends_mc_RegisterReplica a n d m :
  sends (IoQuery a (q_register n m d)) is_nil (mc_RegisterReplica a n d m).
Proof.
  unfold mc_RegisterReplica.
  repeat (case_match; [intros ? ? ? Hr; injection Hr as <- <-; by right|]). solve_sends.
Qed.

(** ** No query panics *)

Lemma safe_QueryReplicationRole a : total (QueryReplicationRole a).
Proof. unfold QueryReplicationRole. solve_safe. Qed.

(** What [SHOW REPLICAS] is turned into always carries a health status. *)
Definition all_parsed (rs : result (list ReplicaInfo)) : Prop :=
  match rs with Ok rs => Forall (λ r, is_Some (ri_ParsedDataInfo r)) rs | Err _ => True end.

Lemma safe_QueryReplicas a : safe anywhere (QueryReplicas a) all_parsed.
Proof.
  unfold QueryReplicas. solve_safe. simpl. apply Forall_fmap, Forall_forall.
  intros r _. apply replica_of_record_parsed.
Qed.

Lemma safe_mc_Ping a t : total (mc_Ping a t).
Proof. unfold mc_Ping. solve_safe. Qed.

Lemma safe_SetReplicationRoleToMain a : total (SetReplicationRoleToMain a).
Proof. unfold SetReplicationRoleToMain. solve_safe. Qed.

Lemma safe_SetReplicationRoleToReplica a : total (SetReplicationRoleToReplica a).
Proof. unfold SetReplicationRoleToReplica. solve_safe. Qed.

Lemma safe_mc_RegisterReplica a n d m : total (mc_RegisterReplica a n d m).
Proof. unfold mc_RegisterReplica. solve_safe. Qed.

Lemma safe_mc_DropReplica a n : total (mc_DropReplica a n).
Proof. unfold mc_DropReplica. solve_safe. Qed.

Lemma safe_mc_QueryStorageInfo a : total (mc_QueryStorageInfo a).
Proof. unfold mc_QueryStorageInfo. solve_safe. Qed.

End MemgraphClient.

#[export] Hint Resolve keeps_QueryReplicationRole keeps_QueryReplicas keeps_mc_Ping
  keeps_SetReplicationRoleToMain keeps_SetReplicationRoleToReplica keeps_mc_RegisterReplica
  keeps_mc_DropReplica keeps_mc_QueryStorageInfo : keeps.
#[export] Hint Resolve safe_QueryReplicationRole safe_QueryReplicas safe_mc_Ping
  safe_SetReplicationRoleToMain safe_SetReplicationRoleToReplica safe_mc_RegisterReplica
  safe_mc_DropReplica safe_mc_QueryStorageInfo : safe.
