(* ===== verification/MemgraphNode.v ===== *)
(** * Cluster nodes: [internal/controller/memgraph_node.go]

    A node is a mutable object with cached role and replica list.  Its methods
    run on the node together with the network state. *)

From S2P Require Import Prelude.
From S2P Require Import GoStrings.
From S2P Require Import GoTime.
From S2P Require Import DataInfo.
From S2P Require Import Pods.
From S2P Require Import Config.
From S2P Require Import World.
From S2P Require Import ConnectionPool.
From S2P Require Import MemgraphClient.

Record MemgraphNode := mkNode {
  mn_name : string;
  mn_timestamp : Z;
  mn_memgraphRole : string;
  mn_storageInfo : option StorageInfo;
  mn_ipAddress : string;
  mn_replicasInfo : list ReplicaInfo;
  mn_hasReplicasInfo : bool;
}.

Definition set_role (role : string) (n : MemgraphNode) : MemgraphNode :=
  mkNode (mn_name n) (mn_timestamp n) role (mn_storageInfo n) (mn_ipAddress n)
    (mn_replicasInfo n) (mn_hasReplicasInfo n).
Definition set_storage (si : option StorageInfo) (n : MemgraphNode) : MemgraphNode :=
  mkNode (mn_name n) (mn_timestamp n) (mn_memgraphRole n) si (mn_ipAddress n)
    (mn_replicasInfo n) (mn_hasReplicasInfo n).
Definition set_replicas (rs : list ReplicaInfo) (n : MemgraphNode) : MemgraphNode :=
  mkNode (mn_name n) (mn_timestamp n) (mn_memgraphRole n) (mn_storageInfo n) (mn_ipAddress n)
    rs (mn_hasReplicasInfo n).
Definition set_hasReplicas (b : bool) (n : MemgraphNode) : MemgraphNode :=
  mkNode (mn_name n) (mn_timestamp n) (mn_memgraphRole n) (mn_storageInfo n) (mn_ipAddress n)
    (mn_replicasInfo n) b.

(** [node.Refresh(pod)]: identity, start time and address from the pod. *)
Definition node_Refresh (pod : Pod) (n : MemgraphNode) : MemgraphNode :=
  mkNode (pod_Name pod)
    (match pod_StartTime pod with Some t => t | None => pod_CreationTimestamp pod end)
    (mn_memgraphRole n) (mn_storageInfo n) (pod_PodIP pod)
    (mn_replicasInfo n) (mn_hasReplicasInfo n).

(** [NewMemgraphNode]; its panic on a nil client cannot happen, since the client
    is part of the controller. *)
Definition NewMemgraphNode (pod : Pod) : MemgraphNode :=
  node_Refresh pod (mkNode "" 0 "" None "" [] false).

Definition ClearCachedInfo (n : MemgraphNode) : MemgraphNode :=
  set_storage None (set_hasReplicas false (set_replicas [] (set_role "" n))).

Definition GetBoltAddress (n : MemgraphNode) : result string :=
  if bool_decide (mn_ipAddress n = "") then
    Err (Errorf ("cannot get bolt address: pod " +:+ mn_name n +:+ " has no IP address"))
  else Ok (mn_ipAddress n +:+ ":7687").

(** The free function [GetReplicaName(podName)], which builds the name rune by
    rune, and the method of the same name. *)
Fixpoint GetReplicaName (podName : string) : string :=
  match podName with
  | EmptyString => ""
  | String char rest =>
      String (if bool_decide (char = "-"%char) then "_"%char else char) (GetReplicaName rest)
  end.

Definition node_GetReplicaName (n : MemgraphNode) : string := replace_all "-" "_" (mn_name n).

Definition GetReplicationFQDN (serviceName namespace : string) (n : MemgraphNode) : string :=
  mn_name n +:+ "." +:+ serviceName +:+ "." +:+ namespace +:+ ".svc.cluster.local".

(** ** Methods that talk to Memgraph *)

(** A node and the network. *)
Abbreviation NodeNet W := (MemgraphNode * Net W)%type.

Global Instance NodeNet_trace {W} : HasTrace (NodeNet W) := λ s, net_trace s.2.

Section MemgraphNode.
Context {W : Type} `{World W}.
Context (config : Config).

Definition net {A} (m : M (Net W) A) : M (NodeNet W) A := zoom snd (λ n s, (s.1, n)) m.
Definition update (f : MemgraphNode → MemgraphNode) : M (NodeNet W) () :=
  modify (λ s, (f s.1, s.2)).
Definition field {A} (f : MemgraphNode → A) : M (NodeNet W) A := gets (λ s, f s.1).

(** The Go method returns the cached role also next to an error. *)
Definition GetReplicationRole (tryRefresh : bool) : M (NodeNet W) (string * option error) :=
  role ← field mn_memgraphRole;
  if bool_decide (role = "") || tryRefresh then
    let? boltAddress := field GetBoltAddress orelse err => mret (role, Some err) in
    let? roleResp := net (QueryReplicationRole config boltAddress) orelse err =>
      (name ← field mn_name;
       mret (role, Some (Wrapf ("failed to query replication role for node " +:+ name) err))) in
    _ ← update (set_role roleResp);
    mret (roleResp, None)
  else mret (role, None).

(** [err == nil] decides between the two results of the pair. *)
Definition role_result (r : string * option error) : result string :=
  match r with (role, None) => Ok role | (_, Some err) => Err err end.

(** Every caller ignores the list returned next to an error. *)
Definition GetReplicas (tryRefresh : bool) : M (NodeNet W) (result (list ReplicaInfo)) :=
  r ← GetReplicationRole tryRefresh;
  match r with
  | (_, Some err) => mret (Err err)
  | (role, None) =>
      name ← field mn_name;
      if bool_decide (role ≠ "main") then
        mret (Err (Errorf ("cannot get replicas from non-main node " +:+ name)))
      else
        cached ← field mn_hasReplicasInfo;
        if negb cached || tryRefresh then
          let? boltAddress := field GetBoltAddress orelse err => mret (Err err) in
          let? replicasResp := net (QueryReplicas config boltAddress) orelse err =>
            mret (Err (Wrapf ("failed to query replicas for node " +:+ name) err)) in
          _ ← update (λ n, set_hasReplicas true (set_replicas replicasResp n));
          mret (Ok replicasResp)
        else
          replicas ← field mn_replicasInfo;
          mret (Ok replicas)
  end.

(** Clear the cached role and replica list after a successful role change. *)
Definition clear_role (n : MemgraphNode) : MemgraphNode := set_hasReplicas false (set_role "" n).

Definition SetToMainRole : M (NodeNet W) (option error) :=
  let? boltAddress := field GetBoltAddress orelse err => mret (Some err) in
  check? net (SetReplicationRoleToMain config boltAddress) orelse err => mret (Some err) in
  _ ← update clear_role;
  mret None.

Definition SetToReplicaRole : M (NodeNet W) (option error) :=
  let? boltAddress := field GetBoltAddress orelse err => mret (Some err) in
  check? net (SetReplicationRoleToReplica config boltAddress) orelse err => mret (Some err) in
  _ ← update clear_role;
  mret None.

Definition RegisterReplica (replicaName replicationAddress syncMode : string)
    : M (NodeNet W) (option error) :=
  let? boltAddress := field GetBoltAddress orelse err => mret (Some err) in
  check? net (mc_RegisterReplica config boltAddress replicaName replicationAddress syncMode)
    orelse err => mret (Some err) in
  _ ← update (set_hasReplicas false);
  mret None.

Definition Ping : M (NodeNet W) (option error) :=
  let? boltAddress := field GetBoltAddress orelse err => mret (Some err) in
  net (mc_Ping config boltAddress (3 * Second)).

Definition InvalidateConnection : M (NodeNet W) (option error) :=
  let? boltAddress := field GetBoltAddress orelse err => mret (Some err) in
  net (cp_InvalidateConnection boltAddress).

Definition QueryStorageInfo : M (NodeNet W) (option error) :=
  let? boltAddress := field GetBoltAddress orelse err => mret (Some err) in
  let? storageInfo := net (mc_QueryStorageInfo config boltAddress) orelse err =>
    (name ← field mn_name;
     mret (Some (Wrapf ("failed to query storage info for node " +:+ name) err))) in
  _ ← update (set_storage (Some storageInfo));
  mret None.

(** The first cached replica of that name is removed. *)
Fixpoint remove_replica (replicaName : string) (rs : list ReplicaInfo) : list ReplicaInfo :=
  match rs with
  | [] => []
  | r :: rs => if bool_decide (ri_Name r = replicaName) then rs
               else r :: remove_replica replicaName rs
  end.

Definition DropReplica (replicaName : string) : M (NodeNet W) (option error) :=
  let? boltAddress := field GetBoltAddress orelse err => mret (Some err) in
  check? net (mc_DropReplica config boltAddress replicaName) orelse err => mret (Some err) in
  _ ← update (λ n, set_replicas (remove_replica replicaName (mn_replicasInfo n)) n);
  mret None.

(** ** Frames *)

(** [node_step Q]: the node keeps its identity and its address, and every query
    sent is one of [Q], to the node's own address. *)
Definition node_step (Q : string → Prop) : relation (NodeNet W) := λ s s',
  mn_name s'.1 = mn_name s.1 ∧ mn_ipAddress s'.1 = mn_ipAddress s.1 ∧
  emits (λ e, ∃ q, GetBoltAddress s.1 = Ok (mn_ipAddress s.1 +:+ ":7687") ∧
                   e = IoQuery (mn_ipAddress s.1 +:+ ":7687") q ∧ Q q) s s'.

Lemma GetBoltAddress_same n n' :
  mn_name n' = mn_name n → mn_ipAddress n' = mn_ipAddress n →
  GetBoltAddress n' = GetBoltAddress n.
Proof. intros Hn Hi. unfold GetBoltAddress. by rewrite Hn, Hi. Qed.

Global Instance node_step_preorder Q : PreOrder (node_step Q).
Proof.
  split.
  - intros s. split; [done|]. split; [done|]. reflexivity.
  - intros s1 s2 s3 (N1 & I1 & E1) (N2 & I2 & E2). split; [congruence|].
    split; [congruence|]. etrans; [exact E1|]. eapply emits_mono; [|exact E2].
    intros e (q & Hb & -> & Hq). exists q. rewrite I1 in *.
    by rewrite (GetBoltAddress_same _ _ N1 I1) in Hb.
Qed.

Lemma node_step_mono (Q Q' : string → Prop) s s' :
  (∀ q, Q q → Q' q) → node_step Q s s' → node_step Q' s s'.
Proof.
  intros HQ (N & I & E). split; [done|]. split; [done|].
  eapply emits_mono; [|exact E]. naive_solver.
Qed.

Lemma keeps_field {A} Q (f : MemgraphNode → A) : keeps (node_step Q) (field f).
Proof. apply keeps_gets. typeclasses eauto. Qed.

Lemma keeps_update Q f :
  (∀ n, mn_name (f n) = mn_name n) → (∀ n, mn_ipAddress (f n) = mn_ipAddress n) →
  keeps (node_step Q) (update f).
Proof.
  intros Hn Hi s. split; [apply Hn|]. split; [apply Hi|]. by apply emits_same.
Qed.

Lemma keeps_update_known Q f :
  (∀ n, mn_name (f n) = mn_name n ∧ mn_ipAddress (f n) = mn_ipAddress n) →
  keeps (node_step Q) (update f).
Proof. intros Hf. apply keeps_update; intros n; apply Hf. Qed.

(** A query to the node's own address is a [node_step]: the pattern of every
    method above. *)
Lemma keeps_query {A B} (Q : string → Prop) (q : string) (m : string → M (Net W) A)
    (h : error → M (NodeNet W) B) (k : A → M (NodeNet W) B) :
  (∀ a (P : io → Prop), P (IoQuery a q) → keeps (emits P) (m a)) →
  Q q →
  (∀ e, keeps (node_step Q) (h e)) →
  (∀ a, keeps (node_step Q) (k a)) →
  keeps (node_step Q)
    (field GetBoltAddress ≫= λ r,
       match r with Ok boltAddress => net (m boltAddress) ≫= k | Err e => h e end).
Proof.
  intros Hm HQ Hh Hk s. unfold mbind, M_bind, field at 1, gets at 1.
  destruct (GetBoltAddress s.1) as [b|e] eqn:Hb; [|apply Hh].
  assert (b = mn_ipAddress s.1 +:+ ":7687") as ->.
  { unfold GetBoltAddress in Hb. case_bool_decide; congruence. }
  set (P := λ e, e = IoQuery (mn_ipAddress s.1 +:+ ":7687") q).
  pose proof (Hm (mn_ipAddress s.1 +:+ ":7687") P eq_refl s.2) as Hstep.
  unfold net, zoom. destruct (m _ s.2) as [o n']. simpl in Hstep.
  assert (node_step Q s (s.1, n')) as Hs1.
  { split; [done|]. split; [done|]. destruct Hstep as (evs & Ht & HF).
    exists evs. split; [exact Ht|]. eapply Forall_impl; [exact HF|].
    intros e ->. exists q. auto. }
  destruct o as [a|w]; [|exact Hs1]. etrans; [exact Hs1|]. apply Hk.
Qed.

Lemma keeps_query_last {A} (Q : string → Prop) (q : string) (m : string → M (Net W) A)
    (h : error → M (NodeNet W) A) :
  (∀ a (P : io → Prop), P (IoQuery a q) → keeps (emits P) (m a)) →
  Q q →
  (∀ e, keeps (node_step Q) (h e)) →
  keeps (node_step Q)
    (field GetBoltAddress ≫= λ r,
       match r with Ok boltAddress => net (m boltAddress) | Err e => h e end).
Proof.
  intros Hm HQ Hh s. pose proof (keeps_query Q q m h mret Hm HQ Hh (λ a, keeps_ret _ a) s) as Hk.
  unfold mbind, M_bind, field, gets in *.
  destruct (GetBoltAddress s.1); [|exact Hk]. by destruct (net (m a) s) as [[] ?].
Qed.

#[local] Hint Resolve keeps_field : keeps.
#[local] Hint Extern 1 (keeps (node_step _) (update _)) =>
  (apply keeps_update_known; intros ?; done) : keeps.
#[local] Hint Extern 1 (PreOrder _) => typeclasses eauto : keeps.

Ltac solve_query q :=
  eapply (keeps_query _ q); [solve [eauto with keeps]|done|intros ?|intros ?]; solve_keeps.

Lemma keeps_GetReplicationRole (Q : string → Prop) r :
  Q q_show_role → keeps (node_step Q) (GetReplicationRole r).
Proof.
  intros HQ. unfold GetReplicationRole. apply keeps_bind; [typeclasses eauto|solve_keeps|].
  intros role. case_match; [|solve_keeps]. solve_query q_show_role.
Qed.
#[local] Hint Resolve keeps_GetReplicationRole : keeps.

Lemma keeps_GetReplicas (Q : string → Prop) r :
  Q q_show_role → Q q_show_replicas → keeps (node_step Q) (GetReplicas r).
Proof.
  intros HQ HQ2. unfold GetReplicas. apply keeps_bind; [typeclasses eauto|solve_keeps|].
  intros [role [e|]]; [solve_keeps|]. apply keeps_bind; [typeclasses eauto|solve_keeps|].
  intros name. case_match; [solve_keeps|]. apply keeps_bind; [typeclasses eauto|solve_keeps|].
  intros cached. case_match; [|solve_keeps]. solve_query q_show_replicas.
Qed.

Lemma keeps_SetToMainRole (Q : string → Prop) : Q q_promote → keeps (node_step Q) SetToMainRole.
Proof. intros HQ. unfold SetToMainRole. solve_query q_promote. Qed.

Lemma keeps_SetToReplicaRole (Q : string → Prop) :
  Q q_demote → keeps (node_step Q) SetToReplicaRole.
Proof. intros HQ. unfold SetToReplicaRole. solve_query q_demote. Qed.

Lemma keeps_RegisterReplica (Q : string → Prop) n a m :
  Q (q_register n m a) → keeps (node_step Q) (RegisterReplica n a m).
Proof. intros HQ. unfold RegisterReplica. solve_query (q_register n m a). Qed.

Lemma keeps_Ping (Q : string → Prop) : Q q_ping → keeps (node_step Q) Ping.
Proof.
  intros HQ. unfold Ping. eapply (keeps_query_last _ q_ping); [|done|]; eauto with keeps.
Qed.

Lemma keeps_InvalidateConnection (Q : string → Prop) :
  (∃ q, Q q) → keeps (node_step Q) InvalidateConnection.
Proof.
  intros [q HQ]. unfold InvalidateConnection, cp_InvalidateConnection.
  eapply (keeps_query_last _ q); [|done|]; eauto with keeps.
Qed.

Lemma keeps_QueryStorageInfo (Q : string → Prop) :
  Q q_storage → keeps (node_step Q) QueryStorageInfo.
Proof. intros HQ. unfold QueryStorageInfo. solve_query q_storage. Qed.

Lemma keeps_DropReplica (Q : string → Prop) n : Q (q_drop n) → keeps (node_step Q) (DropReplica n).
Proof. intros HQ. unfold DropReplica. solve_query (q_drop n). Qed.

(** ** Results of the methods *)

(** A network operation leaves the node alone. *)
Lemma net_run {A} (m : M (Net W) A) s : net m s = ((m s.2).1, (s.1, (m s.2).2)).
Proof. unfold net, zoom. by destruct (m s.2). Qed.

(** Run a method to its end, splitting on the results of its queries. *)
Ltac run_node :=
  unfold mbind, M_bind, field, gets, update, modify, mret, M_ret in *;
  repeat first
    [ progress simplify_eq/=
    | progress (rewrite net_run in * )
    | case_bool_decide
    | match goal with
      | HH : context [match ?x with _ => _ end] |- _ => destruct x eqn:?
      end ].

Lemma GetReplicationRole_ok b s role s' :
  GetReplicationRole b s = (Ret (role, None), s') →
  s'.1 = set_role role s.1 ∧ (b = true → role = mn_memgraphRole s'.1).
Proof.
  unfold GetReplicationRole. intros Hr. run_node; try done.
  all: split; [|done]; destruct s' as [[] ?]; done.
Qed.

Lemma GetReplicationRole_cached s :
  mn_memgraphRole s.1 ≠ "" →
  GetReplicationRole false s = (Ret (mn_memgraphRole s.1, None), s).
Proof.
  intros Hr. unfold GetReplicationRole, mbind, M_bind, field, gets.
  rewrite bool_decide_eq_false_2 by done. done.
Qed.

Lemma GetReplicationRole_err s role e s' :
  GetReplicationRole false s = (Ret (role, Some e), s') → mn_memgraphRole s'.1 = "".
Proof.
  unfold GetReplicationRole. intros Hr. inv_bind Hr as r s1 H1. injection H1 as <- <-.
  destruct (bool_decide _) eqn:Hb; simpl in Hr; [|done]. apply bool_decide_eq_true in Hb.
  run_node; done.
Qed.

Lemma GetReplicas_ok b s rs s' :
  GetReplicas b s = (Ret (Ok rs), s') →
  mn_memgraphRole s'.1 = "main" ∧ mn_replicasInfo s'.1 = rs.
Proof.
  unfold GetReplicas. intros Hr. unfold mbind at 1, M_bind at 1 in Hr.
  destruct (GetReplicationRole b s) as [[[role [e|]]|w] s1] eqn:Hrole; try done.
  apply GetReplicationRole_ok in Hrole as [Hrole _].
  assert (mn_memgraphRole s1.1 = role) as Hm by (by rewrite Hrole).
  clear Hrole. run_node; naive_solver.
Qed.

Lemma SetToMainRole_ok s s' :
  SetToMainRole s = (Ret None, s') → s'.1 = clear_role s.1.
Proof. unfold SetToMainRole. intros Hr. run_node; done. Qed.

Lemma SetToReplicaRole_ok s s' :
  SetToReplicaRole s = (Ret None, s') → s'.1 = clear_role s.1.
Proof. unfold SetToReplicaRole. intros Hr. run_node; done. Qed.

Lemma QueryStorageInfo_ok s s' :
  QueryStorageInfo s = (Ret None, s') → ∃ si, s'.1 = set_storage (Some si) s.1.
Proof. unfold QueryStorageInfo. intros Hr. run_node; eauto. Qed.

(** ** What the methods send *)

(** The address a node's queries go to. *)
Definition bolt_of (n : MemgraphNode) : string := mn_ipAddress n +:+ ":7687".

(** A method that sends one query to its own node, and nothing on failure to
    find an address; afterwards the node has the same name and address. *)
Lemma node_sends {A B} q (ok : A → bool) (ok' : B → bool) (m : string → M (Net W) A)
    (h : error → M (NodeNet W) B) (k : A → M (NodeNet W) B) s b s' :
  (∀ a, sends (IoQuery a q) ok (m a)) →
  (∀ e s b s', h e s = (Ret b, s') → trace_of s' = trace_of s ∧ ok' b = false) →
  (∀ a s b s', k a s = (Ret b, s') → trace_of s' = trace_of s ∧ (ok a = false → ok' b = false)) →
  (field GetBoltAddress ≫= λ r,
     match r with Ok boltAddress => net (m boltAddress) ≫= k | Err e => h e end) s = (Ret b, s') →
  trace_of s' = trace_of s ++ [IoQuery (bolt_of s.1) q] ∨ (trace_of s' = trace_of s ∧ ok' b = false).
Proof.
  intros Hm Hh Hk Hr. inv_bind Hr as ba s1 Hba. injection Hba as <- <-.
  destruct (GetBoltAddress s.1) as [ba|e] eqn:Hb; [|right; by eapply Hh].
  assert (ba = bolt_of s.1) as ->.
  { unfold GetBoltAddress in Hb. unfold bolt_of. case_bool_decide; congruence. }
  inv_bind Hr as a s1 Ha. rewrite net_run in Ha.
  destruct (m _ s.2) as [o n'] eqn:Hrun. simpl in Ha. injection Ha as -> <-.
  destruct (Hk _ _ _ _ Hr) as [HT Hok]. rewrite HT.
  destruct (Hm _ _ _ _ Hrun) as [HTr|[HTr ?]]; unfold trace_of, NodeNet_trace, Net_trace in *;
    simpl; rewrite HTr; auto.
Qed.

Ltac solve_node_sends q ok ok' L :=
  intros Hr; apply (node_sends q ok ok') in Hr; [exact Hr|intros; apply L|..];
  intros ? ? ? ? HH; run_node; naive_solver.

Lemma GetReplicationRole_sends s r s' :
  GetReplicationRole true s = (Ret r, s') →
  trace_of s' = trace_of s ++ [IoQuery (bolt_of s.1) q_show_role] ∨
  (trace_of s' = trace_of s ∧ is_nil r.2 = false).
Proof.
  unfold GetReplicationRole. intros Hr. inv_bind Hr as role s1 H1. injection H1 as <- <-.
  rewrite orb_true_r in Hr. revert Hr. solve_node_sends q_show_role (@is_ok string) (λ r : string * option error, is_nil r.2) sends_QueryReplicationRole.
Qed.

Lemma SetToReplicaRole_sends s r s' :
  SetToReplicaRole s = (Ret r, s') →
  trace_of s' = trace_of s ++ [IoQuery (bolt_of s.1) q_demote] ∨
  (trace_of s' = trace_of s ∧ is_nil r = false).
Proof. unfold SetToReplicaRole. solve_node_sends q_demote (@is_nil error) (@is_nil error) sends_SetReplicationRoleToReplica. Qed.

Lemma RegisterReplica_sends n a m s r s' :
  RegisterReplica n a m s = (Ret r, s') →
  trace_of s' = trace_of s ++ [IoQuery (bolt_of s.1) (q_register n m a)] ∨
  (trace_of s' = trace_of s ∧ is_nil r = false).
Proof. unfold RegisterReplica. solve_node_sends (q_register n m a) (@is_nil error) (@is_nil error) sends_mc_RegisterReplica. Qed.

(** A refresh of the replica list asks for the role and then for the replicas. *)
Lemma GetReplicas_sends s r s' :
  GetReplicas true s = (Ret r, s') →
  ∃ k, trace_of s' = trace_of s ++
         take k [IoQuery (bolt_of s.1) q_show_role; IoQuery (bolt_of s.1) q_show_replicas] ∧
       (is_ok r = true → k = 2).
Proof.
  unfold GetReplicas. intros Hr. inv_bind Hr as role s1 H1.
  pose proof (keeps_run _ _ _ _ _ (keeps_GetReplicationRole (λ _, True) true Logic.I) H1)
    as (_ & Hip & _).
  destruct (GetReplicationRole_sends _ _ _ H1) as [HT1|[HT1 Hno]].
  2:{ exists 0. destruct role as [role [e|]]; [|done]. injection Hr as <- <-.
      simpl. by rewrite app_nil_r. }
  destruct role as [role [e|]].
  { exists 1. injection Hr as <- <-. done. }
  inv_bind Hr as name s2 H2. injection H2 as <- <-. case_bool_decide.
  { exists 1. injection Hr as <- <-. done. }
  inv_bind Hr as c s2 H2. injection H2 as <- <-. rewrite orb_true_r in Hr.
  assert (bolt_of s1.1 = bolt_of s.1) as Hb by (unfold bolt_of; congruence).
  assert (trace_of s' = trace_of s1 ++ [IoQuery (bolt_of s1.1) q_show_replicas] ∨
          (trace_of s' = trace_of s1 ∧ is_ok r = false)) as Hr2.
  { revert Hr. solve_node_sends q_show_replicas (@is_ok (list ReplicaInfo)) (@is_ok (list ReplicaInfo)) sends_QueryReplicas. }
  rewrite Hb in Hr2. destruct Hr2 as [HT|[HT ?]]; rewrite HT, HT1.
  - exists 2. by rewrite <- app_assoc.
  - exists 1. split; [done|congruence].
Qed.

(** ** No method panics *)

Lemma safe_net {A} (m : M (Net W) A) Φ : safe anywhere m Φ → safe anywhere (net m) Φ.
Proof. intros Hm. by eapply safe_zoom. Qed.
#[local] Hint Resolve safe_net : safe.

Lemma safe_field {A} (f : MemgraphNode → A) : total (field f).
Proof. apply safe_gets. Qed.

Lemma safe_update_node f : total (update f).
Proof. apply safe_update. Qed.
#[local] Hint Resolve safe_field safe_update_node : safe.

Lemma safe_GetReplicationRole b : total (GetReplicationRole b).
Proof. unfold GetReplicationRole. solve_safe. Qed.
#[local] Hint Resolve safe_GetReplicationRole : safe.

Lemma safe_GetReplicas b : total (GetReplicas b).
Proof. unfold GetReplicas. solve_safe. Qed.

(** A refreshed replica list is fully parsed. *)
Lemma safe_GetReplicas_fresh : safe anywhere (GetReplicas true) all_parsed.
Proof.
  unfold GetReplicas. repeat first [rewrite orb_true_r|safe_step].
Qed.

Lemma safe_SetToMainRole : total SetToMainRole.
Proof. unfold SetToMainRole. solve_safe. Qed.

Lemma safe_SetToReplicaRole : total SetToReplicaRole.
Proof. unfold SetToReplicaRole. solve_safe. Qed.

Lemma safe_RegisterReplica n a m : total (RegisterReplica n a m).
Proof. unfold RegisterReplica. solve_safe. Qed.

Lemma safe_Ping : total Ping.
Proof. unfold Ping. solve_safe. Qed.

Lemma safe_InvalidateConnection : total InvalidateConnection.
Proof. unfold InvalidateConnection, cp_InvalidateConnection. solve_safe. Qed.

Lemma safe_QueryStorageInfo : total QueryStorageInfo.
Proof. unfold QueryStorageInfo. solve_safe. Qed.

Lemma safe_DropReplica n : total (DropReplica n).
Proof. unfold DropReplica. solve_safe. Qed.

End MemgraphNode.

#[export] Hint Resolve keeps_GetReplicationRole keeps_GetReplicas keeps_SetToMainRole
  keeps_SetToReplicaRole keeps_RegisterReplica keeps_Ping keeps_InvalidateConnection
  keeps_QueryStorageInfo keeps_DropReplica : keeps.
#[export] Hint Resolve safe_net safe_field safe_update_node safe_GetReplicationRole safe_GetReplicas
  safe_SetToMainRole safe_SetToReplicaRole safe_RegisterReplica safe_Ping
  safe_InvalidateConnection safe_QueryStorageInfo safe_DropReplica : safe.

(** ** Replica names *)

Lemma GetReplicaName_replace_all s : GetReplicaName s = replace_all "-" "_" s.
Proof. induction s as [|c s IH]; simpl; [done|]. by rewrite IH. Qed.

(** Replica names round-trip.  The method and the free function agree on the
    name a pod is registered under, and the pod name read back from a replica
    entry of that name is the pod again, for every pod name without an
    underscore (Kubernetes allows none). *)
Theorem replica_name_roundtrip (n : MemgraphNode) (ri : ReplicaInfo) :
  has_char "_" (mn_name n) = false → ri_Name ri = node_GetReplicaName n →
  node_GetReplicaName n = GetReplicaName (mn_name n) ∧ ri_GetPodName ri = mn_name n ∧
  has_char "-" (ri_Name ri) = false.
Proof.
  intros Hn Hri. unfold ri_GetPodName. rewrite Hri. unfold node_GetReplicaName.
  rewrite GetReplicaName_replace_all, replace_all_involutive, replace_all_no_old by done. done.
Qed.

Lemma replica_name_roundtrip_witness :
  let n := NewMemgraphNode (ready_pod "memgraph-ha-1" "10.0.0.2") in
  ri_GetPodName (mkReplicaInfo "memgraph_ha_1" "" "" "" "" None) = "memgraph-ha-1" ∧
  node_GetReplicaName n = "memgraph_ha_1".
Proof.
  intros n.
  destruct (replica_name_roundtrip n (mkReplicaInfo "memgraph_ha_1" "" "" "" "" None)) as (Hn & Hp & _);
    [reflexivity|reflexivity|].
  split; [exact Hp|reflexivity].
Defined.
