(* ===== verification/Metrics.v ===== *)
(** * Metrics: [internal/metrics/metrics.go] and the legacy counters of
    [internal/controller/types.go]

    The Prometheus client is third-party code: [Metrics] records the calls made
    on it, in order. *)

From Stdlib Require Import SpecFloat.
From S2P Require Import Prelude.
From S2P Require Import GoStrings.
From S2P Require Import GoTime.

(** Calls of the Prometheus client, named after the field of [Metrics]. *)
Inductive prom_op :=
  | Inc (metric : string)
  | IncLabel (metric label : string)
  | AddLabel (metric label : string) (v : spec_float)
  | SetGauge (metric : string) (v : spec_float)
  | Observe (metric : string) (v : spec_float)
  | SetToCurrentTime (metric : string)
  | SetLabelToCurrentTime (metric label : string).

Definition Metrics : Type := list prom_op.

Definition RecordReconciliation (success : bool) (duration : spec_float) (m : Metrics) : Metrics :=
  m ++ [Inc "ReconciliationsTotal";
        Inc (if success then "ReconciliationsSuccessful" else "ReconciliationsFailed");
        Observe "ReconciliationDuration" duration;
        SetToCurrentTime "LastReconciliationTime"].

Definition flag (b : bool) : spec_float := f64_of_int (if b then 1 else 0).

Definition UpdateClusterState (healthy : bool) (totalPods healthyPods : Z)
    (syncReplicaHealthy : bool) (m : Metrics) : Metrics :=
  m ++ [SetGauge "ClusterState" (flag healthy);
        SetGauge "ClusterPodsTotal" (f64_of_int totalPods);
        SetGauge "ClusterPodsHealthy" (f64_of_int healthyPods);
        SetGauge "ClusterSyncReplicaHealthy" (flag syncReplicaHealthy)].

Definition RecordMainChange (m : Metrics) : Metrics := m ++ [Inc "ClusterMainChanges"].

Definition UpdateGatewayConnections (active : Z) (m : Metrics) : Metrics :=
  m ++ [SetGauge "GatewayConnectionsActive" (f64_of_int active)].

Definition RecordGatewayConnection (m : Metrics) : Metrics := m ++ [Inc "GatewayConnectionsTotal"].

Definition RecordGatewayBytes (sent received : Z) (m : Metrics) : Metrics :=
  m ++ [AddLabel "GatewayBytesTransferred" "sent" (f64_of_int sent);
        AddLabel "GatewayBytesTransferred" "received" (f64_of_int received)].

Definition RecordGatewayError (m : Metrics) : Metrics := m ++ [Inc "GatewayConnectionErrors"].

Definition UpdateLeadershipStatus (isLeader : bool) (m : Metrics) : Metrics :=
  m ++ [SetGauge "ControllerIsLeader" (flag isLeader)].

Definition RecordLeadershipChange (m : Metrics) : Metrics :=
  m ++ [Inc "ControllerLeadershipChanges"].

Definition RecordElection (m : Metrics) : Metrics := m ++ [Inc "ControllerElections"].

Definition RecordError (errorType : string) (m : Metrics) : Metrics :=
  m ++ [IncLabel "ErrorsTotal" errorType; SetLabelToCurrentTime "LastErrorTimestamp" errorType].

(** ** Registration *)

Inductive metric_kind := Counter | Gauge | Histogram.

Record metric := mkMetric {
  m_field : string;         (* field of [Metrics] *)
  m_kind : metric_kind;
  m_name : string;          (* name in the registry *)
  m_labels : list string;   (* label names of a [...Vec] *)
}.

(** [NewWithRegistry]: what is registered; no calls have been made yet. *)
Definition registry : list metric := [
  mkMetric "ReconciliationsTotal" Counter "memgraph_controller_reconciliations_total" [];
  mkMetric "ReconciliationsSuccessful" Counter
    "memgraph_controller_reconciliations_successful_total" [];
  mkMetric "ReconciliationsFailed" Counter "memgraph_controller_reconciliations_failed_total" [];
  mkMetric "ReconciliationDuration" Histogram
    "memgraph_controller_reconciliation_duration_seconds" [];
  mkMetric "LastReconciliationTime" Gauge "memgraph_controller_last_reconciliation_timestamp" [];
  mkMetric "ClusterState" Gauge "memgraph_cluster_state" [];
  mkMetric "ClusterMainChanges" Counter "memgraph_cluster_main_changes_total" [];
  mkMetric "ClusterSyncReplicaHealthy" Gauge "memgraph_cluster_sync_replica_healthy" [];
  mkMetric "ClusterPodsTotal" Gauge "memgraph_cluster_pods_total" [];
  mkMetric "ClusterPodsHealthy" Gauge "memgraph_cluster_pods_healthy" [];
  mkMetric "GatewayConnectionsActive" Gauge "memgraph_gateway_connections_active" [];
  mkMetric "GatewayConnectionsTotal" Counter "memgraph_gateway_connections_total" [];
  mkMetric "GatewayBytesTransferred" Counter "memgraph_gateway_bytes_transferred_total"
    ["direction"];
  mkMetric "GatewayConnectionErrors" Counter "memgraph_gateway_connection_errors_total" [];
  mkMetric "ControllerIsLeader" Gauge "memgraph_controller_is_leader" [];
  mkMetric "ControllerLeadershipChanges" Counter
    "memgraph_controller_leadership_changes_total" [];
  mkMetric "ControllerElections" Counter "memgraph_controller_elections_total" [];
  mkMetric "ErrorsTotal" Counter "memgraph_controller_errors_total" ["type"];
  mkMetric "LastErrorTimestamp" Gauge "memgraph_controller_last_error_timestamp" ["type"]
].

Definition New : Metrics := [].

(** The type system of the Go client: [Inc] and [Add] on counters, [Set] and
    [SetToCurrentTime] on gauges, [Observe] on histograms; [WithLabelValues]
    panics unless it gets as many values as the metric has labels. *)
Definition well_registered (op : prom_op) : bool :=
  let find (field : string) (kind : metric_kind) (labels : nat) :=
    existsb (λ m, bool_decide (m_field m = field) && bool_decide (length (m_labels m) = labels) &&
      match m_kind m, kind with
      | Counter, Counter | Gauge, Gauge | Histogram, Histogram => true
      | _, _ => false
      end) registry in
  match op with
  | Inc f => find f Counter 0
  | IncLabel f _ | AddLabel f _ _ => find f Counter 1
  | SetGauge f _ | SetToCurrentTime f => find f Gauge 0
  | Observe f _ => find f Histogram 0
  | SetLabelToCurrentTime f _ => find f Gauge 1
  end.

(** Every recording method calls registered metrics only, with the right kind
    and number of labels, and registration does not panic on a duplicate. *)
Theorem metrics_well_registered (m : Metrics) :
  Forall (λ op, well_registered op = true) m →
  NoDup (map m_name registry) ∧
  (∀ ok d, Forall (λ op, well_registered op = true) (RecordReconciliation ok d m)) ∧
  (∀ h t n r, Forall (λ op, well_registered op = true) (UpdateClusterState h t n r m)) ∧
  (∀ s r, Forall (λ op, well_registered op = true) (RecordGatewayBytes s r m)) ∧
  (∀ n, Forall (λ op, well_registered op = true) (UpdateGatewayConnections n m)) ∧
  (∀ b, Forall (λ op, well_registered op = true) (UpdateLeadershipStatus b m)) ∧
  (∀ e, Forall (λ op, well_registered op = true) (RecordError e m)) ∧
  Forall (λ op, well_registered op = true) (RecordElection (RecordLeadershipChange
    (RecordGatewayError (RecordGatewayConnection (RecordMainChange m))))).
Proof.
  intros Hm. split; [apply (bool_decide_unpack _); vm_compute; reflexivity|].
  repeat split; intros; repeat (apply Forall_app; split); try done;
    repeat constructor; try reflexivity; by destruct ok.
Qed.

Lemma metrics_well_registered_witness :
  Forall (λ op, well_registered op = true) (RecordReconciliation true (f64_of_int 1) New).
Proof. apply (metrics_well_registered New). constructor. Defined.

(** ** The legacy reconciliation metrics *)

Record ReconciliationMetrics := mkRecMetrics {
  rm_Total : Z;
  rm_Successful : Z;
  rm_Failed : Z;
  rm_Average : Z;         (* AverageReconciliationTime *)
  rm_LastTime : Z;        (* LastReconciliationTime *)
  rm_LastReason : string; (* LastReconciliationReason *)
  rm_LastError : string;  (* LastReconciliationError *)
}.

Definition empty_metrics : ReconciliationMetrics := mkRecMetrics 0 0 0 0 0 "" "".

(** The deferred update of [performReconciliationActions]. *)
Definition record_reconcile (reconcileErr : option error) (duration now : Z)
    (m : ReconciliationMetrics) : ReconciliationMetrics :=
  match reconcileErr with
  | None =>
      mkRecMetrics (int64 (rm_Total m + 1)) (int64 (rm_Successful m + 1)) (rm_Failed m)
        duration now (rm_LastReason m) (rm_LastError m)
  | Some err =>
      mkRecMetrics (int64 (rm_Total m + 1)) (rm_Successful m) (int64 (rm_Failed m + 1))
        duration now (rm_LastReason m) (error_string err)
  end.
