(* ===== verification/Queues.v ===== *)
(** * Event queues: the data of [internal/controller/queue_reconcile.go] and
    [internal/controller/queue_failover.go]

    Both queues are a bounded channel with a deduplication map; they differ in
    their capacity and their events.  The processors that take events out and
    act on them are in Failover.v and Reconcile.v. *)

From S2P Require Import Prelude.
From S2P Require Import GoStrings.
From S2P Require Import GoTime.

Record ReconcileEvent := mkReconcileEvent {
  re_Type : string; re_Reason : string; re_PodName : string; re_Timestamp : Z }.

(** [CompletionChan] is always nil in the program: no event carries one. *)
Record FailoverCheckEvent := mkFailoverCheckEvent {
  fe_Type : string; fe_Reason : string; fe_PodName : string; fe_Timestamp : Z }.

Record Queue (E : Type) := mkQueue {
  q_cap : nat;                 (* buffer size of the channel *)
  q_events : list E;           (* buffered events, oldest first *)
  q_dedup : gmap string Z;     (* dedup key -> timestamp of the last event *)
  q_cancelled : bool;          (* the queue's context *)
}.
Arguments mkQueue {E}.
Arguments q_cap {E}.
Arguments q_events {E}.
Arguments q_dedup {E}.
Arguments q_cancelled {E}.

Definition newReconcileQueue : Queue ReconcileEvent := mkQueue 100 [] ∅ false.
Definition newFailoverCheckQueue : Queue FailoverCheckEvent := mkQueue 50 [] ∅ false.

(** [select { case q.events <- e: ...; default: ... }] *)
Definition q_send {E} (e : E) (q : Queue E) : Queue E :=
  if bool_decide (length (q_events q) < q_cap q) then
    mkQueue (q_cap q) (q_events q ++ [e]) (q_dedup q) (q_cancelled q)
  else q.

(** [<-q.events] *)
Definition q_receive {E} (q : Queue E) : option (E * Queue E) :=
  match q_events q with
  | [] => None
  | e :: es => Some (e, mkQueue (q_cap q) es (q_dedup q) (q_cancelled q))
  end.

Definition q_cancel {E} (q : Queue E) : Queue E :=
  mkQueue (q_cap q) (q_events q) (q_dedup q) true.

Definition dedup_window : Z := 2 * Second.

(** The deduplication under [dedupMu]: [true] when the event is to be
    processed, and then its timestamp is recorded. *)
Definition q_admit {E} (now : Z) (dedupKey : string) (timestamp : Z) (q : Queue E)
    : bool * Queue E :=
  match q_dedup q !! dedupKey with
  | Some lastEventTime =>
      if bool_decide (time_sub now lastEventTime < dedup_window)%Z then (false, q)
      else (true, mkQueue (q_cap q) (q_events q) (<[dedupKey := timestamp]> (q_dedup q))
                    (q_cancelled q))
  | None => (true, mkQueue (q_cap q) (q_events q) (<[dedupKey := timestamp]> (q_dedup q))
                     (q_cancelled q))
  end.

(** ** Properties *)

(** The operations of a queue, as its clients interleave them. *)
Inductive q_op (E : Type) :=
  | OpSend (e : E)
  | OpReceive
  | OpAdmit (now : Z) (key : string) (ts : Z)
  | OpCancel.
Arguments OpSend {E} e.
Arguments OpReceive {E}.
Arguments OpAdmit {E} now key ts.
Arguments OpCancel {E}.

Definition q_step {E} (op : q_op E) (q : Queue E) : Queue E :=
  match op with
  | OpSend e => q_send e q
  | OpReceive => match q_receive q with Some (_, q') => q' | None => q end
  | OpAdmit now key ts => (q_admit now key ts q).2
  | OpCancel => q_cancel q
  end.

Definition q_run {E} (ops : list (q_op E)) (q : Queue E) : Queue E := foldl (λ q op, q_step op q) q ops.

Lemma q_step_cap {E} (op : q_op E) q : q_cap (q_step op q) = q_cap q.
Proof.
  destruct op; simpl; unfold q_send, q_receive, q_admit; repeat case_match; try done; naive_solver.
Qed.

Lemma q_step_bounded {E} (op : q_op E) q :
  length (q_events q) ≤ q_cap q → length (q_events (q_step op q)) ≤ q_cap q.
Proof.
  intros Hq. destruct op; simpl; unfold q_send, q_receive, q_admit.
  - case_bool_decide; simpl; [rewrite length_app; simpl; lia|lia].
  - destruct (q_events q) eqn:Heq; simpl in *; [by rewrite Heq|lia].
  - repeat case_match; simpl; done.
  - done.
Qed.

Lemma q_run_bounded {E} (ops : list (q_op E)) q :
  length (q_events q) ≤ q_cap q →
  q_cap (q_run ops q) = q_cap q ∧ length (q_events (q_run ops q)) ≤ q_cap q.
Proof.
  revert q. induction ops as [|op ops IH]; intros q Hq; [done|]. simpl.
  rewrite <- (q_step_cap op q). apply IH. rewrite q_step_cap. by apply q_step_bounded.
Qed.

(** Whatever sends, receives, deduplications and cancellations interleave, the
    buffers never hold more than their 100 and 50 events: a full queue drops
    the new event and keeps the older ones in order. *)
Theorem queues_bounded (rops : list (q_op ReconcileEvent)) (fops : list (q_op FailoverCheckEvent))
    (q : Queue FailoverCheckEvent) (e : FailoverCheckEvent) :
  length (q_events (q_run rops newReconcileQueue)) ≤ 100 ∧
  length (q_events (q_run fops newFailoverCheckQueue)) ≤ 50 ∧
  (length (q_events q) < q_cap q → q_events (q_send e q) = q_events q ++ [e]) ∧
  (q_cap q ≤ length (q_events q) → q_send e q = q).
Proof.
  split; [|split; [|split]].
  - apply (q_run_bounded rops newReconcileQueue). simpl. lia.
  - apply (q_run_bounded fops newFailoverCheckQueue). simpl. lia.
  - intros Hl. unfold q_send. by rewrite bool_decide_eq_true_2.
  - intros Hl. unfold q_send. rewrite bool_decide_eq_false_2 by lia. done.
Qed.

Definition full_queue : Queue FailoverCheckEvent :=
  mkQueue 1 [mkFailoverCheckEvent "" "a" "m-0" 0] ∅ false.

Lemma queues_bounded_witness :
  q_send (mkFailoverCheckEvent "" "b" "m-1" 1) full_queue = full_queue.
Proof.
  destruct (queues_bounded [] [] full_queue (mkFailoverCheckEvent "" "b" "m-1" 1))
    as (_ & _ & _ & Hfull).
  apply Hfull. simpl. lia.
Defined.

(** Deduplication: once an event with a key has been admitted, a later event
    with the same key is dropped exactly as long as the clock is less than two
    seconds after the first one's timestamp, whatever other keys are admitted
    in between. *)
Theorem dedup_window_spec {E} (q q1 q2 : Queue E) (now1 now2 ts1 ts2 : Z) (key : string)
    (others : list (q_op E)) :
  q_admit now1 key ts1 q = (true, q1) →
  Forall (λ op, match op with OpAdmit _ k _ => k ≠ key | _ => True end) others →
  q2 = q_run others q1 →
  (q_admit now2 key ts2 q2).1 = negb (bool_decide (time_sub now2 ts1 < dedup_window)%Z).
Proof.
  intros Hadm Hoth ->.
  assert (q_dedup q1 !! key = Some ts1) as Hk.
  { unfold q_admit in Hadm. destruct (q_dedup q !! key); [case_bool_decide|];
      simplify_eq/=; by rewrite lookup_insert_eq. }
  clear Hadm. revert q1 Hk. induction Hoth as [|op others Hop _ IH]; intros q1 Hk; simpl.
  - unfold q_admit. rewrite Hk. by case_bool_decide.
  - apply IH. destruct op as [e| |n k t|]; simpl in *; unfold q_send, q_receive, q_admit;
      repeat case_match; simplify_eq/=; rewrite ?lookup_insert_ne by done; done.
Qed.

Lemma dedup_window_spec_witness :
  (q_admit 1500000000 "failover:m-0" 1500000000
     (q_admit 10 "failover:m-0" 0 newFailoverCheckQueue).2).1 = false.
Proof.
  rewrite (dedup_window_spec newFailoverCheckQueue
    (q_admit 10 "failover:m-0" 0 newFailoverCheckQueue).2
    (q_admit 10 "failover:m-0" 0 newFailoverCheckQueue).2 10 1500000000 0 1500000000
    "failover:m-0" []); [reflexivity|reflexivity|constructor|reflexivity].
Defined.
