(* ===== verification/LeaderElection.v ===== *)
(** * Leader election: the data of [internal/controller/leader_election.go]

    The lease protocol itself is [k8s.io/client-go]'s; the program configures it,
    keeps its identity and the leader it was last told about. *)

From S2P Require Import Prelude.
From S2P Require Import GoStrings.
From S2P Require Import GoTime.

Record LeaderElection := mkLE { le_identity : string; le_currentLeader : string }.

Definition getPodIdentity (getenv : string → string) (hostname : result string) : result string :=
  let podName := getenv "POD_NAME" in
  if bool_decide (podName ≠ "") then Ok podName
  else match hostname with
       | Err err => Err (Wrapf "failed to get hostname" err)
       | Ok h => Ok h
       end.

Definition NewLeaderElection (getenv : string → string) (hostname : result string)
    : result LeaderElection :=
  match getPodIdentity getenv hostname with
  | Err err => Err (Wrapf "failed to get pod identity" err)
  | Ok identity => Ok (mkLE identity "")
  end.

Definition le_set (leader : string) (le : LeaderElection) : LeaderElection :=
  mkLE (le_identity le) leader.

(** The state change of [onStartLeading]; [true] when the leader is new. *)
Definition le_start (le : LeaderElection) : bool * LeaderElection :=
  (bool_decide (le_currentLeader le ≠ le_identity le), le_set (le_identity le) le).

(** The state change of [onStopLeading]. *)
Definition le_stop (le : LeaderElection) : LeaderElection := le_set "" le.

Definition onNewLeader (currentLeader : string) (le : LeaderElection) : LeaderElection :=
  if bool_decide (currentLeader ≠ le_currentLeader le) then le_set currentLeader le else le.

Definition le_IsLeader (le : LeaderElection) : bool :=
  bool_decide (le_currentLeader le = le_identity le).

Definition GetMyIdentity (le : LeaderElection) : string := le_identity le.

(** What [startLeaderElection] passes to [leaderelection.RunOrDie], the callbacks
    apart: they are [le_step] below. *)
Record LeaderElectionConfig := mkLEConfig {
  lec_LeaseName : string;
  lec_LeaseNamespace : string;
  lec_Identity : string;
  lec_LeaseDuration : Z;
  lec_RenewDeadline : Z;
  lec_RetryPeriod : Z;
  lec_ReleaseOnCancel : bool;
}.

Definition startLeaderElection (namespace : string) (le : LeaderElection) : LeaderElectionConfig :=
  mkLEConfig "memgraph-controller-leader" namespace (le_identity le)
    (15 * Second) (10 * Second) (2 * Second) true.

(** The callbacks client-go runs. *)
Inductive le_event := LeStart | LeStop | LeNew (leader : string).

Definition le_step (le : LeaderElection) (e : le_event) : LeaderElection :=
  match e with
  | LeStart => (le_start le).2
  | LeStop => le_stop le
  | LeNew l => onNewLeader l le
  end.

(** The leader the last callback announced; initially none. *)
Fixpoint announced (identity last : string) (es : list le_event) : string :=
  match es with
  | [] => last
  | LeStart :: es => announced identity identity es
  | LeStop :: es => announced identity "" es
  | LeNew l :: es => announced identity l es
  end.

Lemma le_run (es : list le_event) le :
  foldl le_step le es = mkLE (le_identity le) (announced (le_identity le) (le_currentLeader le) es).
Proof.
  revert le. induction es as [|e es IH]; intros le; simpl; [by destruct le|].
  rewrite IH. destruct e; simpl; try done.
  unfold onNewLeader. case_bool_decide as Hl; simpl; [done|by subst].
Qed.

(** Whatever callbacks client-go delivers, an instance considers itself leader
    exactly when the last of them announced it (a start of leading, or a new
    leader with its identity); its identity never changes and is not empty, so
    a stop leaves it non-leader. *)
Theorem leadership_follows_callbacks (getenv : string → string) (hostname : result string)
    (le : LeaderElection) (es : list le_event) :
  hostname ≠ Ok "" →
  NewLeaderElection getenv hostname = Ok le →
  let le' := foldl le_step le es in
  le_identity le' = le_identity le ∧
  (le_IsLeader le' = true ↔ announced (le_identity le) "" es = le_identity le) ∧
  le_IsLeader le = false ∧ le_IsLeader (le_step le' LeStop) = false ∧
  le_IsLeader (le_step le' LeStart) = true.
Proof.
  intros Hh Hn. unfold NewLeaderElection, getPodIdentity in Hn.
  assert (le_currentLeader le = "" ∧ le_identity le ≠ "") as [Hc Hi].
  { case_bool_decide; [naive_solver|]. destruct hostname; naive_solver. }
  rewrite le_run, Hc. unfold le_IsLeader. simpl. rewrite Hc.
  rewrite !bool_decide_eq_true, !bool_decide_eq_false. naive_solver.
Qed.

Lemma NewLeaderElection_identity getenv hostname le :
  hostname ≠ Ok "" → NewLeaderElection getenv hostname = Ok le → le_identity le ≠ "".
Proof.
  intros Hh Hn. unfold NewLeaderElection, getPodIdentity in Hn.
  case_bool_decide; [naive_solver|]. destruct hostname; naive_solver.
Qed.

Section client_go.
(** [leaderelection.NewLeaderElector] documents what it refuses, and [RunOrDie]
    panics on; the jitter factor is 1.2. *)
Context (newLeaderElector : LeaderElectionConfig → option error).
Hypothesis accepts_valid : ∀ c,
  (lec_RenewDeadline c < lec_LeaseDuration c)%Z →
  (12 * lec_RetryPeriod c < 10 * lec_RenewDeadline c)%Z →
  (0 < lec_RetryPeriod c)%Z → lec_Identity c ≠ "" → newLeaderElector c = None.

(** The election of a controller that was created does not die of its
    configuration. *)
Lemma election_configured getenv hostname le namespace :
  hostname ≠ Ok "" → NewLeaderElection getenv hostname = Ok le →
  newLeaderElector (startLeaderElection namespace le) = None.
Proof.
  intros Hh Hn. apply accepts_valid; [done..|by eapply NewLeaderElection_identity].
Qed.
End client_go.

Definition env_of (kvs : list (string * string)) (key : string) : string :=
  default "" ((list_to_map kvs : gmap string string) !! key).

Lemma leadership_follows_callbacks_witness :
  le_IsLeader (foldl le_step (mkLE "ctl-0" "") [LeNew "ctl-1"; LeStart]) = true.
Proof.
  apply (leadership_follows_callbacks (env_of [("POD_NAME", "ctl-0")]) (Err (OtherErr "no host"))
    (mkLE "ctl-0" "") [LeNew "ctl-1"; LeStart]); [discriminate|reflexivity].
Defined.
