(* ===== verification/ProberState.v ===== *)
(** * The health prober's counters: [internal/controller/prober.go]

    The part of [HealthProber] that is guarded by its own mutex: the two
    failure counters and the running channel.  The checks that feed it are in
    Prober.v. *)

From S2P Require Import Prelude.
From S2P Require Import GoStrings.
From S2P Require Import GoTime.

Record ProberConfig := mkProberConfig {
  pc_CheckInterval : Z; pc_Timeout : Z; pc_FailureThreshold : Z }.

Definition DefaultProberConfig : ProberConfig := mkProberConfig (5 * Second) (3 * Second) 3.

Record HealthProber := mkProber {
  p_config : ProberConfig;
  p_running : bool;                      (* runningCh != nil *)
  p_consecutiveFailures : Z;
  p_lastHealthStatus : bool;
  p_readGatewayConsecutiveFailures : Z;
  p_lastReadGatewayHealthStatus : bool;
}.

Definition NewHealthProber (config : ProberConfig) : HealthProber :=
  mkProber config false 0 true 0 true.

(** [Start]: [true] when the loop goroutine is started. *)
Definition p_Start (p : HealthProber) : bool * HealthProber :=
  if p_running p then (false, p)
  else (true, mkProber (p_config p) true (p_consecutiveFailures p) (p_lastHealthStatus p)
                (p_readGatewayConsecutiveFailures p) (p_lastReadGatewayHealthStatus p)).

Definition p_Stop (p : HealthProber) : HealthProber :=
  if negb (p_running p) then p
  else mkProber (p_config p) false (p_consecutiveFailures p) (p_lastHealthStatus p)
         (p_readGatewayConsecutiveFailures p) (p_lastReadGatewayHealthStatus p).

Definition p_GetHealthStatus (p : HealthProber) : bool * Z :=
  (p_lastHealthStatus p, p_consecutiveFailures p).

(** [recordFailure]; [true] when [triggerFailover] is spawned. *)
Definition recordFailure (p : HealthProber) : bool * HealthProber :=
  let n := int64 (p_consecutiveFailures p + 1) in
  (bool_decide (n = pc_FailureThreshold (p_config p)),
   mkProber (p_config p) (p_running p) n false
     (p_readGatewayConsecutiveFailures p) (p_lastReadGatewayHealthStatus p)).

Definition recordSuccess (p : HealthProber) : HealthProber :=
  mkProber (p_config p) (p_running p) 0 true
    (p_readGatewayConsecutiveFailures p) (p_lastReadGatewayHealthStatus p).

(** [recordReadGatewayFailure]; [true] when the upstream switch is spawned. *)
Definition recordReadGatewayFailure (p : HealthProber) : bool * HealthProber :=
  let n := int64 (p_readGatewayConsecutiveFailures p + 1) in
  (bool_decide (n = pc_FailureThreshold (p_config p)),
   mkProber (p_config p) (p_running p) (p_consecutiveFailures p) (p_lastHealthStatus p)
     n false).

Definition recordReadGatewaySuccess (p : HealthProber) : HealthProber :=
  mkProber (p_config p) (p_running p) (p_consecutiveFailures p) (p_lastHealthStatus p) 0 true.

Definition resetReadGatewayFailures (p : HealthProber) : HealthProber :=
  if bool_decide (0 < p_readGatewayConsecutiveFailures p)%Z then
    mkProber (p_config p) (p_running p) (p_consecutiveFailures p) (p_lastHealthStatus p) 0 true
  else p.

(** ** Properties *)

(** A run of main-pod check results ([true]: the ping succeeded), with the
    number of failovers triggered. *)
Definition probe (p : HealthProber) (ok : bool) : Z * HealthProber :=
  if ok then (0%Z, recordSuccess p)
  else let '(trig, p') := recordFailure p in ((if trig then 1 else 0)%Z, p').

Fixpoint probes (p : HealthProber) (oks : list bool) : Z * HealthProber :=
  match oks with
  | [] => (0%Z, p)
  | ok :: oks =>
      let '(n, p') := probe p ok in
      let '(n', p'') := probes p' oks in ((n + n')%Z, p'')
  end.

Lemma probes_failures (k : nat) p :
  (0 ≤ p_consecutiveFailures p)%Z → (p_consecutiveFailures p + Z.of_nat k < 2 ^ 63)%Z →
  let '(n, p') := probes p (replicate k false) in
  p_config p' = p_config p ∧
  p_consecutiveFailures p' = (p_consecutiveFailures p + Z.of_nat k)%Z ∧
  n = (if bool_decide (p_consecutiveFailures p < pc_FailureThreshold (p_config p)
                       ≤ p_consecutiveFailures p + Z.of_nat k)%Z then 1 else 0)%Z.
Proof.
  revert p. induction k as [|k IH]; intros p H0 Hk.
  - cbn [replicate probes]. split; [done|]. split; [lia|].
    rewrite bool_decide_eq_false_2; [done|lia].
  - cbn [replicate probes probe recordFailure].
    assert (int64 (p_consecutiveFailures p + 1) = p_consecutiveFailures p + 1)%Z as Hi.
    { apply int64_id. unfold in_int64. lia. }
    rewrite Hi. set (p1 := mkProber _ _ _ _ _ _).
    specialize (IH p1). change (p_consecutiveFailures p1) with (p_consecutiveFailures p + 1)%Z in IH.
    change (p_config p1) with (p_config p) in IH.
    destruct (probes p1 (replicate k false)) as [n p''].
    destruct IH as (Hc & Hn & ->); [lia|lia|].
    split; [done|]. split; [rewrite Hn; lia|].
    repeat case_bool_decide; lia.
Qed.

(** The prober triggers a failover once per streak: after a success (or a fresh
    start) a streak of [k] failed checks spawns exactly one failover if it
    reaches the threshold and none if it is shorter, however long it lasts; the
    success that ends it resets the counter, so the next streak triggers
    again. *)
Theorem failover_once_per_streak (p : HealthProber) (k : nat) :
  (0 < pc_FailureThreshold (p_config p))%Z → (Z.of_nat k < 2 ^ 63)%Z →
  let p0 := recordSuccess p in
  (probes p0 (replicate k false)).1 =
    (if bool_decide (pc_FailureThreshold (p_config p) ≤ Z.of_nat k)%Z then 1 else 0)%Z ∧
  p_GetHealthStatus (probes p0 (replicate k false)).2 = (bool_decide (k = 0), Z.of_nat k) ∧
  p_GetHealthStatus (recordSuccess (probes p0 (replicate k false)).2) = (true, 0%Z).
Proof.
  intros Ht Hk p0. pose proof (probes_failures k p0) as HP.
  change (p_consecutiveFailures p0) with 0%Z in HP. change (p_config p0) with (p_config p) in HP.
  assert (p_lastHealthStatus (probes p0 (replicate k false)).2 = bool_decide (k = 0)) as Hl.
  { clear HP. assert (∀ j q, p_lastHealthStatus (probes q (replicate (S j) false)).2 = false) as Hf.
    { induction j as [|j IH]; intros q; [done|].
      change (replicate (S (S j)) false) with (false :: replicate (S j) false).
      cbn [probes probe recordFailure].
      specialize (IH (mkProber (p_config q) (p_running q) (int64 (p_consecutiveFailures q + 1)) false
        (p_readGatewayConsecutiveFailures q) (p_lastReadGatewayHealthStatus q))).
      by destruct (probes _ (replicate (S j) false)). }
    destruct k as [|k]; [done|]. rewrite Hf. done. }
  destruct (probes p0 (replicate k false)) as [n p'].
  destruct HP as (Hc & Hn & Hk'); [lia|lia|]. cbn [fst snd] in *. split; [|split].
  - rewrite Hk'. repeat case_bool_decide; lia.
  - unfold p_GetHealthStatus. by rewrite Hl, Hn.
  - done.
Qed.

Lemma failover_once_per_streak_witness :
  (probes (recordSuccess (NewHealthProber DefaultProberConfig)) (replicate 7 false)).1 = 1%Z.
Proof.
  destruct (failover_once_per_streak (NewHealthProber DefaultProberConfig) 7) as [H _];
    [reflexivity|reflexivity|exact H].
Defined.
