(* ===== verification/ControllerState.v ===== *)
(** * The controller's state: the struct of [internal/controller/controller_core.go]

    [Ctl] is [MemgraphController]; the configuration and the ConfigMap's name
    never change and are parameters of the files that use them.  The pod
    informer is set together with the cluster.  A [*MemgraphNode] of the cluster map is referred to by its
    key: nodes are added to the map but never replaced or removed, so two
    pointers are the same object exactly when they come from the same key.

    The second half defines [effects P], the relation every operation of the
    controller is shown to respect: the trace tells which gateway, index and
    node identities may have changed. *)

From S2P Require Import Prelude.
From S2P Require Import GoStrings.
From S2P Require Import GoTime.
From S2P Require Import DataInfo.
From S2P Require Import Pods.
From S2P Require Import Config.
From S2P Require Import World.
From S2P Require Import ConnectionPool.
From S2P Require Import MemgraphClient.
From S2P Require Import MemgraphNode.
From S2P Require Import GatewayServer.
From S2P Require Import Metrics.
From S2P Require Import Queues.
From S2P Require Import LeaderElection.
From S2P Require Import ProberState.

Record Ctl (W : Type) := mkCtl {
  ctl_net : Net W;  (* memgraphClient's pool and the outside world *)
  ctl_targetMainIndex : Z;  (* -1: not loaded *)
  ctl_cluster : option (gmap string MemgraphNode);  (* nil before StartInformers; otherwise MemgraphNodes, by pod name *)
  ctl_gatewayServer : option Server;
  ctl_readGatewayServer : option Server;
  ctl_leaderElection : LeaderElection;
  ctl_reconcileQueue : option (Queue ReconcileEvent);
  ctl_failoverCheckQueue : option (Queue FailoverCheckEvent);
  ctl_failoverCheckNeeded : bool;
  ctl_isRunning : bool;
  ctl_stopCh : option bool;  (* nil, or whether it is closed *)
  ctl_metrics : option ReconciliationMetrics;
  ctl_promMetrics : option Metrics;
  ctl_healthProber : option HealthProber;
}.
Arguments mkCtl {W}.
Arguments ctl_net {W}.
Arguments ctl_targetMainIndex {W}.
Arguments ctl_cluster {W}.
Arguments ctl_gatewayServer {W}.
Arguments ctl_readGatewayServer {W}.
Arguments ctl_leaderElection {W}.
Arguments ctl_reconcileQueue {W}.
Arguments ctl_failoverCheckQueue {W}.
Arguments ctl_failoverCheckNeeded {W}.
Arguments ctl_isRunning {W}.
Arguments ctl_stopCh {W}.
Arguments ctl_metrics {W}.
Arguments ctl_promMetrics {W}.
Arguments ctl_healthProber {W}.

Section setters.
Context {W : Type}.
Implicit Types s : Ctl W.

Definition set_net (v : Net W) s : Ctl W := mkCtl v (ctl_targetMainIndex s) (ctl_cluster s)
    (ctl_gatewayServer s) (ctl_readGatewayServer s) (ctl_leaderElection s) (ctl_reconcileQueue s)
    (ctl_failoverCheckQueue s) (ctl_failoverCheckNeeded s) (ctl_isRunning s) (ctl_stopCh s)
    (ctl_metrics s) (ctl_promMetrics s) (ctl_healthProber s).
Definition set_targetMainIndex (v : Z) s : Ctl W := mkCtl (ctl_net s) v (ctl_cluster s)
    (ctl_gatewayServer s) (ctl_readGatewayServer s) (ctl_leaderElection s) (ctl_reconcileQueue s)
    (ctl_failoverCheckQueue s) (ctl_failoverCheckNeeded s) (ctl_isRunning s) (ctl_stopCh s)
    (ctl_metrics s) (ctl_promMetrics s) (ctl_healthProber s).
Definition set_cluster (v : option (gmap string MemgraphNode)) s : Ctl W := mkCtl (ctl_net s)
    (ctl_targetMainIndex s) v (ctl_gatewayServer s) (ctl_readGatewayServer s) (ctl_leaderElection
    s) (ctl_reconcileQueue s) (ctl_failoverCheckQueue s) (ctl_failoverCheckNeeded s)
    (ctl_isRunning s) (ctl_stopCh s) (ctl_metrics s) (ctl_promMetrics s) (ctl_healthProber s).
Definition set_gatewayServer (v : option Server) s : Ctl W := mkCtl (ctl_net s)
    (ctl_targetMainIndex s) (ctl_cluster s) v (ctl_readGatewayServer s) (ctl_leaderElection s)
    (ctl_reconcileQueue s) (ctl_failoverCheckQueue s) (ctl_failoverCheckNeeded s) (ctl_isRunning
    s) (ctl_stopCh s) (ctl_metrics s) (ctl_promMetrics s) (ctl_healthProber s).
Definition set_readGatewayServer (v : option Server) s : Ctl W := mkCtl (ctl_net s)
    (ctl_targetMainIndex s) (ctl_cluster s) (ctl_gatewayServer s) v (ctl_leaderElection s)
    (ctl_reconcileQueue s) (ctl_failoverCheckQueue s) (ctl_failoverCheckNeeded s) (ctl_isRunning
    s) (ctl_stopCh s) (ctl_metrics s) (ctl_promMetrics s) (ctl_healthProber s).
Definition set_leaderElection (v : LeaderElection) s : Ctl W := mkCtl (ctl_net s)
    (ctl_targetMainIndex s) (ctl_cluster s) (ctl_gatewayServer s) (ctl_readGatewayServer s) v
    (ctl_reconcileQueue s) (ctl_failoverCheckQueue s) (ctl_failoverCheckNeeded s) (ctl_isRunning
    s) (ctl_stopCh s) (ctl_metrics s) (ctl_promMetrics s) (ctl_healthProber s).
Definition set_reconcileQueue (v : option (Queue ReconcileEvent)) s : Ctl W := mkCtl (ctl_net s)
    (ctl_targetMainIndex s) (ctl_cluster s) (ctl_gatewayServer s) (ctl_readGatewayServer s)
    (ctl_leaderElection s) v (ctl_failoverCheckQueue s) (ctl_failoverCheckNeeded s) (ctl_isRunning
    s) (ctl_stopCh s) (ctl_metrics s) (ctl_promMetrics s) (ctl_healthProber s).
Definition set_failoverCheckQueue (v : option (Queue FailoverCheckEvent)) s : Ctl W := mkCtl
    (ctl_net s) (ctl_targetMainIndex s) (ctl_cluster s) (ctl_gatewayServer s)
    (ctl_readGatewayServer s) (ctl_leaderElection s) (ctl_reconcileQueue s) v
    (ctl_failoverCheckNeeded s) (ctl_isRunning s) (ctl_stopCh s) (ctl_metrics s) (ctl_promMetrics
    s) (ctl_healthProber s).
Definition set_failoverCheckNeeded (v : bool) s : Ctl W := mkCtl (ctl_net s) (ctl_targetMainIndex
    s) (ctl_cluster s) (ctl_gatewayServer s) (ctl_readGatewayServer s) (ctl_leaderElection s)
    (ctl_reconcileQueue s) (ctl_failoverCheckQueue s) v (ctl_isRunning s) (ctl_stopCh s)
    (ctl_metrics s) (ctl_promMetrics s) (ctl_healthProber s).
Definition set_isRunning (v : bool) s : Ctl W := mkCtl (ctl_net s) (ctl_targetMainIndex s)
    (ctl_cluster s) (ctl_gatewayServer s) (ctl_readGatewayServer s) (ctl_leaderElection s)
    (ctl_reconcileQueue s) (ctl_failoverCheckQueue s) (ctl_failoverCheckNeeded s) v (ctl_stopCh s)
    (ctl_metrics s) (ctl_promMetrics s) (ctl_healthProber s).
Definition set_stopCh (v : option bool) s : Ctl W := mkCtl (ctl_net s) (ctl_targetMainIndex s)
    (ctl_cluster s) (ctl_gatewayServer s) (ctl_readGatewayServer s) (ctl_leaderElection s)
    (ctl_reconcileQueue s) (ctl_failoverCheckQueue s) (ctl_failoverCheckNeeded s) (ctl_isRunning
    s) v (ctl_metrics s) (ctl_promMetrics s) (ctl_healthProber s).
Definition set_metrics (v : option ReconciliationMetrics) s : Ctl W := mkCtl (ctl_net s)
    (ctl_targetMainIndex s) (ctl_cluster s) (ctl_gatewayServer s) (ctl_readGatewayServer s)
    (ctl_leaderElection s) (ctl_reconcileQueue s) (ctl_failoverCheckQueue s)
    (ctl_failoverCheckNeeded s) (ctl_isRunning s) (ctl_stopCh s) v (ctl_promMetrics s)
    (ctl_healthProber s).
Definition set_promMetrics (v : option Metrics) s : Ctl W := mkCtl (ctl_net s)
    (ctl_targetMainIndex s) (ctl_cluster s) (ctl_gatewayServer s) (ctl_readGatewayServer s)
    (ctl_leaderElection s) (ctl_reconcileQueue s) (ctl_failoverCheckQueue s)
    (ctl_failoverCheckNeeded s) (ctl_isRunning s) (ctl_stopCh s) (ctl_metrics s) v
    (ctl_healthProber s).
Definition set_healthProber (v : option HealthProber) s : Ctl W := mkCtl (ctl_net s)
    (ctl_targetMainIndex s) (ctl_cluster s) (ctl_gatewayServer s) (ctl_readGatewayServer s)
    (ctl_leaderElection s) (ctl_reconcileQueue s) (ctl_failoverCheckQueue s)
    (ctl_failoverCheckNeeded s) (ctl_isRunning s) (ctl_stopCh s) (ctl_metrics s) (ctl_promMetrics
    s) v.

End setters.

(** ** Access to the parts of the state *)

Section access.
Context {W : Type} `{World W}.
Implicit Types s : Ctl W.

Global Instance Ctl_trace : HasTrace (Ctl W) := λ s, net_trace (ctl_net s).

(** An operation of the network. *)
Definition cnet {A} (m : M (Net W) A) : M (Ctl W) A := zoom ctl_net set_net m.

(** [c.cluster.MemgraphNodes]: a nil cluster panics. *)
Definition get_nodes : M (Ctl W) (gmap string MemgraphNode) := λ s,
  match ctl_cluster s with
  | Some nodes => (Ret nodes, s)
  | None => (Panic nil_deref, s)
  end.

Definition node_at s (podName : string) : option MemgraphNode :=
  nodes ← ctl_cluster s; nodes !! podName.

(** [c.cluster.MemgraphNodes[podName]] with its [exists] flag. *)
Definition find_node (podName : string) : M (Ctl W) (option MemgraphNode) :=
  nodes ← get_nodes; mret (nodes !! podName).

(** A method call on the node of a pod; a nil node panics. *)
Definition on_node {A} (podName : string) (m : M (NodeNet W) A) : M (Ctl W) A := λ s,
  match node_at s podName with
  | None => (Panic nil_deref, s)
  | Some node =>
      match m (node, ctl_net s) with
      | (o, (node', net')) =>
          (o, set_net net' (set_cluster (insert podName node' <$> ctl_cluster s) s))
      end
  end.

(** [node.GetName()] *)
Definition GetName (podName : string) : M (Ctl W) string := on_node podName (field mn_name).

(** The two gateways: the read-only one is nil unless it is enabled. *)
Definition gateway_of (read : bool) s : option Server :=
  if read then ctl_readGatewayServer s else ctl_gatewayServer s.
Definition upstream (read : bool) s : option string := srv_upstreamAddress <$> gateway_of read s.
Definition set_gateway (read : bool) (v : option Server) s : Ctl W :=
  if read then set_readGatewayServer v s else set_gatewayServer v s.

Definition add_trace (e : io) s : Ctl W := set_net (add_event e (ctl_net s)) s.

Definition gw_nil (read : bool) : M (Ctl W) bool := gets (λ s, is_nil (gateway_of read s)).

(** [c.gatewayServer.SetUpstreamAddress(ctx, address)] *)
Definition gw_SetUpstreamAddress (read : bool) (address : string) : M (Ctl W) () := λ s,
  match gateway_of read s with
  | None => (Panic nil_deref, s)
  | Some g => (Ret (), add_trace (IoGateway read address)
                        (set_gateway read (Some (SetUpstreamAddress address g)) s))
  end.

(** [c.readGatewayServer.DisconnectAll(ctx)] *)
Definition gw_DisconnectAll (read : bool) : M (Ctl W) () := λ s,
  match gateway_of read s with
  | None => (Panic nil_deref, s)
  | Some g => (Ret (), add_trace (IoDisconnect read)
                        (set_gateway read (Some (DisconnectAll g)) s))
  end.

Definition gw_GetUpstreamAddress (read : bool) : M (Ctl W) string := λ s,
  match gateway_of read s with
  | None => (Panic nil_deref, s)
  | Some g => (Ret (GetUpstreamAddress g), s)
  end.

(** ** Effects

    [effects P s s']: the trace grew by events satisfying [P]; a gateway only
    changed if one of them switched or disconnected it, a loaded target index
    only if the ConfigMap was written (one that is not loaded may be read from
    it, [index_kept]), the names and addresses of the nodes
    only at a refresh; and the fields outside of the cluster's business did not
    change. *)

Definition touches_gateway (read : bool) (e : io) : Prop :=
  match e with IoGateway r _ | IoDisconnect r => r = read | _ => False end.
Definition is_configmap (e : io) : Prop :=
  match e with IoConfigMap _ => True | _ => False end.
Definition is_refresh (e : io) : Prop := e = IoRefresh.

Definition node_id (n : MemgraphNode) : string * string := (mn_name n, mn_ipAddress n).
Definition ids s : option (gmap string (string * string)) :=
  (λ nodes : gmap string MemgraphNode, node_id <$> nodes) <$> ctl_cluster s.

Definition others s :=
  (ctl_leaderElection s, ctl_reconcileQueue s, ctl_failoverCheckQueue s,
   ctl_isRunning s, ctl_stopCh s, ctl_healthProber s, ctl_metrics s).

Definition index_kept : relation (Ctl W) := λ s s',
  ctl_targetMainIndex s' = ctl_targetMainIndex s ∨
  (ctl_targetMainIndex s = (-1)%Z ∧ stored_index (W := W) (ctl_targetMainIndex s')).

Global Instance index_kept_preorder : PreOrder index_kept.
Proof.
  split; [by left|]. intros s1 s2 s3 [E1|[E1 L1]] [E2|[E2 L2]]; unfold index_kept;
    [left; congruence|right; split; congruence|right; split; [done|congruence]|by right].
Qed.

Lemma index_kept_loaded s s' :
  index_kept s s' → ctl_targetMainIndex s ≠ (-1)%Z → ctl_targetMainIndex s' = ctl_targetMainIndex s.
Proof. by intros [?|[? _]]. Qed.

Lemma index_kept_same s s' : ctl_targetMainIndex s' = ctl_targetMainIndex s → index_kept s s'.
Proof. by left. Qed.

Definition effects (P : io → Prop) : relation (Ctl W) := λ s s',
  others s' = others s ∧
  ∃ evs, trace_of s' = trace_of s ++ evs ∧ Forall P evs ∧
    (∀ r, Forall (λ e, ¬ touches_gateway r e) evs → gateway_of r s' = gateway_of r s) ∧
    (Forall (λ e, ¬ is_configmap e) evs → index_kept s s') ∧
    (Forall (λ e, ¬ is_refresh e) evs → ids s' = ids s).

Global Instance effects_preorder P : PreOrder (effects P).
Proof.
  split.
  - intros s. split; [done|]. exists []. rewrite app_nil_r. split_and!; done.
  - intros s1 s2 s3 (O1 & e1 & T1 & F1 & G1 & I1 & N1) (O2 & e2 & T2 & F2 & G2 & I2 & N2).
    split; [congruence|]. exists (e1 ++ e2). rewrite T2, T1, app_assoc.
    setoid_rewrite Forall_app. split; [done|]. split; [done|]. split; [|split].
    + intros r [? ?]. etrans; [by apply G2|by apply G1].
    + intros [? ?]. etrans; [by apply I1|by apply I2].
    + intros [? ?]. etrans; [by apply N2|by apply N1].
Qed.

Lemma effects_mono (P P' : io → Prop) s s' :
  (∀ e, P e → P' e) → effects P s s' → effects P' s s'.
Proof.
  intros HP (O & evs & T & F & R). split; [done|]. exists evs. split; [done|].
  split; [eapply Forall_impl; eauto|done].
Qed.

Lemma effects_emits P s s' : effects P s s' → emits P s s'.
Proof. intros (_ & evs & T & F & _). by exists evs. Qed.

(** What a class of events cannot touch stays as it was. *)
Lemma effects_gateway P s s' r :
  effects P s s' → (∀ e, P e → ¬ touches_gateway r e) → gateway_of r s' = gateway_of r s.
Proof. intros (_ & evs & _ & F & G & _) HP. apply G. eapply Forall_impl; eauto. Qed.

Lemma effects_index P s s' :
  effects P s s' → (∀ e, P e → ¬ is_configmap e) → ctl_targetMainIndex s ≠ (-1)%Z →
  ctl_targetMainIndex s' = ctl_targetMainIndex s.
Proof.
  intros (_ & evs & _ & F & _ & I & _) HP Hi. apply index_kept_loaded; [|done]. apply I.
  eapply Forall_impl; eauto.
Qed.

Lemma effects_ids P s s' :
  effects P s s' → (∀ e, P e → ¬ is_refresh e) → ids s' = ids s.
Proof. intros (_ & evs & _ & F & _ & _ & N) HP. apply N. eapply Forall_impl; eauto. Qed.

Lemma effects_others P s s' : effects P s s' → others s' = others s.
Proof. by intros [? _]. Qed.

(** Whether the loop runs, and the informers' stop channel. *)
Definition lifecycle s := (ctl_isRunning s, ctl_stopCh s).

Lemma effects_lifecycle P s s' : effects P s s' → lifecycle s' = lifecycle s.
Proof. intros [= _ _ _ Hr Hs _ _]%effects_others. unfold lifecycle. congruence. Qed.

(** A step without events. *)
Lemma effects_silent P s s' :
  others s' = others s → trace_of s' = trace_of s → ids s' = ids s →
  (∀ r, gateway_of r s' = gateway_of r s) →
  index_kept s s' → effects P s s'.
Proof.
  intros O T N G I. split; [done|]. exists []. rewrite app_nil_r.
  split_and!; auto.
Qed.

(** A step with one event. *)
Lemma effects_one (P : io → Prop) e s s' :
  P e → others s' = others s → trace_of s' = trace_of s ++ [e] →
  (¬ is_refresh e → ids s' = ids s) →
  (∀ r, ¬ touches_gateway r e → gateway_of r s' = gateway_of r s) →
  (¬ is_configmap e → index_kept s s') →
  effects P s s'.
Proof.
  intros HP O T N G I. split; [done|]. exists [e]. split; [done|].
  setoid_rewrite Forall_singleton. split_and!; auto.
Qed.

Lemma keeps_cnet {A} (P : io → Prop) (m : M (Net W) A) :
  keeps (emits (λ e, P e ∧ ∃ a q, e = IoQuery a q)) m → keeps (effects P) (cnet m).
Proof.
  intros Hm s. unfold cnet, zoom. specialize (Hm (ctl_net s)).
  destruct (m (ctl_net s)) as [o n']. destruct Hm as (evs & T & F).
  split; [done|]. exists evs. split; [done|]. split.
  - eapply Forall_impl; [exact F|]. naive_solver.
  - split; [by intros []|]. split; [intros _; by left|done].
Qed.

(** Calls of the world have no event. *)
Lemma keeps_world P {A} (m : M (Net W) A) :
  keeps (emits (λ _, False)) m → keeps (effects P) (cnet m).
Proof.
  intros Hm. apply keeps_cnet. eapply keeps_weaken; [exact Hm|].
  intros s s'. apply emits_mono. done.
Qed.

Lemma keeps_get_nodes P : keeps (effects P) get_nodes.
Proof. intros s. unfold get_nodes. destruct (ctl_cluster s); reflexivity. Qed.

Lemma keeps_find_node P k : keeps (effects P) (find_node k).
Proof.
  apply keeps_bind; [typeclasses eauto|apply keeps_get_nodes|intros ?; apply keeps_ret, _].
Qed.

Lemma keeps_gw_nil P r : keeps (effects P) (gw_nil r).
Proof. apply keeps_gets, _. Qed.

Lemma keeps_gw_GetUpstreamAddress P r : keeps (effects P) (gw_GetUpstreamAddress r).
Proof. intros s. unfold gw_GetUpstreamAddress. destruct (gateway_of r s); reflexivity. Qed.

Lemma keeps_gw_SetUpstreamAddress (P : io → Prop) r a :
  P (IoGateway r a) → keeps (effects P) (gw_SetUpstreamAddress r a).
Proof.
  intros HP s. unfold gw_SetUpstreamAddress. destruct (gateway_of r s) eqn:Hg; [|reflexivity].
  apply (effects_one P (IoGateway r a)); simpl; [done|by destruct r|by destruct r|by destruct r| |].
  - intros r' Hr. destruct r, r'; simpl; congruence.
  - intros _. left. by destruct r.
Qed.

Lemma keeps_gw_DisconnectAll (P : io → Prop) r :
  P (IoDisconnect r) → keeps (effects P) (gw_DisconnectAll r).
Proof.
  intros HP s. unfold gw_DisconnectAll. destruct (gateway_of r s) eqn:Hg; [|reflexivity].
  apply (effects_one P (IoDisconnect r)); simpl; [done|by destruct r|by destruct r|by destruct r| |].
  - intros r' Hr. destruct r, r'; simpl; congruence.
  - intros _. left. by destruct r.
Qed.

Lemma ids_insert s k n n' :
  node_at s k = Some n → node_id n' = node_id n →
  (λ nodes : gmap string MemgraphNode, node_id <$> nodes) <$> (insert k n' <$> ctl_cluster s)
    = ids s.
Proof.
  unfold node_at, ids. destruct (ctl_cluster s) as [nodes|]; [|done]. simpl.
  intros Hn Hid. f_equal. rewrite fmap_insert, Hid. apply insert_id.
  by rewrite lookup_fmap, Hn.
Qed.

(** A method call that returned: the node was there, and only it changed. *)
Lemma on_node_inv {A} k (m : M (NodeNet W) A) s a s' :
  on_node k m s = (Ret a, s') →
  ∃ n n' net', node_at s k = Some n ∧ m (n, ctl_net s) = (Ret a, (n', net')) ∧
    node_at s' k = Some n' ∧ ctl_net s' = net' ∧
    ∀ k', k' ≠ k → node_at s' k' = node_at s k'.
Proof.
  unfold on_node. destruct (node_at s k) as [n|] eqn:Hn; [|done].
  destruct (m (n, ctl_net s)) as [o [n' net']] eqn:Hm. intros [= -> <-].
  exists n, n', net'. split; [done|]. split; [done|].
  unfold node_at in *. simpl. destruct (ctl_cluster s) as [nodes|]; simpl in *; [|done].
  rewrite lookup_insert_eq. split; [done|]. split; [done|].
  intros k' Hk. by rewrite lookup_insert_ne.
Qed.

Lemma node_at_id s s' k : ids s' = ids s → node_id <$> node_at s' k = node_id <$> node_at s k.
Proof.
  unfold ids, node_at. destruct (ctl_cluster s) as [m|], (ctl_cluster s') as [m'|]; simpl;
    intros Hids; try done. injection Hids as Hids.
  by rewrite <- !lookup_fmap, Hids.
Qed.

Lemma get_nodes_inv s nodes s' :
  get_nodes s = (Ret nodes, s') → s' = s ∧ ctl_cluster s = Some nodes.
Proof. unfold get_nodes. destruct (ctl_cluster s); naive_solver. Qed.

Lemma find_node_inv s k n s' : find_node k s = (Ret n, s') → s' = s ∧ n = node_at s k.
Proof.
  unfold find_node. intros Hr. inv_bind Hr as nodes s1 Hn. apply get_nodes_inv in Hn as [-> Hn].
  injection Hr as <- <-. unfold node_at. by rewrite Hn.
Qed.

Lemma on_node_field_inv {A} k (f : MemgraphNode → A) s a s' :
  on_node k (field f) s = (Ret a, s') →
  ∃ n, node_at s k = Some n ∧ a = f n ∧ (∀ k', node_at s' k' = node_at s k') ∧
    ctl_net s' = ctl_net s.
Proof.
  intros Hr. apply on_node_inv in Hr as (n & n' & net' & Hn & Hm & Hn' & Hnet & Hk).
  injection Hm as <- <- <-. exists n. split; [done|]. split; [done|]. split; [|done].
  intros k'. destruct (decide (k' = k)) as [->|]; [congruence|auto].
Qed.

(** Reading a field leaves the whole state alone. *)
Lemma on_node_field_run {A} k (f : MemgraphNode → A) s a s' :
  on_node k (field f) s = (Ret a, s') → s' = s ∧ ∃ n, node_at s k = Some n ∧ a = f n.
Proof.
  unfold on_node, field, gets. destruct (node_at s k) as [n|] eqn:Hn; [|done]. intros [= <- <-].
  split; [|eauto]. unfold node_at in Hn. destruct s as [? ? [nodes|] ? ? ? ? ? ? ? ? ? ? ?]; [|done].
  unfold set_net, set_cluster. simpl in *. by rewrite insert_id.
Qed.

(** The effects of a method of a node are those of the node's queries, at its
    own address. *)
Lemma on_node_effects {A} (P : io → Prop) (Q : string → Prop) k (m : M (NodeNet W) A) s :
  keeps (node_step Q) m →
  (∀ n q, node_at s k = Some n → mn_ipAddress n ≠ "" → Q q →
     P (IoQuery (mn_ipAddress n +:+ ":7687") q)) →
  effects P s (on_node k m s).2.
Proof.
  intros Hm HP. unfold on_node. destruct (node_at s k) as [n|] eqn:Hn; [|reflexivity].
  specialize (Hm (n, ctl_net s)). destruct (m (n, ctl_net s)) as [o [n' net']].
  destruct Hm as (Hname & Hip & evs & T & F). simpl in Hname, Hip.
  split; [done|]. exists evs. split; [exact T|]. split; [|split; [|split]].
  - eapply Forall_impl; [exact F|]. intros e (q & Hb & -> & Hq). apply HP; try done.
    unfold GetBoltAddress in Hb. simpl in Hb. by case_bool_decide.
  - by intros [].
  - intros _. by left.
  - intros _. unfold ids at 1. simpl. apply (ids_insert s k n n' Hn). unfold node_id. congruence.
Qed.

Lemma keeps_on_node {A} (P : io → Prop) (Q : string → Prop) k (m : M (NodeNet W) A) :
  keeps (node_step Q) m → (∀ a q, Q q → P (IoQuery a q)) → keeps (effects P) (on_node k m).
Proof. intros Hm HP s. by apply (on_node_effects P Q); auto. Qed.

Lemma keeps_GetName P k : keeps (effects P) (GetName k).
Proof. apply (keeps_on_node P (λ _, False)); [apply keeps_field|done]. Qed.

(** ** Effects for a fixed set of nodes

    [within X P]: from a state whose nodes have the names and addresses [X], the
    step has effects [P] and the nodes keep them; so [P] can speak of [X]. *)
Definition within (X : option (gmap string (string * string))) (P : io → Prop) : relation (Ctl W) :=
  λ s s', ids s = X → effects P s s' ∧ ids s' = X.

Global Instance within_preorder X P : PreOrder (within X P).
Proof.
  split.
  - intros s Hs. split; [reflexivity|done].
  - intros s1 s2 s3 H12 H23 Hs. destruct (H12 Hs) as [E1 I1]. destruct (H23 I1) as [E2 I2].
    split; [by etrans|done].
Qed.

Lemma keeps_within {A} X (P : io → Prop) (m : M (Ctl W) A) :
  (∀ e, P e → ¬ is_refresh e) → keeps (effects P) m → keeps (within X P) m.
Proof.
  intros HP Hm s Hs. split; [apply Hm|]. rewrite (effects_ids P s _ (Hm s)); done.
Qed.

Lemma ids_lookup s k n :
  node_at s k = Some n → ∃ m, ids s = Some m ∧ m !! k = Some (node_id n).
Proof.
  unfold node_at, ids. destruct (ctl_cluster s) as [nodes|]; [|done]. simpl. intros Hn.
  eexists. split; [done|]. by rewrite lookup_fmap, Hn.
Qed.

(** The Bolt address of a pod among [X]. *)
Definition address_in (X : option (gmap string (string * string))) (k a : string) : Prop :=
  ∃ m name ip, X = Some m ∧ m !! k = Some (name, ip) ∧ a = ip +:+ ":7687".

Lemma address_in_node s k n : node_at s k = Some n → address_in (ids s) k (bolt_of n).
Proof. intros (m & Hm & Hk)%ids_lookup. by exists m, (mn_name n), (mn_ipAddress n). Qed.

Lemma address_in_inv s k a :
  address_in (ids s) k a → ∃ n, node_at s k = Some n ∧ a = bolt_of n.
Proof.
  intros (m & name & ip & Hids & Hk & ->). unfold ids, node_at in *.
  destruct (ctl_cluster s) as [nodes|]; [|done]. simpl in *. injection Hids as <-.
  rewrite lookup_fmap in Hk. destruct (nodes !! k) as [n|]; [|done]. exists n. split; [done|].
  injection Hk as _ <-. done.
Qed.

Lemma keeps_within_node {A} X (P : io → Prop) (Q : string → Prop) k (m : M (NodeNet W) A) :
  (∀ e, P e → ¬ is_refresh e) → keeps (node_step Q) m →
  (∀ a q, address_in X k a → Q q → P (IoQuery a q)) → keeps (within X P) (on_node k m).
Proof.
  intros HP Hm HQ s Hs.
  assert (effects P s (on_node k m s).2) as He.
  { apply (on_node_effects P Q); [done|]. intros n q Hn _ Hq. apply HQ; [|done].
    rewrite <- Hs. by apply address_in_node. }
  split; [done|]. by rewrite (effects_ids P s _ He).
Qed.

(** ** Freedom from panics: what an initialised controller has

    [initialized X rg s]: the informer has started and the nodes are those of
    the pods [X]; the gateway, the queues and the prober exist; the read gateway
    exists if [rg]. *)
Definition initialized (X : gset string) (rg : bool) s : Prop :=
  (∃ nodes, ctl_cluster s = Some nodes ∧ dom nodes = X) ∧
  is_Some (ctl_gatewayServer s) ∧ is_nil (ctl_readGatewayServer s) = negb rg ∧
  is_Some (ctl_reconcileQueue s) ∧ is_Some (ctl_failoverCheckQueue s) ∧
  is_Some (ctl_healthProber s).

Section initialized.
Context (X : gset string) (rg : bool).
#[local] Abbreviation I := (initialized X rg).

Lemma initialized_net n s : I s → I (set_net n s).
Proof. done. Qed.

Lemma safe_cnet {A} (m : M (Net W) A) Φ : safe anywhere m Φ → safe I (cnet m) Φ.
Proof. intros Hm. by eapply safe_zoom. Qed.

Lemma safe_get_nodes : safe I get_nodes (λ nodes, dom nodes = X).
Proof.
  intros s HI. pose proof HI as [(nodes & Hn & Hd) _]. exists nodes, s.
  unfold get_nodes. by rewrite Hn.
Qed.

Lemma safe_find_node k : safe I (find_node k) (λ n, is_Some n → k ∈ X).
Proof.
  unfold find_node. eapply safe_bind; [apply safe_get_nodes|]. intros nodes Hd.
  apply safe_ret. intros Hs. rewrite <- Hd. by apply elem_of_dom.
Qed.

Lemma safe_on_node {A} k (m : M (NodeNet W) A) Φ :
  k ∈ X → safe anywhere m Φ → safe I (on_node k m) Φ.
Proof.
  intros Hk Hm s HI. pose proof HI as [(nodes & Hn & Hd) Hrest].
  assert (is_Some (nodes !! k)) as [n Hnk] by (apply elem_of_dom; by rewrite Hd).
  destruct (Hm (n, ctl_net s) Logic.I) as (a & [n' net'] & Hr & _ & HΦ).
  unfold on_node, node_at. rewrite Hn. simpl. rewrite Hnk, Hr.
  eexists _, _. split; [done|]. split; [|done]. split; [|exact Hrest].
  exists (<[k:=n']> nodes). simpl. split; [done|]. rewrite dom_insert_L, Hd. set_solver.
Qed.

Lemma safe_GetName k : k ∈ X → safe I (GetName k) anything.
Proof. intros Hk. apply safe_on_node; [done|apply safe_gets]. Qed.

Lemma safe_gw_nil : safe I (gw_nil true) (λ b, b = negb rg).
Proof. intros s HI. exists (negb rg), s. split; [|done].
  destruct HI as (_ & _ & Hr & _). unfold gw_nil, gets. simpl. by rewrite Hr.
Qed.

Lemma gateway_present r s : I s → (r = true → rg = true) → is_Some (gateway_of r s).
Proof.
  intros (_ & Hg & Hr & _) Hrg. destruct r; [|done]. simpl.
  rewrite Hrg in Hr by done. by destruct (ctl_readGatewayServer s).
Qed.

Lemma initialized_set_gateway r g s : I s → (r = true → rg = true) → I (set_gateway r (Some g) s).
Proof.
  intros (Hn & Hg & Hr & Hq & Hf & Hp) Hrg. destruct r; repeat split; try done; simpl.
  by rewrite Hrg.
Qed.

Lemma safe_gw_SetUpstreamAddress r a :
  (r = true → rg = true) → safe I (gw_SetUpstreamAddress r a) anything.
Proof.
  intros Hrg s HI. destruct (gateway_present r s HI Hrg) as [g Hg].
  unfold gw_SetUpstreamAddress. rewrite Hg. eexists _, _. split; [done|]. split; [|done].
  by apply initialized_net, initialized_set_gateway.
Qed.

Lemma safe_gw_DisconnectAll r : (r = true → rg = true) → safe I (gw_DisconnectAll r) anything.
Proof.
  intros Hrg s HI. destruct (gateway_present r s HI Hrg) as [g Hg].
  unfold gw_DisconnectAll. rewrite Hg. eexists _, _. split; [done|]. split; [|done].
  by apply initialized_net, initialized_set_gateway.
Qed.

Lemma safe_gw_GetUpstreamAddress r :
  (r = true → rg = true) → safe I (gw_GetUpstreamAddress r) anything.
Proof.
  intros Hrg s HI. destruct (gateway_present r s HI Hrg) as [g Hg].
  unfold gw_GetUpstreamAddress. rewrite Hg. by eexists _, _.
Qed.
End initialized.

End access.


#[export] Hint Resolve keeps_get_nodes keeps_find_node keeps_gw_nil keeps_gw_GetUpstreamAddress
  keeps_GetName : keeps.
#[export] Hint Extern 2 (keeps (effects _) (gw_SetUpstreamAddress _ _)) =>
  (apply keeps_gw_SetUpstreamAddress; simpl; tauto) : keeps.
#[export] Hint Extern 2 (keeps (effects _) (gw_DisconnectAll _)) =>
  (apply keeps_gw_DisconnectAll; simpl; tauto) : keeps.
#[export] Hint Resolve safe_cnet safe_get_nodes safe_find_node safe_on_node safe_GetName
  safe_gw_nil safe_gw_SetUpstreamAddress safe_gw_DisconnectAll safe_gw_GetUpstreamAddress : safe.
