(* ===== verification/Sim.v ===== *)
(** * A small simulated world

    An instance of [World] used by the witnesses: pods in a cache, a Memgraph
    server per Bolt address with a role and registered replicas, a ConfigMap,
    and a clock.  It models no code; it only shows that the hypotheses of the
    theorems can hold and lets the definitions run on concrete clusters. *)

From S2P Require Import Prelude.
From S2P Require Import GoStrings.
From S2P Require Import GoTime.
From S2P Require Import DataInfo.
From S2P Require Import Pods.
From S2P Require Import Config.
From S2P Require Import World.
From S2P Require Import ConnectionPool.
From S2P Require Import MemgraphClient.
From S2P Require Import MemgraphNode.
From S2P Require Import GatewayConfig.
From S2P Require Import GatewayServer.
From S2P Require Import Metrics.
From S2P Require Import Queues.
From S2P Require Import LeaderElection.
From S2P Require Import ProberState.
From S2P Require Import ControllerState.

Record SimDB := mkDB {
  db_role : string;
  db_replicas : list record;
  db_empty : bool;
}.

Record Sim := mkSim {
  sim_pods : list Pod;
  sim_dbs : gmap string SimDB;      (* by Bolt address; absent: unreachable *)
  sim_drivers : gmap Z string;      (* open drivers *)
  sim_next : Z;
  sim_cm : option cm_data;
  sim_clock : Z;
}.

Definition sim_set_db (a : string) (db : SimDB) (w : Sim) : Sim :=
  mkSim (sim_pods w) (<[a := db]> (sim_dbs w)) (sim_drivers w) (sim_next w) (sim_cm w) (sim_clock w).
Definition sim_set_cm (d : cm_data) (w : Sim) : Sim :=
  mkSim (sim_pods w) (sim_dbs w) (sim_drivers w) (sim_next w) (Some d) (sim_clock w).

(** "bolt://10.0.0.1:7687" without its scheme. *)
Definition uri_addr (uri : string) : string := string_drop 7 uri.

Definition sim_reg_name (query : string) : option string :=
  if has_prefix query "REGISTER REPLICA " then
    match String.index 0 " " (string_drop 17 query) with
    | Some n => Some (String.substring 0 n (string_drop 17 query))
    | None => None
    end
  else None.

Definition ready_record (name mode : string) : record :=
  {[ "name" := VString name; "socket_address" := VString ""; "sync_mode" := VString mode;
     "data_info" := VMap healthy_map ]}.

Definition sim_query (q : string) (db : SimDB) : result (list record) * SimDB :=
  if bool_decide (q = q_show_role) then
    (Ok [{[ "replication role" := VString (db_role db) ]}], db)
  else if bool_decide (q = q_show_replicas) then (Ok (db_replicas db), db)
  else if bool_decide (q = q_storage) then
    (Ok [{[ "vertex_count" := VInt64 (if db_empty db then 0 else 5);
            "edge_count" := VInt64 0 ]}], db)
  else if bool_decide (q = q_promote) then (Ok [], mkDB "main" (db_replicas db) (db_empty db))
  else if bool_decide (q = q_demote) then (Ok [], mkDB "replica" [] (db_empty db))
  else
    match sim_reg_name q with
    | Some name =>
        let mode := if contains q "STRICT_SYNC" then "strict_sync" else "async" in
        (Ok [], mkDB (db_role db) (db_replicas db ++ [ready_record name mode]) (db_empty db))
    | None => (Ok [], db)
    end.

Definition sim_addr (w : Sim) (d : Z) : string := default "" (sim_drivers w !! d).

Definition sim_run (d : Z) (q : string) (w : Sim) : result (list record) * Sim :=
  match sim_dbs w !! sim_addr w d with
  | None => (Err (OtherErr "connection refused"), w)
  | Some db => let '(r, db') := sim_query q db in (r, sim_set_db (sim_addr w d) db' w)
  end.

Definition find_pod (name : string) (pods : list Pod) : option Pod :=
  find (λ p, bool_decide (pod_Name p = name)) pods.

Global Instance Sim_world : World Sim := {
  w_new_driver uri _ _ w :=
    (Ok (sim_next w),
     mkSim (sim_pods w) (sim_dbs w) (<[sim_next w := uri_addr uri]> (sim_drivers w))
       (sim_next w + 1) (sim_cm w) (sim_clock w));
  w_verify d w :=
    (match sim_dbs w !! sim_addr w d with
     | Some _ => None
     | None => Some (OtherErr "connection refused")
     end, w);
  w_close_driver d w :=
    (None, mkSim (sim_pods w) (sim_dbs w) (delete d (sim_drivers w)) (sim_next w) (sim_cm w)
             (sim_clock w));
  w_session_run := sim_run;
  w_select _ _ _ w := (SelResult, w);
  w_yaml_unmarshal _ := Err (OtherErr "no yaml here");
  w_show_value _ := "";
  w_cm_get _ _ w :=
    (match sim_cm w with Some d => Ok d | None => Err (OtherErr "not found") end, w);
  w_cm_update _ _ d _ w :=
    match sim_cm w with
    | Some _ => (None, sim_set_cm d w)
    | None => (Some (OtherErr "not found"), w)
    end;
  w_cm_create _ _ d _ w := (None, sim_set_cm d w);
  w_is_not_found e := bool_decide (error_string e = "not found");
  w_pod_get _ name w :=
    (match find_pod name (sim_pods w) with Some p => Ok p | None => Err (OtherErr "not found") end, w);
  w_replicaset_owners _ _ w := (Ok [], w);
  w_lease_holder _ _ w := (Ok None, w);
  w_store_list w := Some <$> sim_pods w;
  w_store_get key w := Ok (Some <$> find_pod (string_drop 8 key) (sim_pods w)); (* "default/" *)
  w_getenv _ := "";
  w_hostname := Ok "controller-0";
  w_now w := (sim_clock w, w);
  w_order keys w := (keys, w);
}.

(** The same world with another list of cached pods, another reading of the
    ConfigMap, another environment and host name. *)
Definition plain_cm (o : option cm_data) : result cm_data :=
  match o with Some d => Ok d | None => Err (OtherErr "not found") end.

Definition Sim_with (listed : Sim → list (option Pod)) (cm : option cm_data → result cm_data)
    (env : string → string) (host : result string) : World Sim := {|
  w_new_driver := w_new_driver (W := Sim);
  w_verify := w_verify;
  w_close_driver := w_close_driver;
  w_session_run := w_session_run;
  w_select := w_select;
  w_yaml_unmarshal := w_yaml_unmarshal (W := Sim);
  w_show_value := w_show_value (W := Sim);
  w_cm_get _ _ w := (cm (sim_cm w), w);
  w_cm_update := w_cm_update;
  w_cm_create := w_cm_create;
  w_is_not_found := w_is_not_found (W := Sim);
  w_pod_get := w_pod_get;
  w_replicaset_owners := w_replicaset_owners;
  w_lease_holder := w_lease_holder;
  w_store_list := listed;
  w_store_get := w_store_get;
  w_getenv := env;
  w_hostname := host;
  w_now := w_now;
  w_order := w_order;
|}.

Global Instance Sim_order : WorldOrder Sim.
Proof. intros keys w. done. Qed.

(** ** A two-pod cluster *)

Definition sim_pod (i : Z) : Pod :=
  ready_pod (GetPodName example_config i) ("10.0.0." +:+ fmt_d (i + 1)).
Definition sim_bolt (i : Z) : string := "10.0.0." +:+ fmt_d (i + 1) +:+ ":7687".

Definition sim_world (db0 db1 : option SimDB) : Sim :=
  mkSim [sim_pod 0; sim_pod 1]
    (list_to_map (omap (λ kv : string * option SimDB, (λ db, (kv.1, db)) <$> kv.2)
       [(sim_bolt 0, db0); (sim_bolt 1, db1)])) ∅ 1 None 0.

Definition sync_record : record := ready_record "memgraph_ha_1" "strict_sync".

(** Pod 0 is main with pod 1 as its ready sync replica; pod 1 still serves. *)
Definition db_main : SimDB := mkDB "main" [sync_record] false.
Definition db_replica : SimDB := mkDB "replica" [] false.
Definition db_fresh : SimDB := mkDB "main" [] true.

Definition sim_server (name : string) : Server := NewServer name default_gw_config.

(** A controller that has loaded its index and knows both nodes. *)
Definition sim_ctl (w : Sim) (idx : Z) (nodes : gmap string MemgraphNode)
    (read : option Server) : Ctl Sim :=
  mkCtl (mkNet NewConnectionPool w []) idx (Some nodes)
    (Some (SetUpstreamAddress (sim_bolt 0) (sim_server "main-gw"))) read
    (mkLE "controller-0" "controller-0") (Some newReconcileQueue) (Some newFailoverCheckQueue)
    false true (Some false) (Some empty_metrics) (Some []) (Some (NewHealthProber DefaultProberConfig)).

Definition sim_nodes : gmap string MemgraphNode :=
  {[ GetPodName example_config 0 := NewMemgraphNode (sim_pod 0);
     GetPodName example_config 1 := NewMemgraphNode (sim_pod 1) ]}.

(** The main went down after its replica list had been cached. *)
Definition main_cached : MemgraphNode :=
  set_hasReplicas true (set_replicas [replica_of_record sync_record]
    (set_role "main" (NewMemgraphNode (sim_pod 0)))).

Definition sim_failed : Ctl Sim :=
  sim_ctl (sim_world None (Some db_replica)) 0
    (<[GetPodName example_config 0 := main_cached]> sim_nodes)
    (Some (SetUpstreamAddress (sim_bolt 1) (sim_server "read-gw"))).

(** ** A driver from the pool *)

Lemma GetDriver_spec_witness :
  ∃ n', GetDriver example_config (sim_bolt 1) (ctl_net sim_failed) = (Ret (Ok 1%Z), n') ∧
    cp_drivers (net_pool n') !! sim_bolt 1 = Some 1%Z.
Proof.
  exists (GetDriver example_config (sim_bolt 1) (ctl_net sim_failed)).2.
  assert (GetDriver example_config (sim_bolt 1) (ctl_net sim_failed) =
    (Ret (Ok 1%Z), (GetDriver example_config (sim_bolt 1) (ctl_net sim_failed)).2)) as Hr
    by (vm_compute; reflexivity).
  split; [exact Hr|].
  refine (proj1 (GetDriver_spec example_config (sim_bolt 1) (ctl_net sim_failed) (Ok 1%Z) _ Hr _)).
  discriminate.
Defined.
