(* ===== verification/Controller.v ===== *)
(** * Core operations of the controller: [internal/controller/controller_core.go]

    The target main index and its ConfigMap, the nodes it designates, the pod
    cache, and the upstream of the read-only gateway.  Each operation runs as
    one step; where the code takes [targetMutex] that is the critical section. *)

From Stdlib Require Import String.
From S2P Require Import Prelude.
From S2P Require Import GoStrings.
From S2P Require Import GoTime.
From S2P Require Import DataInfo.
From S2P Require Import Pods.
From S2P Require Import Config.
From S2P Require Import World.
From S2P Require Import ConnectionPool.
From S2P Require Import MemgraphClient.
From S2P Require Import MemgraphNode.
From S2P Require Import GatewayServer.
From S2P Require Import Metrics.
From S2P Require Import ControllerState.
From S2P Require Import Sim.

Section Controller.
Context {W : Type} `{World W}.
Context (config : Config) (configMapName : string).

(** ** The target main index *)

Definition GetTargetMainIndex : M (Ctl W) (result Z) :=
  index ← gets ctl_targetMainIndex;
  if bool_decide (index ≠ (-1)%Z) then mret (Ok index)
  else
    let? configMap := cnet (call (w_cm_get (Namespace config) configMapName)) orelse err =>
      mret (Err (Wrapf "ConfigMap not available" err)) in
    match configMap !! "targetMainIndex" with
    | None => mret (Err (Errorf "targetMainIndex not found in ConfigMap"))
    | Some targetMainIndexStr =>
        match sscanf_d targetMainIndexStr with
        | Err err => mret (Err (Wrapf "invalid targetMainIndex format" err))
        | Ok targetMainIndex =>
            _ ← modify (set_targetMainIndex targetMainIndex);
            mret (Ok targetMainIndex)
        end
    end.

(** The first Deployment among a ReplicaSet's owners. *)
Fixpoint deployment_owner (owners : list OwnerReference) : option OwnerReference :=
  match owners with
  | [] => None
  | rsOwnerRef :: owners =>
      if bool_decide (or_Kind rsOwnerRef = "Deployment") &&
         bool_decide (or_APIVersion rsOwnerRef = "apps/v1") then
        Some (mkOwnerRef (or_APIVersion rsOwnerRef) (or_Kind rsOwnerRef) (or_Name rsOwnerRef)
                (or_UID rsOwnerRef) (Some true))
      else deployment_owner owners
  end.

Fixpoint find_deployment (podName : string) (owners : list OwnerReference)
    : M (Net W) (result OwnerReference) :=
  match owners with
  | [] => mret (Err (Errorf ("could not find Deployment owner reference for pod " +:+ podName)))
  | ownerRef :: owners =>
      if bool_decide (or_Kind ownerRef = "ReplicaSet") &&
         bool_decide (or_APIVersion ownerRef = "apps/v1") then
        let? rsOwners := call (w_replicaset_owners (Namespace config) (or_Name ownerRef))
          orelse _err => find_deployment podName owners in
        match deployment_owner rsOwners with
        | Some ref => mret (Ok ref)
        | None => find_deployment podName owners
        end
      else find_deployment podName owners
  end.

Definition getControllerOwnerReference : M (Net W) (result OwnerReference) :=
  let podName := w_getenv "POD_NAME" in
  if bool_decide (podName = "") then
    mret (Err (Errorf "POD_NAME environment variable not set"))
  else
    let? pod := call (w_pod_get (Namespace config) podName) orelse err =>
      mret (Err (Wrapf ("failed to get controller pod " +:+ podName) err)) in
    find_deployment podName (pod_OwnerReferences pod).

(** The ConfigMap write: update, and create when there is none. *)
Definition write_configmap (data : cm_data) (ownerRef : option OwnerReference)
    : M (Net W) (option error) :=
  err ← call (w_cm_update (Namespace config) configMapName data ownerRef);
  match err with
  | None => mret None
  | Some err =>
      if w_is_not_found err then call (w_cm_create (Namespace config) configMapName data ownerRef)
      else mret (Some err)
  end.

Definition prom (f : Metrics → Metrics) : M (Ctl W) () :=
  modify (λ s, set_promMetrics (f <$> ctl_promMetrics s) s).

(** [c.targetMainIndex.Store(index)]; the ConfigMap has been written, which the
    trace records here. *)
Definition store_index (data : cm_data) (index : Z) : M (Ctl W) () :=
  modify (λ s, set_targetMainIndex index (add_trace (IoConfigMap data) s)).

Definition index_data (index : Z) : cm_data := {[ "targetMainIndex" := fmt_d index ]}.

Definition SetTargetMainIndex (index : Z) : M (Ctl W) (option error) :=
  ownerRef ← cnet getControllerOwnerReference;
  let ownerRef := match ownerRef with Ok r => Some r | Err _ => None end in
  let configMapData := index_data index in
  check? cnet (write_configmap configMapData ownerRef) orelse err =>
    mret (Some (Wrapf "failed to update ConfigMap" err)) in
  oldIndex ← gets ctl_targetMainIndex;
  _ ← (if bool_decide (oldIndex ≠ index) && bool_decide (oldIndex ≠ (-1)%Z)
       then prom RecordMainChange else mret ());
  _ ← store_index configMapData index;
  mret None.

(** ** The designated nodes: a node is returned as its pod name *)

Definition getTargetMainNode : M (Ctl W) (result string) :=
  let? targetMainIndex := GetTargetMainIndex orelse err =>
    mret (Err (Wrapf "failed to get target main index" err)) in
  let podName := GetPodName config targetMainIndex in
  node ← find_node podName;
  match node with
  | None => mret (Err (Errorf ("target main pod " +:+ podName +:+ " not found in cluster state")))
  | Some _ => mret (Ok podName)
  end.

Definition sync_index (targetMainIndex : Z) : Z :=
  if bool_decide (targetMainIndex = 0)%Z then 1 else 0.

Definition getTargetSyncReplicaNode : M (Ctl W) (result string) :=
  let? targetMainIndex := GetTargetMainIndex orelse err =>
    mret (Err (Wrapf "failed to get target main index" err)) in
  let podName := GetPodName config (sync_index targetMainIndex) in
  node ← find_node podName;
  match node with
  | None =>
      mret (Err (Errorf ("target sync replica pod " +:+ podName +:+ " not found in cluster state")))
  | Some _ => mret (Ok podName)
  end.

Definition pod_key (podName : string) : string := Namespace config +:+ "/" +:+ podName.

Definition getPodFromCache (podName : string) : M (Ctl W) (result Pod) :=
  _ ← get_nodes; (* the informer is set together with the cluster *)
  obj ← gets (λ s, w_store_get (pod_key podName) (net_world (ctl_net s)));
  match obj with
  | Err err => mret (Err (Wrapf ("failed to get pod " +:+ podName +:+ " from cache") err))
  | Ok None => mret (Err (Errorf ("pod " +:+ podName +:+ " not found in cache")))
  | Ok (Some None) => mret (Err (Errorf ("cached object for " +:+ podName +:+ " is not a Pod")))
  | Ok (Some (Some pod)) => mret (Ok pod)
  end.

(** ** The upstream of the read-only gateway *)

(** The replicas a pass over the node map collects. *)
Definition collect_replica (targetMainPodName : string) (replicas : list string)
    (podName : string) : M (Ctl W) (list string) :=
  if bool_decide (podName = targetMainPodName) then mret replicas
  else
    let? pod := getPodFromCache podName orelse _err => mret replicas in
    if negb (isPodReady pod) then mret replicas
    else
      r ← on_node podName (GetReplicationRole config false);
      match r with
      | (role, None) =>
          if bool_decide (role ≠ "replica") then mret replicas else mret (replicas ++ [podName])
      | (_, Some _) => mret replicas
      end.

Definition name_of (nodes : gmap string MemgraphNode) (podName : string) : string :=
  match nodes !! podName with Some n => mn_name n | None => "" end.

(** [sort.Slice] by name, descending (bytewise, as Go compares strings). *)
Definition name_ge (nodes : gmap string MemgraphNode) (a b : string) : Prop :=
  String.leb (name_of nodes b) (name_of nodes a) = true.

Global Instance name_ge_dec nodes a b : Decision (name_ge nodes a b).
Proof. unfold name_ge. apply _. Defined.

Definition selectBestReplica : M (Ctl W) (result string) :=
  let? targetMainIndex := GetTargetMainIndex orelse err =>
    mret (Err (Wrapf "failed to get target main index" err)) in
  let targetMainPodName := StatefulSetName config +:+ "-" +:+ fmt_d targetMainIndex in
  nodes ← get_nodes;
  keys ← cnet (range_keys nodes);
  replicas ← foldM (collect_replica targetMainPodName) keys [];
  nodes ← get_nodes;
  match merge_sort (name_ge nodes) replicas with
  | best :: _ => mret (Ok best)
  | [] => mret (Err (Errorf "no healthy replicas available"))
  end.

(** Point the read-only gateway at a node, or at nothing when it has no
    address. *)
Definition set_read_upstream (podName : string) : M (Ctl W) () :=
  let? boltAddress := on_node podName (field GetBoltAddress) orelse _err =>
    gw_SetUpstreamAddress true "" in
  gw_SetUpstreamAddress true boltAddress.

Definition updateReadGatewayUpstream : M (Ctl W) () :=
  disabled ← gw_nil true;
  if disabled : bool then mret ()
  else
    let? replica := selectBestReplica orelse _err =>
      (let? targetMainNode := getTargetMainNode orelse _err => gw_SetUpstreamAddress true "" in
       set_read_upstream targetMainNode) in
    set_read_upstream replica.

Definition handleReadGatewayUpstreamFailure : M (Ctl W) () := updateReadGatewayUpstream.

(** ** The node the gateway reports as main *)

Fixpoint find_actual_main (keys : list string) : M (Ctl W) (option string) :=
  match keys with
  | [] => mret None
  | podName :: keys =>
      r ← on_node podName (GetReplicationRole config false);
      if bool_decide (r.1 = "MAIN") then
        name ← GetName podName;
        pod ← getPodFromCache name;
        match pod with
        | Ok pod => if bool_decide (pod_PodIP pod ≠ "") then mret (Some podName)
                    else find_actual_main keys
        | Err _ => find_actual_main keys
        end
      else find_actual_main keys
  end.

(** A node of the cluster, or one made on the fly from a pod. *)
Definition fetch_main (podName : string) : M (Ctl W) (result (string + MemgraphNode)) :=
  let? pod := cnet (call (w_pod_get (Namespace config) podName)) orelse err =>
    mret (Err (Wrapf ("failed to get pod " +:+ podName) err)) in
  if bool_decide (pod_PodIP pod = "") then
    mret (Err (Errorf ("pod " +:+ podName +:+ " has no IP address assigned")))
  else mret (Ok (inr (NewMemgraphNode pod))).

Definition GetCurrentMainNode : M (Ctl W) (result (string + MemgraphNode)) :=
  cluster ← gets ctl_cluster;
  let nodes := default ∅ cluster in
  if bool_decide (size nodes = 0) then
    let? targetMainIndex := GetTargetMainIndex orelse err =>
      mret (Err (Wrapf "no cluster state and failed to get target main index" err)) in
    fetch_main (GetPodName config targetMainIndex)
  else
    keys ← cnet (range_keys nodes);
    found ← find_actual_main keys;
    match found with
    | Some podName => mret (Ok (inl podName))
    | None =>
        let? targetMainIndex := GetTargetMainIndex orelse err =>
          mret (Err (Wrapf "no main node found and failed to get target main index" err)) in
        let podName := GetPodName config targetMainIndex in
        node ← find_node podName;
        cached ← (match node with
                  | Some _ => name ← GetName podName; pod ← getPodFromCache name; mret (is_ok pod)
                  | None => mret false
                  end);
        if cached : bool then mret (Ok (inl podName)) else fetch_main podName
    end.

(** ** Effects of the operations *)

(** Read-only queries. *)
Definition read_query (q : string) : Prop :=
  q ∈ [q_show_role; q_show_replicas; q_ping; q_storage].
Definition reads (e : io) : Prop := ∃ a q, e = IoQuery a q ∧ read_query q.

Lemma keeps_GetTargetMainIndex P : keeps (effects P) GetTargetMainIndex.
Proof.
  intros s. unfold GetTargetMainIndex, mbind, M_bind, gets. simpl.
  case_bool_decide as Hi; [reflexivity|].
  unfold cnet, zoom, call. destruct (w_cm_get _ _ _) as [[cm|e] w] eqn:Hg; simpl;
    [|by apply effects_silent; [..|left]].
  destruct (cm !! "targetMainIndex") as [str|] eqn:Hs; [|by apply effects_silent; [..|left]].
  destruct (sscanf_d str) as [idx|e] eqn:Hd; [|by apply effects_silent; [..|left]].
  apply effects_silent; try done. right. split; [done|].
  by exists (Namespace config), configMapName, (net_world (ctl_net s)), w, cm, str.
Qed.
#[local] Hint Resolve keeps_GetTargetMainIndex : keeps.

(** A loaded index is returned as it is, without touching the state. *)
Lemma GetTargetMainIndex_loaded s :
  ctl_targetMainIndex s ≠ (-1)%Z →
  GetTargetMainIndex s = (Ret (Ok (ctl_targetMainIndex s)), s).
Proof.
  intros Hi. unfold GetTargetMainIndex, mbind, M_bind, gets. by rewrite bool_decide_eq_true_2.
Qed.

(** What it returns is the index in memory from then on. *)
Lemma GetTargetMainIndex_inv s r s' :
  GetTargetMainIndex s = (Ret r, s') →
  match r with
  | Ok i => ctl_targetMainIndex s' = i ∧ (i ≠ (-1)%Z ∨ stored_index (W := W) i)
  | Err _ => ctl_targetMainIndex s = (-1)%Z ∧ ctl_targetMainIndex s' = (-1)%Z
  end.
Proof.
  unfold GetTargetMainIndex, mbind, M_bind, gets, cnet, zoom, call. simpl.
  case_bool_decide as Hi; [intros [= <- <-]; by split; [|left]|].
  destruct (w_cm_get _ _ _) as [[cm|e] w] eqn:Hg; simpl; [|by intros [= <- <-]].
  destruct (cm !! "targetMainIndex") as [str|] eqn:Hs; [|by intros [= <- <-]].
  destruct (sscanf_d str) eqn:Hd; intros [= <- <-]; [|done]. split; [done|]. right.
  by exists (Namespace config), configMapName, (net_world (ctl_net s)), w, cm, str.
Qed.

Lemma keeps_find_deployment P p owners : keeps (emits P) (find_deployment p owners).
Proof. induction owners; simpl; solve_keeps. Qed.
#[local] Hint Resolve keeps_find_deployment : keeps.

Lemma keeps_getControllerOwnerReference P : keeps (emits P) getControllerOwnerReference.
Proof. unfold getControllerOwnerReference. solve_keeps. Qed.

Lemma keeps_write_configmap P d o : keeps (emits P) (write_configmap d o).
Proof. unfold write_configmap. solve_keeps. Qed.

Lemma keeps_prom P f : keeps (effects P) (prom f).
Proof. apply keeps_modify. intros s. by apply effects_silent; [..|left]. Qed.

Lemma keeps_store_index (P : io → Prop) d i :
  P (IoConfigMap d) → keeps (effects P) (store_index d i).
Proof.
  intros HP. apply keeps_modify. intros s. apply (effects_one P (IoConfigMap d)); try done; by intros [].
Qed.

Lemma keeps_SetTargetMainIndex (P : io → Prop) i :
  P (IoConfigMap (index_data i)) → keeps (effects P) (SetTargetMainIndex i).
Proof.
  intros HP. unfold SetTargetMainIndex.
  apply keeps_bind; [typeclasses eauto|apply keeps_world, keeps_getControllerOwnerReference|].
  intros o. apply keeps_bind; [typeclasses eauto|apply keeps_world, keeps_write_configmap|].
  intros [e|]; [solve_keeps|].
  pose proof (keeps_store_index P (index_data i) i HP). pose proof (keeps_prom P RecordMainChange).
  solve_keeps.
Qed.

(** The two results of [SetTargetMainIndex]. *)
Lemma SetTargetMainIndex_inv s i o s' :
  SetTargetMainIndex i s = (Ret o, s') →
  ctl_cluster s' = ctl_cluster s ∧ (∀ r, gateway_of r s' = gateway_of r s) ∧
  match o with
  | None => ctl_targetMainIndex s' = i ∧ trace_of s' = trace_of s ++ [IoConfigMap (index_data i)]
  | Some _ => ctl_targetMainIndex s' = ctl_targetMainIndex s ∧ trace_of s' = trace_of s
  end.
Proof.
  unfold SetTargetMainIndex. intros Hr.
  assert (∀ A (m : M (Net W) A) a t t', keeps (emits (λ _, False)) m → cnet m t = (Ret a, t') →
    ctl_cluster t' = ctl_cluster t ∧ (∀ r, gateway_of r t' = gateway_of r t) ∧
    ctl_targetMainIndex t' = ctl_targetMainIndex t ∧ trace_of t' = trace_of t) as Hnet.
  { intros A m a t t' Hm Hrun. unfold cnet, zoom in Hrun. specialize (Hm (ctl_net t)).
    destruct (m (ctl_net t)) as [o1 n1]. injection Hrun as _ <-.
    destruct Hm as (evs & HT & HF). split; [done|]. split; [by intros []|]. split; [done|].
    etrans; [exact HT|]. destruct evs; [apply app_nil_r|by inversion HF]. }
  inv_bind Hr as ow s1 H1. apply Hnet in H1 as (C1 & G1 & I1 & T1);
    [|apply keeps_getControllerOwnerReference].
  inv_bind Hr as e s2 H2. apply Hnet in H2 as (C2 & G2 & I2 & T2); [|apply keeps_write_configmap].
  destruct e as [e|].
  - injection Hr as <- <-. split; [congruence|]. split; [intros r; by rewrite G2|]. split; congruence.
  - inv_bind Hr as old s3 H3. injection H3 as <- <-. inv_bind Hr as u s4 H4.
    assert (ctl_cluster s4 = ctl_cluster s ∧ (∀ r, gateway_of r s4 = gateway_of r s) ∧
      trace_of s4 = trace_of s) as (C4 & G4 & T4).
    { destruct (_ && _); injection H4 as _ <-.
      - split; [simpl; congruence|]. split; [intros r; rewrite <- G1, <- G2; by destruct r|].
        change (trace_of s2 = trace_of s). congruence.
      - split; [congruence|]. split; [intros r; by rewrite G2|congruence]. }
    inv_bind Hr as u' s5 H5. injection H5 as _ <-. injection Hr as <- <-.
    split; [done|]. split; [intros r; rewrite <- G4; by destruct r|]. split; [done|].
    change (trace_of s4 ++ [IoConfigMap (index_data i)] = trace_of s ++ [IoConfigMap (index_data i)]).
    by rewrite T4.
Qed.

Lemma keeps_getTargetMainNode P : keeps (effects P) getTargetMainNode.
Proof. unfold getTargetMainNode. solve_keeps. Qed.

Lemma keeps_getTargetSyncReplicaNode P : keeps (effects P) getTargetSyncReplicaNode.
Proof. unfold getTargetSyncReplicaNode. solve_keeps. Qed.

Lemma keeps_getPodFromCache P p : keeps (effects P) (getPodFromCache p).
Proof. unfold getPodFromCache. solve_keeps. Qed.
#[local] Hint Resolve keeps_getTargetMainNode keeps_getTargetSyncReplicaNode
  keeps_getPodFromCache : keeps.

Lemma getPodFromCache_inv s p pod s' :
  getPodFromCache p s = (Ret pod, s') →
  s' = s ∧ ∀ pod', pod = Ok pod' →
    w_store_get (pod_key p) (net_world (ctl_net s)) = Ok (Some (Some pod')).
Proof.
  unfold getPodFromCache. intros Hr. inv_bind Hr as nodes s1 Hn.
  apply get_nodes_inv in Hn as [-> _]. inv_bind Hr as obj s1 Hobj. injection Hobj as <- <-.
  destruct (w_store_get _ _) as [[[p'|]|]|]; injection Hr as <- <-; naive_solver.
Qed.

Lemma getTargetMainNode_state s r s' :
  ctl_targetMainIndex s ≠ (-1)%Z → getTargetMainNode s = (Ret r, s') → s' = s.
Proof.
  intros Hi Hr. unfold getTargetMainNode in Hr. inv_bind Hr as idx s1 Hidx.
  rewrite GetTargetMainIndex_loaded in Hidx by done. injection Hidx as <- <-.
  inv_bind Hr as n s1 Hn. apply find_node_inv in Hn as [-> ->].
  destruct (node_at s _); by injection Hr as <- <-.
Qed.

Lemma getTargetMainNode_ok s name s' :
  ctl_targetMainIndex s ≠ (-1)%Z → getTargetMainNode s = (Ret (Ok name), s') →
  s' = s ∧ name = GetPodName config (ctl_targetMainIndex s) ∧ is_Some (node_at s name).
Proof.
  intros Hi. unfold getTargetMainNode. intros Hr. inv_bind Hr as idx s1 Hidx.
  rewrite GetTargetMainIndex_loaded in Hidx by done. injection Hidx as <- <-.
  inv_bind Hr as n s1 Hn. apply find_node_inv in Hn as [-> ->].
  destruct (node_at s _) as [n|] eqn:Hn; [|done]. injection Hr as <- <-. by rewrite Hn.
Qed.

Lemma reads_only_effects (s s' : Ctl W) :
  effects reads s s' → ctl_targetMainIndex s ≠ (-1)%Z →
  ctl_targetMainIndex s' = ctl_targetMainIndex s ∧ ids s' = ids s ∧
  ∀ r, gateway_of r s' = gateway_of r s.
Proof.
  intros He Hi. split; [|split].
  - apply (effects_index reads); [done| |done]. intros e (a & q & -> & _) [].
  - apply (effects_ids reads); [done|]. intros e (a & q & -> & _). discriminate.
  - intros r. apply (effects_gateway reads); [done|]. intros e (a & q & -> & _) [].
Qed.

Section reading.
Context (P : io → Prop) (HP : ∀ e, reads e → P e).

Lemma keeps_on_node_read {A} k (m : M (NodeNet W) A) :
  keeps (node_step read_query) m → keeps (effects P) (on_node k m).
Proof.
  intros Hm. apply (keeps_on_node P read_query); [done|]. intros a q Hq. apply HP. by exists a, q.
Qed.

Lemma keeps_node_role k r : keeps (effects P) (on_node k (GetReplicationRole config r)).
Proof. apply keeps_on_node_read, keeps_GetReplicationRole. unfold read_query. set_solver. Qed.

Lemma keeps_node_replicas k r : keeps (effects P) (on_node k (GetReplicas config r)).
Proof.
  apply keeps_on_node_read, keeps_GetReplicas; unfold read_query; set_solver.
Qed.

Lemma keeps_node_ping k : keeps (effects P) (on_node k (Ping config)).
Proof. apply keeps_on_node_read, keeps_Ping. unfold read_query. set_solver. Qed.

Lemma keeps_node_storage k : keeps (effects P) (on_node k (QueryStorageInfo config)).
Proof. apply keeps_on_node_read, keeps_QueryStorageInfo. unfold read_query. set_solver. Qed.

Lemma keeps_node_field {A} k (f : MemgraphNode → A) : keeps (effects (W := W) P) (on_node k (field f)).
Proof. apply keeps_on_node_read, keeps_field. Qed.

Lemma keeps_keys {V} (m : gmap string V) : keeps (effects (W := W) P) (cnet (range_keys m)).
Proof. apply keeps_world, keeps_range_keys. Qed.

#[local] Hint Resolve keeps_node_role keeps_node_field keeps_keys : keeps.

Lemma keeps_collect_replica t rs p : keeps (effects P) (collect_replica t rs p).
Proof. unfold collect_replica. solve_keeps. Qed.
#[local] Hint Resolve keeps_collect_replica : keeps.

Lemma keeps_selectBestReplica : keeps (effects P) selectBestReplica.
Proof. unfold selectBestReplica. solve_keeps. Qed.
#[local] Hint Resolve keeps_selectBestReplica : keeps.

Lemma keeps_find_actual_main keys : keeps (effects P) (find_actual_main keys).
Proof. induction keys; simpl; solve_keeps. Qed.
#[local] Hint Resolve keeps_find_actual_main : keeps.

Lemma keeps_fetch_main p : keeps (effects P) (fetch_main p).
Proof.
  unfold fetch_main. apply keeps_bind; [typeclasses eauto| |intros []; solve_keeps].
  apply keeps_world, keeps_call_emits.
Qed.
#[local] Hint Resolve keeps_fetch_main : keeps.

Lemma keeps_GetCurrentMainNode : keeps (effects P) GetCurrentMainNode.
Proof. unfold GetCurrentMainNode. solve_keeps. Qed.

Context (HR : ∀ a, P (IoGateway true a)).

Lemma keeps_read_gw a : keeps (effects (W := W) P) (gw_SetUpstreamAddress true a).
Proof. apply keeps_gw_SetUpstreamAddress, HR. Qed.
#[local] Hint Resolve keeps_read_gw : keeps.

Lemma keeps_set_read_upstream p : keeps (effects P) (set_read_upstream p).
Proof. unfold set_read_upstream. solve_keeps. Qed.
#[local] Hint Resolve keeps_set_read_upstream : keeps.

Lemma keeps_updateReadGatewayUpstream : keeps (effects P) updateReadGatewayUpstream.
Proof. unfold updateReadGatewayUpstream. solve_keeps. Qed.
End reading.

(** ** An initialised controller does not panic *)

Definition name_in (X : gset string) (r : result string) : Prop :=
  match r with Ok k => k ∈ X | Err _ => True end.

Section initialized.
Context `{!WorldOrder W} (X : gset string) (rg : bool).
#[local] Abbreviation I := (initialized (W := W) X rg).

Lemma safe_silent f : (∀ s, I s → I (f s)) → safe I (modify f) anything.
Proof. apply safe_modify. Qed.

Lemma safe_GetTargetMainIndex : safe I GetTargetMainIndex anything.
Proof.
  unfold GetTargetMainIndex.
  pose proof (λ i, safe_silent (set_targetMainIndex i) (λ s HI, HI)). solve_safe.
Qed.
#[local] Hint Resolve safe_GetTargetMainIndex : safe.

Lemma safe_find_deployment p owners : total (find_deployment p owners).
Proof. induction owners; simpl; solve_safe. Qed.
#[local] Hint Resolve safe_find_deployment : safe.

Lemma safe_getControllerOwnerReference : total getControllerOwnerReference.
Proof. unfold getControllerOwnerReference. solve_safe. Qed.

Lemma safe_write_configmap d o : total (write_configmap d o).
Proof. unfold write_configmap. solve_safe. Qed.
#[local] Hint Resolve safe_getControllerOwnerReference safe_write_configmap : safe.

Lemma safe_SetTargetMainIndex i : safe I (SetTargetMainIndex i) anything.
Proof.
  unfold SetTargetMainIndex.
  assert (safe I (prom RecordMainChange) anything) by (by apply safe_silent).
  assert (∀ d, safe I (store_index d i) anything) by (by intros; apply safe_silent).
  solve_safe.
Qed.

Lemma safe_getTargetMainNode : safe I getTargetMainNode (name_in X).
Proof.
  unfold getTargetMainNode. solve_safe. simpl. eauto.
Qed.

Lemma safe_getTargetSyncReplicaNode : safe I getTargetSyncReplicaNode (name_in X).
Proof. unfold getTargetSyncReplicaNode. solve_safe. simpl. eauto. Qed.

Lemma safe_getPodFromCache p : safe I (getPodFromCache p) anything.
Proof. unfold getPodFromCache. solve_safe. Qed.
#[local] Hint Resolve safe_getTargetMainNode safe_getTargetSyncReplicaNode
  safe_getPodFromCache : safe.

Lemma safe_keys {V} (m : gmap string V) :
  dom m = X → safe I (cnet (range_keys m)) (λ keys, ∀ k, k ∈ keys → k ∈ X).
Proof.
  intros Hd. apply safe_cnet. intros n _. unfold range_keys, call.
  pose proof (w_order_perm ((map_to_list m).*1) (net_world n)) as Hp.
  destruct (w_order _ _) as [keys w]. eexists _, _. split; [done|]. split; [done|].
  intros k Hk. simpl in Hp. rewrite Hp in Hk. apply list_elem_of_fmap in Hk as ([k' v] & -> & Hk).
  apply elem_of_map_to_list in Hk. rewrite <- Hd. simpl. by eapply elem_of_dom_2.
Qed.
#[local] Hint Resolve safe_keys : safe.

Lemma safe_collect_replica t rs p :
  p ∈ X → (∀ k, k ∈ rs → k ∈ X) → safe I (collect_replica t rs p) (λ rs, ∀ k, k ∈ rs → k ∈ X).
Proof. intros Hp Hrs. unfold collect_replica. solve_safe. set_solver. Qed.

Lemma safe_selectBestReplica : safe I selectBestReplica (name_in X).
Proof.
  unfold selectBestReplica.
  eapply safe_bind; [eauto with safe|intros idx _]. destruct idx as [idx|e]; [|by apply safe_ret].
  eapply safe_bind; [eauto with safe|intros nodes Hn].
  eapply safe_bind; [eauto with safe|intros keys Hk].
  eapply (safe_bind _ _ _ (λ rs, ∀ k, k ∈ rs → k ∈ X)).
  { apply safe_foldM; [set_solver|]. intros rs k Hrs Hin. apply safe_collect_replica; auto. }
  intros rs Hrs. eapply safe_bind; [eauto with safe|intros nodes' _].
  destruct (merge_sort _ rs) as [|best l] eqn:Hs; apply safe_ret; [done|]. simpl.
  apply Hrs. rewrite <- (merge_sort_Permutation (name_ge nodes') rs), Hs. set_solver.
Qed.
#[local] Hint Resolve safe_selectBestReplica : safe.

Lemma safe_set_read_upstream p : rg = true → p ∈ X → safe I (set_read_upstream p) anything.
Proof. intros Hrg Hp. unfold set_read_upstream. solve_safe. Qed.

Lemma safe_updateReadGatewayUpstream : safe I updateReadGatewayUpstream anything.
Proof.
  unfold updateReadGatewayUpstream. eapply safe_bind; [eauto with safe|intros b ->].
  destruct (negb rg) eqn:Hrg; [by apply safe_ret|]. apply negb_false_iff in Hrg.
  solve_safe; by apply safe_set_read_upstream.
Qed.
End initialized.

End Controller.


#[export] Hint Resolve keeps_GetTargetMainIndex keeps_prom keeps_getTargetMainNode
  keeps_getTargetSyncReplicaNode keeps_getPodFromCache keeps_node_role keeps_node_replicas
  keeps_node_ping keeps_node_storage keeps_node_field keeps_keys keeps_selectBestReplica
  keeps_updateReadGatewayUpstream : keeps.
#[export] Hint Resolve safe_GetTargetMainIndex safe_SetTargetMainIndex safe_getTargetMainNode
  safe_getTargetSyncReplicaNode safe_getPodFromCache safe_keys safe_selectBestReplica
  safe_updateReadGatewayUpstream : safe.

(** ** Properties *)

(** What Kubernetes documents of a ConfigMap: a successful write is what the
    next read returns. *)
Class ConfigMapLaws (W : Type) `{World W} : Prop := {
  cm_update_get ns name d o w w' :
    w_cm_update ns name d o w = (None, w') → (w_cm_get ns name w').1 = Ok d;
  cm_create_get ns name d o w w' :
    w_cm_create ns name d o w = (None, w') → (w_cm_get ns name w').1 = Ok d;
}.

Section ControllerProps.
Context {W : Type} `{World W}.
Context (config : Config) (configMapName : string).

#[local] Abbreviation GetTargetMainIndex := (GetTargetMainIndex config configMapName).
#[local] Abbreviation SetTargetMainIndex := (SetTargetMainIndex config configMapName).
#[local] Abbreviation selectBestReplica := (selectBestReplica config configMapName).
#[local] Abbreviation updateReadGatewayUpstream := (updateReadGatewayUpstream config configMapName).

Lemma write_configmap_get `{!ConfigMapLaws W} d o n n' :
  write_configmap config configMapName d o n = (Ret None, n') →
  (w_cm_get (Namespace config) configMapName (net_world n')).1 = Ok d.
Proof.
  unfold write_configmap, mbind, M_bind, call.
  destruct (w_cm_update _ _ _ _ _) as [[e|] w] eqn:Hu; simpl.
  - destruct (w_is_not_found e); [|done].
    destruct (w_cm_create _ _ _ _ _) as [r w'] eqn:Hc. intros [= -> <-]. simpl.
    by eapply cm_create_get.
  - intros [= <-]. simpl. by eapply cm_update_get.
Qed.

(** C30. The target index survives a restart: after a successful
    SetTargetMainIndex, a controller that starts with nothing loaded reads the
    same index back from the ConfigMap, for every 32-bit index. *)
Theorem index_survives_restart `{!ConfigMapLaws W} s i s' :
  in_int32 i → SetTargetMainIndex i s = (Ret None, s') →
  let restarted := set_targetMainIndex (-1) s' in
  (GetTargetMainIndex restarted).1 = Ret (Ok i) ∧
  ctl_targetMainIndex (GetTargetMainIndex restarted).2 = i.
Proof.
  intros Hi Hr restarted. unfold SetTargetMainIndex in Hr. inv_bind Hr as o s1 H1.
  inv_bind Hr as err s2 H2. destruct err as [e|]; [done|].
  assert ((w_cm_get (Namespace config) configMapName (net_world (ctl_net s2))).1
    = Ok (index_data i)) as Hget.
  { unfold cnet, zoom in H2. destruct (write_configmap _ _ _ _ _) as [r n'] eqn:Hw.
    injection H2 as -> <-. simpl. by eapply write_configmap_get. }
  inv_bind Hr as old s3 H3. injection H3 as <- <-. inv_bind Hr as u s3 H3.
  assert (ctl_net s3 = ctl_net s2) as Hn by (destruct (_ && _); by injection H3 as _ <-).
  inv_bind Hr as u' s4 H4. injection H4 as _ <-. injection Hr as <-.
  subst restarted. unfold GetTargetMainIndex, mbind, M_bind, gets, cnet, zoom, call. simpl.
  rewrite Hn. destruct (w_cm_get _ _ _) as [r w]. simpl in Hget. subst r. simpl.
  unfold index_data. rewrite lookup_singleton_eq, sscanf_fmt_d by done. done.
Qed.

(** A node other than [t] known as a replica. *)
Definition known_replica (s : Ctl W) (t k : string) : Prop :=
  k ≠ t ∧ ∃ n, node_at s k = Some n ∧ mn_memgraphRole n = "replica".

Lemma collect_replica_known t rs p s rs' s' :
  (∀ k, k ∈ rs → known_replica s t k) →
  collect_replica config t rs p s = (Ret rs', s') → ∀ k, k ∈ rs' → known_replica s' t k.
Proof.
  intros Hrs. unfold collect_replica. case_bool_decide as Hp; intros Hr; [by injection Hr as <- <-|].
  inv_bind Hr as pod s1 H1. apply getPodFromCache_inv in H1 as [-> _].
  destruct pod as [pod|]; [|by injection Hr as <- <-].
  destruct (isPodReady pod); simpl in Hr; [|by injection Hr as <- <-].
  inv_bind Hr as r s1 H1. pose proof (on_node_inv _ _ _ _ _ H1) as (n & n' & net' & Hn & Hrun & Hn' & _ & Hk).
  assert (∀ k, k ∈ rs → known_replica s1 t k) as Hrs1.
  { intros k Hin. destruct (Hrs k Hin) as [Hne (m & Hm & Hrole)]. split; [done|].
    destruct (decide (k = p)) as [->|]; [|exists m; split; [by rewrite Hk|done]].
    rewrite Hn in Hm. injection Hm as <-. exists n'. split; [done|].
    rewrite GetReplicationRole_cached in Hrun by (simpl; by rewrite Hrole).
    by injection Hrun as _ <- _. }
  destruct r as [role [e|]]; [by injection Hr as <- <-|].
  case_bool_decide as Hrole; injection Hr as <- <-; [done|].
  intros k [Hin|Hin%list_elem_of_singleton]%elem_of_app; [by apply Hrs1|subst k].
  split; [done|]. exists n'. split; [done|]. apply GetReplicationRole_ok in Hrun as [Hr' _].
  simpl in Hr'. rewrite Hr'. simpl. done.
Qed.

Lemma collect_replicas_known t keys rs s rs' s' :
  (∀ k, k ∈ rs → known_replica s t k) →
  foldM (collect_replica config t) keys rs s = (Ret rs', s') → ∀ k, k ∈ rs' → known_replica s' t k.
Proof.
  revert rs s. induction keys as [|k keys IH]; intros rs s Hrs Hr; simpl in Hr;
    [by injection Hr as <- <-|].
  inv_bind Hr as rs1 s1 H1. eapply IH; [|exact Hr]. by eapply collect_replica_known.
Qed.

Lemma selectBestReplica_known s best s' :
  ctl_targetMainIndex s ≠ (-1)%Z → selectBestReplica s = (Ret (Ok best), s') →
  known_replica s' (GetPodName config (ctl_targetMainIndex s)) best.
Proof.
  intros Hi Hr. unfold selectBestReplica in Hr. inv_bind Hr as idx s1 H1.
  rewrite GetTargetMainIndex_loaded in H1 by done. injection H1 as <- <-.
  inv_bind Hr as nodes s1 H1. apply get_nodes_inv in H1 as [-> _].
  inv_bind Hr as keys s1 H1. inv_bind Hr as rs s2 H2.
  inv_bind Hr as nodes' s3 H3. apply get_nodes_inv in H3 as [-> _].
  destruct (merge_sort _ rs) as [|b l] eqn:Hs; [done|]. injection Hr as -> <-.
  eapply collect_replicas_known; [|exact H2|]; [by intros k ?%not_elem_of_nil|].
  rewrite <- (merge_sort_Permutation (name_ge nodes') rs), Hs. set_solver.
Qed.

Lemma set_read_upstream_at k (s s' : Ctl W) :
  set_read_upstream k s = (Ret (), s') →
  ctl_cluster s' = ctl_cluster s ∧ ctl_targetMainIndex s' = ctl_targetMainIndex s ∧
  ∃ n, node_at s k = Some n ∧
    upstream true s' = Some (if bool_decide (mn_ipAddress n = "") then "" else bolt_of n).
Proof.
  unfold set_read_upstream. intros Hr. inv_bind Hr as b s1 H1.
  apply on_node_field_run in H1 as (-> & n & Hn & ->).
  unfold GetBoltAddress in Hr. case_bool_decide as Hip; unfold gw_SetUpstreamAddress in Hr;
    (destruct (gateway_of true s) as [g|] eqn:Hg; [|done]); injection Hr as <-;
    (split; [done|]); (split; [done|]); exists n; (split; [done|]).
  - rewrite bool_decide_eq_true_2 by done. unfold upstream. simpl. by rewrite SetUpstreamAddress_upstream.
  - rewrite bool_decide_eq_false_2 by done. unfold upstream. simpl. by rewrite SetUpstreamAddress_upstream.
Qed.

End ControllerProps.

(** ** Witnesses *)

Global Instance Sim_configmap : ConfigMapLaws Sim.
Proof.
  split.
  - intros ns name d o w w'. simpl. destruct (sim_cm w); [|done]. by intros [= <-].
  - intros ns name d o w w'. by intros [= <-].
Qed.

Lemma index_survives_restart_witness :
  (GetTargetMainIndex example_config "memgraph-state"
     (set_targetMainIndex (-1)
        (SetTargetMainIndex example_config "memgraph-state" 1 sim_failed).2)).1 = Ret (Ok 1%Z).
Proof.
  refine (proj1 (index_survives_restart example_config "memgraph-state" sim_failed 1 _ _ _)).
  - split; [discriminate|reflexivity].
  - vm_compute. reflexivity.
Defined.

