(* ===== verification/Failover.v ===== *)
(** * Failover: [internal/controller/queue_failover.go]

    The failover check, the promotion of the sync replica, and the queue that
    feeds them.  [operationMu] makes [performFailoverCheck] one step. *)

From S2P Require Import Prelude.
From S2P Require Import GoStrings.
From S2P Require Import GoTime.
From S2P Require Import DataInfo.
From S2P Require Import Pods.
From S2P Require Import Config.
From S2P Require Import World.
From S2P Require Import ConnectionPool.
From S2P Require Import MemgraphClient.
From S2P Require Import MemgraphNode.
From S2P Require Import GatewayServer.
From S2P Require Import Metrics.
From S2P Require Import Queues.
From S2P Require Import LeaderElection.
From S2P Require Import ControllerState.
From S2P Require Import Controller.
From S2P Require Import Sim.

Section Failover.
Context {W : Type} `{World W}.
Context (config : Config) (configMapName : string).

#[local] Abbreviation GetTargetMainIndex := (GetTargetMainIndex config configMapName).
#[local] Abbreviation SetTargetMainIndex := (SetTargetMainIndex config configMapName).
#[local] Abbreviation getTargetMainNode := (getTargetMainNode config configMapName).
#[local] Abbreviation updateReadGatewayUpstream := (updateReadGatewayUpstream config configMapName).

Definition IsLeader : M (Ctl W) bool := gets (λ s, le_IsLeader (ctl_leaderElection s)).

(** The role of a pod that is ready, has an address and answers. *)
Definition getHealthyRole (podName : string) : M (Ctl W) (string * bool) :=
  let? pod := getPodFromCache config podName orelse _err => mret ("", false) in
  if bool_decide (pod_PodIP pod = "") then mret ("", false)
  else if negb (isPodReady pod) then mret ("", false)
  else
    node ← find_node podName;
    match node with
    | None => mret ("", false)
    | Some _ =>
        r ← on_node podName (GetReplicationRole config false);
        match r with
        | (role, Some _) => mret (role, false)
        | (role, None) => mret (role, true)
        end
    end.

Definition lastChancePing (podName : string) : M (Ctl W) (option error) :=
  node ← find_node podName;
  match node with
  | None => mret (Some (Errorf ("pod " +:+ podName +:+ " not found in cluster state")))
  | Some _ =>
      check? on_node podName (Ping config) orelse err =>
        mret (Some (Wrapf "cannot ping pod" err)) in
      mret None
  end.

Definition protectReadGatewayBeforeRoleChange (podNameBeingPromoted : string) : M (Ctl W) () :=
  disabled ← gw_nil true;
  if disabled : bool then mret ()
  else
    currentUpstream ← gw_GetUpstreamAddress true;
    if bool_decide (currentUpstream = "") then mret ()
    else
      node ← find_node podNameBeingPromoted;
      match node with
      | None => mret ()
      | Some _ =>
          let? promotedPodAddress := on_node podNameBeingPromoted (field GetBoltAddress)
            orelse _err => mret () in
          if bool_decide (currentUpstream = promotedPodAddress) then
            _ ← gw_DisconnectAll true;
            gw_SetUpstreamAddress true ""
          else mret ()
      end.

Definition promoteSyncReplica : M (Ctl W) (option error) :=
  let? targetMainIndex := GetTargetMainIndex orelse err =>
    mret (Some (Wrapf "cannot get target main index" err)) in
  let targetSyncReplicaIndex := int32 (1 - targetMainIndex) in
  let targetSyncReplicaName := GetPodName config targetSyncReplicaIndex in
  _ ← protectReadGatewayBeforeRoleChange targetSyncReplicaName;
  node ← find_node targetSyncReplicaName;
  match node with
  | None =>
      mret (Some (Errorf ("sync replica node " +:+ targetSyncReplicaName +:+
                          " not found in cluster map")))
  | Some _ =>
      check? on_node targetSyncReplicaName (SetToMainRole config) orelse err =>
        mret (Some (Wrapf ("failed to promote pod " +:+ targetSyncReplicaName +:+ " to main") err)) in
      r ← on_node targetSyncReplicaName (GetReplicationRole config false);
      match r with
      | (_, Some err) =>
          mret (Some (Wrapf ("failed to verify new role of pod " +:+ targetSyncReplicaName) err))
      | (role, None) =>
          if bool_decide (role ≠ "main") then
            mret (Some (Errorf ("pod " +:+ targetSyncReplicaName +:+
              " promotion to main did not take effect, current role: " +:+ role)))
          else mret None
      end
  end.

(** [for _, replica := range replicas { if replica.Name == name ... }] *)
Fixpoint find_replica (name : string) (replicas : list ReplicaInfo) : option ReplicaInfo :=
  match replicas with
  | [] => None
  | replica :: replicas =>
      if bool_decide (ri_Name replica = name) then Some replica else find_replica name replicas
  end.

(** The first replica that is not ready makes a failover unsafe. *)
Fixpoint replicas_not_ready (replicas : list ReplicaInfo) : option error :=
  match replicas with
  | [] => None
  | replica :: replicas =>
      match ri_ParsedDataInfo replica with
      | None => Some (Errorf ("replica " +:+ ri_Name replica +:+
                              " has nil data_info, unsafe to perform failover"))
      | Some di =>
          if bool_decide (di_Status di ≠ "ready") then
            Some (Errorf ("replica " +:+ ri_Name replica +:+ " not ready (status: " +:+
                          di_Status di +:+ "), unsafe to perform failover"))
          else replicas_not_ready replicas
      end
  end.

(** The tests of the cached replica list before a failover. *)
Definition check_replicas (syncReplica : string) (podName : string)
    (replicas : list ReplicaInfo) : option error :=
  match find_replica syncReplica replicas with
  | None => Some (Errorf (podName +:+
                          " not found in cached replicas list, unsafe to perform failover"))
  | Some r =>
      if bool_decide (ri_SyncMode r ≠ "strict_sync") then
        Some (Errorf "cached replica type is not strict_sync")
      else
        match ri_ParsedDataInfo r with
        | None => Some (Errorf "cached replica data_info is nil")
        | Some di =>
            if bool_decide (di_Status di ≠ "ready") then
              Some (Errorf "cached replica status is not ready")
            else replicas_not_ready replicas
        end
  end.

(** The first half of [executeFailoverInternal]: everything that is verified
    before anything is changed.  Returns the name of the sync replica, its
    index, and the role it has now. *)
Definition failover_checks : M (Ctl W) (result (Z * string * string)) :=
  let? targetMainIndex := GetTargetMainIndex orelse err =>
    mret (Err (Wrapf "cannot get target main index" err)) in
  let targetSyncReplicaIndex := int32 (1 - targetMainIndex) in
  let targetSyncReplicaName := GetPodName config targetSyncReplicaIndex in
  hr ← getHealthyRole targetSyncReplicaName;
  let '(role, isHealthy) := hr in
  if negb isHealthy then mret (Err (Errorf "sync replica pod is not healthy"))
  else
    let? targetMainNode := getTargetMainNode orelse err =>
      mret (Err (Wrapf "cannot get target main node" err)) in
    let? replicas := on_node targetMainNode (GetReplicas config false) orelse err =>
      mret (Err (Wrapf "cannot get replicas from target main node" err)) in
    node ← find_node targetSyncReplicaName;
    match node with
    | None => mret (Err (Errorf "sync replica node not found in cluster state"))
    | Some _ =>
        targetSyncReplicaMemgraphName ← on_node targetSyncReplicaName (field node_GetReplicaName);
        match check_replicas targetSyncReplicaMemgraphName targetSyncReplicaName replicas with
        | Some err => mret (Err err)
        | None =>
            check? lastChancePing targetSyncReplicaName orelse _err =>
              mret (Err (Errorf "sync replica pod is not reachable")) in
            mret (Ok (targetSyncReplicaIndex, targetSyncReplicaName, role))
        end
    end.

(** Both gateways refuse traffic. *)
Definition close_gateways : M (Ctl W) () :=
  _ ← gw_SetUpstreamAddress false "";
  disabled ← gw_nil true;
  if disabled : bool then mret () else gw_SetUpstreamAddress true "".

(** The last part: traffic goes to the new main. *)
Definition open_gateways (syncReplicaNode : string) : M (Ctl W) () :=
  let? boltAddress := on_node syncReplicaNode (field GetBoltAddress) orelse _err => mret () in
  _ ← gw_SetUpstreamAddress false boltAddress;
  updateReadGatewayUpstream.

Definition executeFailoverInternal : M (Ctl W) (option error) :=
  let? checked := failover_checks orelse err => mret (Some err) in
  let '(targetSyncReplicaIndex, targetSyncReplicaName, role) := checked in
  _ ← close_gateways;
  check? (if bool_decide (role = "main") then mret None else promoteSyncReplica)
    orelse err => mret (Some err) in
  check? SetTargetMainIndex targetSyncReplicaIndex orelse err =>
    mret (Some (Wrapf "failed to update target main index" err)) in
  _ ← open_gateways targetSyncReplicaName;
  mret None.

(** [event] is the value the queue puts into the context; reconciliation calls
    without one. *)
Definition performFailoverCheck (event : option FailoverCheckEvent) : M (Ctl W) (option error) :=
  let? targetMainIndex := GetTargetMainIndex orelse err =>
    mret (Some (Wrapf "cannot get target main index" err)) in
  let targetMainPodName := GetPodName config targetMainIndex in
  skip ← (match event with
          | Some event =>
              if bool_decide (fe_Reason event = "health-check-failure") then
                _ ← lastChancePing targetMainPodName;
                mret true
              else mret false
          | None =>
              hr ← getHealthyRole targetMainPodName;
              mret (hr.2 && bool_decide (hr.1 = "main"))
          end);
  if skip : bool then mret None
  else
    check? executeFailoverInternal orelse err =>
      mret (Some (Wrapf "failed to execute failover" err)) in
    mret None.

(** [enqueueFailoverCheckEvent] *)
Definition enqueueFailoverCheckEvent (eventType reason podName : string) : M (Ctl W) () :=
  now ← cnet (call w_now);
  let event := mkFailoverCheckEvent eventType reason podName now in
  fq ← gets ctl_failoverCheckQueue;
  match fq with
  | None => panic nil_deref
  | Some fq => modify (set_failoverCheckQueue (Some (q_send event fq)))
  end.

Definition failover_key (event : FailoverCheckEvent) : string := "failover:" +:+ fe_PodName event.

(** [handleFailoverCheckEvent]; [lock] of the dedup map and the failover check
    under [operationMu] are its two critical sections. *)
Definition handleFailoverCheckEvent (event : FailoverCheckEvent) : M (Ctl W) () :=
  leader ← IsLeader;
  if negb leader then mret ()
  else
    fq ← gets ctl_failoverCheckQueue;
    match fq with
    | None => panic nil_deref
    | Some fq =>
        now ← cnet (call w_now);
        let '(admitted, fq) := q_admit now (failover_key event) (fe_Timestamp event) fq in
        if negb admitted then mret ()
        else
          _ ← modify (set_failoverCheckQueue (Some fq));
          _ ← performFailoverCheck (Some event);
          modify (set_failoverCheckNeeded false)
    end.

(** One round of [processFailoverCheckQueue]. *)
Definition processFailoverCheckQueue_step : M (Ctl W) () :=
  fq ← gets ctl_failoverCheckQueue;
  match fq with
  | None => panic nil_deref
  | Some fq =>
      match q_receive fq with
      | None => mret ()
      | Some (event, fq) =>
          _ ← modify (set_failoverCheckQueue (Some fq));
          handleFailoverCheckEvent event
      end
  end.

Definition stopFailoverCheckQueue : M (Ctl W) () :=
  modify (λ s, set_failoverCheckQueue (q_cancel <$> ctl_failoverCheckQueue s) s).

(** ** An initialised controller does not panic *)

Section initialized.
Context `{!WorldOrder W} (X : gset string) (rg : bool).
#[local] Abbreviation I := (initialized (W := W) X rg).

Lemma safe_getHealthyRole p : safe I (getHealthyRole p) anything.
Proof. unfold getHealthyRole. solve_safe. Qed.

Lemma safe_lastChancePing p : safe I (lastChancePing p) anything.
Proof. unfold lastChancePing. solve_safe. Qed.
#[local] Hint Resolve safe_getHealthyRole safe_lastChancePing : safe.

(** The part of a definition after the test that the read gateway exists. *)
Lemma safe_if_read_gateway {A} (m1 m2 : M (Ctl W) A) Φ :
  safe I m1 Φ → (rg = true → safe I m2 Φ) →
  safe I (disabled ← gw_nil true; if disabled : bool then m1 else m2) Φ.
Proof.
  intros H1 H2. eapply safe_bind; [eauto with safe|intros b ->].
  destruct (negb rg) eqn:Hrg; [done|]. apply H2. by apply negb_false_iff.
Qed.

Lemma safe_protect p : safe I (protectReadGatewayBeforeRoleChange p) anything.
Proof.
  apply safe_if_read_gateway; [by apply safe_ret|]. intros Hrg. solve_safe.
Qed.
#[local] Hint Resolve safe_protect : safe.

Lemma safe_promoteSyncReplica : safe I promoteSyncReplica anything.
Proof. unfold promoteSyncReplica. solve_safe. Qed.

Lemma safe_failover_checks :
  safe I failover_checks (λ r, match r with Ok (_, name, _) => name ∈ X | Err _ => True end).
Proof. unfold failover_checks. solve_safe. eauto. Qed.

Lemma safe_close_gateways : safe I close_gateways anything.
Proof.
  unfold close_gateways. eapply safe_bind; [by apply safe_gw_SetUpstreamAddress|intros _ _].
  apply safe_if_read_gateway; [by apply safe_ret|]. intros Hrg. solve_safe.
Qed.

Lemma safe_open_gateways p : p ∈ X → safe I (open_gateways p) anything.
Proof.
  intros Hp. unfold open_gateways.
  pose proof (λ a, safe_gw_SetUpstreamAddress (W := W) X rg false a ltac:(done)). solve_safe.
Qed.
#[local] Hint Resolve safe_promoteSyncReplica safe_failover_checks safe_close_gateways
  safe_open_gateways : safe.

Lemma safe_executeFailoverInternal : safe I executeFailoverInternal anything.
Proof.
  unfold executeFailoverInternal. eapply safe_bind; [eauto with safe|].
  intros [[[i name] role]|e] Hname; [|by apply safe_ret].
  eapply safe_bind; [eauto with safe|intros _ _]. solve_safe.
Qed.
#[local] Hint Resolve safe_executeFailoverInternal : safe.

Lemma safe_performFailoverCheck ev : safe I (performFailoverCheck ev) anything.
Proof. unfold performFailoverCheck. solve_safe. Qed.

Lemma safe_enqueueFailoverCheckEvent t r p : safe I (enqueueFailoverCheckEvent t r p) anything.
Proof.
  unfold enqueueFailoverCheckEvent. eapply safe_bind; [eauto with safe|intros now _].
  intros s HI. pose proof HI as (_ & _ & _ & _ & [fq Hfq] & _).
  unfold mbind, M_bind, gets. rewrite Hfq. eexists _, _. split; [done|]. split; [|done].
  destruct HI as (? & ? & ? & ? & _ & ?). by repeat split.
Qed.

Lemma safe_handleFailoverCheckEvent ev : safe I (handleFailoverCheckEvent ev) anything.
Proof.
  unfold handleFailoverCheckEvent, IsLeader.
  eapply safe_bind; [apply safe_gets|intros leader _]. destruct leader; [|by apply safe_ret].
  simpl. intros s HI. pose proof HI as (Hn & Hg & Hr & Hq & [fq Hfq] & _).
  unfold mbind at 1, M_bind at 1, gets. rewrite Hfq. revert s HI Hn Hg Hr Hq Hfq.
  assert (∀ q, safe I (modify (set_failoverCheckQueue (Some q))) anything) as Hset.
  { intros q. apply safe_modify. intros s (? & ? & ? & ? & _ & ?). by repeat split. }
  assert (safe I (modify (set_failoverCheckNeeded false)) anything) as Hflag
    by (by apply safe_modify).
  pose proof (safe_performFailoverCheck (Some ev)) as Hp.
  intros s HI _ _ _ _ _. revert s HI.
  match goal with |- ∀ s, _ → ∃ a s', ?m s = _ ∧ _ ∧ _ => change (safe I m anything) end.
  eapply safe_bind; [eauto with safe|intros now _].
  destruct (q_admit now _ _ fq) as [[] fq']; simpl; [|by apply safe_ret]. solve_safe.
Qed.
End initialized.

End Failover.

#[export] Hint Resolve safe_getHealthyRole safe_lastChancePing safe_executeFailoverInternal
  safe_performFailoverCheck safe_enqueueFailoverCheckEvent safe_handleFailoverCheckEvent : safe.

(** * Properties of failover

    When a promotion may happen, what a failover leaves behind, and that the
    gateways carry no traffic while the role changes. *)

(** ** The pure checks *)

Definition replica_ready (r : ReplicaInfo) : Prop :=
  ∃ di, ri_ParsedDataInfo r = Some di ∧ di_Status di = "ready".

(** The cached list allows promoting [name]: the first entry of that name is a
    strict-sync replica, and every replica is ready. *)
Definition safe_to_promote (name : string) (rs : list ReplicaInfo) : Prop :=
  (∃ r, find_replica name rs = Some r ∧ ri_SyncMode r = "strict_sync") ∧
  Forall replica_ready rs.

Lemma find_replica_some name rs r :
  find_replica name rs = Some r → r ∈ rs ∧ ri_Name r = name.
Proof.
  induction rs as [|r' rs IH]; simpl; [done|].
  case_bool_decide; intros Hr; [simplify_eq|apply IH in Hr]; set_solver.
Qed.

Lemma replicas_not_ready_none rs : replicas_not_ready rs = None ↔ Forall replica_ready rs.
Proof.
  induction rs as [|r rs IH]; simpl; [done|]. rewrite Forall_cons, <- IH.
  unfold replica_ready. destruct (ri_ParsedDataInfo r) as [di|]; [|naive_solver].
  case_bool_decide; naive_solver.
Qed.

Lemma check_replicas_none name pod rs :
  check_replicas name pod rs = None ↔ safe_to_promote name rs.
Proof.
  unfold check_replicas, safe_to_promote. rewrite <- replicas_not_ready_none.
  destruct (find_replica name rs) as [r|] eqn:Hr; [|naive_solver].
  case_bool_decide; [naive_solver|]. split.
  - destruct (ri_ParsedDataInfo r) as [di|]; [|done]. case_bool_decide; naive_solver.
  - intros [_ Hall]. pose proof Hall as Hf. rewrite replicas_not_ready_none in Hf.
    apply find_replica_some in Hr as [Hin _]. rewrite Forall_forall in Hf.
    destruct (Hf r Hin) as (di & -> & ->). by rewrite bool_decide_eq_false_2 by naive_solver.
Qed.

Section FailoverProps.
Context {W : Type} `{World W}.
Context (config : Config) (configMapName : string).
Implicit Types s : Ctl W.

(** ** Effects of the steps *)

Lemma keeps_getHealthyRole (P : io → Prop) p :
  (∀ e, reads e → P e) → keeps (effects (W := W) P) (getHealthyRole config p).
Proof. intros HP. unfold getHealthyRole. solve_keeps. Qed.

Lemma keeps_lastChancePing (P : io → Prop) p :
  (∀ e, reads e → P e) → keeps (effects (W := W) P) (lastChancePing config p).
Proof. intros HP. unfold lastChancePing. solve_keeps. Qed.

#[local] Hint Resolve keeps_getHealthyRole keeps_lastChancePing : keeps.

Lemma keeps_failover_checks (P : io → Prop) :
  (∀ e, reads e → P e) → keeps (effects (W := W) P) (failover_checks config configMapName).
Proof. intros HP. unfold failover_checks. solve_keeps. Qed.

(** ** The checks that precede a promotion *)

Lemma getHealthyRole_ok s p role s' :
  getHealthyRole config p s = (Ret (role, true), s') →
  (∃ pod, w_store_get (pod_key config p) (net_world (ctl_net s)) = Ok (Some (Some pod)) ∧
     pod_PodIP pod ≠ "" ∧ isPodReady pod = true) ∧
  is_Some (node_at s p).
Proof.
  unfold getHealthyRole. intros Hr. inv_bind Hr as pod s1 Hpod.
  apply getPodFromCache_inv in Hpod as [-> Hpod]. destruct pod as [pod|]; [|done].
  case_bool_decide; [done|]. destruct (isPodReady pod) eqn:Hready; [|done].
  split; [by exists pod; auto|]. inv_bind Hr as node s1 Hn.
  apply find_node_inv in Hn as [-> ->]. by destruct (node_at s p); [|done].
Qed.

Lemma lastChancePing_ok s p s' :
  lastChancePing config p s = (Ret None, s') →
  is_Some (node_at s p) ∧ (∀ k, k ≠ p → node_at s' k = node_at s k).
Proof.
  unfold lastChancePing. intros Hr. inv_bind Hr as node s1 Hn.
  apply find_node_inv in Hn as [-> ->]. destruct (node_at s p) as [n|] eqn:Hn; [|done].
  inv_bind Hr as e s1 Hp. destruct e; [done|]. injection Hr as <-.
  apply on_node_inv in Hp as (_ & _ & _ & _ & _ & _ & _ & Hk). eauto.
Qed.

(** The sync pod is the other one of the two. *)
Lemma sync_pod_ne idx : GetPodName config (int32 (1 - idx)) ≠ GetPodName config idx.
Proof.
  intros Heq%GetPodName_inj. unfold int32, wrap in Heq.
  assert (∃ q, 1 - idx = idx + 2 ^ 32 * q)%Z as [q Hq]; [|lia].
  exists ((1 - idx + 2 ^ 31) / 2 ^ 32)%Z.
  pose proof (Z.div_mod (1 - idx + 2 ^ (32 - 1)) (2 ^ 32) ltac:(lia)).
  change (2 ^ (32 - 1))%Z with (2 ^ 31)%Z in *. lia.
Qed.

(** What holds when a failover goes ahead. *)
Record failover_allowed (s s1 : Ctl W) (name : string) : Prop := {
  fa_ready : ∃ pod, w_store_get (pod_key config name) (net_world (ctl_net s)) =
                      Ok (Some (Some pod)) ∧ pod_PodIP pod ≠ "" ∧ isPodReady pod = true;
  fa_node : is_Some (node_at s1 name);
  fa_replicas : ∃ main, node_at s1 (GetPodName config (ctl_targetMainIndex s)) = Some main ∧
    mn_memgraphRole main = "main" ∧
    ∃ sync, node_at s1 name = Some sync ∧
      safe_to_promote (node_GetReplicaName sync) (mn_replicasInfo main);
}.

Lemma node_name_same s s' k n n' :
  ids s' = ids s → node_at s k = Some n → node_at s' k = Some n' →
  node_GetReplicaName n' = node_GetReplicaName n.
Proof.
  intros Hids Hn Hn'. pose proof (node_at_id s s' k Hids) as Hid. rewrite Hn, Hn' in Hid.
  unfold node_GetReplicaName. unfold node_id in Hid. simpl in Hid. congruence.
Qed.

Lemma failover_checks_ok s i name role s1 :
  ctl_targetMainIndex s ≠ (-1)%Z →
  failover_checks config configMapName s = (Ret (Ok (i, name, role)), s1) →
  i = int32 (1 - ctl_targetMainIndex s) ∧ name = GetPodName config i ∧
  failover_allowed s s1 name.
Proof.
  intros Hi Hr. unfold failover_checks in Hr.
  inv_bind Hr as idx s2 Hidx. rewrite GetTargetMainIndex_loaded in Hidx by done.
  injection Hidx as <- <-. set (sync := GetPodName config (int32 (1 - ctl_targetMainIndex s))) in *.
  inv_bind Hr as hr s2 Hhr. destruct hr as [role' []]; [|done]. simpl in Hr.
  pose proof (keeps_run _ _ _ _ _ (keeps_getHealthyRole reads sync ltac:(auto)) Hhr) as He.
  destruct (reads_only_effects _ _ He Hi) as (Hi2 & _ & _).
  apply getHealthyRole_ok in Hhr as [Hready _].
  inv_bind Hr as tmn s3 Htmn. destruct tmn as [tmn|]; [|done].
  apply getTargetMainNode_ok in Htmn as (-> & -> & _); [|congruence].
  inv_bind Hr as replicas s3 Hrep. destruct replicas as [rs|]; [|done].
  apply on_node_inv in Hrep as (m & m' & net' & Hm & Hrun & Hm' & _ & _).
  apply GetReplicas_ok in Hrun as [Hrole Hrs]. simpl in Hrole, Hrs.
  inv_bind Hr as n s4 Hn. apply find_node_inv in Hn as [-> ->].
  destruct (node_at s3 sync) as [sn|] eqn:Hsn; [|done].
  inv_bind Hr as mname s4 Hname.
  apply on_node_field_inv in Hname as (sn' & Hsn' & -> & Hk & _).
  destruct (check_replicas _ _ rs) eqn:Hc; [done|]. apply check_replicas_none in Hc.
  inv_bind Hr as e s5 Hping. destruct e; [done|]. injection Hr as <- <- <- <-.
  pose proof (keeps_run _ _ _ _ _ (keeps_lastChancePing reads sync ltac:(auto)) Hping) as He2.
  destruct (lastChancePing_ok _ _ _ Hping) as [_ Hk5].
  assert (ids s5 = ids s4) as Hids5.
  { apply (effects_ids reads); [done|]. intros e (a & q & -> & _). discriminate. }
  assert (node_at s4 sync = Some sn') as Hsn4 by (by rewrite Hk).
  assert (∃ sn5, node_at s5 sync = Some sn5) as [sn5 Hsn5].
  { pose proof (node_at_id _ _ sync Hids5) as Hid. rewrite Hsn4 in Hid.
    destruct (node_at s5 sync); [eauto|done]. }
  split; [done|]. split; [done|]. split; [done|by exists sn5|].
  exists m'. rewrite Hi2 in Hm'. split.
  - rewrite Hk5, Hk by (intros Heq; symmetry in Heq; by eapply sync_pod_ne). done.
  - split; [done|]. exists sn5. split; [done|].
    rewrite (node_name_same s4 s5 sync sn' sn5), Hrs by done. done.
Qed.

(** ** The phases of a failover *)

(** The address the last switch of a gateway in a list of events set. *)
Fixpoint last_upstream (r : bool) (evs : list io) : option string :=
  match evs with
  | [] => None
  | e :: evs =>
      match last_upstream r evs with
      | Some a => Some a
      | None => match e with
                | IoGateway r' a => if bool_decide (r' = r) then Some a else None
                | _ => None
                end
      end
  end.

Lemma last_upstream_app r l k :
  last_upstream r (l ++ k) = match last_upstream r k with Some a => Some a | None => last_upstream r l end.
Proof.
  induction l as [|e l IH]; simpl; [by destruct (last_upstream r k)|].
  rewrite IH. by destruct (last_upstream r k).
Qed.

Lemma last_upstream_none r l :
  Forall (λ e, ¬ touches_gateway r e) l → last_upstream r l = None.
Proof.
  induction 1 as [|e l He _ IH]; simpl; [done|]. rewrite IH.
  destruct e; try done. simpl in He. by rewrite bool_decide_eq_false_2.
Qed.

(** Both gateways carry no traffic. *)
Definition closed s : Prop :=
  upstream false s = Some "" ∧
  (upstream true s = None ∨ upstream true s = Some "").

Definition closing s (evs : list io) : Prop :=
  last_upstream false evs = Some "" ∧
  (is_Some (gateway_of true s) → last_upstream true evs = Some "") ∧
  ∀ a q, IoQuery a q ∉ evs.

Lemma close_gateways_inv s o s' :
  is_Some (ctl_gatewayServer s) → close_gateways s = (o, s') →
  o = Ret () ∧ closed s' ∧
  ctl_cluster s' = ctl_cluster s ∧ ctl_targetMainIndex s' = ctl_targetMainIndex s ∧
  (is_Some (gateway_of true s') ↔ is_Some (gateway_of true s)) ∧
  ∃ evs, trace_of s' = trace_of s ++ evs ∧ closing s evs.
Proof.
  intros [g Hg] Hr. unfold close_gateways, mbind, M_bind, gw_SetUpstreamAddress at 1 in Hr.
  change (gateway_of false s) with (ctl_gatewayServer s) in Hr. rewrite Hg in Hr. simpl in Hr.
  unfold gw_nil, gets in Hr. simpl in Hr. unfold closed, closing, upstream.
  destruct (ctl_readGatewayServer s) as [rg|] eqn:Hrg; simpl in Hr.
  - unfold gw_SetUpstreamAddress in Hr. simpl in Hr. rewrite Hrg in Hr. injection Hr as <- <-.
    simpl. rewrite !SetUpstreamAddress_upstream, Hrg.
    split; [done|]. split; [auto|]. split; [done|]. split; [done|]. split; [by split; eauto|].
    exists [IoGateway false ""; IoGateway true ""]. split.
    + unfold trace_of, Ctl_trace. simpl. by rewrite <- app_assoc.
    + split; [done|]. split; [done|]. set_solver.
  - injection Hr as <- <-. simpl. rewrite !SetUpstreamAddress_upstream, Hrg.
    split; [done|]. split; [auto|]. split; [done|]. split; [done|]. split; [done|].
    exists [IoGateway false ""]. split; [done|]. split; [done|]. split; [by intros []|set_solver].
Qed.

(** Queries of the promotion phase: reads, and the promotion of one address. *)
Definition promoting (addr : string) (e : io) : Prop := reads e ∨ e = IoQuery addr q_promote.

(** With the read gateway closed its protection has nothing to do. *)
Lemma protect_closed s p :
  upstream true s = None ∨ upstream true s = Some "" →
  protectReadGatewayBeforeRoleChange p s = (Ret (), s).
Proof.
  unfold upstream, protectReadGatewayBeforeRoleChange, mbind, M_bind, gw_nil, gets,
    gw_GetUpstreamAddress, GetUpstreamAddress. intros Hu.
  destruct (gateway_of true s) as [g|] eqn:Hg; [|done]. simpl in *. rewrite Hg.
  destruct Hu as [|Hu]; simplify_eq/=. by rewrite bool_decide_eq_true_2.
Qed.

Lemma promote_effects s addr :
  let name := GetPodName config (int32 (1 - ctl_targetMainIndex s)) in
  ctl_targetMainIndex s ≠ (-1)%Z → closed s →
  (∀ n, node_at s name = Some n → addr = mn_ipAddress n +:+ ":7687") →
  effects (promoting addr) s (promoteSyncReplica config configMapName s).2.
Proof.
  intros name Hi [_ Hclosed] Haddr. unfold promoteSyncReplica.
  assert (∀ e, reads e → promoting addr e) as Hreads by (unfold promoting; auto).
  apply keeps_bind_at; [typeclasses eauto|apply keeps_GetTargetMainIndex|].
  intros idx s1. rewrite GetTargetMainIndex_loaded by done. intros [= <- <-]. fold name.
  rewrite (bind_ret_run _ _ s () s) by (by apply protect_closed).
  apply keeps_bind_at; [typeclasses eauto|apply keeps_find_node|].
  intros n s1 Hn. apply find_node_inv in Hn as [-> ->].
  destruct (node_at s name) as [n|] eqn:Hn; [|reflexivity].
  apply keeps_bind_at; [typeclasses eauto| |].
  - apply (on_node_effects _ (λ q, q = q_promote)); [by apply keeps_SetToMainRole|].
    intros n' q Hn' _ ->. right. rewrite (Haddr n); [|done]. congruence.
  - intros [e|] s1 _; [reflexivity|].
    apply keeps_bind; [typeclasses eauto|by apply keeps_node_role|].
    intros [role [e|]]; [by apply keeps_ret, _|]. case_bool_decide; by apply keeps_ret, _.
Qed.

(** A promotion that reports success was confirmed by the pod's own role. *)
Lemma promote_ok s s' :
  let name := GetPodName config (int32 (1 - ctl_targetMainIndex s)) in
  ctl_targetMainIndex s ≠ (-1)%Z → closed s →
  promoteSyncReplica config configMapName s = (Ret None, s') →
  ∃ n, node_at s' name = Some n ∧ mn_memgraphRole n = "main".
Proof.
  intros name Hi [_ Hclosed] Hr. unfold promoteSyncReplica in Hr.
  inv_bind Hr as idx s1 Hidx. rewrite GetTargetMainIndex_loaded in Hidx by done.
  injection Hidx as <- <-. fold name in Hr. inv_bind Hr as u s1 Hp.
  rewrite protect_closed in Hp by done. injection Hp as _ <-.
  inv_bind Hr as n s1 Hn. apply find_node_inv in Hn as [-> ->].
  destruct (node_at s name) as [n|] eqn:Hn; [|done].
  inv_bind Hr as e s1 He. destruct e; [done|].
  inv_bind Hr as r s2 Hrole. destruct r as [role [e|]]; [done|].
  case_bool_decide as Hm; [done|]. injection Hr as <-.
  apply on_node_inv in Hrole as (n1 & n2 & net' & _ & Hrun & Hn2 & _).
  apply GetReplicationRole_ok in Hrun as [Hrole _]. exists n2. split; [done|].
  simpl in Hrole. rewrite Hrole. done.
Qed.

(** Reopening: only reads and gateway switches; the main gateway gets the new
    main's address. *)
Definition opening (e : io) : Prop := reads e ∨ ∃ r a, e = IoGateway r a.

Lemma keeps_open_gateways name :
  keeps (effects (W := W) opening) (open_gateways config configMapName name).
Proof.
  assert (∀ e, reads e → opening e) by (unfold opening; auto).
  assert (∀ r a, opening (IoGateway r a)) by (unfold opening; eauto).
  pose proof (λ a, keeps_gw_SetUpstreamAddress (W := W) opening false a (H1 false a)).
  unfold open_gateways. solve_keeps.
Qed.

Lemma open_gateways_ok s name s' :
  upstream false s = Some "" → open_gateways config configMapName name s = (Ret (), s') →
  ∃ n, node_at s name = Some n ∧
    upstream false s' = Some (if bool_decide (mn_ipAddress n = "") then "" else bolt_of n).
Proof.
  intros Hu Hr. unfold open_gateways in Hr. inv_bind Hr as b s1 Hb.
  assert (effects (λ _, False) s s1) as He.
  { eapply keeps_run; [|exact Hb]. apply (keeps_on_node _ (λ _, False)); [apply keeps_field|done]. }
  apply on_node_field_inv in Hb as (n & Hn & -> & _). exists n. split; [done|].
  assert (gateway_of false s1 = gateway_of false s) as Hg.
  { by apply (effects_gateway (λ _, False)). }
  unfold GetBoltAddress in Hr. case_bool_decide as Hip.
  - injection Hr as <-. unfold upstream. by rewrite Hg.
  - inv_bind Hr as u s2 Hset. unfold gw_SetUpstreamAddress in Hset.
    destruct (gateway_of false s1) as [g|] eqn:Hg1; [|done]. injection Hset as _ <-.
    set (P := λ e, reads e ∨ ∃ a, e = IoGateway true a).
    assert (keeps (effects (W := W) P) (updateReadGatewayUpstream config configMapName)) as Hk.
    { apply keeps_updateReadGatewayUpstream; unfold P; eauto. }
    pose proof (keeps_run _ _ _ _ _ Hk Hr) as Hst. unfold upstream.
    rewrite (effects_gateway _ _ _ false Hst).
    + simpl. by rewrite SetUpstreamAddress_upstream.
    + intros e [(a & q & -> & _)|[a ->]]; simpl; congruence.
Qed.

(** ** The whole failover *)

(** The index the program works with: one of its two data pods. *)
Definition two_pods s : Prop := ctl_targetMainIndex s = 0%Z ∨ ctl_targetMainIndex s = 1%Z.

(** The pod a failover promotes. *)
Definition sync_pod s : string := GetPodName config (1 - ctl_targetMainIndex s).

Lemma two_pods_sync s :
  two_pods s → int32 (1 - ctl_targetMainIndex s) = (1 - ctl_targetMainIndex s)%Z ∧
  (1 - ctl_targetMainIndex s ≠ -1)%Z ∧ ctl_targetMainIndex s ≠ (-1)%Z.
Proof. intros [-> | ->]; done. Qed.

(** The state after the checks and the closing of the gateways, with what led
    to it. *)
Record failover_begun s s1 s2 (name : string) (evs : list io) : Prop := {
  fb_allowed : failover_allowed s s1 name;
  fb_reads : effects reads s s1;
  fb_closed : closed s2;
  fb_cluster : ctl_cluster s2 = ctl_cluster s1;
  fb_index : ctl_targetMainIndex s2 = ctl_targetMainIndex s;
  fb_trace : trace_of s2 = trace_of s ++ evs;
  fb_read_gw : is_Some (gateway_of true s2) ↔ is_Some (gateway_of true s);
  fb_last : last_upstream false evs = Some "";
  fb_last_read : is_Some (gateway_of true s) → last_upstream true evs = Some "";
  fb_queries : ∀ a q, IoQuery a q ∈ evs → read_query q;
}.

Lemma promote_not_read : ¬ read_query q_promote.
Proof.
  intros Hq.
  assert (bool_decide (q_promote ∈ [q_show_role; q_show_replicas; q_ping; q_storage]) = false) as Hn
    by reflexivity.
  by apply bool_decide_eq_false in Hn.
Qed.

Lemma reads_no_promote evs a : Forall reads evs → IoQuery a q_promote ∉ evs.
Proof.
  intros HF Hin. rewrite Forall_forall in HF. destruct (HF _ Hin) as (a' & q & [= <- <-] & Hq).
  by apply promote_not_read.
Qed.

Lemma reads_gateways evs r : Forall reads evs → Forall (λ e, ¬ touches_gateway r e) evs.
Proof. intros HF. eapply Forall_impl; [exact HF|]. by intros e (a & q & -> & _) []. Qed.

(** What [executeFailoverInternal] does once the gateways are closed. *)
#[local] Abbreviation after_closing role i name :=
  (check? (if bool_decide (role = "main") then mret None
           else promoteSyncReplica config configMapName) orelse err => mret (Some err) in
   check? SetTargetMainIndex config configMapName i orelse err =>
     mret (Some (Wrapf "failed to update target main index" err)) in
   _ ← open_gateways config configMapName name;
   mret None).

(** A failover either stops at its checks, having only read, or begins. *)
Lemma failover_begin s o s' :
  two_pods s → is_Some (ctl_gatewayServer s) →
  executeFailoverInternal config configMapName s = (o, s') →
  (effects reads s s' ∧ o ≠ Ret None) ∨
  ∃ role s1 s2 evs, failover_begun s s1 s2 (sync_pod s) evs ∧
    after_closing role (1 - ctl_targetMainIndex s) (sync_pod s) s2 = (o, s').
Proof.
  intros Htwo Hgw Hr. destruct (two_pods_sync s Htwo) as (Hint & Hne & Hi).
  unfold executeFailoverInternal in Hr.
  destruct (failover_checks config configMapName s) as [[[[[i name] role]|e]|w] s1] eqn:Hc;
    pose proof (keeps_run _ _ _ _ _ (keeps_failover_checks reads ltac:(auto)) Hc) as He;
    unfold mbind at 1, M_bind at 1 in Hr; rewrite Hc in Hr;
    [|left; injection Hr as <- <-; by split..].
  right. apply failover_checks_ok in Hc as (-> & -> & Hall); [|done]. rewrite Hint in *.
  destruct (reads_only_effects _ _ He Hi) as (Hi1 & _ & Hg1).
  destruct (close_gateways s1) as [o2 s2] eqn:Hcl.
  pose proof (Hg1 false) as Hgf. change (gateway_of false s1) with (ctl_gatewayServer s1) in Hgf.
  pose proof Hcl as Hcl0. apply close_gateways_inv in Hcl0 as (-> & Hclosed & Hcl2 & Hi2 & Hrg & ev2 & HT2 & Hlast & Hlastr & Hnq);
    [|by rewrite Hgf].
  destruct He as (He1 & evs & HT & HF & He2).
  exists role, s1, s2, (evs ++ ev2). rewrite Hg1 in *. split.
  - split; try done.
    + split; [done|]. by exists evs.
    + congruence.
    + by rewrite HT2, HT, app_assoc.
    + by rewrite last_upstream_app, Hlast.
    + intros Hs. by rewrite last_upstream_app, Hlastr.
    + intros a q. rewrite elem_of_app. intros [Hin|Hin]; [|by apply Hnq in Hin].
      rewrite Forall_forall in HF. destruct (HF _ Hin) as (? & ? & ? & ?). by simplify_eq.
  - by erewrite bind_ret_run in Hr by exact Hcl.
Qed.

(** The rest of a failover: its effects, and what it returns. *)
Definition finishing (i : Z) (e : io) : Prop := opening e ∨ e = IoConfigMap (index_data i).

Lemma begun_index s s1 s2 name evs :
  failover_begun s s1 s2 name evs → two_pods s → two_pods s2 ∧ sync_pod s2 = sync_pod s.
Proof.
  intros Hb. unfold two_pods, sync_pod. rewrite (fb_index _ _ _ _ _ Hb). done.
Qed.

Lemma begun_sync_node s s1 s2 name evs :
  failover_begun s s1 s2 name evs → ∃ n, node_at s2 name = Some n ∧ node_at s1 name = Some n.
Proof.
  intros Hb. destruct (fa_node _ _ _ (fb_allowed _ _ _ _ _ Hb)) as [n Hn].
  exists n. unfold node_at in *. by rewrite (fb_cluster _ _ _ _ _ Hb).
Qed.

(** The promotion step, or its absence when the pod is already main. *)
Lemma promote_step s role addr :
  two_pods s → closed s →
  (∀ n, node_at s (sync_pod s) = Some n → addr = bolt_of n) →
  effects (promoting addr) s
    ((if bool_decide (role = "main") then mret None
      else promoteSyncReplica config configMapName) s).2.
Proof.
  intros Htwo Hc Haddr. destruct (two_pods_sync s Htwo) as (Hint & _ & Hi).
  case_bool_decide; [reflexivity|]. apply promote_effects; [done|done|].
  rewrite Hint. exact Haddr.
Qed.

Lemma promoting_facts addr s s' :
  effects (promoting addr) s s' → ctl_targetMainIndex s ≠ (-1)%Z →
  ctl_targetMainIndex s' = ctl_targetMainIndex s ∧ ids s' = ids s ∧
  ∀ r, gateway_of r s' = gateway_of r s.
Proof.
  intros He Hi. split; [|split].
  - apply (effects_index _ _ _ He); [|done]. intros e [(a & q & -> & _)| ->]; by intros [].
  - apply (effects_ids _ _ _ He). intros e [(a & q & -> & _)| ->]; discriminate.
  - intros r. apply (effects_gateway _ _ _ r He). intros e [(a & q & -> & _)| ->]; intros [].
Qed.

Lemma finish_effects s i name :
  keeps (effects (W := W) (finishing i))
    (check? SetTargetMainIndex config configMapName i orelse err =>
       mret (Some (Wrapf "failed to update target main index" err)) in
     _ ← open_gateways config configMapName name;
     mret None : M (Ctl W) (option error)).
Proof.
  apply keeps_bind; [typeclasses eauto| |].
  - apply keeps_SetTargetMainIndex. by right.
  - intros [e|]; [apply keeps_ret, _|]. apply keeps_bind; [typeclasses eauto| |].
    + eapply keeps_weaken; [apply keeps_open_gateways|]. intros ? ?. apply effects_mono. by left.
    + intros []. apply keeps_ret, _.
Qed.

Lemma finishing_no_promote i evs a :
  Forall (finishing i) evs → IoQuery a q_promote ∉ evs.
Proof.
  intros HF Hin. rewrite Forall_forall in HF.
  destruct (HF _ Hin) as [[Hr|(r & b & ?)]| ?]; [|discriminate..].
  apply (reads_no_promote [IoQuery a q_promote] a); [by constructor|set_solver].
Qed.

Lemma promoting_gateways addr evs r :
  Forall (promoting addr) evs → Forall (λ e, ¬ touches_gateway r e) evs.
Proof.
  intros HF. eapply Forall_impl; [exact HF|].
  intros e [(a & q & -> & _)| ->]; intros [].
Qed.

Lemma promoting_queries addr evs a q :
  Forall (promoting addr) evs → IoQuery a q ∈ evs → read_query q ∨ q = q_promote.
Proof.
  rewrite Forall_forall. intros HF Hin. destruct (HF _ Hin) as [(? & ? & ? & ?)|?]; simplify_eq; auto.
Qed.

Lemma finishing_queries i evs a q :
  Forall (finishing i) evs → IoQuery a q ∈ evs → read_query q.
Proof.
  rewrite Forall_forall. intros HF Hin.
  by destruct (HF _ Hin) as [[(? & ? & ? & ?)|(? & ? & ?)]|?]; simplify_eq.
Qed.

(** The events of a failover that began: its checks and the closing, the
    promotion, and the rest. *)
Lemma begun_events role s s1 s2 n ev1 o s' :
  two_pods s → failover_begun s s1 s2 (sync_pod s) ev1 → node_at s2 (sync_pod s) = Some n →
  after_closing role (1 - ctl_targetMainIndex s) (sync_pod s) s2 = (o, s') →
  ∃ ev2 ev3, trace_of s' = trace_of s ++ ev1 ++ ev2 ++ ev3 ∧
    Forall (promoting (bolt_of n)) ev2 ∧ Forall (finishing (1 - ctl_targetMainIndex s)) ev3.
Proof.
  intros Htwo Hb Hn Hrest. destruct (begun_index _ _ _ _ _ Hb Htwo) as [Htwo2 Hsync2].
  pose proof (promote_step s2 role (bolt_of n) Htwo2 (fb_closed _ _ _ _ _ Hb)) as Hp.
  rewrite Hsync2 in Hp. specialize (Hp ltac:(intros n' Hn'; congruence)).
  revert Hrest Hp. generalize (1 - ctl_targetMainIndex s)%Z as i. intros i Hrest Hp.
  pose proof (fb_trace _ _ _ _ _ Hb) as HT1. unfold mbind at 1, M_bind at 1 in Hrest.
  match type of Hp with effects _ _ (?m s2).2 => destruct (m s2) as [[e|w] s3] end;
    destruct Hp as (_ & ev2 & HT2 & HF2 & _); simpl in HT2.
  - destruct e as [e|].
    + injection Hrest as <- <-. exists ev2, []. by rewrite app_nil_r, HT2, HT1, app_assoc.
    + pose proof (finish_effects s3 i (sync_pod s) s3) as (_ & ev3 & HT3 & HF3 & _).
      rewrite Hrest in HT3. simpl in HT3. exists ev2, ev3. by rewrite HT3, HT2, HT1, !app_assoc.
  - injection Hrest as <- <-. exists ev2, []. by rewrite app_nil_r, HT2, HT1, app_assoc.
Qed.

(** C3. A failover promotes safely.  Whatever the outside world answers, and
    whatever the outcome: if the failover sends the promotion query at all, it
    goes to the sync replica's own address; the pod was ready with an address,
    the main's replica list was known with the sync replica in strict-sync mode
    and every replica ready; and by then the last thing done to the read/write
    gateway, and to the read gateway if there is one, was to take its upstream
    away.  Nothing is ever demoted, registered or dropped on the way. *)
Theorem failover_promotes_safely s o s' :
  two_pods s → is_Some (ctl_gatewayServer s) →
  executeFailoverInternal config configMapName s = (o, s') →
  ∃ evs, trace_of s' = trace_of s ++ evs ∧
    (∀ a q, IoQuery a q ∈ evs → read_query q ∨ q = q_promote) ∧
    ∀ e1 a e2, evs = e1 ++ IoQuery a q_promote :: e2 →
      (∃ s1 n, effects reads s s1 ∧ failover_allowed s s1 (sync_pod s) ∧
         node_at s1 (sync_pod s) = Some n ∧ a = bolt_of n) ∧
      last_upstream false e1 = Some "" ∧
      (is_Some (ctl_readGatewayServer s) → last_upstream true e1 = Some "").
Proof.
  intros Htwo Hgw Hr.
  destruct (failover_begin s o s' Htwo Hgw Hr) as
    [[(_ & evs & HT & HF & _) _]|(role & s1 & s2 & ev1 & Hb & Hrest)].
  { exists evs. split; [done|]. split.
    - intros a q Hin. rewrite Forall_forall in HF. destruct (HF _ Hin) as (? & ? & ? & ?).
      left. by simplify_eq.
    - intros e1 a e2 ->. exfalso. apply (reads_no_promote _ a HF). set_solver. }
  destruct (begun_sync_node _ _ _ _ _ Hb) as (n & Hn2 & Hn1).
  destruct (begun_events _ _ _ _ _ _ _ _ Htwo Hb Hn2 Hrest) as (ev2 & ev3 & HT & HF2 & HF3).
  exists (ev1 ++ ev2 ++ ev3). split; [done|]. split.
  - intros a q. rewrite !elem_of_app. intros [Hin|[Hin|Hin]].
    + left. by eapply (fb_queries _ _ _ _ _ Hb).
    + by eapply promoting_queries.
    + left. by eapply finishing_queries.
  - intros e1 a e2 Heq.
    apply app_split_first in Heq as (k & -> & Heq);
      [|intros Hin; by eapply promote_not_read, (fb_queries _ _ _ _ _ Hb)].
    apply app_split_last in Heq as (k2 & -> & ->); [|by eapply finishing_no_promote].
    apply Forall_app in HF2 as [Hk HF2]. apply Forall_cons in HF2 as [Ha _].
    split; [|split].
    + exists s1, n. split; [apply (fb_reads _ _ _ _ _ Hb)|].
      split; [apply (fb_allowed _ _ _ _ _ Hb)|]. split; [done|].
      destruct Ha as [(? & ? & ? & ?)|?]; simplify_eq; [by destruct promote_not_read|done].
    + rewrite last_upstream_app, last_upstream_none by (by eapply promoting_gateways).
      apply (fb_last _ _ _ _ _ Hb).
    + intros Hrg. rewrite last_upstream_app, last_upstream_none by (by eapply promoting_gateways).
      by apply (fb_last_read _ _ _ _ _ Hb).
Qed.

(** The two ends of a failover: cut short, or with the index stored and the
    gateways still closed. *)
Lemma failover_stages s o s' :
  two_pods s → is_Some (ctl_gatewayServer s) →
  executeFailoverInternal config configMapName s = (Ret o, s') →
  (∃ e, o = Some e ∧ ctl_targetMainIndex s' = ctl_targetMainIndex s ∧
     ((∀ r, gateway_of r s' = gateway_of r s) ∨ closed s')) ∨
  (∃ s4 evs, o = None ∧ closed s4 ∧ ctl_targetMainIndex s4 = (1 - ctl_targetMainIndex s)%Z ∧
     ids s4 = ids s ∧ trace_of s4 = trace_of s ++ evs ∧
     IoConfigMap (index_data (1 - ctl_targetMainIndex s)) ∈ evs ∧
     open_gateways config configMapName (sync_pod s) s4 = (Ret (), s')).
Proof.
  intros Htwo Hgw Hr. destruct (two_pods_sync s Htwo) as (_ & Hne & Hi).
  destruct (failover_begin s _ s' Htwo Hgw Hr) as
    [[He Ho]|(role & s1 & s2 & ev1 & Hb & Hrest)].
  { left. destruct o as [e|]; [|done]. destruct (reads_only_effects _ _ He Hi) as (? & _ & ?). eauto. }
  destruct (begun_index _ _ _ _ _ Hb Htwo) as [Htwo2 Hsync2].
  destruct (begun_sync_node _ _ _ _ _ Hb) as (n & Hn2 & _).
  pose proof (promote_step s2 role (bolt_of n) Htwo2 (fb_closed _ _ _ _ _ Hb)) as Hp.
  rewrite Hsync2 in Hp. specialize (Hp ltac:(intros n' Hn'; congruence)).
  destruct (two_pods_sync s2 Htwo2) as (_ & _ & Hi2).
  destruct (reads_only_effects _ _ (fb_reads _ _ _ _ _ Hb) Hi) as (_ & Hids1 & _).
  inv_bind Hrest as e s3 H3. rewrite H3 in Hp. simpl in Hp.
  destruct (promoting_facts _ _ _ Hp Hi2) as (Hidx3 & Hids3 & Hg3).
  rewrite (fb_index _ _ _ _ _ Hb) in Hidx3.
  assert (closed s3) as Hc3.
  { pose proof (fb_closed _ _ _ _ _ Hb) as Hc. unfold closed, upstream in *. by rewrite !Hg3. }
  destruct e as [e|]; [left; injection Hrest as <- <-; by eauto|].
  inv_bind Hrest as e s4 H4. apply SetTargetMainIndex_inv in H4 as (Hcl4 & Hg4 & H4).
  assert (closed s4) as Hc4 by (unfold closed, upstream in *; by rewrite !Hg4).
  destruct e as [e|]; [left; injection Hrest as <- <-; destruct H4; eexists; split; [done|]; split; [congruence|auto]|].
  destruct H4 as [Hi4 HT4]. inv_bind Hrest as u s5 H5. destruct u. injection Hrest as <- <-.
  right. destruct Hp as (_ & ev2 & HT3 & _).
  exists s4, (ev1 ++ ev2 ++ [IoConfigMap (index_data (1 - ctl_targetMainIndex s))]).
  split; [done|]. split; [done|]. split; [done|]. split.
  { unfold ids in *. by rewrite Hcl4, Hids3, (fb_cluster _ _ _ _ _ Hb). }
  split; [by rewrite HT4, HT3, (fb_trace _ _ _ _ _ Hb), !app_assoc|]. split; [|done].
  rewrite !elem_of_app, list_elem_of_singleton. auto.
Qed.

(** The last stage. *)
Lemma open_stage s4 name s' :
  closed s4 → ctl_targetMainIndex s4 ≠ (-1)%Z →
  open_gateways config configMapName name s4 = (Ret (), s') →
  ctl_targetMainIndex s' = ctl_targetMainIndex s4 ∧ ids s' = ids s4 ∧
  (∃ evs, trace_of s' = trace_of s4 ++ evs) ∧
  ∃ n, node_at s' name = Some n ∧
    upstream false s' = Some (if bool_decide (mn_ipAddress n = "") then "" else bolt_of n).
Proof.
  intros Hc Hi Hr. pose proof (keeps_run _ _ _ _ _ (keeps_open_gateways name) Hr) as E.
  apply open_gateways_ok in Hr as (n4 & Hn4 & Hu); [|apply Hc].
  assert (ids s' = ids s4) as Hids.
  { apply (effects_ids _ _ _ E). intros e [(? & ? & -> & _)|(? & ? & ->)]; discriminate. }
  split; [|split; [done|split]].
  - apply (effects_index _ _ _ E); [|done]. intros e [(? & ? & -> & _)|(? & ? & ->)]; intros [].
  - destruct E as (_ & evs & HT & _). eauto.
  - pose proof (node_at_id _ _ name Hids) as Hid. rewrite Hn4 in Hid.
    destruct (node_at s' name) as [n5|]; [|done]. exists n5. split; [done|].
    rewrite Hu. unfold node_id, bolt_of in *. simpl in Hid. injection Hid as _ ->. done.
Qed.

(** C8. What a failover leaves behind.  On success the target index is the other
    one of the two, it is stored in the ConfigMap, and the read/write gateway
    points at the promoted pod (at nothing, if that pod lost its address).  On
    an error the target index is as before, and either both gateways are
    untouched or neither carries traffic: clients never stay connected to a
    cluster whose failover was cut short. *)
Theorem failover_outcome s o s' :
  two_pods s → is_Some (ctl_gatewayServer s) →
  executeFailoverInternal config configMapName s = (Ret o, s') →
  match o with
  | None =>
      ctl_targetMainIndex s' = (1 - ctl_targetMainIndex s)%Z ∧
      (∃ evs, trace_of s' = trace_of s ++ evs ∧
         IoConfigMap (index_data (1 - ctl_targetMainIndex s)) ∈ evs) ∧
      ∃ n, node_at s' (sync_pod s) = Some n ∧
        upstream false s' = Some (if bool_decide (mn_ipAddress n = "") then "" else bolt_of n)
  | Some _ =>
      ctl_targetMainIndex s' = ctl_targetMainIndex s ∧
      ((∀ r, gateway_of r s' = gateway_of r s) ∨ closed s')
  end.
Proof.
  intros Htwo Hgw Hr.
  apply failover_stages in Hr as [(e & -> & ? & ?)|(s4 & evs & -> & Hc & Hi & _ & HT & Hin & Hop)];
    [done| |done..].
  destruct (open_stage s4 (sync_pod s) s' Hc) as (Hi' & _ & [ev5 HT5] & Hn); [|done|].
  { rewrite Hi. destruct Htwo as [-> | ->]; lia. }
  split; [by rewrite Hi', Hi|]. split; [|done].
  exists (evs ++ ev5). rewrite HT5, HT, app_assoc. split; [done|]. rewrite elem_of_app. auto.
Qed.

(** ** When a failover is attempted *)

Lemma keeps_lastChancePing_reads p : keeps (effects (W := W) reads) (lastChancePing config p).
Proof. by apply keeps_lastChancePing. Qed.

Lemma health_check_reads s (event : FailoverCheckEvent) o s' :
  ctl_targetMainIndex s ≠ (-1)%Z →
  fe_Reason event = "health-check-failure" →
  performFailoverCheck config configMapName (Some event) s = (o, s') →
  effects reads s s' ∧ ctl_targetMainIndex s' = ctl_targetMainIndex s ∧
  (∀ r, gateway_of r s' = gateway_of r s) ∧ ∀ err, o ≠ Ret (Some err).
Proof.
  intros Hi Hreason Hr. unfold performFailoverCheck in Hr.
  rewrite (bind_ret_run _ _ s (Ok (ctl_targetMainIndex s)) s) in Hr
    by (by apply GetTargetMainIndex_loaded).
  rewrite bool_decide_eq_true_2 in Hr by done. unfold mbind, M_bind in Hr.
  pose proof (keeps_lastChancePing_reads (GetPodName config (ctl_targetMainIndex s)) s) as He.
  assert (effects reads s s' ∧ ∀ err, o ≠ Ret (Some err)) as [He' Ho].
  { destruct (lastChancePing _ _ s) as [[e|w] s1]; simpl in *; injection Hr as <- <-; by split. }
  destruct (reads_only_effects _ _ He' Hi) as (? & _ & ?). auto.
Qed.

(** A failover check raised by the health prober never fails over: whatever
    the final ping of the main answers, the check sends read-only queries only,
    keeps the target index and the gateways as they are, and, if the cluster is
    known, reports success. *)
Theorem health_failure_check_only_reads s (event : FailoverCheckEvent) o s' :
  ctl_targetMainIndex s ≠ (-1)%Z →
  fe_Reason event = "health-check-failure" →
  performFailoverCheck config configMapName (Some event) s = (o, s') →
  effects reads s s' ∧ ctl_targetMainIndex s' = ctl_targetMainIndex s ∧
  (∀ r, gateway_of r s' = gateway_of r s) ∧ ∀ err, o ≠ Ret (Some err).
Proof. apply health_check_reads. Qed.

(** The check made by reconciliation: a target main that is ready, has an
    address and answers that its role is "main" is left alone, and only read
    queries are sent to find out; in every other case the check is exactly a
    failover from the state those queries left. *)
Theorem reconcile_check_spec X rg s :
  ctl_targetMainIndex s ≠ (-1)%Z → initialized X rg s →
  ∃ role healthy s1,
    getHealthyRole config (GetPodName config (ctl_targetMainIndex s)) s = (Ret (role, healthy), s1) ∧
    effects reads s s1 ∧
    (healthy = true → role = "main" → performFailoverCheck config configMapName None s = (Ret None, s1)) ∧
    (healthy = false ∨ role ≠ "main" →
      performFailoverCheck config configMapName None s =
        (check? executeFailoverInternal config configMapName orelse err =>
           mret (Some (Wrapf "failed to execute failover" err)) in
         mret None) s1).
Proof.
  intros Hi HI.
  destruct (safe_getHealthyRole config X rg (GetPodName config (ctl_targetMainIndex s)) s HI)
    as ([role healthy] & s1 & Hr & _).
  exists role, healthy, s1. split; [done|].
  split; [by eapply keeps_run; [apply keeps_getHealthyRole|]|].
  unfold performFailoverCheck.
  rewrite !(bind_ret_run _ _ s (Ok (ctl_targetMainIndex s)) s)
    by (by apply GetTargetMainIndex_loaded).
  rewrite (bind_ret_run _ _ s (healthy && bool_decide (role = "main")) s1)
    by (by rewrite (bind_ret_run _ _ s (role, healthy) s1)).
  split.
  - intros -> ->. done.
  - intros Hor. assert (healthy && bool_decide (role = "main") = false) as ->; [|done].
    apply andb_false_iff. rewrite bool_decide_eq_false. tauto.
Qed.

(** Reconciliation trusts the cached role: a target main whose pod Kubernetes
    reports as ready and whose role was once read as "main" passes the check
    without a single query, so a database that hangs behind a ready pod is not
    noticed here. *)
Theorem cached_main_not_probed s pod n :
  let t := GetPodName config (ctl_targetMainIndex s) in
  ctl_targetMainIndex s ≠ (-1)%Z →
  w_store_get (pod_key config t) (net_world (ctl_net s)) = Ok (Some (Some pod)) →
  isPodReady pod = true → pod_PodIP pod ≠ "" →
  node_at s t = Some n → mn_memgraphRole n = "main" →
  ∃ s', performFailoverCheck config configMapName None s = (Ret None, s') ∧
    trace_of s' = trace_of s ∧ ctl_net s' = ctl_net s ∧ (∀ k, node_at s' k = node_at s k).
Proof.
  intros t Hi Hpod Hready Hip Hn Hrole.
  assert (∃ s', on_node t (GetReplicationRole config false) s = (Ret ("main", None), s') ∧
    ctl_net s' = ctl_net s ∧ ∀ k, node_at s' k = node_at s k) as (s' & Hr & Hnet & Hat).
  { unfold on_node. rewrite Hn. rewrite GetReplicationRole_cached by (simpl; by rewrite Hrole).
    simpl. rewrite Hrole. eexists. split; [done|]. split; [done|]. intros k.
    unfold node_at in *. destruct (ctl_cluster s) as [nodes|]; [|done]. simpl in *.
    destruct (decide (k = t)) as [->|]; [by rewrite lookup_insert_eq|by rewrite lookup_insert_ne]. }
  exists s'. split; [|split; [unfold trace_of, Ctl_trace; by rewrite Hnet|done]].
  assert (is_Some (ctl_cluster s)) as [nodes Hc].
  { unfold node_at in Hn. destruct (ctl_cluster s); [eauto|done]. }
  assert (get_nodes s = (Ret nodes, s)) as Hg by (unfold get_nodes; by rewrite Hc).
  assert (getPodFromCache config t s = (Ret (Ok pod), s)) as Hp.
  { unfold getPodFromCache. rewrite (bind_ret_run _ _ _ _ _ Hg).
    unfold mbind, M_bind, gets. by rewrite Hpod. }
  assert (getHealthyRole config t s = (Ret ("main", true), s')) as Hh.
  { unfold getHealthyRole. rewrite (bind_ret_run _ _ _ _ _ Hp).
    rewrite bool_decide_eq_false_2 by done. rewrite Hready. simpl.
    rewrite (bind_ret_run _ _ s (Some n) s).
    - by rewrite (bind_ret_run _ _ _ _ _ Hr).
    - unfold find_node. rewrite (bind_ret_run _ _ _ _ _ Hg). unfold node_at in Hn.
      rewrite Hc in Hn. simpl in Hn. by rewrite Hn. }
  unfold performFailoverCheck.
  rewrite (bind_ret_run _ _ _ _ _ (GetTargetMainIndex_loaded config configMapName s Hi)).
  rewrite (bind_ret_run _ _ s true s'); [done|]. by rewrite (bind_ret_run _ _ _ _ _ Hh).
Qed.

(** Failover never panics.  Once the controller is initialised, a failover
    check, with or without an event and whatever the outside world answers,
    returns, and the controller is still initialised with the same nodes. *)
Theorem failover_never_panics `{!WorldOrder W} X rg (event : option FailoverCheckEvent) s :
  initialized X rg s →
  ∃ o s', performFailoverCheck config configMapName event s = (Ret o, s') ∧ initialized X rg s'.
Proof.
  intros HI. destruct (safe_performFailoverCheck config configMapName X rg event s HI)
    as (o & s' & Hr & HI' & _). eauto.
Qed.

(** The gate before a failover check.  A controller that is not the leader
    ignores the event altogether; a leader drops an event for a pod whose last
    admitted event is less than two seconds old; otherwise it records the
    event's time and runs the failover check. *)
Theorem failover_event_gate s (event : FailoverCheckEvent) (fq : Queue FailoverCheckEvent) :
  ctl_failoverCheckQueue s = Some fq →
  let now := (w_now (net_world (ctl_net s))).1 in
  let s0 := set_net (set_world (w_now (net_world (ctl_net s))).2 (ctl_net s)) s in
  let run := handleFailoverCheckEvent config configMapName event s in
  (le_IsLeader (ctl_leaderElection s) = false → run = (Ret (), s)) ∧
  (le_IsLeader (ctl_leaderElection s) = true →
     (q_admit now (failover_key event) (fe_Timestamp event) fq).1 = false → run = (Ret (), s0)) ∧
  (le_IsLeader (ctl_leaderElection s) = true →
     (q_admit now (failover_key event) (fe_Timestamp event) fq).1 = true →
     run = (_ ← performFailoverCheck config configMapName (Some event);
            modify (set_failoverCheckNeeded false))
             (set_failoverCheckQueue
                (Some (q_admit now (failover_key event) (fe_Timestamp event) fq).2) s0)).
Proof.
  intros Hfq now s0 run. subst run now s0.
  unfold handleFailoverCheckEvent, IsLeader, mbind, M_bind, gets, cnet, zoom, call.
  destruct (le_IsLeader (ctl_leaderElection s)); simpl; [|done]. rewrite Hfq.
  destruct (w_now (net_world (ctl_net s))) as [now w]; simpl.
  destruct (q_admit now (failover_key event) (fe_Timestamp event) fq) as [[] fq']; simpl; done.
Qed.

End FailoverProps.

(** ** Witnesses: the main is down, the sync replica takes over *)

Definition failed_run : outcome (option error) * Ctl Sim :=
  executeFailoverInternal example_config "memgraph-state" sim_failed.

Lemma failed_run_split :
  executeFailoverInternal example_config "memgraph-state" sim_failed = (failed_run.1, failed_run.2).
Proof. apply surjective_pairing. Qed.

Lemma failover_promotes_safely_witness :
  IoQuery (sim_bolt 1) q_promote ∈ trace_of failed_run.2 ∧
  ∃ evs, trace_of failed_run.2 = [] ++ evs ∧
    ∀ e1 a e2, evs = e1 ++ IoQuery a q_promote :: e2 → last_upstream false e1 = Some "".
Proof.
  split; [apply (bool_decide_unpack _); vm_compute; exact Logic.I|].
  destruct (failover_promotes_safely example_config "memgraph-state" sim_failed
    failed_run.1 failed_run.2) as (evs & HT & _ & Hp);
    [by left|by eexists|apply failed_run_split|].
  exists evs. split; [exact HT|]. intros e1 a e2 Heq. apply (Hp e1 a e2 Heq).
Defined.

Lemma failover_outcome_witness :
  failed_run.1 = Ret None ∧ ctl_targetMainIndex failed_run.2 = 1%Z ∧
  upstream false failed_run.2 = Some (sim_bolt 1).
Proof.
  assert (failed_run.1 = Ret None) as Hr by (vm_compute; reflexivity).
  destruct (failover_outcome example_config "memgraph-state" sim_failed None failed_run.2)
    as (Hi & _ & Hu); [by left|by eexists|rewrite <- Hr; apply failed_run_split|].
  split; [done|]. split; [exact Hi|]. destruct Hu as (n & Hn & Hu). rewrite Hu.
  vm_compute in Hn. injection Hn as <-. vm_compute. reflexivity.
Defined.

Definition health_event : FailoverCheckEvent :=
  mkFailoverCheckEvent "" "health-check-failure" (GetPodName example_config 0) 0.

Lemma health_failure_check_only_reads_witness :
  ctl_targetMainIndex
    (performFailoverCheck example_config "memgraph-state" (Some health_event) sim_failed).2 = 0%Z.
Proof.
  refine (proj1 (proj2 (health_failure_check_only_reads example_config "memgraph-state" sim_failed
    health_event _ _ _ _ (surjective_pairing _)))); [discriminate|reflexivity].
Defined.

Definition sim_pods_set : gset string := {[GetPodName example_config 0; GetPodName example_config 1]}.

Lemma sim_failed_initialized : initialized sim_pods_set true sim_failed.
Proof.
  split; [eexists; split; [reflexivity|vm_compute; reflexivity]|].
  split; [by eexists|]. split; [reflexivity|]. repeat split; by eexists.
Qed.

Lemma reconcile_check_spec_witness :
  ∃ role healthy s1,
    getHealthyRole example_config (GetPodName example_config 0) sim_failed
      = (Ret (role, healthy), s1) ∧ effects reads sim_failed s1.
Proof.
  destruct (reconcile_check_spec example_config "memgraph-state" sim_pods_set true sim_failed)
    as (role & healthy & s1 & Hr & He & _); [discriminate|apply sim_failed_initialized|].
  exists role, healthy, s1. split; [exact Hr|exact He].
Defined.

Lemma failover_never_panics_witness :
  ∃ o s', performFailoverCheck example_config "memgraph-state" None sim_failed = (Ret o, s').
Proof.
  destruct (failover_never_panics example_config "memgraph-state" sim_pods_set true None sim_failed
    sim_failed_initialized) as (o & s' & Hr & _).
  exists o, s'. exact Hr.
Defined.

Lemma failover_event_gate_witness :
  (handleFailoverCheckEvent example_config "memgraph-state" health_event
     (set_leaderElection (mkLE "controller-0" "controller-1") sim_failed)).1 = Ret ().
Proof.
  destruct (failover_event_gate example_config "memgraph-state"
    (set_leaderElection (mkLE "controller-0" "controller-1") sim_failed) health_event
    newFailoverCheckQueue eq_refl) as [Hn _].
  rewrite Hn by reflexivity. reflexivity.
Defined.

(** The database of the main is down, its pod still counts as ready. *)
Lemma cached_main_not_probed_witness :
  ∃ s', performFailoverCheck example_config "memgraph-state" None sim_failed = (Ret None, s') ∧
    trace_of s' = [].
Proof.
  destruct (cached_main_not_probed example_config "memgraph-state" sim_failed (sim_pod 0) main_cached)
    as (s' & Hr & HT & _);
    [discriminate|vm_compute; reflexivity|reflexivity|discriminate|vm_compute; reflexivity|reflexivity|].
  exists s'. split; [exact Hr|exact HT].
Defined.
