(* ===== verification/Cluster.v ===== *)
(** * The cluster: [internal/controller/memgraph_cluster.go]

    Node discovery from the pod cache, and the discovery and initialisation of
    the replication roles on first start.  [MemgraphCluster] has no state of its
    own besides the node map, which is the controller's [ctl_cluster]. *)

From S2P Require Import Prelude.
From S2P Require Import GoStrings.
From S2P Require Import GoTime.
From S2P Require Import DataInfo.
From S2P Require Import Pods.
From S2P Require Import Config.
From S2P Require Import World.
From S2P Require Import ConnectionPool.
From S2P Require Import MemgraphClient.
From S2P Require Import MemgraphNode.
From S2P Require Import ControllerState.
From S2P Require Import Controller.
From S2P Require Import Sim.

Section Cluster.
Context {W : Type} `{World W}.
Context (config : Config).

Definition GetTargetMainPod (targetMainIndex : Z) : string :=
  if bool_decide (targetMainIndex < 0)%Z then "" else GetPodName config targetMainIndex.

(** The objects of the cache that are pods. *)
Definition getPodsFromCache : M (Ctl W) (list Pod) :=
  _ ← get_nodes;
  gets (λ s, omap id (w_store_list (net_world (ctl_net s)))).

(** [podMap[pod.Name] = pod] over the list: the last pod of a name stays. *)
Definition pod_map (pods : list Pod) : gmap string Pod :=
  foldl (λ m pod, <[pod_Name pod := pod]> m) ∅ pods.

(** One round of the first loop: a node without a pod is disconnected. *)
Definition disconnect_missing (podMap : gmap string Pod) (podName : string) : M (Ctl W) () :=
  match podMap !! podName with
  | Some _ => mret ()
  | None => _ ← on_node podName InvalidateConnection; mret ()
  end.

(** One round of the second loop: create the node of a pod, or refresh it. *)
Definition refreshed (pod : Pod) (n : option MemgraphNode) : MemgraphNode :=
  match n with None => NewMemgraphNode pod | Some n => node_Refresh pod n end.

Definition refresh_node (podMap : gmap string Pod) (podName : string) : M (Ctl W) () :=
  match podMap !! podName with
  | None => mret ()
  | Some pod =>
      _ ← get_nodes;
      modify (λ s,
        set_cluster ((λ nodes : gmap string MemgraphNode,
                        <[podName := refreshed pod (nodes !! podName)]> nodes) <$> ctl_cluster s)
          (add_trace IoRefresh s))
  end.

(** [Refresh]; its error is always nil. *)
Definition Refresh : M (Ctl W) () :=
  podList ← getPodsFromCache;
  let podMap := pod_map podList in
  nodes ← get_nodes;
  nodeKeys ← cnet (range_keys nodes);
  _ ← forM_ nodeKeys (disconnect_missing podMap);
  podKeys ← cnet (range_keys podMap);
  forM_ podKeys (refresh_node podMap).

Definition pod0 : string := GetPodName config 0.
Definition pod1 : string := GetPodName config 1.

(** [node.GetReplicationRole(ctx, true)] with the error of the two callers. *)
Definition role_of (podName : string) : M (Ctl W) (result string) :=
  r ← on_node podName (GetReplicationRole config true);
  match r with
  | (role, None) => mret (Ok role)
  | (_, Some err) =>
      mret (Err (Wrapf ("failed to get replication role for " +:+ podName) err))
  end.

(** [QueryStorageInfo] and the test of the counts: is the pod's storage empty? *)
Definition storage_empty (podName : string) : M (Ctl W) (result bool) :=
  check? on_node podName (QueryStorageInfo config) orelse err =>
    mret (Err (Wrapf ("failed to query storage info for " +:+ podName) err)) in
  si ← on_node podName (field mn_storageInfo);
  match si with
  | None => panic nil_deref
  | Some si => mret (Ok (bool_decide (si_EdgeCount si = 0)%Z && bool_decide (si_VertexCount si = 0)%Z))
  end.

Definition isNewCluster : M (Ctl W) (result bool) :=
  _ ← get_nodes;
  let? pod0Role := role_of pod0 orelse err => mret (Err err) in
  let? pod1Role := role_of pod1 orelse err => mret (Err err) in
  if bool_decide (pod0Role ≠ "main") || bool_decide (pod1Role ≠ "main") then mret (Ok false)
  else
    let? empty0 := storage_empty pod0 orelse err => mret (Err err) in
    if negb empty0 then mret (Ok false)
    else
      let? empty1 := storage_empty pod1 orelse err => mret (Err err) in
      if negb empty1 then mret (Ok false) else mret (Ok true).

(** The check of [SHOW REPLICAS] at the end of the initialisation: the first
    entry of that name in strict-sync mode must be ready and up to date. *)
Fixpoint verify_sync_replica (name : string) (replicas : list ReplicaInfo) : option error :=
  match replicas with
  | [] => Some (Errorf ("STRICT_SYNC replica " +:+ name +:+ " not found in SHOW REPLICAS output"))
  | replica :: replicas =>
      if bool_decide (ri_Name replica = name) && bool_decide (ri_SyncMode replica = "strict_sync") then
        match ri_ParsedDataInfo replica with
        | Some di =>
            if bool_decide (di_Status di = "ready") && bool_decide (di_Behind di = 0)%Z then None
            else Some (Errorf ("STRICT_SYNC replica " +:+ ri_Name replica +:+
                               " is not ready: data_info=" +:+ ri_DataInfo replica))
        | None => Some (Errorf ("STRICT_SYNC replica " +:+ ri_Name replica +:+
                                " is not ready: data_info=" +:+ ri_DataInfo replica))
        end
      else verify_sync_replica name replicas
  end.

Definition initializeCluster : M (Ctl W) (option error) :=
  pod0Node ← find_node pod0;
  pod1Node ← find_node pod1;
  match pod0Node, pod1Node with
  | Some _, Some _ =>
      check? on_node pod1 (SetToReplicaRole config) orelse err =>
        mret (Some (Wrapf "step 1 failed - demote pod-1 to replica" err)) in
      replicationAddress ←
        on_node pod1 (field (GetReplicationFQDN (StatefulSetName config) (Namespace config)));
      replicaName ← on_node pod1 (field node_GetReplicaName);
      check? on_node pod0 (RegisterReplica config replicaName replicationAddress "STRICT_SYNC")
        orelse err =>
        mret (Some (Wrapf "step 2 failed - register STRICT_SYNC replica" err)) in
      let? replicasResponse := on_node pod0 (GetReplicas config true) orelse err =>
        mret (Some (Wrapf "step 3 failed - query replicas" err)) in
      mret (verify_sync_replica replicaName replicasResponse)
  | _, _ => mret (Some (Errorf "pod-0 or pod-1 not found for initialization"))
  end.

(** Is the pod in the cache and ready?  An object that is not a pod panics at
    the type assertion. *)
Definition cached_ready (podName : string) : M (Ctl W) bool :=
  obj ← gets (λ s, w_store_get (pod_key config podName) (net_world (ctl_net s)));
  match obj with
  | Err _ | Ok None => mret false
  | Ok (Some None) => panic "interface conversion: interface {} is not *v1.Pod"
  | Ok (Some (Some pod)) => mret (isPodReady pod)
  end.

(** The steps after the refresh.  [Ok (-1)]: the cluster is not ready to be
    discovered. *)
Definition discover_roles : M (Ctl W) (result Z) :=
  ready0 ← cached_ready pod0;
  if negb ready0 then mret (Ok (-1)%Z)
  else
    ready1 ← cached_ready pod1;
    if negb ready1 then mret (Ok (-1)%Z)
    else
      let? isNew := isNewCluster orelse err =>
        mret (Err (Wrapf "failed to check if this is a new cluster" err)) in
      if isNew : bool then
        check? initializeCluster orelse err =>
          mret (Err (Wrapf "failed to initialize cluster" err)) in
        mret (Ok 0%Z)
      else
        let? pod0Role := role_of pod0 orelse err => mret (Err err) in
        let? pod1Role := role_of pod1 orelse err => mret (Err err) in
        if bool_decide (pod0Role = "main") && bool_decide (pod1Role = "replica") then mret (Ok 0%Z)
        else if bool_decide (pod0Role = "replica") && bool_decide (pod1Role = "main")
        then mret (Ok 1%Z)
        else mret (Err (Errorf
               "cluster is in an unknown state - manual intervention required")).

Definition discoverClusterState : M (Ctl W) (result Z) :=
  _ ← Refresh;
  discover_roles.

(** ** Effects *)

Definition silent (e : io) : Prop := False.
Definition refreshing (e : io) : Prop := e = IoRefresh.

Lemma keeps_getPodsFromCache P : keeps (effects P) getPodsFromCache.
Proof. unfold getPodsFromCache. solve_keeps. Qed.

Lemma keeps_disconnect_missing P m k : keeps (effects P) (disconnect_missing m k).
Proof.
  unfold disconnect_missing. destruct (m !! k); [apply keeps_ret, _|].
  apply keeps_bind; [typeclasses eauto| |intros; apply keeps_ret, _].
  intros s. unfold on_node. destruct (node_at s k) as [n|] eqn:Hn; [|reflexivity].
  unfold InvalidateConnection, cp_InvalidateConnection, mbind, M_bind, field, gets. simpl.
  destruct (GetBoltAddress n) as [b|e].
  - rewrite net_run. simpl. pose proof (keeps_removeDriver (λ _, False) b (ctl_net s)) as He.
    destruct (removeDriver b (ctl_net s)) as [o net']. simpl in *.
    apply effects_silent; [done| |by apply (ids_insert s k n n Hn)|by intros []|by left].
    destruct He as (evs & HT & HF). etrans; [exact HT|].
    destruct evs; [apply app_nil_r|by inversion HF].
  - apply effects_silent; [done|done|by apply (ids_insert s k n n Hn)|by intros []|by left].
Qed.

Lemma keeps_refresh_node (P : io → Prop) m k : P IoRefresh → keeps (effects P) (refresh_node m k).
Proof.
  intros HP. unfold refresh_node. destruct (m !! k); [|apply keeps_ret, _].
  apply keeps_bind; [typeclasses eauto|apply keeps_get_nodes|]. intros nodes.
  apply keeps_modify. intros s. apply (effects_one P IoRefresh); try done. by left.
Qed.

Lemma keeps_Refresh (P : io → Prop) : P IoRefresh → keeps (effects P) Refresh.
Proof.
  intros HP. unfold Refresh.
  pose proof (keeps_getPodsFromCache P). pose proof (keeps_disconnect_missing P).
  pose proof (λ m k, keeps_refresh_node P m k HP).
  pose proof (λ V (m : gmap string V), keeps_world (W := W) P (range_keys m) (keeps_range_keys _ m)).
  solve_keeps.
Qed.

(** ** The node map after a refresh *)

Lemma pod_map_acc pods (m : gmap string Pod) k p :
  (∀ k p, m !! k = Some p → pod_Name p = k) →
  foldl (λ m pod, <[pod_Name pod := pod]> m) m pods !! k = Some p → pod_Name p = k.
Proof.
  revert m. induction pods as [|q pods IH]; intros m Hm Hp; simpl in Hp; [by apply Hm|].
  eapply IH; [|exact Hp]. intros k' p' Hk.
  destruct (decide (k' = pod_Name q)) as [->|].
  - rewrite lookup_insert_eq in Hk. congruence.
  - rewrite lookup_insert_ne in Hk by done. auto.
Qed.

Lemma pod_map_name pods k p : pod_map pods !! k = Some p → pod_Name p = k.
Proof. apply pod_map_acc. intros ? ?. by rewrite lookup_empty. Qed.

Lemma InvalidateConnection_run (st : NodeNet W) :
  ∃ a net', InvalidateConnection st = (Ret a, (st.1, net')).
Proof.
  destruct (safe_InvalidateConnection st Logic.I) as (a & [n' net'] & Hr & _).
  exists a, net'. rewrite Hr. do 2 f_equal.
  unfold InvalidateConnection, mbind, M_bind, field, gets, mret, M_ret in Hr.
  destruct (GetBoltAddress st.1); [rewrite net_run in Hr|]; by simplify_eq/=.
Qed.

Lemma disconnect_run m keys s nodes :
  ctl_cluster s = Some nodes → (∀ k, k ∈ keys → k ∈ dom nodes) →
  ∃ s', forM_ keys (disconnect_missing m) s = (Ret (), s') ∧ ctl_cluster s' = Some nodes.
Proof.
  revert s. induction keys as [|k keys IH]; intros s Hn Hk; simpl; [by eauto|].
  assert (∃ s1, disconnect_missing m k s = (Ret (), s1) ∧ ctl_cluster s1 = Some nodes)
    as (s1 & Hr & Hn1).
  { unfold disconnect_missing. destruct (m !! k); [by exists s|].
    assert (is_Some (nodes !! k)) as [n Hnk] by (apply elem_of_dom, Hk; set_solver).
    destruct (InvalidateConnection_run (n, ctl_net s)) as (a & net' & Hinv).
    unfold mbind, M_bind, on_node, node_at. rewrite Hn. simpl. rewrite Hnk, Hinv. simpl.
    eexists. split; [done|]. simpl. f_equal. by apply insert_id. }
  rewrite (bind_ret_run _ _ _ _ _ Hr). apply IH; [done|set_solver].
Qed.

Lemma refresh_run m keys s nodes :
  NoDup keys → ctl_cluster s = Some nodes →
  ∃ s' nodes', forM_ keys (refresh_node m) s = (Ret (), s') ∧ ctl_cluster s' = Some nodes' ∧
    ∀ k, nodes' !! k =
      match m !! k with
      | Some pod => if decide (k ∈ keys) then Some (refreshed pod (nodes !! k)) else nodes !! k
      | None => nodes !! k
      end.
Proof.
  revert s nodes. induction keys as [|k keys IH]; intros s nodes Hnd Hn; cbn [forM_].
  { exists s, nodes. split; [done|]. split; [done|]. intros k.
    by destruct (m !! k). }
  apply NoDup_cons in Hnd as [Hk Hnd].
  assert (∃ s1, refresh_node m k s = (Ret (), s1) ∧ ctl_cluster s1 =
    Some (match m !! k with Some pod => <[k := refreshed pod (nodes !! k)]> nodes | None => nodes end))
    as (s1 & Hr & Hn1).
  { unfold refresh_node. destruct (m !! k); [|by exists s].
    unfold mbind, M_bind, get_nodes. rewrite Hn. eexists. split; [done|]. simpl. by rewrite Hn. }
  destruct (IH s1 _ Hnd Hn1) as (s' & nodes' & Hr' & Hn' & Hl).
  exists s', nodes'. rewrite (bind_ret_run _ _ _ _ _ Hr). split; [done|]. split; [done|].
  intros k'. rewrite Hl. destruct (m !! k') as [p'|] eqn:Hm'.
  - destruct (decide (k' = k)) as [->|Hne].
    + rewrite Hm', lookup_insert_eq. rewrite decide_False by done. by rewrite decide_True by set_solver.
    + assert (match m !! k with Some pod => <[k := refreshed pod (nodes !! k)]> nodes
              | None => nodes end !! k' = nodes !! k') as ->.
      { destruct (m !! k); [|done]. by rewrite lookup_insert_ne. }
      destruct (decide (k' ∈ keys)); [rewrite decide_True by set_solver|rewrite decide_False by set_solver];
        done.
  - destruct (m !! k) eqn:Hmk; [|done]. rewrite lookup_insert_ne; [done|]. congruence.
Qed.

Lemma map_keys_nodup {V} (m : gmap string V) : NoDup ((map_to_list m).*1).
Proof. apply NoDup_fst_map_to_list. Qed.

(** The node map after [Refresh], for every order of the two iterations. *)
Lemma Refresh_run `{!WorldOrder W} s nodes :
  ctl_cluster s = Some nodes →
  let podMap := pod_map (omap id (w_store_list (net_world (ctl_net s)))) in
  ∃ s' nodes', Refresh s = (Ret (), s') ∧ ctl_cluster s' = Some nodes' ∧
    (∀ k, nodes' !! k =
       match podMap !! k with
       | Some pod => Some (refreshed pod (nodes !! k))
       | None => nodes !! k
       end) ∧
    dom nodes' = dom nodes ∪ dom podMap.
Proof.
  intros Hn podMap. unfold Refresh, getPodsFromCache.
  assert (∀ V (m : gmap string V) t, ∃ keys t', cnet (range_keys m) t = (Ret keys, t') ∧
    keys ≡ₚ (map_to_list m).*1 ∧ ctl_cluster t' = ctl_cluster t) as Hkeys.
  { intros V m t. unfold cnet, zoom, range_keys, call.
    pose proof (w_order_perm ((map_to_list m).*1) (net_world (ctl_net t))) as Hp.
    destruct (w_order _ _) as [keys w]. by eexists _, _. }
  assert (get_nodes s = (Ret nodes, s)) as Hg by (unfold get_nodes; by rewrite Hn).
  rewrite (bind_ret_run _ _ s (omap id (w_store_list (net_world (ctl_net s)))) s)
    by (by rewrite (bind_ret_run _ _ _ _ _ Hg)).
  rewrite (bind_ret_run _ _ _ _ _ Hg). fold podMap.
  destruct (Hkeys _ nodes s) as (keys & s1 & Hr1 & Hp1 & Hc1).
  rewrite (bind_ret_run _ _ _ _ _ Hr1).
  destruct (disconnect_run podMap keys s1 nodes) as (s2 & Hr2 & Hn2); [congruence| |].
  { intros k. rewrite Hp1. intros ([k' v] & -> & Hin)%list_elem_of_fmap.
    apply elem_of_map_to_list in Hin. by eapply elem_of_dom_2. }
  rewrite (bind_ret_run _ _ _ _ _ Hr2).
  destruct (Hkeys _ podMap s2) as (pkeys & s3 & Hr3 & Hp3 & Hc3).
  rewrite (bind_ret_run _ _ _ _ _ Hr3).
  destruct (refresh_run podMap pkeys s3 nodes) as (s' & nodes' & Hr4 & Hn4 & Hl);
    [rewrite Hp3; apply map_keys_nodup|congruence|].
  assert (∀ k, k ∈ pkeys ↔ is_Some (podMap !! k)) as Hin.
  { intros k. rewrite Hp3, list_elem_of_fmap. split.
    - intros ([k' v] & -> & Hk). apply elem_of_map_to_list in Hk. eauto.
    - intros [v Hv]. exists (k, v). split; [done|]. by apply elem_of_map_to_list. }
  assert (∀ k, nodes' !! k = match podMap !! k with
    | Some pod => Some (refreshed pod (nodes !! k)) | None => nodes !! k end) as Hl'.
  { intros k. rewrite Hl. destruct (podMap !! k) eqn:Hk; [|done].
    rewrite decide_True; [done|]. apply Hin. eauto. }
  exists s', nodes'. split; [done|]. split; [done|]. split; [done|].
  apply set_eq. intros k. rewrite elem_of_union, !elem_of_dom, Hl'.
  destruct (podMap !! k); naive_solver.
Qed.

(** C37. Refresh returns, and brings every node whose pod is in the informer cache
    up to the pod's name and address, creating the missing ones, whatever order
    the runtime iterates the two maps in; a node whose pod is gone stays in the
    map as it was. *)
Theorem Refresh_spec `{!WorldOrder W} s nodes :
  ctl_cluster s = Some nodes →
  let podMap := pod_map (omap id (w_store_list (net_world (ctl_net s)))) in
  ∃ s' nodes', Refresh s = (Ret (), s') ∧ ctl_cluster s' = Some nodes' ∧
    (∀ k, nodes' !! k =
       match podMap !! k with
       | Some pod => Some (refreshed pod (nodes !! k))
       | None => nodes !! k
       end) ∧
    dom nodes' = dom nodes ∪ dom podMap.
Proof. apply Refresh_run. Qed.

(** An initialised controller stays initialised, with the nodes of the pods in
    the cache added. *)
Lemma Refresh_initialized `{!WorldOrder W} X rg s :
  initialized X rg s → ∃ X' s', Refresh s = (Ret (), s') ∧ initialized X' rg s' ∧ X ⊆ X'.
Proof.
  intros ((nodes & Hn & Hd) & Hg & Hrg & Hq & Hfq & Hp).
  destruct (Refresh_run s nodes Hn) as (s' & nodes' & Hr & Hn' & _ & Hd').
  pose proof (keeps_run _ _ _ _ _ (keeps_Refresh (λ e, e = IoRefresh) eq_refl) Hr) as He.
  pose proof (effects_others _ _ _ He) as Ho. unfold others in Ho.
  assert (∀ r, gateway_of r s' = gateway_of r s) as Hgw.
  { intros r. apply (effects_gateway _ _ _ r He). intros e -> []. }
  exists (dom nodes'), s'. split; [done|]. split; [|set_solver].
  split; [by exists nodes'|]. pose proof (Hgw false) as H1. pose proof (Hgw true) as H2.
  simpl in H1, H2. by simplify_eq; rewrite H1, H2; repeat split; congruence.
Qed.

(** ** Initialising a new cluster *)

(** A method of a node, seen from the controller: it runs on the node of that
    pod, which keeps its name and address; the other nodes are not touched. *)
Lemma on_node_step {A} k (m : M (NodeNet W) A) s a s' n :
  keeps (node_step (λ _, True)) m → node_at s k = Some n → on_node k m s = (Ret a, s') →
  ∃ n', m (n, ctl_net s) = (Ret a, (n', ctl_net s')) ∧ node_at s' k = Some n' ∧
    node_id n' = node_id n ∧ ∀ k', k' ≠ k → node_at s' k' = node_at s k'.
Proof.
  intros Hm Hn Hr. apply on_node_inv in Hr as (n0 & n' & net' & Hn0 & Hrun & Hn' & <- & Hk).
  rewrite Hn in Hn0. injection Hn0 as <-. exists n'. split; [done|]. split; [done|].
  split; [|done]. destruct (keeps_run _ _ _ _ _ Hm Hrun) as (Hname & Hip & _).
  simpl in *. unfold node_id. congruence.
Qed.

Definition init_queries (n0 n1 : MemgraphNode) : list io :=
  [IoQuery (bolt_of n1) q_demote;
   IoQuery (bolt_of n0) (q_register (node_GetReplicaName n1) "STRICT_SYNC"
     (GetReplicationFQDN (StatefulSetName config) (Namespace config) n1));
   IoQuery (bolt_of n0) q_show_role; IoQuery (bolt_of n0) q_show_replicas].

(** A replica listed as strict-sync, ready and not behind. *)
Definition sync_up_to_date (name : string) (rs : list ReplicaInfo) : Prop :=
  ∃ r di, r ∈ rs ∧ ri_Name r = name ∧ ri_SyncMode r = "strict_sync" ∧
    ri_ParsedDataInfo r = Some di ∧ di_Status di = "ready" ∧ di_Behind di = 0%Z.

Lemma verify_sync_replica_none name rs :
  verify_sync_replica name rs = None → sync_up_to_date name rs.
Proof.
  induction rs as [|r rs IH]; simpl; [done|].
  destruct (bool_decide (ri_Name r = name) && _) eqn:Hb.
  - apply andb_true_iff in Hb as [Hn Hs]. apply bool_decide_eq_true in Hn, Hs.
    destruct (ri_ParsedDataInfo r) as [di|] eqn:Hdi; [|done].
    destruct (_ && _) eqn:Hb; [|done]. intros _.
    apply andb_true_iff in Hb as [H1 H2]. apply bool_decide_eq_true in H1, H2.
    exists r, di. set_solver.
  - intros (r' & di & Hin & Hrest)%IH. exists r', di. set_solver.
Qed.

Lemma pods_differ : pod0 ≠ pod1.
Proof. by apply GetPodName_ne. Qed.

Lemma bolt_same n n' : node_id n' = node_id n → bolt_of n' = bolt_of n.
Proof. unfold node_id, bolt_of. congruence. Qed.

(** A method of a node that sends one query: sent to that node's address, or the
    method failed before. *)
Lemma on_node_sends {A} k (m : M (NodeNet W) A) (q : string) (ok : A → bool) s a s' n :
  keeps (node_step (λ _, True)) m →
  (∀ st b st', m st = (Ret b, st') →
     trace_of st' = trace_of st ++ [IoQuery (bolt_of st.1) q] ∨
     (trace_of st' = trace_of st ∧ ok b = false)) →
  node_at s k = Some n → on_node k m s = (Ret a, s') →
  ∃ n', node_at s' k = Some n' ∧ node_id n' = node_id n ∧
    (∀ k', k' ≠ k → node_at s' k' = node_at s k') ∧
    (trace_of s' = trace_of s ++ [IoQuery (bolt_of n) q] ∨ (trace_of s' = trace_of s ∧ ok a = false)).
Proof.
  intros Hm Hsend Hn Hr. apply (on_node_step _ _ _ _ _ n Hm Hn) in Hr as (n' & Hrun & Hn' & Hid & Hk).
  exists n'. repeat (split; [done|]). exact (Hsend _ _ _ Hrun).
Qed.

(** The last stage of the initialisation: the replicas are listed, and success
    means the sync replica is among them and up to date. *)
Lemma verify_stage name (f : error → error) s o s' n :
  node_at s pod0 = Some n →
  (let? replicasResponse := on_node pod0 (GetReplicas config true) orelse err =>
     mret (Some (f err)) in
   mret (verify_sync_replica name replicasResponse)) s = (Ret o, s') →
  ∃ k, trace_of s' = trace_of s ++ take k [IoQuery (bolt_of n) q_show_role; IoQuery (bolt_of n) q_show_replicas] ∧
    (o = None → k = 2 ∧ ∃ n', node_at s' pod0 = Some n' ∧ mn_memgraphRole n' = "main" ∧
       sync_up_to_date name (mn_replicasInfo n')).
Proof.
  intros Hn Hr. inv_bind Hr as rs s1 Hrs.
  apply (on_node_step _ _ _ _ _ n) in Hrs as (n' & Hrun & Hn' & _); [|by apply keeps_GetReplicas|done].
  pose proof Hrun as Hrs. apply GetReplicas_sends in Hrs as (k & HTk & Hok).
  exists k. destruct rs as [rs|e]; injection Hr as <- <-; [|done]. split; [done|].
  intros Hv. rewrite Hok by done. split; [done|].
  apply GetReplicas_ok in Hrun as [Hrole Hreps]. simpl in Hrole, Hreps.
  exists n'. split; [done|]. split; [done|]. rewrite Hreps. by apply verify_sync_replica_none.
Qed.

Lemma initializeCluster_run s o s' n0 n1 :
  node_at s pod0 = Some n0 → node_at s pod1 = Some n1 →
  initializeCluster s = (Ret o, s') →
  ∃ k, trace_of s' = trace_of s ++ take k (init_queries n0 n1) ∧
    (o = None → k = 4 ∧ ∃ n, node_at s' pod0 = Some n ∧ mn_memgraphRole n = "main" ∧
       sync_up_to_date (node_GetReplicaName n1) (mn_replicasInfo n)).
Proof.
  intros H0 H1 Hr. unfold initializeCluster in Hr.
  inv_bind Hr as a s1 Ha. apply find_node_inv in Ha as [-> ->]. rewrite H0 in Hr.
  inv_bind Hr as a s1 Ha. apply find_node_inv in Ha as [-> ->]. rewrite H1 in Hr.
  inv_bind Hr as e s1 Hd.
  apply (on_node_sends _ _ q_demote is_nil _ _ _ n1) in Hd as (n1' & Hn1' & Hid1 & Hk1 & Hrun);
    [|by apply keeps_SetToReplicaRole|by apply SetToReplicaRole_sends|done].
  destruct e as [e|].
  { injection Hr as <- <-. destruct Hrun as [HT|[HT _]]; [exists 1|exists 0]; split; try done.
    by rewrite app_nil_r. }
  destruct Hrun as [HT1|[_ ?]]; [|done].
  inv_bind Hr as fqdn s2 Hf. apply on_node_field_inv in Hf as (n1a & Hn1a & -> & Hk2 & Hnet2).
  rewrite Hn1' in Hn1a. injection Hn1a as <-.
  inv_bind Hr as rname s3 Hf. apply on_node_field_inv in Hf as (n1b & Hn1b & -> & Hk3 & Hnet3).
  rewrite Hk2, Hn1' in Hn1b. injection Hn1b as <-.
  assert (trace_of s3 = trace_of s1) as HT3 by (unfold trace_of, Ctl_trace; congruence).
  assert (node_at s3 pod0 = Some n0) as H03.
  { rewrite Hk3, Hk2, Hk1; [done|apply pods_differ]. }
  assert (node_GetReplicaName n1' = node_GetReplicaName n1 ∧
    GetReplicationFQDN (StatefulSetName config) (Namespace config) n1' =
    GetReplicationFQDN (StatefulSetName config) (Namespace config) n1) as [Hrn Hfq].
  { injection Hid1 as Hname _. unfold node_GetReplicaName, GetReplicationFQDN. by rewrite Hname. }
  rewrite Hrn, Hfq in Hr.
  inv_bind Hr as e s4 Hg.
  eapply (on_node_sends _ _ _ is_nil _ _ _ n0) in Hg as (n0' & Hn0' & Hid0 & _ & Hrun);
    [|by apply keeps_RegisterReplica|by apply RegisterReplica_sends|done].
  rewrite HT3, HT1 in Hrun.
  destruct e as [e|].
  { injection Hr as <- <-. destruct Hrun as [HT|[HT _]]; [exists 2|exists 1]; split; try done.
    by rewrite HT, <- app_assoc. }
  destruct Hrun as [HT4|[_ ?]]; [|done]. rewrite <- app_assoc in HT4.
  apply (verify_stage _ _ _ _ _ n0' Hn0') in Hr as (k & HTk & Hk).
  exists (2 + k). split; [|by intros [-> ?]%Hk].
  by rewrite HTk, HT4, (bolt_same n0 n0' Hid0), <- app_assoc.
Qed.


(** ** Discovery *)

Lemma role_of_ok p s role s' :
  role_of p s = (Ret (Ok role), s') →
  (∃ n, node_at s' p = Some n ∧ mn_memgraphRole n = role) ∧
  ∀ k, k ≠ p → node_at s' k = node_at s k.
Proof.
  unfold role_of. intros Hr. inv_bind Hr as r s1 H1. destruct r as [role' [e|]]; [done|].
  injection Hr as <- <-. apply on_node_inv in H1 as (n & n' & net' & _ & Hrun & Hn' & _ & Hk).
  apply GetReplicationRole_ok in Hrun as [Hrole _]. simpl in Hrole. split; [|done].
  exists n'. split; [done|]. by rewrite Hrole.
Qed.

(** A pod whose last answers were the role "main" and an empty storage. *)
Definition empty_main (s : Ctl W) (p : string) : Prop :=
  ∃ n si, node_at s p = Some n ∧ mn_memgraphRole n = "main" ∧ mn_storageInfo n = Some si ∧
    si_VertexCount si = 0%Z ∧ si_EdgeCount si = 0%Z.

Lemma storage_empty_ok p s s' n :
  node_at s p = Some n → mn_memgraphRole n = "main" →
  storage_empty p s = (Ret (Ok true), s') →
  empty_main s' p ∧ ∀ k, k ≠ p → node_at s' k = node_at s k.
Proof.
  intros Hn Hm Hr. unfold storage_empty in Hr. inv_bind Hr as e s1 H1. destruct e; [done|].
  apply on_node_inv in H1 as (n0 & n' & net' & Hn0 & Hrun & Hn' & _ & Hk).
  rewrite Hn in Hn0. injection Hn0 as <-. apply QueryStorageInfo_ok in Hrun as [si Hsi].
  inv_bind Hr as o s2 H2. apply on_node_field_inv in H2 as (n2 & Hn2 & -> & Hk2 & _).
  rewrite Hn' in Hn2. injection Hn2 as <-. simpl in Hsi. subst n'. simpl in Hr.
  injection Hr as Hb <-. apply andb_true_iff in Hb as [He Hv].
  apply bool_decide_eq_true in He, Hv. split.
  - eexists _, si. rewrite Hk2. by split.
  - intros k Hne. by rewrite Hk2, Hk.
Qed.

Lemma isNewCluster_true s s' :
  isNewCluster s = (Ret (Ok true), s') → empty_main s' pod0 ∧ empty_main s' pod1.
Proof.
  unfold isNewCluster. intros Hr. pose proof pods_differ as Hne.
  inv_bind Hr as nodes s0 Hn. apply get_nodes_inv in Hn as [-> _].
  inv_bind Hr as r0 s1 H0. destruct r0 as [r0|]; [|done]. apply role_of_ok in H0 as [(n0 & Hn0 & Hr0) _].
  inv_bind Hr as r1 s2 H1. destruct r1 as [r1|]; [|done].
  apply role_of_ok in H1 as [(n1 & Hn1 & Hr1) Hk2].
  destruct (_ || _) eqn:Hb; [done|]. apply orb_false_iff in Hb as [Hb0 Hb1].
  apply bool_decide_eq_false, dec_stable in Hb0, Hb1.
  inv_bind Hr as e0 s3 H3. destruct e0 as [[]|]; [|done..]. simpl in Hr.
  apply (storage_empty_ok _ _ _ n0) in H3 as [He0 Hk3]; [|by rewrite Hk2|congruence].
  inv_bind Hr as e1 s4 H4. destruct e1 as [[]|]; [|done..]. injection Hr as <-.
  apply (storage_empty_ok _ _ _ n1) in H4 as [He1 Hk4]; [|by rewrite Hk3|congruence].
  split; [|done]. destruct He0 as (n & si & Hn & Hrest). exists n, si. by rewrite Hk4.
Qed.

(** Discovery without initialisation only looks. *)
Definition looking (e : io) : Prop := reads e ∨ e = IoRefresh.

Lemma reads_looking : ∀ e, reads e → looking e.
Proof. by left. Qed.

Lemma keeps_role_of p : keeps (effects (W := W) looking) (role_of p).
Proof. pose proof reads_looking. unfold role_of. solve_keeps. Qed.

Lemma keeps_isNewCluster : keeps (effects (W := W) looking) isNewCluster.
Proof.
  pose proof reads_looking. pose proof keeps_role_of.
  assert (∀ p, keeps (effects (W := W) looking) (storage_empty p)).
  { intros p. unfold storage_empty. solve_keeps. }
  unfold isNewCluster. solve_keeps.
Qed.

Lemma keeps_cached_ready P p : keeps (effects P) (cached_ready p).
Proof. unfold cached_ready. solve_keeps. Qed.

Lemma keeps_discover_tail :
  keeps (effects (W := W) looking)
    (let? pod0Role := role_of pod0 orelse err => mret (Err err) in
     let? pod1Role := role_of pod1 orelse err => mret (Err err) in
     if bool_decide (pod0Role = "main") && bool_decide (pod1Role = "replica") then mret (Ok 0%Z)
     else if bool_decide (pod0Role = "replica") && bool_decide (pod1Role = "main")
     then mret (Ok 1%Z)
     else mret (Err (Errorf "cluster is in an unknown state - manual intervention required"))
     : M (Ctl W) (result Z)).
Proof. pose proof keeps_role_of. solve_keeps. Qed.


Lemma discover_answers s i s' :
  discoverClusterState s = (Ret (Ok i), s') →
  (i = -1 ∨ i = 0 ∨ i = 1)%Z ∧
  (i ≠ (-1)%Z → ∃ n, node_at s' (GetPodName config i) = Some n ∧ mn_memgraphRole n = "main").
Proof.
  unfold discoverClusterState, discover_roles. intros Hr. inv_bind Hr as u s1 H1.
  inv_bind Hr as r0 s2 H2. destruct r0; [|injection Hr as <- <-; split; [auto|by intros []]]. simpl in Hr.
  inv_bind Hr as r1 s3 H3. destruct r1; [|injection Hr as <- <-; split; [auto|by intros []]]. simpl in Hr.
  inv_bind Hr as isNew s4 H4. destruct isNew as [[]|]; [| |done].
  - inv_bind Hr as e s5 H5. destruct e; [done|]. injection Hr as <- <-. split; [auto|]. intros _.
    apply isNewCluster_true in H4 as [(n0 & ? & Hn0 & _) (n1 & ? & Hn1 & _)].
    apply (initializeCluster_run _ _ _ n0 n1) in H5 as (k & _ & Hok); [|done..].
    destruct (Hok eq_refl) as (_ & n & Hn & Hm & _). by exists n.
  - inv_bind Hr as p0 s5 H5. destruct p0 as [p0|]; [|done].
    apply role_of_ok in H5 as [(n0 & Hn0 & Hr0) _].
    inv_bind Hr as p1 s6 H6. destruct p1 as [p1|]; [|done].
    apply role_of_ok in H6 as [(n1 & Hn1 & Hr1) Hk].
    destruct (bool_decide (p0 = "main") && _) eqn:Hb.
    + injection Hr as <- <-. apply andb_true_iff in Hb as [Hb _]. apply bool_decide_eq_true in Hb.
      split; [auto|]. intros _. exists n0. split; [|congruence].
      change (GetPodName config 0) with pod0. by rewrite Hk by apply pods_differ.
    + destruct (bool_decide (p0 = "replica") && _) eqn:Hb2; [|done]. injection Hr as <- <-.
      apply andb_true_iff in Hb2 as [_ Hb2]. apply bool_decide_eq_true in Hb2.
      split; [auto|]. intros _. exists n1. split; [done|congruence].
Qed.

(** C22. Discovery's answer: it is -1 (not ready), 0 or 1, and when it names a
    pod, that pod's last answer was the role "main". *)
Theorem discover_finds_main s i s' :
  discoverClusterState s = (Ret (Ok i), s') →
  (i = -1 ∨ i = 0 ∨ i = 1)%Z ∧
  (i ≠ (-1)%Z → ∃ n, node_at s' (GetPodName config i) = Some n ∧ mn_memgraphRole n = "main").
Proof. apply discover_answers. Qed.

End Cluster.

(** [solve_keeps] for [initializeCluster]: the two nodes are looked up first. *)
Ltac keeps_initialize :=
  unfold initializeCluster;
  apply keeps_bind; [typeclasses eauto|solve_keeps|intros [?|]];
  (apply keeps_bind; [typeclasses eauto|solve_keeps|intros [?|]]); solve_keeps.

(** ** Witnesses: two fresh pods *)

Definition sim_fresh : Ctl Sim :=
  set_targetMainIndex (-1) (sim_ctl (sim_world (Some db_fresh) (Some db_fresh)) (-1) ∅ None).

Definition sim_known : Ctl Sim := (Refresh sim_fresh).2.

Lemma Refresh_spec_witness :
  ∃ s' nodes', Refresh sim_fresh = (Ret (), s') ∧ ctl_cluster s' = Some nodes' ∧
    dom nodes' = {[GetPodName example_config 0; GetPodName example_config 1]}.
Proof.
  destruct (Refresh_spec sim_fresh ∅ eq_refl) as (s' & nodes' & Hr & Hn & _ & Hd).
  exists s', nodes'. split; [exact Hr|]. split; [exact Hn|]. rewrite Hd.
  vm_compute. reflexivity.
Defined.



Lemma discover_finds_main_witness :
  ∃ n, node_at (discoverClusterState example_config sim_fresh).2 (GetPodName example_config 0)
         = Some n ∧ mn_memgraphRole n = "main".
Proof.
  destruct (discover_finds_main example_config sim_fresh 0
    (discoverClusterState example_config sim_fresh).2) as [_ Hm]; [vm_compute; reflexivity|].
  by apply Hm.
Defined.
