(* ===== verification/Health.v ===== *)
(** * Cluster health and the read/write gateway

    [isHealthy] and the preStop hook of [internal/controller/controller_core.go]
    and [reconcileGateway] of [internal/controller/controller_reconcile.go]. *)

From S2P Require Import Prelude.
From S2P Require Import GoStrings.
From S2P Require Import GoTime.
From S2P Require Import DataInfo.
From S2P Require Import Pods.
From S2P Require Import Config.
From S2P Require Import World.
From S2P Require Import MemgraphClient.
From S2P Require Import MemgraphNode.
From S2P Require Import GatewayServer.
From S2P Require Import ControllerState.
From S2P Require Import Controller.
From S2P Require Import Sim.

(** ** The assessment of a replica list *)

(** A replica that can recover by itself: its status is known and is neither
    "diverged" nor "malformed". *)
Definition healable (replica : ReplicaInfo) : bool :=
  match ri_ParsedDataInfo replica with
  | Some di => negb (bool_decide (di_Status di = "diverged") || bool_decide (di_Status di = "malformed"))
  | None => false
  end.

(** An async replica that is still replicating but has the timestamp of a
    healthy strict-sync replica. *)
Definition caught_up (healthyReplicas : list ReplicaInfo) (replica : ReplicaInfo) : bool :=
  match ri_ParsedDataInfo replica with
  | None => false
  | Some di =>
      bool_decide (ri_SyncMode replica = "async") && bool_decide (di_Status di = "replicating") &&
      bool_decide (0 ≤ di_Behind di)%Z &&
      existsb (λ other,
        bool_decide (ri_SyncMode other = "strict_sync") && ri_IsHealthy other &&
        match ri_ParsedDataInfo other with
        | Some odi => bool_decide (di_Timestamp odi = di_Timestamp di)
        | None => false
        end) healthyReplicas
  end.

Definition unhealthy_error (replica : ReplicaInfo) : error :=
  match ri_ParsedDataInfo replica with
  | Some di => Errorf ("replica " +:+ ri_Name replica +:+ " is not healthy (status: " +:+
                       di_Status di +:+ ", behind: " +:+ fmt_d (di_Behind di) +:+ ", ts: " +:+
                       fmt_d (di_Timestamp di) +:+ ")")
  | None => Errorf ("replica " +:+ ri_Name replica +:+ " is not healthy")
  end.

(** The loop over the healable replicas: the first one that is unhealthy and
    has not caught up is the error. *)
Fixpoint check_health (healthyReplicas rs : list ReplicaInfo) : option error :=
  match rs with
  | [] => None
  | replica :: rs =>
      if ri_IsHealthy replica then check_health healthyReplicas rs
      else if caught_up healthyReplicas replica then check_health healthyReplicas rs
      else Some (unhealthy_error replica)
  end.

Definition assess (replicas : list ReplicaInfo) : option error :=
  let healthyReplicas := filter (λ r, healable r = true) replicas in
  check_health healthyReplicas healthyReplicas.

Section Health.
Context {W : Type} `{World W}.
Context (config : Config) (configMapName : string).

#[local] Abbreviation getTargetMainNode := (getTargetMainNode config configMapName).

Definition isHealthy : M (Ctl W) (option error) :=
  let? targetMainPod := getTargetMainNode orelse err =>
    mret (Some (Wrapf "failed to get target main pod" err)) in
  let? replicas := on_node targetMainPod (GetReplicas config false) orelse err =>
    mret (Some (Wrapf "failed to get replicas" err)) in
  mret (assess replicas).

(** [logDetailedClusterStatus]: its queries are the only thing it does. *)
Definition logDetailedClusterStatus : M (Ctl W) () :=
  let? targetMainPod := getTargetMainNode orelse _err => mret () in
  _ ← on_node targetMainPod (GetReplicas config false);
  mret ().

(** [HandlePreStopHook]: [ticks] ticks of the two-second ticker fire before the
    context ends with [ctxErr]. *)
Fixpoint prestop_loop (ticks : nat) (ctxErr : error) : M (Ctl W) (option error) :=
  match ticks with
  | O =>
      _ ← logDetailedClusterStatus;
      mret (Some ctxErr)
  | S ticks =>
      err ← isHealthy;
      match err with
      | None => mret None
      | Some _ =>
          _ ← logDetailedClusterStatus;
          prestop_loop ticks ctxErr
      end
  end.

Definition HandlePreStopHook (ticks : nat) (ctxErr : error) : M (Ctl W) (option error) :=
  nogw ← gw_nil false;
  _ ← (if nogw : bool then mret () else gw_SetUpstreamAddress false "");
  prestop_loop ticks ctxErr.

Definition reconcileGateway : M (Ctl W) (option error) :=
  nogw ← gw_nil false;
  if nogw : bool then mret (Some (Errorf "gateway server is not set"))
  else
    let? targetMainNode := getTargetMainNode orelse err =>
      mret (Some (Wrapf "failed to get target main node" err)) in
    name ← GetName targetMainNode;
    let? pod := getPodFromCache config name orelse err =>
      mret (Some (Wrapf "failed to get target main pod" err)) in
    if negb (isPodReady pod) then mret (Some (Errorf "target main pod is not ready"))
    else if negb (is_nil (pod_DeletionTimestamp pod)) then
      mret (Some (Errorf "target main pod is being deleted"))
    else
      let? boltAddress := on_node targetMainNode (field GetBoltAddress) orelse err =>
        mret (Some (Wrapf "failed to get bolt address for target main node" err)) in
      check? isHealthy orelse _err => mret (Some (Errorf "cluster is not healthy")) in
      _ ← gw_SetUpstreamAddress false boltAddress;
      mret None.

(** ** Lemmas *)

Lemma keeps_isHealthy (P : io → Prop) :
  (∀ e, reads e → P e) → keeps (effects (W := W) P) isHealthy.
Proof. intros HP. unfold isHealthy. solve_keeps. Qed.

Lemma keeps_logDetailed (P : io → Prop) :
  (∀ e, reads e → P e) → keeps (effects (W := W) P) logDetailedClusterStatus.
Proof. intros HP. unfold logDetailedClusterStatus. solve_keeps. Qed.

Lemma keeps_prestop_loop (P : io → Prop) ticks e :
  (∀ e, reads e → P e) → keeps (effects (W := W) P) (prestop_loop ticks e).
Proof.
  intros HP. pose proof (keeps_isHealthy P HP). pose proof (keeps_logDetailed P HP).
  induction ticks; simpl; solve_keeps.
Qed.

Lemma keeps_reconcileGateway (P : io → Prop) :
  (∀ e, reads e → P e) → (∀ a, P (IoGateway false a)) →
  keeps (effects (W := W) P) reconcileGateway.
Proof.
  intros HP HG. pose proof (keeps_isHealthy P HP).
  pose proof (λ a, keeps_gw_SetUpstreamAddress (W := W) P false a (HG a)).
  unfold reconcileGateway. solve_keeps.
Qed.

Section initialized.
Context (X : gset string) (rg : bool).
#[local] Abbreviation I := (initialized (W := W) X rg).

Lemma safe_isHealthy : safe I isHealthy anything.
Proof. unfold isHealthy. solve_safe; by eauto with safe. Qed.

Lemma safe_reconcileGateway : safe I reconcileGateway anything.
Proof.
  unfold reconcileGateway. pose proof safe_isHealthy.
  pose proof (λ a, safe_gw_SetUpstreamAddress (W := W) X rg false a ltac:(done)).
  assert (safe I (gw_nil false) anything) by apply safe_gets. solve_safe.
Qed.
End initialized.

(** ** Properties *)

Lemma check_health_none all rs :
  check_health all rs = None ↔
  ∀ r, r ∈ rs → ri_IsHealthy r = true ∨ caught_up all r = true.
Proof.
  rewrite <- Forall_forall. induction rs as [|r rs IH]; simpl; [done|].
  rewrite Forall_cons, <- IH.
  destruct (ri_IsHealthy r); [tauto|]. destruct (caught_up all r); [tauto|]. naive_solver.
Qed.

(** An async replica that has caught up with a healthy strict-sync replica. *)
Definition in_step (rs : list ReplicaInfo) (r : ReplicaInfo) : Prop :=
  ∃ di other odi, ri_ParsedDataInfo r = Some di ∧ ri_SyncMode r = "async" ∧
    di_Status di = "replicating" ∧ (0 ≤ di_Behind di)%Z ∧
    other ∈ rs ∧ ri_SyncMode other = "strict_sync" ∧ ri_IsHealthy other = true ∧
    ri_ParsedDataInfo other = Some odi ∧ di_Timestamp odi = di_Timestamp di.

Lemma caught_up_spec rs r : caught_up rs r = true ↔ in_step rs r.
Proof.
  unfold caught_up, in_step. destruct (ri_ParsedDataInfo r) as [di|]; [|naive_solver].
  rewrite !andb_true_iff, !bool_decide_eq_true, existsb_exists. split.
  - intros (((Hm & Hs) & Hb) & other & Hin & Ho). apply list_elem_of_In in Hin.
    rewrite !andb_true_iff, bool_decide_eq_true in Ho. destruct Ho as [[Hos Hoh] Hts].
    destruct (ri_ParsedDataInfo other) as [odi|] eqn:Hodi; [|done].
    apply bool_decide_eq_true in Hts. exists di, other, odi. auto 10.
  - intros (di' & other & odi & [= <-] & Hm & Hs & Hb & Hin & Hos & Hoh & Hodi & Hts).
    split; [done|]. exists other. split; [by apply list_elem_of_In|].
    rewrite Hodi, Hoh, !bool_decide_eq_true_2 by done. done.
Qed.

(** C34. The health verdict: the cluster is reported healthy exactly when every
    replica that can still recover is either healthy, or an async replica that
    is replicating, not behind, with the timestamp of a healthy strict-sync
    replica.  In particular a replica that diverged never blocks. *)
Theorem assess_spec (rs : list ReplicaInfo) :
  assess rs = None ↔
  ∀ r, r ∈ rs → healable r = true →
    ri_IsHealthy r = true ∨ in_step (filter (λ r, healable r = true) rs) r.
Proof.
  unfold assess. rewrite check_health_none. setoid_rewrite caught_up_spec.
  setoid_rewrite list_elem_of_filter. naive_solver.
Qed.

(** The loop, with the gateway closed before it. *)
Lemma prestop_loop_run (ticks : nat) (ctxErr : error) s o s' :
  ctl_targetMainIndex s ≠ (-1)%Z → upstream false s = Some "" →
  prestop_loop ticks ctxErr s = (Ret o, s') →
  upstream false s' = Some "" ∧ ctl_targetMainIndex s' = ctl_targetMainIndex s ∧
  match o with
  | None => ∃ s1, isHealthy s1 = (Ret None, s') ∧ upstream false s1 = Some "" ∧ effects reads s s1
  | Some err => err = ctxErr
  end.
Proof.
  revert s. induction ticks as [|ticks IH]; intros s Hi Hu Hr; simpl in Hr.
  - inv_bind Hr as u s2 H2. injection Hr as <- <-.
    pose proof (keeps_run _ _ _ _ _ (keeps_logDetailed reads ltac:(auto)) H2) as He.
    destruct (reads_only_effects _ _ He Hi) as (? & _ & Hg). unfold upstream in *. by rewrite Hg.
  - inv_bind Hr as e s2 H2.
    pose proof (keeps_run _ _ _ _ _ (keeps_isHealthy reads ltac:(auto)) H2) as He.
    destruct (reads_only_effects _ _ He Hi) as (Hi2 & _ & Hg).
    assert (upstream false s2 = Some "") as Hu2 by (unfold upstream in *; by rewrite Hg).
    destruct e as [e|].
    2:{ injection Hr as <- <-. split; [done|]. split; [done|]. by exists s. }
    inv_bind Hr as u s3 H3.
    pose proof (keeps_run _ _ _ _ _ (keeps_logDetailed reads ltac:(auto)) H3) as He3.
    destruct (reads_only_effects _ _ He3) as (Hi3 & _ & Hg3); [congruence|].
    destruct (IH s3) as (Hu' & Hi' & Ho); [congruence|unfold upstream in *; by rewrite Hg3|done|].
    split; [done|]. split; [congruence|]. destruct o as [err|]; [done|].
    destruct Ho as (s1 & ? & ? & ?). exists s1. split; [done|]. split; [done|].
    by do 2 (etrans; [eassumption|]).
Qed.


(** C32. Reopening the read/write gateway: it is pointed at the target main's
    address only if that pod is ready, is not being deleted and the cluster was
    found healthy; on any error the gateways are as before. *)
Theorem reconcileGateway_spec s o s' :
  ctl_targetMainIndex s ≠ (-1)%Z → is_Some (ctl_gatewayServer s) →
  reconcileGateway s = (Ret o, s') →
  match o with
  | Some _ => ∀ r, gateway_of r s' = gateway_of r s
  | None =>
      ∃ n pod, node_at s (GetPodName config (ctl_targetMainIndex s)) = Some n ∧
        mn_ipAddress n ≠ "" ∧ upstream false s' = Some (bolt_of n) ∧
        w_store_get (pod_key config (mn_name n)) (net_world (ctl_net s)) = Ok (Some (Some pod)) ∧
        isPodReady pod = true ∧ pod_DeletionTimestamp pod = None ∧
        ∃ s1, isHealthy s = (Ret None, s1) ∧ trace_of s' = trace_of s1 ++ [IoGateway false (bolt_of n)]
  end.
Proof.
  intros Hi [g Hg] Hr. unfold reconcileGateway in Hr.
  inv_bind Hr as b s0 Hb. injection Hb as <- <-.
  change (gateway_of false s) with (ctl_gatewayServer s) in Hr. rewrite Hg in Hr. simpl in Hr.
  inv_bind Hr as tmn s1 H1. pose proof (getTargetMainNode_state _ _ _ _ _ Hi H1) as ->.
  destruct tmn as [tmn|]; [|by injection Hr as <- <-].
  apply getTargetMainNode_ok in H1 as (_ & -> & _); [|done].
  inv_bind Hr as name s1 H1. apply on_node_field_run in H1 as (-> & n & Hn & ->).
  inv_bind Hr as pod s1 H1. apply getPodFromCache_inv in H1 as [-> Hpod].
  destruct pod as [pod|]; [|by injection Hr as <- <-].
  destruct (isPodReady pod) eqn:Hready; [|by injection Hr as <- <-]. simpl in Hr.
  destruct (pod_DeletionTimestamp pod) eqn:Hdel; simpl in Hr; [by injection Hr as <- <-|].
  inv_bind Hr as ba s1 H1. apply on_node_field_run in H1 as (-> & n' & Hn' & ->).
  rewrite Hn in Hn'. injection Hn' as <-. unfold GetBoltAddress in Hr.
  case_bool_decide as Hip; [by injection Hr as <- <-|].
  inv_bind Hr as e s1 H1.
  pose proof (keeps_run _ _ _ _ _ (keeps_isHealthy reads ltac:(auto)) H1) as He.
  destruct (reads_only_effects _ _ He Hi) as (_ & _ & Hg1).
  destruct e as [e|]; [by injection Hr as <- <-|].
  inv_bind Hr as u s2 H2. injection Hr as <- <-. exists n, pod.
  split; [done|]. split; [done|]. unfold gw_SetUpstreamAddress in H2. rewrite Hg1 in H2. simpl in H2. rewrite Hg in H2.
  injection H2 as _ <-. split; [unfold upstream; simpl; by rewrite SetUpstreamAddress_upstream|].
  split; [by apply Hpod|]. split; [done|]. split; [done|]. by exists s1.
Qed.

End Health.

(** ** Witnesses *)

Definition sim_healthy : Ctl Sim :=
  sim_ctl (sim_world (Some db_main) (Some db_replica)) 0 sim_nodes None.

Definition lagging : ReplicaInfo :=
  replica_of (mkDataInfo 0 "replicating" 3 false "Replication in progress (transitional state)").

Lemma assess_spec_witness :
  assess [replica_of (parseDataInfoMap healthy_map)] = None ∧ assess [lagging] ≠ None.
Proof.
  split.
  - apply assess_spec. intros r ->%list_elem_of_singleton _. by left.
  - intros Hn. destruct (proj1 (assess_spec [lagging]) Hn lagging) as [Hx|Hx];
      [set_solver|reflexivity|discriminate Hx|].
    apply caught_up_spec in Hx. discriminate Hx.
Defined.


Lemma reconcileGateway_spec_witness :
  ∃ n, upstream false (reconcileGateway example_config "cm" sim_healthy).2 = Some (bolt_of n).
Proof.
  destruct (reconcileGateway_spec example_config "cm" sim_healthy None
    (reconcileGateway example_config "cm" sim_healthy).2) as (n & pod & _ & _ & Hu & _);
    [discriminate|by eexists|vm_compute; reflexivity|].
  exists n. exact Hu.
Defined.
