(* ===== verification/Reconcile.v ===== *)
(** * Reconciliation: [internal/controller/controller_reconcile.go] and
    [internal/controller/queue_reconcile.go]

    [performReconciliationActions] in the pieces its loops make: the check of
    one replica pod, the registration of one replica, the deferred metrics, and
    the tick of the control loop.  [operationMu] makes it one step. *)

From S2P Require Import Prelude.
From S2P Require Import GoStrings.
From S2P Require Import GoTime.
From S2P Require Import DataInfo.
From S2P Require Import Pods.
From S2P Require Import Config.
From S2P Require Import World.
From S2P Require Import MemgraphClient.
From S2P Require Import MemgraphNode.
From S2P Require Import GatewayServer.
From S2P Require Import Metrics.
From S2P Require Import Queues.
From S2P Require Import LeaderElection.
From S2P Require Import ProberState.
From S2P Require Import ControllerState.
From S2P Require Import Controller.
From S2P Require Import Sim.
From S2P Require Import Failover.
From S2P Require Import Cluster.
From S2P Require Import Health.

Section Reconcile.
Context {W : Type} `{World W}.
Context (config : Config) (configMapName : string).

#[local] Abbreviation GetTargetMainIndex := (GetTargetMainIndex config configMapName).
#[local] Abbreviation getTargetMainNode := (getTargetMainNode config configMapName).
#[local] Abbreviation getTargetSyncReplicaNode := (getTargetSyncReplicaNode config configMapName).
#[local] Abbreviation updateReadGatewayUpstream := (updateReadGatewayUpstream config configMapName).

(** [replicaMap[replica.Name] = replica]: the last entry of a name stays. *)
Definition replica_map (replicas : list ReplicaInfo) : gmap string ReplicaInfo :=
  foldl (λ m r, <[ri_Name r := r]> m) ∅ replicas.

(** The logging loop reads [ParsedDataInfo] of every unhealthy replica. *)
Definition log_replica (replicaMap : gmap string ReplicaInfo) (replicaName : string)
    : M (Ctl W) () :=
  match replicaMap !! replicaName with
  | None => mret ()
  | Some replicaInfo =>
      if ri_IsHealthy replicaInfo then mret ()
      else match ri_ParsedDataInfo replicaInfo with
           | Some _ => mret ()
           | None => panic nil_deref
           end
  end.

(** Check 1 of the registration: another node whose known role is "main". *)
Definition collect_main (targetMain : string) (nonTargetMains : list string)
    (checkPodName : string) : M (Ctl W) (list string) :=
  if bool_decide (checkPodName = targetMain) then mret nonTargetMains
  else
    r ← on_node checkPodName (GetReplicationRole config false);
    match r with
    | (_, Some _) => mret nonTargetMains
    | (checkRole, None) =>
        if bool_decide (checkRole = "main") then mret (nonTargetMains ++ [checkPodName])
        else mret nonTargetMains
    end.

(** Memgraph's "Error: 3": the replica has diverged. *)
Definition diverged_error (err : error) : bool :=
  match errors_as_neo4j err with
  | Some (code, msg) =>
      bool_decide (code = "Memgraph.ClientError.MemgraphError.MemgraphError") &&
      contains msg "Error: 3"
  | None => false
  end.

(** The end of a round: register the missing replica, or give up on it. *)
Definition register_replica (targetMainNode podName replicaName : string) : M (Ctl W) () :=
  let? syncReplicaNode := getTargetSyncReplicaNode orelse _err => mret () in
  name ← GetName podName;
  syncName ← GetName syncReplicaNode;
  let syncMode := if bool_decide (name = syncName) then "STRICT_SYNC" else "ASYNC" in
  replicationAddress ←
    on_node podName (field (GetReplicationFQDN (StatefulSetName config) (Namespace config)));
  mainName ← GetName targetMainNode;
  nodes ← get_nodes;
  keys ← cnet (range_keys nodes);
  nonTargetMains ← foldM (collect_main mainName) keys [];
  k8sPods ← getPodsFromCache;
  nodes ← get_nodes;
  if bool_decide (0 < length nonTargetMains) then mret ()
  else if bool_decide (length k8sPods ≠ size nodes) then mret ()
  else
    err ← on_node targetMainNode (RegisterReplica config replicaName replicationAddress syncMode);
    match err with
    | None => mret ()
    | Some err =>
        if diverged_error err then mret ()
        else _ ← on_node targetMainNode (DropReplica config replicaName); mret ()
    end.

(** One round of the loop over the nodes; the result is [isAllPodsReady]. *)
Definition reconcile_replica (targetMainNode mainName : string)
    (replicaMap : gmap string ReplicaInfo) (isAllPodsReady : bool) (podName : string)
    : M (Ctl W) bool :=
  if bool_decide (podName = mainName) then mret isAllPodsReady
  else
    let? pod := getPodFromCache config podName orelse _err => mret false in
    if negb (isPodReady pod) && negb (isPodTerminating (Some pod)) then mret false
    else
      r ← on_node podName (GetReplicationRole config true);
      match r with
      | (_, Some _) => mret isAllPodsReady
      | (role, None) =>
          demoted ← (if bool_decide (role ≠ "replica") then
                       err ← on_node podName (SetToReplicaRole config); mret (is_nil err)
                     else mret true);
          if negb demoted then mret isAllPodsReady
          else
            replicaName ← on_node podName (field node_GetReplicaName);
            match replicaMap !! replicaName with
            | Some _ => mret isAllPodsReady
            | None =>
                if isPodTerminating (Some pod) then mret isAllPodsReady
                else
                  _ ← register_replica targetMainNode podName replicaName;
                  mret isAllPodsReady
            end
      end.

Definition record_error : M (Ctl W) () := prom (RecordError "reconciliation").

(** The steps from the target main on: its read gateway, its replicas, and the
    gateway once all pods are ready.  Returns the error and [reconcileErr]. *)
Definition reconcile_replicas (targetMainNode : string) (reconcileErr : option error)
    : M (Ctl W) (option error * option error) :=
  _ ← updateReadGatewayUpstream;
  let? replicas := on_node targetMainNode (GetReplicas config true) orelse _err =>
    mret (None, reconcileErr) in
  let replicaMap := replica_map replicas in
  replicaKeys ← cnet (range_keys replicaMap);
  _ ← forM_ replicaKeys (log_replica replicaMap);
  mainName ← GetName targetMainNode;
  let? targetMainPod := getPodFromCache config mainName orelse err =>
    mret (Some err, reconcileErr) in
  nodes ← get_nodes;
  keys ← cnet (range_keys nodes);
  isAllPodsReady ← foldM (reconcile_replica targetMainNode mainName replicaMap) keys
                     (isPodReady targetMainPod);
  if isAllPodsReady : bool then
    err ← reconcileGateway config configMapName;
    mret (err, reconcileErr)
  else mret (None, reconcileErr).

(** The part under [operationMu]: the returned error, and [reconcileErr] for the
    deferred metrics. *)
Definition reconcile_locked : M (Ctl W) (option error * option error) :=
  let? targetMainIndex := GetTargetMainIndex orelse err =>
    (_ ← record_error; mret (None, Some err)) in
  if bool_decide (targetMainIndex = -1)%Z then mret (None, None)
  else
    _ ← Refresh;
    failed ← performFailoverCheck config configMapName None;
    reconcileErr ← (match failed with
                    | Some err => _ ← record_error; mret (Some err)
                    | None => mret None
                    end);
    let? targetMainNode := getTargetMainNode orelse err =>
      (_ ← record_error; mret (None, Some err)) in
    reconcile_replicas targetMainNode reconcileErr.

(** The deferred function: both kinds of metrics. *)
Definition record_metrics (start : Z) (reconcileErr : option error) : M (Ctl W) () :=
  now ← cnet (call w_now);
  let duration := time_sub now start in
  _ ← prom (RecordReconciliation (is_nil reconcileErr) (Seconds duration));
  lastTime ← cnet (call w_now);
  modify (λ s, set_metrics (record_reconcile reconcileErr duration lastTime <$> ctl_metrics s) s).

Definition performReconciliationActions : M (Ctl W) (option error) :=
  start ← cnet (call w_now);
  r ← reconcile_locked;
  _ ← record_metrics start r.2;
  mret r.1.

Definition GetReconciliationMetrics : M (Ctl W) ReconciliationMetrics :=
  gets (λ s, default empty_metrics (ctl_metrics s)).

(** ** The control loop *)

Inductive tick_result :=
  | TickContinue
  | TickReturn (err : error).  (* [Run] returns *)

(** One tick of [Run]. *)
Definition Run_tick : M (Ctl W) tick_result :=
  leader ← IsLeader;
  if negb leader then mret TickContinue
  else
    let reconcile := _ ← performReconciliationActions; mret TickContinue in
    index ← GetTargetMainIndex;
    match index with
    | Ok _ => reconcile
    | Err _ =>
        let? targetMainIndex := discoverClusterState config orelse err =>
          mret (TickReturn (Wrapf "failed to discover cluster state" err)) in
        if bool_decide (targetMainIndex = -1)%Z then mret TickContinue
        else
          check? SetTargetMainIndex config configMapName targetMainIndex orelse err =>
            mret (TickReturn (Wrapf "failed to set target main index in ConfigMap" err)) in
          reconcile
    end.

(** ** The reconcile queue *)

Definition enqueueReconcileEvent (eventType reason podName : string) : M (Ctl W) () :=
  now ← cnet (call w_now);
  let event := mkReconcileEvent eventType reason podName now in
  rq ← gets ctl_reconcileQueue;
  match rq with
  | None => panic nil_deref
  | Some rq => modify (set_reconcileQueue (Some (q_send event rq)))
  end.

Definition reconcile_key (event : ReconcileEvent) : string :=
  re_Type event +:+ ":" +:+ re_PodName event.

Definition handleReconcileEvent (event : ReconcileEvent) : M (Ctl W) () :=
  leader ← IsLeader;
  if negb leader then mret ()
  else
    rq ← gets ctl_reconcileQueue;
    match rq with
    | None => panic nil_deref
    | Some rq =>
        now ← cnet (call w_now);
        let '(admitted, rq) := q_admit now (reconcile_key event) (re_Timestamp event) rq in
        if negb admitted then mret ()
        else
          _ ← modify (set_reconcileQueue (Some rq));
          _ ← performReconciliationActions;
          mret ()
    end.

Definition processReconcileQueue_step : M (Ctl W) () :=
  rq ← gets ctl_reconcileQueue;
  match rq with
  | None => panic nil_deref
  | Some rq =>
      match q_receive rq with
      | None => mret ()
      | Some (event, rq) =>
          _ ← modify (set_reconcileQueue (Some rq));
          handleReconcileEvent event
      end
  end.

Definition stopReconcileQueue : M (Ctl W) () :=
  modify (λ s, set_reconcileQueue (q_cancel <$> ctl_reconcileQueue s) s).

(** ** What the loop over the nodes may send *)

Definition registration (q : string) : Prop :=
  (∃ name mode addr, (mode = "STRICT_SYNC" ∨ mode = "ASYNC") ∧ q = q_register name mode addr) ∨
  ∃ name, q = q_drop name.

(** Read queries; demotions of nodes other than the target main [t];
    registrations and drops of replicas on [t]. *)
Definition replica_event (X : option (gmap string (string * string))) (t : string) (e : io) : Prop :=
  reads e ∨
  (∃ k a, k ≠ t ∧ address_in X k a ∧ e = IoQuery a q_demote) ∨
  (∃ a q, address_in X t a ∧ e = IoQuery a q ∧ registration q).

Lemma replica_event_query X t e : replica_event X t e → ∃ a q, e = IoQuery a q.
Proof. intros [(a & q & -> & _)|[(k & a & _ & _ & ->)|(a & q & _ & -> & _)]]; eauto. Qed.

Section loop.
Context (X : option (gmap string (string * string))) (t : string).
#[local] Abbreviation P := (replica_event X t).

Lemma loop_no_refresh e : P e → ¬ is_refresh e.
Proof. intros (a & q & ->)%replica_event_query. discriminate. Qed.

Lemma loop_reads e : reads e → P e.
Proof. by left. Qed.

Lemma within_reads {A} (m : M (Ctl W) A) : keeps (effects P) m → keeps (within X P) m.
Proof. apply keeps_within, loop_no_refresh. Qed.

Lemma within_role k b : keeps (within X P) (on_node k (GetReplicationRole config b)).
Proof. apply within_reads, keeps_node_role, loop_reads. Qed.

Lemma within_field {A} k (f : MemgraphNode → A) : keeps (within (W := W) X P) (on_node k (field f)).
Proof. apply within_reads, keeps_node_field, loop_reads. Qed.

Lemma within_GetName k : keeps (within (W := W) X P) (GetName k).
Proof. apply within_field. Qed.

Lemma within_pod p : keeps (within X P) (getPodFromCache config p).
Proof. apply within_reads, keeps_getPodFromCache. Qed.

Lemma within_nodes : keeps (within (W := W) X P) get_nodes.
Proof. apply within_reads, keeps_get_nodes. Qed.

Lemma within_keys {V} (m : gmap string V) : keeps (within (W := W) X P) (cnet (range_keys m)).
Proof. apply within_reads, keeps_keys. Qed.

Lemma within_pods : keeps (within (W := W) X P) getPodsFromCache.
Proof. apply within_reads, keeps_getPodsFromCache. Qed.

Lemma within_sync : keeps (within X P) getTargetSyncReplicaNode.
Proof. apply within_reads, keeps_getTargetSyncReplicaNode. Qed.

Lemma within_demote p : p ≠ t → keeps (within X P) (on_node p (SetToReplicaRole config)).
Proof.
  intros Hp. apply (keeps_within_node _ _ (λ q, q = q_demote));
    [apply loop_no_refresh|by apply keeps_SetToReplicaRole|].
  intros a q Ha ->. right. left. by exists p, a.
Qed.

Lemma within_register n a m :
  m = "STRICT_SYNC" ∨ m = "ASYNC" →
  keeps (within X P) (on_node t (RegisterReplica config n a m)).
Proof.
  intros Hm. apply (keeps_within_node _ _ (λ q, q = q_register n m a));
    [apply loop_no_refresh|by apply keeps_RegisterReplica|].
  intros b q Hb ->. right. right. exists b, (q_register n m a). split; [done|]. split; [done|].
  left. eauto.
Qed.

Lemma within_drop n : keeps (within X P) (on_node t (DropReplica config n)).
Proof.
  apply (keeps_within_node _ _ (λ q, q = q_drop n));
    [apply loop_no_refresh|by apply keeps_DropReplica|].
  intros b q Hb ->. right. right. exists b, (q_drop n). split; [done|]. split; [done|].
  right. eauto.
Qed.
#[local] Hint Resolve within_role within_field within_GetName within_pod within_nodes within_keys
  within_pods within_sync within_demote within_register within_drop : keeps.

Lemma within_collect_main n acc k : keeps (within X P) (collect_main n acc k).
Proof. unfold collect_main. solve_keeps. Qed.
#[local] Hint Resolve within_collect_main : keeps.

Lemma within_register_replica p n : keeps (within X P) (register_replica t p n).
Proof.
  unfold register_replica.
  assert (∀ a b : string, (if bool_decide (a = b) then "STRICT_SYNC" else "ASYNC") = "STRICT_SYNC" ∨
    (if bool_decide (a = b) then "STRICT_SYNC" else "ASYNC") = "ASYNC")
    by (intros a b; case_bool_decide; auto).
  solve_keeps.
Qed.
#[local] Hint Resolve within_register_replica : keeps.

Lemma within_reconcile_replica rm b p : keeps (within X P) (reconcile_replica t t rm b p).
Proof. unfold reconcile_replica. case_bool_decide; solve_keeps. Qed.
End loop.

(** The reconciliation of the replicas never harms the target main: over all
    rounds, whatever the world answers, only nodes other than the target main
    are demoted, and replicas are registered and dropped on the target main
    only; the gateways and the target index do not change. *)
Theorem reconcile_loop_safe (t : string) (rm : gmap string ReplicaInfo) (keys : list string)
    (b : bool) s o s' :
  ctl_targetMainIndex s ≠ (-1)%Z →
  foldM (reconcile_replica t t rm) keys b s = (o, s') →
  (∃ evs, trace_of s' = trace_of s ++ evs ∧
     ∀ e, e ∈ evs → reads e ∨
       (∃ k n, k ≠ t ∧ node_at s k = Some n ∧ e = IoQuery (bolt_of n) q_demote) ∨
       (∃ n q, node_at s t = Some n ∧ e = IoQuery (bolt_of n) q ∧ registration q)) ∧
  ctl_targetMainIndex s' = ctl_targetMainIndex s ∧ ids s' = ids s ∧
  ∀ r, gateway_of r s' = gateway_of r s.
Proof.
  intros Hi Hr.
  assert (keeps (within (ids s) (replica_event (ids s) t))
    (foldM (reconcile_replica t t rm) keys b)) as Hk.
  { apply keeps_foldM; [typeclasses eauto|]. apply within_reconcile_replica. }
  destruct (keeps_run _ _ _ _ _ Hk Hr eq_refl) as [He Hids].
  assert (∀ e, replica_event (ids s) t e → ∀ r, ¬ touches_gateway r e) as Hng.
  { intros e (a & q & ->)%replica_event_query r []. }
  split; [|split; [|split; [done|]]].
  - destruct He as (_ & evs & HT & HF & _). exists evs. split; [done|].
    intros e Hin. rewrite Forall_forall in HF.
    destruct (HF e Hin) as [?|[(k & a & Hk' & Ha & ->)|(a & q & Ha & -> & Hq)]]; [by left|..].
    + apply address_in_inv in Ha as (n & Hn & ->). right. left. by exists k, n.
    + apply address_in_inv in Ha as (n & Hn & ->). right. right. by exists n, q.
  - apply (effects_index _ _ _ He); [|done].
    intros e (a & q & ->)%replica_event_query [].
  - intros r. apply (effects_gateway _ _ _ r He). intros e He'. by apply Hng.
Qed.

(** ** Registration needs a single main *)

(** No node but [t] is known as main. *)
Definition no_other_main (s : Ctl W) (t : string) (keys : list string) : Prop :=
  ∀ k n, k ∈ keys → k ≠ t → node_at s k = Some n → mn_memgraphRole n ≠ "main".

Lemma collect_main_one t acc k s s' :
  collect_main t acc k s = (Ret [], s') →
  acc = [] ∧ (k ≠ t → ∀ n, node_at s' k = Some n → mn_memgraphRole n ≠ "main") ∧
  (∀ k', k' ≠ k → node_at s' k' = node_at s k') ∧ (k = t → s' = s).
Proof.
  unfold collect_main. case_bool_decide as Hk; intros Hr.
  { injection Hr as -> <-. by split. }
  inv_bind Hr as r s1 H1. apply on_node_inv in H1 as (n & n' & net' & _ & Hrun & Hn' & _ & Hk').
  destruct r as [role [e|]].
  - injection Hr as -> <-. split; [done|]. split; [|done]. intros _ m Hm.
    rewrite Hn' in Hm. injection Hm as <-. apply GetReplicationRole_err in Hrun. simpl in Hrun. by rewrite Hrun.
  - case_bool_decide as Hm; [by destruct acc|]. injection Hr as -> <-.
    split; [done|]. split; [|done]. intros _ m Hm'. rewrite Hn' in Hm'. injection Hm' as <-.
    apply GetReplicationRole_ok in Hrun as [Hrole _]. simpl in Hrole. by rewrite Hrole.
Qed.

Lemma collect_main_acc t keys acc s rs s' :
  foldM (collect_main t) keys acc s = (Ret rs, s') → rs = [] → acc = [].
Proof.
  revert acc s. induction keys as [|k keys IH]; intros acc s Hr Hrs; simpl in Hr; [by injection Hr as -> _|].
  inv_bind Hr as acc' s1 H1. assert (acc' = []) as -> by (by eapply IH).
  by apply collect_main_one in H1 as [? _].
Qed.

Lemma collect_mains_none t keys s s' :
  NoDup keys → foldM (collect_main t) keys [] s = (Ret [], s') →
  no_other_main s' t keys ∧ ∀ k, k ∉ keys → node_at s' k = node_at s k.
Proof.
  revert s. induction keys as [|k keys IH]; intros s Hnd Hr; simpl in Hr.
  { injection Hr as <-. split; [|done]. intros k n Hk. by apply not_elem_of_nil in Hk. }
  apply NoDup_cons in Hnd as [Hk Hnd].
  inv_bind Hr as acc s1 H1. assert (acc = []) as -> by (by eapply collect_main_acc).
  apply collect_main_one in H1 as (_ & Hone & Hsame & _).
  destruct (IH _ Hnd Hr) as [Hno Hrest]. split.
  - intros k' n [->|Hin]%elem_of_cons Hne Hn; [|by eapply Hno].
    rewrite Hrest in Hn by done. by eapply Hone.
  - intros k' [Hne Hnin]%not_elem_of_cons. rewrite Hrest by done. by apply Hsame.
Qed.

Lemma keeps_collect_main (P : io → Prop) t acc k :
  (∀ e, reads e → P e) → keeps (effects P) (collect_main t acc k).
Proof. intros HP. unfold collect_main. solve_keeps. Qed.

(** The state a registration starts from: no other node is known as main, and
    there are as many pods as nodes. *)
Definition may_register (s : Ctl W) (t : string) : Prop :=
  (∃ nodes, ctl_cluster s = Some nodes ∧
     length (omap id (w_store_list (net_world (ctl_net s)))) = size nodes) ∧
  ∀ k n, k ≠ t → node_at s k = Some n → mn_memgraphRole n ≠ "main".

Lemma range_keys_inv `{!WorldOrder W} {V} (m : gmap string V) s keys s' :
  cnet (range_keys m) s = (Ret keys, s') →
  keys ≡ₚ (map_to_list m).*1 ∧ ctl_cluster s' = ctl_cluster s.
Proof.
  unfold cnet, zoom, range_keys, call.
  pose proof (w_order_perm ((map_to_list m).*1) (net_world (ctl_net s))) as Hp.
  destruct (w_order _ _) as [keys' w]. by intros [= <- <-].
Qed.

(** The first part of [register_replica], up to the registration itself. *)
Lemma dual_main_check `{!WorldOrder W} t nodes keys s s1 pods s2 :
  ctl_cluster s = Some nodes → keys ≡ₚ (map_to_list nodes).*1 →
  foldM (collect_main t) keys [] s = (Ret [], s1) →
  getPodsFromCache s1 = (Ret pods, s2) →
  (∀ nodes2, ctl_cluster s2 = Some nodes2 → length pods = size nodes2) →
  s2 = s1 ∧ may_register s2 t.
Proof.
  intros Hn Hp Hf Hpods Hlen.
  assert (NoDup keys) as Hnd by (rewrite Hp; apply map_keys_nodup).
  destruct (collect_mains_none _ _ _ _ Hnd Hf) as [Hno Hsame].
  unfold getPodsFromCache in Hpods. inv_bind Hpods as nodes1 s3 H3.
  apply get_nodes_inv in H3 as [-> Hn1]. injection Hpods as <- <-. split; [done|].
  split; [exists nodes1; auto|]. intros k n Hk Hkn.
  destruct (decide (k ∈ keys)) as [Hin|Hin]; [by eapply Hno|].
  exfalso. apply Hin. rewrite Hp.
  assert (node_at s k = Some n) as Hks by (rewrite <- Hsame; done).
  unfold node_at in Hks. rewrite Hn in Hks. simpl in Hks.
  apply list_elem_of_fmap. exists (k, n). split; [done|]. by apply elem_of_map_to_list.
Qed.

(** What [register_replica] decides before it registers. *)
Definition sync_mode_of (s : Ctl W) (p : string) : string :=
  if bool_decide (p = GetPodName config (sync_index (ctl_targetMainIndex s)))
  then "STRICT_SYNC" else "ASYNC".

Definition fqdn (p : string) : string :=
  p +:+ "." +:+ StatefulSetName config +:+ "." +:+ Namespace config +:+ ".svc.cluster.local".

Lemma split_at_middle {A} (l : list A) x r l1 y r1 :
  l ++ x :: r = l1 ++ y :: r1 → y ∈ l ∨ (l1 = l ∧ y = x) ∨ y ∈ r.
Proof.
  revert l1. induction l as [|z l IH]; intros [|z1 l1] Heq; injection Heq as <- Heq; auto.
  - right. right. rewrite Heq. apply elem_of_app. right. left.
  - left. left.
  - destruct (IH _ Heq) as [?|[[-> ->]|?]]; auto. left. by right.
Qed.

(** Either the round only looked, or it went on to register from a state that
    allows it. *)
Lemma register_replica_split `{!WorldOrder W} t p rn s s' :
  ctl_targetMainIndex s ≠ (-1)%Z → (∀ k n, node_at s k = Some n → mn_name n = k) →
  register_replica t p rn s = (Ret (), s') →
  effects reads s s' ∨
  ∃ s1, effects reads s s1 ∧ may_register s1 t ∧
    (err ← on_node t (RegisterReplica config rn (fqdn p) (sync_mode_of s p));
     match err with
     | None => mret ()
     | Some err => if diverged_error err then mret ()
                   else _ ← on_node t (DropReplica config rn); mret ()
     end) s1 = (Ret (), s').
Proof.
  intros Hi Hwf Hr. unfold register_replica in Hr. inv_bind Hr as sy s1 H1.
  unfold getTargetSyncReplicaNode in H1. inv_bind H1 as idx s2 H2.
  rewrite GetTargetMainIndex_loaded in H2 by done. injection H2 as <- <-.
  inv_bind H1 as nd s2 H2. apply find_node_inv in H2 as [-> ->].
  destruct (node_at s (GetPodName _ _)) as [sn|] eqn:Hsn;
    injection H1 as <- <-; [|left; by injection Hr as <-].
  inv_bind Hr as name s2 H2. apply on_node_field_run in H2 as (-> & pn & Hpn & ->).
  inv_bind Hr as sname s2 H2. apply on_node_field_run in H2 as (-> & sn' & Hsn' & ->).
  inv_bind Hr as addr s2 H2. apply on_node_field_run in H2 as (-> & pn' & Hpn' & ->).
  inv_bind Hr as mname s2 H2. apply on_node_field_run in H2 as (-> & tn & Htn & ->).
  rewrite Hpn in Hpn'. injection Hpn' as <-.
  pose proof (Hwf _ _ Hpn) as Hpname. pose proof (Hwf _ _ Hsn') as Hsname. pose proof (Hwf _ _ Htn) as Htname.
  rewrite Hpname, Hsname, Htname in Hr. unfold GetReplicationFQDN in Hr. rewrite Hpname in Hr.
  fold (sync_mode_of s p) (fqdn p) in Hr.
  inv_bind Hr as nodes s2 H2. apply get_nodes_inv in H2 as [-> Hn].
  inv_bind Hr as keys s2 H2.
  pose proof (keeps_run _ _ _ _ _ (keeps_keys reads nodes) H2) as E2.
  apply range_keys_inv in H2 as [Hp Hc2].
  inv_bind Hr as mains s3 H3.
  assert (effects reads s2 s3) as E3.
  { eapply keeps_run; [|exact H3]. apply keeps_foldM; [typeclasses eauto|].
    intros. by apply keeps_collect_main. }
  inv_bind Hr as pods s4 H4.
  pose proof (keeps_run _ _ _ _ _ (keeps_getPodsFromCache reads) H4) as E4.
  inv_bind Hr as nodes2 s5 H5. apply get_nodes_inv in H5 as [-> Hn5].
  assert (effects reads s s4) as E by (by do 2 (etrans; [eassumption|])).
  case_bool_decide as Hm; [left; by injection Hr as <-|].
  case_bool_decide as Hl; [left; by injection Hr as <-|].
  destruct mains as [|? ?]; [|simpl in Hm; lia].
  destruct (dual_main_check t nodes keys s2 s3 pods s4) as [-> Hmay]; try done;
    [congruence|intros; congruence|].
  right. exists s3. by split.
Qed.

(** After a registration that failed, the replica is dropped on the same node. *)
Lemma drops_after_register t p rn mode tn err s1 s2 s' :
  node_at s1 t = Some tn →
  on_node t (RegisterReplica config rn (fqdn p) mode) s1 = (Ret err, s2) →
  match err with
  | None => mret ()
  | Some err => if diverged_error err then mret ()
                else _ ← on_node t (DropReplica config rn); mret ()
  end s2 = (Ret (), s') →
  ∃ e3, trace_of s' = trace_of s2 ++ e3 ∧ Forall (λ e, e = IoQuery (bolt_of tn) (q_drop rn)) e3.
Proof.
  intros Htn H2 Hrun. destruct err as [err|]; [|injection Hrun as <-; exists []; by rewrite app_nil_r].
  destruct (diverged_error err); [injection Hrun as <-; exists []; by rewrite app_nil_r|].
  inv_bind Hrun as r s3 H3. injection Hrun as <-.
  apply (on_node_step _ _ _ _ _ tn) in H2 as (tn' & _ & Htn' & Hid & _);
    [|by apply keeps_RegisterReplica|done].
  pose proof (on_node_effects (λ e, e = IoQuery (bolt_of tn) (q_drop rn)) (λ q, q = q_drop rn)
    t (DropReplica config rn) s2) as E. rewrite H3 in E.
  destruct E as (_ & e3 & HT3 & HF3 & _); [by apply keeps_DropReplica| |by exists e3].
  intros m q Hm _ ->. rewrite Htn' in Hm. injection Hm as <-. f_equal.
  by apply (bolt_same tn tn').
Qed.

(** C12. A replica is registered only under a single main.  Of what a round sends
    to the target main besides read queries, the first is the registration of
    this pod under its DNS name, strict-sync exactly when it is the sync pod;
    just before it no node besides the target main was known to be main and
    there were exactly as many pods in the cache as nodes.  After it at most
    drops of the same replica follow. *)
Theorem registration_needs_single_main `{!WorldOrder W} (t p rn : string) s s' :
  ctl_targetMainIndex s ≠ (-1)%Z →
  (∀ k n, node_at s k = Some n → mn_name n = k) →
  register_replica t p rn s = (Ret (), s') →
  ∃ evs, trace_of s' = trace_of s ++ evs ∧
    ∀ e1 a q e2, evs = e1 ++ IoQuery a q :: e2 → ¬ read_query q →
      (∃ n, node_at s t = Some n ∧ a = bolt_of n) ∧
      (q = q_drop rn ∨
       q = q_register rn (sync_mode_of s p) (fqdn p) ∧
       ∃ s1, effects reads s s1 ∧ may_register s1 t ∧ trace_of s1 = trace_of s ++ e1).
Proof.
  intros Hi Hwf Hr.
  destruct (register_replica_split t p rn s s' Hi Hwf Hr) as [He|(s1 & He & Hmay & Hrun)].
  { destruct He as (_ & evs & HT & HF & _). exists evs. split; [done|].
    intros e1 a q e2 -> Hq. exfalso. apply Hq. apply Forall_app in HF as [_ HF].
    apply Forall_cons in HF as [(? & ? & [= <- <-] & ?) _]. done. }
  destruct (reads_only_effects _ _ He Hi) as (_ & Hids & _).
  inv_bind Hrun as err s2 H2.
  pose proof (on_node_inv _ _ _ _ _ H2) as (tn & tn' & net' & Htn & Hreg & Htn' & Hnet & _).
  assert (address_in (ids s) t (bolt_of tn)) as Haddr by (rewrite <- Hids; by apply address_in_node).
  apply address_in_inv in Haddr as (n & Hn & Hb).
  apply RegisterReplica_sends in Hreg.
  change (trace_of (tn, ctl_net s1)) with (trace_of s1) in Hreg.
  change (trace_of (tn', net')) with (net_trace net') in Hreg. rewrite <- Hnet in Hreg.
  change (net_trace (ctl_net s2)) with (trace_of s2) in Hreg. simpl fst in Hreg. rewrite Hb in Hreg.
  assert (∃ e3, trace_of s' = trace_of s2 ++ e3 ∧
    Forall (λ e, e = IoQuery (bolt_of n) (q_drop rn)) e3) as (e3 & HT3 & HF3).
  { rewrite <- Hb. by eapply drops_after_register. }
  destruct (He) as (He0 & e0 & HT0 & HF0 & He1).
  assert (∀ a q, IoQuery a q ∈ e3 → a = bolt_of n ∧ q = q_drop rn) as HQ.
  { intros a q Hin. rewrite Forall_forall in HF3. by injection (HF3 _ Hin) as -> ->. }
  assert (∀ a q, IoQuery a q ∈ e0 → read_query q) as HP.
  { intros a q Hin. rewrite Forall_forall in HF0. by destruct (HF0 _ Hin) as (? & ? & [= -> ->] & ?). }
  destruct Hreg as [HT2|[HT2 _]].
  - exists (e0 ++ IoQuery (bolt_of n) (q_register rn (sync_mode_of s p) (fqdn p)) :: e3).
    split; [by rewrite HT3, HT2, HT0, <- !app_assoc|]. intros e1 a q e2 Heq Hq.
    destruct (split_at_middle _ _ _ _ _ _ Heq) as [Hin|[[-> [= -> ->]]|Hin]].
    + by apply HP in Hin.
    + split; [by exists n|]. right. split; [done|]. by exists s1.
    + apply HQ in Hin as [-> ->]. split; [by exists n|]. by left.
  - exists (e0 ++ e3). split; [by rewrite HT3, HT2, HT0, <- !app_assoc|].
    intros e1 a q e2 Heq Hq. assert (IoQuery a q ∈ e0 ++ e3) as Hin
      by (rewrite Heq; apply elem_of_app; right; left).
    apply elem_of_app in Hin as [Hin|Hin]; [by apply HP in Hin|].
    apply HQ in Hin as [-> ->]. split; [by exists n|]. by left.
Qed.

(** ** Freedom from panics *)

(** [initialized] for some set of pods: [Refresh] adds nodes. *)
Definition running (rg : bool) (s : Ctl W) : Prop := ∃ X, initialized X rg s.

Lemma safe_running {A} rg (m : M (Ctl W) A) Φ :
  (∀ X, safe (initialized X rg) m Φ) → safe (running rg) m Φ.
Proof.
  intros Hm s [X HX]. destruct (Hm X s HX) as (a & s' & Hr & HI & HΦ).
  exists a, s'. split; [done|]. split; [by exists X|done].
Qed.

Lemma safe_Refresh `{!WorldOrder W} rg : safe (running rg) Refresh anything.
Proof.
  intros s [X HX]. destruct (Refresh_initialized X rg s HX) as (X' & s' & Hr & HI & _).
  exists (), s'. split; [done|]. split; [by exists X'|done].
Qed.

Section safety.
Context `{!WorldOrder W} (X : gset string) (rg : bool).
#[local] Abbreviation I := (initialized (W := W) X rg).

Lemma safe_prom (f : Metrics → Metrics) : safe I (prom f) anything.
Proof. by apply safe_modify. Qed.

Lemma safe_getPodsFromCache : safe I getPodsFromCache anything.
Proof. unfold getPodsFromCache. solve_safe. Qed.

Lemma safe_any_keys {V} (m : gmap string V) : safe I (cnet (range_keys m)) (λ keys, ∀ k, k ∈ keys → k ∈ dom m).
Proof.
  apply safe_cnet. intros n _. unfold range_keys, call.
  pose proof (w_order_perm ((map_to_list m).*1) (net_world n)) as Hp.
  destruct (w_order _ _) as [keys w]. simpl in Hp. do 2 eexists. split; [done|]. split; [done|].
  intros k. rewrite Hp, list_elem_of_fmap. intros ([k' v] & -> & Hin%elem_of_map_to_list).
  by eapply elem_of_dom_2.
Qed.

Lemma safe_log_replica rs k :
  Forall (λ r, is_Some (ri_ParsedDataInfo r)) rs → safe I (log_replica (replica_map rs) k) anything.
Proof.
  intros Hp. unfold log_replica. destruct (replica_map rs !! k) as [r|] eqn:Hk; [|by apply safe_ret].
  assert (is_Some (ri_ParsedDataInfo r)) as [d ->]; [|solve_safe].
  unfold replica_map in Hk. assert (∀ k r, (∅ : gmap string ReplicaInfo) !! k = Some r →
    is_Some (ri_ParsedDataInfo r)) as Hm by (intros ? ?; by rewrite lookup_empty).
  revert Hm Hk. generalize (∅ : gmap string ReplicaInfo) as m.
  induction Hp as [|r' rs Hr' _ IH]; intros m Hm Hk; simpl in Hk; [eauto|].
  apply (IH _) in Hk; [done|]. intros k' r''. rewrite lookup_insert_Some. naive_solver.
Qed.

Lemma safe_register_replica t p n :
  t ∈ X → p ∈ X → safe I (register_replica t p n) anything.
Proof.
  intros Ht Hp. unfold register_replica, collect_main.
  eapply safe_bind; [apply safe_getTargetSyncReplicaNode|intros [sy|e] Hsy; [simpl in Hsy|by apply safe_ret]].
  do 4 (eapply (safe_bind _ _ _ anything); [eauto with safe|intros ? ?]).
  eapply safe_bind; [apply safe_get_nodes|intros nodes Hn].
  eapply safe_bind; [by apply safe_keys|intros keys Hk].
  eapply (safe_bind _ _ _ anything).
  { apply safe_foldM; [done|]. intros acc k _ Hin. specialize (Hk _ Hin). solve_safe. }
  intros mains _. pose proof safe_getPodsFromCache. solve_safe.
Qed.

Lemma safe_reconcile_replica t m rm b p :
  t ∈ X → p ∈ X → safe I (reconcile_replica t m rm b p) anything.
Proof.
  intros Ht Hp. unfold reconcile_replica.
  pose proof (λ n, safe_register_replica t p n Ht Hp). solve_safe.
Qed.
End safety.

Lemma safe_reconcile_replicas `{!WorldOrder W} X rg t rerr :
  t ∈ X → safe (initialized (W := W) X rg) (reconcile_replicas t rerr) anything.
Proof.
  intros Ht. unfold reconcile_replicas.
  pose proof (safe_reconcileGateway config configMapName X rg).
  eapply (safe_bind _ _ _ anything); [eauto with safe|intros _ _].
  eapply safe_bind; [apply safe_on_node; [done|apply safe_GetReplicas_fresh]|].
  intros [rs|e] Hrs; [|by apply safe_ret].
  eapply (safe_bind _ _ _ anything); [eapply safe_mono; [apply safe_any_keys|done]|intros rkeys _].
  eapply (safe_bind _ _ _ anything).
  { apply safe_forM. intros k _. by apply safe_log_replica. }
  intros _ _. eapply (safe_bind _ _ _ anything); [eauto with safe|intros mn _].
  eapply (safe_bind _ _ _ anything); [eauto with safe|intros [pod|e] _; [|by apply safe_ret]].
  eapply safe_bind; [apply safe_get_nodes|intros nodes Hn].
  eapply safe_bind; [by apply safe_keys|intros keys Hk].
  eapply (safe_bind _ _ _ anything).
  { apply safe_foldM; [done|]. intros b k _ Hin. apply safe_reconcile_replica; auto. }
  solve_safe.
Qed.

Lemma safe_reconcile_locked `{!WorldOrder W} rg : safe (running rg) reconcile_locked anything.
Proof.
  unfold reconcile_locked, record_error.
  eapply (safe_bind _ _ _ anything); [apply safe_running; eauto with safe|intros [idx|e] _].
  2:{ apply safe_running. intros X. pose proof (safe_prom X rg). solve_safe. }
  case_bool_decide; [by apply safe_ret|].
  eapply safe_bind; [apply safe_Refresh|intros _ _]. apply safe_running. intros X.
  pose proof (safe_prom X rg). pose proof (safe_performFailoverCheck config configMapName X rg None).
  eapply (safe_bind _ _ _ anything); [done|intros failed _].
  eapply (safe_bind _ _ _ anything); [solve_safe|intros rerr _].
  eapply safe_bind; [apply safe_getTargetMainNode|intros [t|e] Ht; [simpl in Ht|solve_safe]].
  pose proof (safe_reconcile_replicas X rg t rerr Ht). solve_safe.
Qed.

Lemma safe_record_metrics rg start e : safe (running rg) (record_metrics start e) anything.
Proof.
  apply safe_running. intros X. unfold record_metrics.
  pose proof (safe_prom X rg). pose proof (λ f, safe_modify (initialized (W := W) X rg)
    (λ s, set_metrics (f (ctl_metrics s)) s) (λ s HI, HI)) as Hm.
  solve_safe.
Qed.

Lemma safe_performReconciliationActions `{!WorldOrder W} rg :
  safe (running rg) performReconciliationActions anything.
Proof.
  unfold performReconciliationActions.
  eapply (safe_bind _ _ _ anything); [apply safe_running; eauto with safe|intros start _].
  pose proof (safe_reconcile_locked rg). pose proof (safe_record_metrics rg). solve_safe.
Qed.

(** Reconciliation always completes: with the informer, the gateway and the
    queues in place, a reconciliation returns and leaves them in place,
    whatever the pods, the databases and the ConfigMap answer; no branch
    dereferences nil and no loop is left open. *)
Theorem reconciliation_completes `{!WorldOrder W} X rg s :
  initialized X rg s →
  ∃ err s' X', performReconciliationActions s = (Ret err, s') ∧ initialized X' rg s'.
Proof.
  intros HI. destruct (safe_performReconciliationActions rg s (ex_intro _ X HI))
    as (err & s' & Hr & [X' HX'] & _). eauto.
Qed.

(** ** The whole reconciliation *)

(** What a failover check may do; it demotes no node and leaves the node map's
    names and addresses alone. *)
Definition failover_event (e : io) : Prop :=
  match e with
  | IoQuery _ q => read_query q ∨ q = q_promote
  | IoRefresh => False
  | _ => True
  end.

(** The same without a write of the ConfigMap. *)
Definition quiet_event (e : io) : Prop := failover_event e ∧ ¬ is_configmap e.

Lemma quiet_reads e : reads e → quiet_event e.
Proof. intros (a & q & -> & Hq). split; [by left|by intros []]. Qed.

Lemma quiet_gateway r a : quiet_event (IoGateway r a).
Proof. split; [done|by intros []]. Qed.

Lemma quiet_two_pods (s s' : Ctl W) :
  two_pods s → effects quiet_event s s' → effects failover_event s s' ∧ two_pods s'.
Proof.
  intros Htwo He. split; [eapply effects_mono; [|exact He]; by intros e [? _]|].
  assert (ctl_targetMainIndex s' = ctl_targetMainIndex s) as Hi.
  { apply (effects_index _ _ _ He); [by intros e [_ ?]|]. by destruct Htwo as [-> | ->]. }
  unfold two_pods. by rewrite Hi.
Qed.

Lemma keeps_protect_quiet p :
  keeps (effects (W := W) quiet_event) (protectReadGatewayBeforeRoleChange p).
Proof.
  unfold protectReadGatewayBeforeRoleChange.
  pose proof (keeps_gw_DisconnectAll (W := W) quiet_event true (conj Logic.I (λ f, f))).
  pose proof (keeps_gw_SetUpstreamAddress (W := W) quiet_event true "" (quiet_gateway _ _)).
  pose proof quiet_reads. solve_keeps.
Qed.

Lemma keeps_promote_quiet :
  keeps (effects quiet_event) (promoteSyncReplica config configMapName).
Proof.
  unfold promoteSyncReplica. pose proof keeps_protect_quiet. pose proof quiet_reads.
  assert (∀ k, keeps (effects quiet_event) (on_node k (SetToMainRole config))).
  { intros k. apply (keeps_on_node _ (λ q, q = q_promote)); [by apply keeps_SetToMainRole|].
    intros a q ->. split; [by right|by intros []]. }
  solve_keeps.
Qed.

Lemma keeps_close_quiet : keeps (effects (W := W) quiet_event) close_gateways.
Proof.
  unfold close_gateways.
  pose proof (λ r, keeps_gw_SetUpstreamAddress (W := W) quiet_event r "" (quiet_gateway r "")).
  solve_keeps.
Qed.

Lemma keeps_open_quiet k : keeps (effects quiet_event) (open_gateways config configMapName k).
Proof.
  eapply keeps_weaken; [apply keeps_open_gateways|]. intros s1 s2. apply effects_mono.
  intros e [?|(r & a & ->)]; [by apply quiet_reads|apply quiet_gateway].
Qed.

(** The target stays one of the two data pods over a failover. *)
Lemma failover_two_pods s o s' :
  two_pods s → executeFailoverInternal config configMapName s = (Ret o, s') →
  effects failover_event s s' ∧ two_pods s'.
Proof.
  intros Htwo Hr. unfold executeFailoverInternal in Hr. inv_bind Hr as chk s1 H1.
  pose proof (keeps_run _ _ _ _ _
    (keeps_failover_checks config configMapName quiet_event quiet_reads) H1) as E1.
  destruct chk as [[[i name] role]|e]; [|injection Hr as <- <-; by apply quiet_two_pods].
  destruct (two_pods_sync s Htwo) as (Hint & _ & Hi).
  apply failover_checks_ok in H1 as (-> & _ & _); [|done]. rewrite Hint in Hr.
  inv_bind Hr as u s2 H2. pose proof (keeps_run _ _ _ _ _ keeps_close_quiet H2) as E2.
  inv_bind Hr as pe s3 H3.
  assert (effects quiet_event s2 s3) as E3.
  { eapply keeps_run; [|exact H3]. case_bool_decide; [apply keeps_ret, _|apply keeps_promote_quiet]. }
  assert (effects quiet_event s s3) as E by (by do 2 (etrans; [eassumption|])).
  destruct (quiet_two_pods _ _ Htwo E) as [EF Htwo3].
  destruct pe as [e|]; [by injection Hr as <- <-|]. inv_bind Hr as ce s4 H4.
  pose proof (keeps_run _ _ _ _ _
    (keeps_SetTargetMainIndex config configMapName failover_event (1 - ctl_targetMainIndex s)
       Logic.I) H4) as E4.
  apply SetTargetMainIndex_inv in H4 as (_ & _ & Hidx).
  destruct ce as [e|].
  { injection Hr as <- <-. split; [by etrans|]. unfold two_pods. by rewrite (proj1 Hidx). }
  destruct Hidx as [Hidx _].
  assert (two_pods s4) as Htwo4 by (destruct Htwo as [Hz|Hz]; rewrite Hz in Hidx; [by right|by left]).
  inv_bind Hr as u5 s5 H5. injection Hr as <- <-.
  destruct (quiet_two_pods _ _ Htwo4 (keeps_run _ _ _ _ _ (keeps_open_quiet _) H5)) as [E5 Htwo5].
  split; [by do 2 (etrans; [eassumption|])|done].
Qed.

Lemma failover_check_two_pods s o s' :
  two_pods s → performFailoverCheck config configMapName None s = (Ret o, s') →
  effects failover_event s s' ∧ two_pods s'.
Proof.
  intros Htwo Hr. destruct (two_pods_sync s Htwo) as (_ & _ & Hi).
  unfold performFailoverCheck in Hr. inv_bind Hr as idx s1 H1.
  rewrite GetTargetMainIndex_loaded in H1 by done. injection H1 as <- <-.
  inv_bind Hr as skip s1 H1. inv_bind H1 as hr s2 H2. injection H1 as <- <-.
  destruct (quiet_two_pods _ _ Htwo (keeps_run _ _ _ _ _
    (keeps_getHealthyRole config quiet_event _ quiet_reads) H2)) as [E2 Htwo2].
  destruct (hr.2 && _); [by injection Hr as <- <-|].
  inv_bind Hr as err s3 H3. destruct (failover_two_pods _ _ _ Htwo2 H3) as [E3 Htwo3].
  assert (s' = s3) as -> by (destruct err; by injection Hr as <- <-).
  split; [by etrans|done].
Qed.

(** Every node is filed under its own name. *)
Definition named s : Prop := ∀ k n, node_at (W := W) s k = Some n → mn_name n = k.

Lemma named_ids s s' : ids s' = ids s → named s → named s'.
Proof.
  intros Hids Hs k n Hn. apply ids_lookup in Hn as (m & Hm & Hk). rewrite Hids in Hm.
  unfold ids in Hm. destruct (ctl_cluster s) as [nodes|] eqn:Hc; [|done]. injection Hm as <-.
  rewrite lookup_fmap in Hk. destruct (nodes !! k) as [n'|] eqn:Hk'; [|done].
  injection Hk as Hname _. rewrite <- Hname. apply Hs. unfold node_at. by rewrite Hc.
Qed.

Lemma named_Refresh `{!WorldOrder W} s s' : named s → Refresh s = (Ret (), s') → named s'.
Proof.
  intros Hs Hr. assert (∃ nodes, ctl_cluster s = Some nodes) as [nodes Hn].
  { unfold Refresh, getPodsFromCache in Hr. inv_bind Hr as pods s1 H1. inv_bind H1 as nodes s2 H2.
    apply get_nodes_inv in H2 as [_ ?]. eauto. }
  destruct (Refresh_run s nodes Hn) as (s'' & nodes' & Hr' & Hn' & Hl & _).
  rewrite Hr in Hr'. injection Hr' as <-. intros k n Hk. unfold node_at in Hk. rewrite Hn' in Hk.
  simpl in Hk. rewrite Hl in Hk. destruct (pod_map _ !! k) as [pod|] eqn:Hpod.
  - apply pod_map_name in Hpod. injection Hk as <-. by destruct (nodes !! k).
  - apply Hs. unfold node_at. by rewrite Hn.
Qed.

(** After the failover check: what the loop may do, and the gateways. *)
Definition settled_event (X : option (gmap string (string * string))) (t : string) (e : io) : Prop :=
  replica_event X t e ∨ ∃ r a, e = IoGateway r a.

Section settled.
Context (X : option (gmap string (string * string))) (t : string).
#[local] Abbreviation P := (settled_event X t).

Lemma settled_reads e : reads e → P e.
Proof. intros He. left. by left. Qed.

Lemma settled_no_refresh e : P e → ¬ is_refresh e.
Proof. intros [(a & q & ->)%replica_event_query|(r & a & ->)]; discriminate. Qed.

Lemma settled_no_configmap e : P e → ¬ is_configmap e.
Proof. intros [(a & q & ->)%replica_event_query|(r & a & ->)]; by intros []. Qed.

Lemma settled_loop rm keys b : keeps (within X P) (foldM (reconcile_replica t t rm) keys b).
Proof.
  apply keeps_foldM; [typeclasses eauto|]. intros b' k.
  eapply keeps_weaken; [apply (within_reconcile_replica X t)|].
  intros s s' Hw Hs. destruct (Hw Hs) as [He Hids]. split; [|done].
  eapply effects_mono; [|exact He]. by left.
Qed.

Lemma settled_upstream : keeps (within X P) updateReadGatewayUpstream.
Proof.
  apply keeps_within; [apply settled_no_refresh|]. apply keeps_updateReadGatewayUpstream.
  - apply settled_reads.
  - intros a. right. eauto.
Qed.

Lemma settled_gateway : keeps (within X P) (reconcileGateway config configMapName).
Proof.
  apply keeps_within; [apply settled_no_refresh|]. apply keeps_reconcileGateway.
  - apply settled_reads.
  - intros a. right. eauto.
Qed.

Lemma settled_replicas b : keeps (within X P) (on_node t (GetReplicas config b)).
Proof. apply keeps_within; [apply settled_no_refresh|]. apply keeps_node_replicas, settled_reads. Qed.

Lemma settled_logs rm keys : keeps (within X P) (forM_ keys (log_replica rm)).
Proof.
  apply keeps_within; [apply settled_no_refresh|]. apply keeps_forM; [typeclasses eauto|].
  intros k. unfold log_replica. solve_keeps.
Qed.
End settled.

(** From the target main on, only such events. *)
Lemma reconcile_replicas_effects s t rerr o s' :
  named s → reconcile_replicas t rerr s = (Ret o, s') →
  effects (settled_event (ids s) t) s s' ∧ ids s' = ids s.
Proof.
  intros Hwf Hr. unfold reconcile_replicas in Hr.
  assert (∀ A (m : M (Ctl W) A) s1 a s2,
    effects (settled_event (ids s) t) s s1 ∧ ids s1 = ids s →
    keeps (within (ids s) (settled_event (ids s) t)) m → m s1 = (Ret a, s2) →
    effects (settled_event (ids s) t) s s2 ∧ ids s2 = ids s) as step.
  { intros A m s1 a s2 [E1 N1] Hm Hr1. destruct (keeps_run _ _ _ _ _ Hm Hr1 N1) as [E2 N2].
    split; [by etrans|done]. }
  assert (∀ {A} (m : M (Ctl W) A), keeps (effects (settled_event (ids s) t)) m →
    keeps (within (ids s) (settled_event (ids s) t)) m) as lift.
  { intros A m. apply keeps_within, settled_no_refresh. }
  inv_bind Hr as u s1 H1.
  assert (step1 := step _ _ _ _ _ (conj (reflexivity s) eq_refl) (settled_upstream _ _) H1).
  inv_bind Hr as rs s2 H2. assert (step2 := step _ _ _ _ _ step1 (settled_replicas _ _ _) H2).
  destruct rs as [rs|e]; [|by injection Hr as <- <-].
  inv_bind Hr as rkeys s3 H3. assert (step3 := step _ _ _ _ _ step2 (lift _ _ (keeps_keys _ _)) H3).
  inv_bind Hr as u' s4 H4. assert (step4 := step _ _ _ _ _ step3 (settled_logs _ _ _ _) H4).
  inv_bind Hr as mn s5 H5. apply on_node_field_run in H5 as (-> & tn & Htn & ->).
  rewrite (named_ids _ _ (proj2 step4) Hwf _ _ Htn) in Hr.
  inv_bind Hr as pod s5 H5. apply getPodFromCache_inv in H5 as [-> _].
  destruct pod as [pod|e]; [|by injection Hr as <- <-].
  inv_bind Hr as nodes s5 H5. apply get_nodes_inv in H5 as [-> _].
  inv_bind Hr as keys s6 H6. assert (step6 := step _ _ _ _ _ step4 (lift _ _ (keeps_keys _ _)) H6).
  inv_bind Hr as b s7 H7. assert (step7 := step _ _ _ _ _ step6 (settled_loop _ _ _ _ _) H7).
  destruct b; [|by injection Hr as <- <-].
  inv_bind Hr as e s8 H8. injection Hr as <- <-.
  exact (step _ _ _ _ _ step7 (settled_gateway _ _) H8).
Qed.

Lemma keeps_record_error P : keeps (effects (W := W) P) record_error.
Proof. apply keeps_modify. intros s. by apply effects_silent; [..|left]. Qed.

(** The events of a reconciliation: those before the target main is settled and
    those after. *)
Definition spared (s s' : Ctl W) : Prop :=
  let t := GetPodName config (ctl_targetMainIndex s') in
  ∃ before after, trace_of s' = trace_of s ++ before ++ after ∧
    (∀ e, e ∈ before → failover_event e ∨ is_refresh e) ∧
    ∀ e, e ∈ after → reads e ∨ (∃ r a, e = IoGateway r a) ∨
      (∃ k n, k ≠ t ∧ node_at (W := W) s' k = Some n ∧ e = IoQuery (bolt_of n) q_demote) ∨
      (∃ n q, node_at s' t = Some n ∧ e = IoQuery (bolt_of n) q ∧ registration q).

Lemma spared_before s s' :
  effects (λ e, failover_event e ∨ is_refresh e) s s' → spared s s'.
Proof.
  intros (_ & evs & HT & HF & _). exists evs, []. rewrite app_nil_r. split; [done|].
  split; [by apply Forall_forall|]. by intros e ?%not_elem_of_nil.
Qed.

Lemma spared_after s s1 s' :
  effects (λ e, failover_event e ∨ is_refresh e) s s1 →
  effects (settled_event (ids s1) (GetPodName config (ctl_targetMainIndex s'))) s1 s' →
  ids s' = ids s1 → spared s s'.
Proof.
  intros (_ & e1 & HT1 & HF1 & _) (_ & e2 & HT2 & HF2 & _) Hids.
  exists e1, e2. split; [by rewrite HT2, HT1, app_assoc|]. split; [by apply Forall_forall|].
  intros e Hin. rewrite Forall_forall in HF2. rewrite <- Hids in HF2.
  destruct (HF2 _ Hin) as [[?|[(k & a & Hk & Ha & ->)|(a & q & Ha & -> & Hq)]]|?]; auto.
  - apply address_in_inv in Ha as (n & Hn & ->). right; right; left. eauto.
  - apply address_in_inv in Ha as (n & Hn & ->). right; right; right. eauto.
Qed.

Lemma reconcile_locked_spares `{!WorldOrder W} s r s' :
  two_pods s → named s → reconcile_locked s = (Ret r, s') → spared s s' ∧ two_pods s'.
Proof.
  intros Htwo Hwf Hr. destruct (two_pods_sync s Htwo) as (_ & _ & Hi).
  unfold reconcile_locked in Hr. inv_bind Hr as idx s1 H1.
  rewrite GetTargetMainIndex_loaded in H1 by done. injection H1 as <- <-.
  rewrite bool_decide_eq_false_2 in Hr by done.
  inv_bind Hr as u s1 H1.
  pose proof (keeps_run _ _ _ _ _ (keeps_Refresh is_refresh eq_refl) H1) as E1.
  destruct u. apply named_Refresh in H1; [|done].
  assert (two_pods s1) as Htwo1.
  { unfold two_pods. rewrite (effects_index _ _ _ E1); [done| |done]. intros e -> []. }
  inv_bind Hr as fe s2 H2. destruct (failover_check_two_pods _ _ _ Htwo1 H2) as [E2 Htwo2].
  destruct (two_pods_sync s2 Htwo2) as (_ & _ & Hi2).
  inv_bind Hr as rerr s3 H3.
  assert (effects (λ _, False) s2 s3) as E3.
  { eapply keeps_run; [|exact H3]. pose proof (keeps_record_error (λ _, False)). solve_keeps. }
  assert (effects (λ e, failover_event e ∨ is_refresh e) s s3) as E.
  { etrans; [eapply effects_mono; [|exact E1]; by right|].
    etrans; [eapply effects_mono; [|exact E2]; by left|]. eapply effects_mono; [|exact E3]. done. }
  assert (ctl_targetMainIndex s3 = ctl_targetMainIndex s2) as Hi3 by (by apply (effects_index _ _ _ E3)).
  assert (named s3) as Hwf3.
  { eapply named_ids; [by apply (effects_ids _ _ _ E3)|].
    eapply named_ids; [apply (effects_ids _ _ _ E2)|done]. by intros [] ? ?. }
  assert (two_pods s3) as Htwo3 by (unfold two_pods; by rewrite Hi3).
  inv_bind Hr as t s4 H4. assert (s4 = s3) as -> by (eapply getTargetMainNode_state; [|exact H4]; congruence).
  destruct t as [t|e].
  - apply getTargetMainNode_ok in H4 as (_ & -> & _); [|congruence].
    apply reconcile_replicas_effects in Hr as [E4 N4]; [|done].
    assert (ctl_targetMainIndex s' = ctl_targetMainIndex s3) as Hi4.
    { apply (effects_index _ _ _ E4); [apply settled_no_configmap|congruence]. }
    split; [|unfold two_pods; by rewrite Hi4].
    apply (spared_after _ s3); [done| |done]. by rewrite Hi4.
  - inv_bind Hr as u s4 H5. injection Hr as <- <-.
    pose proof (keeps_run _ _ _ _ _ (keeps_record_error (λ _, False)) H5) as E5. split.
    + apply spared_before. etrans; [exact E|]. eapply effects_mono; [|exact E5]. done.
    + unfold two_pods. rewrite (effects_index _ _ _ E5); [done|done|congruence].
Qed.

Lemma record_metrics_run start e s s' :
  record_metrics start e s = (Ret (), s') →
  trace_of s' = trace_of s ∧ ctl_cluster s' = ctl_cluster s ∧
  ctl_targetMainIndex s' = ctl_targetMainIndex s ∧
  ∃ duration now, ctl_metrics s' = record_reconcile e duration now <$> ctl_metrics s.
Proof.
  unfold record_metrics, prom, cnet, zoom, call, modify, mbind, M_bind.
  destruct (w_now _) as [now w]; simpl. destruct (w_now w) as [now' w']; simpl.
  intros [= <-]. split; [done|]. split; [done|]. split; [done|]. by eexists _, _.
Qed.

Lemma now_effects s start s' :
  cnet (call w_now) s = (Ret start, s') → effects (λ _, False) s s'.
Proof. intros Hr. eapply keeps_run; [|exact Hr]. apply keeps_world, keeps_call_emits. Qed.

(** C11. A reconciliation never harms the main.  The events of a whole run are
    those of the refresh and of the failover check, which demote nothing,
    followed by events in which only nodes other than the target main are
    demoted and replicas are registered and dropped on the target main only;
    the target main is the one the run ends with, and it is again one of the
    two data pods. *)
Theorem reconciliation_spares_main `{!WorldOrder W} s err s' :
  two_pods s → named s → performReconciliationActions s = (Ret err, s') →
  spared s s' ∧ two_pods s'.
Proof.
  intros Htwo Hwf Hr. unfold performReconciliationActions in Hr.
  inv_bind Hr as start s1 H1. apply now_effects in H1.
  pose proof (two_pods_sync s Htwo) as (_ & _ & Hi).
  pose proof (effects_index _ _ _ H1 ltac:(done) Hi) as Hi1.
  inv_bind Hr as r s2 H2. destruct (reconcile_locked_spares s1 r s2) as [Hsp Htwo2]; [| |done|].
  { unfold two_pods. by rewrite Hi1. }
  { eapply named_ids; [by apply (effects_ids _ _ _ H1)|done]. }
  inv_bind Hr as u s3 H3. injection Hr as <- <-. destruct u.
  apply record_metrics_run in H3 as (HT & HC & HI & _).
  destruct H1 as (_ & evs & HT1 & HF1 & _). destruct evs as [|? ?]; [|by apply Forall_cons in HF1 as [[] _]].
  rewrite app_nil_r in HT1. unfold two_pods. rewrite HI. split; [|done].
  destruct Hsp as (b & a & HT2 & Hb & Ha). exists b, a. rewrite HT, HT2, HT1.
  split; [done|]. split; [done|]. intros e Hin. specialize (Ha e Hin).
  unfold node_at in *. by rewrite HC, HI.
Qed.

(** ** The counters *)

Definition any_event (e : io) : Prop := True.

Lemma keeps_any_node {A} k (m : M (NodeNet W) A) :
  keeps (node_step (λ _, True)) m → keeps (effects any_event) (on_node k m).
Proof. intros Hm. by apply (keeps_on_node _ (λ _, True)). Qed.

Lemma keeps_any_failover ev : keeps (effects any_event) (performFailoverCheck config configMapName ev).
Proof.
  assert (∀ A (m : M (Ctl W) A), keeps (effects quiet_event) m → keeps (effects any_event) m) as lift.
  { intros A m Hm. eapply keeps_weaken; [exact Hm|]. intros ? ?. by apply effects_mono. }
  pose proof (lift _ _ keeps_close_quiet). pose proof (lift _ _ keeps_promote_quiet).
  pose proof (λ k, lift _ _ (keeps_open_quiet k)).
  pose proof (keeps_failover_checks config configMapName any_event ltac:(done)).
  pose proof (λ p, keeps_getHealthyRole config any_event p ltac:(done)).
  pose proof (λ p, keeps_lastChancePing config any_event p ltac:(done)).
  pose proof (λ i, keeps_SetTargetMainIndex config configMapName any_event i Logic.I).
  unfold performFailoverCheck, executeFailoverInternal. solve_keeps.
Qed.

Lemma keeps_any_round t n rm b p : keeps (effects any_event) (reconcile_replica t n rm b p).
Proof.
  assert (∀ e, reads e → any_event e) by done.
  pose proof (λ n acc k, keeps_collect_main any_event n acc k ltac:(done)).
  pose proof (λ k, keeps_any_node k _ (keeps_SetToReplicaRole config (λ _, True) Logic.I)).
  pose proof (λ k n a m, keeps_any_node k _ (keeps_RegisterReplica config (λ _, True) n a m Logic.I)).
  pose proof (λ k n, keeps_any_node k _ (keeps_DropReplica config (λ _, True) n Logic.I)).
  pose proof (keeps_getPodsFromCache (W := W) any_event).
  unfold reconcile_replica, register_replica. solve_keeps.
Qed.

Lemma keeps_any_reconcile : keeps (effects any_event) reconcile_locked.
Proof.
  assert (∀ e, reads e → any_event e) by done. pose proof keeps_any_failover.
  pose proof (keeps_Refresh (W := W) any_event Logic.I).
  pose proof (keeps_record_error any_event).
  pose proof (keeps_updateReadGatewayUpstream config configMapName any_event ltac:(done) ltac:(done)).
  pose proof (keeps_reconcileGateway config configMapName any_event ltac:(done) ltac:(done)).
  pose proof keeps_any_round.
  unfold reconcile_locked, reconcile_replicas, log_replica. solve_keeps.
Qed.

(** The counters agree, as the wrapped 64-bit integers they are. *)
Definition balanced (m : ReconciliationMetrics) : Prop :=
  rm_Total m = int64 (rm_Successful m + rm_Failed m).


(** ** The control loop *)

(** A database query or a refresh: neither the ConfigMap nor a gateway. *)
Definition probing (e : io) : Prop := is_refresh e ∨ ∃ a q, e = IoQuery a q.

Lemma probing_reads e : reads e → probing e.
Proof. intros (a & q & -> & _). right. eauto. Qed.

Lemma keeps_probing_discover : keeps (effects probing) (discoverClusterState config).
Proof.
  pose proof probing_reads.
  assert (∀ A k (m : M (NodeNet W) A), keeps (node_step (λ _, True)) m →
    keeps (effects probing) (on_node k m)) as Hany.
  { intros A k m Hm. apply (keeps_on_node _ (λ _, True)); [done|]. right. eauto. }
  pose proof (λ k, Hany _ k _ (keeps_SetToReplicaRole config (λ _, True) Logic.I)).
  pose proof (λ k n a m, Hany _ k _ (keeps_RegisterReplica config (λ _, True) n a m Logic.I)).
  pose proof (keeps_Refresh (W := W) probing (or_introl eq_refl)).
  assert (keeps (effects probing) (initializeCluster config)) by keeps_initialize.
  pose proof (keeps_cached_ready (W := W) config probing).
  unfold discoverClusterState, discover_roles, isNewCluster, storage_empty, role_of. solve_keeps.
Qed.

(** One tick of the control loop.  A controller that is not the leader does
    nothing; a leader that knows its target index reconciles and goes on; and
    whenever a tick ends the loop with an error, discovery or the write of the
    ConfigMap failed: no index was stored and no gateway was touched. *)
Theorem tick_spec s :
  let leader := le_IsLeader (ctl_leaderElection s) in
  (leader = false → Run_tick s = (Ret TickContinue, s)) ∧
  (leader = true → ctl_targetMainIndex s ≠ (-1)%Z →
     Run_tick s = (_ ← performReconciliationActions; mret TickContinue) s) ∧
  (∀ e s', Run_tick s = (Ret (TickReturn e), s') →
     leader = true ∧ ctl_targetMainIndex s = (-1)%Z ∧ effects probing s s').
Proof.
  intros leader. subst leader.
  destruct (le_IsLeader (ctl_leaderElection s)) eqn:Hl; unfold Run_tick;
    rewrite (bind_ret_run _ _ s (le_IsLeader (ctl_leaderElection s)) s) by done; rewrite Hl; simpl.
  2:{ split; [done|]. split; [done|]. intros e s' [=]. }
  split; [done|]. split.
  { intros _ Hi. by rewrite (bind_ret_run _ _ _ _ _ (GetTargetMainIndex_loaded config configMapName s Hi)). }
  intros e s' Hr. split; [done|].
  assert (∀ t t' f, (_ ← performReconciliationActions; mret TickContinue) t = (Ret (TickReturn f), t') →
    False) as Hno.
  { intros t t' f Ht. by inv_bind Ht as u t1 Hu. }
  inv_bind Hr as idx s1 H1. pose proof (keeps_run _ _ _ _ _
    (keeps_GetTargetMainIndex config configMapName probing) H1) as E1.
  destruct idx as [i|e1]; [by apply Hno in Hr|]. split.
  { destruct (decide (ctl_targetMainIndex s = -1)%Z) as [|Hi]; [done|].
    by rewrite GetTargetMainIndex_loaded in H1. }
  inv_bind Hr as d s2 H2. pose proof (keeps_run _ _ _ _ _ keeps_probing_discover H2) as E2.
  destruct d as [i|e2]; [|injection Hr as _ <-; by etrans].
  case_bool_decide; [done|]. inv_bind Hr as c s3 H3.
  destruct c as [e3|]; [|by apply Hno in Hr]. injection Hr as _ <-.
  etrans; [exact E1|]. etrans; [exact E2|].
  pose proof (keeps_run _ _ _ _ _
    (keeps_SetTargetMainIndex config configMapName is_configmap i Logic.I) H3) as E3.
  apply SetTargetMainIndex_inv in H3 as (_ & _ & _ & HT).
  destruct E3 as (O3 & evs & HT3 & HF3 & R3). rewrite HT in HT3.
  assert (evs = []) as -> by (by apply (app_inv_head (trace_of s2)); rewrite app_nil_r).
  split; [done|]. exists []. rewrite app_nil_r. split; [done|]. by split.
Qed.

End Reconcile.

(** ** Witnesses: a main whose replica is not registered yet *)

Definition sim_unregistered : Ctl Sim :=
  sim_ctl (sim_world (Some (mkDB "main" [] false)) (Some db_replica)) 0 sim_nodes
    (Some (sim_server "read-gw")).

Lemma sim_unregistered_initialized : initialized sim_pods_set true sim_unregistered.
Proof.
  split; [eexists; split; [reflexivity|vm_compute; reflexivity]|].
  split; [by eexists|]. split; [reflexivity|]. repeat split; by eexists.
Qed.

Lemma sim_unregistered_named : named sim_unregistered.
Proof.
  intros k n Hn. change (sim_nodes !! k = Some n) in Hn. unfold sim_nodes in Hn.
  apply lookup_insert_Some in Hn as [[<- <-]|[_ Hn]]; [vm_compute; reflexivity|].
  apply lookup_singleton_Some in Hn as [<- <-]. vm_compute; reflexivity.
Qed.

Definition registered_query : io :=
  IoQuery (sim_bolt 0)
    (q_register "memgraph_ha_1" "STRICT_SYNC"
       "memgraph-ha-1.memgraph-ha.default.svc.cluster.local").

Definition unregistered_run : outcome (option error) * Ctl Sim :=
  performReconciliationActions example_config "memgraph-state" sim_unregistered.
Definition registering_run : outcome () * Ctl Sim :=
  register_replica example_config "memgraph-state" (GetPodName example_config 0)
    (GetPodName example_config 1) "memgraph_ha_1" sim_unregistered.
Definition loop_run : outcome bool * Ctl Sim :=
  foldM (reconcile_replica example_config "memgraph-state" (GetPodName example_config 0)
    (GetPodName example_config 0) ∅) [GetPodName example_config 0; GetPodName example_config 1] true
    sim_unregistered.

Lemma reconcile_loop_safe_witness :
  registered_query ∈ trace_of loop_run.2 ∧ ctl_targetMainIndex loop_run.2 = 0%Z.
Proof.
  split; [apply (bool_decide_unpack _); vm_compute; exact Logic.I|].
  refine (proj1 (proj2 (reconcile_loop_safe example_config "memgraph-state"
    (GetPodName example_config 0) ∅ [GetPodName example_config 0; GetPodName example_config 1] true
    sim_unregistered loop_run.1 loop_run.2 _ (surjective_pairing _)))).
  discriminate.
Defined.

Lemma registration_needs_single_main_witness :
  ∃ evs, trace_of registering_run.2 = [] ++ evs ∧ registered_query ∈ evs ∧
    ∀ e1 a q e2, evs = e1 ++ IoQuery a q :: e2 → ¬ read_query q →
      ∃ n, node_at sim_unregistered (GetPodName example_config 0) = Some n ∧ a = bolt_of n.
Proof.
  destruct (registration_needs_single_main example_config "memgraph-state"
    (GetPodName example_config 0) (GetPodName example_config 1) "memgraph_ha_1" sim_unregistered
    registering_run.2) as (evs & HT & Hall); [discriminate|apply sim_unregistered_named| |].
  { vm_compute. reflexivity. }
  exists evs. split; [exact HT|]. split.
  - change (trace_of sim_unregistered) with ([] : list io) in HT. rewrite app_nil_l in HT.
    rewrite <- HT. apply (bool_decide_unpack _). vm_compute. exact Logic.I.
  - intros e1 a q e2 Heq Hq. apply (Hall e1 a q e2 Heq Hq).
Defined.

Lemma reconciliation_completes_witness :
  ∃ err s', performReconciliationActions example_config "memgraph-state" sim_unregistered
    = (Ret err, s').
Proof.
  destruct (reconciliation_completes example_config "memgraph-state" sim_pods_set true
    sim_unregistered sim_unregistered_initialized) as (err & s' & X' & Hr & _).
  exists err, s'. exact Hr.
Defined.

Lemma unregistered_run_split :
  performReconciliationActions example_config "memgraph-state" sim_unregistered
    = (Ret None, unregistered_run.2).
Proof. vm_compute. reflexivity. Qed.

Lemma reconciliation_spares_main_witness :
  registered_query ∈ trace_of unregistered_run.2 ∧
  spared example_config sim_unregistered unregistered_run.2.
Proof.
  split; [apply (bool_decide_unpack _); vm_compute; exact Logic.I|].
  refine (proj1 (reconciliation_spares_main example_config "memgraph-state" sim_unregistered None
    unregistered_run.2 _ sim_unregistered_named unregistered_run_split)).
  by left.
Defined.


(** A replica that is not ready blocks the gateway: the run returns that error
    but counts itself as successful, because only [reconcileErr] is counted. *)
Definition stale_record : record :=
  {[ "name" := VString "memgraph_ha_1"; "socket_address" := VString "";
     "sync_mode" := VString "strict_sync"; "data_info" := VMap [("memgraph", VMap
       [("behind", VInt64 3); ("status", VString "recovery"); ("ts", VInt64 2)])] ]}.

Definition sim_stale : Ctl Sim :=
  sim_ctl (sim_world (Some (mkDB "main" [stale_record] false)) (Some db_replica)) 0 sim_nodes None.

Example returned_error_counted_successful :
  let run := performReconciliationActions example_config "memgraph-state" sim_stale in
  run.1 = Ret (Some (Errorf "cluster is not healthy")) ∧
  (rm_Successful <$> ctl_metrics run.2) = Some 1%Z ∧ (rm_Failed <$> ctl_metrics run.2) = Some 0%Z.
Proof. vm_compute. repeat split. Qed.
