(* ===== verification/Events.v ===== *)
(** * Pod events: [internal/controller/controller_events.go]

    The informer's handlers.  An object handed to a handler is [Some pod], or
    [None] when it is not a pod pointer and the type assertion panics (client-go
    hands a [DeletedFinalStateUnknown] to the delete handler when it missed the
    deletion). *)

From S2P Require Import Prelude.
From S2P Require Import GoStrings.
From S2P Require Import Pods.
From S2P Require Import Config.
From S2P Require Import World.
From S2P Require Import ConnectionPool.
From S2P Require Import GatewayServer.
From S2P Require Import Queues.
From S2P Require Import LeaderElection.
From S2P Require Import ControllerState.
From S2P Require Import Sim.
From S2P Require Import Controller.
From S2P Require Import Failover.
From S2P Require Import Reconcile.

Section Events.
Context {W : Type} `{World W}.
Context (config : Config) (configMapName : string).

#[local] Abbreviation GetTargetMainIndex := (GetTargetMainIndex config configMapName).
#[local] Abbreviation updateReadGatewayUpstream := (updateReadGatewayUpstream config configMapName).

(** The type assertion of the handlers. *)
Definition assert_pod (obj : option Pod) : M (Ctl W) Pod :=
  match obj with
  | Some pod => mret pod
  | None => panic "interface conversion: interface {} is not *v1.Pod"
  end.

Definition handleReplicaHealthChange (oldPod newPod : Pod) : M (Ctl W) () :=
  disabled ← gw_nil true;
  if disabled : bool then mret ()
  else
    let wasHealthy := isPodReady oldPod in
    let isHealthy := isPodReady newPod in
    if negb wasHealthy || isHealthy then mret ()
    else
      currentUpstream ← gw_GetUpstreamAddress true;
      if bool_decide (currentUpstream = "") then mret ()
      else
        let unhealthyPodAddress := pod_PodIP newPod +:+ ":7687" in
        if bool_decide (currentUpstream = unhealthyPodAddress) then updateReadGatewayUpstream
        else mret ().

Definition handleReplicaDeleted (deletedPod : Pod) : M (Ctl W) () :=
  disabled ← gw_nil true;
  if disabled : bool then mret ()
  else
    currentUpstream ← gw_GetUpstreamAddress true;
    if bool_decide (currentUpstream = "") then mret ()
    else
      let deletedPodAddress := pod_PodIP deletedPod +:+ ":7687" in
      if bool_decide (currentUpstream = deletedPodAddress) then
        _ ← gw_DisconnectAll true;
        _ ← gw_SetUpstreamAddress true "";
        updateReadGatewayUpstream
      else mret ().

Definition onPodAdd (obj : option Pod) : M (Ctl W) () :=
  leader ← IsLeader;
  if negb leader then mret ()
  else
    let? _index := GetTargetMainIndex orelse _err => mret () in
    pod ← assert_pod obj;
    enqueueReconcileEvent "pod-add" "pod-added" (pod_Name pod).

Definition onPodUpdate (oldObj newObj : option Pod) : M (Ctl W) () :=
  leader ← IsLeader;
  if negb leader then mret ()
  else
    let? targetMainIndex := GetTargetMainIndex orelse _err => mret () in
    oldPod ← assert_pod oldObj;
    newPod ← assert_pod newObj;
    _ ← (if bool_decide (pod_PodIP oldPod ≠ pod_PodIP newPod) &&
            bool_decide (pod_PodIP newPod ≠ "")
         then cnet (UpdatePodIP (pod_Name newPod) (pod_PodIP newPod)) else mret ());
    let currentMain := GetPodName config targetMainIndex in
    _ ← (if bool_decide (currentMain = pod_Name newPod) then
           if isPodBecomeUnhealthy (Some oldPod) (Some newPod)
           then enqueueFailoverCheckEvent "pod-update" "main-pod-unhealthy" (pod_Name newPod)
           else mret ()
         else handleReplicaHealthChange oldPod newPod);
    if negb (shouldReconcile oldPod newPod) then mret ()
    else enqueueReconcileEvent "pod-update" "pod-state-changed" (pod_Name newPod).

Definition onPodDelete (obj : option Pod) : M (Ctl W) () :=
  leader ← IsLeader;
  if negb leader then mret ()
  else
    let? targetMainIndex := GetTargetMainIndex orelse _err => mret () in
    pod ← assert_pod obj;
    _ ← cnet (InvalidatePodConnection (pod_Name pod));
    let currentMain := GetPodName config targetMainIndex in
    _ ← (if bool_decide (currentMain ≠ "") && bool_decide (pod_Name pod = currentMain)
         then mret () else handleReplicaDeleted pod);
    enqueueReconcileEvent "pod-delete" "pod-deleted" (pod_Name pod).

#[local] Arguments isPodBecomeUnhealthy : simpl never.

(** ** Effects *)

(** Read queries and the read-only gateway. *)
Definition read_side (e : io) : Prop := reads e ∨ (∃ a, e = IoGateway true a) ∨ e = IoDisconnect true.

Lemma read_side_reads e : reads e → read_side e.
Proof. by left. Qed.

Lemma read_side_gw a : read_side (IoGateway true a).
Proof. right. left. eauto. Qed.

Lemma keeps_read_update : keeps (effects read_side) updateReadGatewayUpstream.
Proof.
  apply keeps_updateReadGatewayUpstream; [apply read_side_reads|apply read_side_gw].
Qed.
#[local] Hint Resolve keeps_read_update : keeps.

Lemma keeps_health_change o n : keeps (effects read_side) (handleReplicaHealthChange o n).
Proof. unfold handleReplicaHealthChange. solve_keeps. Qed.

Lemma keeps_replica_deleted p : keeps (effects read_side) (handleReplicaDeleted p).
Proof.
  unfold handleReplicaDeleted.
  pose proof (keeps_gw_DisconnectAll (W := W) read_side true (or_intror (or_intror eq_refl))).
  pose proof (keeps_gw_SetUpstreamAddress (W := W) read_side true "" (read_side_gw "")).
  solve_keeps.
Qed.

Lemma IsLeader_run s : IsLeader (W := W) s = (Ret (le_IsLeader (ctl_leaderElection s)), s).
Proof. done. Qed.

(** What a handler leaves alone apart from the queues. *)
Lemma read_side_kept s s' :
  effects read_side s s' →
  ctl_failoverCheckQueue s' = ctl_failoverCheckQueue s ∧
  ctl_reconcileQueue s' = ctl_reconcileQueue s ∧ gateway_of false s' = gateway_of (W := W) false s.
Proof.
  intros He. pose proof (effects_others _ _ _ He) as Ho. unfold others in Ho.
  split; [congruence|]. split; [congruence|]. apply (effects_gateway _ _ _ _ He).
  intros e [(a & q & -> & _)|[[a ->]| ->]]; simpl; congruence.
Qed.

Lemma enqueue_failover_run t r p s fq s' :
  ctl_failoverCheckQueue s = Some fq →
  enqueueFailoverCheckEvent (W := W) t r p s = (Ret (), s') →
  ctl_failoverCheckQueue s' = Some (q_send (mkFailoverCheckEvent t r p (w_now (net_world (ctl_net s))).1) fq) ∧
  ctl_reconcileQueue s' = ctl_reconcileQueue s ∧ (∀ g, gateway_of g s' = gateway_of g s) ∧
  trace_of s' = trace_of s ∧ ctl_targetMainIndex s' = ctl_targetMainIndex s.
Proof.
  intros Hq. unfold enqueueFailoverCheckEvent, mbind, M_bind, cnet, zoom, call, gets.
  destruct (w_now _) as [now w]. simpl. rewrite Hq. intros [= <-].
  split; [done|]. split; [done|]. split; [by intros []|]. done.
Qed.

Lemma enqueue_reconcile_run t r p s rq s' :
  ctl_reconcileQueue s = Some rq →
  enqueueReconcileEvent (W := W) t r p s = (Ret (), s') →
  ctl_reconcileQueue s' = Some (q_send (mkReconcileEvent t r p (w_now (net_world (ctl_net s))).1) rq) ∧
  ctl_failoverCheckQueue s' = ctl_failoverCheckQueue s ∧ (∀ g, gateway_of g s' = gateway_of g s) ∧
  trace_of s' = trace_of s ∧ ctl_targetMainIndex s' = ctl_targetMainIndex s.
Proof.
  intros Hq. unfold enqueueReconcileEvent, mbind, M_bind, cnet, zoom, call, gets.
  destruct (w_now _) as [now w]. simpl. rewrite Hq. intros [= <-].
  split; [done|]. split; [done|]. split; [by intros []|]. done.
Qed.

(** ** Properties *)


(** A deletion never asks for a failover, not even that of the main: the
    leader only queues a reconciliation and, when a replica's deletion took the
    read-only gateway's upstream away, moves that gateway.  An object that is
    not a pod makes the handler panic. *)
Theorem onPodDelete_spec s obj rq o s' :
  le_IsLeader (ctl_leaderElection s) = true → ctl_targetMainIndex s ≠ (-1)%Z →
  ctl_reconcileQueue s = Some rq →
  onPodDelete obj s = (o, s') →
  (obj = None → ∃ w, o = Panic w) ∧
  (∀ pod, obj = Some pod → o = Ret () →
     ctl_failoverCheckQueue s' = ctl_failoverCheckQueue s ∧
     (∃ now, ctl_reconcileQueue s' =
        Some (q_send (mkReconcileEvent "pod-delete" "pod-deleted" (pod_Name pod) now) rq)) ∧
     gateway_of false s' = gateway_of false s ∧
     (pod_Name pod = GetPodName config (ctl_targetMainIndex s) → gateway_of true s' = gateway_of true s)).
Proof.
  intros Hl Hi Hrq Hr. unfold onPodDelete in Hr.
  rewrite (bind_ret_run _ _ _ _ _ (IsLeader_run s)), Hl in Hr. simpl in Hr.
  rewrite (bind_ret_run _ _ _ _ _ (GetTargetMainIndex_loaded config configMapName s Hi)) in Hr.
  split; [intros ->; simpl in Hr; injection Hr as <- _; eauto|].
  intros pod -> ->. inv_bind Hr as p s1 H1. injection H1 as <- <-.
  inv_bind Hr as u s1 H1.
  assert (effects (λ _, False) s s1) as E1.
  { eapply keeps_run; [|exact H1]. apply keeps_world, keeps_InvalidatePodConnection. }
  pose proof (effects_gateway _ _ _ true E1 ltac:(done)) as Hgt.
  destruct (read_side_kept s s1) as (Hfq1 & Hrq1 & Hg1); [by eapply effects_mono; [|exact E1]|].
  inv_bind Hr as u' s2 H2.
  assert (effects read_side s1 s2) as E2.
  { eapply keeps_run; [|exact H2]. destruct (_ && _); [apply keeps_ret, _|apply keeps_replica_deleted]. }
  destruct (read_side_kept _ _ E2) as (Hfq2 & Hrq2 & Hg2).
  apply (enqueue_reconcile_run _ _ _ _ rq) in Hr as (Hq & Hf & Hg & _); [|congruence].
  split; [congruence|]. split; [by eexists|]. split; [by do 2 (etrans; [first [apply (Hg false)|exact Hg2]|])|].
  intros Hname. etrans; [apply (Hg true)|]. rewrite Hname in H2.
  rewrite (bool_decide_eq_true_2 (GetPodName _ _ = GetPodName _ _)) in H2 by done.
  rewrite bool_decide_eq_true_2 in H2; [injection H2 as _ <-; done|].
  unfold GetPodName. intros Habs. apply (f_equal String.length) in Habs.
  rewrite !string_length_app in Habs. simpl in Habs. lia.
Qed.
End Events.

(** ** Witnesses *)

Definition sim_target : Pod := sim_pod 0.
Definition sim_target_unready : Pod := unready_pod (GetPodName example_config 0) "10.0.0.1".

Definition update_run : outcome () * Ctl Sim :=
  onPodUpdate example_config "memgraph-state" (Some sim_target) (Some sim_target_unready) sim_failed.


Lemma onPodDelete_spec_witness :
  ctl_failoverCheckQueue
    (onPodDelete example_config "memgraph-state" (Some sim_target) sim_failed).2
    = Some newFailoverCheckQueue ∧
  ∃ w, (onPodDelete example_config "memgraph-state" None sim_failed).1 = Panic w.
Proof.
  split.
  - destruct (onPodDelete_spec example_config "memgraph-state" sim_failed (Some sim_target)
      newReconcileQueue (Ret ())
      (onPodDelete example_config "memgraph-state" (Some sim_target) sim_failed).2) as [_ Hp];
      [reflexivity|discriminate|reflexivity|vm_compute; reflexivity|].
    destruct (Hp sim_target eq_refl eq_refl) as [Hf _]. exact Hf.
  - destruct (onPodDelete_spec example_config "memgraph-state" sim_failed None newReconcileQueue _ _
      eq_refl ltac:(discriminate) eq_refl (surjective_pairing _)) as [Hn _].
    apply (Hn eq_refl).
Defined.
