(* ===== verification/Prober.v ===== *)
(** * The health prober at work: [internal/controller/prober.go]

    The checks of the main pod and of the read-only gateway's upstream, and what
    they trigger.  A goroutine a check starts ([go p.triggerFailover(ctx)]) is
    returned as a value of [spawn] and runs as a step of its own. *)

From S2P Require Import Prelude.
From S2P Require Import GoStrings.
From S2P Require Import GoTime.
From S2P Require Import Pods.
From S2P Require Import Config.
From S2P Require Import World.
From S2P Require Import MemgraphNode.
From S2P Require Import GatewayServer.
From S2P Require Import Queues.
From S2P Require Import LeaderElection.
From S2P Require Import ProberState.
From S2P Require Import ControllerState.
From S2P Require Import Sim.
From S2P Require Import Controller.
From S2P Require Import Failover.

Inductive spawn :=
  | TriggerFailover
  | TriggerReadGatewayUpstreamSwitch (failedUpstream : string).

Section Prober.
Context {W : Type} `{World W}.
Context (config : Config) (configMapName : string).

#[local] Abbreviation GetTargetMainIndex := (GetTargetMainIndex config configMapName).
#[local] Abbreviation getTargetMainNode := (getTargetMainNode config configMapName).
#[local] Abbreviation updateReadGatewayUpstream := (updateReadGatewayUpstream config configMapName).

(** An operation on the prober's own fields, under [p.mu]. *)
Definition prober {A} (f : HealthProber → A * HealthProber) : M (Ctl W) A := λ s,
  match ctl_healthProber s with
  | None => (Panic nil_deref, s)
  | Some p => let '(a, p') := f p in (Ret a, set_healthProber (Some p') s)
  end.

Definition fail_main : M (Ctl W) (list spawn) :=
  triggered ← prober recordFailure;
  mret (if triggered : bool then [TriggerFailover] else []).

Definition fail_read_gateway (upstreamAddress : string) : M (Ctl W) (list spawn) :=
  triggered ← prober recordReadGatewayFailure;
  mret (if triggered : bool then [TriggerReadGatewayUpstreamSwitch upstreamAddress] else []).

(** The first node in the iteration whose address it is. *)
Fixpoint find_by_address (upstreamAddress : string) (keys : list string) : M (Ctl W) (result string) :=
  match keys with
  | [] => mret (Err (Errorf ("upstream node not found for address: " +:+ upstreamAddress)))
  | podName :: keys =>
      a ← on_node podName (field GetBoltAddress);
      match a with
      | Ok nodeAddress =>
          if bool_decide (nodeAddress = upstreamAddress) then mret (Ok podName)
          else find_by_address upstreamAddress keys
      | Err _ => find_by_address upstreamAddress keys
      end
  end.

Definition findUpstreamNode (upstreamAddress : string) : M (Ctl W) (result string) :=
  let n := String.length upstreamAddress in
  if bool_decide (n ≤ 5) || bool_decide (string_drop (n - 5) upstreamAddress ≠ ":7687")
  then mret (Err (Errorf ("invalid upstream address format: " +:+ upstreamAddress)))
  else
    nodes ← get_nodes;
    keys ← cnet (range_keys nodes);
    find_by_address upstreamAddress keys.

Definition performReadGatewayUpstreamHealthCheck : M (Ctl W) (list spawn) :=
  disabled ← gw_nil true;
  if disabled : bool then mret []
  else
    currentUpstream ← gw_GetUpstreamAddress true;
    if bool_decide (currentUpstream = "") then
      _ ← prober (λ p, ((), resetReadGatewayFailures p)); mret []
    else
      let? upstreamNode := findUpstreamNode currentUpstream orelse _err =>
        fail_read_gateway currentUpstream in
      check? on_node upstreamNode (Ping config) orelse _err =>
        fail_read_gateway currentUpstream in
      _ ← prober (λ p, ((), recordReadGatewaySuccess p));
      mret [].

(** The main pod's part of [performHealthCheck]: did the ping succeed? *)
Definition check_main : M (Ctl W) bool :=
  let? _index := GetTargetMainIndex orelse _err => mret false in
  let? targetMainNode := getTargetMainNode orelse _err => mret false in
  check? on_node targetMainNode (Ping config) orelse _err => mret false in
  mret true.

Definition performHealthCheck : M (Ctl W) (list spawn) :=
  ok ← check_main;
  if negb ok then fail_main
  else
    _ ← prober (λ p, ((), recordSuccess p));
    performReadGatewayUpstreamHealthCheck.

Definition triggerFailover : M (Ctl W) () :=
  fq ← gets ctl_failoverCheckQueue;
  match fq with
  | None => mret ()
  | Some _ =>
      let? targetMainIndex := GetTargetMainIndex orelse _err => mret () in
      let targetMainPodName := GetPodName config targetMainIndex in
      now ← cnet (call w_now);
      let event := mkFailoverCheckEvent "" "health-check-failure" targetMainPodName now in
      modify (λ s, set_failoverCheckQueue (q_send event <$> ctl_failoverCheckQueue s) s)
  end.

Definition triggerReadGatewayUpstreamSwitch (failedUpstream : string) : M (Ctl W) () :=
  _ ← updateReadGatewayUpstream;
  newUpstream ← gw_GetUpstreamAddress true;
  if bool_decide (newUpstream ≠ failedUpstream) then prober (λ p, ((), resetReadGatewayFailures p))
  else mret ().

Definition run_spawn (g : spawn) : M (Ctl W) () :=
  match g with
  | TriggerFailover => triggerFailover
  | TriggerReadGatewayUpstreamSwitch a => triggerReadGatewayUpstreamSwitch a
  end.

(** ** Steps that only look

    [looks]: read queries only; the target index, the gateways and the identity
    of the nodes stay.  Unlike [effects reads] it leaves the queues and the
    prober free. *)
Definition looks : relation (Ctl W) := λ s s',
  ∃ evs, trace_of s' = trace_of s ++ evs ∧ Forall reads evs ∧ ids s' = ids s ∧
    (∀ r, gateway_of r s' = gateway_of r s) ∧ index_kept s s' ∧ lifecycle s' = lifecycle s.

Global Instance looks_preorder : PreOrder looks.
Proof.
  split.
  - intros s. exists []. rewrite app_nil_r. split_and!; done.
  - intros s1 s2 s3 (e1 & T1 & F1 & N1 & G1 & I1 & L1) (e2 & T2 & F2 & N2 & G2 & I2 & L2).
    exists (e1 ++ e2). rewrite T2, T1, app_assoc. split; [done|].
    split; [by apply Forall_app|]. split; [congruence|]. split; [intros r; by rewrite G2|].
    split; [by etrans|congruence].
Qed.

Lemma effects_looks s s' : effects reads s s' → looks s s'.
Proof.
  intros He. pose proof (effects_lifecycle _ _ _ He) as HL.
  destruct He as (_ & evs & T & F & G & I & N). exists evs. split; [done|]. split; [done|].
  assert (∀ Q : io → Prop, (∀ a q, Q (IoQuery a q)) → Forall Q evs) as HQ.
  { intros Q HQ. eapply Forall_impl; [exact F|]. intros e (a & q & -> & _). apply HQ. }
  split; [apply N; by apply HQ|]. split; [intros r; apply G, HQ; by intros ? ? []|].
  split; [|done]. apply I, HQ. by intros ? ? [].
Qed.

Lemma keeps_looks {A} (m : M (Ctl W) A) : keeps (effects reads) m → keeps looks m.
Proof. intros Hm. eapply keeps_weaken; [exact Hm|]. intros ? ?. apply effects_looks. Qed.

(** The queues, the flag and the prober are not looked at. *)
Lemma looks_unseen s s' :
  trace_of s' = trace_of s → ids s' = ids s → (∀ r, gateway_of r s' = gateway_of r s) →
  ctl_targetMainIndex s' = ctl_targetMainIndex s → lifecycle s' = lifecycle s → looks s s'.
Proof. intros T N G I L. exists []. rewrite app_nil_r. split_and!; [done..|by left|done]. Qed.

Lemma keeps_prober {A} (f : HealthProber → A * HealthProber) : keeps looks (prober f).
Proof.
  intros s. unfold prober. destruct (ctl_healthProber s) as [p|]; [|reflexivity].
  destruct (f p) as [a p']. by apply looks_unseen.
Qed.

Lemma looks_set_queue q s : looks s (set_failoverCheckQueue q s).
Proof. by apply looks_unseen. Qed.

Lemma looks_set_needed b s : looks s (set_failoverCheckNeeded b s).
Proof. by apply looks_unseen. Qed.

Lemma looks_loaded s s' :
  looks s s' → ctl_targetMainIndex s ≠ (-1)%Z → ctl_targetMainIndex s' ≠ (-1)%Z.
Proof. intros (_ & _ & _ & _ & _ & I & _) Hi. by rewrite (index_kept_loaded _ _ I Hi). Qed.

Lemma looks_index : keeps looks GetTargetMainIndex.
Proof. apply keeps_looks, keeps_GetTargetMainIndex. Qed.
Lemma looks_node : keeps looks getTargetMainNode.
Proof. apply keeps_looks, keeps_getTargetMainNode. Qed.
Lemma looks_ping k : keeps looks (on_node k (Ping config)).
Proof. by apply keeps_looks, keeps_node_ping. Qed.
Lemma looks_field {A} k (f : MemgraphNode → A) : keeps looks (on_node k (field f)).
Proof. by apply keeps_looks, keeps_node_field. Qed.
Lemma looks_nodes : keeps looks get_nodes.
Proof. apply keeps_looks, keeps_get_nodes. Qed.
Lemma looks_keys {V} (m : gmap string V) : keeps looks (cnet (range_keys m)).
Proof. by apply keeps_looks, keeps_keys. Qed.
Lemma looks_gw r : keeps looks (gw_GetUpstreamAddress r).
Proof. apply keeps_looks, keeps_gw_GetUpstreamAddress. Qed.
#[local] Hint Resolve keeps_prober looks_index looks_node looks_ping looks_field looks_nodes
  looks_keys looks_gw : keeps.

Lemma looks_find a keys : keeps looks (find_by_address a keys).
Proof. induction keys; simpl; solve_keeps. Qed.
#[local] Hint Resolve looks_find : keeps.

Lemma looks_check_main : keeps looks check_main.
Proof. unfold check_main. solve_keeps. Qed.

Lemma looks_read_check : keeps looks performReadGatewayUpstreamHealthCheck.
Proof.
  unfold performReadGatewayUpstreamHealthCheck, findUpstreamNode, fail_read_gateway. solve_keeps.
Qed.

Lemma keeps_check_main : keeps (effects reads) check_main.
Proof. unfold check_main. assert (∀ e, reads e → reads e) by done. solve_keeps. Qed.

(** The read-only gateway's check does not touch the main pod's counter and
    does not start a failover. *)
Lemma prober_run {A} (f : HealthProber → A * HealthProber) s p a s' :
  ctl_healthProber s = Some p → prober f s = (Ret a, s') →
  ctl_healthProber s' = Some (f p).2 ∧ a = (f p).1.
Proof.
  unfold prober. intros ->. destruct (f p) as [b p']. by intros [= <- <-].
Qed.

Lemma find_by_address_prober a keys s r s' :
  find_by_address a keys s = (Ret r, s') → s' = s.
Proof.
  revert s. induction keys as [|k keys IH]; intros s Hr; simpl in Hr; [by injection Hr|].
  inv_bind Hr as b s1 H1. apply on_node_field_run in H1 as [-> _].
  destruct b; [case_bool_decide|]; [by injection Hr| |]; eauto.
Qed.

Lemma findUpstreamNode_prober a s r s' :
  findUpstreamNode a s = (Ret r, s') → ctl_healthProber s' = ctl_healthProber s.
Proof.
  unfold findUpstreamNode. intros Hr. destruct (_ || _); [by injection Hr as _ <-|].
  inv_bind Hr as nodes s1 H1. apply get_nodes_inv in H1 as [-> _].
  inv_bind Hr as keys s1 H1. apply find_by_address_prober in Hr as ->.
  pose proof (keeps_run _ _ _ _ _ (keeps_keys reads nodes) H1) as He.
  pose proof (effects_others _ _ _ He) as Ho. unfold others in Ho. congruence.
Qed.

Definition main_side (p : HealthProber) : Z * bool * ProberConfig :=
  (p_consecutiveFailures p, p_lastHealthStatus p, p_config p).

Lemma fail_read_gateway_run a s p sp s' :
  ctl_healthProber s = Some p → fail_read_gateway a s = (Ret sp, s') →
  (TriggerFailover ∉ sp) ∧ ∃ p', ctl_healthProber s' = Some p' ∧ main_side p' = main_side p.
Proof.
  intros Hp Hr. unfold fail_read_gateway in Hr. inv_bind Hr as t s1 H1.
  apply (prober_run _ _ _ _ _ Hp) in H1 as [Hp' _]. injection Hr as <- <-.
  split; [destruct t; set_solver|]. by eexists.
Qed.

Lemma read_check_main_side s p sp s' :
  ctl_healthProber s = Some p → performReadGatewayUpstreamHealthCheck s = (Ret sp, s') →
  (TriggerFailover ∉ sp) ∧ ∃ p', ctl_healthProber s' = Some p' ∧ main_side p' = main_side p.
Proof.
  intros Hp Hr. unfold performReadGatewayUpstreamHealthCheck in Hr. inv_bind Hr as d s1 H1.
  injection H1 as <- <-. destruct (is_nil _); [injection Hr as <- <-; split; [set_solver|eauto]|].
  inv_bind Hr as a s1 H1. unfold gw_GetUpstreamAddress in H1.
  destruct (gateway_of true s); [|done]. injection H1 as <- <-.
  case_bool_decide.
  { inv_bind Hr as u s1 H1. apply (prober_run _ _ _ _ _ Hp) in H1 as [Hp' _]. injection Hr as <- <-.
    split; [set_solver|]. eexists. split; [exact Hp'|]. simpl. unfold resetReadGatewayFailures.
    by case_bool_decide. }
  inv_bind Hr as k s1 H1. apply findUpstreamNode_prober in H1. rewrite Hp in H1.
  destruct k as [k|e]; [|by eapply fail_read_gateway_run].
  inv_bind Hr as e s2 H2.
  assert (ctl_healthProber s2 = Some p) as Hp2.
  { pose proof (keeps_run _ _ _ _ _ (keeps_node_ping config reads ltac:(done) k) H2) as He.
    pose proof (effects_others _ _ _ He) as Ho. unfold others in Ho. congruence. }
  destruct e as [e|]; [by eapply fail_read_gateway_run|].
  inv_bind Hr as u s3 H3. apply (prober_run _ _ _ _ _ Hp2) in H3 as [Hp' _]. injection Hr as <- <-.
  split; [set_solver|]. by eexists.
Qed.

(** C39. One health check.  It only looks: read queries, no gateway, index or
    node changed.  A failed check of the main counts one more failure and starts
    a failover check exactly when that count is the threshold; a successful one
    resets the count and starts none, whatever the read-only gateway's upstream
    answers. *)
Theorem performHealthCheck_spec s p sp s' :
  ctl_healthProber s = Some p → performHealthCheck s = (Ret sp, s') →
  looks s s' ∧
  ∃ ok s1 p', check_main s = (Ret ok, s1) ∧ ctl_healthProber s' = Some p' ∧
    (TriggerFailover ∈ sp ↔ ok = false ∧
       int64 (p_consecutiveFailures p + 1) = pc_FailureThreshold (p_config p)) ∧
    p_lastHealthStatus p' = ok ∧
    p_consecutiveFailures p' = (if ok then 0 else int64 (p_consecutiveFailures p + 1))%Z.
Proof.
  intros Hp Hr. unfold performHealthCheck in Hr. inv_bind Hr as ok s1 H1.
  pose proof (keeps_run _ _ _ _ _ keeps_check_main H1) as E1.
  assert (ctl_healthProber s1 = Some p) as Hp1.
  { pose proof (effects_others _ _ _ E1) as Ho. unfold others in Ho. congruence. }
  apply effects_looks in E1. destruct ok; simpl in Hr.
  - inv_bind Hr as u s2 H2. pose proof (keeps_run _ _ _ _ _ (keeps_prober _) H2) as E2.
    apply (prober_run _ _ _ _ _ Hp1) in H2 as [Hp2 _].
    pose proof (keeps_run _ _ _ _ _ looks_read_check Hr) as E3.
    apply (read_check_main_side _ _ _ _ Hp2) in Hr as (Hnin & p' & Hp' & Hms).
    injection Hms as Hc Hl _. split; [by do 2 (etrans; [eassumption|])|].
    exists true, s1, p'. split; [done|]. split; [done|]. split; [naive_solver|]. by rewrite Hl, Hc.
  - unfold fail_main in Hr. inv_bind Hr as t s2 H2.
    pose proof (keeps_run _ _ _ _ _ (keeps_prober _) H2) as E2.
    apply (prober_run _ _ _ _ _ Hp1) in H2 as [Hp2 ->]. injection Hr as <- <-.
    split; [by etrans|]. exists false, s1, (recordFailure p).2. split; [done|]. split; [done|].
    split; [|done]. simpl. case_bool_decide; set_solver.
Qed.

Lemma triggerFailover_run s fq s' :
  ctl_targetMainIndex s ≠ (-1)%Z → ctl_failoverCheckQueue s = Some fq →
  triggerFailover s = (Ret (), s') →
  looks s s' ∧ ctl_leaderElection s' = ctl_leaderElection s ∧ ∃ now,
    ctl_failoverCheckQueue s' = Some (q_send (mkFailoverCheckEvent "" "health-check-failure"
      (GetPodName config (ctl_targetMainIndex s)) now) fq).
Proof.
  intros Hi Hfq Hr. unfold triggerFailover in Hr. inv_bind Hr as q s1 H1. injection H1 as <- <-.
  rewrite Hfq in Hr. inv_bind Hr as idx s1 H1. rewrite GetTargetMainIndex_loaded in H1 by done.
  injection H1 as <- <-. unfold mbind, M_bind, cnet, zoom, call in Hr.
  destruct (w_now _) as [now w]. injection Hr as <-. simpl. rewrite Hfq.
  split; [|split; [done|by exists now]].
  by apply looks_unseen.
Qed.

(** Handling such an event looks only. *)
Lemma handle_health_event s p now s' :
  ctl_targetMainIndex s ≠ (-1)%Z →
  handleFailoverCheckEvent config configMapName
    (mkFailoverCheckEvent "" "health-check-failure" p now) s = (Ret (), s') → looks s s'.
Proof.
  intros Hi Hr. unfold handleFailoverCheckEvent in Hr. inv_bind Hr as l s1 H1.
  injection H1 as <- <-. destruct (le_IsLeader _); simpl in Hr; [|by injection Hr as <-].
  inv_bind Hr as q s1 H1. injection H1 as <- <-. destruct (ctl_failoverCheckQueue s) as [q|]; [|done].
  inv_bind Hr as t s1 H1.
  pose proof (keeps_run _ _ _ _ _ (keeps_world reads (call w_now) (keeps_call_emits _ _)) H1) as E1.
  apply effects_looks in E1.
  destruct (q_admit _ _ _ _) as [[] q']; simpl in Hr; [|by injection Hr as <-].
  inv_bind Hr as u s2 H2. injection H2 as _ <-. inv_bind Hr as e s3 H3. injection Hr as <-.
  pose proof (looks_set_queue (Some q') s1) as E2.
  apply health_check_reads in H3 as (E3 & _); [|by eapply looks_loaded; [|exact Hi]; etrans|done].
  apply effects_looks in E3.
  etrans; [exact E1|]. etrans; [exact E2|]. etrans; [exact E3|]. apply looks_set_needed.
Qed.

(** C23. The prober cannot cause a failover.  The event it queues when the main
    stopped answering, once a leader takes it from the queue, makes the
    controller ping the main once more and stop there: nothing is promoted, and
    the target index and both gateways are what they were before. *)
Theorem prober_never_fails_over s fq o s' :
  ctl_targetMainIndex s ≠ (-1)%Z → ctl_failoverCheckQueue s = Some fq → q_events fq = [] →
  (0 < q_cap fq) →
  (_ ← triggerFailover; processFailoverCheckQueue_step config configMapName) s = (Ret o, s') →
  ∃ evs, trace_of s' = trace_of s ++ evs ∧ Forall reads evs ∧
    ctl_targetMainIndex s' = ctl_targetMainIndex s ∧ ∀ r, gateway_of r s' = gateway_of r s.
Proof.
  intros Hi Hfq Hempty Hcap Hr. inv_bind Hr as u s1 H1. destruct u.
  apply (triggerFailover_run _ fq) in H1 as (L1 & Hle & now & Hq); [|done..].
  pose proof (looks_loaded _ _ L1 Hi) as Hi1.
  assert (looks s1 s') as L2.
  { unfold processFailoverCheckQueue_step in Hr. inv_bind Hr as q s2 H2. injection H2 as <- <-.
    rewrite Hq in Hr. unfold q_send, q_receive in Hr. rewrite Hempty in Hr.
    rewrite bool_decide_eq_true_2 in Hr by done. simpl in Hr.
    inv_bind Hr as u s2 H2. injection H2 as _ <-.
    destruct o. apply handle_health_event in Hr; [|done].
    etrans; [apply looks_set_queue|exact Hr]. }
  assert (looks s s') as (evs & T & F & _ & G & I & _) by (by etrans).
  exists evs. split; [done|]. split; [done|]. split; [by apply index_kept_loaded|done].
Qed.
End Prober.

(** ** Witnesses: the main is down *)

Definition sim_twice_failed : Ctl Sim :=
  set_healthProber (Some (recordFailure (recordFailure (NewHealthProber DefaultProberConfig)).2).2)
    sim_failed.

Definition check_run : outcome (list spawn) * Ctl Sim :=
  performHealthCheck example_config "memgraph-state" sim_twice_failed.

Lemma performHealthCheck_spec_witness :
  check_run.1 = Ret [TriggerFailover] ∧ looks sim_twice_failed check_run.2.
Proof.
  split; [vm_compute; reflexivity|].
  refine (proj1 (performHealthCheck_spec example_config "memgraph-state" sim_twice_failed _
    [TriggerFailover] check_run.2 eq_refl _)).
  vm_compute. reflexivity.
Defined.

Lemma prober_never_fails_over_witness :
  ctl_targetMainIndex
    ((_ ← triggerFailover example_config "memgraph-state";
      processFailoverCheckQueue_step example_config "memgraph-state") sim_twice_failed).2 = 0%Z.
Proof.
  destruct (prober_never_fails_over example_config "memgraph-state" sim_twice_failed
    newFailoverCheckQueue ()
    ((_ ← triggerFailover example_config "memgraph-state";
      processFailoverCheckQueue_step example_config "memgraph-state") sim_twice_failed).2)
    as (evs & _ & _ & Hi & _);
    [discriminate|reflexivity|reflexivity|apply Nat.ltb_lt; vm_compute; reflexivity|vm_compute; reflexivity|].
  exact Hi.
Defined.
