(* ===== verification/Lifecycle.v ===== *)
(** * Starting and stopping: [internal/controller/controller_core.go],
    [controller_reconcile.go], [controller_events.go] and [leader_election.go]

    The beginning of [Run], the shutdown the main function performs, the
    leadership callbacks, and the reset of all connections by the admin API. *)

From S2P Require Import Prelude.
From S2P Require Import GoStrings.
From S2P Require Import Config.
From S2P Require Import World.
From S2P Require Import ConnectionPool.
From S2P Require Import ConnectionTracker.
From S2P Require Import GatewayServer.
From S2P Require Import Metrics.
From S2P Require Import Queues.
From S2P Require Import LeaderElection.
From S2P Require Import ProberState.
From S2P Require Import ControllerState.
From S2P Require Import Sim.
From S2P Require Import Controller.
From S2P Require Import Failover.
From S2P Require Import Reconcile.

Section Lifecycle.
Context {W : Type} `{World W}.

(** [Run] up to its loop: [isRunning] guards against a second loop. *)
Definition Run_start : M (Ctl W) (option error) :=
  running ← gets ctl_isRunning;
  if running : bool then
    mret (Some (Errorf "controller reconciliation loop is already running"))
  else
    _ ← modify (set_isRunning true);
    _ ← modify (λ s, set_healthProber ((λ p, (p_Start p).2) <$> ctl_healthProber s) s);
    mret None.

Definition IsRunning : M (Ctl W) bool := gets ctl_isRunning.

(** [close(c.stopCh)] if the channel exists; closing it twice panics. *)
Definition close_stopCh : M (Ctl W) () :=
  stopCh ← gets ctl_stopCh;
  match stopCh with
  | None => mret ()
  | Some true => panic "close of closed channel"
  | Some false => modify (set_stopCh (Some true))
  end.

Definition StopInformers : M (Ctl W) () := close_stopCh.

Definition StopGatewayServer : M (Ctl W) (option error) := mret None.

(** [stop], run by [Run] when its context ends. *)
Definition stop : M (Ctl W) () :=
  running ← gets ctl_isRunning;
  if negb running then mret ()
  else
    _ ← modify (set_isRunning false);
    _ ← close_stopCh;
    _ ← stopReconcileQueue;
    stopFailoverCheckQueue.

(** [Shutdown], run by the signal handler before it cancels the context. *)
Definition Shutdown : M (Ctl W) (option error) :=
  _ ← modify (λ s, set_healthProber (p_Stop <$> ctl_healthProber s) s);
  _ ← StopGatewayServer;
  _ ← StopInformers;
  mret None.

Definition onStartLeading : M (Ctl W) () :=
  le ← gets ctl_leaderElection;
  let '(newLeader, le) := le_start le in
  _ ← modify (set_leaderElection le);
  _ ← prom (UpdateLeadershipStatus true);
  _ ← (if newLeader : bool then prom RecordLeadershipChange else mret ());
  prom RecordElection.

Definition onStopLeading : M (Ctl W) () :=
  modify (λ s, set_leaderElection (le_stop (ctl_leaderElection s)) s).

(** [GetCurrentLeader]: the holder of the election's lease. *)
Definition GetCurrentLeader (config : Config) : M (Ctl W) (result string) :=
  let? holder := cnet (call (w_lease_holder (Namespace config) "memgraph-controller-leader"))
    orelse err => mret (Err (Wrapf "failed to get leader lease" err)) in
  match holder with
  | None => mret (Err (Errorf "no current leader"))
  | Some holderIdentity => mret (Ok holderIdentity)
  end.

Definition disconnect_gateway (read : bool) : M (Ctl W) () :=
  nogw ← gw_nil read;
  if nogw : bool then mret () else gw_DisconnectAll read.

Definition ResetAllConnections : M (Ctl W) Z :=
  controllerConnections ← cnet (gets (λ n, Z.of_nat (size (cp_drivers (net_pool n)))));
  _ ← cnet cp_Close;
  _ ← disconnect_gateway false;
  _ ← disconnect_gateway true;
  mret controllerConnections.

(** ** Properties *)

(** An orderly shutdown panics.  The signal handler closes the informers'
    stop channel in Shutdown and then cancels the context, upon which the
    running loop's stop closes the same channel again; a loop that ends first
    leaves the same double close to Shutdown. *)
Theorem shutdown_closes_twice s :
  ctl_isRunning s = true → ctl_stopCh s = Some false →
  (∃ w, ((_ ← Shutdown; stop) s).1 = Panic w) ∧ (∃ w, ((_ ← stop; Shutdown) s).1 = Panic w) ∧
  (∃ s', Shutdown s = (Ret None, s')) ∧ (∃ s', stop s = (Ret (), s')).
Proof.
  intros Hrun Hch.
  destruct s; simpl in Hrun, Hch; subst. repeat split; by eexists.
Qed.

Lemma cp_Close_run n o n' : cp_Close n = (Ret o, n') → net_pool n' = mkPool ∅ ∅.
Proof.
  unfold cp_Close. intros Hr. inv_bind Hr as d n1 H1. inv_bind Hr as k n2 H2.
  inv_bind Hr as u n3 H3. by injection Hr as _ <-.
Qed.

Lemma disconnect_gateway_run r s o s' :
  disconnect_gateway r s = (Ret o, s') →
  gateway_of r s' = DisconnectAll <$> gateway_of r s ∧
  gateway_of (negb r) s' = gateway_of (negb r) s ∧ net_pool (ctl_net s') = net_pool (ctl_net s).
Proof.
  intros Hr. unfold disconnect_gateway in Hr. inv_bind Hr as b s1 H1. injection H1 as <- <-.
  unfold gw_DisconnectAll in Hr. destruct o, r; simpl in *.
  - destruct (ctl_readGatewayServer s) eqn:Hg; simpl in *; rewrite ?Hg in Hr;
      injection Hr as <-; by rewrite ?Hg.
  - destruct (ctl_gatewayServer s) eqn:Hg; simpl in *; rewrite ?Hg in Hr;
      injection Hr as <-; by rewrite ?Hg.
Qed.

(** The admin reset: the reply counts the pooled drivers, the pool is empty
    afterwards, and every session of both gateways is closed while their
    upstreams stay. *)
Theorem ResetAllConnections_spec s n s' :
  ResetAllConnections s = (Ret n, s') →
  n = Z.of_nat (size (cp_drivers (net_pool (ctl_net s)))) ∧
  net_pool (ctl_net s') = NewConnectionPool ∧
  ∀ r g, gateway_of r s = Some g → gateway_of r s' = Some (DisconnectAll g) ∧
    upstream r s' = upstream r s.
Proof.
  intros Hr. unfold ResetAllConnections in Hr. inv_bind Hr as c s1 H1.
  unfold cnet, zoom, gets in H1. injection H1 as <- <-.
  inv_bind Hr as u s1 H1. unfold cnet, zoom in H1. simpl in H1.
  destruct (cp_Close (ctl_net s)) as [o net'] eqn:Hc. injection H1 as -> <-.
  apply cp_Close_run in Hc. inv_bind Hr as u1 s2 H2. inv_bind Hr as u2 s3 H3.
  injection Hr as <- <-. apply disconnect_gateway_run in H2 as (Hm & Hm' & Hp).
  apply disconnect_gateway_run in H3 as (Hg & Hg' & Hp').
  split; [done|]. split; [by rewrite Hp', Hp|].
  assert (∀ r, gateway_of r s3 = DisconnectAll <$> gateway_of r s) as Hall.
  { intros [].
    - etrans; [exact Hg|]. f_equal. exact Hm'.
    - etrans; [exact Hg'|]. exact Hm. }
  intros r g Hrg. unfold upstream. rewrite Hall, Hrg. split; [done|]. simpl.
  by rewrite DisconnectAll_upstream.
Qed.

(** Only one control loop: while it runs a second [Run] is refused and
    changes nothing, and after [stop] the loop may be started again. *)
Theorem single_loop s :
  (ctl_isRunning s = true → ∃ e, Run_start s = (Ret (Some e), s)) ∧
  (ctl_isRunning s = false → ∃ s', Run_start s = (Ret None, s') ∧ ctl_isRunning s' = true) ∧
  (∀ s', stop s = (Ret (), s') → ctl_isRunning s' = false).
Proof.
  destruct s as [? ? ? ? ? ? ? ? ? running ch ? ? ?].
  split; [simpl; intros ->; by eexists|]. split; [simpl; intros ->; by eexists|].
  intros s' Hr. destruct running; [|by injection Hr as <-].
  destruct ch as [[]|]; [done|by injection Hr as <-..].
Qed.
End Lifecycle.

(** ** Witnesses *)

Definition sim_running : Ctl Sim := set_isRunning true sim_failed.

Lemma shutdown_closes_twice_witness :
  ∃ w, ((_ ← Shutdown; stop) sim_running).1 = Panic w.
Proof. apply (shutdown_closes_twice sim_running); reflexivity. Defined.

Lemma ResetAllConnections_spec_witness :
  net_pool (ctl_net (ResetAllConnections sim_failed).2) = NewConnectionPool ∧
  upstream true (ResetAllConnections sim_failed).2 = Some (sim_bolt 1).
Proof.
  destruct (ResetAllConnections_spec sim_failed 0 (ResetAllConnections sim_failed).2)
    as (_ & Hp & Hg); [vm_compute; reflexivity|].
  split; [exact Hp|]. rewrite (proj2 (Hg true _ eq_refl)). vm_compute. reflexivity.
Defined.
