(* ===== verification/Status.v ===== *)
(** * The cluster status: [GetClusterStatus] of
      [internal/controller/controller_core.go], [status_api.go] and the response
      types of [internal/httpapi/types.go]

    Every instance serves the status, leader or not.  A nil slice, which JSON
    shows as [null], is [None] where the code distinguishes it. *)

From Stdlib Require Import String.
From S2P Require Import Prelude.
From S2P Require Import GoStrings.
From S2P Require Import DataInfo.
From S2P Require Import Pods.
From S2P Require Import Config.
From S2P Require Import World.
From S2P Require Import MemgraphClient.
From S2P Require Import MemgraphNode.
From S2P Require Import GatewayServer.
From S2P Require Import Metrics.
From S2P Require Import ProberState.
From S2P Require Import ControllerState.
From S2P Require Import Sim.
From S2P Require Import Controller.
From S2P Require Import Reconcile.
From S2P Require Import Lifecycle.

Record StatusInconsistency := mkInconsistency {
  in_Description : string;
  in_MemgraphRole : string;
}.

Record PodStatus := mkPodStatus {
  ps_Name : string;
  ps_State : string;
  ps_MemgraphRole : string;
  ps_IPAddress : string;
  ps_Timestamp : Z;
  ps_Healthy : bool;
  ps_ReplicasRegistered : option (list string);
  ps_Inconsistency : option StatusInconsistency;
}.

Record ReplicaRegistration := mkRegistration {
  rr_Name : string;
  rr_PodName : string;
  rr_Address : string;
  rr_SyncMode : string;
  rr_IsHealthy : bool;
}.

Record GatewayConnectionStats := mkConnectionStats {
  gc_ActiveConnections : Z;
  gc_TotalConnections : Z;
  gc_RejectedConnections : Z;
  gc_Errors : Z;
}.

Record HealthCheckStats := mkHealthCheckStats {
  hc_ConsecutiveFailures : Z;
  hc_LastHealthStatus : bool;
}.

Record ReadGatewayStatus := mkReadGatewayStatus {
  rg_Enabled : bool;
  rg_CurrentUpstream : string;
  rg_UpstreamPodName : string;
  rg_UpstreamHealthy : bool;
  rg_ConnectionStats : GatewayConnectionStats;
  rg_HealthCheckStats : HealthCheckStats;
}.

Record ClusterStatus := mkClusterStatus {
  cs_CurrentMain : string;
  cs_CurrentSyncReplica : string;
  cs_TotalPods : Z;
  cs_HealthyPods : Z;
  cs_UnhealthyPods : Z;
  cs_SyncReplicaHealthy : bool;
  cs_ReconciliationMetrics : ReconciliationMetrics;
  cs_ReplicaRegistrations : list ReplicaRegistration;
  cs_ReadGatewayStatus : option ReadGatewayStatus;
}.

Record StatusResponse := mkStatusResponse {
  sr_Timestamp : Z;
  sr_ClusterState : ClusterStatus;
  sr_Pods : list PodStatus;
}.

Section Status.
Context {W : Type} `{World W}.
Context (config : Config) (configMapName : string).

(** [convertMemgraphNodeToStatus] *)
Definition node_role : M (NodeNet W) string :=
  r ← GetReplicationRole config false; mret r.1.

Definition unreachable (memgraphRole : string) : StatusInconsistency :=
  mkInconsistency "Pod is unreachable - cannot query Memgraph status" memgraphRole.

Definition convertMemgraphNodeToStatus (healthy : bool) : M (NodeNet W) PodStatus :=
  inconsistency ← (if negb healthy then
                     role ← node_role;
                     let memgraphRole := if bool_decide (role ≠ "") then role else "unknown" in
                     mret (Some (unreachable memgraphRole))
                   else mret None);
  replicas ← GetReplicas config false;
  let replicasRegistered :=
    match replicas with Ok rs => Some (map ri_Name rs) | Err _ => None end in
  role ← node_role;
  node ← field id;
  mret (mkPodStatus (mn_name node) "unknown" role (mn_ipAddress node) (mn_timestamp node) healthy
          replicasRegistered inconsistency).

Definition registration_of (replica : ReplicaInfo) : ReplicaRegistration :=
  mkRegistration (ri_Name replica) (ri_GetPodName replica) (ri_SocketAddress replica)
    (ri_SyncMode replica) (ri_IsHealthy replica).

(** [getUpstreamPodName]: the first node, in the order of the range loop, with
    this Bolt address. *)
Fixpoint find_address (address : string) (keys : list string) : M (Ctl W) string :=
  match keys with
  | [] => mret ""
  | podName :: keys =>
      nodeAddress ← on_node podName (field GetBoltAddress);
      match nodeAddress with
      | Ok nodeAddress =>
          if bool_decide (nodeAddress = address) then mret podName else find_address address keys
      | Err _ => find_address address keys
      end
  end.

Definition getUpstreamPodName (upstreamAddress : string) : M (Ctl W) string :=
  let len := String.length upstreamAddress in
  if bool_decide (len < 6) || bool_decide (string_drop (len - 5) upstreamAddress ≠ ":7687") then
    mret ""
  else
    nodes ← get_nodes;
    keys ← cnet (range_keys nodes);
    find_address upstreamAddress keys.

Definition getReadGatewayStatus : M (Ctl W) (option ReadGatewayStatus) :=
  gateway ← gets ctl_readGatewayServer;
  match gateway with
  | None => mret None
  | Some g =>
      let gatewayStats := srv_GetStats g in
      let currentUpstream := GetUpstreamAddress g in
      prober ← gets ctl_healthProber;
      let healthCheckStats :=
        match prober with
        | Some p => mkHealthCheckStats (p_readGatewayConsecutiveFailures p)
                      (p_lastReadGatewayHealthStatus p)
        | None => mkHealthCheckStats 0 true
        end in
      upstreamPodName ← (if bool_decide (currentUpstream ≠ "")
                         then getUpstreamPodName currentUpstream else mret "");
      let upstreamHealthy :=
        bool_decide (currentUpstream ≠ "") && hc_LastHealthStatus healthCheckStats &&
        bool_decide (hc_ConsecutiveFailures healthCheckStats = 0)%Z in
      mret (Some (mkReadGatewayStatus true currentUpstream upstreamPodName upstreamHealthy
        (mkConnectionStats (gs_ActiveConnections gatewayStats) (gs_TotalConnections gatewayStats)
           (gs_RejectedConnections gatewayStats) (gs_Errors gatewayStats))
        healthCheckStats))
  end.

(** One pod of the counting loop: the healthy pods so far and the sync replica
    found ("" for none). *)
Definition count_healthy (acc : Z * option string) (podName : string)
    : M (Ctl W) (Z * option string) :=
  let '(healthyCount, syncReplica) := acc in
  let? cachedPod := getPodFromCache config podName orelse _err => mret acc in
  if negb (isPodReady cachedPod) then mret acc
  else
    let? target := getTargetSyncReplicaNode config configMapName orelse _err =>
      mret (healthyCount + 1, syncReplica)%Z in
    name ← GetName target;
    mret (healthyCount + 1, if bool_decide (podName = name) then Some podName else syncReplica)%Z.

Definition pod_status (podName : string) : M (Ctl W) PodStatus :=
  name ← GetName podName;
  pod ← getPodFromCache config name;
  let healthy := match pod with Ok pod => isPodReady pod | Err _ => false end in
  on_node podName (convertMemgraphNodeToStatus healthy).

Definition replica_registrations : M (Ctl W) (list ReplicaRegistration) :=
  let? targetMainIndex := GetTargetMainIndex config configMapName orelse _err => mret [] in
  let targetMainPodName := GetPodName config targetMainIndex in
  mainNode ← find_node targetMainPodName;
  match mainNode with
  | None => mret []
  | Some _ =>
      let? replicas := on_node targetMainPodName (GetReplicas config false) orelse _err =>
        mret [] in
      mret (map registration_of replicas)
  end.

(** [GetClusterStatus] once there is a cluster, whose nodes are [clusterState]. *)
Definition cluster_status (clusterState : gmap string MemgraphNode) : M (Ctl W) StatusResponse :=
  index ← GetTargetMainIndex config configMapName;
  let currentMain := match index with Ok i => GetPodName config i | Err _ => "" end in
  let totalPods := Z.of_nat (size clusterState) in
  keys ← cnet (range_keys clusterState);
  counted ← foldM count_healthy keys (0%Z, None);
  let '(healthyCount, syncReplica) := counted in
  let syncReplicaHealthy := negb (is_nil syncReplica) in
  let clusterHealthy := bool_decide (healthyCount = totalPods) && bool_decide (currentMain ≠ "") in
  _ ← prom (UpdateClusterState clusterHealthy totalPods healthyCount syncReplicaHealthy);
  keys ← cnet (range_keys clusterState);
  pods ← foldM (λ pods podName, status ← pod_status podName; mret (pods ++ [status])) keys [];
  registrations ← replica_registrations;
  metrics ← GetReconciliationMetrics;
  readGateway ← getReadGatewayStatus;
  now ← cnet (call w_now);
  mret (mkStatusResponse now
    (mkClusterStatus currentMain (default "" syncReplica) totalPods healthyCount
       (totalPods - healthyCount) syncReplicaHealthy metrics registrations readGateway)
    pods).

Definition GetClusterStatus : M (Ctl W) (result StatusResponse) :=
  cluster ← gets ctl_cluster;
  match cluster with
  | None => mret (Err (Errorf "no cluster state available"))
  | Some clusterState =>
      status ← cluster_status clusterState;
      mret (Ok status)
  end.

(** [GetControllerStatus] *)
Definition GetControllerStatus : M (Ctl W) (bool * ReconciliationMetrics) :=
  running ← IsRunning;
  metrics ← GetReconciliationMetrics;
  mret (running, metrics).

(** ** Properties *)

Lemma keeps_node_status h : keeps (node_step read_query) (convertMemgraphNodeToStatus h).
Proof.
  assert (read_query q_show_role ∧ read_query q_show_replicas) as [? ?]
    by (unfold read_query; set_solver).
  pose proof (keeps_GetReplicationRole config read_query false).
  pose proof (keeps_GetReplicas config read_query false).
  pose proof (keeps_field (W := W) read_query (id (A := MemgraphNode))).
  unfold convertMemgraphNodeToStatus, node_role. solve_keeps.
Qed.

Lemma keeps_pod_status k : keeps (effects reads) (pod_status k).
Proof.
  pose proof (λ h, keeps_on_node_read reads (λ _ H, H) k _ (keeps_node_status h)).
  pose proof (keeps_GetName (W := W) reads k).
  pose proof (keeps_getPodFromCache (W := W) config reads).
  unfold pod_status. solve_keeps.
Qed.

Lemma keeps_replica_registrations : keeps (effects reads) replica_registrations.
Proof.
  pose proof (keeps_node_replicas config reads (λ _ H, H)).
  pose proof (keeps_GetTargetMainIndex config configMapName reads).
  unfold replica_registrations. solve_keeps.
Qed.

Lemma keeps_count_healthy acc k : keeps (effects reads) (count_healthy acc k).
Proof.
  pose proof (keeps_getTargetSyncReplicaNode config configMapName reads).
  pose proof (keeps_getPodFromCache (W := W) config reads).
  pose proof (keeps_GetName (W := W) reads).
  unfold count_healthy. solve_keeps.
Qed.

Lemma keeps_find_address a keys : keeps (effects reads) (find_address a keys).
Proof.
  pose proof (λ k, keeps_node_field (W := W) reads (λ _ H, H) k GetBoltAddress).
  induction keys; simpl; solve_keeps.
Qed.

Lemma keeps_getReadGatewayStatus : keeps (effects reads) getReadGatewayStatus.
Proof.
  pose proof keeps_find_address.
  pose proof (λ m, keeps_keys (W := W) reads (V := MemgraphNode) m).
  unfold getReadGatewayStatus, getUpstreamPodName. solve_keeps.
Qed.

#[local] Hint Resolve keeps_pod_status keeps_replica_registrations keeps_count_healthy
  keeps_getReadGatewayStatus : keeps.

Lemma keeps_GetClusterStatus : keeps (effects reads) GetClusterStatus.
Proof.
  pose proof (keeps_GetTargetMainIndex config configMapName reads).
  pose proof (λ m, keeps_keys (W := W) reads (V := MemgraphNode) m).
  pose proof (λ f, keeps_prom (W := W) reads f).
  assert (keeps (effects (W := W) reads) (cnet (call w_now)))
    by apply keeps_world, keeps_call_emits.
  unfold GetClusterStatus, cluster_status, GetReconciliationMetrics. solve_keeps.
Qed.

(** The counting loop never counts more pods than it visits, and the sync
    replica it finds is one of them. *)
Lemma count_healthy_bounds keys s n r s' :
  foldM count_healthy keys (0%Z, None) s = (Ret (n, r), s') →
  (0 ≤ n ≤ Z.of_nat (length keys))%Z ∧ (∀ k, r = Some k → k ∈ keys ∧ 0 < n)%Z.
Proof.
  intros Hr.
  apply (foldM_ret_ind (λ seen acc, (0 ≤ acc.1 ≤ Z.of_nat (length seen))%Z ∧
    ∀ k, acc.2 = Some k → k ∈ seen ∧ (0 < acc.1)%Z)) with (seen := []) in Hr;
    [exact Hr| |split; [simpl; lia|done]].
  clear. intros seen x [n r] s [n' r'] s' [Hn Hk] Hr. cbn [fst snd] in *.
  rewrite length_app. simpl.
  assert (n' = n ∧ r' = r ∨ n' = (n + 1)%Z ∧ (r' = r ∨ r' = Some x)) as Hcase.
  { unfold count_healthy in Hr. inv_bind Hr as pod s1 H1.
    destruct pod as [pod|e]; [|injection Hr; auto].
    destruct (negb (isPodReady pod)); [injection Hr; auto|].
    inv_bind Hr as t s2 H2. destruct t as [t|e]; [|injection Hr; auto].
    inv_bind Hr as nm s3 H3. injection Hr as <- <- _. case_bool_decide; auto. }
  split; [lia|]. intros k Hkr. rewrite elem_of_app, list_elem_of_singleton.
  destruct Hcase as [[-> ->]|[-> [->| ->]]].
  - destruct (Hk k Hkr). auto.
  - destruct (Hk k Hkr). auto with lia.
  - injection Hkr as ->. auto with lia.
Qed.


Lemma pods_length keys s pods s' :
  foldM (λ pods podName, status ← pod_status podName; mret (pods ++ [status])) keys [] s
    = (Ret pods, s') → length pods = length keys.
Proof.
  intros Hr.
  apply (foldM_ret_ind (λ seen (pods : list PodStatus), length pods = length seen))
    with (seen := []) in Hr; [exact Hr| |done].
  clear. intros seen x ps s ps' s' Hl Hr. inv_bind Hr as st s1 H1. injection Hr as <- _.
  rewrite !length_app. simpl. lia.
Qed.

Lemma keys_length {V} (m : gmap string V) (keys : list string) :
  keys ≡ₚ (map_to_list m).*1 → length keys = size m.
Proof. intros Hk. by rewrite (Permutation_length Hk), length_fmap, length_map_to_list. Qed.

Lemma elem_of_map_keys {V} (m : gmap string V) k : k ∈ (map_to_list m).*1 → is_Some (m !! k).
Proof.
  rewrite list_elem_of_fmap. intros ([k' v] & -> & Hin). exists v. by apply elem_of_map_to_list.
Qed.

(** ** The status of an initialised controller is always served *)

Section totality.
Context `{!WorldOrder W} (X : gset string) (rg : bool).
#[local] Abbreviation I := (initialized (W := W) X rg).

Lemma safe_pod_status k : k ∈ X → safe I (pod_status k) anything.
Proof.
  intros Hk.
  assert (∀ h, total (convertMemgraphNodeToStatus h)).
  { intros h. unfold convertMemgraphNodeToStatus, node_role. solve_safe. }
  unfold pod_status. solve_safe.
Qed.

Lemma safe_count_healthy acc k : safe I (count_healthy acc k) anything.
Proof. unfold count_healthy. solve_safe. Qed.

Lemma safe_find_address a keys : (∀ k, k ∈ keys → k ∈ X) → safe I (find_address a keys) anything.
Proof.
  induction keys as [|k keys IH]; intros Hk; simpl; [by apply safe_ret|].
  assert (k ∈ X) by (apply Hk; left). assert (safe I (find_address a keys) anything).
  { apply IH. intros k' Hin. apply Hk. by right. }
  solve_safe.
Qed.

Lemma safe_getReadGatewayStatus : safe I getReadGatewayStatus anything.
Proof.
  assert (∀ a, safe I (getUpstreamPodName a) anything).
  { intros a. unfold getUpstreamPodName. case_match; [by apply safe_ret|].
    eapply safe_bind; [apply safe_get_nodes|intros nodes Hn].
    eapply safe_bind; [by apply safe_keys|intros keys Hk]. by apply safe_find_address. }
  unfold getReadGatewayStatus. solve_safe.
Qed.

Lemma safe_replica_registrations : safe I replica_registrations anything.
Proof. unfold replica_registrations. solve_safe. Qed.

Lemma safe_cluster_status nodes : dom nodes = X → safe I (cluster_status nodes) anything.
Proof.
  intros Hd. unfold cluster_status.
  pose proof safe_getReadGatewayStatus. pose proof safe_replica_registrations.
  apply (safe_bind _ _ _ anything); [eauto with safe|intros idx _].
  eapply safe_bind; [by apply safe_keys|intros keys _].
  apply (safe_bind _ _ _ anything).
  { apply safe_foldM; [done|]. intros acc k _ _. apply safe_count_healthy. }
  intros [n sr] _. apply (safe_bind _ _ _ anything); [apply safe_prom|intros _ _].
  eapply safe_bind; [by apply safe_keys|intros keys2 Hk2].
  apply (safe_bind _ _ _ anything).
  { apply safe_foldM; [done|]. intros pods k _ Hin. pose proof (safe_pod_status k (Hk2 k Hin)).
    solve_safe. }
  intros pods _. unfold GetReconciliationMetrics. solve_safe.
Qed.

Lemma safe_GetClusterStatus : safe I GetClusterStatus anything.
Proof.
  intros s HI. pose proof HI as [(nodes & Hn & Hd) _].
  destruct (safe_cluster_status nodes Hd s HI) as (st & s' & Hr & HI' & _).
  exists (Ok st), s'. unfold GetClusterStatus, mbind, M_bind, gets. by rewrite Hn, Hr.
Qed.
End totality.
End Status.

(** ** Witness: the main is down, pod 1 is ready *)

Definition sim_status : outcome (result StatusResponse) * Ctl Sim :=
  GetClusterStatus example_config "state" sim_failed.

