(* ===== verification/Startup.v ===== *)
(** * Process start: [cmd/memgraph-controller/main.go], [NewMemgraphController]
      and [Initialize] of [internal/controller/controller_core.go],
      [StartInformers] of [controller_events.go]

    What Kubernetes and the operating system answer during the start is the
    record [Boot].  The goroutines the start spawns (queue processors, HTTP
    server, accept loops, leader election) have no step of their own here: their
    steps are the operations of System.v and GatewayHandlers.v. *)

From Stdlib Require Import String.
From S2P Require Import Prelude.
From S2P Require Import GoStrings.
From S2P Require Import GoTime.
From S2P Require Import Config.
From S2P Require Import GatewayConfig.
From S2P Require Import RateLimiter.
From S2P Require Import GatewayServer.
From S2P Require Import GatewayHandlers.
From S2P Require Import World.
From S2P Require Import ConnectionPool.
From S2P Require Import MemgraphNode.
From S2P Require Import Metrics.
From S2P Require Import Queues.
From S2P Require Import LeaderElection.
From S2P Require Import ProberState.
From S2P Require Import ControllerState.
From S2P Require Import Sim.
From S2P Require Import Controller.
From S2P Require Import Lifecycle.

(** The answers of the environment: [GetKubernetesConfig] and the client, the
    pod list of [TestConnection], [WaitForCacheSync], the TLS key pair, and the
    listener of each gateway. *)
Record Boot := mkBoot {
  b_kubernetes : option error;
  b_list_pods : option error;
  b_synced : bool;
  b_load_cert : option error;
  b_listen : bool → option error;
}.

Global Instance outcome_fmap : FMap outcome := λ A B f o,
  match o with Ret a => Ret (f a) | Panic why => Panic why end.

Section Startup.
Context {W : Type} `{World W}.
Context (config : Config).

(** ** The controller *)

(** [RELEASE_NAME-state], cut to 63 bytes. *)
Definition state_configmap_name : string :=
  let releaseName := w_getenv "RELEASE_NAME" in
  let configMapName :=
    if bool_decide (releaseName ≠ "") then releaseName +:+ "-state"
    else "memgraph-controller-state" in
  if bool_decide (63 < String.length configMapName) then substring 0 63 configMapName
  else configMapName.

(** [gateway.NewServer] with the ticker of [NewRateLimiter]: [time.NewTicker]
    panics on a period that is not positive. *)
Definition new_server (name : string) (c : GwConfig) : outcome Server :=
  if gw_RateLimitEnabled c && bool_decide (int64 (gw_RateLimitWindow c * 2) ≤ 0)%Z then
    Panic "non-positive interval for NewTicker"
  else Ret (NewServer name c).

Definition read_gateway_enabled : bool := bool_decide (w_getenv "ENABLE_READ_GATEWAY" = "true").

(** [NewMemgraphController]; [None] is the nil it returns when there is no
    identity.  The cluster stays nil until the informers have started. *)
Definition NewMemgraphController (w : W) : outcome (option (Ctl W)) :=
  let gatewayConfig := set_BindAddress (GatewayBindAddress config) (LoadGatewayConfig w_getenv) in
  let readGatewayConfig := set_BindAddress "0.0.0.0:7688" (LoadGatewayConfig w_getenv) in
  match new_server "main-gw" gatewayConfig with
  | Panic why => Panic why
  | Ret gatewayServer =>
      match (if read_gateway_enabled then Some <$> new_server "read-gw" readGatewayConfig
             else Ret None) with
      | Panic why => Panic why
      | Ret readGatewayServer =>
          match NewLeaderElection w_getenv w_hostname with
          | Err _ => Ret None
          | Ok leaderElection =>
              Ret (Some (mkCtl (mkNet NewConnectionPool w []) (-1) None (Some gatewayServer)
                readGatewayServer leaderElection None None false false (Some false)
                (Some empty_metrics) None (Some (NewHealthProber DefaultProberConfig))))
          end
      end
  end.

(** [SetPrometheusMetrics]; the gateways' share of it is not modelled. *)
Definition SetPrometheusMetrics (m : Metrics) (s : Ctl W) : Ctl W := set_promMetrics (Some m) s.

(** [TestConnection] *)
Definition TestConnection (boot : Boot) : option error :=
  match b_list_pods boot with
  | Some err => Some (Wrapf "failed to connect to Kubernetes API" err)
  | None => None
  end.

(** ** [Initialize] *)

(** [NewMemgraphCluster]: no node yet. *)
Definition NewMemgraphCluster : gmap string MemgraphNode := ∅.

Definition StartInformers (boot : Boot) : M (Ctl W) (option error) :=
  if negb (b_synced boot) then mret (Some (Errorf "failed to sync informer caches"))
  else
    cluster ← gets ctl_cluster;
    _ ← (if is_nil cluster then modify (set_cluster (Some NewMemgraphCluster)) else mret ());
    mret None.

(** [c.gatewayServer.Start(ctx)] *)
Definition gw_Start (boot : Boot) (read : bool) : M (Ctl W) (option error) := λ s,
  match gateway_of read s with
  | None => (Panic nil_deref, s)
  | Some g =>
      let '(err, g) := Start (b_load_cert boot) (b_listen boot read) g in
      (Ret err, set_gateway read (Some g) s)
  end.

Definition StartGatewayServer (boot : Boot) : M (Ctl W) (option error) :=
  check? gw_Start boot false orelse err =>
    mret (Some (Wrapf "failed to start read/write gateway" err)) in
  nogw ← gw_nil true;
  if nogw : bool then mret None
  else
    check? gw_Start boot true orelse err =>
      mret (Some (Wrapf "failed to start read-only gateway" err)) in
    mret None.

Definition Initialize (boot : Boot) : M (Ctl W) (option error) :=
  _ ← modify (set_reconcileQueue (Some newReconcileQueue));
  _ ← modify (set_failoverCheckQueue (Some newFailoverCheckQueue));
  check? StartInformers boot orelse err =>
    mret (Some (Wrapf "failed to start informers" err)) in
  check? StartGatewayServer boot orelse err =>
    mret (Some (Wrapf "failed to start gateway server" err)) in
  mret None.

(** [Run] up to its loop, with the ticker of the reconciliation interval. *)
Definition Run_enter : M (Ctl W) (option error) :=
  check? Run_start orelse err => mret (Some err) in
  if bool_decide (ReconcileInterval config ≤ 0)%Z then
    panic "non-positive interval for NewTicker"
  else mret None.

End Startup.

(** ** [main] *)

Inductive process (W : Type) :=
  | Exited                       (* os.Exit(1) *)
  | Crashed (why : string)       (* a panic *)
  | Started (s : Ctl W).         (* the loop is running *)
Arguments Exited {W}.
Arguments Crashed {W} why.
Arguments Started {W} s.

(** [main] up to the wait for a signal. *)
Definition main {W} `{World W} (boot : Boot) (w : W) : process W :=
  let config := Load w_getenv in
  match b_kubernetes boot with
  | Some _ => Exited
  | None =>
      match NewMemgraphController config w with
      | Panic why => Crashed why
      | Ret None => Crashed nil_deref (* ctrl.SetPrometheusMetrics locks a nil controller *)
      | Ret (Some ctrl) =>
          let ctrl := SetPrometheusMetrics New ctrl in
          match TestConnection boot with
          | Some _ => Exited
          | None =>
              match Initialize boot ctrl with
              | (Panic why, _) => Crashed why
              | (Ret (Some _), _) => Exited
              | (Ret None, ctrl) =>
                  match Run_enter config ctrl with
                  | (Panic why, _) => Crashed why
                  | (Ret (Some _), _) => Exited
                  | (Ret None, ctrl) => Started ctrl
                  end
              end
          end
      end
  end.

(** ** Properties *)

Section properties.
Context {W : Type} `{World W}.
#[local] Abbreviation config := (Load w_getenv).

(** The configuration of a gateway. *)
Definition gateway_config (read : bool) : GwConfig :=
  set_BindAddress (if read then "0.0.0.0:7688" else GatewayBindAddress config)
    (LoadGatewayConfig w_getenv).

Definition has_gateway (read : bool) : Prop := read = true → read_gateway_enabled = true.

(** What the start needs. *)
Record bootable (boot : Boot) : Prop := {
  bt_kubernetes : b_kubernetes boot = None;
  bt_list_pods : b_list_pods boot = None;
  bt_synced : b_synced boot = true;
  bt_identity : is_ok (getPodIdentity w_getenv w_hostname) = true;
  bt_interval : (0 < ReconcileInterval config)%Z;
  bt_limiter : gw_RateLimitEnabled (LoadGatewayConfig w_getenv) = true →
    (0 < int64 (gw_RateLimitWindow (LoadGatewayConfig w_getenv) * 2))%Z;
  bt_valid read : has_gateway read → valid_config (gateway_config read);
  bt_cert : gw_TLSEnabled (LoadGatewayConfig w_getenv) = true → b_load_cert boot = None;
  bt_listen read : has_gateway read → b_listen boot read = None;
}.

(** The controller when the loop is about to run. *)
Definition booted (le : LeaderElection) (w : W) : Ctl W :=
  let server (read : bool) name := set_running true (NewServer name (gateway_config read)) in
  mkCtl (mkNet NewConnectionPool w []) (-1) (Some ∅) (Some (server false "main-gw"))
    (if read_gateway_enabled then Some (server true "read-gw") else None)
    le (Some newReconcileQueue) (Some newFailoverCheckQueue) false true (Some false)
    (Some empty_metrics) (Some New) (Some (p_Start (NewHealthProber DefaultProberConfig)).2).

Lemma new_server_run name read :
  new_server name (gateway_config read) =
  if gw_RateLimitEnabled (LoadGatewayConfig w_getenv) &&
     bool_decide (int64 (gw_RateLimitWindow (LoadGatewayConfig w_getenv) * 2) ≤ 0)%Z
  then Panic "non-positive interval for NewTicker" else Ret (NewServer name (gateway_config read)).
Proof. reflexivity. Qed.

Lemma Start_ok load listen s :
  valid_config (srv_config s) → srv_isRunning s = false → listen = None →
  (gw_TLSEnabled (srv_config s) = true → load = None) →
  Start load listen s = (None, set_running true s).
Proof.
  intros Hv Hr -> Hl. unfold Start. rewrite (proj2 (Validate_valid _) Hv), Hr.
  destruct (gw_TLSEnabled (srv_config s)); [by rewrite Hl|done].
Qed.

(** What [Start] requires of a gateway. *)
Definition startable (boot : Boot) (read : bool) (g : Server) : Prop :=
  valid_config (srv_config g) ∧ b_listen boot read = None ∧
  (gw_TLSEnabled (srv_config g) = true → b_load_cert boot = None).

Lemma gw_Start_inv boot read (s : Ctl W) g s' :
  gateway_of read s = Some g → gw_Start boot read s = (Ret None, s') →
  startable boot read g ∧ s' = set_gateway read (Some (set_running true g)) s.
Proof.
  intros Hg. unfold gw_Start. rewrite Hg.
  pose proof (Start_spec (b_load_cert boot) (b_listen boot read) g) as Hs.
  destruct (Start _ _ _) as [err g']. intros [= -> <-]. destruct Hs as (Hv & _ & Hl & Ht & ->).
  done.
Qed.

Lemma gw_Start_ok boot read (s : Ctl W) g :
  gateway_of read s = Some g → startable boot read g → srv_isRunning g = false →
  gw_Start boot read s = (Ret None, set_gateway read (Some (set_running true g)) s).
Proof.
  intros Hg (Hv & Hl & Ht) Hr. unfold gw_Start. by rewrite Hg, Start_ok.
Qed.

(** The state [Initialize] leaves. *)
Definition started (s : Ctl W) : Ctl W :=
  mkCtl (ctl_net s) (ctl_targetMainIndex s) (Some NewMemgraphCluster)
    (set_running true <$> ctl_gatewayServer s) (set_running true <$> ctl_readGatewayServer s)
    (ctl_leaderElection s) (Some newReconcileQueue) (Some newFailoverCheckQueue)
    (ctl_failoverCheckNeeded s) (ctl_isRunning s) (ctl_stopCh s) (ctl_metrics s)
    (ctl_promMetrics s) (ctl_healthProber s).

Lemma StartInformers_inv boot (s s' : Ctl W) :
  ctl_cluster s = None → StartInformers boot s = (Ret None, s') →
  b_synced boot = true ∧ s' = set_cluster (Some NewMemgraphCluster) s.
Proof.
  intros Hc. unfold StartInformers. destruct (b_synced boot); simpl; [|by intros [=]].
  unfold mbind, M_bind, gets, modify. rewrite Hc. simpl. by intros [= <-].
Qed.

#[local] Opaque gw_Start.

Lemma StartGatewayServer_inv boot (s s' : Ctl W) g :
  ctl_gatewayServer s = Some g → StartGatewayServer boot s = (Ret None, s') →
  startable boot false g ∧ (∀ r, ctl_readGatewayServer s = Some r → startable boot true r) ∧
  s' = set_gatewayServer (Some (set_running true g))
         (set_readGatewayServer (set_running true <$> ctl_readGatewayServer s) s).
Proof.
  intros Hg. unfold StartGatewayServer. intros Hr. inv_bind Hr as e1 s1 H1.
  destruct e1; [discriminate Hr|].
  apply (gw_Start_inv _ _ _ g) in H1 as [Hs ->]; [|exact Hg]. split; [exact Hs|].
  inv_bind Hr as nogw s2 H2. injection H2 as <- <-.
  destruct s as [? ? ? ? rd ? ? ? ? ? ? ? ? ?]. destruct rd as [r|].
  - inv_bind Hr as e2 s3 H3. destruct e2; [discriminate Hr|].
    apply (gw_Start_inv _ _ _ r) in H3 as [Hs' ->]; [|reflexivity]. injection Hr as <-.
    split; [by intros ? [= <-]|reflexivity].
  - injection Hr as <-. by split.
Qed.

Lemma Initialize_inv boot (s s' : Ctl W) g :
  ctl_cluster s = None → ctl_gatewayServer s = Some g →
  Initialize boot s = (Ret None, s') →
  b_synced boot = true ∧ startable boot false g ∧
  (∀ r, ctl_readGatewayServer s = Some r → startable boot true r) ∧ s' = started s.
Proof.
  intros Hc Hg. unfold Initialize. intros Hr. inv_bind Hr as u1 s1 H1. injection H1 as _ <-.
  inv_bind Hr as u2 s2 H2. injection H2 as _ <-. inv_bind Hr as e s3 H3.
  destruct e; [discriminate Hr|]. apply StartInformers_inv in H3 as [Hsync ->]; [|exact Hc].
  inv_bind Hr as e s4 H4. destruct e; [discriminate Hr|]. injection Hr as <-.
  apply (StartGatewayServer_inv _ _ _ g) in H4 as (Hm & Hrd & ->); [|exact Hg].
  split; [done|]. split; [done|]. split; [exact Hrd|]. destruct s. simpl in *. by subst.
Qed.

Lemma Initialize_ok boot (s : Ctl W) g :
  ctl_cluster s = None → ctl_gatewayServer s = Some g → srv_isRunning g = false →
  b_synced boot = true → startable boot false g →
  (∀ r, ctl_readGatewayServer s = Some r → startable boot true r ∧ srv_isRunning r = false) →
  Initialize boot s = (Ret None, started s).
Proof.
  intros Hc Hg Hr Hs Hst Hread. destruct s; simpl in *; subst.
  unfold Initialize, StartInformers, StartGatewayServer. rewrite Hs.
  unfold mbind, M_bind, modify, gets. simpl. erewrite gw_Start_ok by done. simpl.
  destruct ctl_readGatewayServer as [r|]; simpl; [|done].
  destruct (Hread r eq_refl). by erewrite gw_Start_ok.
Qed.

(** Before [Initialize]. *)
Definition created (le : LeaderElection) (w : W) : Ctl W :=
  mkCtl (mkNet NewConnectionPool w []) (-1) None
    (Some (NewServer "main-gw" (gateway_config false)))
    (if read_gateway_enabled then Some (NewServer "read-gw" (gateway_config true)) else None)
    le None None false false (Some false) (Some empty_metrics) (Some New)
    (Some (NewHealthProber DefaultProberConfig)).

Lemma NewMemgraphController_inv (w : W) r :
  NewMemgraphController config w = Ret r →
  (gw_RateLimitEnabled (LoadGatewayConfig w_getenv) = true →
   (0 < int64 (gw_RateLimitWindow (LoadGatewayConfig w_getenv) * 2))%Z) ∧
  ∀ s, r = Some s → ∃ le, NewLeaderElection w_getenv w_hostname = Ok le ∧
    SetPrometheusMetrics New s = created le w.
Proof.
  unfold NewMemgraphController. fold (gateway_config false). fold (gateway_config true).
  rewrite !new_server_run. destruct (gw_RateLimitEnabled (LoadGatewayConfig w_getenv)); cbn [andb].
  - case_bool_decide as Hw; [done|].
    destruct read_gateway_enabled eqn:He, (NewLeaderElection w_getenv w_hostname) as [le|];
      intros [= <-]; (split; [intros _; lia|]); intros s [= <-]; exists le; (split; [done|]);
      unfold created; by rewrite He.
  - destruct read_gateway_enabled eqn:He, (NewLeaderElection w_getenv w_hostname) as [le|];
      intros [= <-]; (split; [done|]); intros s [= <-]; exists le; (split; [done|]);
      unfold created; by rewrite He.
Qed.

Lemma NewMemgraphController_ok (w : W) le :
  (gw_RateLimitEnabled (LoadGatewayConfig w_getenv) = true →
   (0 < int64 (gw_RateLimitWindow (LoadGatewayConfig w_getenv) * 2))%Z) →
  NewLeaderElection w_getenv w_hostname = Ok le →
  ∃ s, NewMemgraphController config w = Ret (Some s) ∧ SetPrometheusMetrics New s = created le w.
Proof.
  intros Hw Hle. unfold NewMemgraphController.
  fold (gateway_config false). fold (gateway_config true).
  rewrite !new_server_run.
  assert (gw_RateLimitEnabled (LoadGatewayConfig w_getenv) &&
    bool_decide (int64 (gw_RateLimitWindow (LoadGatewayConfig w_getenv) * 2) ≤ 0)%Z = false) as ->.
  { destruct (gw_RateLimitEnabled _); [|done]. apply bool_decide_eq_false_2. specialize (Hw eq_refl). lia. }
  rewrite Hle. unfold created.
  destruct read_gateway_enabled eqn:He; simpl; eexists; by split.
Qed.

Lemma Run_enter_iff (s : Ctl W) o :
  ctl_isRunning s = false →
  (∃ s', Run_enter config s = (Ret o, s')) ↔ o = None ∧ (0 < ReconcileInterval config)%Z.
Proof.
  intros Hr. unfold Run_enter, Run_start, mbind, M_bind, gets, modify. rewrite Hr. simpl.
  case_bool_decide; split.
  - by intros [? [=]].
  - intros [_ ?]. lia.
  - intros [? [= <- _]]. split; [done|lia].
  - intros [-> _]. eauto.
Qed.

Lemma Run_enter_state (s s' : Ctl W) o :
  ctl_isRunning s = false → Run_enter config s = (Ret o, s') →
  s' = set_healthProber ((λ p, (p_Start p).2) <$> ctl_healthProber s) (set_isRunning true s).
Proof.
  intros Hr. unfold Run_enter, Run_start, mbind, M_bind, gets, modify. rewrite Hr. simpl.
  case_bool_decide; by intros [= _ <-].
Qed.

(** [bootable], seen from the operations of the start. *)
Definition requirements (boot : Boot) : Prop :=
  b_kubernetes boot = None ∧ b_list_pods boot = None ∧ b_synced boot = true ∧
  is_ok (getPodIdentity w_getenv w_hostname) = true ∧ (0 < ReconcileInterval config)%Z ∧
  (gw_RateLimitEnabled (LoadGatewayConfig w_getenv) = true →
   (0 < int64 (gw_RateLimitWindow (LoadGatewayConfig w_getenv) * 2))%Z) ∧
  startable boot false (NewServer "main-gw" (gateway_config false)) ∧
  (read_gateway_enabled = true → startable boot true (NewServer "read-gw" (gateway_config true))).

Lemma bootable_requirements boot : bootable boot ↔ requirements boot.
Proof.
  unfold requirements, startable. split.
  - intros []. do 6 (split; [done|]). split; [split; [by apply bt_valid0|by split; [apply bt_listen0|]]|].
    intros Hr. assert (has_gateway true) by (intros _; exact Hr).
    split; [by apply bt_valid0|by split; [apply bt_listen0|]].
  - intros (? & ? & ? & ? & ? & ? & (Hv & Hl & Ht) & Hrd).
    split; try done; intros [] Hh; try done; apply Hrd, Hh; done.
Qed.

Lemma created_read (s : Ctl W) le w r :
  s = created le w → ctl_readGatewayServer s = Some r →
  read_gateway_enabled = true ∧ r = NewServer "read-gw" (gateway_config true).
Proof. intros ->. simpl. destruct read_gateway_enabled; naive_solver. Qed.

Lemma booted_started le w :
  booted le w = set_healthProber ((λ p, (p_Start p).2) <$> ctl_healthProber (started (created le w)))
    (set_isRunning true (started (created le w))).
Proof. unfold booted, started, created. simpl. by destruct read_gateway_enabled. Qed.

Lemma NewLeaderElection_ok :
  is_ok (getPodIdentity w_getenv w_hostname) = true ↔
  ∃ le, NewLeaderElection w_getenv w_hostname = Ok le.
Proof.
  unfold NewLeaderElection. destruct (getPodIdentity _ _); naive_solver.
Qed.

Lemma NewLeaderElection_follower le :
  w_hostname ≠ Ok "" → NewLeaderElection w_getenv w_hostname = Ok le → le_IsLeader le = false.
Proof.
  unfold NewLeaderElection, getPodIdentity, le_IsLeader. intros Hh.
  rewrite bool_decide_eq_false. case_bool_decide; [naive_solver|]. destruct w_hostname; naive_solver.
Qed.

Lemma booted_initialized le w : initialized ∅ read_gateway_enabled (booted le w).
Proof.
  split; [by exists ∅|]. split; [by eexists|]. split; [simpl; by destruct read_gateway_enabled|].
  split; [by eexists|]. split; by eexists.
Qed.

#[local] Opaque gateway_config Initialize Run_enter NewMemgraphController.

Lemma main_inv boot w s :
  main boot w = Started s →
  requirements boot ∧
  ∃ le, NewLeaderElection w_getenv w_hostname = Ok le ∧ s = booted le w.
Proof.
  unfold main. destruct (b_kubernetes boot) eqn:Hk; [done|].
  destruct (NewMemgraphController config w) as [[s0|]|why] eqn:Hn; [|done..].
  apply NewMemgraphController_inv in Hn as [Hlim Hn]. destruct (Hn s0 eq_refl) as (le & Hle & ->).
  unfold TestConnection. destruct (b_list_pods boot) eqn:Hl; [done|].
  destruct (Initialize boot (created le w)) as [[[e|]|why] s1] eqn:Hi; [done| |done].
  apply (Initialize_inv _ _ _ (NewServer "main-gw" (gateway_config false))) in Hi
    as (Hsync & Hm & Hrd & ->); [|done..].
  destruct (Run_enter config (started (created le w))) as [[[e|]|why] s2] eqn:Hr; [done| |done].
  assert (0 < ReconcileInterval config)%Z as Hint
    by (apply (Run_enter_iff (started (created le w)) None eq_refl); by exists s2).
  apply Run_enter_state in Hr as ->; [|done]. intros [= <-].
  split; [|exists le; split; [done|by rewrite booted_started]].
  unfold requirements. do 3 (split; [done|]). split; [apply NewLeaderElection_ok; by exists le|].
  do 3 (split; [done|]). intros He. apply Hrd. simpl. by rewrite He.
Qed.

Lemma main_ok boot w le :
  requirements boot →
  NewLeaderElection w_getenv w_hostname = Ok le → main boot w = Started (booted le w).
Proof.
  intros (Hk & Hl & Hs & _ & Hint & Hlim & Hm & Hrd) Hle. unfold main, TestConnection.
  destruct (NewMemgraphController_ok w le Hlim Hle) as (s0 & Hn & Hc). rewrite Hk, Hl, Hn, Hc.
  rewrite (Initialize_ok boot (created le w) (NewServer "main-gw" (gateway_config false))); try done.
  - destruct (proj2 (Run_enter_iff (started (created le w)) None eq_refl) (conj eq_refl Hint))
      as [s' Hr].
    rewrite Hr. apply Run_enter_state in Hr as ->; [|done]. by rewrite booted_started.
  - intros r Hr. apply (created_read _ le w) in Hr as [He ->]; [|done]. split; [by apply Hrd|done].
Qed.

(** C29. The process starts exactly when its environment allows it, and then in
    a known state: the Kubernetes API answers, the informer caches sync, the
    instance has an identity, the reconciliation interval and (when limiting is
    on) twice the limiter's window are positive, the configuration of each
    enabled gateway is valid and its listener opens.  The running controller
    has its queues, prober and an empty cluster (so it is [initialized]), is not
    the leader, has no target index loaded and has touched nothing outside, and
    its gateways accept connections but have no upstream. *)
Theorem main_starts (boot : Boot) (w : W) (s : Ctl W) :
  w_hostname ≠ Ok "" →
  (main boot w = Started s ↔
     bootable boot ∧ ∃ le, NewLeaderElection w_getenv w_hostname = Ok le ∧ s = booted le w) ∧
  (main boot w = Started s →
     initialized ∅ read_gateway_enabled s ∧ le_IsLeader (ctl_leaderElection s) = false ∧
     ctl_targetMainIndex s = (-1)%Z ∧ ctl_isRunning s = true ∧ trace_of s = [] ∧
     ∀ read g, gateway_of read s = Some g →
       srv_isRunning g = true ∧ srv_upstreamAddress g = "" ∧ valid_config (srv_config g)).
Proof.
  intros Hhost.
  assert (∀ s, main boot w = Started s ↔
    bootable boot ∧ ∃ le, NewLeaderElection w_getenv w_hostname = Ok le ∧ s = booted le w) as Hiff.
  { clear s. intros s. rewrite bootable_requirements. split; [apply main_inv|]. intros (Hb & le & Hle & ->).
    by apply main_ok. }
  split; [apply Hiff|]. intros Hs. apply Hiff in Hs as (Hb & le & Hle & ->).
  split; [apply booted_initialized|]. split; [by eapply NewLeaderElection_follower|].
  split; [done|]. split; [done|]. split; [done|]. intros read g Hg.
  assert (∃ name, g = set_running true (NewServer name (gateway_config read)) ∧ has_gateway read)
    as (name & -> & Hh).
  { unfold booted, has_gateway in *. destruct read; simpl in Hg; [|naive_solver].
    destruct read_gateway_enabled; naive_solver. }
  split; [done|]. split; [done|]. by apply (bt_valid _ Hb).
Qed.

End properties.

(** ** Witness, and starts that crash *)

Definition sim_boot : Boot := mkBoot None None true None (λ _, None).

Lemma main_starts_witness :
  ∃ s, main sim_boot (sim_world None None) = Started s ∧ initialized ∅ false s.
Proof.
  exists (booted (mkLE "controller-0" "") (sim_world None None)).
  assert (main sim_boot (sim_world None None) =
    Started (booted (mkLE "controller-0" "") (sim_world None None))) as Hm
    by (vm_compute; reflexivity).
  split; [exact Hm|].
  destruct (main_starts sim_boot (sim_world None None)
    (booted (mkLE "controller-0" "") (sim_world None None))) as [_ H]; [discriminate|].
  apply (H Hm).
Defined.

Definition boots_with (env : list (string * string)) (host : result string) : process Sim :=
  @main Sim (Sim_with (λ w, Some <$> sim_pods w) plain_cm (env_of env) host) sim_boot (sim_world None None).

(** Without an identity [NewMemgraphController] returns nil, which [main] uses. *)
Example no_identity_crashes : boots_with [] (Err (OtherErr "no host name")) = Crashed nil_deref.
Proof. vm_compute. reflexivity. Qed.

(** A zero reconciliation interval is accepted by [Load] and kills the loop. *)
Example zero_interval_crashes :
  boots_with [("RECONCILE_INTERVAL", "0s")] (Ok "controller-0") =
  Crashed "non-positive interval for NewTicker".
Proof. vm_compute. reflexivity. Qed.

(** A zero limiter window, which [Validate] would refuse, panics before it is
    validated. *)
Example zero_window_crashes :
  boots_with [("GATEWAY_RATE_LIMIT_ENABLED", "true"); ("GATEWAY_RATE_LIMIT_WINDOW", "0s")]
    (Ok "controller-0") = Crashed "non-positive interval for NewTicker".
Proof. vm_compute. reflexivity. Qed.
