(* ===== verification/HttpApi.v ===== *)
(** * The HTTP API: [internal/httpapi/server.go]

    [serve] is the routing of [NewHTTPServer] followed by the handler.  A
    request is what the handlers read of it; its path is the cleaned path the
    standard library's [ServeMux] matches (its redirects are not modelled).  A
    response is the status and the value that is encoded as JSON, with the text
    of [http.Error] and of the probes.  Timeouts of the request contexts are
    part of the request: how many ticks the preStop hook sees and the context's
    error after them. *)

From Stdlib Require Import String.
From S2P Require Import Prelude.
From S2P Require Import GoStrings.
From S2P Require Import GoTime.
From S2P Require Import Config.
From S2P Require Import World.
From S2P Require Import Metrics.
From S2P Require Import GatewayServer.
From S2P Require Import LeaderElection.
From S2P Require Import ControllerState.
From S2P Require Import Sim.
From S2P Require Import Controller.
From S2P Require Import Health.
From S2P Require Import Lifecycle.
From S2P Require Import Status.

Record Request := mkRequest {
  rq_Method : string;
  rq_Path : string;
  rq_BasicAuth : option (string * string);
  rq_ticks : nat;        (* ticks of the preStop ticker before the context ends *)
  rq_ctxErr : error;     (* ctx.Err() afterwards *)
}.

Inductive body :=
  | Text (text : string)
  | StatusBody (status : StatusResponse)
  | LeadershipBody (currentLeader myIdentity : string) (iAmLeader leaderMatch : bool)
      (leaseName namespace : string)
  | HealthBody (status service : string)
  | RootBody (service version : string) (endpoints : list string)
  | ResetBody (status : string) (connectionsReset : Z) (message : string)
  | MetricsBody.         (* client_golang's promhttp.Handler *)

Record Response := mkResponse { rs_Status : Z; rs_Body : body }.

Definition StatusOK : Z := 200.
Definition StatusUnauthorized : Z := 401.
Definition StatusNotFound : Z := 404.
Definition StatusMethodNotAllowed : Z := 405.
Definition StatusInternalServerError : Z := 500.
Definition StatusServiceUnavailable : Z := 503.

Section HttpApi.
Context {W : Type} `{World W}.
Context (config : Config) (configMapName : string).

Definition reply (status : Z) (b : body) : M (Ctl W) Response := mret (mkResponse status b).

(** [http.Error] *)
Definition http_error (text : string) (status : Z) : M (Ctl W) Response :=
  reply status (Text text).

(** The first lines of every handler. *)
Definition only_method (method : string) (r : Request) (k : M (Ctl W) Response)
    : M (Ctl W) Response :=
  if bool_decide (rq_Method r ≠ method) then
    http_error "Method not allowed" StatusMethodNotAllowed
  else k.

Definition handleStatus (r : Request) : M (Ctl W) Response :=
  only_method "GET" r (
    let? status := GetClusterStatus config configMapName orelse err =>
      http_error ("Failed to get cluster status: " +:+ error_string err) StatusInternalServerError in
    reply StatusOK (StatusBody status)).

Definition handleLeadership (r : Request) : M (Ctl W) Response :=
  only_method "GET" r (
    let? currentLeader := GetCurrentLeader config orelse err =>
      http_error ("Failed to get current leader: " +:+ error_string err) StatusInternalServerError in
    leaderElection ← gets ctl_leaderElection;
    let myIdentity := GetMyIdentity leaderElection in
    reply StatusOK (LeadershipBody currentLeader myIdentity (le_IsLeader leaderElection)
      (bool_decide (currentLeader = myIdentity)) "memgraph-controller-leader" (Namespace config))).

Definition handleHealth (r : Request) : M (Ctl W) Response :=
  only_method "GET" r (reply StatusOK (HealthBody "ok" "memgraph-controller")).

Definition handleRoot (r : Request) : M (Ctl W) Response :=
  only_method "GET" r (reply StatusOK (RootBody "memgraph-controller" "1.0.0"
    ["/api/v1/status"; "/api/v1/leadership"; "/health"; "/livez"; "/readyz"])).

Definition handleLiveness (r : Request) : M (Ctl W) Response :=
  only_method "GET" r (
    running ← IsRunning;
    if negb running then reply StatusServiceUnavailable (Text "Controller not running")
    else reply StatusOK (Text "OK")).

Definition handleReadiness (r : Request) : M (Ctl W) Response :=
  only_method "GET" r (
    leaderElection ← gets ctl_leaderElection;
    if negb (le_IsLeader leaderElection) then reply StatusServiceUnavailable (Text "Not leader")
    else reply StatusOK (Text "OK")).

Definition handleResetConnections (r : Request) : M (Ctl W) Response :=
  only_method "POST" r (
    closedCount ← ResetAllConnections;
    reply StatusOK (ResetBody "success" closedCount
      ("Successfully reset " +:+ fmt_d closedCount +:+ " connections"))).

(** The time limit of the preStop hook, [time.Duration(timeoutSeconds)*time.Second]. *)
Definition prestop_timeout : Z :=
  let envTimeout := w_getenv "PRESTOP_TIMEOUT_SECONDS" in
  let timeoutSeconds :=
    match atoi envTimeout with
    | Ok parsed => if bool_decide (envTimeout ≠ "") && bool_decide (0 < parsed)%Z then parsed else 600%Z
    | Err _ => 600%Z
    end in
  int64 (timeoutSeconds * Second).

Definition authorized (r : Request) : bool :=
  match rq_BasicAuth r with
  | Some (username, password) =>
      bool_decide (username = MemgraphUser config) && bool_decide (password = MemgraphPassword config)
  | None => false
  end.

(** [podName] is only logged. *)
Definition handlePreStopHook (r : Request) : M (Ctl W) Response :=
  only_method "POST" r (
    if negb (authorized r) then http_error "Unauthorized" StatusUnauthorized
    else
      err ← HandlePreStopHook config configMapName (rq_ticks r) (rq_ctxErr r);
      match err with
      | Some err =>
          http_error ("Failed to handle preStop hook: " +:+ error_string err)
            StatusInternalServerError
      | None => reply StatusOK (Text "")
      end).

(** ** Routing *)

Inductive route :=
  | RStatus | RLeadership | RHealth | RLiveness | RReadiness | RMetrics | RRoot
  | RPreStop | RReset.

Definition admin_enabled : bool := bool_decide (w_getenv "ENABLE_ADMIN_API" = "true").

(** The pattern [/prestop-hook/{pod_name}] matches one non-empty segment. *)
Definition is_prestop (path : string) : bool :=
  has_prefix path "/prestop-hook/" &&
  (let podName := string_drop 14 path in
   bool_decide (podName ≠ "") && negb (has_char "/"%char podName)).

Definition route_of (path : string) : route :=
  if bool_decide (path = "/api/v1/status") then RStatus
  else if bool_decide (path = "/api/v1/leadership") then RLeadership
  else if bool_decide (path = "/health") then RHealth
  else if bool_decide (path = "/livez") then RLiveness
  else if bool_decide (path = "/readyz") then RReadiness
  else if bool_decide (path = "/metrics") then RMetrics
  else if admin_enabled && bool_decide (path = "/api/v1/admin/reset-connections") then RReset
  else if is_prestop path then RPreStop
  else RRoot.

Definition serve (r : Request) : M (Ctl W) Response :=
  match route_of (rq_Path r) with
  | RStatus => handleStatus r
  | RLeadership => handleLeadership r
  | RHealth => handleHealth r
  | RLiveness => handleLiveness r
  | RReadiness => handleReadiness r
  | RMetrics => reply StatusOK MetricsBody
  | RReset => handleResetConnections r
  | RPreStop => handlePreStopHook r
  | RRoot => handleRoot r
  end.

(** ** Properties *)

(** What a route needs of the method; the metrics handler takes any. *)
Definition method_of (rt : route) : option string :=
  match rt with
  | RMetrics => None
  | RPreStop | RReset => Some "POST"
  | _ => Some "GET"
  end.

(** A request that may do more than read. *)
Definition privileged (r : Request) : Prop :=
  rq_Method r = "POST" ∧
  match route_of (rq_Path r) with
  | RPreStop => authorized r = true
  | RReset => admin_enabled = true
  | _ => False
  end.

Lemma reset_needs_admin path : route_of path = RReset → admin_enabled = true.
Proof. unfold route_of. repeat case_bool_decide; destruct admin_enabled, (is_prestop path); done. Qed.

Lemma only_method_other m r k s :
  rq_Method r ≠ m →
  only_method m r k s = (Ret (mkResponse StatusMethodNotAllowed (Text "Method not allowed")), s).
Proof. intros Hm. unfold only_method. by rewrite bool_decide_eq_true_2. Qed.

Lemma keeps_only_method m r k :
  keeps (effects reads) k → keeps (effects reads) (only_method m r k).
Proof.
  intros Hk. unfold only_method, http_error, reply. case_bool_decide; [apply keeps_ret, _|done].
Qed.

Lemma keeps_GetCurrentLeader : keeps (effects reads) (GetCurrentLeader (W := W) config).
Proof.
  assert (∀ f : W → result (option string) * W, keeps (effects reads) (cnet (call f)))
    by (intros f; apply keeps_world, keeps_call_emits).
  unfold GetCurrentLeader. solve_keeps.
Qed.

Lemma keeps_serve r : ¬ privileged r → keeps (effects reads) (serve r).
Proof.
  pose proof (keeps_GetClusterStatus (W := W) config configMapName).
  pose proof keeps_GetCurrentLeader.
  intros Hp. unfold serve, privileged in *.
  destruct (route_of (rq_Path r)) eqn:Hrt;
    try (apply keeps_only_method; unfold reply, http_error, IsRunning; solve [solve_keeps]).
  - apply keeps_ret, _.
  - intros s. unfold handlePreStopHook.
    destruct (decide (rq_Method r = "POST")); [|by rewrite only_method_other].
    unfold only_method. rewrite bool_decide_eq_false_2 by naive_solver.
    destruct (authorized r); [naive_solver|reflexivity].
  - intros s. unfold handleResetConnections.
    destruct (decide (rq_Method r = "POST")); [|by rewrite only_method_other].
    apply reset_needs_admin in Hrt. naive_solver.
Qed.

(** C26. What the HTTP API lets a client do.  A request with the wrong method
    gets 405 and changes nothing.  Only a POST to the preStop hook with the
    configured user and password, or to the reset endpoint when the admin API is
    enabled, does more than read; a preStop request without them gets 401 and
    changes nothing.  The readiness probe answers 200 exactly on the leader (so
    that only its gateway gets traffic) and the liveness probe exactly while the
    control loop runs. *)
Theorem http_access (r : Request) (s : Ctl W) :
  let rt := route_of (rq_Path r) in
  (∀ m, method_of rt = Some m → rq_Method r ≠ m →
     serve r s = (Ret (mkResponse StatusMethodNotAllowed (Text "Method not allowed")), s)) ∧
  (¬ privileged r → effects reads s (serve r s).2) ∧
  (rt = RPreStop → rq_Method r = "POST" → authorized r = false →
     serve r s = (Ret (mkResponse StatusUnauthorized (Text "Unauthorized")), s)) ∧
  (rt = RReadiness → rq_Method r = "GET" → ∃ resp, serve r s = (Ret resp, s) ∧
     (rs_Status resp = StatusOK ↔ le_IsLeader (ctl_leaderElection s) = true)) ∧
  (rt = RLiveness → rq_Method r = "GET" → ∃ resp, serve r s = (Ret resp, s) ∧
     (rs_Status resp = StatusOK ↔ ctl_isRunning s = true)).
Proof.
  intros rt. split; [|split; [intros Hp; by apply keeps_serve|split; [|split]]].
  - intros m Hm Hne. unfold serve. fold rt.
    destruct rt; try discriminate Hm; injection Hm as <-; by apply only_method_other.
  - intros Hrt Hm Ha. unfold serve. fold rt. rewrite Hrt. unfold handlePreStopHook, only_method.
    by rewrite Hm, Ha.
  - intros Hrt Hm. unfold serve. fold rt. rewrite Hrt. unfold handleReadiness, only_method.
    rewrite Hm. unfold mbind, M_bind, gets. simpl.
    destruct (le_IsLeader (ctl_leaderElection s)); (eexists; split; [reflexivity|]); by split.
  - intros Hrt Hm. unfold serve. fold rt. rewrite Hrt. unfold handleLiveness, only_method.
    rewrite Hm. unfold IsRunning, mbind, M_bind, gets. simpl.
    destruct (ctl_isRunning s); (eexists; split; [reflexivity|]); by split.
Qed.

(** A successful preStop request ends with the read/write gateway closed. *)
Lemma prestop_request (r : Request) (s s' : Ctl W) resp :
  route_of (rq_Path r) = RPreStop → rq_Method r = "POST" → authorized r = true →
  serve r s = (Ret resp, s') →
  ∃ o, HandlePreStopHook config configMapName (rq_ticks r) (rq_ctxErr r) s = (Ret o, s') ∧
    (rs_Status resp = StatusOK ↔ o = None).
Proof.
  intros Hrt Hm Ha. unfold serve. rewrite Hrt. unfold handlePreStopHook, only_method.
  rewrite Hm, Ha. simpl. intros Hr. inv_bind Hr as o s1 H1. exists o.
  destruct o; injection Hr as <- <-; (split; [done|]); by split.
Qed.
End HttpApi.

(** ** Witness *)

Definition ready_request (path : string) : Request := mkRequest "GET" path None 0 (CtxErr "").

Lemma http_access_witness :
  ∃ resp, serve example_config "state" (ready_request "/readyz") sim_failed = (Ret resp, sim_failed) ∧
    rs_Status resp = StatusOK.
Proof.
  destruct (http_access example_config "state" (ready_request "/readyz") sim_failed)
    as (_ & _ & _ & H & _).
  destruct (H eq_refl eq_refl) as (resp & Hr & Hok). exists resp. split; [exact Hr|].
  apply Hok. vm_compute. reflexivity.
Defined.

(** A wrong path is not a preStop request, and a large timeout overflows. *)
Example route_examples :
  route_of (W := Sim) "/prestop-hook/memgraph-ha-0" = RPreStop ∧
  route_of (W := Sim) "/prestop-hook/" = RRoot ∧
  route_of (W := Sim) "/prestop-hook/a/b" = RRoot ∧
  route_of (W := Sim) "/api/v1/admin/reset-connections" = RRoot ∧
  prestop_timeout (W := Sim) = (600 * Second)%Z.
Proof. vm_compute. auto. Qed.
