(* ===== verification/HttpServer.v ===== *)
(** * The HTTP server: [NewHTTPServer], [Start] and [Stop] of
      [internal/httpapi/server.go]

    The routes as they are registered with [http.ServeMux], whose documented
    rule is that of the registered patterns that match a path the most
    specific wins; [serve] of HttpApi.v dispatches the same way.  The timeouts of
    the [http.Server] are set against the time the preStop hook waits: the hook
    may wait for [prestop_timeout], ten minutes by default, on a server that
    cuts every response off after half a minute. *)

From Stdlib Require Import String.
From S2P Require Import Prelude.
From S2P Require Import GoStrings.
From S2P Require Import GoTime.
From S2P Require Import Config.
From S2P Require Import World.
From S2P Require Import ControllerState.
From S2P Require Import Sim.
From S2P Require Import Health.
From S2P Require Import HttpApi.

(** A pattern: a path, a path that ends in one wildcard segment, or "/". *)
Inductive pattern :=
  | Exact (path : string)
  | Segment (prefix : string)
  | Subtree.

Record HTTPServer := mkHTTPServer {
  hs_Addr : string;
  hs_ReadTimeout : Z;
  hs_WriteTimeout : Z;
  hs_IdleTimeout : Z;
  hs_mux : list (pattern * route);   (* in the order of registration *)
}.

Section HttpServer.
Context {W : Type} `{World W}.

Definition NewHTTPServer (config : Config) : HTTPServer :=
  mkHTTPServer (":" +:+ HTTPPort config) (30 * Second) (30 * Second) (60 * Second)
    ([(Exact "/api/v1/status", RStatus);
      (Exact "/api/v1/leadership", RLeadership);
      (Exact "/health", RHealth);
      (Exact "/livez", RLiveness);
      (Exact "/readyz", RReadiness);
      (Exact "/metrics", RMetrics);
      (Subtree, RRoot);
      (Segment "/prestop-hook/", RPreStop)] ++
     (if admin_enabled then [(Exact "/api/v1/admin/reset-connections", RReset)] else [])).

(** [Start]: the server runs in its own goroutine; whatever [ListenAndServe]
    returns is only logged.  [true]: the API is served. *)
Definition hs_Start (listenAndServe : option error) : bool := is_nil listenAndServe.

(** [Stop]: the error of [http.Server.Shutdown]. *)
Definition hs_Stop (shutdown : option error) : option error :=
  match shutdown with Some err => Some err | None => None end.

End HttpServer.

(** ** The mux *)

Definition pat_matches (path : string) (p : pattern) : bool :=
  match p with
  | Exact s => bool_decide (path = s)
  | Segment prefix =>
      has_prefix path prefix &&
      (let rest := string_drop (String.length prefix) path in
       bool_decide (rest ≠ "") && negb (has_char "/"%char rest))
  | Subtree => true
  end.

(** More specific patterns rank higher: every path of the one is a path of the
    other. *)
Definition rank (p : pattern) : nat :=
  match p with Exact _ => 2 | Segment _ => 1 | Subtree => 0 end.

(** [r] is what the documentation of [http.ServeMux] dispatches [path] to. *)
Definition dispatches (mux : list (pattern * route)) (path : string) (r : route) : Prop :=
  ∃ p, (p, r) ∈ mux ∧ pat_matches path p = true ∧
    ∀ p' r', (p', r') ∈ mux → pat_matches path p' = true → r' = r ∨ rank p' < rank p.

(** ** The preStop hook against the write timeout *)

(** When a waiting hook's k-th tick is received and when its context expires,
    since the header of the request was read. *)
Record timing := mkTiming { tm_tick : nat → Z; tm_expiry : Z }.

Section timing.
Context {W : Type} `{World W}.
Context (config : Config) (configMapName : string).

(** The number of the tick at which the loop of [HandlePreStopHook] finds the
    cluster healthy, if it is one of the next [ticks]; [k] is the next one. *)
Fixpoint healed_at (ticks k : nat) : M (Ctl W) (option nat) :=
  match ticks with
  | O => mret None
  | S ticks =>
      err ← isHealthy config configMapName;
      match err with
      | None => mret (Some k)
      | Some _ =>
          _ ← logDetailedClusterStatus config configMapName;
          healed_at ticks (S k)
      end
  end.

(** The traffic is stopped before the loop. *)
Definition close_gateway : M (Ctl W) () :=
  nogw ← gw_nil false;
  if nogw : bool then mret () else gw_SetUpstreamAddress false "".

(** When the handler writes its response, if it returns. *)
Definition answered_at (tm : timing) (ticks : nat) (s : Ctl W) : option Z :=
  match healed_at ticks 1 (close_gateway s).2 with
  | (Ret (Some k), _) => Some (tm_tick tm k)
  | (Ret None, _) => Some (tm_expiry tm)
  | _ => None
  end.

End timing.

Section properties.
Context {W : Type} `{World W}.

Lemma matches_exact path s : pat_matches path (Exact s) = true ↔ path = s.
Proof. apply bool_decide_eq_true. Qed.

Lemma matches_prestop path : pat_matches path (Segment "/prestop-hook/") = is_prestop path.
Proof. done. Qed.

(** It is enough that one registered pattern matches and that every other that
    matches ranks lower. *)
Lemma dispatches_to mux path r p :
  (p, r) ∈ mux → pat_matches path p = true →
  Forall (λ pr, pat_matches path pr.1 = true → pr.2 = r ∨ rank pr.1 < rank p) mux →
  dispatches mux path r.
Proof.
  intros Hin Hm Hall. exists p. split_and!; [done..|].
  intros p' r' Hp' Hm'. exact (proj1 (Forall_forall _ _) Hall (p', r') Hp' Hm').
Qed.

(** The route is found by trying the exact patterns, then the wildcard, then
    the root. *)
Ltac ranked :=
  cbn [fst snd rank]; rewrite ?matches_prestop, ?matches_exact; intros;
  try discriminate; simplify_eq; auto.

Ltac routed p :=
  apply (dispatches_to _ _ _ p);
  [ repeat first [apply list_elem_of_here | apply list_elem_of_further]
  | first [by apply matches_exact | by rewrite matches_prestop | done]
  | repeat (apply Forall_cons; split); try apply Forall_nil; ranked ].

(** C28. The routing of the model is the mux's: the handler [serve] picks for a
    path is the one registered with the most specific pattern that matches it,
    the admin endpoint only if it is enabled. *)
Theorem route_is_registered (config : Config) (path : string) :
  dispatches (hs_mux (NewHTTPServer config)) path (route_of path).
Proof.
  unfold route_of, NewHTTPServer. cbn [hs_mux].
  repeat case_bool_decide; simplify_eq; destruct admin_enabled; cbn [andb app];
    try destruct (is_prestop _) eqn:?;
    match goal with
    | |- dispatches _ _ RPreStop => routed (Segment "/prestop-hook/")
    | |- dispatches _ _ RRoot => routed Subtree
    | |- dispatches _ ?s _ => routed (Exact s)
    end.

  all: congruence.
Qed.

(** The loop finds nothing at ticks at which it was seen to find nothing. *)
Lemma healed_at_late config cm n ticks k j err s e s' s'' :
  prestop_loop config cm n err s = (Ret (Some e), s') →
  healed_at config cm ticks k s = (Ret (Some j), s'') → k + n ≤ j.
Proof.
  revert ticks k s. induction n as [|n IH]; intros ticks k s Hr Hj.
  - clear Hr. rewrite Nat.add_0_r. revert k s Hj.
    induction ticks as [|ticks IH]; intros k s Hj; [discriminate Hj|]. simpl in Hj.
    inv_bind Hj as o s1 H1. destruct o; [|injection Hj; lia].
    inv_bind Hj as u s2 H2. apply IH in Hj. lia.
  - destruct ticks as [|ticks]; [discriminate Hj|]. simpl in Hr, Hj. inv_bind Hr as o s1 H1.
    inv_bind Hj as o' s1' H1'. rewrite H1 in H1'. injection H1' as <- <-.
    destruct o as [e1|]; [|done]. inv_bind Hr as u s2 H2. inv_bind Hj as u' s2' H2'.
    rewrite H2 in H2'. injection H2' as <- <-. apply (IH _ _ _ Hr) in Hj. lia.
Qed.

Lemma HandlePreStopHook_enters config cm ticks err s :
  HandlePreStopHook config cm ticks err s = prestop_loop config cm ticks err (close_gateway s).2.
Proof.
  unfold HandlePreStopHook, close_gateway, gw_nil, gets, mbind, M_bind.
  destruct (ctl_gatewayServer s) eqn:Hg; simpl; rewrite Hg; simpl; [|done].
  unfold gw_SetUpstreamAddress. simpl. by rewrite Hg.
Qed.

Section write_timeout.
(** [net/http]: a response is written no later than [WriteTimeout], if it is
    positive, after the header of its request was read. *)
Context (delivered : HTTPServer → Z → bool).
Hypothesis write_deadline : ∀ hs t,
  (0 < hs_WriteTimeout hs)%Z → delivered hs t = true → (t ≤ hs_WriteTimeout hs)%Z.

(** C27. A preStop hook that has to wait is not answered: a ticker does not tick
    early and a context does not expire early, so when the cluster is not
    healthy at any of the first fifteen ticks and the hook's own limit is above
    the server's thirty seconds (ten minutes by default), the response, success
    or error, is written after the server's write timeout and the caller never
    sees it. *)
Theorem slow_hook_unanswered config cm (tm : timing) (ticks : nat) err s e s' :
  (∀ k, Z.of_nat k * (2 * Second) ≤ tm_tick tm k)%Z →
  (prestop_timeout ≤ tm_expiry tm)%Z → (30 * Second < prestop_timeout)%Z →
  HandlePreStopHook config cm 15 err s = (Ret (Some e), s') →
  ∀ t, answered_at config cm tm ticks s = Some t → delivered (NewHTTPServer config) t = false.
Proof.
  intros Htick Hexp Hlimit Hr t Ht. rewrite HandlePreStopHook_enters in Hr.
  apply not_true_iff_false. intros Hd. apply write_deadline in Hd; [|done].
  unfold answered_at in Ht. change (hs_WriteTimeout _) with (30 * Second)%Z in Hd.
  destruct (healed_at _ _ _ _ _) as [[[j|]|] s2] eqn:Hj; simplify_eq; [|lia].
  apply (healed_at_late _ _ _ _ _ _ _ _ _ _ _ Hr) in Hj. specialize (Htick j).
  unfold Second in *. lia.
Qed.
End write_timeout.
End properties.

(** ** Witness *)

Definition exact_timing : timing := mkTiming (λ k, (Z.of_nat k * (2 * Second))%Z) (600 * Second).

(** The main is down and its replica list was never read. *)
Definition sim_down : Ctl Sim :=
  sim_ctl (sim_world None (Some db_replica)) 0 sim_nodes None.

Definition on_time (hs : HTTPServer) (t : Z) : bool := (t <=? hs_WriteTimeout hs)%Z.

Lemma on_time_deadline hs t :
  (0 < hs_WriteTimeout hs)%Z → on_time hs t = true → (t ≤ hs_WriteTimeout hs)%Z.
Proof. intros _. apply Z.leb_le. Qed.

Lemma slow_hook_unanswered_witness :
  on_time (NewHTTPServer example_config) 0 = true ∧
  on_time (NewHTTPServer example_config) (600 * Second) = false.
Proof.
  split; [vm_compute; reflexivity|].
  apply (slow_hook_unanswered on_time on_time_deadline example_config "state" exact_timing 299
    (CtxErr "deadline") sim_down (CtxErr "deadline")
    (HandlePreStopHook example_config "state" 15 (CtxErr "deadline") sim_down).2).
  - intros k. simpl. lia.
  - vm_compute. discriminate.
  - vm_compute. reflexivity.
  - vm_compute. reflexivity.
  - vm_compute. reflexivity.
Defined.
