(* ===== verification/Contract.v ===== *)
(** * The contract of the controller: an abstract specification and its refinement

    What the controller may do to the outside world, as a small transition
    system over what matters of its state: the pod that is the target main, the
    names and addresses of the known nodes, and where the read/write gateway
    sends traffic.  [spec_step] accepts or refuses one observable event:

    - read queries, the read-only gateway and refreshes of the node map are free;
    - the read/write gateway is either closed or opened to the target main;
    - a promotion goes to the other data pod, and the ConfigMap is flipped to
      it, only while the read/write gateway is closed;
    - demotions go to nodes other than the target main;
    - replicas are registered and dropped on the target main.

    [refines s s']: the events between two states of the controller are a run of
    this specification between their views. *)

From S2P Require Import Prelude.
From S2P Require Import GoStrings.
From S2P Require Import Pods.
From S2P Require Import Config.
From S2P Require Import World.
From S2P Require Import MemgraphClient.
From S2P Require Import MemgraphNode.
From S2P Require Import GatewayServer.
From S2P Require Import ControllerState.
From S2P Require Import Controller.
From S2P Require Import Failover.
From S2P Require Import Cluster.
From S2P Require Import Health.
From S2P Require Import Reconcile.

(** ** The specification *)

Abbreviation node_ids := (option (gmap string (string * string))).

Record Abs := mkAbs {
  a_target : Z;        (* index of the target main *)
  a_nodes : node_ids;  (* names and addresses of the nodes *)
  a_write : string;    (* upstream of the read/write gateway; empty: closed *)
}.

(** Every node is filed under its own name. *)
Definition named_nodes (X : node_ids) : Prop :=
  ∀ m k name ip, X = Some m → m !! k = Some (name, ip) → name = k.

Inductive spec_step (config : Config) : Abs → io → Abs → Prop :=
  | sp_read t X w a q :
      read_query q → spec_step config (mkAbs t X w) (IoQuery a q) (mkAbs t X w)
  | sp_read_gateway t X w a :
      spec_step config (mkAbs t X w) (IoGateway true a) (mkAbs t X w)
  | sp_disconnect t X w r :
      spec_step config (mkAbs t X w) (IoDisconnect r) (mkAbs t X w)
  | sp_refresh t X w X' :
      named_nodes X' → spec_step config (mkAbs t X w) IoRefresh (mkAbs t X' w)
  | sp_close t X w :
      spec_step config (mkAbs t X w) (IoGateway false "") (mkAbs t X "")
  | sp_open t X w a :
      address_in X (GetPodName config t) a →
      spec_step config (mkAbs t X w) (IoGateway false a) (mkAbs t X a)
  | sp_promote t X a :
      address_in X (GetPodName config (1 - t)) a →
      spec_step config (mkAbs t X "") (IoQuery a q_promote) (mkAbs t X "")
  | sp_flip t X :
      spec_step config (mkAbs t X "") (IoConfigMap (index_data (1 - t))) (mkAbs (1 - t) X "")
  | sp_demote t X w k a :
      k ≠ GetPodName config t → address_in X k a →
      spec_step config (mkAbs t X w) (IoQuery a q_demote) (mkAbs t X w)
  | sp_register t X w a q :
      address_in X (GetPodName config t) a → registration q →
      spec_step config (mkAbs t X w) (IoQuery a q) (mkAbs t X w).

Inductive spec_run (config : Config) : Abs → list io → Abs → Prop :=
  | spec_nil a : spec_run config a [] a
  | spec_cons a e a1 evs a2 :
      spec_step config a e a1 → spec_run config a1 evs a2 → spec_run config a (e :: evs) a2.

Create HintDb contract.
#[export] Hint Constructors spec_step spec_run : contract.

Lemma spec_run_app config a e1 a1 e2 a2 :
  spec_run config a e1 a1 → spec_run config a1 e2 a2 → spec_run config a (e1 ++ e2) a2.
Proof. induction 1; simpl; eauto with contract. Qed.

Lemma spec_run_stay config a evs :
  Forall (λ e, spec_step config a e a) evs → spec_run config a evs a.
Proof. induction 1; eauto with contract. Qed.

(** The invariant of the specification: the target is one of the two data pods. *)
Definition abs_wf (a : Abs) : Prop :=
  (a_target a = 0%Z ∨ a_target a = 1%Z) ∧ named_nodes (a_nodes a).

Lemma spec_step_wf config a e a' : spec_step config a e a' → abs_wf a → abs_wf a'.
Proof.
  unfold abs_wf. destruct 1; simpl; intros [Ht Hn]; (split; [|done]); try done.
  destruct Ht as [-> | ->]; [by right|by left].
Qed.

Lemma spec_run_wf config a evs a' : spec_run config a evs a' → abs_wf a → abs_wf a'.
Proof. induction 1; eauto using spec_step_wf. Qed.

(** ** What a run of the specification looks like from outside *)

(** Where the read/write gateway sends traffic after some events. *)
Definition write_upstream (u : string) (evs : list io) : string :=
  foldl (λ u e, match e with IoGateway false a => a | _ => u end) u evs.

Lemma spec_step_upstream config a e a' :
  spec_step config a e a' → a_write a' = write_upstream (a_write a) [e].
Proof. by destruct 1. Qed.

Lemma spec_run_upstream config a evs a' :
  spec_run config a evs a' → a_write a' = write_upstream (a_write a) evs.
Proof. induction 1 as [|a e a1 evs a2 Hs _ IH]; [done|]. by rewrite IH, (spec_step_upstream _ _ _ _ Hs). Qed.

Lemma spec_run_split config a e1 e2 a' :
  spec_run config a (e1 ++ e2) a' → ∃ a1, spec_run config a e1 a1 ∧ spec_run config a1 e2 a'.
Proof.
  revert a. induction e1 as [|e e1 IH]; intros a; simpl; [eauto with contract|].
  inversion 1; subst. edestruct IH as (b & ? & ?); [eassumption|]. eauto with contract.
Qed.

(** A promotion of a database, or a write of the ConfigMap. *)
Definition role_event (e : io) : Prop := (∃ a, e = IoQuery a q_promote) ∨ is_configmap e.

Lemma spec_step_closed config a e a' : spec_step config a e a' → role_event e → a_write a = "".
Proof.
  assert (¬ read_query q_promote) by (unfold read_query; rewrite !elem_of_cons, elem_of_nil; naive_solver).
  assert (¬ registration q_promote) by (by intros [(? & ? & ? & _ & [=])|(? & [=])]).
  intros Hs [[b ->]|Hc]; inversion Hs; subst; done.
Qed.

Lemma spec_run_closed config a e1 e e2 a' :
  spec_run config a (e1 ++ e :: e2) a' → role_event e → write_upstream (a_write a) e1 = "".
Proof.
  intros (b & H1 & H2)%spec_run_split He. rewrite <- (spec_run_upstream _ _ _ _ H1).
  inversion H2; subst. by eapply spec_step_closed.
Qed.

(** The contents written to the ConfigMap. *)
Definition stored (evs : list io) : list cm_data :=
  omap (λ e, match e with IoConfigMap d => Some d | _ => None end) evs.

(** [n] failovers starting from index [t]: what they store, and where they end. *)
Fixpoint flips (t : Z) (n : nat) : list cm_data :=
  match n with O => [] | S n => index_data (1 - t) :: flips (1 - t) n end.
Fixpoint flip (t : Z) (n : nat) : Z := match n with O => t | S n => flip (1 - t) n end.

Lemma spec_run_stored config a evs a' :
  spec_run config a evs a' →
  ∃ n, stored evs = flips (a_target a) n ∧ a_target a' = flip (a_target a) n.
Proof.
  induction 1 as [a|a e a1 evs a2 Hs _ (n & Hn & Ht)]; [by exists 0|].
  destruct Hs; simpl in *; try (by exists n).
  exists (S n). simpl. by rewrite Hn, Ht.
Qed.

(** ** Refinement *)

Section Contract.
Context {W : Type} `{World W}.
Context (config : Config) (configMapName : string).

Definition view (s : Ctl W) : Abs :=
  mkAbs (ctl_targetMainIndex s) (ids s) (default "" (upstream false s)).

Definition refines : relation (Ctl W) := λ s s',
  ∃ evs, trace_of s' = trace_of s ++ evs ∧ spec_run config (view s) evs (view s').

Global Instance refines_preorder : PreOrder refines.
Proof.
  split.
  - intros s. exists []. rewrite app_nil_r. eauto with contract.
  - intros s1 s2 s3 (e1 & T1 & R1) (e2 & T2 & R2). exists (e1 ++ e2).
    split; [by rewrite T2, T1, app_assoc|]. by eapply spec_run_app.
Qed.

(** A state whose view is well-formed, and that stays so. *)
Definition sound (s : Ctl W) : Prop := abs_wf (view s).

Lemma refines_sound s s' : refines s s' → sound s → sound s'.
Proof. intros (evs & _ & R). by apply (spec_run_wf _ _ _ _ R). Qed.

Lemma sound_two_pods s : sound s → two_pods s.
Proof. by intros [? _]. Qed.

Lemma named_view (s : Ctl W) : named s ↔ named_nodes (ids s).
Proof.
  unfold named, named_nodes, ids, node_at. destruct (ctl_cluster s) as [nodes|]; simpl; [|naive_solver].
  split.
  - intros Hn m k name ip [= <-]. rewrite lookup_fmap. intros (n & Hk & Hid)%fmap_Some.
    injection Hid as -> _. by apply Hn.
  - intros Hn k n Hk. apply (Hn _ k (mn_name n) (mn_ipAddress n) eq_refl).
    by rewrite lookup_fmap, Hk.
Qed.

Lemma sound_named s : sound s → named s.
Proof. intros [_ Hn]. by apply named_view. Qed.

Lemma sound_loaded s : sound s → ctl_targetMainIndex s ≠ (-1)%Z.
Proof. intros Hs. by apply (two_pods_sync s), sound_two_pods. Qed.

(** Nothing observable happened. *)
Lemma refines_quiet s s' : trace_of s' = trace_of s → view s' = view s → refines s s'.
Proof. intros T V. exists []. rewrite app_nil_r, V. eauto with contract. Qed.

Lemma refines_one e s s' :
  trace_of s' = trace_of s ++ [e] → spec_step config (view s) e (view s') → refines s s'.
Proof. intros T Hs. exists [e]. eauto with contract. Qed.

(** Events the specification accepts in the view of [s] without changing it. *)
Lemma refines_stay (P : io → Prop) s s' :
  ctl_targetMainIndex s ≠ (-1)%Z → effects P s s' →
  (∀ e, P e → spec_step config (view s) e (view s)) →
  (∀ e, P e → ¬ touches_gateway false e ∧ ¬ is_configmap e ∧ ¬ is_refresh e) →
  refines s s'.
Proof.
  intros Hi He Hstep Hno. pose proof He as (_ & evs & T & F & _). exists evs. split; [done|].
  assert (view s' = view s) as ->.
  { unfold view, upstream. rewrite (effects_index P s s' He), (effects_ids P s s' He),
      (effects_gateway P s s' false He); naive_solver. }
  apply spec_run_stay. by eapply Forall_impl.
Qed.

(** Reads, and switches of the read-only gateway. *)
Definition calm (e : io) : Prop :=
  reads e ∨ (∃ a, e = IoGateway true a) ∨ e = IoDisconnect true.

Lemma refines_calm (P : io → Prop) s s' :
  ctl_targetMainIndex s ≠ (-1)%Z → effects P s s' → (∀ e, P e → calm e) → refines s s'.
Proof.
  intros Hi He HP. apply (refines_stay P); [done|done|..]; intros e [(a & q & -> & Hq)|[[a ->]| ->]]%HP.
  - by apply sp_read.
  - apply sp_read_gateway.
  - apply sp_disconnect.
  - split; [by intros []|]. split; [by intros []|]. discriminate.
  - split; [discriminate|]. split; [by intros []|]. discriminate.
  - split; [discriminate|]. split; [by intros []|]. discriminate.
Qed.

Lemma refines_reads s s' :
  ctl_targetMainIndex s ≠ (-1)%Z → effects reads s s' → refines s s'.
Proof. intros Hi He. apply (refines_calm reads); [done|done|]. by left. Qed.

(** The loop over the replicas. *)
Lemma refines_replicas s s' :
  ctl_targetMainIndex s ≠ (-1)%Z →
  effects (replica_event (ids s) (GetPodName config (ctl_targetMainIndex s))) s s' → refines s s'.
Proof.
  intros Hi He. apply (refines_stay _ s s' Hi He).
  - intros e [(a & q & -> & Hq)|[(k & a & Hk & Ha & ->)|(a & q & Ha & -> & Hq)]].
    + by apply sp_read.
    + by eapply sp_demote.
    + by apply sp_register.
  - intros e (a & q & ->)%replica_event_query. split; [by intros []|]. split; [by intros []|].
    discriminate.
Qed.

Lemma refines_refresh s s' :
  ctl_targetMainIndex s ≠ (-1)%Z → named s' → effects is_refresh s s' → refines s s'.
Proof.
  intros Hi Hnm%named_view He. pose proof He as (_ & evs & T & F & _ & _ & N). exists evs. split; [done|].
  assert (view s' = mkAbs (ctl_targetMainIndex s) (ids s') (default "" (upstream false s))) as ->.
  { unfold view, upstream. rewrite (effects_index _ s s' He), (effects_gateway _ s s' false He);
      [done|..|done]; by intros e -> []. }
  unfold view at 1. destruct F as [|e evs -> F].
  - rewrite N by done. apply spec_nil.
  - apply (spec_cons _ _ _ _ _ _ (sp_refresh _ _ _ _ (ids s') Hnm)). apply spec_run_stay.
    eapply Forall_impl; [exact F|]. intros e ->. by apply sp_refresh.
Qed.

(** ** Failover *)

Lemma close_refines s u s' :
  close_gateways s = (Ret u, s') →
  refines s s' ∧ closed s' ∧ ctl_cluster s' = ctl_cluster s ∧
  ctl_targetMainIndex s' = ctl_targetMainIndex s.
Proof.
  intros Hr. unfold close_gateways in Hr. inv_bind Hr as u1 s1 H1.
  unfold gw_SetUpstreamAddress in H1.
  destruct (gateway_of false s) as [g|] eqn:Hg; [|done]. injection H1 as _ <-.
  inv_bind Hr as b s2 H2. injection H2 as <- <-.
  set (s1 := add_trace _ _) in Hr.
  assert (refines s s1) as R1.
  { apply (refines_one (IoGateway false "")); [done|].
    unfold view, upstream. simpl. rewrite SetUpstreamAddress_upstream. apply sp_close. }
  assert (upstream false s1 = Some "") as Hu.
  { unfold upstream. simpl. by rewrite SetUpstreamAddress_upstream. }
  change (ctl_readGatewayServer s1) with (ctl_readGatewayServer s) in Hr.
  unfold closed, upstream in *. simpl. destruct (ctl_readGatewayServer s) as [rg|] eqn:Hrg; simpl in Hr.
  - unfold gw_SetUpstreamAddress in Hr. change (gateway_of true s1) with (ctl_readGatewayServer s) in Hr.
    rewrite Hrg in Hr. injection Hr as _ <-. split; [|split; [|done]].
    + etrans; [exact R1|]. apply (refines_one (IoGateway true "")); [done|]. apply sp_read_gateway.
    + split; [done|]. right. simpl. by rewrite SetUpstreamAddress_upstream.
  - injection Hr as _ <-. split; [done|]. split; [|done]. split; [done|]. left.
    simpl. by rewrite Hrg.
Qed.

(** The promotion, with the gateways closed. *)
Lemma promote_refines s role e s' :
  two_pods s → closed s →
  (if bool_decide (role = "main") then mret None
   else promoteSyncReplica config configMapName) s = (Ret e, s') →
  refines s s' ∧ closed s' ∧ ids s' = ids s ∧ ctl_targetMainIndex s' = ctl_targetMainIndex s.
Proof.
  intros Htwo Hc Hr. destruct (two_pods_sync s Htwo) as (_ & _ & Hi).
  set (addr := match node_at s (sync_pod config s) with Some n => bolt_of n | None => "" end).
  pose proof (promote_step config configMapName s role addr Htwo Hc) as He.
  rewrite Hr in He. assert (effects (promoting addr) s s') as E.
  { apply He. intros n Hn. unfold addr. by rewrite Hn. }
  destruct (promoting_facts addr s s' E Hi) as (Hi' & Hids & Hg).
  split; [|split; [unfold closed, upstream in *; by rewrite !Hg|done]].
  destruct (node_at s (sync_pod config s)) as [n|] eqn:Hn.
  - apply (refines_stay _ s s' Hi E).
    + intros e' [(a & q & -> & Hq)| ->]; [by apply sp_read|].
      unfold view. destruct Hc as [-> _]. apply sp_promote. by apply address_in_node.
    + intros e' [(a & q & -> & Hq)| ->]; (split; [by intros []|]); (split; [by intros []|]); discriminate.
  - case_bool_decide; [injection Hr as _ <-; reflexivity|].
    unfold promoteSyncReplica in Hr. inv_bind Hr as idx s1 H1.
    rewrite GetTargetMainIndex_loaded in H1 by done. injection H1 as <- <-.
    destruct (two_pods_sync s Htwo) as (Hint & _). rewrite Hint in Hr.
    inv_bind Hr as u s1 H1. rewrite protect_closed in H1 by apply Hc. injection H1 as _ <-.
    inv_bind Hr as nd s1 H1. apply find_node_inv in H1 as [-> ->].
    unfold sync_pod in Hn. rewrite Hn in Hr. injection Hr as _ <-. reflexivity.
Qed.

Lemma flip_refines s e s' :
  two_pods s → upstream false s = Some "" →
  SetTargetMainIndex config configMapName (1 - ctl_targetMainIndex s) s = (Ret e, s') →
  refines s s' ∧ two_pods s' ∧ ids s' = ids s ∧ upstream false s' = Some "" ∧
  (e = None → ctl_targetMainIndex s' = (1 - ctl_targetMainIndex s)%Z).
Proof.
  intros Htwo Hu Hr. apply SetTargetMainIndex_inv in Hr as (Hc & Hg & Hr).
  assert (ids s' = ids s) as Hids by (unfold ids; by rewrite Hc).
  assert (upstream false s' = upstream false s) as Hup by (unfold upstream; by rewrite Hg).
  destruct e as [e|]; destruct Hr as [Hi T].
  - split; [|split; [unfold two_pods; by rewrite Hi|]; split; [done|]; split; [congruence|done]].
    apply refines_quiet; [done|]. unfold view. by rewrite Hi, Hids, Hup.
  - split; [|split; [|split; [done|]; split; [congruence|done]]].
    + apply (refines_one _ _ _ T). unfold view. rewrite Hi, Hids, Hup, Hu. apply sp_flip.
    + unfold two_pods in *. rewrite Hi. destruct Htwo as [-> | ->]; [by right|by left].
Qed.

(** Opening the gateway to the node of the target main. *)
Lemma open_main_refines (s : Ctl W) u s' n :
  node_at s (GetPodName config (ctl_targetMainIndex s)) = Some n →
  gw_SetUpstreamAddress false (bolt_of n) s = (Ret u, s') →
  refines s s' ∧ ctl_targetMainIndex s' = ctl_targetMainIndex s ∧ ids s' = ids s.
Proof.
  intros Hn Hr. unfold gw_SetUpstreamAddress in Hr.
  destruct (gateway_of false s) as [g|]; [|done]. injection Hr as _ <-.
  split; [|done]. apply (refines_one (IoGateway false (bolt_of n))); [done|].
  unfold view, upstream. simpl. rewrite SetUpstreamAddress_upstream.
  apply sp_open. by apply address_in_node.
Qed.

Lemma keeps_calm_update : keeps (effects calm) (updateReadGatewayUpstream config configMapName).
Proof. apply keeps_updateReadGatewayUpstream; unfold calm; eauto. Qed.

Lemma calm_index (s s' : Ctl W) :
  effects calm s s' → ctl_targetMainIndex s ≠ (-1)%Z → ctl_targetMainIndex s' = ctl_targetMainIndex s.
Proof.
  intros He. apply (effects_index _ _ _ He). intros e [(a & q & -> & _)|[[a ->]| ->]]; by intros [].
Qed.

Lemma open_refines (s : Ctl W) u s' :
  two_pods s →
  open_gateways config configMapName (GetPodName config (ctl_targetMainIndex s)) s = (Ret u, s') →
  refines s s' ∧ two_pods s'.
Proof.
  intros Htwo Hr. destruct (two_pods_sync s Htwo) as (_ & _ & Hi).
  unfold open_gateways in Hr. inv_bind Hr as b s1 H1.
  apply on_node_field_run in H1 as (-> & n & Hn & ->). unfold GetBoltAddress in Hr.
  case_bool_decide as Hip; [by injection Hr as _ <-|].
  inv_bind Hr as u1 s1 H1. destruct (open_main_refines s u1 s1 n Hn H1) as (R1 & Hi1 & _).
  pose proof (keeps_run _ _ _ _ _ keeps_calm_update Hr) as E.
  split.
  - etrans; [exact R1|]. apply (refines_calm calm); [congruence|done|done].
  - unfold two_pods. rewrite (calm_index _ _ E) by congruence. by rewrite Hi1.
Qed.

(** A failover follows the contract, whatever the world answers. *)
Lemma failover_refines s o s' :
  two_pods s → executeFailoverInternal config configMapName s = (Ret o, s') →
  refines s s' ∧ two_pods s'.
Proof.
  intros Htwo Hr. destruct (two_pods_sync s Htwo) as (Hint & _ & Hi).
  unfold executeFailoverInternal in Hr. inv_bind Hr as chk s1 H1.
  pose proof (keeps_run _ _ _ _ _
    (keeps_failover_checks config configMapName reads ltac:(auto)) H1) as E1.
  destruct (reads_only_effects _ _ E1 Hi) as (Hi1 & _ & _).
  pose proof (refines_reads _ _ Hi E1) as R1.
  assert (two_pods s1) as Htwo1 by (unfold two_pods; by rewrite Hi1).
  destruct chk as [[[i name] role]|e]; [|by injection Hr as <- <-].
  apply failover_checks_ok in H1 as (-> & -> & _); [|done]. rewrite Hint, <- Hi1 in Hr.
  inv_bind Hr as u s2 H2. apply close_refines in H2 as (R2 & Hc2 & _ & Hi2).
  assert (two_pods s2) as Htwo2 by (unfold two_pods; by rewrite Hi2).
  inv_bind Hr as pe s3 H3. apply promote_refines in H3 as (R3 & Hc3 & _ & Hi3); [|done|done].
  assert (two_pods s3) as Htwo3 by (unfold two_pods; by rewrite Hi3).
  assert (refines s s3) as R by (by do 2 (etrans; [eassumption|])).
  destruct pe as [e|]; [by injection Hr as <- <-|]. rewrite <- Hi2, <- Hi3 in Hr.
  inv_bind Hr as ce s4 H4. apply flip_refines in H4 as (R4 & Htwo4 & _ & _ & Hi4); [|done|apply Hc3].
  destruct ce as [e|]; [injection Hr as <- <-; split; [by etrans|done]|].
  inv_bind Hr as u5 s5 H5. injection Hr as <- <-. rewrite <- Hi4 in H5 by done.
  apply open_refines in H5 as [R5 Htwo5]; [|done].
  split; [by do 2 (etrans; [eassumption|])|done].
Qed.

Lemma failover_check_refines ev s o s' :
  two_pods s → performFailoverCheck config configMapName ev s = (Ret o, s') →
  refines s s' ∧ two_pods s'.
Proof.
  intros Htwo Hr. destruct (two_pods_sync s Htwo) as (_ & _ & Hi).
  unfold performFailoverCheck in Hr. inv_bind Hr as idx s1 H1.
  rewrite GetTargetMainIndex_loaded in H1 by done. injection H1 as <- <-.
  inv_bind Hr as skip s1 H1.
  assert (effects reads s s1) as E1.
  { eapply keeps_run; [|exact H1]. pose proof (λ p, keeps_getHealthyRole config reads p ltac:(auto)).
    pose proof (λ p, keeps_lastChancePing config reads p ltac:(auto)). destruct ev; solve_keeps. }
  destruct (reads_only_effects _ _ E1 Hi) as (Hi1 & _ & _).
  assert (two_pods s1) as Htwo1 by (unfold two_pods; by rewrite Hi1).
  pose proof (refines_reads _ _ Hi E1) as R1.
  destruct skip; [by injection Hr as <- <-|].
  inv_bind Hr as e s2 H2. apply failover_refines in H2 as [R2 Htwo2]; [|done].
  assert (s' = s2) as -> by (destruct e; by injection Hr as <- <-).
  split; [by etrans|done].
Qed.

(** ** Reconciliation *)

Lemma reconcileGateway_refines s o s' :
  two_pods s → reconcileGateway config configMapName s = (Ret o, s') →
  refines s s' ∧ two_pods s'.
Proof.
  intros Htwo Hr. destruct (two_pods_sync s Htwo) as (_ & _ & Hi). unfold reconcileGateway in Hr.
  inv_bind Hr as b s0 Hb. injection Hb as <- <-.
  destruct (is_nil _); [by injection Hr as _ <-|].
  inv_bind Hr as t s1 H1. pose proof (getTargetMainNode_state _ _ _ _ _ Hi H1) as ->.
  destruct t as [t|]; [|by injection Hr as _ <-].
  apply getTargetMainNode_ok in H1 as (_ & -> & _); [|done].
  inv_bind Hr as name s1 H1. apply on_node_field_run in H1 as (-> & n & Hn & ->).
  inv_bind Hr as pod s1 H1. apply getPodFromCache_inv in H1 as [-> _].
  destruct pod as [pod|]; [|by injection Hr as _ <-].
  destruct (negb (isPodReady pod)); [by injection Hr as _ <-|].
  destruct (negb (is_nil _)); [by injection Hr as _ <-|].
  inv_bind Hr as ba s1 H1. apply on_node_field_run in H1 as (-> & n' & Hn' & ->).
  rewrite Hn in Hn'. injection Hn' as <-. unfold GetBoltAddress in Hr.
  case_bool_decide; [by injection Hr as _ <-|]. inv_bind Hr as e s1 H1.
  pose proof (keeps_run _ _ _ _ _ (keeps_isHealthy config configMapName reads ltac:(auto)) H1) as E1.
  destruct (reads_only_effects _ _ E1 Hi) as (Hi1 & Hids1 & _).
  pose proof (refines_reads _ _ Hi E1) as R1.
  assert (two_pods s1) as Htwo1 by (unfold two_pods; by rewrite Hi1).
  destruct e as [e|]; [by injection Hr as _ <-|].
  inv_bind Hr as u s2 H2. injection Hr as _ <-.
  assert (address_in (ids s1) (GetPodName config (ctl_targetMainIndex s1)) (bolt_of n)) as Ha.
  { rewrite Hids1, Hi1. by apply address_in_node. }
  apply address_in_inv in Ha as (n1 & Hn1 & Hb).
  change (gw_SetUpstreamAddress false (bolt_of n) s1 = (Ret u, s2)) in H2. rewrite Hb in H2.
  destruct (open_main_refines s1 u s2 n1 Hn1 H2) as (R2 & Hi2 & _).
  split; [by etrans|]. unfold two_pods. by rewrite Hi2.
Qed.

Lemma refines_replicas_run s (m : M (Ctl W) bool) b s' :
  ctl_targetMainIndex s ≠ (-1)%Z →
  keeps (within (ids s) (replica_event (ids s) (GetPodName config (ctl_targetMainIndex s)))) m →
  m s = (Ret b, s') → refines s s'.
Proof.
  intros Hi Hm Hr. destruct (keeps_run _ _ _ _ _ Hm Hr eq_refl) as [E _]. by apply refines_replicas.
Qed.

(** A step of [m] that only reads, in a sound state. *)
Lemma reads_step {A} (m : M (Ctl W) A) s a s' :
  keeps (effects reads) m → sound s → m s = (Ret a, s') →
  refines s s' ∧ ctl_targetMainIndex s' = ctl_targetMainIndex s.
Proof.
  intros Hm Hs Hr. pose proof (sound_loaded _ Hs) as Hi.
  pose proof (keeps_run _ _ _ _ _ Hm Hr) as E. split; [by apply refines_reads|].
  by apply (reads_only_effects _ _ E Hi).
Qed.

Lemma update_step s u s' :
  sound s → updateReadGatewayUpstream config configMapName s = (Ret u, s') →
  refines s s' ∧ ctl_targetMainIndex s' = ctl_targetMainIndex s.
Proof.
  intros Hs Hr. pose proof (sound_loaded _ Hs) as Hi.
  pose proof (keeps_run _ _ _ _ _ keeps_calm_update Hr) as E.
  split; [by apply (refines_calm calm)|by apply calm_index].
Qed.

Lemma reconcile_replicas_refines s rerr o s' :
  sound s →
  reconcile_replicas config configMapName (GetPodName config (ctl_targetMainIndex s)) rerr s
    = (Ret o, s') → refines s s'.
Proof.
  intros Hs Hr. unfold reconcile_replicas in Hr.
  inv_bind Hr as u s1 H1. apply update_step in H1 as [R1 I1]; [|done].
  pose proof (refines_sound _ _ R1 Hs) as Hs1. rewrite <- I1 in Hr.
  inv_bind Hr as rs s2 H2. apply reads_step in H2 as [R2 I2]; [|by apply keeps_node_replicas|done].
  pose proof (refines_sound _ _ R2 Hs1) as Hs2. rewrite <- I2 in Hr.
  assert (refines s s2) as R by (by etrans).
  destruct rs as [rs|e]; [|by injection Hr as _ <-].
  inv_bind Hr as rk s3 H3. apply reads_step in H3 as [R3 I3]; [|by apply keeps_keys|done].
  pose proof (refines_sound _ _ R3 Hs2) as Hs3. rewrite <- I3 in Hr.
  inv_bind Hr as u' s4 H4. apply reads_step in H4 as [R4 I4]; [| |done].
  2:{ apply keeps_forM; [typeclasses eauto|]. intros k. unfold log_replica. solve_keeps. }
  pose proof (refines_sound _ _ R4 Hs3) as Hs4. rewrite <- I4 in Hr.
  assert (refines s s4) as R' by (by do 2 (etrans; [eassumption|])).
  inv_bind Hr as mn s5 H5. apply on_node_field_run in H5 as (-> & n & Hn & ->).
  rewrite (sound_named _ Hs4 _ _ Hn) in Hr.
  inv_bind Hr as pod s5 H5. apply getPodFromCache_inv in H5 as [-> _].
  destruct pod as [pod|e]; [|by injection Hr as _ <-].
  inv_bind Hr as nodes s5 H5. apply get_nodes_inv in H5 as [-> _].
  inv_bind Hr as keys s5 H5. apply reads_step in H5 as [R5 I5]; [|by apply keeps_keys|done].
  pose proof (refines_sound _ _ R5 Hs4) as Hs5. rewrite <- I5 in Hr.
  inv_bind Hr as b s6 H6. apply refines_replicas_run in H6 as R6; [|by apply sound_loaded|].
  2:{ apply keeps_foldM; [typeclasses eauto|]. apply within_reconcile_replica. }
  pose proof (refines_sound _ _ R6 Hs5) as Hs6.
  assert (refines s s6) as R'' by (by do 2 (etrans; [eassumption|])).
  destruct b; [|by injection Hr as _ <-].
  inv_bind Hr as e s7 H7. injection Hr as _ <-.
  apply reconcileGateway_refines in H7 as [R7 _]; [by etrans|by apply sound_two_pods].
Qed.

Lemma silent_step {A} (m : M (Ctl W) A) s a s' :
  keeps (effects (λ _, False)) m → sound s → m s = (Ret a, s') →
  refines s s' ∧ ctl_targetMainIndex s' = ctl_targetMainIndex s.
Proof.
  intros Hm. apply reads_step. eapply keeps_weaken; [exact Hm|]. intros ? ?. by apply effects_mono.
Qed.

Lemma reconcile_locked_refines `{!WorldOrder W} s o s' :
  sound s → reconcile_locked config configMapName s = (Ret o, s') → refines s s'.
Proof.
  intros Hs Hr. pose proof (sound_loaded _ Hs) as Hi.
  unfold reconcile_locked in Hr. inv_bind Hr as idx s1 H1.
  rewrite GetTargetMainIndex_loaded in H1 by done. injection H1 as <- <-.
  rewrite bool_decide_eq_false_2 in Hr by done.
  inv_bind Hr as u s1 H1. destruct u.
  pose proof (keeps_run _ _ _ _ _ (keeps_Refresh is_refresh eq_refl) H1) as E1.
  apply named_Refresh in H1; [|by apply sound_named].
  pose proof (refines_refresh _ _ Hi H1 E1) as R1. pose proof (refines_sound _ _ R1 Hs) as Hs1.
  inv_bind Hr as fe s2 H2. apply failover_check_refines in H2 as [R2 _]; [|by apply sound_two_pods].
  pose proof (refines_sound _ _ R2 Hs1) as Hs2.
  inv_bind Hr as rerr s3 H3. apply silent_step in H3 as [R3 _]; [| |done].
  2:{ pose proof (keeps_record_error (W := W) (λ _, False)). solve_keeps. }
  pose proof (refines_sound _ _ R3 Hs2) as Hs3.
  assert (refines s s3) as R by (by do 2 (etrans; [eassumption|])).
  inv_bind Hr as t s4 H4. assert (s4 = s3) as ->.
  { eapply getTargetMainNode_state; [|exact H4]. by apply sound_loaded. }
  destruct t as [t|e].
  - apply getTargetMainNode_ok in H4 as (_ & -> & _); [|by apply sound_loaded].
    apply reconcile_replicas_refines in Hr; [by etrans|done].
  - inv_bind Hr as u s4 H5. injection Hr as _ <-.
    apply silent_step in H5 as [R4 _]; [by etrans|apply keeps_record_error|done].
Qed.

Lemma reconcile_refines `{!WorldOrder W} s o s' :
  sound s → performReconciliationActions config configMapName s = (Ret o, s') → refines s s'.
Proof.
  intros Hs Hr. unfold performReconciliationActions in Hr. inv_bind Hr as start s1 H1.
  apply silent_step in H1 as [R1 _]; [|apply keeps_world, keeps_call_emits|done].
  pose proof (refines_sound _ _ R1 Hs) as Hs1.
  inv_bind Hr as r s2 H2. apply reconcile_locked_refines in H2; [|done].
  inv_bind Hr as u s3 H3. injection Hr as _ <-. destruct u.
  etrans; [exact R1|]. etrans; [exact H2|].
  assert (∀ r, gateway_of r s3 = gateway_of r s2) as Hg.
  { revert H3. unfold record_metrics, prom, cnet, zoom, call, modify, mbind, M_bind.
    destruct (w_now _) as [now w]; simpl. destruct (w_now w) as [now' w']; simpl. intros [= <-].
    by intros []. }
  apply record_metrics_run in H3 as (T & C & I & _).
  apply refines_quiet; [done|]. unfold view, ids, upstream. by rewrite C, I, Hg.
Qed.
End Contract.
