(* ===== verification/Threads.v ===== *)
(** * Threads: goroutines that share the state, and a mutex

    A Go function that other goroutines can interrupt is not one state
    transformer [M S A] but a sequence of them: [code].  A goroutine is a
    sequence of such codes, some of which run under the mutex: [thread].  A pool
    of threads runs by picking one that can move; new threads may come at any
    time.  The second half is a program logic for pools: what a thread knows
    while it holds the mutex is a key [K] of the state, stable under the
    [steady] steps the other threads may make. *)

From stdpp Require Import relations.
From S2P Require Import Prelude.

(** ** Code *)

Inductive code (S A : Type) : Type :=
  | CRet (a : A)
  | CAct {B : Type} (m : M S B) (k : B → code S A).
Arguments CRet {S A} a.
Arguments CAct {S A B} m k.

Fixpoint code_bind {S A B} (f : A → code S B) (c : code S A) : code S B :=
  match c with
  | CRet a => f a
  | CAct m k => CAct m (λ b, code_bind f (k b))
  end.

Global Instance code_ret {S} : MRet (code S) := λ A a, CRet a.
Global Instance code_mbind {S} : MBind (code S) := λ A B f c, code_bind f c.

(** One uninterrupted action. *)
Definition act {S A} (m : M S A) : code S A := CAct m CRet.

Fixpoint cforM {S A} (xs : list A) (f : A → code S unit) : code S unit :=
  match xs with
  | [] => mret ()
  | x :: xs => f x ≫= λ _, cforM xs f
  end.

Fixpoint cfoldM {S A B} (f : B → A → code S B) (xs : list A) (b : B) : code S B :=
  match xs with
  | [] => mret b
  | x :: xs => f b x ≫= cfoldM f xs
  end.

(** The code without interruptions. *)
Fixpoint crun {S A} (c : code S A) : M S A :=
  match c with
  | CRet a => mret a
  | CAct m k => m ≫= λ b, crun (k b)
  end.

(** [performs c m]: without interruptions, [c] does what [m] does. *)
Definition performs {S A} (c : code S A) (m : M S A) : Prop := ∀ s, crun c s = m s.

Section performs.
Context {S : Type}.

Lemma M_bind_ext {A B} (m m' : M S A) (f f' : A → M S B) s :
  m s = m' s → (∀ a s, f a s = f' a s) → (m ≫= f) s = (m' ≫= f') s.
Proof. intros Hm Hf. unfold mbind, M_bind. rewrite Hm. by destruct (m' s) as [[a|w] s']. Qed.

Lemma M_bind_assoc {A B C} (m : M S A) (f : A → M S B) (g : B → M S C) s :
  ((m ≫= f) ≫= g) s = (m ≫= λ a, f a ≫= g) s.
Proof. unfold mbind, M_bind. by destruct (m s) as [[a|w] s']. Qed.

Lemma M_ret_bind {A B} (a : A) (f : A → M S B) s : (mret a ≫= f) s = f a s.
Proof. done. Qed.

Lemma crun_bind {A B} (c : code S A) (f : A → code S B) s :
  crun (c ≫= f) s = (crun c ≫= λ a, crun (f a)) s.
Proof.
  revert s. induction c as [a|C m k IH]; intros s; [done|].
  change (crun (CAct m k ≫= f)) with (m ≫= λ b, crun (k b ≫= f)).
  change (crun (CAct m k)) with (m ≫= λ b, crun (k b)). rewrite M_bind_assoc.
  by apply M_bind_ext.
Qed.

Lemma performs_ret {A} (a : A) : performs (mret a) (mret a : M S A).
Proof. done. Qed.

Lemma performs_act {A} (m : M S A) : performs (act m) m.
Proof. intros s. unfold act. simpl. unfold mbind, M_bind. by destruct (m s) as [[a|w] s']. Qed.

Lemma performs_bind {A B} (c : code S A) (m : M S A) (f : A → code S B) (g : A → M S B) :
  performs c m → (∀ a, performs (f a) (g a)) → performs (c ≫= f) (m ≫= g).
Proof. intros Hc Hf s. rewrite crun_bind. by apply M_bind_ext. Qed.

(** An action that does the work of a bind. *)
Lemma performs_act_bind {A B C} (m : M S A) (f : A → M S B) (c : B → code S C) (g : B → M S C) :
  (∀ b, performs (c b) (g b)) →
  performs (b ← act (m ≫= f); c b) (a ← m; b ← f a; g b).
Proof.
  intros Hc s. rewrite crun_bind. etrans; [|apply M_bind_assoc].
  apply M_bind_ext; [apply performs_act|done].
Qed.

Lemma performs_forM {A} (xs : list A) f (g : A → M S unit) :
  (∀ x, performs (f x) (g x)) → performs (cforM xs f) (forM_ xs g).
Proof.
  intros Hf. induction xs as [|x xs IH]; [apply performs_ret|]. simpl. by apply performs_bind.
Qed.

Lemma performs_foldM {A B} f (g : B → A → M S B) (xs : list A) b :
  (∀ b x, performs (f b x) (g b x)) → performs (cfoldM f xs b) (foldM g xs b).
Proof.
  intros Hf. revert b. induction xs as [|x xs IH]; intros b; [apply performs_ret|].
  simpl. by apply performs_bind.
Qed.
End performs.

Create HintDb performs.
#[export] Hint Resolve performs_ret performs_act : performs.

(** Walks two definitions of the same shape. *)
Ltac performs_step :=
  intros;
  lazymatch goal with
  | |- performs (match ?x with _ => _ end) (match ?x with _ => _ end) => destruct x
  | |- performs (cfoldM _ _ _) _ => apply performs_foldM; intros ? ?
  | |- performs (cforM _ _) _ => apply performs_forM; intros ?
  | |- performs _ _ =>
      first [solve [eauto with performs] | apply performs_bind; [|intros ?]]
  end.
Ltac solve_performs := repeat performs_step.

(** ** Threads and pools *)

Inductive thread (S : Type) : Type :=
  | TDone
  | TRun {B : Type} (locked : bool) (c : code S B) (k : B → thread S).
Arguments TDone {S}.
Arguments TRun {S B} locked c k.

(** The thread alone. *)
Fixpoint trun {S} (t : thread S) : M S unit :=
  match t with
  | TDone => mret ()
  | TRun _ c k => crun c ≫= λ b, trun (k b)
  end.

Record pool (S : Type) := mkPool {
  p_state : S;
  p_holder : option nat;        (* the thread that holds the mutex *)
  p_threads : list (thread S);
}.
Arguments mkPool {S}.
Arguments p_state {S}.
Arguments p_holder {S}.
Arguments p_threads {S}.

(** One move of thread [i]: an action; or taking the mutex, when it is free; or
    the end of a section.  A thread that waits for the mutex, and one whose
    action panics, cannot move. *)
Definition move {S} (i : nat) (holder : option nat) (t : thread S) (s : S)
    : option (option nat * thread S * S) :=
  match t with
  | TDone => None
  | TRun false c k =>
      match c with
      | CRet b => Some (holder, k b, s)
      | CAct m c =>
          match m s with
          | (Ret b, s') => Some (holder, TRun false (c b) k, s')
          | (Panic _, _) => None
          end
      end
  | TRun true c k =>
      match holder with
      | None => Some (Some i, t, s)
      | Some j =>
          if bool_decide (i = j) then
            match c with
            | CRet b => Some (None, k b, s)
            | CAct m c =>
                match m s with
                | (Ret b, s') => Some (holder, TRun true (c b) k, s')
                | (Panic _, _) => None
                end
            end
          else None
      end
  end.

Inductive pool_move {S} (p p' : pool S) : Prop :=
  | pool_moves i t h' t' s' :
      p_threads p !! i = Some t →
      move i (p_holder p) t (p_state p) = Some (h', t', s') →
      p' = mkPool s' h' (<[i := t']> (p_threads p)) → pool_move p p'.

(** A move, or a new thread. *)
Inductive pool_step {S} (new : thread S → Prop) (p p' : pool S) : Prop :=
  | pool_go : pool_move p p' → pool_step new p p'
  | pool_new t : new t → p' = mkPool (p_state p) (p_holder p) (p_threads p ++ [t]) →
      pool_step new p p'.

(** A schedule: which thread moves next. *)
Fixpoint schedule {S} (picks : list nat) (p : pool S) : option (pool S) :=
  match picks with
  | [] => Some p
  | i :: picks =>
      match p_threads p !! i with
      | Some t =>
          match move i (p_holder p) t (p_state p) with
          | Some (h, t', s) => schedule picks (mkPool s h (<[i := t']> (p_threads p)))
          | None => None
          end
      | None => None
      end
  end.

Lemma schedule_moves {S} (new : thread S → Prop) picks p p' :
  schedule picks p = Some p' → rtc (pool_step new) p p'.
Proof.
  revert p. induction picks as [|i picks IH]; intros p; simpl; [by intros [= ->]|].
  destruct (p_threads p !! i) as [t|] eqn:Ht; [|done].
  destruct (move i (p_holder p) t (p_state p)) as [[[h t'] s]|] eqn:Hm; [|done].
  intros Hr. eapply rtc_l; [|by apply IH]. apply pool_go. by eapply pool_moves.
Qed.

(** ** Termination: without new threads, every run of a pool ends *)

Section termination.
Context {S : Type}.

(** What a move leaves of a thread, unless it took the mutex. *)
Definition shrinks (t' t : thread S) : Prop :=
  match t with
  | TDone => False
  | TRun _ (CRet b) k => t' = k b
  | TRun locked (CAct m c) k => ∃ b, t' = TRun locked (c b) k
  end.

Lemma shrinks_wf : well_founded shrinks.
Proof.
  intros t. induction t as [|B locked c k IH]; [by constructor|].
  induction c as [b|C m c IHc].
  - constructor. intros t' ->. apply IH.
  - constructor. intros t' [b ->]. apply IHc.
Qed.

Lemma move_shrinks i h t s h' t' s' :
  move i h t s = Some (h', t', s') →
  shrinks t' t ∨ (h = None ∧ h' = Some i ∧ t' = t ∧ s' = s).
Proof.
  destruct t as [|B [|] c k]; simpl; [done|..].
  - destruct h as [j|]; [|intros [= <- <- <-]; by right]. case_bool_decide; [|done]. left.
    destruct c as [b|C m c]; [by simplify_eq|].
    destruct (m s) as [[b|w] s1]; [|done]. simplify_eq. by exists b.
  - left. destruct c as [b|C m c]; [by simplify_eq|].
    destruct (m s) as [[b|w] s1]; [|done]. simplify_eq. by exists b.
Qed.

Definition one_shrinks (ts' ts : list (thread S)) : Prop :=
  ∃ i t t', ts !! i = Some t ∧ shrinks t' t ∧ ts' = <[i := t']> ts.

Lemma one_shrinks_wf : well_founded one_shrinks.
Proof.
  intros ts. induction ts as [|t ts IH]; [constructor; by intros ts' (i & t & t' & Hi & _)|].
  revert t. refine (well_founded_ind shrinks_wf _ _). intros t IHt.
  revert t IHt. induction IH as [ts _ IHts]. intros t IHt.
  constructor. intros ts' ([|i] & u & u' & Hi & Hu & ->); simpl in *.
  - injection Hi as <-. by apply IHt.
  - apply IHts; [by exists i, u, u'|]. intros t' Ht'.
    apply (Acc_inv (IHt t' Ht')). by exists (Datatypes.S i), u, u'.
Qed.

Theorem pool_terminates (p : pool S) : Acc (flip pool_move) p.
Proof.
  destruct p as [s h ts]. revert h s. induction (one_shrinks_wf ts) as [ts _ IH].
  assert (∀ i t h' t' s' s h, ts !! i = Some t → move i h t s = Some (h', t', s') →
    shrinks t' t → Acc (flip pool_move) (mkPool s' h' (<[i := t']> ts))) as Hgo.
  { intros i t h' t' s' s h Hi _ Hsh. apply IH. by exists i, t, t'. }
  assert (∀ j s, Acc (flip pool_move) (mkPool s (Some j) ts)) as Hheld.
  { intros j s. constructor. intros p [i t h' t' s' Hi Hm ->]. simpl in *.
    pose proof (move_shrinks _ _ _ _ _ _ _ Hm) as [Hsh|(? & _)]; [by eapply Hgo|done]. }
  intros [j|] s; [apply Hheld|]. constructor. intros p [i t h' t' s' Hi Hm ->]. simpl in *.
  pose proof (move_shrinks _ _ _ _ _ _ _ Hm) as [Hsh|(_ & -> & -> & ->)]; [by eapply Hgo|].
  rewrite list_insert_id by done. apply Hheld.
Qed.
End termination.

(** ** A program logic for pools *)

(** What the threads agree on: an invariant of the state, what every step may
    do, what a step without the mutex may do, and what a thread that holds the
    mutex knows of the state. *)
Class Discipline (S K : Type) := {
  d_inv : S → Prop;
  d_step : relation S;
  d_steady : relation S;
  d_at : K → S → Prop;
  d_step_preorder : PreOrder d_step;
  d_steady_refl s : d_steady s s;
  d_key s : d_inv s → ∃ κ, d_at κ s;
  d_at_inv κ s : d_at κ s → d_inv s;
  d_stable κ s s' : d_at κ s → d_steady s s' → d_inv s' → d_at κ s';
}.
#[export] Existing Instance d_step_preorder.

Section logic.
Context {S K : Type} `{!Discipline S K}.

(** An action without the mutex. *)
Definition free_act {B} (m : M S B) (Φ : B → Prop) : Prop :=
  ∀ s, d_inv s → ∃ b s', m s = (Ret b, s') ∧ d_step s s' ∧ d_steady s s' ∧ d_inv s' ∧ Φ b.

(** An action under the mutex, from a state of key [κ]. *)
Definition held_act {B} (m : M S B) (Ψ : B → K → Prop) (κ : K) : Prop :=
  ∀ s, d_at κ s → ∃ b s' κ', m s = (Ret b, s') ∧ d_step s s' ∧ d_at κ' s' ∧ Ψ b κ'.

Fixpoint free {A} (Q : A → Prop) (c : code S A) : Prop :=
  match c with
  | CRet a => Q a
  | CAct m k => ∃ Φ, free_act m Φ ∧ ∀ b, Φ b → free Q (k b)
  end.

Fixpoint held {A} (Q : A → K → Prop) (c : code S A) (κ : K) : Prop :=
  match c with
  | CRet a => Q a κ
  | CAct m k => ∃ Ψ, held_act m Ψ κ ∧ ∀ b κ', Ψ b κ' → held Q (k b) κ'
  end.

Fixpoint thread_ok (t : thread S) : Prop :=
  match t with
  | TDone => True
  | TRun false c k => free (λ b, thread_ok (k b)) c
  | TRun true c k => ∀ κ s, d_at κ s → held (λ b _, thread_ok (k b)) c κ
  end.

(** The thread that holds the mutex, in the state [s]. *)
Definition holding_ok (t : thread S) (s : S) : Prop :=
  match t with
  | TRun true c k => ∃ κ, d_at κ s ∧ held (λ b _, thread_ok (k b)) c κ
  | _ => False
  end.

Definition pool_ok (p : pool S) : Prop :=
  d_inv (p_state p) ∧
  (∀ i, p_holder p = Some i → is_Some (p_threads p !! i)) ∧
  ∀ i t, p_threads p !! i = Some t →
    if bool_decide (p_holder p = Some i) then holding_ok t (p_state p) else thread_ok t.

(** *** Rules *)

Lemma free_mono {A} (Q Q' : A → Prop) (c : code S A) : free Q c → (∀ a, Q a → Q' a) → free Q' c.
Proof.
  intros Hc HQ. induction c as [a|C m k IH]; simpl in *; [auto|].
  destruct Hc as (Φ & Hm & Hk). exists Φ. auto.
Qed.

Lemma free_call {A B} (Q : B → Prop) (P : A → Prop) (c : code S A) (f : A → code S B) :
  free P c → (∀ a, P a → free Q (f a)) → free Q (c ≫= f).
Proof.
  intros Hc Hf. revert P Hc Hf. induction c as [a|C m k IH]; intros P; simpl; [auto|].
  intros (Φ & Hm & Hk) Hf. exists Φ. split; [done|]. intros b Hb. eapply IH; eauto.
Qed.

Lemma free_act_mono {B} (m : M S B) (Φ Φ' : B → Prop) :
  free_act m Φ → (∀ b, Φ b → Φ' b) → free_act m Φ'.
Proof.
  intros Hm HΦ s HI. destruct (Hm s HI) as (b & s' & ? & ? & ? & ? & ?). exists b, s'. eauto 10.
Qed.

Lemma free_act_intro {A} (Q : A → Prop) (m : M S A) : free_act m Q → free Q (act m).
Proof. intros Hm. by exists Q. Qed.

Lemma held_bind {A B} (Q : B → K → Prop) (c : code S A) (f : A → code S B) κ :
  held (λ a κ', held Q (f a) κ') c κ → held Q (c ≫= f) κ.
Proof.
  revert κ. induction c as [a|C m k IH]; intros κ; simpl; [done|].
  intros (Ψ & Hm & Hk). exists Ψ. split; [done|]. intros b κ' Hb. by apply IH, Hk.
Qed.

Lemma held_act_mono {B} (m : M S B) (Ψ Ψ' : B → K → Prop) κ :
  held_act m Ψ κ → (∀ b κ', Ψ b κ' → Ψ' b κ') → held_act m Ψ' κ.
Proof.
  intros Hm HΨ s Hκ. destruct (Hm s Hκ) as (b & s' & κ' & ? & ? & ? & ?). exists b, s', κ'. eauto.
Qed.

Lemma held_act_intro {A} (Q : A → K → Prop) (m : M S A) κ : held_act m Q κ → held Q (act m) κ.
Proof. intros Hm. by exists Q. Qed.

Lemma held_mono {A} (Q Q' : A → K → Prop) (c : code S A) κ :
  held Q c κ → (∀ a κ', Q a κ' → Q' a κ') → held Q' c κ.
Proof.
  intros Hc HQ. revert κ Hc. induction c as [a|C m k IH]; intros κ; simpl; [auto|].
  intros (Ψ & Hm & Hk). exists Ψ. auto.
Qed.

(** The rule for one call: its specification, then the rest. *)
Lemma held_call {A B} (Q : B → K → Prop) (P : A → K → Prop) (c : code S A) (f : A → code S B) κ :
  held P c κ → (∀ a κ', P a κ' → held Q (f a) κ') → held Q (c ≫= f) κ.
Proof. intros Hc Hf. apply held_bind. by eapply held_mono. Qed.

Lemma held_foldM {A B} (P : B → K → Prop) (f : B → A → code S B) xs b κ :
  P b κ → (∀ b x κ, x ∈ xs → P b κ → held P (f b x) κ) → held P (cfoldM f xs b) κ.
Proof.
  revert b κ. induction xs as [|x xs IH]; intros b κ Hb Hf; [done|].
  eapply held_call; [apply Hf; [left|done]|]. intros b' κ' Hb'. apply IH; [done|].
  intros b2 y κ2 Hy. apply Hf. by right.
Qed.

Lemma held_forM {A} (P : K → Prop) (f : A → code S unit) xs κ :
  P κ → (∀ x κ, x ∈ xs → P κ → held (λ _, P) (f x) κ) → held (λ _, P) (cforM xs f) κ.
Proof.
  revert κ. induction xs as [|x xs IH]; intros κ Hκ Hf; [done|].
  eapply held_call; [apply Hf; [left|done]|]. intros b' κ' Hb'. apply IH; [done|].
  intros y κ2 Hy. apply Hf. by right.
Qed.

(** *** Soundness *)

Lemma pool_ok_new p t : thread_ok t → pool_ok p → pool_ok (mkPool (p_state p) (p_holder p) (p_threads p ++ [t])).
Proof.
  intros Ht (HI & Hh & Hts). split; [done|]. split; simpl.
  - intros i Hi. destruct (Hh i Hi) as [u Hu]. exists u. by apply lookup_app_l_Some.
  - intros i u [Hi|[Hlen Hi]]%lookup_app_Some; [by apply Hts|].
    apply list_lookup_singleton_Some in Hi as [Hi <-].
    case_bool_decide as Hb; [|done]. destruct (Hh i Hb) as [v Hv].
    apply lookup_lt_Some in Hv. lia.
Qed.

(** A move of thread [i] to [t'] keeps the others in order: those that do not
    hold the mutex need nothing, and the one that does, only a steady step. *)
Lemma pool_ok_moved p i t' h' s' :
  pool_ok p → is_Some (p_threads p !! i) → d_inv s' →
  (h' = p_holder p ∧ (p_holder p = Some i ∨ d_steady (p_state p) s') ∨
   p_holder p = None ∧ h' = Some i ∨ p_holder p = Some i ∧ h' = None) →
  (if bool_decide (h' = Some i) then holding_ok t' s' else thread_ok t') →
  pool_ok (mkPool s' h' (<[i := t']> (p_threads p))).
Proof.
  intros (HI & Hh & Hts) Hi HI' Hcase Ht'. pose proof Hi as [t Ht]. split; [done|]. split; simpl.
  - intros j Hj. apply lookup_lt_is_Some. rewrite length_insert. apply lookup_lt_is_Some.
    destruct Hcase as [[-> _]|[[_ ->]|[_ ->]]]; [by apply Hh|by simplify_eq|done].
  - intros j u [(<- & <- & _)|[Hne Hj]]%list_lookup_insert_Some; [done|]. specialize (Hts j u Hj).
    destruct Hcase as [[-> Hst]|[[Hn ->]|[Hs ->]]].
    + destruct (bool_decide _) eqn:Hb; [apply bool_decide_eq_true in Hb|done].
      destruct Hst as [Hst|Hst]; [congruence|].
      destruct u as [|B [|] c k]; simpl in *; [done| |done]. destruct Hts as (κ & Hκ & Hc).
      exists κ. split; [by eapply d_stable|done].
    + rewrite bool_decide_eq_false_2 by naive_solver. by rewrite Hn in Hts.
    + rewrite Hs in Hts. rewrite bool_decide_eq_false_2 in Hts by naive_solver. done.
Qed.

Lemma pool_move_ok p p' : pool_ok p → pool_move p p' → d_step (p_state p) (p_state p') ∧ pool_ok p'.
Proof.
  destruct p as [s h ts]. intros Hok [i t h' t' s' Hi Hm ->].
  pose proof Hok as (HI & _ & Hts). specialize (Hts i t Hi). simpl in *.
  assert (is_Some (ts !! i)) as Hsi by eauto.
  destruct t as [|B [|] c k]; simpl in Hm; [done|destruct h as [j|]|].
  - destruct (decide (i = j)) as [<-|Hij]; [|by rewrite bool_decide_eq_false_2 in Hm].
    rewrite bool_decide_eq_true_2 in Hm, Hts by done.
    destruct Hts as (κ & Hκ & Hc). destruct c as [b|C m c]; simpl in Hc.
    + injection Hm as <- <- <-. split; [reflexivity|].
      apply (pool_ok_moved (mkPool s (Some i) ts) i); auto.
    + destruct Hc as (Ψ & Hact & Hk). destruct (Hact _ Hκ) as (b & s1 & κ' & Hr & HG & Hκ' & HΨ).
      rewrite Hr in Hm. injection Hm as <- <- <-. split; [done|].
      apply (pool_ok_moved (mkPool s (Some i) ts) i); eauto using d_at_inv.
      rewrite bool_decide_eq_true_2 by done. exists κ'. auto.
  - injection Hm as <- <- <-. split; [reflexivity|].
    apply (pool_ok_moved (mkPool s None ts) i); auto.
    rewrite bool_decide_eq_true_2 by done. destruct (d_key _ HI) as [κ Hκ]. exists κ.
    split; [done|by eapply Hts].
  - destruct (bool_decide (h = Some i)) eqn:Hb; [done|].
    destruct c as [b|C m c]; simpl in Hts.
    + injection Hm as <- <- <-. split; [reflexivity|].
      apply (pool_ok_moved (mkPool s h ts) i); auto using d_steady_refl. by rewrite Hb.
    + destruct Hts as (Φ & Hact & Hk). destruct (Hact _ HI) as (b & s1 & Hr & HG & Hst & HI' & Hb').
      rewrite Hr in Hm. injection Hm as <- <- <-. split; [done|].
      apply (pool_ok_moved (mkPool s h ts) i); auto. rewrite Hb. simpl. auto.
Qed.

Lemma pool_step_ok new p p' :
  (∀ t, new t → thread_ok t) → pool_ok p → pool_step new p p' →
  d_step (p_state p) (p_state p') ∧ pool_ok p'.
Proof.
  intros Hnew Hok [Hm|t Ht ->]; [by apply pool_move_ok|]. split; [reflexivity|].
  apply pool_ok_new; auto.
Qed.

Lemma pool_steps_ok new p p' :
  (∀ t, new t → thread_ok t) → pool_ok p → rtc (pool_step new) p p' →
  d_step (p_state p) (p_state p') ∧ pool_ok p'.
Proof.
  intros Hnew Hok Hr. induction Hr as [p|p1 p2 p3 H12 _ IH]; [by split|].
  destruct (pool_step_ok new p1 p2 Hnew Hok H12) as [HG Hok2]. destruct (IH Hok2) as [HG' Hok3].
  split; [by etrans|done].
Qed.

(** No thread panics, and as long as a thread is not done some thread can move:
    the holder of the mutex, or else any of them. *)
Lemma thread_moves p i t :
  pool_ok p → p_threads p !! i = Some t → t ≠ TDone → p_holder p = None ∨ p_holder p = Some i →
  is_Some (move i (p_holder p) t (p_state p)).
Proof.
  destruct p as [s h ts]. intros (HI & _ & Hts) Hi Ht Hh. specialize (Hts i t Hi). simpl in *.
  destruct t as [|B [|] c k]; [done|destruct Hh as [-> | ->]|]; simpl; [by eauto|..].
  - rewrite bool_decide_eq_true_2 in * by done. destruct Hts as (κ & Hκ & Hc).
    destruct c as [b|C m c]; [by eauto|]. destruct Hc as (Ψ & Hact & _).
    destruct (Hact _ Hκ) as (b & s1 & κ' & -> & _). eauto.
  - destruct (bool_decide _); [done|]. destruct c as [b|C m c]; [by eauto|].
    destruct Hts as (Φ & Hact & _). destruct (Hact _ HI) as (b & s1 & -> & _). eauto.
Qed.

Lemma holder_not_done p i : pool_ok p → p_holder p = Some i →
  ∃ t, p_threads p !! i = Some t ∧ t ≠ TDone.
Proof.
  intros (_ & Hh & Hts) Hi. destruct (Hh i Hi) as [t Ht]. exists t. split; [done|].
  intros ->. specialize (Hts i TDone Ht). by rewrite bool_decide_eq_true_2 in Hts.
Qed.

Lemma all_done_or (ts : list (thread S)) :
  Forall (λ t, t = TDone) ts ∨ ∃ i t, ts !! i = Some t ∧ t ≠ TDone.
Proof.
  induction ts as [|t ts [IH|(i & u & Hi & Hu)]]; [by left|..|right; by exists (Datatypes.S i), u].
  destruct t as [|B l c k]; [left; by constructor|right; by exists 0, (TRun l c k)].
Qed.

Theorem pool_progress p :
  pool_ok p → Forall (λ t, t = TDone) (p_threads p) ∨ ∃ p', pool_move p p'.
Proof.
  intros Hok.
  assert (∀ i t, p_threads p !! i = Some t → t ≠ TDone →
    p_holder p = None ∨ p_holder p = Some i → ∃ p', pool_move p p') as Hgo.
  { intros i t Hi Ht Hh. destruct (thread_moves p i t Hok Hi Ht Hh) as [[[h' t'] s'] Hm].
    eexists. by eapply pool_moves. }
  destruct (p_holder p) as [i|] eqn:Hh.
  - right. destruct (holder_not_done p i Hok Hh) as (t & Hi & Ht). eauto.
  - destruct (all_done_or (p_threads p)) as [Hall|(i & t & Hi & Ht)]; [by left|right; eauto].
Qed.

(** Every pool can run to the end, and every way of running it ends there. *)
Theorem pool_completes p :
  pool_ok p →
  ∃ p', rtc pool_move p p' ∧ Forall (λ t, t = TDone) (p_threads p') ∧ p_holder p' = None.
Proof.
  induction (pool_terminates p) as [p _ IH]. intros Hok.
  destruct (pool_progress p Hok) as [Hall|[p1 Hm]].
  - exists p. split; [reflexivity|]. split; [done|]. destruct (p_holder p) as [i|] eqn:Hh; [|done].
    destruct (holder_not_done p i Hok Hh) as (t & Hi & Ht).
    destruct Ht. exact (Forall_lookup_1 _ _ _ _ Hall Hi).
  - destruct (pool_move_ok p p1 Hok Hm) as [_ Hok1].
    destruct (IH p1 Hm Hok1) as (p' & Hr & Hrest). exists p'. split; [by eapply rtc_l|done].
Qed.
End logic.
