(* ===== verification/System.v ===== *)
(** * The controller as a transition system

    Every handler, queue worker, timer tick and callback of the controller is an
    operation, and one step here (Goroutines.v cuts them into actions).  Between
    two steps the outside world may change in any way.  The reachable
    states keep the controller's invariant, every operation completes, and the
    whole history of events is a run of the specification of Contract.v. *)

From stdpp Require Import relations.
From S2P Require Import Prelude.
From S2P Require Import GoStrings.
From S2P Require Import Pods.
From S2P Require Import Config.
From S2P Require Import World.
From S2P Require Import ConnectionPool.
From S2P Require Import MemgraphClient.
From S2P Require Import MemgraphNode.
From S2P Require Import GatewayServer.
From S2P Require Import Metrics.
From S2P Require Import Queues.
From S2P Require Import LeaderElection.
From S2P Require Import ProberState.
From S2P Require Import ControllerState.
From S2P Require Import Sim.
From S2P Require Import Controller.
From S2P Require Import Failover.
From S2P Require Import Cluster.
From S2P Require Import Health.
From S2P Require Import Reconcile.
From S2P Require Import Events.
From S2P Require Import Prober.
From S2P Require Import Lifecycle.
From S2P Require Import Status.
From S2P Require Import HttpApi.
From S2P Require Import Contract.

(** ** Operations *)

Inductive op (W : Type) :=
  | OpTick                                  (* a tick of [Run] *)
  | OpReconcileQueue                        (* a round of [processReconcileQueue] *)
  | OpFailoverQueue                         (* a round of [processFailoverCheckQueue] *)
  | OpHealthCheck                           (* a tick of the prober *)
  | OpSpawned (g : spawn)                   (* a goroutine the prober started *)
  | OpPodAdd (pod : Pod)
  | OpPodUpdate (oldPod newPod : Pod)
  | OpPodDelete (pod : Pod)
  | OpLead (e : le_event)                   (* a callback of the election *)
  | OpRequest (r : Request)                 (* a request of the HTTP API *)
  | OpUpstreamFailure                       (* the read-only gateway could not dial *)
  | OpWorld (w : W).                        (* the outside world changes *)
Arguments OpTick {W}.
Arguments OpReconcileQueue {W}.
Arguments OpFailoverQueue {W}.
Arguments OpHealthCheck {W}.
Arguments OpSpawned {W}.
Arguments OpPodAdd {W}.
Arguments OpPodUpdate {W}.
Arguments OpPodDelete {W}.
Arguments OpLead {W}.
Arguments OpRequest {W}.
Arguments OpUpstreamFailure {W}.
Arguments OpWorld {W}.

Section System.
Context {W : Type} `{World W}.
Context (config : Config) (configMapName : string).

Definition drop_result {A} (m : M (Ctl W) A) : M (Ctl W) () := _ ← m; mret ().

Definition on_lead (e : le_event) : M (Ctl W) () :=
  match e with
  | LeStart => onStartLeading
  | LeStop => onStopLeading
  | LeNew leader => modify (λ s, set_leaderElection (onNewLeader leader (ctl_leaderElection s)) s)
  end.

Definition run_op (o : op W) : M (Ctl W) () :=
  match o with
  | OpTick => drop_result (Run_tick config configMapName)
  | OpReconcileQueue => processReconcileQueue_step config configMapName
  | OpFailoverQueue => processFailoverCheckQueue_step config configMapName
  | OpHealthCheck => drop_result (performHealthCheck config configMapName)
  | OpSpawned g => run_spawn config configMapName g
  | OpPodAdd pod => onPodAdd config configMapName (Some pod)
  | OpPodUpdate oldPod newPod => onPodUpdate config configMapName (Some oldPod) (Some newPod)
  | OpPodDelete pod => onPodDelete config configMapName (Some pod)
  | OpLead e => on_lead e
  | OpRequest r => drop_result (serve config configMapName r)
  | OpUpstreamFailure => handleReadGatewayUpstreamFailure config configMapName
  | OpWorld w => modify (λ s, set_net (set_world w (ctl_net s)) s)
  end.

(** The operations that take [operationMu] on their way. *)
Definition takes_mutex (o : op W) : bool :=
  match o with OpTick | OpReconcileQueue | OpFailoverQueue => true | _ => false end.

(** The prober starts a switch of the read-only gateway only if there is one. *)
Definition enabled (rg : bool) (o : op W) : Prop :=
  match o with OpSpawned (TriggerReadGatewayUpstreamSwitch _) => rg = true | _ => True end.

Inductive sys_step (rg : bool) (s s' : Ctl W) : Prop :=
  | sys_op (o : op W) : enabled rg o → run_op o s = (Ret (), s') → sys_step rg s s'.

(** ** What an operation without the mutex does

    [idle]: reads, switches of the read-only gateway, disconnected clients, and
    at most the closing of the read/write gateway; the nodes stay, and the
    target index too unless it is read for the first time. *)

#[local] Abbreviation refines := (refines config).
#[local] Abbreviation sound := (sound (W := W)).

Definition idle_event (e : io) : Prop :=
  reads e ∨ (∃ a, e = IoGateway true a) ∨ (∃ r, e = IoDisconnect r) ∨ e = IoGateway false "".

(** The upstream of the read/write gateway after some of them. *)
Definition closed_by (evs : list io) (u : option string) : option string :=
  if decide (IoGateway false "" ∈ evs) then Some "" else u.

Definition idle : relation (Ctl W) := λ s s',
  ∃ evs, trace_of s' = trace_of s ++ evs ∧ Forall idle_event evs ∧ ids s' = ids s ∧
    index_kept s s' ∧ upstream false s' = closed_by evs (upstream false s) ∧
    lifecycle s' = lifecycle s.

Global Instance idle_preorder : PreOrder idle.
Proof.
  split.
  - intros s. exists []. rewrite app_nil_r. split_and!; done.
  - intros s1 s2 s3 (e1 & T1 & F1 & N1 & I1 & U1 & L1) (e2 & T2 & F2 & N2 & I2 & U2 & L2).
    exists (e1 ++ e2). rewrite T2, T1, app_assoc. split; [done|].
    split; [by apply Forall_app|]. split; [congruence|]. split; [by etrans|].
    split; [|congruence]. rewrite U2, U1. unfold closed_by.
    repeat case_decide; set_solver.
Qed.

(** Steps during which the read/write gateway is left alone. *)
Lemma idle_stay evs s s' :
  trace_of s' = trace_of s ++ evs → Forall idle_event evs → IoGateway false "" ∉ evs →
  ids s' = ids s → index_kept s s' → upstream false s' = upstream false s →
  lifecycle s' = lifecycle s → idle s s'.
Proof.
  intros T F Hn N I U L. exists evs. split_and!; [done..| |done]. unfold closed_by. by rewrite decide_False.
Qed.

Lemma idle_quiet s s' :
  trace_of s' = trace_of s → view s' = view s → upstream false s' = upstream false s →
  lifecycle s' = lifecycle s → idle s s'.
Proof.
  intros T [= I N _] U L.
  apply (idle_stay []); [by rewrite app_nil_r|done|set_solver|done|by left|done|done].
Qed.

(** What code that does not hold [operationMu] may do to the part of the state
    the mutex protects: at most, it closes the read/write gateway. *)
Definition steady : relation (Ctl W) := λ s s',
  ctl_targetMainIndex s' = ctl_targetMainIndex s ∧ ids s' = ids s ∧
  (upstream false s' = upstream false s ∨ upstream false s' = Some "").

Global Instance steady_preorder : PreOrder steady.
Proof.
  split; [by intros s; repeat split; left|].
  intros s1 s2 s3 (I1 & N1 & U1) (I2 & N2 & U2). split; [congruence|]. split; [congruence|].
  destruct U2 as [->| ->]; auto.
Qed.

Lemma steady_view s s' : view s' = view s → upstream false s' = upstream false s → steady s s'.
Proof. intros [= ? ? ?] ?. split; [done|]. split; [done|by left]. Qed.

Lemma idle_step t X u e :
  idle_event e →
  spec_step config (mkAbs t X (default "" u)) e (mkAbs t X (default "" (closed_by [e] u))).
Proof.
  unfold closed_by.
  intros [(a & q & -> & Hq)|[[a ->]|[[r ->]| ->]]];
    [rewrite decide_False by set_solver..|rewrite decide_True by set_solver].
  - by apply sp_read.
  - apply sp_read_gateway.
  - apply sp_disconnect.
  - apply sp_close.
Qed.

Lemma closed_by_cons e evs u : closed_by (e :: evs) u = closed_by evs (closed_by [e] u).
Proof.
  unfold closed_by. repeat case_decide; set_solver.
Qed.

Lemma idle_run t X u evs :
  Forall idle_event evs →
  spec_run config (mkAbs t X (default "" u)) evs (mkAbs t X (default "" (closed_by evs u))).
Proof.
  intros F. revert u. induction F as [|e evs He _ IH]; intros u.
  - unfold closed_by. rewrite decide_False by set_solver. apply spec_nil.
  - rewrite closed_by_cons. eapply spec_cons; [by apply idle_step|apply IH].
Qed.

(** In a sound state that is a run of the specification, and steady. *)
Lemma idle_follows s s' : idle s s' → sound s → refines s s' ∧ steady s s'.
Proof.
  intros (evs & T & F & N & I & U & _) Hs. pose proof (index_kept_loaded _ _ I (sound_loaded _ Hs)) as Hi.
  split.
  - exists evs. split; [done|]. unfold view. rewrite Hi, N, U. by apply idle_run.
  - split; [done|]. split; [done|]. rewrite U. unfold closed_by. case_decide; [by right|by left].
Qed.

(** The leaves. *)
Lemma looks_idle s s' : looks s s' → idle s s'.
Proof.
  intros (evs & T & F & N & G & I & L). apply (idle_stay evs); [done|..|done|done| |done].
  - eapply Forall_impl; [exact F|]. by left.
  - intros Hin. pose proof (proj1 (Forall_forall _ _) F _ Hin) as (? & ? & ? & _). done.
  - unfold upstream. by rewrite G.
Qed.

Lemma read_side_idle s s' : effects read_side s s' → idle s s'.
Proof.
  intros E. pose proof E as (_ & evs & T & F & _ & I & _).
  assert (∀ Q : io → Prop, (∀ e, read_side e → Q e) → Forall Q evs) as HQ.
  { intros Q HQ. by eapply Forall_impl. }
  apply (idle_stay evs); [done|..|by eapply effects_lifecycle].
  - apply HQ. intros e [?|[?| ->]]; [by left|right; by left|right; right; left; by exists true].
  - intros Hin. pose proof (proj1 (Forall_forall _ _) F _ Hin) as [(? & ? & ? & _)|[[? ?]|?]]; done.
  - apply (effects_ids _ _ _ E). intros e [(? & ? & -> & _)|[[? ->]| ->]]; done.
  - apply I, HQ. by intros e [(? & ? & -> & _)|[[? ->]| ->]] [].
  - unfold upstream. rewrite (effects_gateway _ _ _ false E); [done|].
    intros e [(? & ? & -> & _)|[[? ->]| ->]]; simpl; [by intros []|done..].
Qed.

Lemma idle_looks {A} (m : M (Ctl W) A) : keeps looks m → keeps idle m.
Proof. intros Hm. eapply keeps_weaken; [exact Hm|apply looks_idle]. Qed.

Lemma idle_read_side {A} (m : M (Ctl W) A) : keeps (effects read_side) m → keeps idle m.
Proof. intros Hm. eapply keeps_weaken; [exact Hm|apply read_side_idle]. Qed.

Lemma idle_reads {A} (m : M (Ctl W) A) : keeps (effects reads) m → keeps idle m.
Proof. intros Hm. by apply idle_looks, keeps_looks. Qed.

Lemma idle_modify (f : Ctl W → Ctl W) :
  (∀ s, trace_of (f s) = trace_of s ∧ view (f s) = view s ∧
     upstream false (f s) = upstream false s ∧ lifecycle (f s) = lifecycle s) →
  keeps idle (modify f).
Proof. intros Hf. apply keeps_modify. intros s. destruct (Hf s) as (? & ? & ? & ?). by apply idle_quiet. Qed.

Lemma idle_now : keeps idle (cnet (call w_now)).
Proof. apply idle_reads, keeps_world, keeps_call_emits. Qed.

Lemma idle_index : keeps idle (GetTargetMainIndex config configMapName).
Proof. apply idle_reads, keeps_GetTargetMainIndex. Qed.

Lemma idle_update : keeps idle (updateReadGatewayUpstream config configMapName).
Proof. apply idle_read_side, keeps_read_update. Qed.

Lemma idle_gw_nil r : keeps idle (gw_nil r).
Proof. apply idle_reads, keeps_gw_nil. Qed.

(** Closing every session of a gateway leaves its upstream. *)
Lemma idle_disconnect r : keeps idle (gw_DisconnectAll r).
Proof.
  intros s. unfold gw_DisconnectAll. destruct (gateway_of r s) as [g|] eqn:Hg; [|reflexivity].
  apply (idle_stay [IoDisconnect r]); [by destruct r| |set_solver|by destruct r|by left; destruct r| |by destruct r].
  - apply Forall_singleton. right; right; left. by exists r.
  - unfold upstream. destruct r; simpl; [done|]. simpl in Hg. rewrite Hg. simpl.
    by rewrite DisconnectAll_upstream.
Qed.

Lemma idle_close : keeps idle (gw_SetUpstreamAddress false "").
Proof.
  intros s. unfold gw_SetUpstreamAddress. destruct (gateway_of false s) as [g|] eqn:Hg; [|reflexivity].
  exists [IoGateway false ""]. split_and!; [done| |done|by left| |done].
  - apply Forall_singleton. by right; right; right.
  - unfold closed_by. rewrite decide_True by set_solver.
    unfold upstream. simpl. by rewrite SetUpstreamAddress_upstream.
Qed.

Lemma idle_pool (m : M (Net W) ()) : keeps (emits (λ _, False)) m → keeps idle (cnet m).
Proof. intros Hm. by apply idle_reads, keeps_world. Qed.

#[local] Hint Resolve idle_now idle_index idle_update idle_gw_nil idle_disconnect idle_close : keeps.

Ltac solve_quiet := intros; apply idle_modify; done.

Lemma idle_health_check : keeps idle (performHealthCheck config configMapName).
Proof.
  apply idle_looks. unfold performHealthCheck, fail_main.
  pose proof (looks_check_main config configMapName).
  pose proof (looks_read_check config).
  pose proof (λ A (f : HealthProber → A * HealthProber), keeps_prober (W := W) f).
  solve_keeps.
Qed.

Lemma idle_spawned g : keeps idle (run_spawn config configMapName g).
Proof.
  assert (∀ f : HealthProber → () * HealthProber, keeps idle (prober f)).
  { intros f. by apply idle_looks, keeps_prober. }
  assert (keeps idle (gw_GetUpstreamAddress true)) by apply idle_reads, keeps_gw_GetUpstreamAddress.
  assert (∀ e, keeps idle (modify (λ s, set_failoverCheckQueue (q_send e <$> ctl_failoverCheckQueue s) s)))
    by solve_quiet.
  destruct g; simpl; unfold triggerFailover, triggerReadGatewayUpstreamSwitch; solve_keeps.
Qed.

Lemma idle_enqueue_reconcile t r p : keeps idle (enqueueReconcileEvent t r p).
Proof.
  assert (∀ q, keeps idle (modify (set_reconcileQueue q))) by solve_quiet.
  unfold enqueueReconcileEvent. solve_keeps.
Qed.

Lemma idle_enqueue_failover t r p : keeps idle (enqueueFailoverCheckEvent t r p).
Proof.
  assert (∀ q, keeps idle (modify (set_failoverCheckQueue q))) by solve_quiet.
  unfold enqueueFailoverCheckEvent. solve_keeps.
Qed.
#[local] Hint Resolve idle_enqueue_reconcile idle_enqueue_failover : keeps.

Lemma idle_pod_events oldPod newPod pod :
  keeps idle (onPodAdd config configMapName pod) ∧
  keeps idle (onPodUpdate config configMapName oldPod newPod) ∧
  keeps idle (onPodDelete config configMapName pod).
Proof.
  pose proof (λ p ip, idle_pool _ (keeps_UpdatePodIP (λ _, False) p ip)).
  pose proof (λ p, idle_pool _ (keeps_InvalidatePodConnection (λ _, False) p)).
  assert (∀ o n, keeps idle (handleReplicaHealthChange config configMapName o n)).
  { intros o n. apply idle_read_side, keeps_health_change. }
  assert (∀ p, keeps idle (handleReplicaDeleted config configMapName p)).
  { intros p. apply idle_read_side, keeps_replica_deleted. }
  unfold onPodAdd, onPodUpdate, onPodDelete, IsLeader, assert_pod. split; [|split]; solve_keeps.
Qed.

Lemma idle_lead e : keeps idle (on_lead e).
Proof.
  assert (∀ f, keeps idle (prom f)) by solve_quiet.
  assert (∀ le, keeps idle (modify (set_leaderElection le))) by solve_quiet.
  destruct e as [| |l]; simpl; unfold onStartLeading, onStopLeading; [|solve_quiet..].
  apply keeps_bind; [typeclasses eauto|apply keeps_gets, _|intros le].
  destruct (le_start le) as [b le']. solve_keeps.
Qed.

Lemma idle_reset : keeps idle ResetAllConnections.
Proof.
  pose proof (idle_pool _ (keeps_cp_Close (λ _, False))).
  assert (keeps idle (cnet (gets (λ n : Net W, Z.of_nat (size (cp_drivers (net_pool n))))))).
  { apply idle_reads, keeps_world, keeps_gets, _. }
  unfold ResetAllConnections, disconnect_gateway. solve_keeps.
Qed.

Lemma idle_prestop ticks e : keeps idle (HandlePreStopHook config configMapName ticks e).
Proof.
  assert (keeps idle (prestop_loop config configMapName ticks e)) by by apply idle_reads, keeps_prestop_loop.
  unfold HandlePreStopHook. solve_keeps.
Qed.

Lemma idle_serve r : keeps idle (serve config configMapName r).
Proof.
  pose proof idle_reset. pose proof idle_prestop.
  assert (keeps idle (GetClusterStatus config configMapName))
    by apply idle_reads, keeps_GetClusterStatus.
  assert (keeps idle (GetCurrentLeader (W := W) config))
    by apply idle_reads, keeps_GetCurrentLeader.
  unfold serve, handleStatus, handleLeadership, handleHealth, handleLiveness, handleReadiness,
    handleResetConnections, handlePreStopHook, handleRoot, only_method, reply, http_error, IsRunning.
  destruct (route_of (rq_Path r)); solve_keeps.
Qed.

Lemma idle_metrics start e : keeps idle (record_metrics start e).
Proof.
  assert (∀ f, keeps idle (prom f)) by solve_quiet.
  assert (∀ d now, keeps idle (modify (λ s, set_metrics (record_reconcile e d now <$> ctl_metrics s) s)))
    by solve_quiet.
  unfold record_metrics. solve_keeps.
Qed.

(** Every operation without the mutex is idle, panics included. *)
Lemma idle_drop {A} (m : M (Ctl W) A) : keeps idle m → keeps idle (drop_result m).
Proof. intros Hm. unfold drop_result. solve_keeps. Qed.

Lemma idle_unlocked o : takes_mutex o = false → keeps idle (run_op o).
Proof.
  intros Ho. destruct o as [| | | |g|pod|o n|pod|e|r| |w]; simpl; try discriminate Ho.
  - apply idle_drop, idle_health_check.
  - apply idle_spawned.
  - apply (idle_pod_events None None (Some pod)).
  - apply (idle_pod_events (Some o) (Some n) None).
  - apply (idle_pod_events None None (Some pod)).
  - apply idle_lead.
  - apply idle_drop, idle_serve.
  - apply idle_update.
  - solve_quiet.
Qed.

(** ** Refinement of the operations with the mutex *)

(** [runs I R m]: the runs of [m] that return, from a state in [I], are in [R]
    and end in [I]. *)
Definition runs (I : Ctl W → Prop) (R : relation (Ctl W)) {A} (m : M (Ctl W) A) : Prop :=
  ∀ s a s', I s → m s = (Ret a, s') → R s s' ∧ I s'.

Section runs.
Context (I : Ctl W → Prop) (R : relation (Ctl W)) `{!PreOrder R}.

Lemma runs_bind {A B} (m : M (Ctl W) A) (f : A → M (Ctl W) B) :
  runs I R m → (∀ a, runs I R (f a)) → runs I R (m ≫= f).
Proof.
  intros Hm Hf s b s' Hs Hr. inv_bind Hr as a s1 H1. destruct (Hm _ _ _ Hs H1) as [R1 Hs1].
  destruct (Hf _ _ _ _ Hs1 Hr) as [R2 Hs2]. split; [by etrans|done].
Qed.

Lemma runs_ret {A} (a : A) : runs I R (mret a).
Proof. intros s b s' Hs [= <- <-]. by split. Qed.

Lemma runs_gets {A} (f : Ctl W → A) : runs I R (gets f).
Proof. intros s b s' Hs [= <- <-]. by split. Qed.

Lemma runs_panic {A} w : runs I R (panic w : M (Ctl W) A).
Proof. intros s a s' _ [=]. Qed.

Lemma runs_drop {A} (m : M (Ctl W) A) : runs I R m → runs I R (drop_result m).
Proof. intros Hm. apply runs_bind; [done|]. intros a. apply runs_ret. Qed.

(** Idle code, where [I] and [R] have room for it. *)
Lemma runs_idle {A} (m : M (Ctl W) A) :
  (∀ s s', idle s s' → I s → R s s' ∧ I s') → keeps idle m → runs I R m.
Proof. intros HI Hm s a s' Hs Hr. exact (HI _ _ (keeps_run _ _ _ _ _ Hm Hr) Hs). Qed.
End runs.

#[local] Abbreviation follows := (runs sound refines).

Lemma idle_sound s s' : idle s s' → sound s → refines s s' ∧ sound s'.
Proof. intros Hi Hs. destruct (idle_follows _ _ Hi Hs). split; [done|by eapply refines_sound]. Qed.

Lemma follows_idle {A} (m : M (Ctl W) A) : keeps idle m → follows m.
Proof. apply runs_idle, idle_sound. Qed.

Lemma follows_intro {A} (m : M (Ctl W) A) :
  (∀ s a s', sound s → m s = (Ret a, s') → refines s s') → follows m.
Proof. intros Hm s a s' Hs Hr. pose proof (Hm _ _ _ Hs Hr). split; [done|by eapply refines_sound]. Qed.

Lemma follows_reconcile `{!WorldOrder W} :
  follows (performReconciliationActions config configMapName).
Proof. apply follows_intro. intros s a s' Hs. by apply reconcile_refines. Qed.

Lemma follows_reconcile_locked `{!WorldOrder W} :
  follows (reconcile_locked config configMapName).
Proof. apply follows_intro. intros s a s' Hs. by apply reconcile_locked_refines. Qed.

Lemma follows_failover ev : follows (performFailoverCheck config configMapName ev).
Proof.
  apply follows_intro. intros s a s' Hs Hr.
  by apply failover_check_refines in Hr as [? _]; [|apply sound_two_pods].
Qed.

Lemma follows_tick `{!WorldOrder W} : follows (Run_tick config configMapName).
Proof.
  intros s a s' Hs Hr. unfold Run_tick in Hr. inv_bind Hr as l s1 H1. injection H1 as <- <-.
  destruct (le_IsLeader _); simpl in Hr; [|injection Hr as _ <-; by split].
  inv_bind Hr as idx s1 H1. rewrite GetTargetMainIndex_loaded in H1 by by apply sound_loaded.
  injection H1 as <- <-. inv_bind Hr as e s1 H1. injection Hr as _ <-. by eapply follows_reconcile.
Qed.

(** The queue workers, in any invariant and relation that bear the idle steps
    and the operation the worker is for. *)
Section workers.
Context (I : Ctl W → Prop) (R : relation (Ctl W)) `{!PreOrder R}.
Context (HI : ∀ s s', idle s s' → I s → R s s' ∧ I s').

Lemma runs_quiet (f : Ctl W → Ctl W) :
  (∀ s, trace_of (f s) = trace_of s ∧ view (f s) = view s ∧
     upstream false (f s) = upstream false s ∧ lifecycle (f s) = lifecycle s) →
  runs I R (modify f).
Proof. intros Hf. by apply runs_idle, idle_modify. Qed.

Lemma runs_now : runs I R (cnet (call w_now)).
Proof. by apply runs_idle, idle_now. Qed.

Ltac runs_step :=
  match goal with
  | |- runs _ _ (mbind _ _) => apply runs_bind; [typeclasses eauto| |intros ?]
  | |- runs _ _ (match ?x with _ => _ end) => destruct x
  | |- runs _ _ (mret _) => by apply runs_ret
  | |- runs _ _ (gets _) => by apply runs_gets
  | |- runs _ _ (panic _) => by apply runs_panic
  | |- runs _ _ (cnet (call _)) => by apply runs_now
  | |- runs _ _ (modify _) => by apply runs_quiet
  | |- runs _ _ _ => done
  end.
Ltac solve_runs := repeat runs_step.

Lemma runs_reconcile_queue :
  runs I R (performReconciliationActions config configMapName) →
  runs I R (processReconcileQueue_step config configMapName).
Proof. intros Hr. unfold processReconcileQueue_step, handleReconcileEvent, IsLeader. solve_runs. Qed.

Lemma runs_failover_queue :
  (∀ ev, runs I R (performFailoverCheck config configMapName ev)) →
  runs I R (processFailoverCheckQueue_step config configMapName).
Proof. intros Hf. unfold processFailoverCheckQueue_step, handleFailoverCheckEvent, IsLeader. solve_runs. Qed.

(** All operations: a tick and the operations of the two workers decide. *)
Lemma runs_ops o :
  runs I R (Run_tick config configMapName) →
  runs I R (performReconciliationActions config configMapName) →
  (∀ ev, runs I R (performFailoverCheck config configMapName ev)) →
  runs I R (run_op o).
Proof.
  intros Ht Hr Hf. destruct (takes_mutex o) eqn:Ho; [|by apply runs_idle, idle_unlocked].
  destruct o; try discriminate Ho; simpl.
  - by apply runs_drop.
  - by apply runs_reconcile_queue.
  - by apply runs_failover_queue.
Qed.
End workers.

(** Every operation follows the specification, whatever the world answers. *)
Lemma runs_op `{!WorldOrder W} o : follows (run_op o).
Proof.
  apply runs_ops; [typeclasses eauto|apply idle_sound|apply follows_tick|apply follows_reconcile|].
  apply follows_failover.
Qed.

(** ** Every operation completes *)

Section totality.
Context `{!WorldOrder W} (X : gset string) (rg : bool).
#[local] Abbreviation I := (initialized (W := W) X rg).

Lemma initialized_rq q s : I s → I (set_reconcileQueue (Some q) s).
Proof. by intros (? & ? & ? & _ & ?). Qed.

Lemma initialized_fq q s : I s → I (set_failoverCheckQueue (Some q) s).
Proof. by intros (? & ? & ? & ? & _ & ?). Qed.

Lemma safe_prober {A} (f : HealthProber → A * HealthProber) : safe I (prober f) anything.
Proof.
  intros s HI. pose proof HI as (Hn & Hg & Hr & Hq & Hf & [p Hp]). unfold prober. rewrite Hp.
  destruct (f p) as [a p']. eexists _, _. split; [done|]. split; [by repeat split|done].
Qed.

(** A test of a queue that is there. *)
Lemma safe_rq {A} (m : Queue ReconcileEvent → M (Ctl W) A) e Φ :
  (∀ q, safe I (m q) Φ) →
  safe I (rq ← gets ctl_reconcileQueue; match rq with None => panic e | Some q => m q end) Φ.
Proof.
  intros Hm s HI. pose proof HI as (_ & _ & _ & [q Hq] & _).
  unfold mbind, M_bind, gets. rewrite Hq. by apply Hm.
Qed.

Lemma safe_fq {A} (m : Queue FailoverCheckEvent → M (Ctl W) A) e Φ :
  (∀ q, safe I (m q) Φ) →
  safe I (fq ← gets ctl_failoverCheckQueue; match fq with None => panic e | Some q => m q end) Φ.
Proof.
  intros Hm s HI. pose proof HI as (_ & _ & _ & _ & [q Hq] & _).
  unfold mbind, M_bind, gets. rewrite Hq. by apply Hm.
Qed.

Lemma safe_set_rq q : safe I (modify (set_reconcileQueue (Some q))) anything.
Proof. apply safe_modify, initialized_rq. Qed.

Lemma safe_set_fq q : safe I (modify (set_failoverCheckQueue (Some q))) anything.
Proof. apply safe_modify, initialized_fq. Qed.
#[local] Hint Resolve safe_prober safe_set_rq safe_set_fq safe_enqueueFailoverCheckEvent : safe.

Lemma safe_find_by_address a keys :
  (∀ k, k ∈ keys → k ∈ X) → safe I (find_by_address a keys) (name_in X).
Proof.
  induction keys as [|k keys IH]; intros Hk; simpl; [by apply safe_ret|].
  assert (k ∈ X) by (apply Hk; left). assert (safe I (find_by_address a keys) (name_in X)).
  { apply IH. intros k' Hin. apply Hk. by right. }
  solve_safe.
Qed.

Lemma safe_findUpstreamNode a : safe I (findUpstreamNode a) (name_in X).
Proof.
  unfold findUpstreamNode. case_match; [by apply safe_ret|].
  eapply safe_bind; [apply safe_get_nodes|intros nodes Hn].
  eapply safe_bind; [by apply safe_keys|intros keys Hk]. by apply safe_find_by_address.
Qed.

Lemma safe_read_check : safe I (performReadGatewayUpstreamHealthCheck config) anything.
Proof.
  unfold performReadGatewayUpstreamHealthCheck, fail_read_gateway. pose proof safe_findUpstreamNode.
  apply safe_if_read_gateway; [by apply safe_ret|]. intros Hrg. solve_safe.
Qed.

Lemma safe_performHealthCheck : safe I (performHealthCheck config configMapName) anything.
Proof.
  unfold performHealthCheck, check_main, fail_main. pose proof safe_read_check. solve_safe.
Qed.

Lemma safe_spawned g : enabled rg (OpSpawned g) → safe I (run_spawn config configMapName g) anything.
Proof.
  destruct g as [|a]; simpl; intros Hrg.
  - unfold triggerFailover. intros s HI. pose proof HI as (_ & _ & _ & _ & [q Hq] & _).
    unfold mbind at 1, M_bind at 1, gets. rewrite Hq. revert s HI Hq.
    assert (∀ ev, safe I (modify (λ s : Ctl W, set_failoverCheckQueue
      (q_send ev <$> ctl_failoverCheckQueue s) s)) anything) as Hm.
    { intros ev. apply safe_modify. intros s (? & ? & ? & ? & [q' ->] & ?). by repeat split. }
    intros s HI _. revert s HI. apply (safe_bind _ _ _ anything); [eauto with safe|]. solve_safe.
  - unfold triggerReadGatewayUpstreamSwitch.
    pose proof (safe_updateReadGatewayUpstream config configMapName X rg). solve_safe.
Qed.

Lemma safe_enqueueReconcileEvent t r p : safe I (enqueueReconcileEvent t r p) anything.
Proof.
  unfold enqueueReconcileEvent. eapply (safe_bind _ _ _ anything); [eauto with safe|intros now _].
  apply safe_rq. intros q. eauto with safe.
Qed.
#[local] Hint Resolve safe_enqueueReconcileEvent : safe.

Lemma safe_pod_events oldPod newPod pod :
  safe I (onPodAdd config configMapName (Some pod)) anything ∧
  safe I (onPodUpdate config configMapName (Some oldPod) (Some newPod)) anything ∧
  safe I (onPodDelete config configMapName (Some pod)) anything.
Proof.
  assert (∀ o n, safe I (handleReplicaHealthChange config configMapName o n) anything).
  { intros o n. unfold handleReplicaHealthChange.
    apply safe_if_read_gateway; [by apply safe_ret|]. intros Hrg. solve_safe. }
  assert (∀ p, safe I (handleReplicaDeleted config configMapName p) anything).
  { intros p. unfold handleReplicaDeleted.
    apply safe_if_read_gateway; [by apply safe_ret|]. intros Hrg. solve_safe. }
  unfold onPodAdd, onPodUpdate, onPodDelete, IsLeader, assert_pod. split; [|split]; solve_safe.
Qed.

Lemma safe_failover_queue : safe I (processFailoverCheckQueue_step config configMapName) anything.
Proof.
  unfold processFailoverCheckQueue_step. pose proof (safe_handleFailoverCheckEvent config configMapName X rg).
  apply safe_fq. intros q. solve_safe.
Qed.

Lemma safe_lead e : safe I (on_lead e) anything.
Proof.
  assert (∀ le, safe I (modify (set_leaderElection le)) anything)
    by (intros le; by apply safe_modify).
  pose proof (safe_prom (W := W) X rg).
  destruct e; simpl; unfold onStartLeading, onStopLeading.
  - apply (safe_bind _ _ _ anything); [apply safe_gets|intros le _].
    destruct (le_start le) as [b le']. solve_safe.
  - by apply safe_modify.
  - by apply safe_modify.
Qed.

Lemma safe_disconnect_gateway r : safe I (disconnect_gateway r) anything.
Proof.
  intros s HI. unfold disconnect_gateway, mbind, M_bind, gw_nil, gets, gw_DisconnectAll.
  destruct (gateway_of r s) as [g|] eqn:Hg; simpl; [|by exists (), s].
  rewrite Hg. eexists _, _. split; [done|]. split; [|done].
  apply initialized_net, initialized_set_gateway; [done|]. intros ->. simpl in Hg.
  destruct HI as (_ & _ & Hr & _). rewrite Hg in Hr. by destruct rg.
Qed.

Lemma safe_reset : safe I ResetAllConnections anything.
Proof.
  assert (total (cp_Close (W := W))).
  { unfold cp_Close, range_keys. apply (safe_bind _ _ _ anything); [eauto with safe|intros d _].
    apply (safe_bind _ _ _ anything); [eauto with safe|intros keys _].
    apply (safe_bind _ _ _ anything); [|eauto with safe].
    apply safe_forM. intros k _. solve_safe. }
  pose proof safe_disconnect_gateway. unfold ResetAllConnections. solve_safe.
Qed.

Lemma safe_prestop ticks e : safe I (HandlePreStopHook config configMapName ticks e) anything.
Proof.
  assert (safe I (logDetailedClusterStatus config configMapName) anything)
    by (unfold logDetailedClusterStatus; solve_safe).
  pose proof (safe_isHealthy config configMapName X rg).
  assert (∀ n, safe I (prestop_loop config configMapName n e) anything).
  { intros n. induction n as [|n IH]; simpl; solve_safe. }
  pose proof (safe_gw_SetUpstreamAddress (W := W) X rg false "" ltac:(done)).
  assert (safe I (gw_nil false) anything) by apply safe_gets.
  unfold HandlePreStopHook. solve_safe.
Qed.

Lemma safe_serve r : safe I (serve config configMapName r) anything.
Proof.
  pose proof safe_reset. pose proof safe_prestop.
  pose proof (safe_GetClusterStatus config configMapName X rg).
  assert (safe I (GetCurrentLeader (W := W) config) anything)
    by (unfold GetCurrentLeader; solve_safe).
  unfold serve, handleStatus, handleLeadership, handleHealth, handleLiveness, handleReadiness,
    handleResetConnections, handlePreStopHook, handleRoot, only_method, reply, http_error, IsRunning.
  destruct (route_of (rq_Path r)); solve_safe.
Qed.
End totality.

(** The tick of [Run] with its index loaded, and the queue's worker. *)
Lemma tick_completes `{!WorldOrder W} rg s :
  running rg s → sound s →
  ∃ s', run_op OpTick s = (Ret (), s') ∧ running rg s'.
Proof.
  intros HI Hs. simpl. unfold drop_result, Run_tick. set (l := le_IsLeader (ctl_leaderElection s)).
  destruct l eqn:Hl; unfold l in Hl.
  - destruct (safe_performReconciliationActions config configMapName rg s HI)
      as (err & s' & Hr & HI' & _).
    exists s'. split; [|done]. unfold IsLeader.
    erewrite (bind_ret_run _ _ s TickContinue s'); [done|].
    rewrite (bind_ret_run _ _ s true s) by (unfold gets; by rewrite Hl). simpl.
    rewrite (bind_ret_run _ _ s _ s (GetTargetMainIndex_loaded config configMapName s (sound_loaded s Hs))).
    by rewrite (bind_ret_run _ _ s err s' Hr).
  - exists s. split; [|done]. erewrite (bind_ret_run _ _ s TickContinue s); [done|].
    unfold IsLeader. by rewrite (bind_ret_run _ _ s false s) by (unfold gets; by rewrite Hl).
Qed.

Lemma safe_running_rq {A} rg (m : Queue ReconcileEvent → M (Ctl W) A) e Φ :
  (∀ q, safe (running rg) (m q) Φ) →
  safe (running rg) (rq ← gets ctl_reconcileQueue; match rq with None => panic e | Some q => m q end) Φ.
Proof.
  intros Hm s HI. pose proof HI as (X & _ & _ & _ & [q Hq] & _).
  unfold mbind, M_bind, gets. rewrite Hq. by apply Hm.
Qed.

Lemma safe_reconcile_queue `{!WorldOrder W} rg :
  safe (running rg) (processReconcileQueue_step config configMapName) anything.
Proof.
  unfold processReconcileQueue_step, handleReconcileEvent, IsLeader.
  pose proof (safe_performReconciliationActions config configMapName rg).
  assert (∀ q, safe (running rg) (modify (set_reconcileQueue (W := W) (Some q))) anything).
  { intros q. apply safe_running. intros X. apply safe_set_rq. }
  assert (safe (running rg) (cnet (call (w_now (W := W)))) anything).
  { apply safe_running. intros X. eauto with safe. }
  apply safe_running_rq. intros q. destruct (q_receive q) as [[e q']|]; [|by apply safe_ret].
  apply (safe_bind _ _ _ anything); [done|intros _ _].
  apply (safe_bind _ _ _ anything); [apply safe_gets|intros l _].
  destruct (negb l); [by apply safe_ret|]. apply safe_running_rq. intros q2.
  apply (safe_bind _ _ _ anything); [done|intros now _].
  destruct (q_admit _ _ _ _) as [[] q3]; simpl; [|by apply safe_ret].
  apply (safe_bind _ _ _ anything); [done|intros _ _].
  apply (safe_bind _ _ _ anything); [done|intros _ _]. by apply safe_ret.
Qed.

Lemma safe_drop {A} (I : Ctl W → Prop) (m : M (Ctl W) A) :
  safe I m anything → safe I (drop_result m) anything.
Proof. intros Hm. apply (safe_bind _ _ _ anything); [done|]. intros _ _. by apply safe_ret. Qed.

(** The operations other than a tick do not need the index. *)
Lemma op_safe `{!WorldOrder W} rg o :
  o ≠ OpTick → enabled rg o → safe (running rg) (run_op o) anything.
Proof.
  intros Ho He. pose proof (λ X o n p, safe_pod_events X rg o n p) as Hpe.
  destruct o as [| | | |g|pod|o n|pod|e|r| |w]; simpl;
    [done|apply safe_reconcile_queue|apply safe_running; intros X..].
  - apply safe_failover_queue.
  - apply safe_drop, safe_performHealthCheck.
  - by apply safe_spawned.
  - apply (Hpe X pod pod pod).
  - apply (Hpe X o n n).
  - apply (Hpe X pod pod pod).
  - apply safe_lead.
  - apply safe_drop, safe_serve.
  - apply (safe_updateReadGatewayUpstream config configMapName X rg).
  - by apply safe_modify.
Qed.

(** Every enabled operation completes, and leaves the controller's parts in place. *)
Lemma op_completes `{!WorldOrder W} rg o s :
  enabled rg o → running rg s → sound s →
  ∃ s', run_op o s = (Ret (), s') ∧ running rg s' ∧ refines s s' ∧ sound s'.
Proof.
  intros He HI Hs.
  assert (∃ s', run_op o s = (Ret (), s') ∧ running rg s') as (s' & Hr & HI').
  2:{ exists s'. split; [done|]. split; [done|]. by eapply runs_op. }
  assert (o = OpTick ∨ o ≠ OpTick) as [->|Ho] by (destruct o; auto); [by apply tick_completes|].
  destruct (op_safe rg o Ho He s HI) as ([] & s' & ? & ? & _). by exists s'.
Qed.

Lemma sys_steps_follow `{!WorldOrder W} rg s s' :
  rtc (sys_step rg) s s' → sound s → refines s s' ∧ sound s'.
Proof.
  induction 1 as [s|s1 s2 s3 [o _ Hr] _ IH]; intros Hs; [by split|].
  destruct (runs_op o _ _ _ Hs Hr) as [R Hs2]. destruct (IH Hs2) as [R' Hs3].
  split; [by etrans|done].
Qed.

(** ** Properties *)

(** The controller implements its contract.  Take any interleaving of its
    handlers, queue workers, timer ticks, election callbacks and HTTP requests,
    with the outside world changing at will in between and answering whatever it
    likes: the queries, gateway switches and ConfigMap writes of the whole
    history are a run of the specification, from the abstract state before to
    the abstract state after. *)
Theorem controller_refines_contract `{!WorldOrder W} rg s s' :
  sound s → rtc (sys_step rg) s s' →
  (∃ evs, trace_of s' = trace_of s ++ evs ∧ spec_run config (view s) evs (view s')) ∧ sound s'.
Proof. intros Hs Hr. by apply (sys_steps_follow rg). Qed.

(** Well-formedness is preserved and the controller never gets stuck: in
    every state reachable from a running one, the node map, the gateways, the
    queues and the prober are still in place, the target is one of the two data
    pods, and every operation runs to its end without a panic. *)
Theorem controller_never_stuck `{!WorldOrder W} rg s s' :
  running rg s → sound s → rtc (sys_step rg) s s' →
  running rg s' ∧ sound s' ∧ ∀ o, enabled rg o → ∃ s'', run_op o s' = (Ret (), s'').
Proof.
  intros HI Hs Hr. cut (running rg s' ∧ sound s').
  { intros [HI' Hs']. split; [done|]. split; [done|]. intros o Ho.
    destruct (op_completes rg o s' Ho HI' Hs') as (s'' & ? & _). eauto. }
  induction Hr as [s|s1 s2 s3 [o Ho Hr] _ IH]; [done|].
  destruct (op_completes rg o s1 Ho HI Hs) as (s2' & Hr' & HI2 & _ & Hs2).
  rewrite Hr' in Hr. injection Hr as ->. by apply IH.
Qed.

(** No split brain through the gateway.  Over a whole history, every
    promotion of a database and every write of the target index to the ConfigMap
    happens while the read/write gateway has no upstream: the last switch of
    that gateway before it closed it. *)
Theorem promotions_behind_closed_gateway `{!WorldOrder W} rg s s' :
  sound s → rtc (sys_step rg) s s' →
  ∃ evs, trace_of s' = trace_of s ++ evs ∧
    default "" (upstream false s') = write_upstream (default "" (upstream false s)) evs ∧
    ∀ e1 e e2, evs = e1 ++ e :: e2 → role_event e →
      write_upstream (default "" (upstream false s)) e1 = "".
Proof.
  intros Hs Hr. destruct (sys_steps_follow rg _ _ Hr Hs) as [(evs & T & R) _].
  exists evs. split; [done|]. split; [exact (spec_run_upstream _ _ _ _ R)|].
  intros e1 e e2 -> He. exact (spec_run_closed _ _ _ _ _ _ R He).
Qed.

(** Memory and ConfigMap agree on the target.  The indexes stored over a
    history alternate between the two data pods, starting with the other one,
    and the index in memory is the one stored last, or the initial one when
    nothing was stored. *)
Theorem stored_index_agrees `{!WorldOrder W} rg s s' :
  sound s → rtc (sys_step rg) s s' →
  ∃ evs n, trace_of s' = trace_of s ++ evs ∧ stored evs = flips (ctl_targetMainIndex s) n ∧
    ctl_targetMainIndex s' = flip (ctl_targetMainIndex s) n.
Proof.
  intros Hs Hr. destruct (sys_steps_follow rg _ _ Hr Hs) as [(evs & T & R) _].
  destruct (spec_run_stored _ _ _ _ R) as (n & ? & ?). by exists evs, n.
Qed.
End System.

(** ** Scripts of operations *)

Section scripts.
Context {W : Type} `{World W} (config : Config) (configMapName : string).

Definition after (s : Ctl W) (o : op W) : Ctl W := (run_op config configMapName o s).2.

Lemma script_steps rg os s :
  Forall (enabled rg) os →
  Forall (λ r, r = Ret ())
    (imap (λ i o, (run_op config configMapName o (foldl after s (take i os))).1) os) →
  rtc (sys_step config configMapName rg) s (foldl after s os).
Proof.
  intros Ho. revert s. induction Ho as [|o os Ho _ IH]; intros s Hr; simpl in *; [reflexivity|].
  apply Forall_cons in Hr as [Hr Hrs]. eapply rtc_l; [|by apply IH].
  apply (sys_op _ _ _ _ _ o Ho). unfold after. rewrite <- Hr. apply surjective_pairing.
Qed.
End scripts.

(** ** Witnesses: the main is gone; an update reports it and the queue fails over *)

Abbreviation sim_step := (after example_config "memgraph-state").
Definition sim_ops : list (op Sim) :=
  [OpPodUpdate (sim_pod 0) (unready_pod (GetPodName example_config 0) "10.0.0.1");
   OpFailoverQueue; OpHealthCheck; OpWorld (sim_world (Some db_fresh) (Some db_replica)); OpTick].
Definition sim_end : Ctl Sim := foldl sim_step sim_failed sim_ops.

Lemma sim_reaches : rtc (sys_step example_config "memgraph-state" true) sim_failed sim_end.
Proof. apply script_steps; repeat constructor; vm_compute; reflexivity. Qed.

Lemma sim_failed_sound : sound sim_failed.
Proof.
  split; [by left|]. apply named_view. intros k n Hn.
  change (<[GetPodName example_config 0 := main_cached]> sim_nodes !! k = Some n) in Hn.
  apply lookup_insert_Some in Hn as [[<- <-]|[_ Hn]]; [vm_compute; reflexivity|].
  by apply sim_unregistered_named.
Qed.

Lemma controller_refines_contract_witness : sound sim_end ∧ a_target (view sim_end) = 1%Z.
Proof.
  split; [|vm_compute; reflexivity].
  apply (controller_refines_contract example_config "memgraph-state" true sim_failed sim_end
    sim_failed_sound sim_reaches).
Defined.

Lemma controller_never_stuck_witness :
  ∃ s, run_op example_config "memgraph-state" OpReconcileQueue sim_end = (Ret (), s).
Proof.
  destruct (controller_never_stuck example_config "memgraph-state" true sim_failed sim_end
    (ex_intro _ sim_pods_set sim_failed_initialized) sim_failed_sound sim_reaches) as (_ & _ & Hop).
  by apply Hop.
Defined.

Lemma promotions_behind_closed_gateway_witness :
  ∃ evs, trace_of sim_end = trace_of sim_failed ++ evs ∧ stored evs = [index_data 1] ∧
    write_upstream (sim_bolt 0) evs = sim_bolt 1.
Proof.
  destruct (promotions_behind_closed_gateway example_config "memgraph-state" true sim_failed sim_end
    sim_failed_sound sim_reaches) as (evs & T & Hu & _).
  assert (evs = trace_of sim_end) as -> by (rewrite T; reflexivity).
  exists (trace_of sim_end). split; [reflexivity|]. split; [vm_compute; reflexivity|].
  etrans; [symmetry; exact Hu|]. vm_compute. reflexivity.
Defined.

Lemma stored_index_agrees_witness : ∃ n, ctl_targetMainIndex sim_end = flip 0 n ∧ n = 1.
Proof.
  destruct (stored_index_agrees example_config "memgraph-state" true sim_failed sim_end
    sim_failed_sound sim_reaches) as (evs & n & T & Hst & Hi).
  exists n. split; [exact Hi|]. assert (evs = trace_of sim_end) as -> by (rewrite T; reflexivity).
  apply (f_equal length) in Hst. revert Hst. vm_compute length at 1. clear.
  destruct n as [|[|n]]; [discriminate|reflexivity|discriminate].
Defined.
