(* ===== verification/Liveness.v ===== *)
(** * Liveness: a failover goes through when the standby cooperates

    The theorems so far hold whatever the world answers.  Here the world keeps
    its side: the standby's database accepts connections, answers a ping and a
    role query and obeys the promotion, its pod stays ready in the informer's
    cache, and the ConfigMap can be written.  Then a failover succeeds, and an
    update that shows the main's pod unready is followed by a failover at the
    next round of the queue. *)

From S2P Require Import Prelude.
From S2P Require Import GoStrings.
From S2P Require Import DataInfo.
From S2P Require Import Pods.
From S2P Require Import Config.
From S2P Require Import World.
From S2P Require Import ConnectionPool.
From S2P Require Import MemgraphClient.
From S2P Require Import MemgraphNode.
From S2P Require Import GatewayServer.
From S2P Require Import Metrics.
From S2P Require Import Queues.
From S2P Require Import LeaderElection.
From S2P Require Import ControllerState.
From S2P Require Import Sim.
From S2P Require Import Controller.
From S2P Require Import Failover.
From S2P Require Import Reconcile.
From S2P Require Import Events.
From S2P Require Import Contract.
From S2P Require Import System.

(** ** A cooperative standby

    [up b w]: the database at [a] and the pod [podName] that runs it are up, and
    the database is a main exactly if [b]; [serves d w]: driver [d] is connected
    to it.  The laws are what Memgraph, the driver and Kubernetes document. *)
Section Cooperative.
Context {W : Type} `{World W}.
Context (config : Config) (configMapName : string) (podName a : string).
Context (up : bool → W → Prop) (serves : Z → W → Prop).

Definition stays (b : bool) (w w' : W) : Prop := up b w' ∧ ∀ d, serves d w → serves d w'.

Record Cooperative : Prop := {
  co_select q t b w : up b w → (w_select a q t w).1 = SelResult ∧ stays b w (w_select a q t w).2;
  co_new_driver u p b w : up b w → ∃ d w', w_new_driver ("bolt://" +:+ a) u p w = (Ok d, w') ∧
    serves d w' ∧ stays b w w';
  co_verify d b w : up b w → serves d w → ∃ w', w_verify d w = (None, w') ∧ stays b w w';
  co_ping d b w : up b w → serves d w →
    ∃ rs w', w_session_run d q_ping w = (Ok rs, w') ∧ stays b w w';
  co_role d b w : up b w → serves d w →
    ∃ r rs w', w_session_run d q_show_role w = (Ok (r :: rs), w') ∧
      r !! "replication role" = Some (VString (if b then "main" else "replica")) ∧ stays b w w';
  co_promote d b w : up b w → serves d w →
    ∃ rs w', w_session_run d q_promote w = (Ok rs, w') ∧ stays true w w';
  co_configmap data o b w : up b w →
    (w_cm_update (Namespace config) configMapName data o w).1 = None ∨
    ∃ e w', w_cm_update (Namespace config) configMapName data o w = (Some e, w') ∧
      w_is_not_found e = true ∧ (w_cm_create (Namespace config) configMapName data o w').1 = None;
  co_pod_get ns n b w : up b w → up b (w_pod_get ns n w).2;
  co_owners ns n b w : up b w → up b (w_replicaset_owners ns n w).2;
  co_now b w : up b w → stays b w (w_now w).2;
  co_ready b w : up b w → ∃ pod, w_store_get (pod_key config podName) w = Ok (Some (Some pod)) ∧
    isPodReady pod = true ∧ pod_PodIP pod ≠ "";
}.
Context (co : Cooperative) (Ha : a ≠ "").

(** The standby is up and the pool's driver for it, if any, works. *)
Definition alive (b : bool) (n : Net W) : Prop :=
  up b (net_world n) ∧ ∀ d, cp_drivers (net_pool n) !! a = Some d → serves d (net_world n).

Lemma alive_world b b' n w :
  alive b n → stays b' (net_world n) w → alive b' (set_world w n).
Proof. intros [_ Hd] [Hu Hs]. split; [done|]. simpl. eauto. Qed.

Lemma call_run {A} (f : W → A * W) n x n' :
  call f n = (Ret x, n') → x = (f (net_world n)).1 ∧ n' = set_world (f (net_world n)).2 n.
Proof. unfold call. destruct (f (net_world n)). by intros [= <- <-]. Qed.

Lemma live_verify b d n r n' :
  alive b n → serves d (net_world n) → call (w_verify d) n = (Ret r, n') →
  r = None ∧ alive b n' ∧ serves d (net_world n') ∧ net_pool n' = net_pool n.
Proof.
  intros Hal Hs [-> ->]%call_run. destruct (co_verify co d b (net_world n)) as (w' & -> & Hst);
    [apply Hal|done|]. simpl. split; [done|]. split; [by apply (alive_world b b)|]. split; [|done].
  by apply Hst.
Qed.

Lemma createDriver_alive b n r n' :
  alive b n → createDriver config a n = (Ret r, n') →
  ∃ d, r = Ok d ∧ serves d (net_world n') ∧ alive b n'.
Proof.
  intros Hal Hr. unfold createDriver in Hr. inv_bind Hr as d n1 H1. injection H1 as <- <-.
  destruct (cp_drivers (net_pool n) !! a) as [d|] eqn:Hd.
  { injection Hr as <- <-. exists d. split; [done|]. split; [|done]. by apply Hal. }
  inv_bind Hr as nd n1 H1. apply call_run in H1 as [-> ->].
  destruct (co_new_driver co (MemgraphUser config) (MemgraphPassword config) b (net_world n))
    as (d & w1 & Hn & Hs & Hst); [apply Hal|]. rewrite Hn in Hr. simpl in Hr.
  inv_bind Hr as v n2 H2. apply (live_verify b) in H2 as (-> & Hal2 & Hs2 & Hp2);
    [|by apply (alive_world b b)|done].
  inv_bind Hr as u n3 H3. injection H3 as _ <-. injection Hr as <- <-.
  exists d. split; [done|]. split; [done|]. split; [apply Hal2|]. intros d' Hd'. simpl in *.
  rewrite lookup_insert_eq in Hd'. by injection Hd' as <-.
Qed.

Lemma GetDriver_alive b n r n' :
  alive b n → GetDriver config a n = (Ret r, n') →
  ∃ d, r = Ok d ∧ serves d (net_world n') ∧ alive b n'.
Proof.
  intros Hal Hr. unfold GetDriver in Hr. rewrite bool_decide_eq_false_2 in Hr by done.
  inv_bind Hr as d n1 H1. injection H1 as <- <-.
  destruct (cp_drivers (net_pool n) !! a) as [d|] eqn:Hd; [|by apply (createDriver_alive b) in Hr].
  inv_bind Hr as v n1 H1. apply (live_verify b) in H1 as (-> & Hal1 & Hs1 & _); [|done|by apply Hal].
  injection Hr as <- <-. eauto.
Qed.

(** A query the standby answers with [P], ending in role [b']. *)
Definition answers (b b' : bool) (q : string) (P : list record → Prop) : Prop :=
  ∀ d w, up b w → serves d w →
    ∃ rs w', w_session_run d q w = (Ok rs, w') ∧ P rs ∧ stays b' w w'.

Lemma query_alive b b' q t P n r n' :
  answers b b' q P → alive b n → RunQueryWithTimeout config a q t n = (Ret r, n') →
  ∃ rs, r = Ok rs ∧ P rs ∧ alive b' n'.
Proof.
  intros Hans Hal Hr. unfold RunQueryWithTimeout in Hr. rewrite bool_decide_eq_false_2 in Hr by done.
  inv_bind Hr as sel n1 H1. apply call_run in H1 as [-> ->].
  destruct (co_select co q t b (net_world n)) as [Hsel Hst]; [apply Hal|]. rewrite Hsel in Hr.
  apply (alive_world b b) in Hst; [|done]. unfold RunQuery in Hr.
  inv_bind Hr as d n2 H2. apply (GetDriver_alive b) in H2 as (d' & -> & Hs & Hal2); [|done].
  inv_bind Hr as u n3 H3. injection H3 as _ <-. apply call_run in Hr as [-> ->].
  destruct (Hans d' (net_world n2)) as (rs & w' & Hrun & HP & Hst2); [apply Hal2|done|].
  simpl. rewrite Hrun. exists rs. split; [done|]. split; [done|].
  exact (alive_world b b' n2 w' Hal2 Hst2).
Qed.

Definition role_text (b : bool) : string := if b then "main" else "replica".

Lemma ping_alive b t n r n' :
  alive b n → mc_Ping config a t n = (Ret r, n') → r = None ∧ alive b n'.
Proof.
  intros Hal Hr. unfold mc_Ping in Hr. inv_bind Hr as rs n1 H1.
  apply (query_alive b b _ _ (λ _, True)) in H1 as (rs' & -> & _ & ?); [by injection Hr as <- <-| |done].
  intros d w Hu Hs. destruct (co_ping co d b w Hu Hs) as (? & ? & ? & ?). eauto 10.
Qed.

Lemma role_alive b n r n' :
  alive b n → QueryReplicationRole config a n = (Ret r, n') → r = Ok (role_text b) ∧ alive b n'.
Proof.
  intros Hal Hr. unfold QueryReplicationRole in Hr. inv_bind Hr as rs n1 H1.
  apply (query_alive b b _ _ (λ rs, ∃ r rs', rs = r :: rs' ∧
    r !! "replication role" = Some (VString (role_text b)))) in H1
    as (rs' & -> & (r' & rs2 & -> & Hrole) & ?); [|
    |done].
  - rewrite Hrole in Hr. by injection Hr as <- <-.
  - intros d w Hu Hs. destruct (co_role co d b w Hu Hs) as (? & ? & ? & ? & ? & ?). eauto 12.
Qed.

Lemma promote_alive b n r n' :
  alive b n → SetReplicationRoleToMain config a n = (Ret r, n') → r = None ∧ alive true n'.
Proof.
  intros Hal Hr. unfold SetReplicationRoleToMain in Hr. inv_bind Hr as rs n1 H1.
  apply (query_alive b true _ _ (λ _, True)) in H1 as (rs' & -> & _ & ?);
    [by injection Hr as <- <-| |done].
  intros d w Hu Hs. destruct (co_promote co d b w Hu Hs) as (? & ? & ? & ?). eauto 10.
Qed.

(** ** The standby's node *)

(** A method of the standby's node from a live standby in role [b]: the node
    keeps its identity, the standby ends in role [b'], and [Φ] relates the nodes
    and the result. *)
Definition node_live {A} (b b' : bool) (m : M (NodeNet W) A)
    (Φ : MemgraphNode → A → MemgraphNode → Prop) : Prop :=
  ∀ n n0 r n' n0', GetBoltAddress n = Ok a → alive b n0 → m (n, n0) = (Ret r, (n', n0')) →
    node_id n' = node_id n ∧ alive b' n0' ∧ Φ n r n'.

Lemma net_inv {A} (m : M (Net W) A) (s : NodeNet W) r s' :
  net m s = (Ret r, s') → ∃ n0', m s.2 = (Ret r, n0') ∧ s' = (s.1, n0').
Proof. rewrite net_run. destruct (m s.2) as [o n0']. simpl. intros [= -> <-]. eauto. Qed.

Lemma node_role_live b :
  node_live b b (GetReplicationRole config false) (λ n r n',
    r.2 = None ∧ (mn_memgraphRole n = "" → r.1 = role_text b)).
Proof.
  intros n n0 r n' n0' Hb Hal Hr. unfold GetReplicationRole in Hr.
  inv_bind Hr as role s1 H1. injection H1 as <- <-. simpl in Hr.
  case_bool_decide as Hrole; simpl in Hr; [|by injection Hr as <- <- <-].
  inv_bind Hr as ba s1 H1. injection H1 as <- <-. simpl in Hr. rewrite Hb in Hr.
  inv_bind Hr as q s1 H1. apply net_inv in H1 as (n1 & H1 & ->).
  apply (role_alive b) in H1 as [-> Hal1]; [|done]. inv_bind Hr as u s2 H2. injection H2 as _ <-.
  by injection Hr as <- <- <-.
Qed.

Lemma node_ping_live b : node_live b b (Ping config) (λ _ r _, r = None).
Proof.
  intros n n0 r n' n0' Hb Hal Hr. unfold Ping in Hr. inv_bind Hr as ba s1 H1. injection H1 as <- <-.
  simpl in Hr. rewrite Hb in Hr. apply net_inv in Hr as (n1 & H1 & [= -> ->]).
  by apply (ping_alive b) in H1 as [-> Hal1].
Qed.

Lemma node_promote_live b :
  node_live b true (SetToMainRole config) (λ _ r n', r = None ∧ mn_memgraphRole n' = "").
Proof.
  intros n n0 r n' n0' Hb Hal Hr. unfold SetToMainRole in Hr.
  inv_bind Hr as ba s1 H1. injection H1 as <- <-. simpl in Hr. rewrite Hb in Hr.
  inv_bind Hr as e s1 H1. apply net_inv in H1 as (n1 & H1 & ->).
  apply (promote_alive b) in H1 as [-> Hal1]; [|done]. inv_bind Hr as u s2 H2.
  injection H2 as _ <-. by injection Hr as <- <- <-.
Qed.

(** ** The controller before a failover

    The target is [t], its node is [main], and the standby is the other pod. *)
Context (t : Z) (main : MemgraphNode) (id : string * string).

Definition standby (b : bool) (s : Ctl W) : Prop :=
  ctl_targetMainIndex s = t ∧ node_at s (GetPodName config t) = Some main ∧
  (∃ n, node_at s podName = Some n ∧ node_id n = id) ∧ alive b (ctl_net s).

Context (Hpod : podName = GetPodName config (int32 (1 - t))).
Context (Hid : id.2 ≠ "" ∧ a = id.2 +:+ ":7687") (Ht : t = 0%Z ∨ t = 1%Z).
(** The replica list cached for the main allows a failover. *)
Context (Hrole : mn_memgraphRole main = "main") (Hcached : mn_hasReplicasInfo main = true)
  (Hallow : check_replicas (replace_all "-" "_" id.1) podName (mn_replicasInfo main) = None).

Lemma standby_index b s : standby b s → GetTargetMainIndex config configMapName s = (Ret (Ok t), s).
Proof.
  intros (Hi & _). rewrite GetTargetMainIndex_loaded by (rewrite Hi; destruct Ht; lia). by rewrite Hi.
Qed.

Lemma standby_ne : GetPodName config t ≠ podName.
Proof. rewrite Hpod. intros Heq. symmetry in Heq. by eapply sync_pod_ne. Qed.

Lemma id_bolt n : node_id n = id → GetBoltAddress n = Ok a.
Proof.
  destruct Hid as [Hne Heq]. intros Hn. unfold GetBoltAddress. rewrite Heq, <- Hn. simpl.
  rewrite <- Hn in Hne. by rewrite bool_decide_eq_false_2.
Qed.

Lemma on_node_index {A} k (m : M (NodeNet W) A) s :
  ctl_targetMainIndex (on_node k m s).2 = ctl_targetMainIndex s.
Proof. unfold on_node. destruct (node_at s k); [|done]. by destruct (m _) as [o [n' n0']]. Qed.

(** A method of the standby's node. *)
Lemma on_standby {A} b b' (m : M (NodeNet W) A) Φ s r s' :
  node_live b b' m Φ → standby b s → on_node podName m s = (Ret r, s') →
  standby b' s' ∧ ∃ n n', node_at s podName = Some n ∧ node_at s' podName = Some n' ∧ Φ n r n'.
Proof.
  intros Hm (Hi & Hmain & (n & Hn & Hnid) & Hal) Hr.
  pose proof (on_node_index podName m s) as Hi'. rewrite Hr in Hi'. simpl in Hi'.
  apply on_node_inv in Hr as (n1 & n' & n0' & Hn1 & Hrun & Hn' & Hnet & Hk).
  rewrite Hn in Hn1. injection Hn1 as <-.
  apply Hm in Hrun as (Hid' & Hal' & HΦ); [|by apply id_bolt|done].
  split; [|eauto]. split; [congruence|]. split; [rewrite Hk; [done|apply standby_ne]|].
  split; [exists n'; split; [done|congruence]|]. by rewrite Hnet.
Qed.

Lemma standby_found b s : standby b s → ∃ n, node_at s podName = Some n ∧ node_id n = id.
Proof. by intros (_ & _ & Hn & _). Qed.

Lemma healthy_live b s r s' :
  standby b s → getHealthyRole config podName s = (Ret r, s') → standby b s' ∧ ∃ role, r = (role, true).
Proof.
  intros Hs Hr. unfold getHealthyRole in Hr. inv_bind Hr as p s1 H1.
  destruct (co_ready co b (net_world (ctl_net s))) as (pod & Hpd & Hready & Hip); [apply Hs|].
  unfold getPodFromCache in H1. inv_bind H1 as nodes s2 H2. apply get_nodes_inv in H2 as [-> _].
  inv_bind H1 as obj s2 H2. injection H2 as <- <-. rewrite Hpd in H1. injection H1 as <- <-.
  rewrite bool_decide_eq_false_2, Hready in Hr by done. simpl in Hr.
  destruct (standby_found b s Hs) as (n & Hn & _).
  inv_bind Hr as n' s1 H1. apply find_node_inv in H1 as [-> ->]. rewrite Hn in Hr.
  inv_bind Hr as rr s1 H1. apply (on_standby b b _ _ _ _ _ (node_role_live b) Hs) in H1
    as (Hs1 & n1 & n1' & _ & _ & Hrr & _).
  destruct rr as [role e]. simpl in Hrr. subst e. injection Hr as <- <-. eauto.
Qed.

Lemma ping_live b s r s' :
  standby b s → lastChancePing config podName s = (Ret r, s') → standby b s' ∧ r = None.
Proof.
  intros Hs Hr. unfold lastChancePing in Hr. destruct (standby_found b s Hs) as (n & Hn & _).
  inv_bind Hr as n' s1 H1. apply find_node_inv in H1 as [-> ->]. rewrite Hn in Hr.
  inv_bind Hr as e s1 H1. apply (on_standby b b _ _ _ _ _ (node_ping_live b) Hs) in H1
    as (Hs1 & _ & _ & _ & _ & ->). by injection Hr as <- <-.
Qed.

(** The main is not asked: its role and its replicas are cached. *)
Lemma replicas_live b s r s' :
  standby b s → on_node (GetPodName config t) (GetReplicas config false) s = (Ret r, s') →
  standby b s' ∧ r = Ok (mn_replicasInfo main).
Proof.
  intros (Hi & Hmain & Hn & Hal) Hr.
  pose proof (on_node_index (GetPodName config t) (GetReplicas config false) s) as Hi'.
  rewrite Hr in Hi'. simpl in Hi'.
  apply on_node_inv in Hr as (n1 & n' & n0' & Hn1 & Hrun & Hn' & Hnet & Hk).
  rewrite Hmain in Hn1. injection Hn1 as <-. unfold GetReplicas in Hrun.
  rewrite (bind_ret_run _ _ _ ("main", None) (main, ctl_net s)) in Hrun.
  2:{ rewrite <- Hrole. apply GetReplicationRole_cached. simpl. by rewrite Hrole. }
  unfold mbind, M_bind, field, gets in Hrun. simpl in Hrun. rewrite Hcached in Hrun. simpl in Hrun.
  injection Hrun as <- <- <-. split; [|done]. split; [congruence|]. split; [done|].
  split; [|by rewrite Hnet]. destruct Hn as (n & Hn & Hnid). exists n. split; [|done].
  rewrite Hk; [done|]. intros Heq. by apply standby_ne.
Qed.

Lemma checks_live b s r s' :
  standby b s → failover_checks config configMapName s = (Ret r, s') →
  standby b s' ∧ ∃ role, r = Ok (int32 (1 - t), podName, role).
Proof.
  intros Hs Hr. unfold failover_checks in Hr. inv_bind Hr as idx s1 H1.
  rewrite (standby_index b s Hs) in H1. injection H1 as <- <-. rewrite <- Hpod in Hr.
  inv_bind Hr as hr s1 H1. apply (healthy_live b) in H1 as (Hs1 & role & ->); [|done]. simpl in Hr.
  inv_bind Hr as m s2 H2. unfold getTargetMainNode in H2. inv_bind H2 as idx s3 H3.
  rewrite (standby_index b s1 Hs1) in H3. injection H3 as <- <-.
  inv_bind H2 as n s3 H3. apply find_node_inv in H3 as [-> ->].
  rewrite (proj1 (proj2 Hs1)) in H2. injection H2 as <- <-.
  inv_bind Hr as rs s2 H2. apply (replicas_live b) in H2 as (Hs2 & ->); [|done].
  destruct (standby_found b s2 Hs2) as (n & Hn & Hnid).
  inv_bind Hr as n' s3 H3. apply find_node_inv in H3 as [-> ->]. rewrite Hn in Hr.
  inv_bind Hr as name s3 H3. apply on_node_field_run in H3 as (-> & n' & Hn' & ->).
  rewrite Hn in Hn'. injection Hn' as <-. unfold node_GetReplicaName in Hr.
  change (mn_name n) with ((node_id n).1) in Hr. rewrite Hnid, Hallow in Hr.
  inv_bind Hr as e s3 H3. apply (ping_live b) in H3 as (Hs3 & ->); [|done].
  injection Hr as <- <-. eauto.
Qed.

Lemma close_live b s u s' : standby b s → close_gateways s = (Ret u, s') → standby b s' ∧ closed s'.
Proof.
  intros Hs Hr. pose proof Hr as Hc. apply close_refines with (config := config) in Hc as (_ & Hc & _).
  split; [|done]. unfold close_gateways, mbind, M_bind, gw_nil, gets, gw_SetUpstreamAddress in Hr.
  destruct (gateway_of false s); [|done]. simpl in Hr.
  destruct (ctl_readGatewayServer s) eqn:Hrg; simpl in Hr; [rewrite Hrg in Hr|]; by injection Hr as _ <-.
Qed.

Lemma promotion_live b role s e s' :
  standby b s → closed s →
  (if bool_decide (role = "main") then mret None else promoteSyncReplica config configMapName) s
    = (Ret e, s') →
  e = None ∧ ∃ b', standby b' s'.
Proof.
  intros Hs Hc Hr. case_bool_decide; [injection Hr as <- <-; eauto|].
  unfold promoteSyncReplica in Hr. inv_bind Hr as idx s1 H1.
  rewrite (standby_index b s Hs) in H1. injection H1 as <- <-. rewrite <- Hpod in Hr.
  inv_bind Hr as u s1 H1. rewrite protect_closed in H1 by apply Hc. injection H1 as _ <-.
  destruct (standby_found b s Hs) as (n & Hn & _).
  inv_bind Hr as n' s1 H1. apply find_node_inv in H1 as [-> ->]. rewrite Hn in Hr.
  inv_bind Hr as pe s1 H1. apply (on_standby b true _ _ _ _ _ (node_promote_live b) Hs) in H1
    as (Hs1 & _ & n1 & _ & Hn1 & -> & Hempty).
  inv_bind Hr as rr s2 H2. apply (on_standby true true _ _ _ _ _ (node_role_live true) Hs1) in H2
    as (Hs2 & n2 & _ & Hn2 & _ & Hnone & Hmain).
  rewrite Hn1 in Hn2. injection Hn2 as <-. destruct rr as [r2 e2]. simpl in *. subst e2.
  rewrite (Hmain Hempty) in Hr. injection Hr as <- <-. eauto.
Qed.

(** The owner references are looked up without disturbing the standby. *)
Definition keeps_up (b : bool) : relation (Net W) := λ n n2, up b (net_world n) → up b (net_world n2).

Global Instance keeps_up_preorder b : PreOrder (keeps_up b).
Proof. split; [intros n; unfold keeps_up; done|]. intros n1 n2 n3 H12 H23 Hu. apply H23, H12, Hu. Qed.

Lemma keeps_owner b : keeps (keeps_up b) (getControllerOwnerReference config).
Proof.
  assert (∀ ns n, keeps (keeps_up b) (call (w_pod_get ns n))) as Hp.
  { intros ns n s Hu. unfold call. pose proof (co_pod_get co ns n b _ Hu). by destruct (w_pod_get _ _ _). }
  assert (∀ ns n, keeps (keeps_up b) (call (w_replicaset_owners ns n))) as Ho.
  { intros ns n s Hu. unfold call. pose proof (co_owners co ns n b _ Hu).
    by destruct (w_replicaset_owners _ _ _). }
  assert (∀ p os, keeps (keeps_up b) (find_deployment config p os)).
  { intros p os. induction os; simpl; solve_keeps. }
  unfold getControllerOwnerReference. solve_keeps.
Qed.

Lemma store_live b i s e s' :
  standby b s → SetTargetMainIndex config configMapName i s = (Ret e, s') → e = None.
Proof.
  intros (_ & _ & _ & Hu & _) Hr. unfold SetTargetMainIndex in Hr. inv_bind Hr as o s1 H1.
  unfold cnet, zoom in H1. pose proof (keeps_owner b (ctl_net s) Hu) as Hu1.
  destruct (getControllerOwnerReference config (ctl_net s)) as [oo n1]. injection H1 as -> <-.
  simpl in Hu1. inv_bind Hr as we s2 H2. unfold cnet, zoom in H2. simpl in H2.
  set (ow := match o with Ok r => Some r | Err _ => None end) in *.
  assert (we = None) as ->.
  { unfold write_configmap, mbind, M_bind, call in H2.
    destruct (co_configmap co (index_data i) ow b _ Hu1) as [Hn|(er & w & Hn & Hnf & Hcr)].
    - destruct (w_cm_update _ _ _ _ _) as [r w]. simpl in Hn. subst r. by injection H2.
    - rewrite Hn, Hnf in H2. simpl in H2. destruct (w_cm_create _ _ _ _ _) as [r w2].
      simpl in Hcr. subst r. by injection H2. }
  inv_bind Hr as old s3 H3. inv_bind Hr as u s4 H4. inv_bind Hr as u2 s5 H5. by injection Hr.
Qed.

(** No step of the failover fails. *)
Lemma failover_live b s o s' :
  standby b s → executeFailoverInternal config configMapName s = (Ret o, s') → o = None.
Proof.
  intros Hs Hr. unfold executeFailoverInternal in Hr. inv_bind Hr as chk s1 H1.
  apply (checks_live b) in H1 as (Hs1 & role & ->); [|done].
  inv_bind Hr as u s2 H2. apply (close_live b) in H2 as [Hs2 Hc]; [|done].
  inv_bind Hr as e s3 H3. apply (promotion_live b) in H3 as (-> & b' & Hs3); [|done..].
  inv_bind Hr as e s4 H4. apply (store_live b') in H4 as ->; [|done].
  inv_bind Hr as u5 s5 H5. by injection Hr.
Qed.

Lemma standby_two_pods b s : standby b s → two_pods s.
Proof. intros (Hi & _). unfold two_pods. by rewrite Hi. Qed.

(** ** Properties *)

Context `{!WorldOrder W}.

Lemma failover_goes_through X rg b s :
  initialized X rg s → standby b s →
  ∃ s', executeFailoverInternal config configMapName s = (Ret None, s') ∧ initialized X rg s' ∧
    ctl_targetMainIndex s' = (1 - t)%Z ∧ upstream false s' = Some a.
Proof.
  intros HI Hs. pose proof (standby_two_pods b s Hs) as Htwo.
  destruct (safe_executeFailoverInternal config configMapName X rg s HI) as (o & s' & Hr & HI' & _).
  rewrite (failover_live b s o s' Hs Hr) in Hr. exists s'. split; [done|]. split; [done|].
  apply failover_stages in Hr as [(e & [=] & _)|(s4 & evs & _ & Hc & Hi & Hids & _ & _ & Hop)];
    [|done|apply HI].
  apply open_stage in Hop as (Hi' & Hids' & _ & n & Hn & Hu); [|done|].
  2:{ rewrite Hi. destruct Htwo as [-> | ->]; lia. }
  destruct Hs as (Hidx & _ & (n0 & Hn0 & Hnid) & _). rewrite Hidx in Hi.
  split; [congruence|]. rewrite Hu.
  assert (sync_pod config s = podName) as Hsp.
  { destruct (two_pods_sync s Htwo) as (Hint & _). rewrite Hpod. unfold sync_pod.
    rewrite Hidx in *. by rewrite Hint. }
  rewrite Hsp in Hn. rewrite Hids in Hids'.
  pose proof (node_at_id s s' podName Hids') as Heq. rewrite Hn, Hn0 in Heq. simpl in Heq.
  injection Heq as Hname Hip. destruct Hid as [Hne Haddr].
  unfold bolt_of. rewrite Hip. change (mn_ipAddress n0) with ((node_id n0).2).
  rewrite Hnid, bool_decide_eq_false_2, Haddr by done. done.
Qed.

(** C13. A failover succeeds when the standby cooperates.  If the pod is ready
    in the cache and its database answers and obeys, the ConfigMap can be
    written, and the replica list cached for the main shows the standby as a
    ready strict-sync replica with every replica ready, then the failover
    returns success: the other pod is the target and the read/write gateway sends
    traffic to it, whatever the old main does meanwhile. *)
Theorem failover_succeeds X rg b s :
  initialized X rg s → standby b s →
  ∃ s', executeFailoverInternal config configMapName s = (Ret None, s') ∧
    ctl_targetMainIndex s' = (1 - t)%Z ∧ upstream false s' = Some a.
Proof.
  intros HI Hs. destruct (failover_goes_through X rg b s HI Hs) as (s' & ? & _ & ?). eauto.
Qed.

#[local] Arguments isPodBecomeUnhealthy : simpl never.

(** The two queues of an update: nothing but the clock is asked. *)
Lemma standby_now b s :
  standby b s → standby b (set_net (set_world (w_now (net_world (ctl_net s))).2 (ctl_net s)) s).
Proof.
  intros (Hi & Hm & Hn & Hal). split; [done|]. split; [done|]. split; [done|].
  apply (alive_world b b); [done|]. apply (co_now co). apply Hal.
Qed.

Lemma enqueue_live b s fq ty r p u s' :
  standby b s → ctl_failoverCheckQueue s = Some fq →
  enqueueFailoverCheckEvent ty r p s = (Ret u, s') →
  standby b s' ∧ ctl_leaderElection s' = ctl_leaderElection s ∧
  ∃ now, ctl_failoverCheckQueue s' = Some (q_send (mkFailoverCheckEvent ty r p now) fq).
Proof.
  intros Hs%standby_now Hq. unfold enqueueFailoverCheckEvent, mbind, M_bind, cnet, zoom, call, gets.
  destruct (w_now _) as [now w]. simpl in *. rewrite Hq. intros [= _ <-].
  split; [done|]. split; [done|]. by exists now.
Qed.

Lemma enqueue_rec_live b s rq ty r p u s' :
  standby b s → ctl_reconcileQueue s = Some rq → enqueueReconcileEvent ty r p s = (Ret u, s') →
  standby b s' ∧ ctl_leaderElection s' = ctl_leaderElection s ∧
  ctl_failoverCheckQueue s' = ctl_failoverCheckQueue s.
Proof.
  intros Hs%standby_now Hq. unfold enqueueReconcileEvent, mbind, M_bind, cnet, zoom, call, gets.
  destruct (w_now _) as [now w]. simpl in *. rewrite Hq. by intros [= _ <-].
Qed.

Definition unready_event (now : Z) : FailoverCheckEvent :=
  mkFailoverCheckEvent "pod-update" "main-pod-unhealthy" (GetPodName config t) now.

(** An update that shows the main unhealthy puts an event into the queue. *)
Lemma update_live b s fq oldPod newPod u s' :
  standby b s → le_IsLeader (ctl_leaderElection s) = true → ctl_failoverCheckQueue s = Some fq →
  is_Some (ctl_reconcileQueue s) →
  pod_Name newPod = GetPodName config t → pod_PodIP oldPod = pod_PodIP newPod →
  isPodBecomeUnhealthy (Some oldPod) (Some newPod) = true →
  onPodUpdate config configMapName (Some oldPod) (Some newPod) s = (Ret u, s') →
  standby b s' ∧ le_IsLeader (ctl_leaderElection s') = true ∧
  ∃ now, ctl_failoverCheckQueue s' = Some (q_send (unready_event now) fq).
Proof.
  intros Hs Hl Hfq [rq Hrq] Hname Hip Hbad Hr. unfold onPodUpdate in Hr.
  inv_bind Hr as l s1 H1. rewrite IsLeader_run, Hl in H1. injection H1 as <- <-. simpl in Hr.
  inv_bind Hr as idx s1 H1. rewrite (standby_index b s Hs) in H1. injection H1 as <- <-.
  inv_bind Hr as o s1 H1. injection H1 as <- <-. inv_bind Hr as n s1 H1. injection H1 as <- <-.
  rewrite (bool_decide_eq_false_2 (pod_PodIP oldPod ≠ _)) in Hr by (intros Hne; by apply Hne).
  inv_bind Hr as u1 s1 H1. injection H1 as _ <-.
  rewrite bool_decide_eq_true_2, Hbad in Hr by done.
  inv_bind Hr as u2 s2 H2. destruct u2.
  pose proof (enqueue_failover_run _ _ _ _ _ _ Hfq H2) as (_ & Hrq2 & _).
  apply (enqueue_live b _ fq) in H2 as (Hs2 & Hl2 & now & Hq2); [|done..].
  rewrite Hname in Hq2. destruct (negb _); [injection Hr as _ <-|].
  - split; [done|]. split; [by rewrite Hl2|]. by exists now.
  - rewrite Hrq in Hrq2. apply (enqueue_rec_live b _ rq) in Hr as (Hs3 & Hl3 & Hq3); [|done..].
    split; [done|]. split; [by rewrite Hl3, Hl2|]. exists now. by rewrite Hq3.
Qed.

(** The next round of the queue's worker takes that event to a failover. *)
Lemma worker_live X rg b s now fq :
  initialized X rg s → standby b s → le_IsLeader (ctl_leaderElection s) = true →
  q_events fq = [] → (0 < q_cap fq) → q_dedup fq !! failover_key (unready_event now) = None →
  ctl_failoverCheckQueue s = Some (q_send (unready_event now) fq) →
  ∃ s', processFailoverCheckQueue_step config configMapName s = (Ret (), s') ∧
    ctl_targetMainIndex s' = (1 - t)%Z ∧ upstream false s' = Some a.
Proof.
  intros HI Hs Hl Hev Hcap Hdd Hfq. unfold processFailoverCheckQueue_step.
  unfold mbind at 1, M_bind at 1, gets at 1. rewrite Hfq. unfold q_send.
  rewrite Hev, bool_decide_eq_true_2 by done. simpl.
  set (fq1 := mkQueue (q_cap fq) [] (q_dedup fq) (q_cancelled fq)).
  set (s1 := set_failoverCheckQueue (Some fq1) s).
  rewrite (bind_ret_run _ _ s () s1) by done.
  unfold handleFailoverCheckEvent, IsLeader. rewrite (bind_ret_run _ _ s1 true s1).
  2:{ unfold gets. simpl. by rewrite Hl. }
  simpl. rewrite (bind_ret_run _ _ s1 (Some fq1) s1) by done.
  set (s2 := set_net (set_world (w_now (net_world (ctl_net s1))).2 (ctl_net s1)) s1).
  rewrite (bind_ret_run _ _ s1 (w_now (net_world (ctl_net s1))).1 s2).
  2:{ unfold cnet, zoom, call, s2. by destruct (w_now _). }
  unfold q_admit. simpl. rewrite Hdd. simpl.
  match goal with |- context [set_failoverCheckQueue (Some ?q)] => set (fq2 := q) end.
  set (s3 := set_failoverCheckQueue (Some fq2) s2). rewrite (bind_ret_run _ _ s2 () s3) by done.
  assert (initialized X rg s3) as HI3 by 
    by exact (initialized_fq X rg _ s2 (initialized_fq X rg fq1 s HI)).
  assert (standby b s3) as Hs3 by (exact (standby_now b s Hs)).
  destruct (failover_goes_through X rg b s3 HI3 Hs3) as (s4 & Hr & _ & Hi & Hu).
  rewrite (bind_ret_run _ _ s3 None s4).
  - eexists. split; [done|]. done.
  - unfold performFailoverCheck.
    rewrite (bind_ret_run _ _ s3 (Ok t) s3) by (by apply (standby_index b)). simpl.
    rewrite (bind_ret_run _ _ s3 false s3) by done. by rewrite (bind_ret_run _ _ s3 None s4 Hr).
Qed.

End Cooperative.

(** ** Witnesses: the standby of the simulated cluster cooperates *)

Definition sim_up (b : bool) (w : Sim) : Prop :=
  (∃ rs e, sim_dbs w !! sim_bolt 1 = Some (mkDB (role_text b) rs e)) ∧
  find_pod (GetPodName example_config 1) (sim_pods w) = Some (sim_pod 1).
Definition sim_serves (d : Z) (w : Sim) : Prop := sim_drivers w !! d = Some (sim_bolt 1).

Lemma sim_stays b w : sim_up b w → stays sim_up sim_serves b w w.
Proof. by split. Qed.

Lemma sim_serves_addr d w : sim_serves d w → sim_addr w d = sim_bolt 1.
Proof. unfold sim_serves, sim_addr. by intros ->. Qed.

Lemma sim_run_role d b w :
  sim_up b w → sim_serves d w →
  ∃ rs e, sim_run d q_show_role w = (Ok [{[ "replication role" := VString (role_text b) ]}],
    sim_set_db (sim_bolt 1) (mkDB (role_text b) rs e) w).
Proof.
  intros [(rs & e & Hdb) _] Hd. exists rs, e. unfold sim_run.
  by rewrite (sim_serves_addr d w Hd), Hdb.
Qed.

Lemma sim_set_stays b b' rs e w :
  sim_up b w → stays sim_up sim_serves b' w (sim_set_db (sim_bolt 1) (mkDB (role_text b') rs e) w).
Proof.
  intros [_ Hp]. split; [split; [|done]|done]. exists rs, e. simpl. by rewrite lookup_insert_eq.
Qed.

Lemma sim_cooperative :
  Cooperative example_config "memgraph-state" (GetPodName example_config 1) (sim_bolt 1)
    sim_up sim_serves.
Proof.
  split.
  - intros q t b w Hu. split; [done|]. by apply sim_stays.
  - intros u p b w [Hdb Hp]. eexists _, _. split; [reflexivity|].
    assert (uri_addr ("bolt://" +:+ sim_bolt 1) = sim_bolt 1) as -> by (vm_compute; reflexivity).
    split; [apply lookup_insert_eq|]. split; [by split|]. intros d Hd. unfold sim_serves in *. simpl.
    apply lookup_insert_Some. destruct (decide (sim_next w = d)); auto.
  - intros d b w Hu Hd. exists w. split; [|by apply sim_stays].
    destruct Hu as [(rs & e & Hdb) _]. simpl. by rewrite (sim_serves_addr d w Hd), Hdb.
  - intros d b w Hu Hd. pose proof Hu as [(rs & e & Hdb) _]. eexists _, _. split.
    + simpl. unfold sim_run. rewrite (sim_serves_addr d w Hd), Hdb. reflexivity.
    + by apply (sim_set_stays b).
  - intros d b w Hu Hd. destruct (sim_run_role d b w Hu Hd) as (rs & e & Hrun).
    eexists _, _, _. split; [exact Hrun|]. split; [by destruct b|]. by apply (sim_set_stays b).
  - intros d b w Hu Hd. pose proof Hu as [(rs & e & Hdb) _]. eexists _, _. split.
    + simpl. unfold sim_run. rewrite (sim_serves_addr d w Hd), Hdb. reflexivity.
    + by apply (sim_set_stays b true).
  - intros data o b w _. simpl. destruct (sim_cm w); [by left|right].
    eexists _, w. done.
  - by intros ns n b w Hu.
  - by intros ns n b w Hu.
  - intros b w Hu. by apply sim_stays.
  - intros b w [_ Hp]. exists (sim_pod 1). split; [|done].
    change (Ok (A := option (option Pod)) (Some <$> find_pod (string_drop 8
      (pod_key example_config (GetPodName example_config 1))) (sim_pods w)) = Ok (Some (Some (sim_pod 1)))).
    assert (string_drop 8 (pod_key example_config (GetPodName example_config 1))
      = GetPodName example_config 1) as -> by (vm_compute; reflexivity).
    by rewrite Hp.
Qed.

Definition sim_id : string * string := (GetPodName example_config 1, "10.0.0.2").

Lemma sim_standby :
  standby example_config (GetPodName example_config 1) (sim_bolt 1) sim_up sim_serves 0 main_cached
    sim_id false sim_failed.
Proof.
  split; [reflexivity|]. split; [vm_compute; reflexivity|]. split.
  { exists (NewMemgraphNode (sim_pod 1)). split; vm_compute; reflexivity. }
  split; [|intros d; simpl; by rewrite lookup_empty].
  split; [|vm_compute; reflexivity]. exists [], false. vm_compute. reflexivity.
Qed.

Lemma failover_succeeds_witness :
  ∃ s', executeFailoverInternal example_config "memgraph-state" sim_failed = (Ret None, s') ∧
    ctl_targetMainIndex s' = 1%Z ∧ upstream false s' = Some (sim_bolt 1).
Proof.
  apply (failover_succeeds example_config "memgraph-state" (GetPodName example_config 1) (sim_bolt 1)
    sim_up sim_serves sim_cooperative ltac:(discriminate) 0 main_cached sim_id ltac:(vm_compute; reflexivity)
    ltac:(split; [discriminate|vm_compute; reflexivity]) ltac:(by left) eq_refl eq_refl
    ltac:(vm_compute; reflexivity) sim_pods_set true false);
    [apply sim_failed_initialized|apply sim_standby].
Defined.

