(* ===== verification/Handover.v ===== *)
(** * Two instances: what a leader inherits when leadership moves

    System.v follows one instance.  Here the other instance is the world: while
    it leads it writes the ConfigMap and changes the roles, which the instance
    under study sees as [OpWorld]; then leadership moves ([OpLead]).  The health
    prober runs on every instance, leader or not, and so does the status API. *)

From Stdlib Require Import String.
From S2P Require Import Prelude.
From S2P Require Import GoStrings.
From S2P Require Import GoTime.
From S2P Require Import DataInfo.
From S2P Require Import Pods.
From S2P Require Import Config.
From S2P Require Import GatewayServer.
From S2P Require Import World.
From S2P Require Import ConnectionPool.
From S2P Require Import MemgraphClient.
From S2P Require Import MemgraphNode.
From S2P Require Import Metrics.
From S2P Require Import Queues.
From S2P Require Import LeaderElection.
From S2P Require Import ProberState.
From S2P Require Import ControllerState.
From S2P Require Import Sim.
From S2P Require Import Controller.
From S2P Require Import Prober.
From S2P Require Import Lifecycle.
From S2P Require Import System.

Section Handover.
Context {W : Type} `{World W}.
Context (config : Config) (configMapName : string).

(** The instance takes over in the world the other one left. *)
Definition takeover (w : W) : M (Ctl W) () :=
  _ ← run_op config configMapName (OpWorld w);
  run_op config configMapName (OpLead LeStart).

(** The ConfigMap holds a readable index. *)
Definition configmap_holds (w : W) (i : Z) : Prop :=
  ∃ cm str w', w_cm_get (Namespace config) configMapName w = (Ok cm, w') ∧
    cm !! "targetMainIndex" = Some str ∧ sscanf_d str = Ok i.

Lemma GetTargetMainIndex_loads s i :
  ctl_targetMainIndex s = (-1)%Z → configmap_holds (net_world (ctl_net s)) i →
  ∃ s0, GetTargetMainIndex config configMapName s = (Ret (Ok i), s0) ∧ ctl_targetMainIndex s0 = i.
Proof.
  intros Hi (cm & str & w' & Hg & Hs & Hd). unfold GetTargetMainIndex, mbind, M_bind, gets, modify.
  rewrite Hi. simpl. unfold cnet, zoom, call. rewrite Hg. simpl. rewrite Hs, Hd. by eexists.
Qed.

Lemma bind_same {S A B} (m : M S A) (f : A → M S B) s s0 :
  m s = m s0 → (m ≫= f) s = (m ≫= f) s0.
Proof. intros Hm. unfold mbind, M_bind. by rewrite Hm. Qed.

(** A check that loads the index is the check of the state with the index. *)
Lemma health_check_loads s s0 i :
  GetTargetMainIndex config configMapName s = (Ret (Ok i), s0) →
  GetTargetMainIndex config configMapName s0 = (Ret (Ok i), s0) →
  performHealthCheck config configMapName s = performHealthCheck config configMapName s0.
Proof.
  intros Hs Hs0. unfold performHealthCheck, check_main.
  do 2 apply bind_same. by rewrite Hs, Hs0.
Qed.

Lemma health_check_caches s i s1 :
  ctl_targetMainIndex s = (-1)%Z → configmap_holds (net_world (ctl_net s)) i → i ≠ (-1)%Z →
  run_op config configMapName OpHealthCheck s = (Ret (), s1) → ctl_targetMainIndex s1 = i.
Proof.
  intros Hi Hcm Hne Hr. destruct (GetTargetMainIndex_loads s i Hi Hcm) as (s0 & Hg & Hi0).
  assert (GetTargetMainIndex config configMapName s0 = (Ret (Ok i), s0)) as Hg0
    by (rewrite <- Hi0 at 1; apply GetTargetMainIndex_loaded; congruence).
  simpl in Hr. unfold drop_result in Hr. inv_bind Hr as sp s2 H2. injection Hr as <-.
  rewrite (health_check_loads s s0 i Hg Hg0) in H2.
  assert (looks s0 s2) as (_ & _ & _ & _ & _ & Hl & _).
  { refine (keeps_run looks _ _ _ _ _ H2). unfold performHealthCheck, fail_main.
    pose proof (looks_check_main config configMapName). pose proof (looks_read_check config).
    pose proof (λ A (f : HealthProber → A * HealthProber), keeps_prober (W := W) f). solve_keeps. }
  by rewrite (index_kept_loaded _ _ Hl) by congruence.
Qed.

(** C15. A new leader starts from the index it cached as a follower.  The first
    health check of a follower loads the target index from the ConfigMap; from
    then on, whatever the other instance does to the ConfigMap while it leads,
    the follower that takes over is leader with the old index, and
    [GetTargetMainIndex] returns it without asking the ConfigMap again. *)
Theorem takeover_uses_cached_index (s s1 : Ctl W) (i : Z) (w : W) :
  ctl_targetMainIndex s = (-1)%Z → configmap_holds (net_world (ctl_net s)) i → i ≠ (-1)%Z →
  run_op config configMapName OpHealthCheck s = (Ret (), s1) →
  ∃ s2, takeover w s1 = (Ret (), s2) ∧ le_IsLeader (ctl_leaderElection s2) = true ∧
    net_world (ctl_net s2) = w ∧
    GetTargetMainIndex config configMapName s2 = (Ret (Ok i), s2).
Proof.
  intros Hi Hcm Hne Hr.
  pose proof (health_check_caches s i s1 Hi Hcm Hne Hr) as Hc.
  set (s2 := (takeover w s1).2).
  assert (takeover w s1 = (Ret (), s2) ∧ le_IsLeader (ctl_leaderElection s2) = true ∧
    net_world (ctl_net s2) = w ∧ ctl_targetMainIndex s2 = i) as (Hrun & Hlead & Hw & Hidx).
  { unfold s2, takeover, run_op, on_lead, onStartLeading, prom, mbind, M_bind, gets, modify.
    unfold le_IsLeader. simpl.
    case_bool_decide; simpl; (split; [done|]); (split; [by apply bool_decide_eq_true|by split]). }
  exists s2. split; [done|]. split; [done|]. split; [done|].
  rewrite <- Hidx at 1. apply GetTargetMainIndex_loaded. congruence.
Qed.
End Handover.

(** ** Witness, and what the stale index does

    Instance controller-0 led while pod 0 was main; it failed over to pod 1 and
    wrote index 1, pod 0 came back as the replica, and controller-0 went away.
    controller-1 had checked the main's health before the failover. *)

Definition led_before : Sim :=
  sim_set_cm {[ "targetMainIndex" := "0" ]} (sim_world (Some db_main) (Some db_replica)).

Definition led_after : Sim :=
  sim_set_cm {[ "targetMainIndex" := "1" ]}
    (sim_world (Some db_replica)
       (Some (mkDB "main" [ready_record "memgraph_ha_0" "strict_sync"] false))).

Definition follower : Ctl Sim :=
  mkCtl (mkNet NewConnectionPool led_before []) (-1) (Some ∅) (Some (sim_server "main-gw")) None
    (mkLE "controller-1" "controller-0") (Some newReconcileQueue) (Some newFailoverCheckQueue)
    false true (Some false) (Some empty_metrics) (Some []) (Some (NewHealthProber DefaultProberConfig)).

Definition checked_follower : Ctl Sim := sim_step follower OpHealthCheck.

Lemma takeover_uses_cached_index_witness :
  ∃ s2, takeover example_config "memgraph-state" led_after checked_follower = (Ret (), s2) ∧
    GetTargetMainIndex example_config "memgraph-state" s2 = (Ret (Ok 0%Z), s2).
Proof.
  assert (∀ w i str, sim_cm w = Some {[ "targetMainIndex" := str ]} → sscanf_d str = Ok i →
    configmap_holds example_config "memgraph-state" w i) as Hcm.
  { intros w i str Hw Hs. exists {[ "targetMainIndex" := str ]}, str, w.
    unfold w_cm_get, Sim_world. rewrite Hw.
    split; [reflexivity|]. split; [apply lookup_singleton_eq|exact Hs]. }
  destruct (takeover_uses_cached_index example_config "memgraph-state" follower checked_follower
    0 led_after) as (s2 & Ht & _ & _ & Hg).
  - reflexivity.
  - apply (Hcm _ _ "0"); reflexivity.
  - discriminate.
  - vm_compute. reflexivity.
  - exists s2. split; [exact Ht|exact Hg].
Defined.

(** The new leader believes pod 0, a replica, to be the main: its reconciliation
    rounds fail and its read/write gateway stays without an upstream, although
    pod 1 is a healthy main and the ConfigMap says so.  With a fresh instance
    the same world is reconciled and served at once. *)
Definition after_takeover (s : Ctl Sim) : Ctl Sim :=
  foldl sim_step s [OpWorld led_after; OpLead LeStart; OpTick; OpTick; OpTick].

Example stale_index_outage :
  let stale := after_takeover checked_follower in
  let fresh := after_takeover follower in
  ctl_targetMainIndex stale = 0%Z ∧ upstream false stale = Some "" ∧
  rm_Failed <$> ctl_metrics stale = Some 3%Z ∧
  ctl_targetMainIndex fresh = 1%Z ∧ upstream false fresh = Some (sim_bolt 1) ∧
  rm_Failed <$> ctl_metrics fresh = Some 0%Z.
Proof. vm_compute. auto 10. Qed.
