(* ===== verification/Lifetime.v ===== *)
(** * The whole life of the process

    The contract of Contract.v is about a controller that knows its target
    index.  Here it is extended to the time before: [life_step] adds the state
    without an index (-1), in which the read/write gateway stays closed and only
    the discovery of a new cluster writes to the databases.  The histories of
    the process that [main] starts are runs of it, and only a pod that
    appears in the informer's cache in the middle of a discovery can make an
    operation panic. *)

From stdpp Require Import relations.
From S2P Require Import Prelude.
From S2P Require Import GoStrings.
From S2P Require Import Pods.
From S2P Require Import Config.
From S2P Require Import World.
From S2P Require Import ConnectionPool.
From S2P Require Import MemgraphClient.
From S2P Require Import MemgraphNode.
From S2P Require Import GatewayServer.
From S2P Require Import Metrics.
From S2P Require Import Queues.
From S2P Require Import LeaderElection.
From S2P Require Import ControllerState.
From S2P Require Import Sim.
From S2P Require Import Controller.
From S2P Require Import Failover.
From S2P Require Import Cluster.
From S2P Require Import Health.
From S2P Require Import Reconcile.
From S2P Require Import Events.
From S2P Require Import Prober.
From S2P Require Import Lifecycle.
From S2P Require Import Startup.
From S2P Require Import HttpApi.
From S2P Require Import Contract.
From S2P Require Import System.

(** ** The specification *)

(** Before an index is known: *)
Inductive life_step (config : Config) : Abs → io → Abs → Prop :=
  | lf_loaded a e a' :
      a_target a ≠ (-1)%Z → spec_step config a e a' → life_step config a e a'
  | lf_idle X e :
      idle_event e → life_step config (mkAbs (-1) X "") e (mkAbs (-1) X "")
  | lf_refresh X X' :
      named_nodes X' → life_step config (mkAbs (-1) X "") IoRefresh (mkAbs (-1) X' "")
  | lf_demote X a :
      address_in X (pod1 config) a →
      life_step config (mkAbs (-1) X "") (IoQuery a q_demote) (mkAbs (-1) X "")
  | lf_register X a q :
      address_in X (pod0 config) a → registration q →
      life_step config (mkAbs (-1) X "") (IoQuery a q) (mkAbs (-1) X "")
  | lf_store X i :
      i = 0%Z ∨ i = 1%Z →
      life_step config (mkAbs (-1) X "") (IoConfigMap (index_data i)) (mkAbs i X "").

(** [life_load]: the index is read from the ConfigMap. *)
Inductive life_run (config : Config) : Abs → list io → Abs → Prop :=
  | life_nil a : life_run config a [] a
  | life_cons a e a1 evs a2 :
      life_step config a e a1 → life_run config a1 evs a2 → life_run config a (e :: evs) a2
  | life_load X i evs a :
      i = 0%Z ∨ i = 1%Z → life_run config (mkAbs i X "") evs a →
      life_run config (mkAbs (-1) X "") evs a.

Create HintDb life.
#[export] Hint Constructors life_step life_run : life.

Lemma life_run_app config a e1 a1 e2 a2 :
  life_run config a e1 a1 → life_run config a1 e2 a2 → life_run config a (e1 ++ e2) a2.
Proof. induction 1; simpl; eauto with life. Qed.

Lemma life_run_stay config a evs :
  Forall (λ e, life_step config a e a) evs → life_run config a evs a.
Proof. induction 1; eauto with life. Qed.

Lemma spec_run_life config a evs a' :
  spec_run config a evs a' → abs_wf a → life_run config a evs a'.
Proof.
  induction 1 as [a|a e a1 evs a2 Hs _ IH]; intros Ha; [apply life_nil|].
  apply (life_cons _ _ _ a1); [|by apply IH; eapply spec_step_wf].
  apply lf_loaded; [|done]. destruct Ha as [[-> | ->] _]; lia.
Qed.

(** The states of a life: well-formed, or without an index and closed. *)
Definition abs_alive (a : Abs) : Prop :=
  abs_wf a ∨ (a_target a = (-1)%Z ∧ a_write a = "" ∧ named_nodes (a_nodes a)).

Ltac idle_cases He := destruct He as [(? & ? & -> & _)|[[? ->]|[[? ->]| ->]]].

Lemma life_step_upstream config a e a' :
  life_step config a e a' → a_write a' = write_upstream (a_write a) [e].
Proof.
  destruct 1 as [a e a' _ Hs|X e He| | | |]; try done; [by eapply spec_step_upstream|by idle_cases He].
Qed.

Lemma life_run_upstream config a evs a' :
  life_run config a evs a' → a_write a' = write_upstream (a_write a) evs.
Proof.
  induction 1 as [|a e a1 evs a2 Hs _ IH|]; [done| |done].
  by rewrite IH, (life_step_upstream _ _ _ _ Hs).
Qed.

(** What a step without an index may be. *)
Lemma life_step_closed config a e a' : life_step config a e a' → role_event e → a_write a = "".
Proof. destruct 1; [by eapply spec_step_closed|done..]. Qed.

Lemma life_run_split config a e1 e2 a' :
  life_run config a (e1 ++ e2) a' → ∃ a1, life_run config a e1 a1 ∧ life_run config a1 e2 a'.
Proof.
  remember (e1 ++ e2) as evs eqn:E. intros Hr. revert e1 E.
  induction Hr as [a|a e a1 evs a2 Hs Hr IH|X i evs a Hi Hr IH]; intros e1 E.
  - symmetry in E. apply app_nil in E as [-> ->]. eauto with life.
  - destruct e1 as [|e' e1]; simplify_eq/=; [eauto with life|].
    destruct (IH e1 eq_refl) as (b & ? & ?). eauto with life.
  - destruct (IH e1 E) as (b & ? & ?). eauto with life.
Qed.

Lemma life_run_closed config a e1 e e2 a' :
  life_run config a (e1 ++ e :: e2) a' → role_event e → write_upstream (a_write a) e1 = "".
Proof.
  intros (b & H1 & H2)%life_run_split He. rewrite <- (life_run_upstream _ _ _ _ H1).
  remember (e :: e2) as evs eqn:E. revert E.
  induction H2 as [|b e' b1 evs b2 Hs _ _|X i evs b2 Hi _ IH]; intros E; simplify_eq; [|done].
  by eapply life_step_closed.
Qed.

(** The indexes stored by a loaded controller alternate. *)
Lemma life_run_flips config a evs a' :
  life_run config a evs a' → abs_wf a →
  ∃ n, stored evs = flips (a_target a) n ∧ a_target a' = flip (a_target a) n.
Proof.
  induction 1 as [a|a e a1 evs a2 Hs _ IH|X i evs a Hi _ _]; intros Hwf; [by exists 0| |].
  - assert (spec_step config a e a1) as Hsp.
    { destruct Hs; [done|..]; by destruct Hwf as [[|] _]. }
    destruct (IH (spec_step_wf _ _ _ _ Hsp Hwf)) as (n & Hn & Ht).
    destruct Hsp; simpl in *; try (by exists n). exists (S n). simpl. by rewrite Hn, Ht.
  - by destruct Hwf as [[|] _].
Qed.

(** The indexes stored over a life: the first one, unless it was read, and then
    the other pod's each time. *)
Definition alternates (t : Z) (cms : list cm_data) : Prop :=
  (t = (-1)%Z ∧ cms = []) ∨
  ∃ i n, (i = 0 ∨ i = 1)%Z ∧ t = flip i n ∧ (cms = flips i n ∨ cms = index_data i :: flips i n).

Lemma life_run_stored config a evs a' :
  life_run config a evs a' → abs_alive a → a_target a = (-1)%Z →
  alternates (a_target a') (stored evs).
Proof.
  induction 1 as [a|a e a1 evs a2 Hs Hr IH|X i evs a Hi Hr _]; intros Ha Ht; [by left| |].
  - destruct Ha as [[[?|?] _]|(_ & Hu & Hn)]; [congruence..|].
    destruct Hs as [a e a1 Hne _|X e He|X X' HX|X b Hb|X b q Hb Hq|X i Hi]; [done|..]; simpl in *.
    + destruct IH as [[? ?]|(i & n & ? & ? & ?)]; [right; split_and!; done|done|..].
      * idle_cases He; by left.
      * idle_cases He; right; by exists i, n.
    + apply IH; [right; by split_and!|done].
    + apply IH; [right; by split_and!|done].
    + apply IH; [right; by split_and!|done].
    + destruct (life_run_flips _ _ _ _ Hr) as (n & Hst & Hf); [by split|]. simpl in *.
      right. exists i, n. rewrite Hst. auto.
  - destruct Ha as [[[?|?] _]|(_ & _ & Hn)]; [congruence..|].
    destruct (life_run_flips _ _ _ _ Hr) as (n & Hst & Hf); [by split|]. right. exists i, n. auto.
Qed.

(** ** Refinement *)

(** The ConfigMap holds an index this program wrote: no read of it yields
    another number.  (The code does not check it.) *)
Class IndexLaws (W : Type) `{World W} : Prop :=
  stored_index_pod i : stored_index (W := W) i → i = 0%Z ∨ i = 1%Z.

Section Lifetime.
Context {W : Type} `{World W} `{!WorldOrder W} `{!IndexLaws W}.
Context (config : Config) (configMapName : string).

#[local] Abbreviation refines := (refines config).
#[local] Abbreviation sound := (sound (W := W)).
#[local] Abbreviation GetTargetMainIndex := (GetTargetMainIndex (W := W) config configMapName).

Definition alive (s : Ctl W) : Prop := abs_alive (view s).

Definition lives : relation (Ctl W) := λ s s',
  ∃ evs, trace_of s' = trace_of s ++ evs ∧ life_run config (view s) evs (view s').

Global Instance lives_preorder : PreOrder lives.
Proof.
  split.
  - intros s. exists []. rewrite app_nil_r. eauto with life.
  - intros s1 s2 s3 (e1 & T1 & R1) (e2 & T2 & R2). exists (e1 ++ e2).
    split; [by rewrite T2, T1, app_assoc|]. by eapply life_run_app.
Qed.

Lemma refines_lives s s' : refines s s' → sound s → lives s s' ∧ alive s'.
Proof.
  intros HR Hs. split; [|by left; eapply refines_sound].
  destruct HR as (evs & T & R). exists evs. split; [done|]. by apply spec_run_life.
Qed.

(** A state without an index. *)
Definition unloaded (s : Ctl W) : Prop :=
  ctl_targetMainIndex s = (-1)%Z ∧ default "" (upstream false s) = "" ∧ named s.

Lemma unloaded_view s : unloaded s → view s = mkAbs (-1) (ids s) "".
Proof. intros (Hi & Hu & _). unfold view. by rewrite Hi, Hu. Qed.

Lemma alive_cases s : alive s ↔ sound s ∨ unloaded s.
Proof. unfold alive, abs_alive, unloaded. by rewrite named_view. Qed.

Lemma closed_by_closed evs u : default "" u = "" → default "" (closed_by evs u) = "".
Proof. intros Hu. unfold closed_by. by case_decide. Qed.

Lemma idle_lives s s' : idle s s' → alive s → lives s s' ∧ alive s'.
Proof.
  intros Hidle [Hs|Hun]%alive_cases.
  { apply refines_lives; [|done]. by apply (idle_follows config) in Hidle as [? _]. }
  destruct Hidle as (evs & T & F & N & I & U & _). rewrite alive_cases.
  assert (default "" (upstream false s') = "") as Hu' by (rewrite U; by apply closed_by_closed, Hun).
  pose proof Hun as (Hi & _ & Hn). apply (named_ids s s' N) in Hn as Hn'.
  assert (∀ a, life_run config (mkAbs (-1) (ids s) "") [] a →
    life_run config (mkAbs (-1) (ids s) "") evs a) as Hrun.
  { intros a Ha. rewrite <- (app_nil_r evs). eapply life_run_app; [|exact Ha].
    apply life_run_stay. eapply Forall_impl; [exact F|]. eauto with life. }
  unfold lives. rewrite (unloaded_view s Hun). unfold view. rewrite N, Hu'.
  destruct I as [I|[_ L]].
  - split; [exists evs; split; [done|]; apply Hrun; rewrite I, Hi; constructor|].
    right. split; [congruence|done].
  - apply stored_index_pod in L. split; [|left; by split; [|apply named_view]].
    exists evs. split; [done|]. apply Hrun. eapply life_load; [exact L|apply life_nil].
Qed.

#[local] Abbreviation lasts := (runs alive lives).

Lemma lasts_idle {A} (m : M (Ctl W) A) : keeps idle m → lasts m.
Proof. apply runs_idle, idle_lives. Qed.

(** Code that starts by asking for the index: with it, it is the code of a
    loaded controller. *)
Lemma index_asked s r s1 :
  GetTargetMainIndex s = (Ret r, s1) → alive s →
  lives s s1 ∧ alive s1 ∧
  match r with
  | Ok i => sound s1 ∧ GetTargetMainIndex s1 = (Ret (Ok i), s1)
  | Err _ => unloaded s1
  end.
Proof.
  intros Hr Ha. pose proof (keeps_run _ _ _ _ _ (idle_index config configMapName) Hr) as Hidle.
  destruct (idle_lives _ _ Hidle Ha) as [HL Ha1]. split; [done|]. split; [done|].
  apply GetTargetMainIndex_inv in Hr. apply alive_cases in Ha1. destruct r as [i|e].
  - destruct Hr as [Hr Hi]. assert (i ≠ (-1)%Z).
    { destruct Hi as [?|[->| ->]%stored_index_pod]; [done|lia..]. }
    destruct Ha1 as [Hs1|[? _]]; [|congruence].
    split; [done|]. rewrite <- Hr at 1. by apply GetTargetMainIndex_loaded, sound_loaded.
  - destruct Ha1 as [Hs1|Hu1]; [|done]. by apply sound_loaded in Hs1 as []; destruct Hr.
Qed.
Lemma lasts_index {A} (k : result Z → M (Ctl W) A) :
  runs sound refines (GetTargetMainIndex ≫= k) →
  (∀ e s a s', unloaded s → k (Err e) s = (Ret a, s') → lives s s' ∧ alive s') →
  lasts (GetTargetMainIndex ≫= k).
Proof.
  intros Hm He s a s' Ha Hr. inv_bind Hr as r s1 H1.
  destruct (index_asked _ _ _ H1 Ha) as (L1 & _ & Hs1). destruct r as [i|e].
  - destruct Hs1 as [Hs1 H1']. assert ((GetTargetMainIndex ≫= k) s1 = (Ret a, s')) as Hr'
      by by rewrite (bind_ret_run _ _ _ _ _ H1').
    destruct (Hm _ _ _ Hs1 Hr') as [R _]. destruct (refines_lives _ _ R Hs1) as [L2 Ha'].
    split; [by etrans|done].
  - destruct (He e _ _ _ Hs1 Hr) as [L2 Ha']. split; [by etrans|done].
Qed.

Lemma lasts_failover ev : lasts (performFailoverCheck config configMapName ev).
Proof.
  apply lasts_index; [apply follows_failover|]. intros e s a s' Hu [= <- <-].
  split; [reflexivity|]. apply alive_cases. by right.
Qed.

Lemma unloaded_alive s : unloaded s → alive s.
Proof. intros Hu. apply alive_cases. by right. Qed.

Lemma lasts_reconcile_locked : lasts (reconcile_locked config configMapName).
Proof.
  apply lasts_index; [by apply follows_reconcile_locked|]. intros e s a s' Hu Hr.
  refine (lasts_idle _ _ s a s' (unloaded_alive _ Hu) Hr).
  pose proof (keeps_record_error (W := W) reads). apply idle_reads. solve_keeps.
Qed.

Lemma lasts_reconcile : lasts (performReconciliationActions config configMapName).
Proof.
  unfold performReconciliationActions.
  apply runs_bind; [typeclasses eauto|apply lasts_idle, idle_now|intros start].
  apply runs_bind; [typeclasses eauto|apply lasts_reconcile_locked|intros r].
  apply runs_bind; [typeclasses eauto|apply lasts_idle, idle_metrics|intros u]. apply runs_ret; typeclasses eauto.
Qed.
(** ** Discovery *)

(** What discovery sends: read queries, and for a new cluster the demotion of
    pod 1 and its registration on pod 0. *)
Definition discovery_event (X : node_ids) (e : io) : Prop :=
  reads e ∨ (∃ a, address_in X (pod1 config) a ∧ e = IoQuery a q_demote) ∨
  (∃ a q, address_in X (pod0 config) a ∧ e = IoQuery a q ∧ registration q).

Lemma discovery_event_query X e : discovery_event X e → ∃ a q, e = IoQuery a q.
Proof. intros [(a & q & -> & _)|[(a & _ & ->)|(a & q & _ & -> & _)]]; eauto. Qed.

Lemma discovery_event_step X e :
  discovery_event X e → life_step config (mkAbs (-1) X "") e (mkAbs (-1) X "").
Proof.
  intros [Hr|[(a & Ha & ->)|(a & q & Ha & -> & Hq)]];
    [apply lf_idle; by left|by apply lf_demote|by apply lf_register].
Qed.

Lemma within_discovery X {A} (m : M (Ctl W) A) :
  keeps (effects (discovery_event X)) m → keeps (within X (discovery_event X)) m.
Proof. apply keeps_within. intros e (a & q & ->)%discovery_event_query. discriminate. Qed.

Lemma within_node X {A} (Q : string → Prop) k (m : M (NodeNet W) A) :
  keeps (node_step Q) m → (∀ a q, address_in X k a → Q q → discovery_event X (IoQuery a q)) →
  keeps (within X (discovery_event X)) (on_node k m).
Proof.
  intros Hm HQ. apply (keeps_within_node _ _ Q); [|done|done].
  intros e (a & q & ->)%discovery_event_query. discriminate.
Qed.

Lemma within_initialize X : keeps (within X (discovery_event X)) (initializeCluster (W := W) config).
Proof.
  assert (∀ e, reads e → discovery_event X e) as Hreads by by left.
  assert (keeps (within X (discovery_event X)) (on_node (pod1 config) (SetToReplicaRole config))).
  { apply (within_node X (λ q, q = q_demote)); [by apply keeps_SetToReplicaRole|].
    intros a q Ha ->. right. left. eauto. }
  assert (∀ n a, keeps (within X (discovery_event X))
    (on_node (pod0 config) (RegisterReplica config n a "STRICT_SYNC"))).
  { intros n a. apply (within_node X (λ q, q = q_register n "STRICT_SYNC" a));
      [by apply keeps_RegisterReplica|].
    intros b q Hb ->. right. right. exists b, (q_register n "STRICT_SYNC" a). split; [done|].
    split; [done|]. left. by exists n, "STRICT_SYNC", a; split; [left|]. }
  pose proof (within_discovery X _ (keeps_find_node _ (pod0 config))).
  pose proof (within_discovery X _ (keeps_find_node _ (pod1 config))).
  pose proof (λ A k (f : MemgraphNode → A), within_discovery X _ (keeps_node_field _ Hreads k f)).
  pose proof (λ k, within_discovery X _ (keeps_node_replicas config _ Hreads k true)).
  keeps_initialize.
Qed.

Lemma within_discover_roles X : keeps (within X (discovery_event X)) (discover_roles (W := W) config).
Proof.
  assert (∀ e, reads e → discovery_event X e) as Hreads by by left.
  pose proof (within_initialize X).
  pose proof (λ p, within_discovery X _ (keeps_cached_ready (W := W) config _ p)).
  pose proof (within_discovery X _ (keeps_get_nodes (W := W) _)).
  assert (∀ p, keeps (within X (discovery_event X)) (role_of config p)).
  { intros p. apply within_discovery. unfold role_of. solve_keeps. }
  assert (∀ p, keeps (within X (discovery_event X)) (storage_empty config p)).
  { intros p. apply within_discovery. unfold storage_empty. solve_keeps. }
  unfold discover_roles, isNewCluster. solve_keeps.
Qed.

(** Discovery does not touch the index. *)
Definition same_index : relation (Ctl W) := λ s s', ctl_targetMainIndex s' = ctl_targetMainIndex s.

Global Instance same_index_preorder : PreOrder same_index.
Proof. split; [by intros s|]. unfold same_index. intros s1 s2 s3. congruence. Qed.

Lemma same_index_node {A} k (m : M (NodeNet W) A) : keeps same_index (on_node k m).
Proof.
  intros s. unfold on_node. destruct (node_at s k) as [n|]; [|reflexivity].
  by destruct (m (n, ctl_net s)) as [o [n' net']].
Qed.

Lemma same_index_cnet {A} (m : M (Net W) A) : keeps same_index (cnet m).
Proof. intros s. unfold cnet, zoom. by destruct (m (ctl_net s)). Qed.

Lemma same_index_nodes : keeps same_index get_nodes.
Proof. intros s. unfold get_nodes. by destruct (ctl_cluster s). Qed.
#[local] Hint Resolve same_index_node same_index_cnet same_index_nodes : keeps.

Lemma same_index_discover : keeps same_index (discoverClusterState config).
Proof.
  assert (∀ f : Ctl W → Ctl W, (∀ s, ctl_targetMainIndex (f s) = ctl_targetMainIndex s) →
    keeps same_index (modify f)) by (intros f Hf; by apply keeps_modify).
  assert (∀ k, keeps same_index (find_node k)) by (intros k; unfold find_node; solve_keeps).
  assert (keeps same_index (initializeCluster config)) by keeps_initialize.
  unfold discoverClusterState, Refresh, getPodsFromCache, disconnect_missing, refresh_node,
    discover_roles, isNewCluster, cached_ready, role_of, storage_empty.
  solve_keeps.
Qed.
Lemma refresh_run_life s s1 :
  effects is_refresh s s1 → named s1 →
  ∃ evs, trace_of s1 = trace_of s ++ evs ∧
    life_run config (mkAbs (-1) (ids s) "") evs (mkAbs (-1) (ids s1) "").
Proof.
  intros (_ & evs & T & F & _ & _ & N) Hn%named_view. exists evs. split; [done|].
  destruct F as [|e evs -> F]; [rewrite N by done; apply life_nil|].
  eapply life_cons; [by apply lf_refresh|]. apply life_run_stay.
  eapply Forall_impl; [exact F|]. intros e ->. by apply lf_refresh.
Qed.

Lemma discover_lives s o s' :
  unloaded s → discoverClusterState config s = (Ret o, s') → lives s s' ∧ unloaded s'.
Proof.
  intros Hu Hr. pose proof Hu as (Hi & Hw & Hn).
  pose proof (keeps_run _ _ _ _ _ same_index_discover Hr) as Hi'. unfold same_index in Hi'.
  unfold discoverClusterState in Hr. inv_bind Hr as u s1 H1. destruct u.
  pose proof (keeps_run _ _ _ _ _ (keeps_Refresh is_refresh eq_refl) H1) as E1.
  apply named_Refresh in H1 as Hn1; [|done].
  destruct (keeps_run _ _ _ _ _ (within_discover_roles (ids s1)) Hr eq_refl) as [E2 Hids].
  assert (upstream false s' = upstream false s) as Hup.
  { unfold upstream. rewrite (effects_gateway _ _ _ false E2), (effects_gateway _ _ _ false E1);
      [done|by intros e -> []|]. by intros e (? & ? & ->)%discovery_event_query []. }
  assert (unloaded s') as Hu'.
  { split; [congruence|]. split; [congruence|]. by apply (named_ids s1). }
  split; [|done]. destruct (refresh_run_life _ _ E1 Hn1) as (e1 & T1 & R1).
  destruct E2 as (_ & e2 & T2 & F2 & _). exists (e1 ++ e2).
  split; [by rewrite T2, T1, app_assoc|].
  rewrite (unloaded_view s Hu), (unloaded_view s' Hu'), Hids. eapply life_run_app; [exact R1|].
  apply life_run_stay. eapply Forall_impl; [exact F2|]. apply discovery_event_step.
Qed.

(** ** The operations *)

Lemma store_lives s i e s' :
  unloaded s → (i = 0 ∨ i = 1)%Z → SetTargetMainIndex config configMapName i s = (Ret e, s') →
  lives s s' ∧ alive s' ∧ (e = None → sound s').
Proof.
  intros Hu Hi Hr. apply SetTargetMainIndex_inv in Hr as (Hc & Hg & Hr). pose proof Hu as (Hi0 & Hw & Hn).
  assert (ids s' = ids s) as Hids by (unfold ids; by rewrite Hc).
  assert (upstream false s' = upstream false s) as Hup by (unfold upstream; by rewrite Hg).
  pose proof (named_ids _ _ Hids Hn) as Hn'. destruct e as [e|]; destruct Hr as [Hi' T].
  - assert (unloaded s') as Hu' by (split; [congruence|]; split; [congruence|done]).
    split; [|split; [by apply unloaded_alive|done]]. exists []. rewrite app_nil_r.
    split; [done|]. rewrite (unloaded_view _ Hu), (unloaded_view _ Hu'), Hids. apply life_nil.
  - assert (sound s') as Hs' by (split; [simpl; by rewrite Hi'|by apply named_view]).
    split; [|split; [by left|done]]. exists [IoConfigMap (index_data i)]. split; [done|].
    rewrite (unloaded_view _ Hu). unfold view. rewrite Hi', Hids, Hup, Hw.
    eapply life_cons; [by apply lf_store|apply life_nil].
Qed.

Lemma lasts_from s1 {A} (m : M (Ctl W) A) s a s' :
  lives s s1 → alive s1 → lasts m → m s1 = (Ret a, s') → lives s s' ∧ alive s'.
Proof. intros L Ha Hm Hr. destruct (Hm _ _ _ Ha Hr) as [L' Ha']. split; [by etrans|done]. Qed.

Lemma tick_unloaded s a s' :
  unloaded s →
  (let? targetMainIndex := discoverClusterState config orelse err =>
     mret (TickReturn (Wrapf "failed to discover cluster state" err)) in
   if bool_decide (targetMainIndex = -1)%Z then mret TickContinue
   else
     check? SetTargetMainIndex config configMapName targetMainIndex orelse err =>
       mret (TickReturn (Wrapf "failed to set target main index in ConfigMap" err)) in
     (_ ← performReconciliationActions config configMapName; mret TickContinue)) s = (Ret a, s') →
  lives s s' ∧ alive s'.
Proof.
  intros Hu Hr. inv_bind Hr as o s1 H1. destruct (discover_lives _ _ _ Hu H1) as [L1 Hu1].
  pose proof (unloaded_alive _ Hu1) as Ha1. destruct o as [i|err]; [|by injection Hr as _ <-].
  case_bool_decide as Hi; [by injection Hr as _ <-|].
  apply discover_answers in H1 as [[?|Hi01] _]; [done|].
  inv_bind Hr as e1 s2 H2. apply store_lives in H2 as (L2 & Ha2 & _); [|done..].
  assert (lives s s2) as L by by etrans. destruct e1 as [err|]; [by injection Hr as _ <-|].
  inv_bind Hr as e3 s3 H3. injection Hr as _ <-. by eapply lasts_from; [..|exact H3]; [..|apply lasts_reconcile].
Qed.

Lemma lasts_tick : lasts (Run_tick config configMapName).
Proof.
  intros s a s' Ha Hr. unfold Run_tick in Hr. inv_bind Hr as l s1 H1. injection H1 as <- <-.
  destruct (le_IsLeader _); simpl in Hr; [|injection Hr as _ <-; by split].
  inv_bind Hr as idx s1 H1. destruct (index_asked _ _ _ H1 Ha) as (L1 & Ha1 & Hs1).
  destruct idx as [i|e].
  - inv_bind Hr as e s2 H2. injection Hr as _ <-. by eapply lasts_from; [..|exact H2]; [..|apply lasts_reconcile].
  - destruct (tick_unloaded _ _ _ Hs1 Hr) as [L2 Ha']. split; [by etrans|done].
Qed.

Lemma lasts_op o : lasts (run_op config configMapName o).
Proof.
  apply runs_ops; [typeclasses eauto|apply idle_lives|apply lasts_tick|apply lasts_reconcile|].
  apply lasts_failover.
Qed.

Lemma steps_last rg s s' :
  rtc (sys_step config configMapName rg) s s' → alive s → lives s s' ∧ alive s'.
Proof.
  induction 1 as [s|s1 s2 s3 [o _ Hr] _ IH]; intros Ha; [by split|].
  destruct (lasts_op o _ _ _ Ha Hr) as [L Ha2]. destruct (IH Ha2) as [L' Ha3].
  split; [by etrans|done].
Qed.
(** ** Progress *)

(** The object the informer's cache has for a pod (a type assertion turns it
    into a pod). *)
Definition cached (s : Ctl W) (p : string) (obj : option Pod) : Prop :=
  w_store_get (pod_key config p) (net_world (ctl_net s)) = Ok (Some obj).

(** The listing of the cache that precedes a discovery misses a data pod that
    the cache then has, ready, when it is asked for it by key; or that object is
    not a pod. *)
Definition unlisted (s : Ctl W) : Prop :=
  ∃ s1 p, Refresh s = (Ret (), s1) ∧ (p = pod0 config ∨ p = pod1 config) ∧
    (cached s1 p None ∨ ∃ pod, cached s1 p (Some pod) ∧ isPodReady pod = true ∧ node_at s1 p = None).

Section initialized.
Context (X : gset string) (rg : bool).
#[local] Abbreviation I := (initialized (W := W) X rg).

Lemma safe_role_of p : p ∈ X → safe I (role_of config p) anything.
Proof. intros Hp. unfold role_of. solve_safe. Qed.

Lemma safe_storage_empty p : p ∈ X → safe I (storage_empty config p) anything.
Proof.
  intros Hp s HI. unfold storage_empty.
  destruct (safe_on_node X rg p (QueryStorageInfo config) anything Hp (safe_QueryStorageInfo config) s HI)
    as (e & s1 & Hr & HI1 & _).
  rewrite (bind_ret_run _ _ _ _ _ Hr). destruct e as [e|]; [by exists (Err (Wrapf ("failed to query storage info for " +:+ p) e)), s1|].
  apply on_node_inv in Hr as (n & n' & net' & _ & Hq & Hn' & _).
  apply QueryStorageInfo_ok in Hq as [si Hsi]. simpl in Hsi.
  destruct (safe_on_node X rg p (field mn_storageInfo) anything Hp (safe_field _) s1 HI1)
    as (o & s2 & Hf & HI2 & _).
  rewrite (bind_ret_run _ _ _ _ _ Hf). apply on_node_field_run in Hf as (_ & n2 & Hn2 & ->).
  rewrite Hn' in Hn2. injection Hn2 as <-. rewrite Hsi. simpl. eexists _, s2. by split.
Qed.

Lemma safe_discover_tail :
  pod0 config ∈ X → pod1 config ∈ X →
  safe I (isNewCluster config) anything ∧ safe I (initializeCluster config) anything.
Proof.
  intros H0 H1. pose proof (safe_role_of _ H0). pose proof (safe_role_of _ H1).
  pose proof (safe_storage_empty _ H0). pose proof (safe_storage_empty _ H1).
  split; [unfold isNewCluster; solve_safe|]. unfold initializeCluster.
  eapply safe_bind; [apply safe_find_node|intros [?|] _];
    (eapply safe_bind; [apply safe_find_node|intros [?|] _]); solve_safe.
Qed.
End initialized.

(** A pod found ready is a known node, unless it is [unlisted]. *)
Lemma cached_ready_known X rg s s1 p :
  Refresh s = (Ret (), s1) → initialized X rg s1 → p = pod0 config ∨ p = pod1 config →
  unlisted s ∨ ∃ b, cached_ready config p s1 = (Ret b, s1) ∧ (b = true → p ∈ X).
Proof.
  intros Hr HI Hp. unfold cached_ready, mbind, M_bind, gets.
  destruct (w_store_get (pod_key config p) (net_world (ctl_net s1))) as [[[pod|]|]|e] eqn:Hg.
  - destruct (isPodReady pod) eqn:Hready; [|by right; exists false].
    destruct (node_at s1 p) as [n|] eqn:Hn.
    + right. exists true. split; [done|]. intros _. destruct HI as [(nodes & Hc & <-) _].
      unfold node_at in Hn. rewrite Hc in Hn. by eapply elem_of_dom_2.
    + left. exists s1, p. eauto 10.
  - left. exists s1, p. auto.
  - by right; exists false.
  - by right; exists false.
Qed.

Lemma discover_completes rg s :
  running rg s →
  unlisted s ∨ ∃ o s', discoverClusterState config s = (Ret o, s') ∧ running rg s'.
Proof.
  intros [X HI]. destruct (Refresh_initialized X rg s HI) as (X' & s1 & Hr & HI1 & _).
  destruct (cached_ready_known X' rg s s1 (pod0 config) Hr HI1) as [?|(b0 & Hb0 & H0)]; [by left|by left|].
  destruct (cached_ready_known X' rg s s1 (pod1 config) Hr HI1) as [?|(b1 & Hb1 & H1)]; [by right|by left|].
  right. unfold discoverClusterState, discover_roles.
  rewrite (bind_ret_run _ _ _ _ _ Hr), (bind_ret_run _ _ _ _ _ Hb0).
  destruct b0; simpl; [|eexists _, s1; split; [done|by exists X']].
  rewrite (bind_ret_run _ _ _ _ _ Hb1).
  destruct b1; simpl; [|eexists _, s1; split; [done|by exists X']].
  destruct (safe_discover_tail X' rg (H0 eq_refl) (H1 eq_refl)).
  pose proof (safe_role_of X' rg _ (H0 eq_refl)). pose proof (safe_role_of X' rg _ (H1 eq_refl)).
  assert (∀ m : M (Ctl W) (result Z), safe (initialized X' rg) m anything →
    ∃ o s', m s1 = (Ret o, s') ∧ running rg s') as Hs.
  { intros m Hm. destruct (Hm s1 HI1) as (o & s' & Hrun & HI' & _). exists o, s'. by split; [|exists X']. }
  apply Hs. solve_safe.
Qed.

Lemma safe_tick_reconcile rg :
  safe (running rg) (_ ← performReconciliationActions config configMapName; mret TickContinue) anything.
Proof.
  apply (safe_bind _ _ _ anything); [by apply safe_performReconciliationActions|].
  intros _ _. by apply safe_ret.
Qed.

(** A tick that finds no index, and in its discovery an unlisted pod. *)
Definition blind_tick (s : Ctl W) : Prop :=
  le_IsLeader (ctl_leaderElection s) = true ∧
  ∃ e s1, GetTargetMainIndex s = (Ret (Err e), s1) ∧ unlisted s1.

Lemma safe_tick_tail rg o :
  safe (running rg)
    (match o with
     | Ok targetMainIndex =>
         if bool_decide (targetMainIndex = -1)%Z then mret TickContinue
         else
           check? SetTargetMainIndex config configMapName targetMainIndex orelse err =>
             mret (TickReturn (Wrapf "failed to set target main index in ConfigMap" err)) in
           (_ ← performReconciliationActions config configMapName; mret TickContinue)
     | Err err => mret (TickReturn (Wrapf "failed to discover cluster state" err))
     end) anything.
Proof.
  pose proof (safe_performReconciliationActions config configMapName rg).
  assert (∀ i, safe (running rg) (SetTargetMainIndex config configMapName i) anything)
    by (intros i; apply safe_running; intros X; apply safe_SetTargetMainIndex).
  solve_safe.
Qed.

Lemma safe_index rg : safe (running rg) GetTargetMainIndex anything.
Proof. apply safe_running. intros X. apply safe_GetTargetMainIndex. Qed.

Lemma tick_returns rg s :
  running rg s → blind_tick s ∨ ∃ a s', Run_tick config configMapName s = (Ret a, s').
Proof.
  intros HI. unfold blind_tick. set (l := le_IsLeader (ctl_leaderElection s)).
  assert (IsLeader s = (Ret l, s)) as Hl by done.
  unfold Run_tick. rewrite (bind_ret_run _ _ _ _ _ Hl).
  destruct l; simpl; [|by right; eexists _, s].
  destruct (safe_index rg s HI) as (r & s1 & Hg & HI1 & _).
  rewrite (bind_ret_run _ _ _ _ _ Hg). destruct r as [i|e].
  - destruct (safe_tick_reconcile rg s1 HI1) as (a & s' & ? & _). right. eauto.
  - destruct (discover_completes rg s1 HI1) as [Hu|(o & s2 & Hd & HI2)]; [left; eauto|right].
    rewrite (bind_ret_run _ _ _ _ _ Hd). destruct (safe_tick_tail rg o s2 HI2) as (a & s' & ? & _). eauto.
Qed.

(** A discovery that returns leaves everything in place. *)
Lemma discover_running rg s o s' :
  running rg s → discoverClusterState config s = (Ret o, s') → running rg s'.
Proof.
  intros [X HI] Hr. destruct (Refresh_initialized X rg s HI) as (X' & s1 & H1 & HI1 & _).
  unfold discoverClusterState in Hr. rewrite (bind_ret_run _ _ _ _ _ H1) in Hr.
  destruct (keeps_run _ _ _ _ _ (within_discover_roles (ids s1)) Hr eq_refl) as [E Hids].
  assert (∀ r, gateway_of r s' = gateway_of r s1) as Hg.
  { intros r. apply (effects_gateway _ _ _ _ E). by intros e (? & ? & ->)%discovery_event_query []. }
  apply effects_others in E as [= _ Hq Hf _ _ Hp _].
  destruct HI1 as ((nodes & Hn & Hd) & Hgw & Hrg & Hrq & Hfq & Hpr).
  exists X'. pose proof (Hg false) as Hg0. pose proof (Hg true) as Hg1. simpl in Hg0, Hg1.
  split; [|by rewrite Hg0, Hg1, Hq, Hf, Hp].
  unfold ids in Hids. rewrite Hn in Hids. destruct (ctl_cluster s') as [nodes'|]; [|done].
  exists nodes'. split; [done|]. injection Hids as Hids.
  rewrite <- Hd, <- (dom_fmap_L node_id nodes), <- Hids. by rewrite dom_fmap_L.
Qed.

Lemma safe_run {A} rg (m : M (Ctl W) A) s a s' :
  safe (running rg) m anything → running rg s → m s = (Ret a, s') → running rg s'.
Proof. intros Hm HI Hr. destruct (Hm s HI) as (? & ? & Hr' & ? & _). congruence. Qed.

Lemma tick_running rg s a s' :
  running rg s → Run_tick config configMapName s = (Ret a, s') → running rg s'.
Proof.
  intros HI Hr. unfold Run_tick in Hr. inv_bind Hr as l s1 H1. injection H1 as <- <-.
  destruct (le_IsLeader _); simpl in Hr; [|by injection Hr as _ <-].
  inv_bind Hr as r s1 H1. pose proof (safe_run _ _ _ _ _ (safe_index rg) HI H1) as HI1. destruct r as [i|e].
  - exact (safe_run _ _ _ _ _ (safe_tick_reconcile rg) HI1 Hr).
  - inv_bind Hr as o s2 H2. pose proof (discover_running _ _ _ _ HI1 H2) as HI2.
    exact (safe_run _ _ _ _ _ (safe_tick_tail rg o) HI2 Hr).
Qed.

Lemma op_returns rg o s :
  enabled rg o → running rg s →
  (o = OpTick ∧ blind_tick s) ∨ ∃ s', run_op config configMapName o s = (Ret (), s').
Proof.
  intros He HI. assert (o = OpTick ∨ o ≠ OpTick) as [->|Ho] by (destruct o; auto).
  - destruct (tick_returns rg s HI) as [?|(a & s' & Hr)]; [by left|right].
    exists s'. simpl. unfold drop_result. by rewrite (bind_ret_run _ _ _ _ _ Hr).
  - destruct (op_safe config configMapName rg o Ho He s HI) as ([] & s' & ? & _). eauto.
Qed.

Lemma steps_running rg s s' :
  rtc (sys_step config configMapName rg) s s' → running rg s → running rg s'.
Proof.
  induction 1 as [s|s1 s2 s3 [o Ho Hr] _ IH]; intros HI; [done|]. apply IH.
  assert (o = OpTick ∨ o ≠ OpTick) as [->|Hne] by (destruct o; auto).
  - simpl in Hr. unfold drop_result in Hr. inv_bind Hr as a s2' H1. injection Hr as <-.
    by eapply tick_running.
  - exact (safe_run _ _ _ _ _ (op_safe config configMapName rg o Hne Ho) HI Hr).
Qed.
End Lifetime.

(** ** The process that [main] starts *)

Lemma started_unloaded {W} `{World W} boot (w : W) (s : Ctl W) :
  main boot w = Started s →
  unloaded s ∧ running read_gateway_enabled s ∧ trace_of s = [] ∧ ids s = Some ∅.
Proof.
  intros Hm. apply main_inv in Hm as (_ & le & _ & ->).
  split; [|split; [exists ∅; apply booted_initialized|done]].
  split; [done|]. split; [done|]. intros k n. unfold node_at. simpl. by rewrite lookup_empty.
Qed.
