(* ===== verification/Process.v ===== *)
(** * The process: its loops, and how it ends

    [main] of [cmd/memgraph-controller/main.go] and the goroutines with a loop:
    [Run], the health prober, the two queue workers, and the signal handler.
    Each loop is a [select]: one round of [proc_step] takes one of the cases
    that are ready, as Go's select does, and the other operations of System.v
    (informer and election callbacks, HTTP requests, goroutines the prober
    spawned) happen in between.  The gateways' own loops are in
    GatewayLoops.v.

    The histories of the whole process, its shutdown included, follow the
    contract of Lifetime.v; it crashes in two ways only; and it never ends
    orderly after a signal. *)

From stdpp Require Import relations.
From S2P Require Import Prelude.
From S2P Require Import GoStrings.
From S2P Require Import Config.
From S2P Require Import World.
From S2P Require Import Queues.
From S2P Require Import LeaderElection.
From S2P Require Import ProberState.
From S2P Require Import ControllerState.
From S2P Require Import Sim.
From S2P Require Import Controller.
From S2P Require Import Failover.
From S2P Require Import Cluster.
From S2P Require Import Reconcile.
From S2P Require Import Prober.
From S2P Require Import Lifecycle.
From S2P Require Import Startup.
From S2P Require Import Contract.
From S2P Require Import System.
From S2P Require Import Lifetime.

(** ** The state of the process *)

(** The goroutine of [main] that runs [Run]: in its select, or returned, with
    an error other than [context.Canceled] or without one. *)
Inductive run_loop :=
  | RunSelect
  | RunReturned (err : option error).

(** [runHealthCheckLoop]: between two selects; in a select, which has evaluated
    [p.runningCh] to the channel ([true]) or to nil ([false]); or returned. *)
Inductive probe_loop :=
  | ProbeRound
  | ProbeSelect (channel : bool)
  | ProbeReturned.

(** A queue's worker. *)
Inductive worker := WorkerSelect | WorkerReturned.

(** The goroutine that waits for a signal: before it, after [Shutdown], and after
    the cancellation that follows. *)
Inductive signal_handler := HandlerWaits | HandlerStopped | HandlerDone.

(** How the process ended. *)
Inductive ending :=
  | EndReturn               (* [main] returned *)
  | EndPanic (why : string).

Record Process (W : Type) := mkProcess {
  pr_ctl : Ctl W;
  pr_cancelled : bool;   (* the context of [main] *)
  pr_run : run_loop;
  pr_probe : probe_loop;
  pr_reconcile : worker;
  pr_failover : worker;
  pr_handler : signal_handler;
  pr_end : option ending;
}.
Arguments mkProcess {W}.
Arguments pr_ctl {W}.
Arguments pr_cancelled {W}.
Arguments pr_run {W}.
Arguments pr_probe {W}.
Arguments pr_reconcile {W}.
Arguments pr_failover {W}.
Arguments pr_handler {W}.
Arguments pr_end {W}.

Section setters.
Context {W : Type}.
Implicit Types (p : Process W).

Definition with_ctl (s : Ctl W) p : Process W :=
  mkProcess s (pr_cancelled p) (pr_run p) (pr_probe p) (pr_reconcile p) (pr_failover p)
    (pr_handler p) (pr_end p).
Definition with_run (cancelled : bool) (r : run_loop) p : Process W :=
  mkProcess (pr_ctl p) cancelled r (pr_probe p) (pr_reconcile p) (pr_failover p) (pr_handler p)
    (pr_end p).
Definition with_probe (l : probe_loop) p : Process W :=
  mkProcess (pr_ctl p) (pr_cancelled p) (pr_run p) l (pr_reconcile p) (pr_failover p)
    (pr_handler p) (pr_end p).
Definition with_workers (r f : worker) p : Process W :=
  mkProcess (pr_ctl p) (pr_cancelled p) (pr_run p) (pr_probe p) r f (pr_handler p) (pr_end p).
Definition with_handler (cancelled : bool) (h : signal_handler) p : Process W :=
  mkProcess (pr_ctl p) cancelled (pr_run p) (pr_probe p) (pr_reconcile p) (pr_failover p) h
    (pr_end p).
Definition with_end (e : ending) p : Process W :=
  mkProcess (pr_ctl p) (pr_cancelled p) (pr_run p) (pr_probe p) (pr_reconcile p) (pr_failover p)
    (pr_handler p) (Some e).
End setters.

(** When [main] reaches its wait: the prober's goroutine and the workers have
    been started. *)
Definition launched {W} (s : Ctl W) : Process W :=
  mkProcess s false RunSelect ProbeRound WorkerSelect WorkerSelect HandlerWaits None.

Section Process.
Context {W : Type} `{World W}.
Context (config : Config) (configMapName : string) (rg : bool).

#[local] Abbreviation run_op := (run_op config configMapName).
#[local] Abbreviation Run_tick := (Run_tick config configMapName).

(** The channel of the prober, if it has one. *)
Definition probing_on (s : Ctl W) : bool :=
  match ctl_healthProber s with Some p => p_running p | None => false end.

Definition rq_cancelled (s : Ctl W) : bool :=
  match ctl_reconcileQueue s with Some q => q_cancelled q | None => false end.
Definition fq_cancelled (s : Ctl W) : bool :=
  match ctl_failoverCheckQueue s with Some q => q_cancelled q | None => false end.

(** An event waits in a queue. *)
Definition rq_ready (s : Ctl W) : Prop :=
  ∃ q e, ctl_reconcileQueue s = Some q ∧ q_receive q = Some e.
Definition fq_ready (s : Ctl W) : Prop :=
  ∃ q e, ctl_failoverCheckQueue s = Some q ∧ q_receive q = Some e.

Lemma rq_ready_nonempty s q :
  ctl_reconcileQueue s = Some q → is_nil (q_receive q) = false → rq_ready s.
Proof. intros Hq He. destruct (q_receive q) as [e|] eqn:Hr; [|done]. by exists q, e. Qed.

Lemma fq_ready_nonempty s q :
  ctl_failoverCheckQueue s = Some q → is_nil (q_receive q) = false → fq_ready s.
Proof. intros Hq He. destruct (q_receive q) as [e|] eqn:Hr; [|done]. by exists q, e. Qed.

(** The operations that are not a round of one of the loops. *)
Definition outside (o : op W) : Prop :=
  match o with OpTick | OpReconcileQueue | OpFailoverQueue | OpHealthCheck => False | _ => True end.

(** [run p m k]: the process [p] after [m] has run on its controller; a panic
    ends it. *)
Definition step_with {A} (p : Process W) (m : M (Ctl W) A) (k : A → Process W → Process W) : Process W :=
  match m (pr_ctl p) with
  | (Ret a, s) => k a (with_ctl s p)
  | (Panic why, s) => with_end (EndPanic why) (with_ctl s p)
  end.

(** The two cases of the select in [Run]. *)
Definition run_ticked (r : tick_result) (p : Process W) : Process W :=
  match r with
  | TickContinue => p
  | TickReturn err => with_run true (RunReturned (Some err)) p  (* and [main] cancels *)
  end.

Definition run_done (p : Process W) : Process W :=
  step_with p stop (λ _, with_run (pr_cancelled p) (RunReturned None)).

(** The signal handler: [Shutdown], whose error is ignored, then [cancel]. *)
Definition handle_signal (p : Process W) : Process W :=
  step_with p Shutdown (λ _, with_handler (pr_cancelled p) HandlerStopped).

Inductive proc_step (p : Process W) : Process W → Prop :=
  | ps_outside (o : op W) :
      pr_end p = None → outside o → enabled rg o →
      proc_step p (step_with p (run_op o) (λ _ p, p))
  | ps_tick :
      pr_end p = None → pr_run p = RunSelect → proc_step p (step_with p Run_tick run_ticked)
  | ps_done :
      pr_end p = None → pr_run p = RunSelect → pr_cancelled p = true → proc_step p (run_done p)
  | ps_select :
      pr_end p = None → pr_probe p = ProbeRound →
      proc_step p (with_probe (ProbeSelect (probing_on (pr_ctl p))) p)
  | ps_check c :
      pr_end p = None → pr_probe p = ProbeSelect c →
      proc_step p (step_with p (run_op OpHealthCheck) (λ _, with_probe ProbeRound))
  | ps_probe_cancelled c :
      pr_end p = None → pr_probe p = ProbeSelect c → pr_cancelled p = true →
      proc_step p (with_probe ProbeReturned p)
  | ps_probe_stopped :
      pr_end p = None → pr_probe p = ProbeSelect true → probing_on (pr_ctl p) = false →
      proc_step p (with_probe ProbeReturned p)
  | ps_reconcile :
      pr_end p = None → pr_reconcile p = WorkerSelect → rq_ready (pr_ctl p) →
      proc_step p (step_with p (run_op OpReconcileQueue) (λ _ p, p))
  | ps_reconcile_done :
      pr_end p = None → pr_reconcile p = WorkerSelect →
      pr_cancelled p || rq_cancelled (pr_ctl p) = true →
      proc_step p (with_workers WorkerReturned (pr_failover p) p)
  | ps_failover :
      pr_end p = None → pr_failover p = WorkerSelect → fq_ready (pr_ctl p) →
      proc_step p (step_with p (run_op OpFailoverQueue) (λ _ p, p))
  | ps_failover_done :
      pr_end p = None → pr_failover p = WorkerSelect →
      pr_cancelled p || fq_cancelled (pr_ctl p) = true →
      proc_step p (with_workers (pr_reconcile p) WorkerReturned p)
  | ps_signal :
      pr_end p = None → pr_handler p = HandlerWaits → proc_step p (handle_signal p)
  | ps_cancel :
      pr_end p = None → pr_handler p = HandlerStopped →
      proc_step p (with_handler true HandlerDone p)
  | ps_exit err :
      pr_end p = None → pr_run p = RunReturned err → proc_step p (with_end EndReturn p).

Definition proc_steps : relation (Process W) := rtc proc_step.
(** ** What the operations leave of the life cycle *)

Definition same_life : relation (Ctl W) := λ s s', lifecycle s' = lifecycle s.

Global Instance same_life_preorder : PreOrder same_life.
Proof. split; [by intros s|]. unfold same_life. intros s1 s2 s3. congruence. Qed.

Lemma life_idle {A} (m : M (Ctl W) A) : keeps idle m → keeps same_life m.
Proof. intros Hm. eapply keeps_weaken; [exact Hm|]. by intros s s' (_ & _ & _ & _ & _ & _ & ?). Qed.

Lemma life_effects {A} P (m : M (Ctl W) A) : keeps (effects P) m → keeps same_life m.
Proof. intros Hm. eapply keeps_weaken; [exact Hm|]. intros s s'. apply effects_lifecycle. Qed.

Lemma life_reconcile : keeps same_life (performReconciliationActions config configMapName).
Proof.
  pose proof (life_effects _ _ (keeps_any_reconcile config configMapName)).
  pose proof (life_idle _ idle_now). pose proof (λ t e, life_idle _ (idle_metrics t e)).
  unfold performReconciliationActions. solve_keeps.
Qed.

Lemma life_tick : keeps same_life Run_tick.
Proof.
  pose proof life_reconcile. pose proof (life_effects _ _ (keeps_probing_discover config)).
  pose proof (life_idle _ (idle_index config configMapName)).
  pose proof (λ i, life_effects _ _ (keeps_SetTargetMainIndex config configMapName any_event i Logic.I)).
  unfold Run_tick, IsLeader. solve_keeps.
Qed.

Lemma life_op o : keeps same_life (run_op o).
Proof.
  destruct (takes_mutex o) eqn:Ho; [|by apply life_idle, idle_unlocked].
  assert (∀ f : Ctl W → Ctl W, (∀ s, lifecycle (f s) = lifecycle s) → keeps same_life (modify f)) as Hq
    by (intros f Hf; by apply keeps_modify).
  assert (∀ q, keeps same_life (modify (set_reconcileQueue q))) by (intros q; by apply Hq).
  assert (∀ q, keeps same_life (modify (set_failoverCheckQueue q))) by (intros q; by apply Hq).
  assert (keeps same_life (modify (set_failoverCheckNeeded false))) by by apply Hq.
  pose proof life_tick. pose proof life_reconcile. pose proof (life_idle _ idle_now).
  pose proof (λ ev, life_effects _ _ (keeps_any_failover config configMapName ev)).
  destruct o; try discriminate Ho; simpl; unfold drop_result, processReconcileQueue_step,
    handleReconcileEvent, processFailoverCheckQueue_step, handleFailoverCheckEvent, IsLeader; solve_keeps.
Qed.

(** ** How the process ends *)

Definition signalled (p : Process W) : bool :=
  match pr_handler p with HandlerWaits => false | _ => true end.

(** The loop runs, and only the handler has closed the stop channel, or
    cancelled the context. *)
Definition orderly (p : Process W) : Prop :=
  ctl_stopCh (pr_ctl p) = Some (signalled p) ∧
  match pr_run p with
  | RunSelect => ctl_isRunning (pr_ctl p) = true ∧ (pr_cancelled p = true → signalled p = true)
  | RunReturned err => err ≠ None
  end.

Definition proc_inv (p : Process W) : Prop :=
  match pr_end p with
  | None => orderly p
  | Some EndReturn => orderly p ∧ ∃ err, pr_run p = RunReturned (Some err)
  | Some (EndPanic _) => True
  end.

Lemma step_with_inv {A} p (m : M (Ctl W) A) k :
  pr_end p = None → orderly p → keeps same_life m →
  (∀ a s, lifecycle s = lifecycle (pr_ctl p) → proc_inv (k a (with_ctl s p))) →
  proc_inv (step_with p m k).
Proof.
  intros He Ho Hm Hk. unfold step_with. pose proof (Hm (pr_ctl p)) as Hl.
  destruct (m (pr_ctl p)) as [[a|why] s]; [by apply Hk|done].
Qed.

Lemma orderly_with s p :
  orderly p → lifecycle s = lifecycle (pr_ctl p) → orderly (with_ctl s p).
Proof. intros [Hs Hr] [= Hr' Hs']. unfold orderly. simpl. rewrite Hs', Hr'. by split. Qed.

Lemma step_op_inv p o :
  pr_end p = None → orderly p → proc_inv (step_with p (run_op o) (λ _ p, p)).
Proof.
  intros He Ho. apply step_with_inv; [done|done|apply life_op|]. intros _ s Hl.
  unfold proc_inv. simpl. rewrite He. by apply orderly_with.
Qed.

Lemma proc_step_inv p p' : proc_step p p' → proc_inv p → proc_inv p'.
Proof.
  intros Hs Hp. assert (pr_end p = None) as He by by destruct Hs.
  assert (orderly p) as Ho by (unfold proc_inv in Hp; by rewrite He in Hp). clear Hp.
  pose proof Ho as [Hstop Hrun].
  destruct Hs as [o _ _ _|_ Hsel|_ Hsel Hc|_ _|c _ _|c _ _ _|_ _ _|_ _ _|_ _ _|_ _ _|_ _ _|_ Hh|_ Hh|err _ Hret].
  - by apply step_op_inv.
  - apply step_with_inv; [done|done|apply life_tick|]. intros r s Hl. unfold proc_inv.
    apply (orderly_with s) in Ho as [Hs' Hr']; [|done]. destruct r; simpl; rewrite He; by split.
  - rewrite Hsel in Hrun. destruct Hrun as [Hrun Hsig]. unfold run_done, step_with, stop, close_stopCh.
    unfold mbind, M_bind, gets, modify. rewrite Hrun. simpl. rewrite Hstop, (Hsig Hc). done.
  - unfold proc_inv. simpl. by rewrite He.
  - apply step_with_inv; [done|done|apply life_op|]. intros _ s Hl. unfold proc_inv. simpl. rewrite He.
    by apply (orderly_with s p).
  - unfold proc_inv. simpl. by rewrite He.
  - unfold proc_inv. simpl. by rewrite He.
  - by apply step_op_inv.
  - unfold proc_inv. simpl. by rewrite He.
  - by apply step_op_inv.
  - unfold proc_inv. simpl. by rewrite He.
  - unfold signalled in *. rewrite Hh in *. unfold handle_signal, step_with, Shutdown, StopGatewayServer, StopInformers, close_stopCh.
    unfold mbind, M_bind, gets, modify. simpl. rewrite Hstop. unfold proc_inv. simpl. rewrite He.
    split; [done|]. simpl. destruct (pr_run p); [|done]. split; [apply Hrun|done].
  - unfold proc_inv. simpl. rewrite He. unfold signalled in *. rewrite Hh in *. split; [done|]. simpl.
    destruct (pr_run p); [|done]. split; [apply Hrun|done].
  - unfold proc_inv. simpl. split; [done|]. rewrite Hret in *. destruct err as [err|]; [by exists err|done].
Qed.
(** ** What the process does to the outside world *)

Section contract.
Context `{!WorldOrder W} `{!IndexLaws W}.
#[local] Abbreviation lives := (lives (W := W) config).

(** A state of the controller within the contract, with its parts in place. *)
Definition sane (s : Ctl W) : Prop := alive s ∧ running rg s.

(** [m] from a sane state: what it returns is sane, and within the contract. *)
Definition behaves {A} (m : M (Ctl W) A) : Prop := runs sane lives m.

Lemma behaves_intro {A} (m : M (Ctl W) A) :
  runs (W := W) alive lives m →
  (∀ s a s', running rg s → m s = (Ret a, s') → running rg s') → behaves m.
Proof.
  intros Hl Hr s a s' [Ha HI] Hm. destruct (Hl _ _ _ Ha Hm) as [L Ha'].
  split; [done|]. split; [done|by eapply Hr].
Qed.

Lemma behaves_op o : enabled rg o → behaves (run_op o).
Proof.
  intros He. apply behaves_intro; [apply lasts_op|]. intros s a s' HI Hr.
  assert (o = OpTick ∨ o ≠ OpTick) as [->|Hne] by (destruct o; auto).
  - simpl in Hr. unfold drop_result in Hr. inv_bind Hr as r s1 H1. injection Hr as _ <-.
    by eapply tick_running.
  - exact (safe_run _ _ _ _ _ (op_safe config configMapName rg o Hne He) HI Hr).
Qed.

Lemma behaves_tick : behaves Run_tick.
Proof.
  apply behaves_intro; [apply lasts_tick|]. intros s a s' HI Hr. by eapply tick_running.
Qed.

(** The shutdown: nothing the outside world or the contract sees. *)
Definition unseen : relation (Ctl W) := λ s s',
  trace_of s' = trace_of s ∧ view s' = view s ∧ ∀ X, initialized X rg s → initialized X rg s'.

Global Instance unseen_preorder : PreOrder unseen.
Proof.
  split; [by intros s|]. intros s1 s2 s3 (T1 & V1 & I1) (T2 & V2 & I2).
  split; [congruence|]. split; [congruence|]. auto.
Qed.

Lemma behaves_unseen {A} (m : M (Ctl W) A) : keeps unseen m → behaves m.
Proof.
  intros Hm s a s' [Ha [X HI]] Hr. destruct (keeps_run _ _ _ _ _ Hm Hr) as (T & V & I).
  split; [|split; [unfold alive; by rewrite V|exists X; auto]].
  exists []. rewrite app_nil_r, V. split; [done|]. apply life_nil.
Qed.

Lemma unseen_stop_ch : keeps unseen close_stopCh.
Proof.
  intros s. unfold close_stopCh, mbind, M_bind, gets, modify.
  destruct (ctl_stopCh s) as [[]|]; done.
Qed.

Lemma unseen_shutdown : keeps unseen Shutdown.
Proof.
  unfold Shutdown, StopGatewayServer, StopInformers. pose proof unseen_stop_ch.
  assert (keeps unseen (modify (λ s : Ctl W, set_healthProber (p_Stop <$> ctl_healthProber s) s))).
  { apply keeps_modify. intros s. split; [done|]. split; [done|].
    intros X (Hn & Hg & Hr & Hq & Hf & [p Hp]). split_and!; [done..|]. simpl. rewrite Hp. by eexists. }
  solve_keeps.
Qed.

Lemma unseen_stop : keeps unseen stop.
Proof.
  unfold stop, stopReconcileQueue, stopFailoverCheckQueue. pose proof unseen_stop_ch.
  assert (keeps unseen (modify (λ s : Ctl W, set_reconcileQueue (q_cancel <$> ctl_reconcileQueue s) s))).
  { apply keeps_modify. intros s. split; [done|]. split; [done|].
    intros X (Hn & Hg & Hr & [q Hq] & Hf & Hp). split_and!; [done..| |done|done]. simpl. rewrite Hq. by eexists. }
  assert (keeps unseen (modify (λ s : Ctl W,
    set_failoverCheckQueue (q_cancel <$> ctl_failoverCheckQueue s) s))).
  { apply keeps_modify. intros s. split; [done|]. split; [done|].
    intros X (Hn & Hg & Hr & Hq & [q Hf] & Hp). split_and!; [done..| |done]. simpl. rewrite Hf. by eexists. }
  assert (keeps unseen (modify (set_isRunning (W := W) false))) by by apply keeps_modify.
  solve_keeps.
Qed.

Definition panicked (p : Process W) : Prop := ∃ why, pr_end p = Some (EndPanic why).

Lemma step_with_behaves {A} p (m : M (Ctl W) A) k :
  behaves m → sane (pr_ctl p) → (∀ a q, pr_ctl (k a q) = pr_ctl q) →
  panicked (step_with p m k) ∨
  (lives (pr_ctl p) (pr_ctl (step_with p m k)) ∧ sane (pr_ctl (step_with p m k))).
Proof.
  intros Hm Hs Hk. unfold step_with. destruct (m (pr_ctl p)) as [[a|why] s] eqn:Hr.
  - right. rewrite Hk. exact (Hm _ _ _ Hs Hr).
  - left. by exists why.
Qed.

Lemma proc_step_behaves p p' :
  proc_step p p' → sane (pr_ctl p) →
  panicked p' ∨ (lives (pr_ctl p) (pr_ctl p') ∧ sane (pr_ctl p')).
Proof.
  intros Hs Hp.
  assert (lives (pr_ctl p) (pr_ctl p) ∧ sane (pr_ctl p)) as Hsame by by split.
  destruct Hs; try (by right); try (by apply step_with_behaves; [apply behaves_op|..]).
  - apply step_with_behaves; [apply behaves_tick|done|by intros []].
  - by apply step_with_behaves; [apply behaves_unseen, unseen_stop|..].
  - by apply step_with_behaves; [apply behaves_unseen, unseen_shutdown|..].
Qed.

Lemma proc_steps_behave p p' :
  proc_steps p p' → sane (pr_ctl p) → proc_inv p →
  proc_inv p' ∧ (panicked p' ∨ (lives (pr_ctl p) (pr_ctl p') ∧ sane (pr_ctl p'))).
Proof.
  induction 1 as [p|p1 p2 p3 Hs Hrest IH]; intros Hp Hi.
  { split; [done|]. right. by split. }
  pose proof (proc_step_inv _ _ Hs Hi) as Hi2.
  destruct (proc_step_behaves _ _ Hs Hp) as [Hpan|[L Hp2]].
  - destruct Hpan as [why Hpan]. destruct Hrest as [p|p2 p3 p4 Hs2 _]; [by split; [|left; exists why]|].
    exfalso. destruct Hs2; congruence.
  - destruct (IH Hp2 Hi2) as [Hi3 [?|[L' ?]]]; (split; [done|]); [by left|right].
    split; [by etrans|done].
Qed.

(** ** Crashes *)

Lemma step_with_panics {A} p (m : M (Ctl W) A) k why :
  pr_end p = None → (∀ a q, pr_end q = None → pr_end (k a q) = None) →
  pr_end (step_with p m k) = Some (EndPanic why) → (m (pr_ctl p)).1 = Panic why.
Proof.
  intros He Hk. unfold step_with. destruct (m (pr_ctl p)) as [[a|w] s]; simpl.
  - by rewrite Hk.
  - by intros [= ->].
Qed.

Lemma op_no_panic o s why :
  o ≠ OpTick → enabled rg o → running rg s → (run_op o s).1 ≠ Panic why.
Proof.
  intros Ho He HI Hp. destruct (op_safe config configMapName rg o Ho He s HI) as (a & s' & Hr & _).
  by rewrite Hr in Hp.
Qed.

Lemma tick_panic s why :
  running rg s → (Run_tick s).1 = Panic why → blind_tick config configMapName s.
Proof.
  intros HI Hp. destruct (tick_returns config configMapName rg s HI) as [?|(a & s' & Hr)]; [done|].
  by rewrite Hr in Hp.
Qed.

Lemma stop_panic (s : Ctl W) why :
  (stop s).1 = Panic why → why = "close of closed channel".
Proof.
  unfold stop, close_stopCh, mbind, M_bind, gets, modify. destruct (ctl_isRunning s); [|done]. simpl.
  destruct (ctl_stopCh s) as [[]|]; [by intros [= <-]|done..].
Qed.

Lemma shutdown_returns p :
  orderly p → pr_handler p = HandlerWaits → ∃ s, Shutdown (pr_ctl p) = (Ret None, s).
Proof.
  intros [Hs _] Hh. unfold signalled in Hs. rewrite Hh in Hs.
  unfold Shutdown, StopGatewayServer, StopInformers, close_stopCh, mbind, M_bind, gets, modify. simpl.
  rewrite Hs. by eexists.
Qed.

Lemma crash_cases p p' why :
  proc_step p p' → pr_end p' = Some (EndPanic why) → running rg (pr_ctl p) → orderly p →
  pr_run p = RunSelect ∧
  (blind_tick config configMapName (pr_ctl p) ∨ (signalled p = true ∧ why = "close of closed channel")).
Proof.
  intros Hs He' HI Ho. pose proof Ho as [_ Hrun].
  destruct Hs as [o He Hout Hen|He Hsel|He Hsel Hc|He _|c He _|c He _ _|He _ _|He _ _|He _ _|He _ _|He _ _
                 |He Hh|He _|err He _]; simpl in He'; try congruence.
  - apply step_with_panics in He'; [|done|done]. exfalso.
    eapply op_no_panic; [|done|done|exact He']. by intros ->.
  - apply step_with_panics in He'; [|done|by intros []]. split; [done|left]. by eapply tick_panic.
  - apply step_with_panics in He'; [|done|done]. rewrite Hsel in Hrun. destruct Hrun as [_ Hsig].
    split; [done|right]. split; [by apply Hsig|by eapply stop_panic].
  - apply step_with_panics in He'; [|done|done]. exfalso. by eapply (op_no_panic OpHealthCheck); [..|exact He'].
  - apply step_with_panics in He'; [|done|done]. exfalso. by eapply (op_no_panic OpReconcileQueue); [..|exact He'].
  - apply step_with_panics in He'; [|done|done]. exfalso. by eapply (op_no_panic OpFailoverQueue); [..|exact He'].
  - apply step_with_panics in He'; [|done|done]. destruct (shutdown_returns p Ho Hh) as [s Hr].
    by rewrite Hr in He'.
Qed.
End contract.
End Process.

(** ** Scripts *)

(** The steps, by name; [fire] takes one if it is ready. *)
Inductive cue (W : Type) :=
  | CueOp (o : op W) | CueTick | CueDone | CueSelect | CueCheck | CueReconcile | CueFailover
  | CueSignal | CueCancel | CueExit.
Arguments CueOp {W} o.
Arguments CueTick {W}.
Arguments CueDone {W}.
Arguments CueSelect {W}.
Arguments CueCheck {W}.
Arguments CueReconcile {W}.
Arguments CueFailover {W}.
Arguments CueSignal {W}.
Arguments CueCancel {W}.
Arguments CueExit {W}.

Section scripts.
Context {W : Type} `{World W}.
Context (config : Config) (configMapName : string) (rg : bool).

Definition outsideb (o : op W) : bool :=
  match o with
  | OpTick | OpReconcileQueue | OpFailoverQueue | OpHealthCheck => false
  | OpSpawned (TriggerReadGatewayUpstreamSwitch _) => rg
  | _ => true
  end.

Definition fire (p : Process W) (c : cue W) : option (Process W) :=
  let op o := step_with p (run_op config configMapName o) in
  match pr_end p with
  | Some _ => None
  | None =>
      match c with
      | CueOp o => if outsideb o then Some (op o (λ _ p, p)) else None
      | CueTick =>
          match pr_run p with
          | RunSelect => Some (step_with p (Run_tick config configMapName) run_ticked)
          | _ => None
          end
      | CueDone =>
          match pr_run p with
          | RunSelect => if pr_cancelled p then Some (run_done p) else None
          | _ => None
          end
      | CueSelect =>
          match pr_probe p with
          | ProbeRound => Some (with_probe (ProbeSelect (probing_on (pr_ctl p))) p)
          | _ => None
          end
      | CueCheck =>
          match pr_probe p with
          | ProbeSelect _ => Some (op OpHealthCheck (λ _, with_probe ProbeRound))
          | _ => None
          end
      | CueReconcile =>
          match pr_reconcile p, ctl_reconcileQueue (pr_ctl p) with
          | WorkerSelect, Some q => if is_nil (q_receive q) then None else Some (op OpReconcileQueue (λ _ p, p))
          | _, _ => None
          end
      | CueFailover =>
          match pr_failover p, ctl_failoverCheckQueue (pr_ctl p) with
          | WorkerSelect, Some q => if is_nil (q_receive q) then None else Some (op OpFailoverQueue (λ _ p, p))
          | _, _ => None
          end
      | CueSignal => match pr_handler p with HandlerWaits => Some (handle_signal p) | _ => None end
      | CueCancel =>
          match pr_handler p with HandlerStopped => Some (with_handler true HandlerDone p) | _ => None end
      | CueExit => match pr_run p with RunReturned _ => Some (with_end EndReturn p) | _ => None end
      end
  end.

Lemma fire_step p c p' :
  fire p c = Some p' → proc_step config configMapName rg p p'.
Proof.
  unfold fire. destruct (pr_end p) eqn:He; [done|].
  destruct c as [o| | | | | | | | |]; intros Hf; repeat case_match; simplify_eq;
    try (by econstructor).
  - assert (outside o ∧ enabled rg o) as [Ho Hen].
    { unfold outsideb in *. destruct o as [| | | |[]| | | | | | |]; try done; by split. }
    by apply ps_outside.
  - apply ps_reconcile; [done..|]. by apply rq_ready_nonempty with q.
  - apply ps_failover; [done..|]. by apply fq_ready_nonempty with q.
Qed.

Fixpoint play (cs : list (cue W)) (p : Process W) : option (Process W) :=
  match cs with
  | [] => Some p
  | c :: cs => match fire p c with Some p => play cs p | None => None end
  end.

Lemma play_runs cs p p' :
  play cs p = Some p' → proc_steps config configMapName rg p p'.
Proof.
  revert p. induction cs as [|c cs IH]; intros p; simpl; [by intros [= ->]; reflexivity|].
  destruct (fire p c) as [p1|] eqn:Hf; [|done]. intros Hp.
  eapply rtc_l; [by eapply fire_step|]. by apply IH.
Qed.
End scripts.

(** ** Properties: the process that [main] starts *)

Section properties.
Context {W : Type} `{World W} `{!WorldOrder W} `{!IndexLaws W}.
#[local] Abbreviation config := (Load w_getenv).

(** The process from the moment [main] waits. *)
Definition process_run (s0 : Ctl W) (p : Process W) : Prop :=
  proc_steps config state_configmap_name read_gateway_enabled (launched s0) p.

Lemma launched_sane boot w (s0 : Ctl W) :
  main boot w = Started s0 →
  sane read_gateway_enabled s0 ∧ proc_inv (launched s0) ∧ trace_of s0 = [] ∧
  view s0 = mkAbs (-1) (Some ∅) "".
Proof.
  intros Hm. pose proof Hm as (Hu & HI & HT & Hids)%started_unloaded.
  apply main_inv in Hm as (_ & le & _ & ->).
  split; [split; [by apply unloaded_alive|done]|]. split; [by split|]. split; [done|].
  by rewrite (unloaded_view _ Hu), Hids.
Qed.

Lemma process_facts boot w (s0 : Ctl W) p :
  main boot w = Started s0 → process_run s0 p → ¬ panicked p →
  sane read_gateway_enabled (pr_ctl p) ∧ orderly p ∧
  life_run config (mkAbs (-1) (Some ∅) "") (trace_of (pr_ctl p)) (view (pr_ctl p)).
Proof.
  intros (Hs & Hi & HT & Hv)%launched_sane Hr Hn.
  destruct (proc_steps_behave _ _ _ _ _ Hr Hs Hi) as [Hi' [?|[(evs & T & R) Hs']]]; [done|].
  simpl in T, R. rewrite HT in T. simpl in T. subst. rewrite Hv in R. split; [done|]. split; [|done].
  unfold proc_inv, panicked in *. destruct (pr_end p) as [[]|]; [by destruct Hi'| |done]. naive_solver.
Qed.

(** The contract holds from the start of the process to its end.  Take any
    interleaving of the control loop, the prober, the queue workers, the
    informer and election callbacks, the HTTP requests and the shutdown, with
    the outside world changing at will: as long as no goroutine has panicked, the
    whole history is a run of the specification, from a closed gateway without
    an index to the view of the present state. *)
Theorem process_follows_contract boot w (s0 : Ctl W) p :
  main boot w = Started s0 → process_run s0 p → ¬ panicked p →
  life_run config (mkAbs (-1) (Some ∅) "") (trace_of (pr_ctl p)) (view (pr_ctl p)).
Proof. intros Hm Hr Hn. by apply (process_facts boot w s0 p). Qed.



(** C24. The process never shuts down in an orderly way.  When [main] returns, the
    control loop has returned with the error of a failed discovery or of a
    failed write of the ConfigMap; after a signal, the case of the loop's select
    that the cancellation makes ready always panics. *)
Theorem process_ends boot w (s0 : Ctl W) p :
  main boot w = Started s0 → process_run s0 p →
  (pr_end p = Some EndReturn → ∃ err, pr_run p = RunReturned (Some err)) ∧
  (pr_end p = None → pr_run p = RunSelect → pr_cancelled p = true →
     pr_end (run_done p) = Some (EndPanic "close of closed channel")).
Proof.
  intros Hm Hr. split.
  - intros He. destruct (launched_sane boot w s0 Hm) as (Hs & Hi & _).
    destruct (proc_steps_behave _ _ _ _ _ Hr Hs Hi) as [Hi' _]. unfold proc_inv in Hi'.
    rewrite He in Hi'. by destruct Hi'.
  - intros He Hsel Hc. destruct (process_facts boot w s0 p Hm Hr) as (_ & [Hs Ho] & _).
    { intros [why Hw]. congruence. }
    rewrite Hsel in Ho. destruct Ho as [Hrun Hsig].
    unfold run_done, step_with, stop, close_stopCh, mbind, M_bind, gets, modify.
    rewrite Hrun. simpl. by rewrite Hs, (Hsig Hc).
Qed.
End properties.

(** ** Witnesses: a fresh cluster, from the start of the process to an open gateway *)

(** The simulated world with an environment, and whose ConfigMap answers only
    with an index this program writes. *)
Definition checked_cm (o : option cm_data) : result cm_data :=
  match o with
  | None => Err (OtherErr "not found")
  | Some d =>
      if bool_decide (d !! "targetMainIndex" ∈ [Some "0"; Some "1"]) then Ok d
      else Err (OtherErr "not an index")
  end.

Definition life_env : string → string :=
  env_of [("APP_NAME", "memgraph"); ("NAMESPACE", "default"); ("STATEFULSET_NAME", "memgraph-ha")].

#[local] Instance Sim_life : World Sim :=
  Sim_with (λ w, Some <$> sim_pods w) checked_cm life_env (Ok "controller-0").

#[local] Instance Sim_life_order : WorldOrder Sim.
Proof. intros keys w. done. Qed.

Lemma checked_index_laws listed env host :
  IndexLaws Sim (H := Sim_with listed checked_cm env host).
Proof.
  intros i (ns & name & w & w' & cm & str & Hg & Hs & Hd). simpl in Hg. injection Hg as Hg _.
  unfold checked_cm in Hg. destruct (sim_cm w) as [d|]; [|done]. case_bool_decide as Hin; [|done].
  injection Hg as ->. rewrite Hs, elem_of_cons, list_elem_of_singleton in Hin.
  destruct Hin as [[= ->]|[= ->]]; vm_compute in Hd; injection Hd as <-; auto.
Qed.

#[local] Instance Sim_life_index : IndexLaws Sim.
Proof. apply checked_index_laws. Qed.

Definition newborn : Ctl Sim :=
  match main sim_boot (sim_world (Some db_fresh) (Some db_fresh)) with
  | Started s => s
  | _ => sim_failed
  end.

Lemma newborn_started :
  main sim_boot (sim_world (Some db_fresh) (Some db_fresh)) = Started newborn.
Proof. vm_compute. reflexivity. Qed.

(** A check before any index is known, leadership, discovery and the first
    reconciliation; then a signal. *)
Definition life_script : list (cue Sim) :=
  [CueSelect; CueCheck; CueOp (OpLead LeStart); CueTick; CueSelect; CueCheck].
Definition signal_script : list (cue Sim) := life_script ++ [CueSignal; CueSelect; CueCheck; CueCancel].

Definition played (cs : list (cue Sim)) : Process Sim :=
  default (launched newborn)
    (play (Load w_getenv) state_configmap_name read_gateway_enabled cs (launched newborn)).

Lemma grown_runs : process_run newborn (played life_script).
Proof. apply (play_runs _ _ _ life_script). vm_compute. reflexivity. Qed.

Lemma signalled_runs : process_run newborn (played signal_script).
Proof. apply (play_runs _ _ _ signal_script). vm_compute. reflexivity. Qed.

Lemma process_follows_contract_witness :
  life_run (Load w_getenv) (mkAbs (-1) (Some ∅) "") (trace_of (pr_ctl (played life_script)))
    (view (pr_ctl (played life_script))) ∧
  a_write (view (pr_ctl (played life_script))) = sim_bolt 0.
Proof.
  split; [|vm_compute; reflexivity].
  apply (process_follows_contract _ _ _ _ newborn_started grown_runs).
  intros [why Hw]. vm_compute in Hw. discriminate.
Defined.



Lemma process_ends_witness :
  pr_end (run_done (played signal_script)) = Some (EndPanic "close of closed channel").
Proof.
  destruct (process_ends _ _ _ _ newborn_started signalled_runs) as [_ Hc].
  apply Hc; vm_compute; reflexivity.
Defined.

(** The exception is real: the cache has both pods when they are asked for by
    key, but had not yet when it was listed. *)
Example late_pods_panic :
  let late := Sim_with (λ _, []) checked_cm life_env (Ok "controller-0") in
  (@Run_tick Sim late (Load life_env) "memgraph-controller-state"
    (set_leaderElection (mkLE "controller-0" "controller-0") newborn)).1 = Panic nil_deref.
Proof. vm_compute. reflexivity. Qed.

(** After the handler's [Shutdown] the prober's next select waits on a nil
    channel, and the loop goes on checking until the context is cancelled. *)
Example prober_outlives_stop :
  pr_probe (played (life_script ++ [CueSignal; CueSelect])) = ProbeSelect false ∧
  pr_probe (played (life_script ++ [CueSignal; CueSelect; CueCheck])) = ProbeRound.
Proof. vm_compute. auto. Qed.
