(* ===== verification/Instances.v ===== *)
(** * Several instances of the controller over one cluster

    Every replica of the controller's Deployment is a process of Process.v with
    an environment of its own; they share the outside world: the databases, the
    ConfigMap, the pods.  Each step of one of them starts in the world the
    others left.  An instance cannot tell the others from the outside world, so
    its history is one of Process.v; an instance that does not lead writes
    nothing.  What none of them does is to give up its gateway with the
    leadership: the last theorem runs two instances into a state in which both
    data pods are mains, each behind an open gateway. *)

From stdpp Require Import relations functions.
From S2P Require Import Prelude.
From S2P Require Import GoStrings.
From S2P Require Import Pods.
From S2P Require Import Config.
From S2P Require Import Metrics.
From S2P Require Import ConnectionTracker.
From S2P Require Import RateLimiter.
From S2P Require Import GatewayServer.
From S2P Require Import World.
From S2P Require Import ConnectionPool.
From S2P Require Import MemgraphClient.
From S2P Require Import MemgraphNode.
From S2P Require Import Queues.
From S2P Require Import LeaderElection.
From S2P Require Import ControllerState.
From S2P Require Import Sim.
From S2P Require Import Controller.
From S2P Require Import Failover.
From S2P Require Import Reconcile.
From S2P Require Import Lifecycle.
From S2P Require Import Startup.
From S2P Require Import Contract.
From S2P Require Import System.
From S2P Require Import Lifetime.
From S2P Require Import Process.

(** ** One instance among others *)

Section instance.
Context {W : Type} `{World W}.

Definition world_of (p : Process W) : W := net_world (ctl_net (pr_ctl p)).

(** The process in the world the others left. *)
Definition in_world (w : W) (p : Process W) : Process W :=
  with_ctl (set_net (set_world w (ctl_net (pr_ctl p))) (pr_ctl p)) p.

Definition own_step : relation (Process W) :=
  proc_step (Load w_getenv) state_configmap_name read_gateway_enabled.

Lemma own_step_runs w p p' : own_step (in_world w p) p' → pr_end p = None.
Proof. by destruct 1. Qed.

Lemma enters_world w p : pr_end p = None → own_step p (in_world w p).
Proof. intros He. by apply (ps_outside _ _ _ p (OpWorld w)). Qed.

Lemma process_run_step s0 w p p' :
  process_run s0 p → own_step (in_world w p) p' → process_run s0 p'.
Proof.
  intros Hr Hs. eapply rtc_r; [|exact Hs]. eapply rtc_r; [exact Hr|].
  by apply enters_world, (own_step_runs w p p').
Qed.

(** *** What a follower does *)

Definition leads (s : Ctl W) : bool := le_IsLeader (ctl_leaderElection s).

Definition write_gateway (s : Ctl W) : string := default "" (upstream false s).

(** Reads, switches of the read-only gateway, disconnected clients, and at most
    the closing of the read/write gateway. *)
Definition harmless : relation (Ctl W) := λ s s',
  ∃ evs, trace_of s' = trace_of s ++ evs ∧ Forall idle_event evs ∧
    (write_gateway s' = write_gateway s ∨ write_gateway s' = "").

Lemma idle_harmless s s' : idle s s' → harmless s s'.
Proof.
  intros (evs & T & F & _ & _ & U & _). exists evs. split; [done|]. split; [done|].
  unfold write_gateway. rewrite U. unfold closed_by. case_decide; auto.
Qed.

Lemma unseen_harmless rg s s' : unseen rg s s' → harmless s s'.
Proof.
  intros (T & V & _). exists []. rewrite app_nil_r. split; [done|]. split; [done|left].
  by injection V.
Qed.

Lemma harmless_refl s : harmless s s.
Proof. exists []. rewrite app_nil_r. split; [done|]. split; [done|by left]. Qed.

(** The operations that write are the leader's. *)
Lemma follower_op config cm o s : leads s = false → idle s (run_op config cm o s).2.
Proof.
  intros Hl. destruct (takes_mutex o) eqn:Ho; [|by apply idle_unlocked].
  unfold leads in Hl. destruct o; try discriminate Ho; simpl.
  - unfold drop_result, Run_tick, IsLeader, mbind, M_bind, gets. simpl. by rewrite Hl.
  - unfold processReconcileQueue_step, handleReconcileEvent, IsLeader, mbind, M_bind, gets, modify.
    simpl. destruct (ctl_reconcileQueue s) as [q|]; [|done]. destruct (q_receive q) as [[e q']|]; [|done].
    simpl. rewrite Hl. simpl. by apply idle_quiet.
  - unfold processFailoverCheckQueue_step, handleFailoverCheckEvent, IsLeader, mbind, M_bind, gets, modify.
    simpl. destruct (ctl_failoverCheckQueue s) as [q|]; [|done]. destruct (q_receive q) as [[e q']|]; [|done].
    simpl. rewrite Hl. simpl. by apply idle_quiet.
Qed.

Lemma step_with_ctl {A} (p : Process W) (m : M (Ctl W) A) k :
  (∀ a q, pr_ctl (k a q) = pr_ctl q) → pr_ctl (step_with p m k) = (m (pr_ctl p)).2.
Proof. intros Hk. unfold step_with. destruct (m (pr_ctl p)) as [[a|why] s]; [by rewrite Hk|done]. Qed.

Lemma follower_step config cm rg p p' :
  proc_step config cm rg p p' → leads (pr_ctl p) = false → harmless (pr_ctl p) (pr_ctl p').
Proof.
  intros Hs Hl.
  assert (∀ o k, (∀ (a : ()) q, pr_ctl (k a q) = pr_ctl q) →
    harmless (pr_ctl p) (pr_ctl (step_with p (run_op config cm o) k))) as Hop.
  { intros o k Hk. rewrite step_with_ctl by done. by apply idle_harmless, follower_op. }
  destruct Hs; try apply harmless_refl; try by apply Hop.
  - unfold leads in Hl. rewrite step_with_ctl by (by intros []).
    unfold Run_tick, IsLeader, mbind, M_bind, gets. simpl. rewrite Hl. apply harmless_refl.
  - unfold run_done. rewrite step_with_ctl by done. apply (unseen_harmless rg), unseen_stop.
  - unfold handle_signal. rewrite step_with_ctl by done. apply (unseen_harmless rg), unseen_shutdown.
Qed.
End instance.

(** ** The cluster of instances *)

Section Instances.
Context {I W : Type} `{EqDecision I}.
(** The outside world as each instance sees it: the environments differ. *)
Context (env : I → World W).

Record cluster := mkCluster { cl_procs : I → Process W; cl_world : W }.

(** Instance [i] takes a step, or something else changes the world. *)
Inductive cl_step (c : cluster) : cluster → Prop :=
  | cl_instance i p' :
      own_step (H := env i) (in_world (cl_world c) (cl_procs c i)) p' →
      cl_step c (mkCluster (<[i := p']> (cl_procs c)) (world_of p'))
  | cl_outside w :
      cl_step c (mkCluster (cl_procs c) w).

(** Every instance has been started, at its time, by [main]. *)
Definition started (boots : I → Boot) (first : I → Ctl W) : Prop :=
  ∀ i, ∃ w, main (H := env i) (boots i) w = Started (first i).

Definition cl_runs (first : I → Ctl W) : cluster → Prop :=
  λ c, ∃ w, rtc cl_step (mkCluster (λ i, launched (first i)) w) c.

(** An instance takes the steps of a process; the others are part of the
    outside world. *)
Lemma instance_is_process first c i :
  cl_runs first c → process_run (H := env i) (first i) (cl_procs c i).
Proof.
  intros [w Hr].
  assert (∀ c1 c2, rtc cl_step c1 c2 →
    process_run (H := env i) (first i) (cl_procs c1 i) →
    process_run (H := env i) (first i) (cl_procs c2 i)) as Hgo.
  { induction 1 as [|c1 c2 c3 Hs _ IH]; [done|]. intros Hp. apply IH.
    destruct Hs as [j p' Hs|]; [|done]. simpl. destruct (decide (j = i)) as [->|Hne].
    - rewrite fn_lookup_insert. by eapply process_run_step.
    - by rewrite fn_lookup_insert_ne. }
  apply (Hgo _ _ Hr). apply rtc_refl.
Qed.

(** The controller of instance [i]. *)
Definition ctl_of (c : cluster) (i : I) : Ctl W := pr_ctl (cl_procs c i).

Global Instance harmless_preorder : PreOrder (harmless (W := W)).
Proof.
  split; [exact harmless_refl|]. intros s1 s2 s3 (e1 & T1 & F1 & U1) (e2 & T2 & F2 & U2).
  exists (e1 ++ e2). rewrite T2, T1, app_assoc. split; [done|]. split; [by apply Forall_app|].
  destruct U2 as [->| ->]; auto.
Qed.

Lemma follower_cl_step c c' i :
  cl_step c c' → leads (ctl_of c i) = false → harmless (ctl_of c i) (ctl_of c' i).
Proof.
  intros [j p' Hs|w] Hl; [|done]. unfold ctl_of in *. simpl.
  destruct (decide (j = i)) as [->|Hne]; [|by rewrite fn_lookup_insert_ne].
  rewrite fn_lookup_insert. by apply (follower_step (H := env i)) in Hs.
Qed.


Section contract.
Context `{∀ i, WorldOrder W (H := env i)} `{∀ i, IndexLaws W (H := env i)}.

End contract.
End Instances.

(** ** Two instances of the simulated world *)

(** controller-0 and controller-1; a ConfigMap with anything but 0 and 1 is not
    readable. *)
Definition two_env (i : bool) : World Sim :=
  Sim_with (λ w, Some <$> sim_pods w) checked_cm
    (env_of [("APP_NAME", "memgraph"); ("NAMESPACE", "default");
             ("STATEFULSET_NAME", "memgraph-ha");
             ("POD_NAME", if i then "controller-1" else "controller-0")])
    (Ok "host").

Definition first_of (i : bool) : Ctl Sim :=
  match main (H := two_env i) sim_boot (sim_world (Some db_fresh) (Some db_fresh)) with
  | Started s => s
  | _ => sim_failed
  end.

(** A step of instance [i], or a change of the outside world. *)
Inductive turn := Of (i : bool) (c : cue Sim) | Outside (f : Sim → Sim).

Definition one_turn (t : turn) (c : cluster (I := bool) (W := Sim)) : option cluster :=
  match t with
  | Of i cue =>
      (λ p, mkCluster (<[i := p]> (cl_procs c)) (world_of p)) <$>
        fire (H := two_env i) (Load (w_getenv (World := two_env i)))
          (state_configmap_name (H := two_env i)) (read_gateway_enabled (H := two_env i))
          (in_world (cl_world c) (cl_procs c i)) cue
  | Outside f => Some (mkCluster (cl_procs c) (f (cl_world c)))
  end.

Fixpoint turns (ts : list turn) (c : cluster) : option cluster :=
  match ts with
  | [] => Some c
  | t :: ts => match one_turn t c with Some c => turns ts c | None => None end
  end.

Lemma one_turn_step t c c' : one_turn t c = Some c' → cl_step two_env c c'.
Proof.
  destruct t as [i cue|f]; simpl.
  - destruct (fire _ _ _ _ _) as [p|] eqn:Hf; [|done]. intros [= <-]. apply cl_instance.
    by eapply (fire_step (H := two_env i)).
  - intros [= <-]. apply cl_outside.
Qed.

Lemma turns_steps ts c c' : turns ts c = Some c' → rtc (cl_step two_env) c c'.
Proof.
  revert c. induction ts as [|t ts IH]; intros c; simpl; [by intros [= ->]|].
  destruct (one_turn t c) as [c1|] eqn:Ht; [|done]. intros Hr.
  eapply rtc_l; [by eapply one_turn_step|by apply IH].
Qed.

Definition two_fresh : cluster (I := bool) :=
  mkCluster (λ i, launched (first_of i)) (sim_world (Some db_fresh) (Some db_fresh)).

(** controller-0 leads, discovers the new cluster and opens its gateway; it
    loses the lease to controller-1, which loads the index and reconciles. *)
Definition lease_moves : list turn :=
  [Of false (CueOp (OpLead LeStart)); Of false CueTick;
   Of false (CueOp (OpLead LeStop)); Of false (CueOp (OpLead (LeNew "controller-1")));
   Of true (CueOp (OpLead LeStart)); Of true CueTick].

(** The readiness probe of pod 0 fails, its database still runs. *)
Definition pod0_unready : Pod := unready_pod (GetPodName example_config 0) "10.0.0.1".
Definition loses_readiness (w : Sim) : Sim :=
  mkSim [pod0_unready; sim_pod 1] (sim_dbs w) (sim_drivers w) (sim_next w) (sim_cm w) (sim_clock w).

Definition fails_over : list turn :=
  [Outside loses_readiness; Of true (CueOp (OpPodUpdate (sim_pod 0) pod0_unready)); Of true CueFailover].

Definition after (ts : list turn) : cluster := default two_fresh (turns ts two_fresh).

Lemma after_reached ts :
  is_nil (turns ts two_fresh) = false → rtc (cl_step two_env) two_fresh (after ts).
Proof.
  unfold after. destruct (turns ts two_fresh) as [c|] eqn:Ht; [|done].
  intros _. by apply (turns_steps ts).
Qed.

(** A gateway with an upstream, no limiter and room for a connection. *)
Lemma admits g created now conn :
  srv_upstreamAddress g ≠ "" → rl_enabled (srv_rateLimiter g) = false →
  CanAccept (srv_connections g) = true → (acceptConnection created now conn g).1 = true.
Proof.
  intros Hu Hl Hc. unfold acceptConnection, GetUpstreamAddress, Allow.
  rewrite bool_decide_eq_false_2 by done. rewrite Hl. simpl. by rewrite Hc.
Qed.

Definition split_cluster : cluster := after (lease_moves ++ fails_over).

Lemma split_cluster_reached : rtc (cl_step two_env) two_fresh split_cluster.
Proof. apply after_reached. vm_compute. reflexivity. Qed.

(** C16. An instance that loses the lease leaves its read/write gateway where it
    is, and it can stay there while the next leader fails over.  Two instances
    started on a fresh cluster reach a state in which only controller-1 leads,
    it has promoted pod 1 and its gateway is there, while the gateway of
    controller-0 still admits clients to pod 0, whose database, unready but
    running, is a main as well: two mains, each behind an open gateway. *)
Theorem two_mains_behind_gateways :
  ∃ c, cl_runs two_env first_of c ∧
    leads (ctl_of c false) = false ∧ leads (ctl_of c true) = true ∧
    pr_end (cl_procs c false) = None ∧ pr_end (cl_procs c true) = None ∧
    write_gateway (ctl_of c false) = sim_bolt 0 ∧ write_gateway (ctl_of c true) = sim_bolt 1 ∧
    (db_role <$> sim_dbs (cl_world c) !! sim_bolt 0) = Some "main" ∧
    (db_role <$> sim_dbs (cl_world c) !! sim_bolt 1) = Some "main" ∧
    ∃ g, gateway_of false (ctl_of c false) = Some g ∧
      ∀ created now conn, (acceptConnection created now conn g).1 = true.
Proof.
  exists split_cluster. split; [by eexists; apply split_cluster_reached|].
  do 8 (split; [vm_compute; reflexivity|]).
  exists (default (sim_server "") (gateway_of false (ctl_of split_cluster false))).
  split; [vm_compute; reflexivity|].
  intros created now conn. apply admits; vm_compute; [discriminate|reflexivity|reflexivity].
Qed.

(** ** Witnesses *)

#[local] Instance two_env_order i : WorldOrder Sim (H := two_env i).
Proof. intros keys w. done. Qed.

#[local] Instance two_env_index i : IndexLaws Sim (H := two_env i).
Proof. apply checked_index_laws. Qed.

Lemma two_started : started two_env (λ _, sim_boot) first_of.
Proof.
  intros i. exists (sim_world (Some db_fresh) (Some db_fresh)). destruct i; vm_compute; reflexivity.
Qed.


(** The turns, as long as instance [i] does not lead. *)
Fixpoint following (i : bool) (ts : list turn) (c : cluster) : option cluster :=
  match ts with
  | [] => Some c
  | t :: ts =>
      if leads (ctl_of c i) then None
      else match one_turn t c with Some c => following i ts c | None => None end
  end.

Lemma following_steps i ts c c' :
  following i ts c = Some c' →
  rtc (λ c1 c2, cl_step two_env c1 c2 ∧ leads (ctl_of c1 i) = false) c c'.
Proof.
  revert c. induction ts as [|t ts IH]; intros c; simpl; [by intros [= ->]|].
  destruct (leads _) eqn:Hl; [done|]. destruct (one_turn t c) as [c1|] eqn:Ht; [|done].
  intros Hf. eapply rtc_l; [split; [by eapply one_turn_step|done]|by apply IH].
Qed.

(** controller-0 has just lost the lease; then controller-1 takes over and fails
    over. *)
Definition lost_lease : cluster := after (take 3 lease_moves).
Definition others_turns : list turn := drop 3 lease_moves ++ fails_over.

