(* ===== verification/Goroutines.v ===== *)
(** * The controller's goroutines, action by action

    System.v runs every operation in one step.  Here the operations are threads
    of Threads.v: the failover, the reconciliation, the queue workers, the
    control loop, the health check and the preStop hook stop after every call
    they make, so that other goroutines run in between; [operationMu] is the
    mutex of the pool.  The operations without a mutex that only read, queue
    events or switch the read-only gateway are one action each.

    Each definition is the one of the same name in Failover.v, Health.v,
    Reconcile.v or System.v, cut into actions; [thread_is_operation] shows that
    a thread that is not interrupted does what the operation does. *)

From S2P Require Import Prelude.
From S2P Require Import GoStrings.
From S2P Require Import DataInfo.
From S2P Require Import Pods.
From S2P Require Import Config.
From S2P Require Import World.
From S2P Require Import MemgraphClient.
From S2P Require Import MemgraphNode.
From S2P Require Import Queues.
From S2P Require Import LeaderElection.
From S2P Require Import ProberState.
From S2P Require Import ControllerState.
From S2P Require Import Controller.
From S2P Require Import Failover.
From S2P Require Import Cluster.
From S2P Require Import Health.
From S2P Require Import Reconcile.
From S2P Require Import Prober.
From S2P Require Import HttpApi.
From S2P Require Import Threads.
From S2P Require Import System.

Section Goroutines.
Context {W : Type} `{World W}.
Context (config : Config) (configMapName : string).

#[local] Abbreviation code := (code (Ctl W)).
#[local] Abbreviation thread := (thread (Ctl W)).
#[local] Abbreviation GetTargetMainIndex := (GetTargetMainIndex config configMapName).
#[local] Abbreviation SetTargetMainIndex := (SetTargetMainIndex config configMapName).
#[local] Abbreviation getTargetMainNode := (getTargetMainNode config configMapName).
#[local] Abbreviation getTargetSyncReplicaNode := (getTargetSyncReplicaNode config configMapName).
#[local] Abbreviation updateReadGatewayUpstream := (updateReadGatewayUpstream config configMapName).

(** ** [queue_failover.go] *)

Definition failover_checks_code : code (result (Z * string * string)) :=
  let? targetMainIndex := act GetTargetMainIndex orelse err =>
    mret (Err (Wrapf "cannot get target main index" err)) in
  let targetSyncReplicaIndex := int32 (1 - targetMainIndex) in
  let targetSyncReplicaName := GetPodName config targetSyncReplicaIndex in
  hr ← act (getHealthyRole config targetSyncReplicaName);
  let '(role, isHealthy) := hr in
  if negb isHealthy then mret (Err (Errorf "sync replica pod is not healthy"))
  else
    let? targetMainNode := act getTargetMainNode orelse err =>
      mret (Err (Wrapf "cannot get target main node" err)) in
    let? replicas := act (on_node targetMainNode (GetReplicas config false)) orelse err =>
      mret (Err (Wrapf "cannot get replicas from target main node" err)) in
    node ← act (find_node targetSyncReplicaName);
    match node with
    | None => mret (Err (Errorf "sync replica node not found in cluster state"))
    | Some _ =>
        targetSyncReplicaMemgraphName ←
          act (on_node targetSyncReplicaName (field node_GetReplicaName));
        match check_replicas targetSyncReplicaMemgraphName targetSyncReplicaName replicas with
        | Some err => mret (Err err)
        | None =>
            check? act (lastChancePing config targetSyncReplicaName) orelse _err =>
              mret (Err (Errorf "sync replica pod is not reachable")) in
            mret (Ok (targetSyncReplicaIndex, targetSyncReplicaName, role))
        end
    end.

Definition close_gateways_code : code () :=
  _ ← act (gw_SetUpstreamAddress false "");
  disabled ← act (gw_nil true);
  if disabled : bool then mret () else act (gw_SetUpstreamAddress true "").

Definition promoteSyncReplica_code : code (option error) :=
  let? targetMainIndex := act GetTargetMainIndex orelse err =>
    mret (Some (Wrapf "cannot get target main index" err)) in
  let targetSyncReplicaIndex := int32 (1 - targetMainIndex) in
  let targetSyncReplicaName := GetPodName config targetSyncReplicaIndex in
  _ ← act (protectReadGatewayBeforeRoleChange targetSyncReplicaName);
  node ← act (find_node targetSyncReplicaName);
  match node with
  | None =>
      mret (Some (Errorf ("sync replica node " +:+ targetSyncReplicaName +:+
                          " not found in cluster map")))
  | Some _ =>
      check? act (on_node targetSyncReplicaName (SetToMainRole config)) orelse err =>
        mret (Some (Wrapf ("failed to promote pod " +:+ targetSyncReplicaName +:+ " to main") err)) in
      r ← act (on_node targetSyncReplicaName (GetReplicationRole config false));
      match r with
      | (_, Some err) =>
          mret (Some (Wrapf ("failed to verify new role of pod " +:+ targetSyncReplicaName) err))
      | (role, None) =>
          if bool_decide (role ≠ "main") then
            mret (Some (Errorf ("pod " +:+ targetSyncReplicaName +:+
              " promotion to main did not take effect, current role: " +:+ role)))
          else mret None
      end
  end.

Definition open_gateways_code (syncReplicaNode : string) : code () :=
  let? boltAddress := act (on_node syncReplicaNode (field GetBoltAddress)) orelse _err => mret () in
  _ ← act (gw_SetUpstreamAddress false boltAddress);
  act updateReadGatewayUpstream.

Definition executeFailoverInternal_code : code (option error) :=
  let? checked := failover_checks_code orelse err => mret (Some err) in
  let '(targetSyncReplicaIndex, targetSyncReplicaName, role) := checked in
  _ ← close_gateways_code;
  check? (if bool_decide (role = "main") then mret None else promoteSyncReplica_code)
    orelse err => mret (Some err) in
  check? act (SetTargetMainIndex targetSyncReplicaIndex) orelse err =>
    mret (Some (Wrapf "failed to update target main index" err)) in
  _ ← open_gateways_code targetSyncReplicaName;
  mret None.

Definition performFailoverCheck_code (event : option FailoverCheckEvent) : code (option error) :=
  let? targetMainIndex := act GetTargetMainIndex orelse err =>
    mret (Some (Wrapf "cannot get target main index" err)) in
  let targetMainPodName := GetPodName config targetMainIndex in
  skip ← (match event with
          | Some event =>
              if bool_decide (fe_Reason event = "health-check-failure") then
                _ ← act (lastChancePing config targetMainPodName);
                mret true
              else mret false
          | None =>
              hr ← act (getHealthyRole config targetMainPodName);
              mret (hr.2 && bool_decide (hr.1 = "main"))
          end);
  if skip : bool then mret None
  else
    check? executeFailoverInternal_code orelse err =>
      mret (Some (Wrapf "failed to execute failover" err)) in
    mret None.

(** The receive of the worker's [select], and the deduplication under
    [dedupMu]. *)
Definition receive_failover : M (Ctl W) (option FailoverCheckEvent) :=
  fq ← gets ctl_failoverCheckQueue;
  match fq with
  | None => panic nil_deref
  | Some fq =>
      match q_receive fq with
      | None => mret None
      | Some (event, fq) => _ ← modify (set_failoverCheckQueue (Some fq)); mret (Some event)
      end
  end.

Definition admit_failover (event : FailoverCheckEvent) : M (Ctl W) bool :=
  fq ← gets ctl_failoverCheckQueue;
  match fq with
  | None => panic nil_deref
  | Some fq =>
      now ← cnet (call w_now);
      let '(admitted, fq) := q_admit now (failover_key event) (fe_Timestamp event) fq in
      if negb admitted then mret false
      else _ ← modify (set_failoverCheckQueue (Some fq)); mret true
  end.

Definition failover_queue_thread : thread :=
  TRun false (act receive_failover) (λ event,
  match event with
  | None => TDone
  | Some event =>
      TRun false (act IsLeader) (λ leader,
      if negb leader then TDone
      else TRun false (act (admit_failover event)) (λ admitted,
      if negb admitted then TDone
      else TRun true (_ ← performFailoverCheck_code (Some event);
                      act (modify (set_failoverCheckNeeded false))) (λ _, TDone)))
  end).

(** ** The gateway and the preStop hook *)

Definition reconcileGateway_code : code (option error) :=
  nogw ← act (gw_nil false);
  if nogw : bool then mret (Some (Errorf "gateway server is not set"))
  else
    let? targetMainNode := act getTargetMainNode orelse err =>
      mret (Some (Wrapf "failed to get target main node" err)) in
    name ← act (GetName targetMainNode);
    let? pod := act (getPodFromCache config name) orelse err =>
      mret (Some (Wrapf "failed to get target main pod" err)) in
    if negb (isPodReady pod) then mret (Some (Errorf "target main pod is not ready"))
    else if negb (is_nil (pod_DeletionTimestamp pod)) then
      mret (Some (Errorf "target main pod is being deleted"))
    else
      let? boltAddress := act (on_node targetMainNode (field GetBoltAddress)) orelse err =>
        mret (Some (Wrapf "failed to get bolt address for target main node" err)) in
      check? act (isHealthy config configMapName) orelse _err =>
        mret (Some (Errorf "cluster is not healthy")) in
      _ ← act (gw_SetUpstreamAddress false boltAddress);
      mret None.

Fixpoint prestop_loop_code (ticks : nat) (ctxErr : error) : code (option error) :=
  match ticks with
  | O =>
      _ ← act (logDetailedClusterStatus config configMapName);
      mret (Some ctxErr)
  | S ticks =>
      err ← act (isHealthy config configMapName);
      match err with
      | None => mret None
      | Some _ =>
          _ ← act (logDetailedClusterStatus config configMapName);
          prestop_loop_code ticks ctxErr
      end
  end.

Definition HandlePreStopHook_code (ticks : nat) (ctxErr : error) : code (option error) :=
  nogw ← act (gw_nil false);
  _ ← (if nogw : bool then mret () else act (gw_SetUpstreamAddress false ""));
  prestop_loop_code ticks ctxErr.

(** A preStop request whose hook runs; every other request is one action. *)
Definition runs_prestop (r : Request) : bool :=
  match route_of (rq_Path r) with
  | RPreStop => bool_decide (rq_Method r = "POST") && authorized config r
  | _ => false
  end.

Definition request_code (r : Request) : code () :=
  if runs_prestop r then _ ← HandlePreStopHook_code (rq_ticks r) (rq_ctxErr r); mret ()
  else act (drop_result (serve config configMapName r)).

(** ** [controller_reconcile.go] *)

Definition register_replica_code (targetMainNode podName replicaName : string) : code () :=
  let? syncReplicaNode := act getTargetSyncReplicaNode orelse _err => mret () in
  name ← act (GetName podName);
  syncName ← act (GetName syncReplicaNode);
  let syncMode := if bool_decide (name = syncName) then "STRICT_SYNC" else "ASYNC" in
  replicationAddress ←
    act (on_node podName (field (GetReplicationFQDN (StatefulSetName config) (Namespace config))));
  mainName ← act (GetName targetMainNode);
  nodes ← act get_nodes;
  keys ← act (cnet (range_keys nodes));
  nonTargetMains ← cfoldM (λ mains k, act (collect_main config mainName mains k)) keys [];
  k8sPods ← act getPodsFromCache;
  nodes ← act get_nodes;
  if bool_decide (0 < length nonTargetMains) then mret ()
  else if bool_decide (length k8sPods ≠ size nodes) then mret ()
  else
    err ← act (on_node targetMainNode (RegisterReplica config replicaName replicationAddress syncMode));
    match err with
    | None => mret ()
    | Some err =>
        if diverged_error err then mret ()
        else _ ← act (on_node targetMainNode (DropReplica config replicaName)); mret ()
    end.

Definition reconcile_replica_code (targetMainNode mainName : string)
    (replicaMap : gmap string ReplicaInfo) (isAllPodsReady : bool) (podName : string)
    : code bool :=
  if bool_decide (podName = mainName) then mret isAllPodsReady
  else
    let? pod := act (getPodFromCache config podName) orelse _err => mret false in
    if negb (isPodReady pod) && negb (isPodTerminating (Some pod)) then mret false
    else
      r ← act (on_node podName (GetReplicationRole config true));
      match r with
      | (_, Some _) => mret isAllPodsReady
      | (role, None) =>
          demoted ← (if bool_decide (role ≠ "replica") then
                       err ← act (on_node podName (SetToReplicaRole config)); mret (is_nil err)
                     else mret true);
          if negb demoted then mret isAllPodsReady
          else
            replicaName ← act (on_node podName (field node_GetReplicaName));
            match replicaMap !! replicaName with
            | Some _ => mret isAllPodsReady
            | None =>
                if isPodTerminating (Some pod) then mret isAllPodsReady
                else
                  _ ← register_replica_code targetMainNode podName replicaName;
                  mret isAllPodsReady
            end
      end.

Definition reconcile_replicas_code (targetMainNode : string) (reconcileErr : option error)
    : code (option error * option error) :=
  _ ← act updateReadGatewayUpstream;
  let? replicas := act (on_node targetMainNode (GetReplicas config true)) orelse _err =>
    mret (None, reconcileErr) in
  let replicaMap := replica_map replicas in
  replicaKeys ← act (cnet (range_keys replicaMap));
  _ ← cforM replicaKeys (λ k, act (log_replica replicaMap k));
  mainName ← act (GetName targetMainNode);
  let? targetMainPod := act (getPodFromCache config mainName) orelse err =>
    mret (Some err, reconcileErr) in
  nodes ← act get_nodes;
  keys ← act (cnet (range_keys nodes));
  isAllPodsReady ← cfoldM (reconcile_replica_code targetMainNode mainName replicaMap) keys
                     (isPodReady targetMainPod);
  if isAllPodsReady : bool then
    err ← reconcileGateway_code;
    mret (err, reconcileErr)
  else mret (None, reconcileErr).

Definition reconcile_locked_code : code (option error * option error) :=
  let? targetMainIndex := act GetTargetMainIndex orelse err =>
    (_ ← act record_error; mret (None, Some err)) in
  if bool_decide (targetMainIndex = -1)%Z then mret (None, None)
  else
    _ ← act Refresh;
    failed ← performFailoverCheck_code None;
    reconcileErr ← (match failed with
                    | Some err => _ ← act record_error; mret (Some err)
                    | None => mret None
                    end);
    let? targetMainNode := act getTargetMainNode orelse err =>
      (_ ← act record_error; mret (None, Some err)) in
    reconcile_replicas_code targetMainNode reconcileErr.

(** [performReconciliationActions]: the metrics are deferred before the mutex is
    taken, so that they are recorded after its release. *)
Definition reconciliation_thread (k : thread) : thread :=
  TRun false (act (cnet (call w_now))) (λ start,
  TRun true reconcile_locked_code (λ r,
  TRun false (act (record_metrics start r.2)) (λ _, k))).

Definition tick_thread : thread :=
  TRun false (act IsLeader) (λ leader,
  if negb leader then TDone
  else TRun false (act GetTargetMainIndex) (λ index,
  match index with
  | Ok _ => reconciliation_thread TDone
  | Err _ =>
      TRun false (act (discoverClusterState config)) (λ discovered,
      match discovered with
      | Err _ => TDone
      | Ok targetMainIndex =>
          if bool_decide (targetMainIndex = -1)%Z then TDone
          else TRun false (act (SetTargetMainIndex targetMainIndex)) (λ err,
               match err with
               | Some _ => TDone
               | None => reconciliation_thread TDone
               end)
      end)
  end)).

(** ** [queue_reconcile.go] *)

Definition receive_reconcile : M (Ctl W) (option ReconcileEvent) :=
  rq ← gets ctl_reconcileQueue;
  match rq with
  | None => panic nil_deref
  | Some rq =>
      match q_receive rq with
      | None => mret None
      | Some (event, rq) => _ ← modify (set_reconcileQueue (Some rq)); mret (Some event)
      end
  end.

Definition admit_reconcile (event : ReconcileEvent) : M (Ctl W) bool :=
  rq ← gets ctl_reconcileQueue;
  match rq with
  | None => panic nil_deref
  | Some rq =>
      now ← cnet (call w_now);
      let '(admitted, rq) := q_admit now (reconcile_key event) (re_Timestamp event) rq in
      if negb admitted then mret false
      else _ ← modify (set_reconcileQueue (Some rq)); mret true
  end.

Definition reconcile_queue_thread : thread :=
  TRun false (act receive_reconcile) (λ event,
  match event with
  | None => TDone
  | Some event =>
      TRun false (act IsLeader) (λ leader,
      if negb leader then TDone
      else TRun false (act (admit_reconcile event)) (λ admitted,
      if negb admitted then TDone else reconciliation_thread TDone))
  end).

(** ** [prober.go], and all operations *)

Definition health_code : code () :=
  ok ← act (check_main config configMapName);
  if negb ok then _ ← act fail_main; mret ()
  else
    _ ← act (prober (λ p, ((), recordSuccess p)));
    _ ← act (performReadGatewayUpstreamHealthCheck config);
    mret ().

Definition thread_of (o : op W) : thread :=
  match o with
  | OpTick => tick_thread
  | OpReconcileQueue => reconcile_queue_thread
  | OpFailoverQueue => failover_queue_thread
  | OpHealthCheck => TRun false health_code (λ _, TDone)
  | OpRequest r => TRun false (request_code r) (λ _, TDone)
  | o => TRun false (act (run_op config configMapName o)) (λ _, TDone)
  end.

(** ** A thread that is not interrupted *)

Lemma performs_checks : performs failover_checks_code (failover_checks config configMapName).
Proof. unfold failover_checks_code, failover_checks. solve_performs. Qed.

Lemma performs_close : performs close_gateways_code close_gateways.
Proof. unfold close_gateways_code, close_gateways. solve_performs. Qed.

Lemma performs_promote : performs promoteSyncReplica_code (promoteSyncReplica config configMapName).
Proof. unfold promoteSyncReplica_code, promoteSyncReplica. solve_performs. Qed.

Lemma performs_open k : performs (open_gateways_code k) (open_gateways config configMapName k).
Proof. unfold open_gateways_code, open_gateways. solve_performs. Qed.
#[local] Hint Resolve performs_checks performs_close performs_promote performs_open : performs.

Lemma performs_failover : performs executeFailoverInternal_code (executeFailoverInternal config configMapName).
Proof. unfold executeFailoverInternal_code, executeFailoverInternal. solve_performs. Qed.
#[local] Hint Resolve performs_failover : performs.

Lemma performs_failover_check ev :
  performs (performFailoverCheck_code ev) (performFailoverCheck config configMapName ev).
Proof. unfold performFailoverCheck_code, performFailoverCheck. solve_performs. Qed.

Lemma performs_gateway : performs reconcileGateway_code (reconcileGateway config configMapName).
Proof. unfold reconcileGateway_code, reconcileGateway. solve_performs. Qed.

Lemma performs_prestop_loop n e :
  performs (prestop_loop_code n e) (prestop_loop config configMapName n e).
Proof. induction n as [|n IH]; cbn [prestop_loop_code prestop_loop]; solve_performs. Qed.
#[local] Hint Resolve performs_failover_check performs_gateway performs_prestop_loop : performs.

Lemma performs_prestop n e :
  performs (HandlePreStopHook_code n e) (HandlePreStopHook config configMapName n e).
Proof. unfold HandlePreStopHook_code, HandlePreStopHook. solve_performs. Qed.

Lemma performs_register t p n :
  performs (register_replica_code t p n) (register_replica config configMapName t p n).
Proof. unfold register_replica_code, register_replica. solve_performs. Qed.
#[local] Hint Resolve performs_prestop performs_register : performs.

Lemma performs_replica t m rm b p :
  performs (reconcile_replica_code t m rm b p) (reconcile_replica config configMapName t m rm b p).
Proof. unfold reconcile_replica_code, reconcile_replica. solve_performs. Qed.
#[local] Hint Resolve performs_replica : performs.

Lemma performs_replicas t e :
  performs (reconcile_replicas_code t e) (reconcile_replicas config configMapName t e).
Proof. unfold reconcile_replicas_code, reconcile_replicas. solve_performs. Qed.
#[local] Hint Resolve performs_replicas : performs.

Lemma performs_locked : performs reconcile_locked_code (reconcile_locked config configMapName).
Proof. unfold reconcile_locked_code, reconcile_locked. solve_performs. Qed.
#[local] Hint Resolve performs_locked : performs.

Lemma trun_run {B} l (c : code B) (m : M (Ctl W) B) k (f : B → M (Ctl W) ()) s :
  performs c m → (∀ b s, trun (k b) s = f b s) → trun (TRun l c k) s = (m ≫= f) s.
Proof. intros Hc Hk. by apply M_bind_ext. Qed.

Lemma trun_act {B} l (m : M (Ctl W) B) k s : trun (TRun l (act m) k) s = (m ≫= λ b, trun (k b)) s.
Proof. by apply trun_run; [apply performs_act|]. Qed.

(** The end of a thread adds nothing. *)
Lemma bind_done {A} (m : M (Ctl W) A) (f : A → M (Ctl W) ()) s :
  (∀ a s, f a s = (mret () : M (Ctl W) ()) s) → (m ≫= f) s = drop_result m s.
Proof. intros Hf. by apply M_bind_ext. Qed.

Lemma bind_unit (m : M (Ctl W) ()) s : drop_result m s = m s.
Proof. unfold drop_result, mbind, M_bind. by destruct (m s) as [[[]|w] s']. Qed.

Lemma trun_reconciliation (k : thread) s :
  trun (reconciliation_thread k) s =
  (_ ← performReconciliationActions config configMapName; trun k) s.
Proof.
  unfold reconciliation_thread, performReconciliationActions. rewrite M_bind_assoc.
  apply trun_run; [auto with performs|]. intros start s1. rewrite M_bind_assoc.
  apply trun_run; [auto with performs|]. intros r s2. rewrite M_bind_assoc.
  by apply trun_run; [auto with performs|].
Qed.

Lemma trun_tick s : trun tick_thread s = drop_result (Run_tick config configMapName) s.
Proof.
  unfold tick_thread, Run_tick, drop_result. rewrite M_bind_assoc.
  apply trun_run; [auto with performs|]. intros [] s1; [|done]. cbn [negb]. rewrite M_bind_assoc.
  apply trun_run; [auto with performs|]. intros [index|e] s2.
  - rewrite trun_reconciliation, M_bind_assoc. done.
  - rewrite M_bind_assoc. apply trun_run; [auto with performs|].
    intros [i|e2] s3; [|done]. case_bool_decide; [done|]. rewrite M_bind_assoc.
    apply trun_run; [auto with performs|]. intros [e3|] s4; [done|].
    rewrite trun_reconciliation, M_bind_assoc. done.
Qed.

(** The worker's round, by the cases of its queue. *)
Lemma trun_failover_queue s :
  trun failover_queue_thread s = processFailoverCheckQueue_step config configMapName s.
Proof.
  unfold failover_queue_thread, processFailoverCheckQueue_step.
  rewrite trun_act. unfold receive_failover. rewrite M_bind_assoc. apply M_bind_ext; [done|].
  intros [fq|] s1; [|done]. destruct (q_receive fq) as [[ev fq1]|]; [|done].
  rewrite M_bind_assoc. apply M_bind_ext; [done|]. intros _ s2. rewrite M_ret_bind.
  unfold handleFailoverCheckEvent.
  rewrite trun_act. apply M_bind_ext; [done|]. intros [] s3; [|done]. cbn [negb].
  rewrite trun_act. unfold admit_failover. rewrite M_bind_assoc. apply M_bind_ext; [done|].
  intros [fq2|] s4; [|done]. rewrite M_bind_assoc. apply M_bind_ext; [done|]. intros now s5.
  destruct (q_admit _ _ _ _) as [[] fq3]; cbn [negb]; [|done].
  rewrite M_bind_assoc. apply M_bind_ext; [done|]. intros _ s6. rewrite M_ret_bind. cbn [negb].
  etrans; [apply (trun_run _ _ (_ ← performFailoverCheck config configMapName (Some ev);
    modify (set_failoverCheckNeeded false)) _ (λ _, mret ())); [|done]|].
  { apply performs_bind; [auto with performs|]. intros _. apply performs_act. }
  rewrite M_bind_assoc. apply M_bind_ext; [done|]. intros _ s7. apply bind_unit.
Qed.
Lemma trun_reconcile_queue s :
  trun reconcile_queue_thread s = processReconcileQueue_step config configMapName s.
Proof.
  unfold reconcile_queue_thread, processReconcileQueue_step.
  rewrite trun_act. unfold receive_reconcile. rewrite M_bind_assoc. apply M_bind_ext; [done|].
  intros [rq|] s1; [|done]. destruct (q_receive rq) as [[ev rq1]|]; [|done].
  rewrite M_bind_assoc. apply M_bind_ext; [done|]. intros _ s2. rewrite M_ret_bind.
  unfold handleReconcileEvent.
  rewrite trun_act. apply M_bind_ext; [done|]. intros [] s3; [|done]. cbn [negb].
  rewrite trun_act. unfold admit_reconcile. rewrite M_bind_assoc. apply M_bind_ext; [done|].
  intros [rq2|] s4; [|done]. rewrite M_bind_assoc. apply M_bind_ext; [done|]. intros now s5.
  destruct (q_admit _ _ _ _) as [[] rq3]; cbn [negb]; [|done].
  rewrite M_bind_assoc. apply M_bind_ext; [done|]. intros _ s6. rewrite M_ret_bind. cbn [negb].
  apply trun_reconciliation.
Qed.

Lemma performs_request r : performs (request_code r) (drop_result (serve config configMapName r)).
Proof.
  unfold request_code, runs_prestop, serve. destruct (route_of (rq_Path r)); try apply performs_act.
  unfold handlePreStopHook, only_method.
  destruct (decide (rq_Method r = "POST")) as [->|Hm].
  2:{ rewrite bool_decide_eq_false_2 by done. apply performs_act. }
  rewrite bool_decide_eq_true_2, bool_decide_eq_false_2 by auto. cbn [andb].
  destruct (authorized config r); [|apply performs_act]. cbn [negb]. intros s.
  unfold drop_result. rewrite M_bind_assoc, crun_bind.
  apply M_bind_ext; [apply performs_prestop|]. by intros [err|] s1.
Qed.

Lemma performs_health : performs health_code (drop_result (performHealthCheck config configMapName)).
Proof.
  intros s. unfold health_code, performHealthCheck, drop_result. rewrite M_bind_assoc, crun_bind.
  apply M_bind_ext; [apply performs_act|]. intros [] s1; cbn [negb].
  - rewrite M_bind_assoc, crun_bind. apply M_bind_ext; [apply performs_act|]. intros _ s2.
    rewrite crun_bind. by apply M_bind_ext; [apply performs_act|].
  - rewrite crun_bind. by apply M_bind_ext; [apply performs_act|].
Qed.

End Goroutines.
