(* ===== verification/Concurrency.v ===== *)
(** * The controller under concurrency

    The threads of Goroutines.v in a pool, with the contract of Contract.v as
    what every step may do.  A thread that holds [operationMu] knows the target
    index, the identity of the nodes and whether the read/write gateway is
    closed ([Key]); the other threads leave that alone, except that a preStop
    request may close the gateway at any time ([steady]).

    So the contract holds for every interleaving of the actions, not only of
    whole operations: a failover that other goroutines interrupt still promotes
    the right pod behind a closed gateway.  What does not survive is the promise
    of the preStop hook that the gateway stays closed. *)

From stdpp Require Import relations.
From S2P Require Import Prelude.
From S2P Require Import GoStrings.
From S2P Require Import DataInfo.
From S2P Require Import Pods.
From S2P Require Import Config.
From S2P Require Import World.
From S2P Require Import MemgraphClient.
From S2P Require Import MemgraphNode.
From S2P Require Import GatewayServer.
From S2P Require Import Metrics.
From S2P Require Import Queues.
From S2P Require Import LeaderElection.
From S2P Require Import ProberState.
From S2P Require Import ControllerState.
From S2P Require Import Controller.
From S2P Require Import Sim.
From S2P Require Import Failover.
From S2P Require Import Cluster.
From S2P Require Import Health.
From S2P Require Import Reconcile.
From S2P Require Import Prober.
From S2P Require Import HttpApi.
From S2P Require Import Contract.
From S2P Require Import Threads.
From S2P Require Import System.
From S2P Require Import Goroutines.

(** What the holder of the mutex knows. *)
Record Key := mkKey {
  key_target : Z;
  key_nodes : node_ids;
  key_closed : bool;   (* the read/write gateway has no upstream *)
}.

Definition key_names (κ : Key) : gset string := dom (default ∅ (key_nodes κ)).

Section Concurrency.
Context {W : Type} `{World W} `{!WorldOrder W}.
Context (config : Config) (configMapName : string) (rg : bool).

#[local] Abbreviation refines := (refines config).
#[local] Abbreviation sound := (sound (W := W)).

Definition controller_inv (s : Ctl W) : Prop := sound s ∧ running rg s.

Definition key_at (κ : Key) (s : Ctl W) : Prop :=
  controller_inv s ∧ ctl_targetMainIndex s = key_target κ ∧ ids s = key_nodes κ ∧
  (key_closed κ = true → upstream false s = Some "").

Definition key_of (closed : bool) (s : Ctl W) : Key := mkKey (ctl_targetMainIndex s) (ids s) closed.

Lemma key_of_at s : controller_inv s → key_at (key_of false s) s.
Proof. intros HI. by split. Qed.

Lemma key_at_stable κ s s' : key_at κ s → steady s s' → controller_inv s' → key_at κ s'.
Proof.
  intros (_ & Ht & Hn & Hc) (It & In & Iu) HI. split; [done|]. split; [congruence|].
  split; [congruence|]. intros Hκ. destruct Iu as [->| ->]; auto.
Qed.

(** The discipline of [operationMu]. *)
#[local] Instance controller_discipline : Discipline (Ctl W) Key := {
  d_inv := controller_inv;
  d_step := refines;
  d_steady := steady;
  d_at := key_at;
  d_step_preorder := refines_preorder config;
  d_steady_refl s := reflexivity s;
  d_key s HI := ex_intro _ (key_of false s) (key_of_at s HI);
  d_at_inv κ s Hκ := proj1 Hκ;
  d_stable := key_at_stable;
}.

#[local] Abbreviation I κ := (initialized (W := W) (key_names κ) rg).

Lemma key_sound κ s : key_at κ s → sound s.
Proof. by intros [[? _] _]. Qed.

Lemma key_initialized κ s : key_at κ s → I κ s.
Proof.
  intros ((_ & X & HX) & _ & Hn & _). pose proof HX as [(nodes & Hc & Hd) _].
  assert (key_names κ = X) as ->; [|done].
  unfold key_names. rewrite <- Hn. unfold ids. rewrite Hc. simpl. by rewrite dom_fmap_L.
Qed.

Lemma key_name κ s k : key_at κ s → k ∈ key_names κ → ∃ n, node_at s k = Some n.
Proof.
  intros (_ & _ & Hn & _). unfold key_names. rewrite <- Hn. unfold ids, node_at.
  destruct (ctl_cluster s) as [nodes|]; simpl; [|set_solver].
  rewrite dom_fmap_L. by intros [n Hk]%elem_of_dom; exists n.
Qed.

Lemma key_view κ s :
  key_at κ s → view s = mkAbs (key_target κ) (key_nodes κ) (default "" (upstream false s)).
Proof. intros (_ & Ht & Hn & _). unfold view. by rewrite Ht, Hn. Qed.

Lemma key_view_closed κ s :
  key_at κ s → key_closed κ = true → view s = mkAbs (key_target κ) (key_nodes κ) "".
Proof. intros Hκ Hc. rewrite (key_view κ s Hκ). destruct Hκ as (_ & _ & _ & Hu). by rewrite Hu. Qed.

(** ** Rules for the actions *)

(** An action that keeps the key. *)
Lemma held_keep {B} (m : M (Ctl W) B) Φ κ :
  (∀ s, key_at κ s → ∃ b s', m s = (Ret b, s') ∧ refines s s' ∧ steady s s' ∧ I κ s' ∧ Φ b) →
  held_act m (λ b κ', κ' = κ ∧ Φ b) κ.
Proof.
  intros Hm s Hκ. destruct (Hm s Hκ) as (b & s' & Hr & HR & HS & HI & HΦ).
  exists b, s', κ. split; [done|]. split; [done|]. split; [|done].
  eapply d_stable; [exact Hκ|exact HS|]. split; [|by exists (key_names κ)].
  eapply refines_sound; [exact HR|by eapply key_sound].
Qed.

(** Reads, and switches of the read-only gateway. *)
Lemma held_calm {B} (P : io → Prop) (m : M (Ctl W) B) Φ κ :
  (∀ e, P e → calm e) → keeps (effects P) m → safe (I κ) m Φ →
  held_act m (λ b κ', κ' = κ ∧ Φ b) κ.
Proof.
  intros HP Hm Hs. apply held_keep. intros s Hκ.
  destruct (Hs s (key_initialized κ s Hκ)) as (b & s' & Hr & HI & HΦ). exists b, s'.
  pose proof (keeps_run _ _ _ _ _ Hm Hr) as E. pose proof (sound_loaded _ (key_sound _ _ Hκ)) as Hi.
  assert (effects calm s s') as Ec by (by eapply effects_mono).
  split; [done|]. split; [by apply (refines_calm config P)|]. split; [|done].
  split; [by apply calm_index|].
  split; [apply (effects_ids _ _ _ Ec)|left; unfold upstream; f_equal; apply (effects_gateway _ _ _ _ Ec)];
    intros e [(? & ? & -> & _)|[(? & ->)| ->]]; (discriminate || by intros []).
Qed.

Lemma held_reads {B} (m : M (Ctl W) B) Φ κ :
  keeps (effects reads) m → safe (I κ) m Φ → held_act m (λ b κ', κ' = κ ∧ Φ b) κ.
Proof. apply held_calm. by left. Qed.

(** What the result tells of a state with this key. *)
Lemma held_learn {B} (m : M (Ctl W) B) Φ (Θ : B → Prop) κ :
  held_act m (λ b κ', κ' = κ ∧ Φ b) κ →
  (∀ s b s', key_at κ s → m s = (Ret b, s') → Θ b) →
  held_act m (λ b κ', κ' = κ ∧ Φ b ∧ Θ b) κ.
Proof.
  intros Hm HΘ s Hκ. destruct (Hm s Hκ) as (b & s' & κ' & Hr & HR & Hκ' & -> & HΦ).
  exists b, s', κ. eauto 10.
Qed.

Lemma held_index κ :
  held_act (GetTargetMainIndex config configMapName) (λ b κ', κ' = κ ∧ True ∧ b = Ok (key_target κ)) κ.
Proof.
  apply held_learn.
  { apply (held_reads _ anything); [apply keeps_GetTargetMainIndex|eauto with safe]. }
  intros s b s' Hκ. rewrite GetTargetMainIndex_loaded by (by eapply sound_loaded, key_sound).
  intros [= <- _]. by destruct Hκ as (_ & -> & _).
Qed.

Definition main_of (κ : Key) : string := GetPodName config (key_target κ).
Definition standby_of (κ : Key) : string := GetPodName config (1 - key_target κ).

Lemma held_main κ :
  held_act (getTargetMainNode config configMapName)
    (λ b κ', κ' = κ ∧ name_in (key_names κ) b ∧ ∀ k, b = Ok k → k = main_of κ) κ.
Proof.
  apply held_learn.
  { apply held_reads; [apply keeps_getTargetMainNode|apply safe_getTargetMainNode]. }
  intros s b s' Hκ Hr k ->. apply getTargetMainNode_ok in Hr as (_ & -> & _);
    [|by eapply sound_loaded, key_sound]. by destruct Hκ as (_ & -> & _).
Qed.

Lemma held_find k κ : held_act (find_node k) (λ n κ', κ' = κ ∧ (is_Some n → k ∈ key_names κ)) κ.
Proof. apply held_reads; [apply keeps_find_node|apply safe_find_node]. Qed.

(** A field of a node. *)
Lemma held_field {B} k (f : MemgraphNode → B) κ :
  k ∈ key_names κ →
  held_act (on_node k (field f)) (λ b κ', κ' = κ ∧ True ∧ ∃ s n, key_at κ s ∧ node_at s k = Some n ∧ b = f n) κ.
Proof.
  intros Hk. apply held_learn.
  { apply (held_reads _ anything); [by apply keeps_node_field|]. apply safe_on_node; [done|eauto with safe]. }
  intros s b s' Hκ Hr. apply on_node_field_run in Hr as (_ & n & Hn & ->). by exists s, n.
Qed.

Lemma held_name k κ : k ∈ key_names κ → held_act (GetName k) (λ b κ', κ' = κ ∧ b = k) κ.
Proof.
  intros Hk s Hκ. destruct (held_field k mn_name κ Hk s Hκ) as (b & s' & κ' & Hr & HR & Hκ' & -> & _ & s1 & n & H1 & Hn & ->).
  eexists _, s', κ. split; [done|]. split; [done|]. split; [done|]. split; [done|].
  by apply (sound_named s1 (key_sound _ _ H1)).
Qed.

Lemma held_bolt k κ :
  k ∈ key_names κ →
  held_act (on_node k (field GetBoltAddress))
    (λ b κ', κ' = κ ∧ ∀ a, b = Ok a → address_in (key_nodes κ) k a) κ.
Proof.
  intros Hk s Hκ. destruct (held_field k GetBoltAddress κ Hk s Hκ) as (b & s' & κ' & Hr & HR & Hκ' & -> & _ & s1 & n & H1 & Hn & ->).
  eexists _, s', κ. split; [done|]. split; [done|]. split; [done|]. split; [done|].
  unfold GetBoltAddress. intros a. case_bool_decide; [done|]. intros [= <-].
  destruct H1 as (_ & _ & <- & _). by apply address_in_node.
Qed.
(** A method of a node, whose queries go to the node's own address. *)
Lemma held_node {B} k (m : M (NodeNet W) B) (Q : string → Prop) Φ κ :
  k ∈ key_names κ → keeps (node_step Q) m → safe anywhere m Φ →
  (∀ w a q, (key_closed κ = true → w = "") → address_in (key_nodes κ) k a → Q q →
     spec_step config (mkAbs (key_target κ) (key_nodes κ) w) (IoQuery a q)
                      (mkAbs (key_target κ) (key_nodes κ) w)) →
  held_act (on_node k m) (λ b κ', κ' = κ ∧ Φ b) κ.
Proof.
  intros Hk Hm Hs Hspec. apply held_keep. intros s Hκ.
  destruct (safe_on_node _ rg k m Φ Hk Hs s (key_initialized κ s Hκ)) as (b & s' & Hr & HI & HΦ).
  set (P := λ e, ∃ a q, e = IoQuery a q ∧ address_in (key_nodes κ) k a ∧ Q q).
  pose proof (sound_loaded _ (key_sound _ _ Hκ)) as Hi.
  assert (effects P s s') as E.
  { replace s' with ((on_node k m s).2) by (by rewrite Hr). apply (on_node_effects P Q); [done|].
    intros n q Hn _ Hq. eexists _, q. split; [done|]. split; [|done].
    destruct Hκ as (_ & _ & <- & _). by apply (address_in_node s k n). }
  assert (∀ e, P e → ¬ touches_gateway false e ∧ ¬ is_configmap e ∧ ¬ is_refresh e) as HP.
  { intros e (a & q & -> & _). split; [by intros []|]. split; [by intros []|discriminate]. }
  exists b, s'. split; [done|]. split; [|split; [|done]].
  - apply (refines_stay config P); [done|done| |done]. intros e (a & q & -> & Ha & Hq).
    rewrite (key_view κ s Hκ). apply Hspec; [|done|done].
    destruct Hκ as (_ & _ & _ & Hu). intros Hc. by rewrite Hu.
  - split; [apply (effects_index _ _ _ E); [apply HP|done]|].
    split; [apply (effects_ids _ _ _ E), HP|left; unfold upstream].
    by rewrite (effects_gateway _ _ _ false E) by apply HP.
Qed.

Lemma held_node_read {B} k (m : M (NodeNet W) B) Φ κ :
  k ∈ key_names κ → keeps (node_step read_query) m → safe anywhere m Φ →
  held_act (on_node k m) (λ b κ', κ' = κ ∧ Φ b) κ.
Proof. intros Hk Hm Hs. apply (held_node k m read_query Φ κ Hk Hm Hs). intros. by apply sp_read. Qed.

Lemma held_promote κ :
  key_closed κ = true → standby_of κ ∈ key_names κ →
  held_act (on_node (standby_of κ) (SetToMainRole config)) (λ _ κ', κ' = κ ∧ True) κ.
Proof.
  intros Hc Hk. apply (held_node _ _ (λ q, q = q_promote) anything κ Hk);
    [by apply keeps_SetToMainRole|apply safe_SetToMainRole|].
  intros w a q Hw Ha ->. rewrite Hw by done. by apply sp_promote.
Qed.

Lemma held_demote k κ :
  k ∈ key_names κ → k ≠ main_of κ →
  held_act (on_node k (SetToReplicaRole config)) (λ _ κ', κ' = κ ∧ True) κ.
Proof.
  intros Hk Hne. apply (held_node _ _ (λ q, q = q_demote) anything κ Hk);
    [by apply keeps_SetToReplicaRole|apply safe_SetToReplicaRole|].
  intros w a q _ Ha ->. by eapply sp_demote.
Qed.

Lemma held_register n a mode κ :
  main_of κ ∈ key_names κ → mode = "STRICT_SYNC" ∨ mode = "ASYNC" →
  held_act (on_node (main_of κ) (RegisterReplica config n a mode)) (λ _ κ', κ' = κ ∧ True) κ.
Proof.
  intros Hk Hm. apply (held_node _ _ (λ q, q = q_register n mode a) anything κ Hk);
    [by apply keeps_RegisterReplica|apply safe_RegisterReplica|].
  intros w b q _ Hb ->. apply sp_register; [done|]. left. eauto.
Qed.

Lemma held_drop n κ :
  main_of κ ∈ key_names κ →
  held_act (on_node (main_of κ) (DropReplica config n)) (λ _ κ', κ' = κ ∧ True) κ.
Proof.
  intros Hk. apply (held_node _ _ (λ q, q = q_drop n) anything κ Hk);
    [by apply keeps_DropReplica|apply safe_DropReplica|].
  intros w b q _ Hb ->. apply sp_register; [done|]. right. eauto.
Qed.

(** The switches of the read/write gateway. *)
Definition with_closed (b : bool) (κ : Key) : Key := mkKey (key_target κ) (key_nodes κ) b.

Lemma held_set_write a (closed : bool) κ :
  (if closed then a = "" else address_in (key_nodes κ) (main_of κ) a) →
  held_act (gw_SetUpstreamAddress false a) (λ _ κ', κ' = with_closed closed κ) κ.
Proof.
  intros Ha s Hκ.
  destruct (safe_gw_SetUpstreamAddress _ rg false a ltac:(done) s (key_initialized κ s Hκ))
    as (b & s' & Hr & HI & _).
  exists b, s', (with_closed closed κ). split; [done|]. unfold gw_SetUpstreamAddress in Hr.
  destruct (gateway_of false s) as [g|]; [|done]. injection Hr as _ <-. set (s' := add_trace _ _) in *.
  assert (upstream false s' = Some a) as Hu
    by (unfold upstream; simpl; by rewrite SetUpstreamAddress_upstream).
  assert (refines s s') as HR.
  { apply (refines_one config (IoGateway false a)); [done|].
    assert (view s' = mkAbs (key_target κ) (key_nodes κ) a) as ->.
    { destruct Hκ as (_ & <- & <- & _). unfold view. by rewrite Hu. }
    rewrite (key_view κ s Hκ). destruct closed; [subst a; apply sp_close|by apply sp_open]. }
  split; [done|]. split; [|done]. pose proof (refines_sound _ _ _ HR (key_sound _ _ Hκ)) as Hs'.
  destruct Hκ as (_ & Ht & Hn & _). split; [split; [done|by exists (key_names κ)]|].
  split; [done|]. split; [done|]. simpl. intros ->. by rewrite Hu, Ha.
Qed.

(** The flip of the index, with the gateway closed. *)
Definition flipped (κ : Key) : Key := mkKey (1 - key_target κ) (key_nodes κ) true.

Lemma held_flip κ :
  key_closed κ = true →
  held_act (SetTargetMainIndex config configMapName (1 - key_target κ))
    (λ e κ', κ' = if is_nil e then flipped κ else κ) κ.
Proof.
  intros Hc s Hκ. pose proof Hκ as (_ & Ht & Hn & Hu). specialize (Hu Hc).
  destruct (safe_SetTargetMainIndex config configMapName _ rg (1 - key_target κ) s
    (key_initialized κ s Hκ)) as (e & s' & Hr & HI & _).
  exists e, s'. rewrite <- Ht in Hr.
  pose proof (flip_refines config configMapName s e s' (sound_two_pods _ (key_sound _ _ Hκ)) Hu Hr)
    as (HR & _ & Hids & Hu' & Hi).
  pose proof (refines_sound _ _ _ HR (key_sound _ _ Hκ)) as Hs'.
  assert (controller_inv s') as HI' by (split; [done|by exists (key_names κ)]).
  rewrite Ht in Hr. eexists. split; [exact Hr|]. split; [exact HR|]. split; [|reflexivity].
  split; [done|]. destruct e as [e|]; simpl.
  - rewrite <- Ht in Hr. apply SetTargetMainIndex_inv in Hr as (_ & _ & Hi' & _).
    split; [congruence|]. split; [congruence|done].
  - split; [rewrite <- Ht; by apply Hi|]. split; [congruence|done].
Qed.

(** The refresh of the nodes. *)
Lemma held_refresh κ :
  held_act Refresh (λ _ κ', key_target κ' = key_target κ ∧ key_closed κ' = key_closed κ) κ.
Proof.
  intros s Hκ. pose proof Hκ as ([Hs Hrun] & Ht & Hn & Hu).
  destruct (safe_Refresh rg s Hrun) as ([] & s' & Hr & HI & _).
  pose proof (keeps_run _ _ _ _ _ (keeps_Refresh is_refresh eq_refl) Hr) as E.
  pose proof (sound_loaded _ Hs) as Hi.
  assert (refines s s') as HR.
  { apply (refines_refresh config); [done| |done].
    by eapply named_Refresh; [apply sound_named|]. }
  pose proof (refines_sound _ _ _ HR Hs) as Hs'.
  exists (), s', (mkKey (key_target κ) (ids s') (key_closed κ)).
  split; [done|]. split; [done|]. split; [|done]. split; [done|]. simpl.
  split; [rewrite (effects_index _ _ _ E); [done| |done]; intros e -> []|]. split; [done|].
  unfold upstream. rewrite (effects_gateway _ _ _ false E); [done|]. intros e -> [].
Qed.

(** Changes of the state outside of the key. *)
Lemma held_modify (f : Ctl W → Ctl W) κ :
  (∀ s, trace_of (f s) = trace_of s ∧ view (f s) = view s ∧ upstream false (f s) = upstream false s) →
  (∀ s, I κ s → I κ (f s)) →
  held_act (modify f) (λ _ κ', κ' = κ ∧ True) κ.
Proof.
  intros Hf HI. apply held_keep. intros s Hκ. destruct (Hf s) as (HT & HV & HU).
  exists (), (f s). split; [done|]. split; [by apply refines_quiet|]. split; [by apply steady_view|].
  split; [|done]. by apply HI, key_initialized.
Qed.
(** ** The codes under the mutex *)

Definition two (κ : Key) : Prop := key_target κ = 0%Z ∨ key_target κ = 1%Z.

Lemma two_int32 κ : two κ → int32 (1 - key_target κ) = (1 - key_target κ)%Z.
Proof. by intros [-> | ->]. Qed.

Lemma two_flipped κ : two κ → two (flipped κ).
Proof. by intros [Ht|Ht]; [right|left]; simpl; rewrite Ht. Qed.

(** [hcall L as pat]: the next action, by the rule [L]. *)
Tactic Notation "hcall" uconstr(L) "as" simple_intropattern(b) simple_intropattern(Hb) :=
  eapply held_call; [apply held_act_intro; apply L|intros b ? Hb].

Lemma held_healthy_role p κ : held_act (getHealthyRole config p) (λ _ κ', κ' = κ ∧ True) κ.
Proof. apply (held_reads _ anything); [by apply keeps_getHealthyRole|apply safe_getHealthyRole]. Qed.

Lemma held_ping p κ : held_act (lastChancePing config p) (λ _ κ', κ' = κ ∧ True) κ.
Proof. apply (held_reads _ anything); [by apply keeps_lastChancePing|apply safe_lastChancePing]. Qed.

Lemma held_role k b κ :
  k ∈ key_names κ → held_act (on_node k (GetReplicationRole config b)) (λ _ κ', κ' = κ ∧ True) κ.
Proof.
  intros Hk. apply (held_node_read k _ anything); [done| |apply safe_GetReplicationRole].
  apply keeps_GetReplicationRole. unfold read_query; set_solver.
Qed.

Lemma held_replicas k b κ :
  k ∈ key_names κ →
  held_act (on_node k (GetReplicas config b)) (λ r κ', κ' = κ ∧ (b = true → all_parsed r)) κ.
Proof.
  intros Hk. apply held_node_read; [done| |].
  - apply keeps_GetReplicas; unfold read_query; set_solver.
  - destruct b; [eapply safe_mono; [apply safe_GetReplicas_fresh|done]|].
    eapply safe_mono; [apply safe_GetReplicas|done].
Qed.

Lemma held_update κ : held_act (updateReadGatewayUpstream config configMapName) (λ _ κ', κ' = κ ∧ True) κ.
Proof. apply (held_calm calm _ anything); [done|apply keeps_calm_update|by apply safe_updateReadGatewayUpstream]. Qed.

Lemma held_gw_nil κ : held_act (gw_nil true) (λ b κ', κ' = κ ∧ b = negb rg) κ.
Proof. apply held_reads; [apply keeps_gw_nil|apply safe_gw_nil]. Qed.

Lemma held_set_read a κ : rg = true → held_act (gw_SetUpstreamAddress true a) (λ _ κ', κ' = κ ∧ True) κ.
Proof.
  intros Hrg. apply (held_calm calm _ anything); [done| |by apply safe_gw_SetUpstreamAddress].
  apply keeps_gw_SetUpstreamAddress. right. left. eauto.
Qed.

(** The protection of the read-only gateway disconnects and closes it. *)
Lemma held_protect p κ : held_act (protectReadGatewayBeforeRoleChange p) (λ _ κ', κ' = κ ∧ True) κ.
Proof.
  apply (held_calm calm _ anything); [done| |apply safe_protect].
  assert (calm (IoDisconnect true)) by (by right; right).
  pose proof (λ a, keeps_gw_SetUpstreamAddress (W := W) calm true a (or_intror (or_introl (ex_intro _ a eq_refl)))).
  pose proof (keeps_gw_DisconnectAll (W := W) calm true).
  assert (∀ e, reads e → calm e) by (by left). unfold protectReadGatewayBeforeRoleChange.
  solve_keeps.
Qed.

(** What the checks of a failover return. *)
Definition checked_ok (κ : Key) (r : result (Z * string * string)) : Prop :=
  match r with
  | Ok (i, name, _) => i = (1 - key_target κ)%Z ∧ name = standby_of κ ∧ name ∈ key_names κ
  | Err _ => True
  end.

Lemma held_checks κ :
  two κ → held (λ r κ', κ' = κ ∧ checked_ok κ r) (failover_checks_code config configMapName) κ.
Proof.
  intros Htwo. unfold failover_checks_code.
  hcall held_index as idx (-> & _ & ->). rewrite two_int32 by done.
  hcall held_healthy_role as [role healthy] [-> _]. destruct (negb healthy); [done|].
  hcall held_main as main (-> & Hmain & _). destruct main as [main|e]; [simpl in Hmain|done].
  hcall held_replicas as rs [-> _]; [done|]. destruct rs as [rs|e]; [|done].
  hcall held_find as node [-> Hn]. destruct node as [node|]; [|done].
  specialize (Hn ltac:(eauto)).
  hcall held_field as name (-> & _ & _); [done|]. destruct (check_replicas _ _ _) as [e|]; [done|].
  hcall held_ping as e [-> _]. by destruct e.
Qed.

Lemma held_close κ : held (λ _ κ', κ' = with_closed true κ) close_gateways_code κ.
Proof.
  unfold close_gateways_code. hcall (held_set_write "" true) as u ->; [done|].
  hcall held_gw_nil as b [-> ->]. destruct (negb rg) eqn:Hrg; [done|]. apply negb_false_iff in Hrg.
  apply held_act_intro. eapply held_act_mono; [by apply held_set_read|]. by intros ? ? [].
Qed.

Lemma held_promotion κ :
  two κ → key_closed κ = true →
  held (λ _ κ', κ' = κ) (promoteSyncReplica_code config configMapName) κ.
Proof.
  intros Htwo Hc. unfold promoteSyncReplica_code.
  hcall held_index as idx (-> & _ & ->). rewrite two_int32 by done.
  hcall held_protect as u [-> _].
  hcall held_find as node [-> Hn]. destruct node as [node|]; [|done]. specialize (Hn ltac:(eauto)).
  hcall held_promote as e [-> _]; [done|done|]. destruct e as [e|]; [done|].
  hcall held_role as r [-> _]; [done|]. destruct r as [role [e|]]; [done|]. by case_bool_decide.
Qed.

Lemma held_open κ :
  main_of κ ∈ key_names κ →
  held (λ _ κ', key_target κ' = key_target κ ∧ key_nodes κ' = key_nodes κ)
    (open_gateways_code config configMapName (main_of κ)) κ.
Proof.
  intros Hk. unfold open_gateways_code.
  hcall held_bolt as a [-> Ha]; [done|]. destruct a as [a|e]; [|done].
  hcall (held_set_write a false) as u ->; [by apply Ha|].
  apply held_act_intro. eapply held_act_mono; [apply held_update|]. by intros ? ? [-> _].
Qed.

Lemma held_failover κ :
  two κ → held (λ _ κ', two κ' ∧ key_nodes κ' = key_nodes κ)
    (executeFailoverInternal_code config configMapName) κ.
Proof.
  intros Htwo. unfold executeFailoverInternal_code.
  eapply held_call; [by apply held_checks|]. intros r ? [-> Hr].
  destruct r as [[[i name] role]|e]; [|done]. destruct Hr as (-> & -> & Hk).
  eapply held_call; [apply held_close|]. intros _ ? ->. set (κ1 := with_closed true κ).
  eapply held_call with (P := λ _ κ', κ' = κ1).
  { case_bool_decide; [done|]. by apply held_promotion. }
  intros [e|] ? ->; [done|].
  hcall (held_flip κ1) as e ->; [done|]. destruct e as [e|]; [done|]. cbn [is_nil].
  change (standby_of κ) with (main_of (flipped κ1)).
  eapply held_call; [by apply held_open|]. intros _ κ' [Ht Hn]. split; [|done].
  unfold two. rewrite Ht. by apply (two_flipped κ1).
Qed.

Lemma held_failover_check ev κ :
  two κ → held (λ _ κ', two κ' ∧ key_nodes κ' = key_nodes κ)
    (performFailoverCheck_code config configMapName ev) κ.
Proof.
  intros Htwo. unfold performFailoverCheck_code. hcall held_index as idx (-> & _ & ->).
  eapply held_call with (P := λ _ κ', κ' = κ).
  { destruct ev as [ev|].
    - case_bool_decide; [|done]. by hcall held_ping as e [-> _].
    - by hcall held_healthy_role as hr [-> _]. }
  intros [] ? ->; [done|]. eapply held_call; [by apply held_failover|]. by intros [e|] κ' Hκ'.
Qed.
(** ** Reconciliation *)

Lemma held_pod p κ : held_act (getPodFromCache config p) (λ _ κ', κ' = κ ∧ True) κ.
Proof. apply (held_reads _ anything); [apply keeps_getPodFromCache|apply safe_getPodFromCache]. Qed.

Lemma held_sync κ :
  held_act (getTargetSyncReplicaNode config configMapName) (λ r κ', κ' = κ ∧ name_in (key_names κ) r) κ.
Proof. apply held_reads; [apply keeps_getTargetSyncReplicaNode|apply safe_getTargetSyncReplicaNode]. Qed.

Lemma held_nodes κ : held_act get_nodes (λ nodes κ', κ' = κ ∧ dom nodes = key_names κ) κ.
Proof. apply held_reads; [apply keeps_get_nodes|apply safe_get_nodes]. Qed.

Lemma held_keys (nodes : gmap string MemgraphNode) κ :
  dom nodes = key_names κ →
  held_act (cnet (range_keys nodes)) (λ keys κ', κ' = κ ∧ ∀ k, k ∈ keys → k ∈ key_names κ) κ.
Proof. intros Hd. apply held_reads; [apply keeps_keys|by apply safe_keys]. Qed.

Lemma held_pods κ : held_act getPodsFromCache (λ _ κ', κ' = κ ∧ True) κ.
Proof. apply (held_reads _ anything); [apply keeps_getPodsFromCache|apply safe_getPodsFromCache]. Qed.

Lemma held_collect t acc k κ :
  k ∈ key_names κ → held_act (collect_main config t acc k) (λ _ κ', κ' = κ ∧ True) κ.
Proof.
  intros Hk. apply (held_reads _ anything); [by apply keeps_collect_main|].
  unfold collect_main. solve_safe.
Qed.

Lemma held_record_error κ : held_act record_error (λ _ κ', κ' = κ ∧ True) κ.
Proof. apply (held_reads _ anything); [apply keeps_record_error|apply safe_prom]. Qed.

Lemma held_is_healthy κ : held_act (isHealthy config configMapName) (λ _ κ', κ' = κ ∧ True) κ.
Proof. apply (held_reads _ anything); [by apply keeps_isHealthy|apply safe_isHealthy]. Qed.

Lemma held_has_gateway κ : held_act (gw_nil false) (λ _ κ', κ' = κ ∧ True) κ.
Proof. apply (held_reads _ anything); [apply keeps_gw_nil|apply safe_gets]. Qed.

Lemma held_register_replica p n κ :
  main_of κ ∈ key_names κ → p ∈ key_names κ →
  held (λ _ κ', κ' = κ) (register_replica_code config configMapName (main_of κ) p n) κ.
Proof.
  intros Ht Hp. unfold register_replica_code.
  hcall held_sync as sy [-> Hsy]. destruct sy as [sy|e]; [simpl in Hsy|done].
  hcall held_name as ? [-> ->]; [done|]. hcall held_name as ? [-> ->]; [done|].
  hcall held_field as addr (-> & _ & _); [done|]. hcall held_name as ? [-> ->]; [done|].
  hcall held_nodes as nodes [-> Hd]. hcall held_keys as keys [-> Hkeys]; [done|].
  eapply held_call with (P := λ _ κ', κ' = κ).
  { apply held_foldM; [done|]. intros acc k ? Hin ->. apply held_act_intro.
    eapply held_act_mono; [apply held_collect; auto|]. by intros ? ? []. }
  intros mains ? ->. hcall held_pods as pods [-> _]. hcall held_nodes as nodes' [-> _].
  case_bool_decide; [done|]. case_bool_decide; [done|].
  hcall held_register as e [-> _]; [done|case_bool_decide; auto|].
  destruct e as [e|]; [|done]. destruct (diverged_error e); [done|].
  by hcall held_drop as r [-> _].
Qed.

Lemma held_reconcile_replica rm b p κ :
  main_of κ ∈ key_names κ → p ∈ key_names κ →
  held (λ _ κ', κ' = κ)
    (reconcile_replica_code config configMapName (main_of κ) (main_of κ) rm b p) κ.
Proof.
  intros Ht Hp. unfold reconcile_replica_code. case_bool_decide as Hne; [done|].
  hcall held_pod as pod [-> _]. destruct pod as [pod|e]; [|done].
  destruct (_ && _); [done|]. hcall held_role as r [-> _]; [done|].
  destruct r as [role [e|]]; [done|].
  eapply held_call with (P := λ _ κ', κ' = κ).
  { case_bool_decide; [|done]. by hcall held_demote as e [-> _]. }
  intros demoted ? ->. destruct (negb demoted); [done|].
  hcall held_field as name (-> & _ & _); [done|]. destruct (rm !! name); [done|].
  destruct (isPodTerminating _); [done|].
  eapply held_call; [by apply held_register_replica|]. by intros _ ? ->.
Qed.

Lemma held_gateway κ : held (λ _ _, True) (reconcileGateway_code config configMapName) κ.
Proof.
  unfold reconcileGateway_code. hcall held_has_gateway as b [-> _]. destruct b; [done|].
  hcall held_main as t (-> & Ht & Heq). destruct t as [t|e]; [simpl in Ht|done].
  rewrite (Heq t eq_refl) in *. hcall held_name as ? [-> ->]; [done|].
  hcall held_pod as pod [-> _]. destruct pod as [pod|e]; [|done].
  destruct (negb _); [done|]. destruct (negb _); [done|].
  hcall held_bolt as a [-> Ha]; [done|]. destruct a as [a|e]; [|done].
  hcall held_is_healthy as e [-> _]. destruct e as [e|]; [done|].
  by hcall (held_set_write a false) as u ->; [apply Ha|].
Qed.

Lemma held_log rs k κ :
  all_parsed (Ok rs) → held_act (log_replica (replica_map rs) k) (λ _ κ', κ' = κ ∧ True) κ.
Proof.
  intros Hrs. apply (held_reads _ anything); [|by apply safe_log_replica].
  unfold log_replica. solve_keeps.
Qed.

Lemma held_reconcile_replicas e κ :
  main_of κ ∈ key_names κ →
  held (λ _ _, True) (reconcile_replicas_code config configMapName (main_of κ) e) κ.
Proof.
  intros Ht. unfold reconcile_replicas_code. hcall held_update as u [-> _].
  hcall held_replicas as rs [-> Hrs]; [done|]. specialize (Hrs eq_refl).
  destruct rs as [rs|e']; [|done].
  hcall (held_reads (cnet (range_keys (replica_map rs))) anything) as rkeys [-> _];
    [apply keeps_keys|eapply safe_mono; [apply safe_any_keys|done]|].
  eapply held_call with (P := λ _ κ', κ' = κ).
  { apply (held_forM (λ κ', κ' = κ)); [done|]. intros k ? _ ->. apply held_act_intro.
    eapply held_act_mono; [by apply held_log|]. by intros ? ? []. }
  intros _ ? ->. hcall held_name as ? [-> ->]; [done|].
  hcall held_pod as pod [-> _]. destruct pod as [pod|e']; [|done].
  hcall held_nodes as nodes [-> Hd]. hcall held_keys as keys [-> Hkeys]; [done|].
  eapply held_call with (P := λ _ κ', κ' = κ).
  { apply held_foldM; [done|]. intros b k ? Hin ->. apply held_reconcile_replica; auto. }
  intros [] ? ->; [|done]. eapply held_call; [apply held_gateway|done].
Qed.

Lemma held_locked κ : two κ → held (λ _ _, True) (reconcile_locked_code config configMapName) κ.
Proof.
  intros Htwo. unfold reconcile_locked_code. hcall held_index as idx (-> & _ & ->).
  case_bool_decide as Hi; [done|].
  eapply held_call; [apply held_act_intro, held_refresh|]. intros _ κ1 [Ht _].
  assert (two κ1) as Htwo1 by (unfold two; by rewrite Ht).
  eapply held_call; [by apply held_failover_check|]. intros failed κ2 [Htwo2 _].
  eapply held_call with (P := λ _ κ', κ' = κ2).
  { destruct failed as [e|]; [|done]. by hcall held_record_error as v [-> _]. }
  intros e ? ->. hcall held_main as t (-> & Hk & Heq). destruct t as [t|e'].
  - simpl in Hk. rewrite (Heq t eq_refl) in *. by apply held_reconcile_replicas.
  - by hcall held_record_error as v [-> _].
Qed.
(** ** The actions without the mutex *)

Lemma free_idle {B} (m : M (Ctl W) B) :
  keeps idle m → safe (running rg) m anything → free_act m anything.
Proof.
  intros Hm Hs s [Hsound Hrun]. destruct (Hs s Hrun) as (b & s' & Hr & Hrun' & _).
  pose proof (keeps_run _ _ _ _ _ Hm Hr) as Hi. destruct (idle_follows config _ _ Hi Hsound) as [HR HS].
  destruct (idle_sound config _ _ Hi Hsound) as [_ Hsound'].
  exists b, s'. split_and!; [done..|by split|done].
Qed.

Lemma free_op o : takes_mutex o = false → enabled rg o → free_act (run_op config configMapName o) anything.
Proof.
  intros Ho He s [Hs Hrun].
  destruct (op_completes config configMapName rg o s He Hrun Hs) as (s' & Hr & Hrun' & _ & Hs').
  pose proof (keeps_run _ _ _ _ _ (idle_unlocked config configMapName o Ho) Hr) as Hi.
  destruct (idle_follows config _ _ Hi Hs) as [HR HS]. exists (), s'. split_and!; [done..|by split|done].
Qed.

Lemma free_silent {B} (m : M (Ctl W) B) Φ :
  (∀ s, controller_inv s → ∃ b s', m s = (Ret b, s') ∧ trace_of s' = trace_of s ∧
     view s' = view s ∧ upstream false s' = upstream false s ∧ running rg s' ∧ Φ b) → free_act m Φ.
Proof.
  intros Hm s HI. destruct (Hm s HI) as (b & s' & Hr & T & V & U & Hrun & HΦ).
  assert (refines s s') as HR by (by apply refines_quiet).
  exists b, s'. split; [done|]. split; [done|]. split; [by apply steady_view|]. split; [|done].
  split; [|done]. by eapply refines_sound, HI.
Qed.

Lemma free_index :
  free_act (GetTargetMainIndex config configMapName) (λ b, ∃ i, b = Ok i).
Proof.
  apply free_silent. intros s [Hs Hrun]. rewrite GetTargetMainIndex_loaded by by apply sound_loaded.
  eexists _, s. eauto 10.
Qed.

Lemma free_now : free_act (cnet (call w_now)) anything.
Proof.
  apply free_idle; [apply idle_now|]. apply safe_running. intros X. apply safe_cnet. eauto with safe.
Qed.

Lemma free_leader : free_act IsLeader anything.
Proof. apply free_idle; [apply keeps_gets, _|apply safe_running; intros X; apply safe_gets]. Qed.

Lemma free_metrics start e : free_act (record_metrics start e) anything.
Proof.
  apply free_silent. intros s [Hs Hrun].
  destruct (safe_record_metrics rg start e s Hrun) as ([] & s' & Hr & Hrun' & _). exists (), s'.
  assert (∀ r, gateway_of r s' = gateway_of r s) as Hg.
  { revert Hr. unfold record_metrics, prom, cnet, zoom, call, modify, mbind, M_bind.
    destruct (w_now _) as [now w]; simpl. destruct (w_now w) as [now' w']; simpl. intros [= <-].
    by intros []. }
  pose proof Hr as (T & C & Hi & _)%record_metrics_run. split; [done|]. split; [done|].
  unfold view, ids, upstream. by rewrite C, Hi, !Hg.
Qed.

Lemma free_receive_failover : free_act receive_failover anything.
Proof.
  apply free_silent. intros s [_ (X & HI)]. pose proof HI as (_ & _ & _ & _ & [fq Hfq] & _).
  unfold receive_failover, gets, modify, mbind, M_bind. rewrite Hfq.
  destruct (q_receive fq) as [[ev fq']|]; eexists _, _; repeat split; exists X; [|done].
  by apply initialized_fq.
Qed.

Lemma free_receive_reconcile : free_act receive_reconcile anything.
Proof.
  apply free_silent. intros s [_ (X & HI)]. pose proof HI as (_ & _ & _ & [rq Hrq] & _).
  unfold receive_reconcile, gets, modify, mbind, M_bind. rewrite Hrq.
  destruct (q_receive rq) as [[ev rq']|]; eexists _, _; repeat split; exists X; [|done].
  by apply initialized_rq.
Qed.

Lemma free_admit_failover ev : free_act (admit_failover ev) anything.
Proof.
  apply free_silent. intros s [_ (X & HI)]. pose proof HI as (_ & _ & _ & _ & [fq Hfq] & _).
  unfold admit_failover, cnet, zoom, call, gets, modify, mbind, M_bind. rewrite Hfq.
  destruct (w_now _) as [now w]. destruct (q_admit _ _ _ _) as [[] fq'];
    eexists _, _; repeat split; exists X; [|done]. by apply initialized_fq.
Qed.

Lemma free_admit_reconcile ev : free_act (admit_reconcile ev) anything.
Proof.
  apply free_silent. intros s [_ (X & HI)]. pose proof HI as (_ & _ & _ & [rq Hrq] & _).
  unfold admit_reconcile, cnet, zoom, call, gets, modify, mbind, M_bind. rewrite Hrq.
  destruct (w_now _) as [now w]. destruct (q_admit _ _ _ _) as [[] rq'];
    eexists _, _; repeat split; exists X; [|done]. by apply initialized_rq.
Qed.

Lemma free_reads {B} (m : M (Ctl W) B) :
  keeps (effects reads) m → (∀ X, safe (initialized X rg) m anything) → free_act m anything.
Proof. intros Hm Hs. apply free_idle; [by apply idle_reads|by apply safe_running]. Qed.

Lemma free_close : free_act (gw_SetUpstreamAddress false "") anything.
Proof.
  apply free_idle; [apply idle_close|]. apply safe_running. intros X.
  by apply safe_gw_SetUpstreamAddress.
Qed.

(** [fcall L as pat]: the next action, by the rule [L]. *)
Tactic Notation "fcall" uconstr(L) "as" simple_intropattern(b) simple_intropattern(Hb) :=
  eapply free_call; [apply free_act_intro; apply L|intros b Hb].

Lemma free_prestop ticks e : free (λ _, True) (HandlePreStopHook_code config configMapName ticks e).
Proof.
  assert (free_act (isHealthy config configMapName) anything) as Hh.
  { apply free_reads; [by apply keeps_isHealthy|]. intros X. apply safe_isHealthy. }
  assert (free_act (logDetailedClusterStatus config configMapName) anything) as Hl.
  { apply free_reads; [by apply keeps_logDetailed|]. intros X.
    unfold logDetailedClusterStatus. solve_safe. }
  assert (free (λ _, True) (prestop_loop_code config configMapName ticks e)) as Hloop.
  { induction ticks as [|n IH]; cbn [prestop_loop_code]; [by fcall Hl as u _|].
    fcall Hh as o _. destruct o as [o|]; [|done]. by fcall Hl as u _. }
  unfold HandlePreStopHook_code.
  fcall (free_reads (gw_nil false)) as b _; [apply keeps_gw_nil|intros X; apply safe_gets|].
  destruct b; [done|]. by fcall free_close as u _.
Qed.

Lemma free_request r : free (λ _, True) (request_code config configMapName r).
Proof.
  unfold request_code. destruct (runs_prestop config r).
  - eapply free_call; [apply free_prestop|done].
  - apply free_act_intro. exact (free_op (OpRequest r) eq_refl Logic.I).
Qed.

Lemma free_looks {B} (m : M (Ctl W) B) :
  keeps looks m → (∀ X, safe (initialized X rg) m anything) → free_act m anything.
Proof. intros Hm Hs. apply free_idle; [by apply idle_looks|by apply safe_running]. Qed.

Lemma free_health : free (λ _, True) (health_code config configMapName).
Proof.
  pose proof (λ A (f : HealthProber → A * HealthProber), keeps_prober (W := W) f) as Hp.
  unfold health_code.
  fcall free_looks as ok _; [apply looks_check_main|intros X; unfold check_main; solve_safe|].
  destruct (negb ok).
  - fcall free_looks as l _; [unfold fail_main; solve_keeps| |done]. intros X. unfold fail_main.
    eapply safe_bind; [apply safe_prober|]. intros b _. by apply safe_ret.
  - fcall free_looks as u _; [apply Hp|intros X; apply safe_prober|].
    by fcall free_looks as l _; [apply looks_read_check|intros X; apply safe_read_check|].
Qed.

(** ** The threads *)

Lemma at_two κ s : key_at κ s → two κ.
Proof. intros ([[Ht _] _] & Hκ & _). unfold two. by rewrite <- Hκ. Qed.

Lemma reconciliation_ok k : thread_ok k → thread_ok (reconciliation_thread config configMapName k).
Proof.
  intros Hk. apply free_act_intro. eapply free_act_mono; [apply free_now|]. intros start _.
  intros κ s Hκ. eapply held_mono; [apply held_locked; by eapply at_two|]. intros r κ' _.
  apply free_act_intro. eapply free_act_mono; [apply free_metrics|]. by intros u _.
Qed.

Lemma tick_ok : thread_ok (tick_thread config configMapName).
Proof.
  apply free_act_intro. eapply free_act_mono; [apply free_leader|]. intros [] _; [|done]. simpl negb.
  apply free_act_intro. eapply free_act_mono; [apply free_index|]. intros b [i ->].
  by apply reconciliation_ok.
Qed.

Lemma failover_queue_ok : thread_ok (failover_queue_thread config configMapName).
Proof.
  apply free_act_intro. eapply free_act_mono; [apply free_receive_failover|]. intros [ev|] _; [|done].
  apply free_act_intro. eapply free_act_mono; [apply free_leader|]. intros [] _; [|done].
  apply free_act_intro. eapply free_act_mono; [apply free_admit_failover|]. intros [] _; [|done].
  intros κ s Hκ. eapply held_call; [apply held_failover_check; by eapply at_two|].
  intros e κ' _. apply held_act_intro. eapply held_act_mono; [by apply held_modify|done].
Qed.

Lemma reconcile_queue_ok : thread_ok (reconcile_queue_thread config configMapName).
Proof.
  apply free_act_intro. eapply free_act_mono; [apply free_receive_reconcile|]. intros [ev|] _; [|done].
  apply free_act_intro. eapply free_act_mono; [apply free_leader|]. intros [] _; [|done].
  apply free_act_intro. eapply free_act_mono; [apply free_admit_reconcile|]. intros [] _; [|done].
  by apply reconciliation_ok.
Qed.

Lemma operation_ok o : enabled rg o → thread_ok (thread_of config configMapName o).
Proof.
  intros He. destruct (takes_mutex o) eqn:Ho.
  { destruct o; try discriminate Ho; [apply tick_ok|apply reconcile_queue_ok|apply failover_queue_ok]. }
  assert (thread_ok (TRun false (act (run_op config configMapName o)) (λ _, TDone))) as Hop.
  { apply free_act_intro. eapply free_act_mono; [by apply free_op|done]. }
  destruct o; try discriminate Ho; try exact Hop.
  - eapply free_mono; [apply free_health|done].
  - eapply free_mono; [apply free_request|done].
Qed.

(** An operation of the controller, started at any time. *)
Definition operation_thread (t : thread (Ctl W)) : Prop :=
  ∃ o, enabled rg o ∧ t = thread_of config configMapName o.

Definition idle (s : Ctl W) : pool (Ctl W) := mkPool s None [].

Lemma idle_ok s : sound s → running rg s → pool_ok (idle s).
Proof. intros Hs Hr. split; [by split|]. by split. Qed.

Lemma concurrent_steps s p :
  sound s → running rg s → rtc (pool_step operation_thread) (idle s) p →
  refines s (p_state p) ∧ pool_ok p.
Proof.
  intros Hs Hrun. refine (pool_steps_ok operation_thread (idle s) p _ (idle_ok s Hs Hrun)).
  intros t (o & He & ->). by apply operation_ok.
Qed.

(** ** Properties *)



End Concurrency.

(** ** Witnesses: scripts of operations that start and threads that move *)

Inductive cue (W : Type) := Start (o : op W) | Go (i : nat).
Arguments Start {W} o.
Arguments Go {W} i.

Section play.
Context {W : Type} `{World W}.
Context (config : Config) (configMapName : string) (rg : bool).

Fixpoint play (cs : list (cue W)) (p : pool (Ctl W)) : option (pool (Ctl W)) :=
  match cs with
  | [] => Some p
  | Start o :: cs =>
      play cs (mkPool (p_state p) (p_holder p) (p_threads p ++ [thread_of config configMapName o]))
  | Go i :: cs =>
      match p_threads p !! i with
      | Some t =>
          match move i (p_holder p) t (p_state p) with
          | Some (h, t', s) => play cs (mkPool s h (<[i := t']> (p_threads p)))
          | None => None
          end
      | None => None
      end
  end.

Definition allowed (c : cue W) : Prop := match c with Start o => enabled rg o | Go _ => True end.

Lemma play_steps cs p p' :
  Forall allowed cs → play cs p = Some p' → rtc (pool_step (operation_thread config configMapName rg)) p p'.
Proof.
  intros Hcs. revert p. induction Hcs as [|[o|i] cs Hc _ IH]; intros p; simpl; [by intros [= ->]| |].
  - intros Hr. eapply rtc_l; [|by apply IH]. eapply pool_new; [by exists o|done].
  - destruct (p_threads p !! i) as [t|] eqn:Ht; [|done].
    destruct (move i (p_holder p) t (p_state p)) as [[[h t'] s]|] eqn:Hm; [|done].
    intros Hr. eapply rtc_l; [|by apply IH]. apply pool_go. by eapply pool_moves.
Qed.
End play.

Definition is_done {S} (t : thread S) : bool := match t with TDone => true | _ => false end.
Definition times (n : nat) (i : nat) : list (cue Sim) := replicate n (Go i).

(** *** A failover interrupted by a health check and a status request *)

Definition status_request : Request := mkRequest "GET" "/api/v1/status" None 0 (CtxErr "").

(** Thread 0 reports the main unready; thread 1 is the worker, interrupted by
    thread 2 after the gateways are closed and by thread 3 after the promotion. *)
Definition failover_script : list (cue Sim) :=
  [Start (OpPodUpdate (sim_pod 0) (unready_pod (GetPodName example_config 0) "10.0.0.1"))] ++
  times 2 0 ++ [Start OpFailoverQueue] ++ times 14 1 ++
  [Start OpHealthCheck] ++ times 2 2 ++ times 3 1 ++ [Start (OpRequest status_request)] ++
  times 2 3 ++ times 12 1.

Definition failover_end : pool (Ctl Sim) :=
  default (idle sim_failed) (play example_config "memgraph-state" failover_script (idle sim_failed)).

Lemma failover_reaches :
  rtc (pool_step (operation_thread example_config "memgraph-state" true)) (idle sim_failed) failover_end.
Proof.
  apply (play_steps example_config "memgraph-state" true failover_script).
  { repeat constructor. }
  unfold failover_end. destruct (play _ _ _ _) eqn:Hp; [done|].
  assert (is_nil (play example_config "memgraph-state" failover_script (idle sim_failed)) = false) as Hn
    by (vm_compute; reflexivity).
  by rewrite Hp in Hn.
Qed.

Lemma sim_failed_running : running true sim_failed.
Proof. exists sim_pods_set. apply sim_failed_initialized. Qed.




(** *** The preStop hook against a reconciliation

    The hook of the main's pod closes the read/write gateway, to keep clients
    away until the pod is gone.  A reconciliation that had checked the pod
    before its deletion started opens the gateway again; the hook then sees a
    healthy cluster and succeeds, with the gateway open to the dying main. *)

(** The hook, which may only end in success: its error would be a panic. *)
Definition hook_thread : thread (Ctl Sim) :=
  TRun false (HandlePreStopHook_code example_config "memgraph-state" 1 (CtxErr "deadline")) (λ err,
  match err with
  | None => TDone
  | Some err => TRun false (act (panic (error_string err))) (λ _ : (), TDone)
  end).

Definition deleting_world : Sim :=
  let w := sim_world (Some db_main) (Some db_replica) in
  mkSim [terminating_pod (GetPodName example_config 0) "10.0.0.1"; sim_pod 1]
    (sim_dbs w) (sim_drivers w) (sim_next w) (sim_cm w) (sim_clock w).

Definition prestop_pool : pool (Ctl Sim) :=
  mkPool sim_healthy None
    [tick_thread example_config "memgraph-state";
     thread_of example_config "memgraph-state" (OpWorld deleting_world); hook_thread].

Definition prestop_picks : list nat :=
  replicate 29 0 ++ [1; 1] ++ [2; 2] ++ [0] ++ [2; 2] ++ replicate 3 0.

Definition prestop_end : pool (Ctl Sim) := default prestop_pool (schedule prestop_picks prestop_pool).

Example prestop_gateway_reopened :
  is_nil (schedule prestop_picks prestop_pool) = false ∧
  is_done <$> p_threads prestop_end = [true; true; true] ∧
  (isPodTerminating ∘ Some <$> sim_pods (net_world (ctl_net (p_state prestop_end)))) = [true; false] ∧
  upstream false (p_state prestop_end) = Some (sim_bolt 0).
Proof. vm_compute. auto. Qed.

(** *** A discovery against a failover

    The discovery of a tick that could not read the ConfigMap runs without the
    mutex, and so does the write of the index it found.  If the ConfigMap can be
    read again meanwhile, a failover fits in between: the discovery's index is
    stored over the failover's, with the read/write gateway open to the new
    main.  So the theorems above start from an index that is loaded. *)
Definition sim_unread : Ctl Sim :=
  set_gateway false (Some (sim_server "main-gw"))
    (sim_ctl (sim_world (Some db_main) (Some db_replica)) (-1) sim_nodes None).

Definition readable_world : Sim :=
  let w := sim_set_cm {[ "targetMainIndex" := "0" ]} (sim_world (Some db_main) (Some db_replica)) in
  mkSim [unready_pod (GetPodName example_config 0) "10.0.0.1"; sim_pod 1]
    (sim_dbs w) (sim_drivers w) (sim_next w) (sim_cm w) (sim_clock w).

(** The tick up to the index it found; the failover; the tick's write. *)
Definition discovery_script : list (cue Sim) :=
  [Start OpTick] ++ times 6 0 ++
  [Start (OpWorld readable_world); Go 1; Go 1;
   Start (OpPodUpdate (sim_pod 0) (unready_pod (GetPodName example_config 0) "10.0.0.1"))] ++
  times 2 2 ++ [Start OpFailoverQueue] ++ times 28 3 ++ times 1 0.

Definition discovery_end : pool (Ctl Sim) :=
  default (idle sim_unread) (play example_config "memgraph-state" discovery_script (idle sim_unread)).

(** The gateway, the role of the pod behind it, the indexes stored, and the index
    in memory. *)
Definition outcome_of (s : Ctl Sim) : option string * option string * list (option string) * Z :=
  (upstream false s, db_role <$> sim_dbs (net_world (ctl_net s)) !! sim_bolt 1,
   (λ d : cm_data, d !! "targetMainIndex") <$> stored (trace_of s), ctl_targetMainIndex s).

Example discovery_overwrites_failover :
  outcome_of (p_state discovery_end) =
    (Some (sim_bolt 1), Some "main", [Some "1"; Some "0"], 0%Z).
Proof. vm_compute. reflexivity. Qed.
